(* ===== verification/_CoqProject ===== *)
-Q . S2P
Prelude.v
Bytes.v
Crypto.v
Kdf.v
Net.v
Guard.v
Errors.v
Dedup.v
Config.v
TestKit.v
Health.v
PeerCard.v
Msgpack.v
State.v
PeerEnvelope.v
GroupEnvelope.v
Coordinator.v
SlotWatch.v
SignedPacket.v
Pkarr.v
PkarrLite.v
Iroh.v
Runtime.v
Namespace.v
PeerNamespace.v
PeerChannels.v
PeerWatch.v
AgentConfig.v
Agent.v
AgentServe.v
IrohEcho.v
Relay.v
RelaySched.v
Http.v
HttpRelay.v
RelayQueue.v
System.v
PeerSystem.v
Surface.v
Fuzz.v
