(* ===== verification/Prelude.v ===== *)
(** * Verification of enlace

    enlace lets endpoints that share a 32-byte seed, or that trust each
    other's peer cards, exchange sealed messages (mailboxes, delivered once)
    and publish versioned values (slots, last writer wins) over several
    untrusted transports at once.  This library models the Rust crates
    [enlace] (crates/enlace/src), [enlace-relay], [enlace-agent] and
    [enlace-testkit] (their src/lib.rs), the signed packets of the vendored
    pkarr (vendor/pkarr/src), and the native programs the TypeScript packages
    are tested against (packages/pkarr-lite/native and
    packages/iroh-lite/native/iroh-echo), and proves what makes them correct.

    ** Parts of the program and the files that model them

    A namespace opens the configured transports and hands them to the
    coordinator, which seals, fans out and combines answers; a peer namespace
    does the same with envelopes between trusted identities.  Both record
    slot versions, trust and group keys in a state store.  The transports
    are the HTTP relay, iroh gossip and pkarr records; the agent serves a peer
    namespace to local clients.

    Each operation of the source is one definition with the source's name
    (methods as [Type_method]); its guards and early returns are in the order
    of the code.

    - Prelude: results with panics, the bind notation, list lemmas, tactics.
    - Bytes, Net: the parts of the standard library the sources use: byte
      strings, big-endian integers, decimal and hexadecimal text, UTF-8,
      socket addresses with their [Display] and [FromStr].
    - Crypto (crypto.rs), Kdf (kdf.rs), Guard (guard.rs), Errors (error.rs and
      the error enums of state.rs and peer.rs), Config (config.rs).
    - Dedup (dedup.rs): the buffer of recently seen digests.
    - TestKit (enlace-testkit): the operations of the in-memory, lossy and
      delaying transports as programs with suspension points, stacks of them,
      and overlapping calls on a stack as a transition system.
    - Health (transports.rs): the health tracker of the transports.
    - PeerCard, PeerEnvelope, GroupEnvelope (peer.rs): peer ids, cards and
      their codecs, identities, pairwise and group envelopes.
    - Msgpack: the interface of the MessagePack codec.
    - State (state.rs): the slot-version counters, trusted peers and group
      keys, the in-memory and the file store, the snapshot, and the interface
      [SlotVersionLaws] that the coordinator relies on.
    - Coordinator (coordinator.rs, reports of mailbox.rs and slot.rs): sealing
      and opening, send, receive, subscribe, put and get over all transports.
    - SlotWatch (coordinator.rs [slot_watch], slot.rs [SlotWatch]): the tasks
      of a watch as a transition system.
    - SignedPacket (vendor/pkarr): names under a key, building, signing,
      encoding and verifying packets, the errors of a publication.
    - Pkarr (transports/pkarr.rs): slots as TXT records, the packet that
      fits, the retrying put against a network that answers anything.
    - PkarrLite (packages/pkarr-lite/native): the commands that print, check,
      publish and resolve packet vectors.
    - Iroh (transports/iroh.rs): topics, frames, retained slots, the tasks
      that broadcast, the topic table under overlapping calls, the peer table,
      the endpoint and its connection gate, the task of a watch.
    - Runtime (runtime.rs): timers, and the receive of an iroh topic against a
      timeline of notifications.
    - Namespace (namespace.rs, mailbox.rs, slot.rs): opening a namespace and
      its handles.
    - PeerNamespace, PeerChannels, PeerWatch (peer.rs): the peer namespace,
      its mailboxes and slots, the tasks of a peer watch.
    - AgentConfig, Agent (enlace-agent): options, secrets and identity;
      requests, handlers, routes, connections and subscriptions.  AgentServe:
      the listeners from start to shutdown as a transition system, the path
      of the Unix socket and the lines written to it.
    - IrohEcho (packages/iroh-lite/native/iroh-echo): the echo and gossip
      commands in a writer monad over an outside world that answers their
      calls, and the gossip vectors in a state monad over the protocol states.
    - Relay (enlace-relay): configuration, tables, handlers, long polls and
      persisted slots.
    - RelaySched (enlace-relay): overlapping requests as a transition system
      of request threads.
    - Http (transports/http.rs): the client of the relay; HttpRelay composes
      it with the handlers of Relay.
    - RelayQueue: the relay between requests, and what one request of the HTTP
      transport does to the frames of one mailbox.  System: namespaces opened
      with the HTTP transport, the relay and anybody else who posts frames, as
      one transition system built from the operations of Namespace,
      Coordinator, Http and Relay, and the abstract channel it implements.
      PeerSystem: the same for peer namespaces, whose receiver trusts and
      revokes peers in between.
    - Surface: the handle of the state store, the causes of errors, the
      renderings for logs, and the start of the relay.
    - Fuzz (fuzzing.rs): the two fuzz targets with their parsers.

    ** State, effects and concurrency

    A [Result] is [result], which adds the outcome [Panic] of a failed
    [expect] or checked operation.  Stateful code passes its state: the tables
    of a store, the duplicate buffer, the health tracker.  Every reading of a
    clock, every random nonce and every outcome of an operating-system call is
    an argument, so that theorems hold for all of them.  The concurrency of a
    fan-out is the order in which its tasks complete, an argument of the
    operation; the concurrency of a watch, of gossip topics, of an agent
    connection, of the test transports and of the relay is a step relation whose steps are the
    accesses to shared state between two suspension points, and theorems
    quantify over all reachable states.

    Code outside the repository is a class with its documented laws:
    [Primitives] (the AEAD, Ed25519, X25519, HKDF, SHA-256), [LruCache],
    [UrlLib], [Base64] and [StandardBase64], [Msgpack], [Axum], [HttpLib] and
    [Wire] (the HTTP stacks of the client and between client and relay),
    [IrohLib] (endpoint keys), [DnsLib] and [DnsCodec] (names and packets),
    [PkarrLib], [AgentJson] (parsed requests), [HeaderLib] (header names and
    values), [HexLib] and [SvcbLib] (the vectors), [GossipLib] (protocol
    states and their encodings), [FileSystem].  Each has a concrete instance,
    and the modules whose names end in Witness evaluate the theorems on them.

    ** What the theorems show

    - Envelopes: what is sealed opens, for exactly the addressed recipients or
      key holders, with the payload and the sender; what opens was signed by a
      trusted key for this channel; the signed bytes determine the content.
    - Cards, names, keys: codec round trips, decoding accepts only records
      that bind the id to the key, key derivations are domain separated.
    - State: local versions exceed every version issued or observed; the
      snapshot restores the tables; a process that dies at any instant of a
      flush leaves the old or the new tables, while a loss of power may not,
      since nothing is synced.
    - Duplicate buffer and health: behaviour on whole histories against a
      reference definition.
    - Coordinator: round trip of sealing, authenticity, what one round of
      receive delivers and that receive returns, exact reports of send, get
      returns the newest value whatever the order of completion, a put after a
      get is newer than what was read.
    - Watches: safety and completeness under every schedule, order with one
      transport, and the reordering that two transports allow; the peer watch
      delivers each value once, in increasing order, and only what opened
      under the trust of a moment it lived through.
    - Namespaces: a message sent in one namespace arrives in another with the
      same seed, or at the trusted peer or group it addresses; a peer put is
      read back; the gate of the iroh endpoint follows changes of trust, with
      examples of what goes wrong when peers share an endpoint or are
      configured twice.
    - HTTP and relay: mailboxes are bounded FIFOs, slots are versioned
      registers whose reads do not go back, a restart recovers what was
      persisted, no wakeup is lost; through the client, what is sent or put is
      what is received or read; and the schedules in which persistence goes
      wrong.
    - iroh: topics that received the same messages agree on the slot; every
      accepted message is queued or given to one task, which hands it over
      once and in the order of its batch, while batches may overtake each
      other; the connection limiter of a bound endpoint counts open
      connections and never exceeds the configured limit; overlapping calls
      for a channel share one topic, which is renewed when a peer is dropped;
      a receive returns what arrives by its deadline and gives up no earlier.
    - pkarr: a packet holds the longest prefix of the records that fits; a put
      that reports success is read back; whatever the network answers, a put
      publishes at most four packets, each the packet it read with a newer
      value in its slot, and the put that read nothing publishes a packet
      without the other slots.
    - Agent: a sent message reaches the subscriber; a session writes messages
      and replies in order and loses none while it is open; a WebSocket
      listener always requires the token; the run ends well only after a
      shutdown and with all web connections closed, with an error exactly when
      a listener failed, and after a shutdown it always winds down as far as
      its connections do; starting the Unix listener touches no other file
      than its path.
    - System: any interleaving of sends, foreign frames and receive rounds
      over a relay answers like a bounded channel with duplicate suppression;
      what namespaces send arrives in order; a slot whose value the namespace
      opens can be read and written, and is then read back by every namespace
      of the seed that accepts the signer; a value that does not open blocks
      the writer.  Over
      the same relay, peers' messages arrive in order exactly as far as their
      senders are trusted when the messages are opened, a revoked peer is not
      heard again, and two examples show what is lost with groups: all members
      poll one mailbox, and a round drops the answers it does not return.
    - Surface: chains of causes end and every text names its cause, log lines
      do not depend on secrets, a relay with a certificate never serves in the
      clear.
    - Fuzz: no input makes a target panic, and the sealed half of the inputs
      reaches the record decoder.
    - Native test peers: vectors are accepted exactly when they state the
      truth about a signed packet, and the printed ones are; the gossip
      vectors read back as the frames of the protocol's messages; the echo
      and gossip commands of both sides meet.
    - Test kit: stacks of the three transports are linearizable, except for
      what a lossy one loses; overlapping delayed calls may change places.

    Theorems that establish a defect of the code are stated as such (their
    comments say what goes wrong).

    ** Bounds and fuel

    Machine integers are [N] with their bound where the code depends on it
    ([u64_max], [u32_max], the last representable [SystemTime]).  Loops that
    are not structural carry fuel: the receive loop and the relay's long polls
    take a number of rounds ([mailbox_recv_returns] bounds it), the eviction
    loop of the relay takes two more tests than the queue is long
    ([evict_ends] shows that this is enough for every configuration the
    constructors produce), decimal printing takes as many digits as the
    largest value has.  A pkarr put makes the fixed number of attempts of
    the source, and the loop that drops records from a packet runs once more
    than there are records ([build_packet_longest_prefix] shows that this is
    enough).  A chain of error causes is followed with fuel, of which two are
    enough ([causes_end]).  The receive of the in-memory transport and the watch loop of the
    HTTP transport take a number of rounds, and their theorems hold for every
    number.  The loops of the other watches and of the agent's connections are
    unbounded in the source: they are step relations and need no fuel.

    ** Not modelled

    Spawning tasks, the TLS glue (what TLS does on the wire), the relays, the DHT client and the caches of the
    vendored pkarr, binding the sockets of the relay and signal handling, the
    TypeScript packages: input and output through third-party code with no
    logic of the program's own, or another language.  The tests of the crates
    are not modelled either. *)

From stdpp Require Export base tactics list gmap sets strings sorting.
From Stdlib Require Export NArith Lia.

(** ** Results

    [result T E] is Rust's [Result<T, E>] extended with the outcome of a
    panicking [expect] or arithmetic check: [Panic] propagates through every
    caller exactly as unwinding does, and theorems that a call succeeds rule
    it out. *)
Inductive result (T E : Type) : Type :=
| Ok (t : T)
| Err (e : E)
| Panic.
Arguments Ok {T E} _.
Arguments Err {T E} _.
Arguments Panic {T E}.

Definition rbind {T U E} (c : result T E) (k : T → result U E) : result U E :=
  match c with
  | Ok t => k t
  | Err e => Err e
  | Panic => Panic
  end.

Definition map_err {T E F} (f : E → F) (c : result T E) : result T F :=
  match c with
  | Ok t => Ok t
  | Err e => Err (f e)
  | Panic => Panic
  end.

Definition rmap {T U E} (f : T → U) (c : result T E) : result U E :=
  match c with
  | Ok t => Ok (f t)
  | Err e => Err e
  | Panic => Panic
  end.

Definition ok_or {T E} (o : option T) (e : E) : result T E :=
  match o with
  | Some t => Ok t
  | None => Err e
  end.

(** [Option::expect]: a panic on [None]. *)
Definition expect {T E} (o : option T) : result T E :=
  match o with
  | Some t => Ok t
  | None => Panic
  end.

(** [Result::ok]. A panic is not caught by [ok]; callers that drop errors
    keep it as [Panic] by working in [result] and using [ok] only where the
    callee cannot panic. *)
Definition ok {T E} (c : result T E) : option T :=
  match c with
  | Ok t => Some t
  | _ => None
  end.

(** An early return: [if b { return Err(e) }]. *)
Definition guard_err {E} (b : bool) (e : E) : result unit E :=
  if b then Err e else Ok tt.

Declare Scope enlace_scope.
Delimit Scope enlace_scope with enlace.
Open Scope enlace_scope.

Notation "'let!' x ':=' c 'in' k" := (rbind c (λ x, k))
  (at level 200, x pattern, c at level 200, k at level 200,
   format "'[v' 'let!'  x  ':='  c  'in' '/' k ']'") : enlace_scope.

(** [iter().map(f).collect::<Result<Vec<_>, _>>()]: stops at the first
    failing element. *)
Fixpoint map_result {A B E} (f : A → result B E) (l : list A) : result (list B) E :=
  match l with
  | [] => Ok []
  | a :: l' =>
      let! b := f a in
      let! bs := map_result f l' in
      Ok (b :: bs)
  end.

(** A [for] loop whose body may return early: a left fold in [result]. *)
Fixpoint foldl_result {A S E} (f : S → A → result S E) (s : S) (l : list A) : result S E :=
  match l with
  | [] => Ok s
  | a :: l' =>
      let! s' := f s a in
      foldl_result f s' l'
  end.

(** [iter().find(p)]. *)
Fixpoint find_first {A} (p : A → bool) (l : list A) : option A :=
  match l with
  | [] => None
  | a :: l' => if p a then Some a else find_first p l'
  end.

(** [iter().filter_map(f)]. *)
Fixpoint filter_map {A B} (f : A → option B) (l : list A) : list B :=
  match l with
  | [] => []
  | a :: l' =>
      match f a with
      | Some b => b :: filter_map f l'
      | None => filter_map f l'
      end
  end.

(** ** Tactics *)

(** Case analysis on the scrutinee of the first [match] or [if] of the goal
    or of a hypothesis, keeping the equation. *)
Ltac split_match :=
  match goal with
  | |- context [match ?x with _ => _ end] => destruct x eqn:?
  | H : context [match ?x with _ => _ end] |- _ => destruct x eqn:?
  end.

(** Inverts a chain of binds that is known to end in [Ok], [Err] or [Panic]. *)
Ltac inv_bind :=
  repeat match goal with
  | H : rbind ?c _ = _ |- _ => destruct c eqn:?; simpl in H
  | H : Ok _ = Ok _ |- _ => injection H; clear H; intros; subst
  | H : Err _ = Err _ |- _ => injection H; clear H; intros; subst
  | H : Ok _ = Err _ |- _ => discriminate H
  | H : Err _ = Ok _ |- _ => discriminate H
  | H : Panic = Ok _ |- _ => discriminate H
  | H : Ok _ = Panic |- _ => discriminate H
  | H : Panic = Err _ |- _ => discriminate H
  | H : Err _ = Panic |- _ => discriminate H
  | H : guard_err ?b _ = _ |- _ => unfold guard_err in H; destruct b eqn:?
  end.

(** Turns the boolean comparisons of the hypotheses into propositions. *)
Ltac reflect_bools :=
  repeat match goal with
  | H : (_ && _)%bool = true |- _ => apply andb_true_iff in H as [? ?]
  | H : (_ || _)%bool = false |- _ => apply orb_false_iff in H as [? ?]
  | H : negb _ = true |- _ => apply negb_true_iff in H
  | H : negb _ = false |- _ => apply negb_false_iff in H
  | H : N.ltb _ _ = true |- _ => apply N.ltb_lt in H
  | H : N.ltb _ _ = false |- _ => apply N.ltb_ge in H
  | H : N.leb _ _ = true |- _ => apply N.leb_le in H
  | H : N.leb _ _ = false |- _ => apply N.leb_gt in H
  | H : N.eqb _ _ = true |- _ => apply N.eqb_eq in H
  | H : N.eqb _ _ = false |- _ => apply N.eqb_neq in H
  | H : Nat.ltb _ _ = true |- _ => apply Nat.ltb_lt in H
  | H : Nat.ltb _ _ = false |- _ => apply Nat.ltb_ge in H
  | H : Nat.leb _ _ = true |- _ => apply Nat.leb_le in H
  | H : Nat.leb _ _ = false |- _ => apply Nat.leb_gt in H
  | H : Nat.eqb _ _ = true |- _ => apply Nat.eqb_eq in H
  | H : Nat.eqb _ _ = false |- _ => apply Nat.eqb_neq in H
  | H : bool_decide _ = true |- _ => apply bool_decide_eq_true in H
  | H : bool_decide _ = false |- _ => apply bool_decide_eq_false in H
  end.

(** Evaluates a closed equation without normalising its type. *)
Ltac vm_refl :=
  lazymatch goal with
  | |- ?x = _ => vm_cast_no_check (eq_refl x)
  end.

Create HintDb enlace.

(** ** Shared lemmas *)

Lemma rbind_Ok {T U E} (c : result T E) (k : T → result U E) u :
  rbind c k = Ok u ↔ ∃ t, c = Ok t ∧ k t = Ok u.
Proof. destruct c; simpl; naive_solver. Qed.

Lemma ok_or_Ok {T E} (o : option T) (e : E) t : ok_or o e = Ok t ↔ o = Some t.
Proof. destruct o; simpl; naive_solver. Qed.

Lemma expect_Ok {T E} (o : option T) t : expect (E:=E) o = Ok t ↔ o = Some t.
Proof. destruct o; simpl; naive_solver. Qed.

Lemma guard_err_Ok {E} b (e : E) u : guard_err b e = Ok u ↔ b = false.
Proof. destruct b, u; simpl; naive_solver. Qed.

Lemma map_err_Ok {T E F} (f : E → F) (c : result T E) t : map_err f c = Ok t ↔ c = Ok t.
Proof. destruct c; simpl; naive_solver. Qed.

Lemma map_result_Ok_Forall2 {A B E} (f : A → result B E) l l' :
  map_result f l = Ok l' ↔ Forall2 (λ a b, f a = Ok b) l l'.
Proof.
  revert l'; induction l as [|a l IH]; intros l'; simpl.
  - split; [intros [= <-]; constructor | inversion 1; done].
  - split.
    + intros H. inv_bind. constructor; [done |]. by apply IH.
    + inversion 1 as [|? b ? bs Hb Hbs]; subst. rewrite Hb. simpl.
      apply IH in Hbs. by rewrite Hbs.
Qed.

Lemma map_result_map_Ok {A B C E} (f : B → result C E) (g : A → B) (h : A → C) l :
  (∀ a, a ∈ l → f (g a) = Ok (h a)) →
  map_result f (map g l) = Ok (map h l).
Proof.
  induction l as [|a l IH]; simpl; intros H; [done |].
  rewrite H by apply list_elem_of_here. simpl.
  rewrite IH; [done |]. intros x Hx. apply H. by apply list_elem_of_further.
Qed.

Lemma map_result_length {A B E} (f : A → result B E) l l' :
  map_result f l = Ok l' → length l' = length l.
Proof.
  intros H%map_result_Ok_Forall2. symmetry. by eapply Forall2_length.
Qed.

Lemma StronglySorted_snoc {A} (R : A → A → Prop) l x :
  StronglySorted R l → Forall (λ y, R y x) l → StronglySorted R (l ++ [x]).
Proof.
  induction 1 as [|y l Hl IH Hy]; intros Hf; cbn [app]; [by repeat constructor |].
  inversion_clear Hf. constructor; [by apply IH |]. apply Forall_app. by repeat constructor.
Qed.

Lemma find_first_Some {A} (p : A → bool) l a :
  find_first p l = Some a → a ∈ l ∧ p a = true.
Proof.
  induction l as [|b l IH]; simpl; [done |].
  destruct (p b) eqn:E.
  - intros [= ->]. split; [apply list_elem_of_here | done].
  - intros [? ?]%IH. split; [by apply list_elem_of_further | done].
Qed.

Lemma find_first_None {A} (p : A → bool) l :
  find_first p l = None ↔ ∀ a, a ∈ l → p a = false.
Proof.
  induction l as [|b l IH]; simpl.
  - split; [intros _ a Ha; by apply not_elem_of_nil in Ha | done].
  - destruct (p b) eqn:E.
    + split; [done |]. intros H. rewrite H in E; [done | apply list_elem_of_here].
    + rewrite IH. split.
      * intros H a [-> | Ha]%elem_of_cons; [done | by apply H].
      * intros H a Ha. apply H. by apply list_elem_of_further.
Qed.

Lemma find_first_unique {A} (p : A → bool) l a :
  a ∈ l → p a = true → (∀ b, b ∈ l → p b = true → b = a) →
  find_first p l = Some a.
Proof.
  intros Ha Hp Hu. destruct (find_first p l) as [b|] eqn:E.
  - apply find_first_Some in E as [Hb Hpb]. f_equal. by apply Hu.
  - rewrite find_first_None in E. by rewrite (E a Ha) in Hp.
Qed.

Lemma filter_map_app {A B} (f : A → option B) l k :
  filter_map f (l ++ k) = filter_map f l ++ filter_map f k.
Proof. induction l as [|a l IH]; simpl; [done |]. destruct (f a); simpl; by rewrite IH. Qed.

Lemma filter_map_Permutation {A B} (f : A → option B) l k :
  l ≡ₚ k → filter_map f l ≡ₚ filter_map f k.
Proof.
  induction 1 as [|a l k H IH|a b l|l k m H1 IH1 H2 IH2]; simpl; [done | | | by etransitivity].
  - destruct (f a); by rewrite IH.
  - destruct (f a), (f b); try done. apply Permutation_swap.
Qed.

Lemma elem_of_filter_map {A B} (f : A → option B) l b :
  b ∈ filter_map f l ↔ ∃ a, a ∈ l ∧ f a = Some b.
Proof.
  induction l as [|x l IH]; simpl.
  - split; [intros H; by apply not_elem_of_nil in H |].
    intros (a & Ha & _). by apply not_elem_of_nil in Ha.
  - destruct (f x) as [y|] eqn:E.
    + rewrite elem_of_cons, IH. setoid_rewrite elem_of_cons. naive_solver.
    + rewrite IH. setoid_rewrite elem_of_cons. naive_solver.
Qed.

#[export] Hint Resolve list_elem_of_here list_elem_of_further : enlace.
