(* ===== verification/Bytes.v ===== *)
(** * Bytes, fixed-width integers and text

    The data every component works on: [u8] is [Byte.byte], [Vec<u8>], [&[u8]],
    [String] and [&str] are lists of bytes, [[u8; N]] is a byte list with a
    length hypothesis, and the unsigned machine integers are [N] with their
    bound written where it matters.  The functions are those of the Rust
    standard library the sources call: big-endian integer codecs, lowercase
    hexadecimal, integer parsing and printing, slice ordering and UTF-8
    validation. *)

From S2P Require Import Prelude.
From Stdlib Require Export Strings.Byte.

(** [lia] with division and remainder by constants. *)
Ltac Zify.zify_post_hook ::= Z.to_euclidean_division_equations.

Abbreviation bytes := (list byte).

#[export] Instance byte_eq_dec : EqDecision byte := Byte.byte_eq_dec.

#[export] Instance byte_inhabited : Inhabited byte := populate x00.

(** A string literal [b"..."] as bytes. *)
Definition lit (s : string) : bytes := String.list_byte_of_string s.

Definition u8_max : N := 255.
Definition u32_max : N := 4294967295.
Definition u64_max : N := 18446744073709551615.

(** [usize] on the 64-bit targets. *)
Definition usize_max : N := u64_max.

Definition len {A} (l : list A) : N := N.of_nat (length l).

(** Truncation to the low eight bits ([as u8]). *)
Definition byte_of_N (n : N) : byte :=
  match Byte.of_N (n mod 256) with
  | Some b => b
  | None => x00
  end.

(** [uN::to_be_bytes] for an [n]-byte integer. *)
Fixpoint to_be_bytes (n : nat) (v : N) : bytes :=
  match n with
  | O => []
  | S m => byte_of_N (v / 256 ^ N.of_nat m) :: to_be_bytes m v
  end.

(** [uN::from_be_bytes]. *)
Definition from_be_bytes (l : bytes) : N :=
  foldl (λ acc b, acc * 256 + Byte.to_N b)%N 0%N l.

(** [u32::try_from(usize)]. *)
Definition u32_try_from (n : N) : option N :=
  if (n <=? u32_max)%N then Some n else None.

(** [[u8; N]::try_from(&[u8])]. *)
Definition array_from_slice (n : nat) (l : bytes) : option bytes :=
  if length l =? n then Some l else None.

(** The all-zero check [iter().all(|&b| b == 0)]. *)
Definition all_zero (l : bytes) : bool := forallb (λ b, bool_decide (b = x00)) l.

(** ** Ordering of slices and of (version, bytes) pairs *)

(** [Ord for [u8]]: lexicographic on unsigned bytes. *)
Fixpoint bytes_ltb (a b : bytes) : bool :=
  match a, b with
  | _, [] => false
  | [], _ :: _ => true
  | x :: a', y :: b' =>
      if (Byte.to_N x <? Byte.to_N y)%N then true
      else if (Byte.to_N x =? Byte.to_N y)%N then bytes_ltb a' b'
      else false
  end.

(** [Ord for (u64, &[u8])]. *)
Definition pair_ltb (p q : N * bytes) : bool :=
  if (p.1 <? q.1)%N then true
  else if (p.1 =? q.1)%N then bytes_ltb p.2 q.2
  else false.

(** ** Hexadecimal and decimal text *)

Definition hex_digit (n : N) : byte :=
  if (n <? 10)%N then byte_of_N (48 + n) else byte_of_N (87 + n).

(** [write!(f, "{byte:02x}")]. *)
Definition hex_byte (b : byte) : bytes :=
  [hex_digit (Byte.to_N b / 16); hex_digit (Byte.to_N b mod 16)].

Definition hex_bytes (l : bytes) : bytes := concat (map hex_byte l).

(** [char::to_digit(radix)] on an ASCII byte. *)
Definition to_digit (radix : N) (b : byte) : option N :=
  let n := Byte.to_N b in
  let d :=
    if ((48 <=? n) && (n <=? 57))%N%bool then Some (n - 48)%N
    else if ((97 <=? n) && (n <=? 122))%N%bool then Some (n - 87)%N
    else if ((65 <=? n) && (n <=? 90))%N%bool then Some (n - 55)%N
    else None in
  match d with
  | Some d => if (d <? radix)%N then Some d else None
  | None => None
  end.

(** The digit loop of [uN::from_str_radix]: [checked_mul] then [checked_add]. *)
Definition radix_step (radix max : N) (acc : option N) (b : byte) : option N :=
  match acc, to_digit radix b with
  | Some a, Some d =>
      if (a * radix <=? max)%N then
        if (a * radix + d <=? max)%N then Some (a * radix + d)%N else None
      else None
  | _, _ => None
  end.

(** [uN::from_str_radix]: one optional leading [+], at least one digit, an
    error on any other byte and on overflow. *)
Definition from_str_radix (radix max : N) (s : bytes) : option N :=
  match s with
  | [] => None
  | b :: s' =>
      let digits := if decide (b = x2b) then s' else s in
      match digits with
      | [] => None
      | _ => foldl (radix_step radix max) (Some 0%N) digits
      end
  end.

(** [str::parse::<u64>]. *)
Definition parse_u64 (s : bytes) : option N := from_str_radix 10 u64_max s.

Fixpoint dec_digits (fuel : nat) (n : N) : bytes :=
  match fuel with
  | O => []
  | S f =>
      if (n <? 10)%N then [hex_digit n]
      else dec_digits f (n / 10) ++ [hex_digit (n mod 10)]
  end.

(** [u64::to_string]; twenty digits hold every [u64]. *)
Definition u64_to_string (n : N) : bytes := dec_digits 20 n.

(** ** UTF-8 *)

Definition in_range (lo hi : N) (b : byte) : bool :=
  ((lo <=? Byte.to_N b) && (Byte.to_N b <=? hi))%N%bool.

Definition utf8_cont (b : byte) : bool := in_range 128 191 b.

(** [core::str::from_utf8] accepts the byte string. *)
Fixpoint utf8_valid (s : bytes) : bool :=
  match s with
  | [] => true
  | b0 :: s1 =>
      if in_range 0 127 b0 then utf8_valid s1
      else
        match s1 with
        | [] => false
        | b1 :: s2 =>
            if in_range 194 223 b0 then utf8_cont b1 && utf8_valid s2
            else
              match s2 with
              | [] => false
              | b2 :: s3 =>
                  if in_range 224 239 b0 then
                    (if in_range 224 224 b0 then in_range 160 191 b1
                     else if in_range 237 237 b0 then in_range 128 159 b1
                     else utf8_cont b1)
                    && utf8_cont b2 && utf8_valid s3
                  else
                    match s3 with
                    | [] => false
                    | b3 :: s4 =>
                        if in_range 240 244 b0 then
                          (if in_range 240 240 b0 then in_range 144 191 b1
                           else if in_range 244 244 b0 then in_range 128 143 b1
                           else utf8_cont b1)
                          && utf8_cont b2 && utf8_cont b3 && utf8_valid s4
                        else false
                    end
              end
        end
  end.

(** ** Lemmas on bytes *)

Lemma to_N_byte_of_N n : Byte.to_N (byte_of_N n) = (n mod 256)%N.
Proof.
  unfold byte_of_N. destruct (Byte.of_N (n mod 256)) as [b|] eqn:E.
  - by apply Byte.to_of_N.
  - apply Byte.of_N_None_iff in E.
    pose proof (N.mod_lt n 256 ltac:(done)). lia.
Qed.

Lemma byte_of_N_to_N b : byte_of_N (Byte.to_N b) = b.
Proof.
  unfold byte_of_N. pose proof (Byte.to_N_bounded b).
  rewrite N.mod_small by lia. by rewrite Byte.of_to_N.
Qed.

Lemma to_N_inj a b : Byte.to_N a = Byte.to_N b → a = b.
Proof. intros H. by rewrite <- (byte_of_N_to_N a), <- (byte_of_N_to_N b), H. Qed.

Lemma to_N_lt_256 b : (Byte.to_N b < 256)%N.
Proof. pose proof (Byte.to_N_bounded b). lia. Qed.

#[export] Instance byte_countable : Countable byte.
Proof.
  refine (inj_countable' Byte.to_N byte_of_N _). apply byte_of_N_to_N.
Defined.

Lemma len_app {A} (l k : list A) : len (l ++ k) = (len l + len k)%N.
Proof. unfold len. rewrite length_app. lia. Qed.

Lemma length_to_be_bytes n v : length (to_be_bytes n v) = n.
Proof. induction n; simpl; [done | by rewrite IHn]. Qed.

Lemma from_be_bytes_app l k :
  from_be_bytes (l ++ k) = foldl (λ acc b, acc * 256 + Byte.to_N b)%N (from_be_bytes l) k.
Proof. unfold from_be_bytes. by rewrite foldl_app. Qed.

Lemma from_be_bytes_acc l a :
  foldl (λ acc b, acc * 256 + Byte.to_N b)%N a l
  = (a * 256 ^ N.of_nat (length l) + from_be_bytes l)%N.
Proof.
  revert a. induction l as [|b l IH]; intros a.
  - unfold from_be_bytes. simpl. lia.
  - unfold from_be_bytes. cbn [foldl length].
    rewrite (IH (a * 256 + Byte.to_N b)%N), (IH (0 * 256 + Byte.to_N b)%N).
    rewrite Nat2N.inj_succ, N.pow_succ_r'. lia.
Qed.

Lemma from_be_bytes_cons b l :
  from_be_bytes (b :: l) = (Byte.to_N b * 256 ^ N.of_nat (length l) + from_be_bytes l)%N.
Proof.
  unfold from_be_bytes at 1. cbn [foldl]. rewrite from_be_bytes_acc. f_equal.
Qed.

Lemma from_be_bytes_bound l : (from_be_bytes l < 256 ^ N.of_nat (length l))%N.
Proof.
  induction l as [|b l IH]; [done |].
  rewrite from_be_bytes_cons. cbn [length]. rewrite Nat2N.inj_succ, N.pow_succ_r'.
  pose proof (to_N_lt_256 b).
  assert (Byte.to_N b * 256 ^ N.of_nat (length l) + 256 ^ N.of_nat (length l)
          ≤ 256 * 256 ^ N.of_nat (length l))%N by nia.
  lia.
Qed.

Lemma from_to_be_bytes_mod n v :
  from_be_bytes (to_be_bytes n v) = (v mod 256 ^ N.of_nat n)%N.
Proof.
  induction n as [|n IH].
  - by rewrite N.mod_1_r.
  - cbn [to_be_bytes]. rewrite from_be_bytes_cons, IH, to_N_byte_of_N, length_to_be_bytes.
    rewrite Nat2N.inj_succ, N.pow_succ_r', (N.mul_comm 256).
    rewrite (N.Div0.mod_mul_r v (256 ^ N.of_nat n) 256). lia.
Qed.

Lemma from_to_be_bytes n v :
  (v < 256 ^ N.of_nat n)%N → from_be_bytes (to_be_bytes n v) = v.
Proof. intros H. rewrite from_to_be_bytes_mod. by apply N.mod_small. Qed.

Lemma from_be_bytes_inj l k :
  length l = length k → from_be_bytes l = from_be_bytes k → l = k.
Proof.
  revert k. induction l as [|b l IH]; intros [|c k]; simpl; try done.
  intros [= Hl]. rewrite !from_be_bytes_cons, Hl. intros H.
  pose proof (from_be_bytes_bound l) as B1. pose proof (from_be_bytes_bound k) as B2.
  rewrite Hl in B1.
  assert (Byte.to_N b = Byte.to_N c) as E by nia.
  f_equal; [by apply to_N_inj |]. apply IH; [done |]. rewrite E in H. lia.
Qed.

Lemma to_from_be_bytes l : to_be_bytes (length l) (from_be_bytes l) = l.
Proof.
  apply from_be_bytes_inj; [apply length_to_be_bytes |].
  apply from_to_be_bytes, from_be_bytes_bound.
Qed.

Lemma to_be_bytes_inj n v w :
  (v < 256 ^ N.of_nat n)%N → (w < 256 ^ N.of_nat n)%N →
  to_be_bytes n v = to_be_bytes n w → v = w.
Proof.
  intros Hv Hw H. by rewrite <- (from_to_be_bytes n v Hv), <- (from_to_be_bytes n w Hw), H.
Qed.

(** *** Concatenations of fixed-width fields *)

Lemma app_inj_length {A} (a b c d : list A) :
  length a = length b → a ++ c = b ++ d → a = b ∧ c = d.
Proof. apply app_inj_1. Qed.

Lemma app_inj_length_r {A} (a b c d : list A) :
  length c = length d → a ++ c = b ++ d → a = b ∧ c = d.
Proof. apply app_inj_2. Qed.

(** *** Slice ordering *)

Lemma bytes_ltb_irrefl a : bytes_ltb a a = false.
Proof.
  induction a as [|x a IH]; simpl; [done |]. by rewrite N.ltb_irrefl, N.eqb_refl.
Qed.

Lemma bytes_ltb_trans a b c :
  bytes_ltb a b = true → bytes_ltb b c = true → bytes_ltb a c = true.
Proof.
  revert b c. induction a as [|x a IH]; intros [|y b] [|z c]; simpl; try done.
  intros H1 H2.
  destruct (N.ltb_spec (Byte.to_N x) (Byte.to_N z)) as [|Hxz]; [done |].
  destruct (N.ltb_spec (Byte.to_N x) (Byte.to_N y)) as [Hxy|Hxy],
    (N.ltb_spec (Byte.to_N y) (Byte.to_N z)) as [Hyz|Hyz]; try lia;
  destruct (N.eqb_spec (Byte.to_N x) (Byte.to_N y)); try done; try lia;
  destruct (N.eqb_spec (Byte.to_N y) (Byte.to_N z)); try done; try lia.
  destruct (N.eqb_spec (Byte.to_N x) (Byte.to_N z)); try lia. by eapply IH.
Qed.

Lemma bytes_ltb_total a b :
  bytes_ltb a b = false → bytes_ltb b a = false → a = b.
Proof.
  revert b. induction a as [|x a IH]; intros [|y b]; simpl; try done.
  destruct (N.ltb_spec (Byte.to_N x) (Byte.to_N y)); try done.
  destruct (N.ltb_spec (Byte.to_N y) (Byte.to_N x)); try done.
  assert (Byte.to_N x = Byte.to_N y) as E by lia.
  rewrite E, N.eqb_refl. intros H1 H2. f_equal; [by apply to_N_inj | by apply IH].
Qed.

Lemma pair_ltb_irrefl p : pair_ltb p p = false.
Proof. unfold pair_ltb. by rewrite N.ltb_irrefl, N.eqb_refl, bytes_ltb_irrefl. Qed.

Lemma pair_ltb_trans p q r :
  pair_ltb p q = true → pair_ltb q r = true → pair_ltb p r = true.
Proof.
  destruct p as [v a], q as [w b], r as [u c]. unfold pair_ltb; simpl.
  destruct (N.ltb_spec v w), (N.ltb_spec w u), (N.ltb_spec v u),
    (N.eqb_spec v w), (N.eqb_spec w u), (N.eqb_spec v u); try done; try lia.
  apply bytes_ltb_trans.
Qed.

Lemma pair_ltb_total p q :
  pair_ltb p q = false → pair_ltb q p = false → p = q.
Proof.
  destruct p as [v a], q as [w b]. unfold pair_ltb; simpl.
  destruct (N.ltb_spec v w), (N.ltb_spec w v), (N.eqb_spec v w), (N.eqb_spec w v);
    try done; try lia.
  intros H1 H2. subst. f_equal. by apply bytes_ltb_total.
Qed.

Lemma pair_ltb_asym p q : pair_ltb p q = true → pair_ltb q p = false.
Proof.
  intros H. destruct (pair_ltb q p) eqn:E; [| done].
  pose proof (pair_ltb_trans _ _ _ H E) as C. by rewrite pair_ltb_irrefl in C.
Qed.

(** The reflexive closure of the order is total and transitive. *)
Definition pair_le (p q : N * bytes) : Prop := pair_ltb q p = false.

Lemma pair_le_refl p : pair_le p p.
Proof. apply pair_ltb_irrefl. Qed.

Lemma pair_le_total p q : pair_le p q ∨ pair_le q p.
Proof.
  unfold pair_le. destruct (pair_ltb q p) eqn:E; [| by left].
  right. by apply pair_ltb_asym.
Qed.

Lemma pair_le_trans p q r : pair_le p q → pair_le q r → pair_le p r.
Proof.
  unfold pair_le. intros H1 H2. destruct (pair_ltb r p) eqn:E; [| done].
  destruct (pair_ltb q r) eqn:F.
  - by rewrite (pair_ltb_trans _ _ _ F E) in H1.
  - rewrite (pair_ltb_total q r F H2) in H1. by rewrite H1 in E.
Qed.

Lemma pair_le_version p q : pair_le p q → (p.1 ≤ q.1)%N.
Proof.
  destruct p as [v a], q as [w b]. unfold pair_le, pair_ltb; simpl.
  destruct (N.ltb_spec w v); [done | lia].
Qed.

(** *** Hexadecimal *)

Lemma to_N_hex_digit n :
  (n < 16)%N → Byte.to_N (hex_digit n) = (if n <? 10 then 48 + n else 87 + n)%N.
Proof.
  intros H. unfold hex_digit. destruct (N.ltb_spec n 10);
    rewrite to_N_byte_of_N, N.mod_small by lia; done.
Qed.

Lemma to_digit_hex_digit radix n :
  (n < radix)%N → (radix ≤ 16)%N → to_digit radix (hex_digit n) = Some n.
Proof.
  intros H1 H2. unfold to_digit. rewrite to_N_hex_digit by lia.
  destruct (N.ltb_spec n 10).
  - destruct (N.leb_spec 48 (48 + n)); [| lia].
    destruct (N.leb_spec (48 + n) 57); [| lia]. simpl.
    replace (48 + n - 48)%N with n by lia. destruct (N.ltb_spec n radix); [done | lia].
  - destruct (N.leb_spec (87 + n) 57); [lia |]. rewrite andb_false_r.
    destruct (N.leb_spec 97 (87 + n)); [| lia].
    destruct (N.leb_spec (87 + n) 122); [| lia]. simpl.
    replace (87 + n - 87)%N with n by lia. destruct (N.ltb_spec n radix); [done | lia].
Qed.

Lemma hex_digit_inj m n :
  (m < 16)%N → (n < 16)%N → hex_digit m = hex_digit n → m = n.
Proof.
  intros Hm Hn H. apply (f_equal (to_digit 16)) in H.
  rewrite !to_digit_hex_digit in H by lia. congruence.
Qed.

Lemma length_hex_bytes l : length (hex_bytes l) = 2 * length l.
Proof.
  unfold hex_bytes. induction l as [|b l IH]; simpl; [done |]. rewrite IH. lia.
Qed.

Lemma nibbles_lt b : (Byte.to_N b / 16 < 16)%N ∧ (Byte.to_N b mod 16 < 16)%N.
Proof.
  pose proof (to_N_lt_256 b). split.
  - apply N.Div0.div_lt_upper_bound. lia.
  - apply N.mod_lt. done.
Qed.

Lemma hex_bytes_inj l k : hex_bytes l = hex_bytes k → l = k.
Proof.
  revert k. induction l as [|b l IH]; intros [|c k]; try done.
  unfold hex_bytes. simpl. intros [= H1 H2 H3].
  pose proof (nibbles_lt b) as [? ?]. pose proof (nibbles_lt c) as [? ?].
  apply hex_digit_inj in H1, H2; try done.
  f_equal; [| by apply IH].
  apply to_N_inj. rewrite (N.div_mod (Byte.to_N b) 16), (N.div_mod (Byte.to_N c) 16) by done.
  congruence.
Qed.

(** *** Decimal *)

Lemma foldl_radix_None radix max s : foldl (radix_step radix max) None s = None.
Proof. induction s; simpl; [done |]. by destruct (to_digit radix a). Qed.

Lemma foldl_radix_bound radix max s acc n :
  (acc ≤ max)%N → foldl (radix_step radix max) (Some acc) s = Some n → (n ≤ max)%N.
Proof.
  revert acc. induction s as [|b s IH]; intros acc Hacc; cbn [foldl]; [by intros [= <-] |].
  unfold radix_step at 2. destruct (to_digit radix b) as [d|]; [| by rewrite foldl_radix_None].
  destruct (_ <=? _)%N; [| by rewrite foldl_radix_None].
  destruct (N.leb_spec (acc * radix + d) max); [by apply IH | by rewrite foldl_radix_None].
Qed.

Lemma parse_u64_bound s n : parse_u64 s = Some n → (n ≤ u64_max)%N.
Proof.
  unfold parse_u64, from_str_radix. destruct s as [|b s]; [done |].
  destruct (if decide (b = x2b) then s else b :: s); [done |]. apply foldl_radix_bound. lia.
Qed.

Lemma dec_digits_nonnil f n : dec_digits (S f) n ≠ [].
Proof. simpl. destruct (n <? 10)%N; [done |]. by destruct (dec_digits f (n / 10)). Qed.

Lemma foldl_dec_digits max f n :
  (n < 10 ^ N.of_nat f)%N → (n ≤ max)%N →
  foldl (radix_step 10 max) (Some 0%N) (dec_digits f n) = Some n.
Proof.
  revert n. induction f as [|f IH]; intros n Hn Hm.
  - replace (10 ^ N.of_nat 0)%N with 1%N in Hn by done.
    assert (n = 0%N) as -> by lia. done.
  - rewrite Nat2N.inj_succ, N.pow_succ_r' in Hn. simpl.
    destruct (N.ltb_spec n 10) as [Hlt|Hge].
    + cbn [foldl radix_step]. rewrite to_digit_hex_digit by lia.
      destruct (N.leb_spec (0 * 10) max); [| lia].
      destruct (N.leb_spec (0 * 10 + n) max); [f_equal; lia | lia].
    + pose proof (N.div_mod n 10 ltac:(done)) as Hdm.
      pose proof (N.mod_lt n 10 ltac:(done)) as Hr.
      rewrite foldl_app, IH; [| by apply N.Div0.div_lt_upper_bound | lia].
      cbn [foldl radix_step]. rewrite to_digit_hex_digit by lia.
      destruct (N.leb_spec (n / 10 * 10) max); [| lia].
      destruct (N.leb_spec (n / 10 * 10 + n mod 10) max); [f_equal; lia | lia].
Qed.

(** Decimal text is made of digits. *)
Lemma dec_digits_digits f n : Forall (λ b, (48 ≤ Byte.to_N b ≤ 57)%N) (dec_digits f n).
Proof.
  revert n. induction f as [|f IH]; intros n; simpl; [constructor |].
  assert (∀ m, (m < 10)%N → (48 ≤ Byte.to_N (hex_digit m) ≤ 57)%N) as Hd.
  { intros m Hm. rewrite to_N_hex_digit by lia. destruct (N.ltb_spec m 10); lia. }
  destruct (N.ltb_spec n 10) as [Hlt|Hge]; [by repeat constructor; apply Hd |].
  apply Forall_app. split; [apply IH |]. repeat constructor; apply Hd; by apply N.mod_lt.
Qed.

(** Decimal text reads back at every width that holds the number. *)
Lemma from_str_radix_dec max n :
  (n ≤ max)%N → (n ≤ u64_max)%N → from_str_radix 10 max (u64_to_string n) = Some n.
Proof.
  intros Hm Hn. unfold from_str_radix, u64_to_string. pose proof (dec_digits_digits 20 n) as Hd.
  destruct (dec_digits 20 n) as [|b s] eqn:E; [by apply dec_digits_nonnil in E |].
  apply Forall_cons in Hd as [Hb _].
  rewrite decide_False; [| intros ->; simpl in Hb; lia].
  rewrite <- E. apply foldl_dec_digits; [| done].
  unfold u64_max in Hn. eapply N.le_lt_trans; [done |]. done.
Qed.

Lemma parse_u64_to_string n : (n ≤ u64_max)%N → parse_u64 (u64_to_string n) = Some n.
Proof. intros Hn. by apply from_str_radix_dec. Qed.

(** *** UTF-8 *)

Lemma ascii_utf8_valid s : Forall (λ b, (Byte.to_N b < 128)%N) s → utf8_valid s = true.
Proof.
  induction 1 as [|b s Hb Hs IH]; [done |]. simpl.
  unfold in_range at 1. destruct (N.leb_spec 0 (Byte.to_N b)); [| lia].
  destruct (N.leb_spec (Byte.to_N b) 127); [done | lia].
Qed.

Lemma array_from_slice_Some n l a : array_from_slice n l = Some a ↔ a = l ∧ length l = n.
Proof.
  unfold array_from_slice. destruct (Nat.eqb_spec (length l) n); naive_solver.
Qed.

Lemma array_from_slice_length n l : length l = n → array_from_slice n l = Some l.
Proof. intros H. by apply array_from_slice_Some. Qed.

Lemma u32_try_from_Some n : (n ≤ u32_max)%N → u32_try_from n = Some n.
Proof. intros H. unfold u32_try_from. by destruct (N.leb_spec n u32_max); [| lia]. Qed.

Lemma u32_bound n : (n ≤ u32_max)%N → (n < 256 ^ N.of_nat 4)%N.
Proof. unfold u32_max. change (256 ^ N.of_nat 4)%N with 4294967296%N. lia. Qed.

Lemma u64_bound n : (n ≤ u64_max)%N → (n < 256 ^ N.of_nat 8)%N.
Proof. unfold u64_max. change (256 ^ N.of_nat 8)%N with 18446744073709551616%N. lia. Qed.

(** Hexadecimal text reads back as the big-endian number. *)
Lemma foldl_radix_hex max l a :
  (a * 256 ^ N.of_nat (length l) + from_be_bytes l ≤ max)%N →
  foldl (radix_step 16 max) (Some a) (hex_bytes l) = Some (a * 256 ^ N.of_nat (length l) + from_be_bytes l)%N.
Proof.
  revert a. induction l as [|b l IH]; intros a Hm.
  - unfold from_be_bytes. cbn. f_equal. lia.
  - rewrite from_be_bytes_cons in *. cbn [length] in *. rewrite Nat2N.inj_succ, N.pow_succ_r' in *.
    pose proof (nibbles_lt b) as [H1 H2]. pose proof (N.div_mod (Byte.to_N b) 16 ltac:(done)) as Hd.
    assert (1 ≤ 256 ^ N.of_nat (length l))%N by (pose proof (N.pow_nonzero 256 (N.of_nat (length l))); lia).
    assert (a * 256 + Byte.to_N b ≤ max)%N by nia.
    unfold hex_bytes. cbn [map concat hex_byte app foldl radix_step].
    rewrite !to_digit_hex_digit by lia.
    destruct (N.leb_spec (a * 16) max); [| lia].
    destruct (N.leb_spec (a * 16 + Byte.to_N b / 16) max); [| lia].
    cbn [radix_step]. rewrite to_digit_hex_digit by lia.
    destruct (N.leb_spec ((a * 16 + Byte.to_N b / 16) * 16) max); [| lia].
    destruct (N.leb_spec ((a * 16 + Byte.to_N b / 16) * 16 + Byte.to_N b mod 16) max); [| lia].
    fold (hex_bytes l).
    replace ((a * 16 + Byte.to_N b / 16) * 16 + Byte.to_N b mod 16)%N with (a * 256 + Byte.to_N b)%N by lia.
    rewrite IH by lia. f_equal. lia.
Qed.

Lemma from_str_radix_hex v : (v ≤ u64_max)%N → from_str_radix 16 u64_max (hex_bytes (to_be_bytes 8 v)) = Some v.
Proof.
  intros Hv. pose proof (from_to_be_bytes 8 v (u64_bound _ Hv)) as Hf.
  pose proof (foldl_radix_hex u64_max (to_be_bytes 8 v) 0) as Hr. rewrite Hf in Hr. specialize (Hr Hv).
  unfold from_str_radix. destruct (to_be_bytes 8 v) as [|b l] eqn:E; [done |].
  pose proof (nibbles_lt b) as [Hb _]. unfold hex_bytes in *. cbn [map concat hex_byte app] in *.
  rewrite decide_False.
  - rewrite Hr. f_equal.
  - intros H. apply (f_equal Byte.to_N) in H. rewrite to_N_hex_digit in H by done.
    change (Byte.to_N x2b) with 43%N in H. destruct (N.ltb_spec (Byte.to_N b / 16) 10); lia.
Qed.

#[export] Hint Rewrite length_to_be_bytes @length_app @len_app length_hex_bytes : enlace.
#[export] Hint Resolve pair_le_refl pair_ltb_irrefl bytes_ltb_irrefl u32_bound u64_bound : enlace.
