(* ===== verification/Crypto.v ===== *)
(** * crypto.rs: sealing, signing and subkey derivation

    The primitives come from third-party crates (XChaCha20-Poly1305,
    Ed25519, X25519, HKDF-SHA256, [subtle]); they are the class [Primitives],
    and what the code relies on is the class [PrimitivesLaws], which states
    documented behaviour only: decryption inverts encryption under the same
    key, nonce and associated data, a signature verifies under its own key,
    Diffie-Hellman commutes, key encodings round-trip, and output lengths.
    No unforgeability or collision resistance is assumed.  Module [Toy]
    instantiates both classes with concrete functions, so that every theorem
    of the development can be evaluated. *)

From S2P Require Import Prelude Bytes.

Definition NONCE_LEN : nat := 24.
Definition TAG_LEN : nat := 16.
Definition AEAD_KEY_LEN : nat := 32.
Definition SIG_LEN : nat := 64.

Class Primitives := {
  SigningKey : Type;
  VerifyingKey : Type;
  StaticSecret : Type;
  (** [Hkdf::<Sha256>::new(salt, ikm).expand(info, out)] with [out.len() = n]. *)
  hkdf_expand : option bytes → bytes → bytes → nat → option bytes;
  (** [Sha256::digest]. *)
  sha256 : bytes → bytes;
  (** [XChaCha20Poly1305::encrypt] and [decrypt]: key, nonce, aad, message. *)
  aead_encrypt : bytes → bytes → bytes → bytes → option bytes;
  aead_decrypt : bytes → bytes → bytes → bytes → option bytes;
  (** [ed25519_dalek]. *)
  verifying_key : SigningKey → VerifyingKey;
  ed_sign : SigningKey → bytes → bytes;
  ed_verify : VerifyingKey → bytes → bytes → bool;
  vk_to_bytes : VerifyingKey → bytes;
  vk_from_bytes : bytes → option VerifyingKey;
  sk_to_bytes : SigningKey → bytes;
  sk_from_bytes : bytes → SigningKey;
  (** [x25519_dalek]. *)
  x25519_public : StaticSecret → bytes;
  diffie_hellman : StaticSecret → bytes → bytes;
  secret_to_bytes : StaticSecret → bytes;
  secret_from_bytes : bytes → StaticSecret;
  (** [subtle::ConstantTimeEq] on slices. *)
  slice_ct_eq : bytes → bytes → bool
}.

Class PrimitivesLaws `{PR : Primitives} := {
  hkdf_expand_total : ∀ salt ikm info n, n ≤ 255 * 32 →
    ∃ out, hkdf_expand salt ikm info n = Some out ∧ length out = n;
  sha256_length : ∀ m, length (sha256 m) = 32;
  aead_encrypt_length : ∀ k n a m c, aead_encrypt k n a m = Some c →
    length c = length m + TAG_LEN;
  aead_decrypt_encrypt : ∀ k n a m c, aead_encrypt k n a m = Some c →
    aead_decrypt k n a c = Some m;
  aead_decrypt_length : ∀ k n a c m, aead_decrypt k n a c = Some m →
    length c = length m + TAG_LEN;
  ed_sign_length : ∀ sk m, length (ed_sign sk m) = SIG_LEN;
  ed_verify_sign : ∀ sk m, ed_verify (verifying_key sk) m (ed_sign sk m) = true;
  vk_to_bytes_length : ∀ vk, length (vk_to_bytes vk) = 32;
  vk_from_to_bytes : ∀ vk, vk_from_bytes (vk_to_bytes vk) = Some vk;
  vk_to_from_bytes : ∀ b vk, vk_from_bytes b = Some vk → vk_to_bytes vk = b;
  sk_to_bytes_length : ∀ sk, length (sk_to_bytes sk) = 32;
  sk_from_to_bytes : ∀ sk, sk_from_bytes (sk_to_bytes sk) = sk;
  x25519_public_length : ∀ s, length (x25519_public s) = 32;
  diffie_hellman_comm : ∀ a b,
    diffie_hellman a (x25519_public b) = diffie_hellman b (x25519_public a);
  secret_to_bytes_length : ∀ s, length (secret_to_bytes s) = 32;
  secret_from_to_bytes : ∀ s, secret_from_bytes (secret_to_bytes s) = s;
  slice_ct_eq_spec : ∀ a b, slice_ct_eq a b = bool_decide (a = b)
}.

(** ** The functions of crypto.rs *)

Inductive CryptoError : Type := CryptoError_TooShort | CryptoError_AeadFailed.

Definition CryptoError_display (e : CryptoError) : bytes :=
  match e with
  | CryptoError_TooShort => lit "sealed payload too short"
  | CryptoError_AeadFailed => lit "AEAD authentication failed"
  end.

Section Functions.
Context `{PR : Primitives}.

(** Writes [n] bytes derived from [ikm] and [info]; an empty salt is "no
    salt", and a length over the HKDF cap panics. *)
Definition hkdf_sha256 {E} (ikm salt info : bytes) (n : nat) : result bytes E :=
  let salt := match salt with [] => None | _ => Some salt end in
  expect (hkdf_expand salt ikm info n).

Definition derive_key32 {E} (ikm info : bytes) : result bytes E :=
  hkdf_sha256 ikm [] info AEAD_KEY_LEN.

(** [nonce] is the value [generate_nonce(&mut OsRng)] returned. *)
Definition seal {E} (nonce key aad plaintext : bytes) : result bytes E :=
  let! ciphertext := expect (aead_encrypt key nonce aad plaintext) in
  Ok (nonce ++ ciphertext).

Definition unseal (key aad sealed : bytes) : result bytes CryptoError :=
  if length sealed <? NONCE_LEN + TAG_LEN then Err CryptoError_TooShort
  else
    let nonce_bytes := take NONCE_LEN sealed in
    let ciphertext := drop NONCE_LEN sealed in
    ok_or (aead_decrypt key nonce_bytes aad ciphertext) CryptoError_AeadFailed.

Definition sign (sk : SigningKey) (message : bytes) : bytes := ed_sign sk message.

Definition verify (vk : VerifyingKey) (message signature : bytes) : bool :=
  ed_verify vk message signature.

Definition ct_eq (a b : bytes) : bool := slice_ct_eq a b.

(** ** Properties *)

Context `{PL : !PrimitivesLaws}.

Lemma hkdf_sha256_Ok {E} ikm salt info n :
  n ≤ 255 * 32 →
  ∃ out, hkdf_sha256 (E:=E) ikm salt info n = Ok out ∧ length out = n.
Proof.
  intros Hn. unfold hkdf_sha256.
  destruct (hkdf_expand_total (match salt with [] => None | _ => Some salt end) ikm info n Hn)
    as (out & -> & Hl).
  by exists out.
Qed.

Lemma derive_key32_Ok {E} ikm info :
  ∃ k, derive_key32 (E:=E) ikm info = Ok k ∧ length k = 32.
Proof. apply hkdf_sha256_Ok. unfold AEAD_KEY_LEN. lia. Qed.

Lemma seal_length {E} nonce key aad p s :
  length nonce = NONCE_LEN → seal (E:=E) nonce key aad p = Ok s →
  length s = NONCE_LEN + length p + TAG_LEN.
Proof.
  unfold seal. intros Hn H. destruct (aead_encrypt key nonce aad p) as [c|] eqn:E1; [| done].
  simpl in H. injection H as <-. apply aead_encrypt_length in E1.
  rewrite length_app, E1, Hn. lia.
Qed.

Lemma unseal_seal {E} nonce key aad p s :
  length nonce = NONCE_LEN → seal (E:=E) nonce key aad p = Ok s →
  unseal key aad s = Ok p.
Proof.
  intros Hn H. pose proof (seal_length _ _ _ _ _ Hn H) as Hl.
  unfold seal in H. destruct (aead_encrypt key nonce aad p) as [c|] eqn:E1; [| done].
  simpl in H. injection H as <-. unfold unseal.
  destruct (Nat.ltb_spec (length (nonce ++ c)) (NONCE_LEN + TAG_LEN)); [lia |].
  rewrite take_app_length', drop_app_length' by done.
  by rewrite (aead_decrypt_encrypt _ _ _ _ _ E1).
Qed.

Lemma unseal_total key aad s : unseal key aad s ≠ Panic.
Proof.
  unfold unseal. destruct (length s <? NONCE_LEN + TAG_LEN); [done |].
  by destruct (aead_decrypt key (take NONCE_LEN s) aad (drop NONCE_LEN s)).
Qed.

Lemma unseal_short key aad s :
  unseal key aad s = Err CryptoError_TooShort ↔ length s < NONCE_LEN + TAG_LEN.
Proof.
  unfold unseal. destruct (Nat.ltb_spec (length s) (NONCE_LEN + TAG_LEN)).
  - naive_solver.
  - destruct (aead_decrypt key (take NONCE_LEN s) aad (drop NONCE_LEN s)); cbn [ok_or];
      (split; [done | intros; lia]).
Qed.
End Functions.

(** ** A concrete instance

    Checksums in place of hashes and message authentication codes: no
    security, but every law holds and every definition evaluates. *)
Module Toy.

Definition checksum (l : bytes) : N :=
  foldl (λ acc b, (acc * 65599 + Byte.to_N b + 1) mod 4294967291)%N 7%N l.

(** [n] bytes that start with the checksum. *)
Definition digest (n : nat) (l : bytes) : bytes :=
  take n (to_be_bytes 4 (checksum l) ++ replicate n x00).

(** A key is one byte, written as 32 bytes. *)
Definition key_bytes (k : byte) : bytes := replicate 31 x00 ++ [k].

Definition key_of (b : bytes) : byte := List.last b x00.

Definition tag (k n a m : bytes) : bytes := digest 16 (k ++ n ++ a ++ m).

Definition decrypt (k n a c : bytes) : option bytes :=
  let m := take (length c - 16) c in
  if decide (length c = length m + 16 ∧ drop (length c - 16) c = tag k n a m)
  then Some m else None.

#[export] Instance toy_primitives : Primitives := {|
  SigningKey := byte;
  VerifyingKey := byte;
  StaticSecret := byte;
  hkdf_expand salt ikm info n :=
    if decide (n ≤ 255 * 32) then
      Some (digest n (match salt with None => [] | Some s => s end ++ ikm ++ x2f :: info))
    else None;
  sha256 m := digest 32 m;
  aead_encrypt k n a m := Some (m ++ tag k n a m);
  aead_decrypt := decrypt;
  verifying_key sk := sk;
  ed_sign sk m := digest 64 (sk :: m);
  ed_verify vk m s := bool_decide (s = digest 64 (vk :: m));
  vk_to_bytes := key_bytes;
  vk_from_bytes b := if decide (b = key_bytes (key_of b)) then Some (key_of b) else None;
  sk_to_bytes := key_bytes;
  sk_from_bytes := key_of;
  x25519_public := key_bytes;
  diffie_hellman s p := to_be_bytes 4 (Byte.to_N s + from_be_bytes p);
  secret_to_bytes := key_bytes;
  secret_from_bytes := key_of;
  slice_ct_eq a b := bool_decide (a = b)
|}.

Lemma digest_length n l : length (digest n l) = n.
Proof.
  unfold digest. rewrite length_take, length_app, length_to_be_bytes, length_replicate. lia.
Qed.

Lemma key_of_bytes k : key_of (key_bytes k) = k.
Proof. done. Qed.

Lemma from_be_key_bytes k : from_be_bytes (key_bytes k) = Byte.to_N k.
Proof. done. Qed.

Lemma decrypt_encrypt k n a m : decrypt k n a (m ++ tag k n a m) = Some m.
Proof.
  assert (length (tag k n a m) = 16) as Ht by apply digest_length.
  unfold decrypt. rewrite length_app, Ht.
  replace (length m + 16 - 16) with (length m) by lia.
  rewrite take_app_length, drop_app_length. by rewrite decide_True by done.
Qed.

#[export] Instance toy_laws : PrimitivesLaws.
Proof.
  split; cbn -[digest tag decrypt to_be_bytes key_bytes key_of from_be_bytes].
  - intros salt ikm info n Hn. rewrite decide_True by done. eexists. split; [done |].
    apply digest_length.
  - intros m. apply digest_length.
  - intros k n a m c [= <-]. unfold tag. rewrite length_app, digest_length. done.
  - intros k n a m c [= <-]. apply decrypt_encrypt.
  - intros k n a c m. unfold decrypt. case_decide as Hd; [| done]. intros [= <-]. apply Hd.
  - intros sk m. apply digest_length.
  - intros sk m. by apply bool_decide_eq_true.
  - done.
  - intros vk. by rewrite decide_True by done.
  - intros b vk. case_decide as Hd; [| done]. by intros [= <-].
  - done.
  - apply key_of_bytes.
  - done.
  - intros a b. by rewrite !from_be_key_bytes, N.add_comm.
  - done.
  - apply key_of_bytes.
  - done.
Qed.

End Toy.
