(* ===== verification/Kdf.v ===== *)
(** * kdf.rs: channel names, keys and identifiers

    Channel kinds, transport kinds, the channel-name rules, and the three
    HKDF derivations of a channel: its AEAD key, its per-transport id and its
    iroh gossip topic.  The context strings are separate definitions so that
    domain separation is a statement about them. *)

From S2P Require Import Prelude Bytes Crypto.

Definition CHANNEL_ID_LEN : nat := 16.
Definition IROH_TOPIC_ID_LEN : nat := 32.
Definition MAX_NAME_LEN : nat := 64.

Inductive ChannelKind : Type := ChMailbox | ChSlot.

#[export] Instance ChannelKind_eq_dec : EqDecision ChannelKind.
Proof. solve_decision. Defined.

Definition ChannelKind_as_bytes (k : ChannelKind) : bytes :=
  match k with
  | ChMailbox => lit "mailbox"
  | ChSlot => lit "slot"
  end.

Inductive TransportKind : Type := Http | Pkarr | Dht | Iroh.

#[export] Instance TransportKind_eq_dec : EqDecision TransportKind.
Proof. solve_decision. Defined.

Definition TransportKind_as_bytes (t : TransportKind) : bytes :=
  match t with
  | Http => lit "http"
  | Pkarr => lit "pkarr"
  | Dht => lit "dht"
  | Iroh => lit "iroh"
  end.

Definition TransportKind_as_str (t : TransportKind) : bytes :=
  match t with
  | Http => lit "http"
  | Pkarr => lit "pkarr"
  | Dht => lit "dht"
  | Iroh => lit "iroh"
  end.

Definition TransportKind_display (t : TransportKind) : bytes := TransportKind_as_str t.

Inductive NameError : Type := NameError_Empty | NameError_TooLong | NameError_InvalidChar.

#[export] Instance NameError_eq_dec : EqDecision NameError.
Proof. solve_decision. Defined.

Definition NameError_display (e : NameError) : bytes :=
  match e with
  | NameError_Empty => lit "channel name is empty"
  | NameError_TooLong => lit "channel name exceeds 64 bytes"
  | NameError_InvalidChar => lit "channel name contains a byte outside [0-9 a-z - _ / .]"
  end.

(** [matches!(b, b'0'..=b'9' | b'a'..=b'z' | b'-' | b'_' | b'/' | b'.')]. *)
Definition name_byte_ok (b : byte) : bool :=
  in_range 48 57 b || in_range 97 122 b || bool_decide (b = x2d)
  || bool_decide (b = x5f) || bool_decide (b = x2f) || bool_decide (b = x2e).

Fixpoint check_name_bytes (s : bytes) : result unit NameError :=
  match s with
  | [] => Ok tt
  | b :: s' => if negb (name_byte_ok b) then Err NameError_InvalidChar else check_name_bytes s'
  end.

Definition validate_name (name : bytes) : result unit NameError :=
  match name with
  | [] => Err NameError_Empty
  | _ =>
      if MAX_NAME_LEN <? length name then Err NameError_TooLong
      else check_name_bytes name
  end.

(** ** Context strings *)

Definition aead_key_info (kind : ChannelKind) (name : bytes) : bytes :=
  lit "enlace/v1/key/aead/" ++ ChannelKind_as_bytes kind ++ x2f :: name.

Definition channel_id_info (transport : TransportKind) (kind : ChannelKind) (name : bytes) : bytes :=
  lit "enlace/v1/id/" ++ TransportKind_as_bytes transport ++ x2f ::
  ChannelKind_as_bytes kind ++ x2f :: name.

Definition iroh_topic_info (kind : ChannelKind) (name : bytes) : bytes :=
  lit "enlace/v1/id/iroh-topic/" ++ ChannelKind_as_bytes kind ++ x2f :: name.

Section Derivations.
Context `{PR : Primitives}.

Definition channel_aead_key (seed : bytes) (kind : ChannelKind) (name : bytes)
    : result bytes NameError :=
  let! _ := validate_name name in
  derive_key32 seed (aead_key_info kind name).

Definition channel_id (seed : bytes) (transport : TransportKind) (kind : ChannelKind)
    (name : bytes) : result bytes NameError :=
  let! _ := validate_name name in
  hkdf_sha256 seed [] (channel_id_info transport kind name) CHANNEL_ID_LEN.

Definition iroh_topic_id (seed : bytes) (kind : ChannelKind) (name : bytes)
    : result bytes NameError :=
  let! _ := validate_name name in
  hkdf_sha256 seed [] (iroh_topic_info kind name) IROH_TOPIC_ID_LEN.
End Derivations.

(** Every HKDF context a seed is expanded with: the three channel
    derivations and the pkarr identity key (transports/pkarr.rs). *)
Inductive purpose : Type :=
| AeadKey (kind : ChannelKind) (name : bytes)
| ChannelId (transport : TransportKind) (kind : ChannelKind) (name : bytes)
| IrohTopic (kind : ChannelKind) (name : bytes)
| PkarrIdentity.

Definition pkarr_id_info : bytes := lit "enlace/v1/key/pkarr-id".

Definition info_of (p : purpose) : bytes :=
  match p with
  | AeadKey k n => aead_key_info k n
  | ChannelId t k n => channel_id_info t k n
  | IrohTopic k n => iroh_topic_info k n
  | PkarrIdentity => pkarr_id_info
  end.

(** ** Name rules *)

Definition name_ok (name : bytes) : Prop :=
  1 ≤ length name ≤ MAX_NAME_LEN ∧ Forall (λ b, name_byte_ok b = true) name.

Lemma check_name_bytes_Ok s :
  check_name_bytes s = Ok tt ↔ Forall (λ b, name_byte_ok b = true) s.
Proof.
  induction s as [|b s IH]; simpl; [done |].
  rewrite Forall_cons, <- IH. destruct (name_byte_ok b); simpl; naive_solver.
Qed.

Lemma check_name_bytes_Err s e :
  check_name_bytes s = Err e →
  e = NameError_InvalidChar ∧ ¬ Forall (λ b, name_byte_ok b = true) s.
Proof.
  induction s as [|b s IH]; simpl; [done |].
  rewrite Forall_cons. destruct (name_byte_ok b); simpl; naive_solver.
Qed.

Lemma check_name_bytes_total s : check_name_bytes s ≠ Panic.
Proof. induction s as [|b s IH]; simpl; [done |]. by destruct (name_byte_ok b). Qed.

Lemma validate_name_Ok name : validate_name name = Ok tt ↔ name_ok name.
Proof.
  unfold validate_name, name_ok. destruct name as [|b s].
  - simpl. split; [done | lia].
  - destruct (Nat.ltb_spec MAX_NAME_LEN (length (b :: s))) as [Hl|Hl].
    + split; [done |]. intros [[_ ?] _]. lia.
    + rewrite check_name_bytes_Ok. simpl length in *. naive_solver lia.
Qed.

Lemma validate_name_total name : validate_name name ≠ Panic.
Proof.
  unfold validate_name. destruct name; [done |].
  destruct (MAX_NAME_LEN <? length _); [done |]. apply check_name_bytes_total.
Qed.

Lemma validate_name_cases name :
  validate_name name = Ok tt ∨ ∃ e, validate_name name = Err e.
Proof.
  pose proof (validate_name_total name).
  destruct (validate_name name) as [[]|e|]; eauto. done.
Qed.

Lemma name_byte_ascii b : name_byte_ok b = true → (Byte.to_N b < 128)%N.
Proof. destruct b; vm_compute; done. Qed.

Lemma name_byte_nonzero b : name_byte_ok b = true → b ≠ x00.
Proof. intros H ->. done. Qed.

Lemma name_ok_utf8 name : name_ok name → utf8_valid name = true.
Proof.
  intros [_ H]. apply ascii_utf8_valid. eapply Forall_impl; [done |]. apply name_byte_ascii.
Qed.

Lemma name_ok_nonzero name : name_ok name → x00 ∉ name.
Proof.
  intros [_ H] Hin. rewrite Forall_forall in H. apply H in Hin. done.
Qed.

#[export] Hint Resolve name_ok_utf8 : enlace.

Ltac compute_prefix :=
  unfold info_of, aead_key_info, channel_id_info, iroh_topic_info, pkarr_id_info in *;
  repeat match goal with
  | k : ChannelKind |- _ => destruct k
  | t : TransportKind |- _ => destruct t
  end; simpl in *.

(** Claims. *)

(** Channel-name validation accepts exactly the non-empty names of at
    most 64 bytes over [0-9a-z-_/.], and it reports an empty name, then an
    over-long one, then a forbidden byte, in that order of precedence. *)
Lemma validate_name_spec (name : bytes) :
  match validate_name name with
  | Ok _ => name_ok name
  | Err NameError_Empty => name = []
  | Err NameError_TooLong => MAX_NAME_LEN < length name
  | Err NameError_InvalidChar =>
      1 ≤ length name ≤ MAX_NAME_LEN ∧ ¬ Forall (λ b, name_byte_ok b = true) name
  | Panic => False
  end.
Proof.
  unfold validate_name, name_ok. destruct name as [|b s]; [done |].
  destruct (Nat.ltb_spec MAX_NAME_LEN (length (b :: s))) as [Hl|Hl]; [done |].
  destruct (check_name_bytes (b :: s)) as [[]|e|] eqn:E.
  - apply check_name_bytes_Ok in E. simpl length in *. split; [lia | done].
  - apply check_name_bytes_Err in E as [-> E]. simpl length in *. split; [lia | done].
  - by apply check_name_bytes_total in E.
Qed.

(** The HKDF context strings of the crate are pairwise distinct: two
    derivations use the same context only when they have the same purpose
    (AEAD key, channel id, gossip topic, pkarr identity), transport, channel
    kind and channel name.  No name, valid or not, breaks the separation. *)
Lemma kdf_domain_separation (p q : purpose) : info_of p = info_of q → p = q.
Proof.
  destruct p as [k n|t k n|k n|], q as [k' n'|t' k' n'|k' n'|];
    compute_prefix; intros H; try discriminate H; congruence.
Qed.

Lemma kdf_domain_separation_witness :
  AeadKey ChSlot (lit "a") = AeadKey ChSlot (lit "a").
Proof. apply kdf_domain_separation. reflexivity. Defined.

Section Total.
Context `{PR : Primitives} `{PL : !PrimitivesLaws}.

Lemma channel_aead_key_Ok seed kind name :
  name_ok name →
  ∃ k, channel_aead_key seed kind name = Ok k ∧ length k = AEAD_KEY_LEN.
Proof.
  intros H%validate_name_Ok. unfold channel_aead_key. rewrite H. simpl.
  apply derive_key32_Ok.
Qed.

Lemma channel_id_Ok seed t kind name :
  name_ok name →
  ∃ i, channel_id seed t kind name = Ok i ∧ length i = CHANNEL_ID_LEN.
Proof.
  intros H%validate_name_Ok. unfold channel_id. rewrite H. simpl.
  apply hkdf_sha256_Ok. unfold CHANNEL_ID_LEN. lia.
Qed.

Lemma iroh_topic_id_Ok seed kind name :
  name_ok name →
  ∃ i, iroh_topic_id seed kind name = Ok i ∧ length i = IROH_TOPIC_ID_LEN.
Proof.
  intros H%validate_name_Ok. unfold iroh_topic_id. rewrite H. simpl.
  apply hkdf_sha256_Ok. unfold IROH_TOPIC_ID_LEN. lia.
Qed.
End Total.
