(* ===== verification/Net.v ===== *)
(** * Socket addresses and their text form

    The part of [std::net] the sources use: [Ipv4Addr], [Ipv6Addr] and
    [SocketAddr] with their [Display] and [FromStr] implementations (peer
    cards carry direct addresses as text), and the address-class predicates
    behind guard.rs.  [Url] and its parser come from the third-party [url]
    crate: they are the class [UrlLib]. *)

From S2P Require Import Prelude Bytes.

(** ** The [url] crate *)

Inductive Ipv4Addr : Type := Ipv4 (a b c d : byte).

Record Ipv6Addr : Type := Ipv6 { segments : list N }.

Inductive Host : Type :=
| Host_Domain (d : bytes)
| Host_Ipv4 (ip : Ipv4Addr)
| Host_Ipv6 (ip : Ipv6Addr).

Class UrlLib := {
  Url : Type;
  Url_eq_dec :: EqDecision Url;
  url_parse : bytes → option Url;
  (** [Url::as_str], the serialization; [to_string] prints the same text. *)
  url_as_str : Url → bytes;
  url_scheme : Url → bytes;
  url_host : Url → option Host
}.

(** A serialized URL parses back to itself and is valid UTF-8. *)
Class UrlLaws `{UL : UrlLib} := {
  url_parse_as_str : ∀ u, url_parse (url_as_str u) = Some u;
  url_as_str_utf8 : ∀ u, utf8_valid (url_as_str u) = true
}.

(** ** Addresses *)

#[export] Instance Ipv4Addr_eq_dec : EqDecision Ipv4Addr.
Proof. solve_decision. Defined.

#[export] Instance Ipv6Addr_eq_dec : EqDecision Ipv6Addr.
Proof. solve_decision. Defined.

Inductive SocketAddr : Type :=
| V4 (ip : Ipv4Addr) (port : N)
| V6 (ip : Ipv6Addr) (port flowinfo scope_id : N).

#[export] Instance SocketAddr_eq_dec : EqDecision SocketAddr.
Proof. solve_decision. Defined.

Definition u16_max : N := 65535.

Definition Ipv6Addr_wf (ip : Ipv6Addr) : Prop :=
  length (segments ip) = 8 ∧ Forall (λ s, s ≤ u16_max)%N (segments ip).

(** The values of the Rust type: every integer within its width. *)
Definition SocketAddr_wf (a : SocketAddr) : Prop :=
  match a with
  | V4 _ port => (port ≤ u16_max)%N
  | V6 ip port flowinfo scope_id =>
      Ipv6Addr_wf ip ∧ (port ≤ u16_max ∧ flowinfo ≤ u32_max ∧ scope_id ≤ u32_max)%N
  end.

(** ** [Display] *)

(** Digits of [n] in the given radix ([{}] and [{:x}]), most significant
    first; [fuel] digits are enough for [n < radix ^ fuel]. *)
Fixpoint digits (radix : N) (fuel : nat) (n : N) : bytes :=
  match fuel with
  | O => []
  | S f =>
      if (n <? radix)%N then [hex_digit n]
      else digits radix f (n / radix) ++ [hex_digit (n mod radix)]
  end.

Definition show_u8 (b : byte) : bytes := digits 10 3 (Byte.to_N b).
Definition show_u16 (n : N) : bytes := digits 10 5 n.
Definition show_u32 (n : N) : bytes := digits 10 10 n.
Definition show_hex16 (n : N) : bytes := digits 16 4 n.

Definition Ipv4Addr_to_string (ip : Ipv4Addr) : bytes :=
  match ip with
  | Ipv4 a b c d =>
      show_u8 a ++ x2e :: show_u8 b ++ x2e :: show_u8 c ++ x2e :: show_u8 d
  end.

(** [Ipv6Addr::to_ipv4_mapped]. *)
Definition to_ipv4_mapped (ip : Ipv6Addr) : option Ipv4Addr :=
  match segments ip with
  | [s0; s1; s2; s3; s4; s5; ab; cd] =>
      if ((s0 =? 0) && (s1 =? 0) && (s2 =? 0) && (s3 =? 0) && (s4 =? 0) && (s5 =? 65535))%N%bool
      then Some (Ipv4 (byte_of_N (ab / 256)) (byte_of_N ab) (byte_of_N (cd / 256)) (byte_of_N cd))
      else None
  | _ => None
  end.

(** The longest run of zero segments, the first one of that length, as a
    (start, length) pair. *)
Fixpoint zero_span (l : list N) (i : nat) (longest current : nat * nat) : nat * nat :=
  match l with
  | [] => longest
  | s :: l' =>
      if (s =? 0)%N then
        let current := if current.2 =? 0 then (i, 1) else (current.1, S current.2) in
        let longest := if longest.2 <? current.2 then current else longest in
        zero_span l' (S i) longest current
      else zero_span l' (S i) longest (0, 0)
  end.

(** [fmt_subslice]: hexadecimal groups separated by colons. *)
Fixpoint fmt_groups_from (i : nat) (l : list N) : bytes :=
  match l with
  | [] => []
  | s :: l' => (if i =? 0 then [] else [x3a]) ++ show_hex16 s ++ fmt_groups_from (S i) l'
  end.

Definition fmt_subslice (l : list N) : bytes := fmt_groups_from 0 l.

Definition Ipv6Addr_to_string (ip : Ipv6Addr) : bytes :=
  match to_ipv4_mapped ip with
  | Some ipv4 => lit "::ffff:" ++ Ipv4Addr_to_string ipv4
  | None =>
      let '(start, n) := zero_span (segments ip) 0 (0, 0) (0, 0) in
      if 1 <? n then
        fmt_subslice (take start (segments ip)) ++ lit "::" ++
        fmt_subslice (drop (start + n) (segments ip))
      else fmt_subslice (segments ip)
  end.

Definition SocketAddr_to_string (a : SocketAddr) : bytes :=
  match a with
  | V4 ip port => Ipv4Addr_to_string ip ++ x3a :: show_u16 port
  | V6 ip port _ scope_id =>
      x5b :: Ipv6Addr_to_string ip ++
      (if (scope_id =? 0)%N then [] else x25 :: show_u32 scope_id) ++
      x5d :: x3a :: show_u16 port
  end.

(** ** [FromStr]: the recursive-descent parser of [core::net]

    A reader takes the remaining input and returns a value with the rest;
    failing leaves the input where it was ([read_atomically]). *)

Definition reader (A : Type) : Type := bytes → option (A * bytes).

Definition read_given_char (c : byte) : reader unit := λ s,
  match s with
  | b :: s' => if decide (b = c) then Some (tt, s') else None
  | [] => None
  end.

Definition read_separator {A} (sep : byte) (index : nat) (inner : reader A) : reader A := λ s,
  if index =? 0 then inner s
  else
    match read_given_char sep s with
    | Some (_, s') => inner s'
    | None => None
    end.

(** The digit loop of [read_number]: at most [max_digits] digits when it is
    given, checked arithmetic up to [bound] when it is not. *)
Fixpoint read_digits (radix bound : N) (max_digits : option nat) (count : nat) (acc : N)
    (s : bytes) : option (N * nat * bytes) :=
  match s with
  | [] => Some (acc, count, [])
  | b :: s' =>
      match to_digit radix b with
      | None => Some (acc, count, s)
      | Some d =>
          match max_digits with
          | Some m =>
              if m <? S count then None
              else read_digits radix bound max_digits (S count) (acc * radix + d) s'
          | None =>
              if (acc * radix <=? bound)%N then
                if (acc * radix + d <=? bound)%N then
                  read_digits radix bound max_digits (S count) (acc * radix + d) s'
                else None
              else None
          end
      end
  end.

Definition read_number (radix bound : N) (max_digits : option nat) (allow_zero_prefix : bool)
    : reader N := λ s,
  let has_leading_zero := match s with b :: _ => bool_decide (b = x30) | [] => false end in
  match read_digits radix bound max_digits 0 0 s with
  | None => None
  | Some (n, count, s') =>
      if count =? 0 then None
      else if negb allow_zero_prefix && has_leading_zero && (1 <? count) then None
      else if (n <=? bound)%N then Some (n, s') else None
  end.

Definition read_octet (i : nat) : reader N :=
  read_separator x2e i (read_number 10 u8_max (Some 3) false).

Definition read_ipv4_addr : reader Ipv4Addr := λ s,
  match read_octet 0 s with
  | Some (a, s) =>
      match read_octet 1 s with
      | Some (b, s) =>
          match read_octet 2 s with
          | Some (c, s) =>
              match read_octet 3 s with
              | Some (d, s) =>
                  Some (Ipv4 (byte_of_N a) (byte_of_N b) (byte_of_N c) (byte_of_N d), s)
              | None => None
              end
          | None => None
          end
      | None => None
      end
  | None => None
  end.

Definition be16 (hi lo : byte) : N := (Byte.to_N hi * 256 + Byte.to_N lo)%N.

(** [read_groups] from group [i] with [todo] slots left: the groups read,
    whether the last two came from a dotted quad, and the rest. *)
Fixpoint read_groups (todo i : nat) (s : bytes) : list N * bool * bytes :=
  match todo with
  | O => ([], false, s)
  | S todo' =>
      let ipv4 := if 0 <? todo' then read_separator x3a i read_ipv4_addr s else None in
      match ipv4 with
      | Some (Ipv4 a b c d, s') => ([be16 a b; be16 c d], true, s')
      | None =>
          match read_separator x3a i (read_number 16 u16_max (Some 4) true) s with
          | Some (g, s') =>
              let '(gs, v4, s'') := read_groups todo' (S i) s' in (g :: gs, v4, s'')
          | None => ([], false, s)
          end
      end
  end.

Definition read_ipv6_addr : reader Ipv6Addr := λ s,
  let '(head, head_ipv4, s) := read_groups 8 0 s in
  if length head =? 8 then Some (Ipv6 head, s)
  else if head_ipv4 then None
  else
    match read_given_char x3a s with
    | Some (_, s) =>
        match read_given_char x3a s with
        | Some (_, s) =>
            let '(tail, _, s) := read_groups (8 - (length head + 1)) 0 s in
            Some (Ipv6 (head ++ replicate (8 - length head - length tail) 0%N ++ tail), s)
        | None => None
        end
    | None => None
    end.

Definition read_port : reader N := λ s,
  match read_given_char x3a s with
  | Some (_, s) => read_number 10 u16_max None true s
  | None => None
  end.

Definition read_scope_id : reader N := λ s,
  match read_given_char x25 s with
  | Some (_, s) => read_number 10 u32_max None true s
  | None => None
  end.

Definition read_socket_addr_v4 : reader SocketAddr := λ s,
  match read_ipv4_addr s with
  | Some (ip, s) =>
      match read_port s with
      | Some (port, s) => Some (V4 ip port, s)
      | None => None
      end
  | None => None
  end.

Definition read_socket_addr_v6 : reader SocketAddr := λ s,
  match read_given_char x5b s with
  | Some (_, s) =>
      match read_ipv6_addr s with
      | Some (ip, s) =>
          let '(scope_id, s) :=
            match read_scope_id s with Some (n, s') => (n, s') | None => (0%N, s) end in
          match read_given_char x5d s with
          | Some (_, s) =>
              match read_port s with
              | Some (port, s) => Some (V6 ip port 0 scope_id, s)
              | None => None
              end
          | None => None
          end
      | None => None
      end
  | None => None
  end.

Definition read_socket_addr : reader SocketAddr := λ s,
  match read_socket_addr_v4 s with
  | Some r => Some r
  | None => read_socket_addr_v6 s
  end.

(** [str::parse::<SocketAddr>]: the whole input must be consumed. *)
Definition parse_SocketAddr (s : bytes) : option SocketAddr :=
  match read_socket_addr s with
  | Some (a, []) => Some a
  | _ => None
  end.

(** ** Round trip *)

Lemma hex_digit_head_zero n : (n < 16)%N → hex_digit n = x30 → n = 0%N.
Proof.
  intros Hn H. apply (f_equal Byte.to_N) in H. rewrite to_N_hex_digit in H by done.
  change (Byte.to_N x30) with 48%N in H. destruct (N.ltb_spec n 10); lia.
Qed.

Section Digits.
Context (radix : N) (Hradix : (2 ≤ radix ≤ 16)%N).

Definition step (acc d : N) : N := (acc * radix + d)%N.

(** The input does not continue with a digit. *)
Definition stops (rest : bytes) : Prop :=
  match rest with [] => True | b :: _ => to_digit radix b = None end.

Lemma foldl_step_le acc ds : (acc ≤ foldl step acc ds)%N.
Proof.
  revert acc. induction ds as [|d ds IH]; intros acc; simpl; [lia |].
  etransitivity; [| apply IH]. unfold step. nia.
Qed.

(** [digits] prints a list of digit values, with no leading zero, of value [n]. *)
Lemma digits_spec f n :
  (n < radix ^ N.of_nat (S f))%N →
  ∃ ds, digits radix (S f) n = map hex_digit ds
    ∧ Forall (λ d, d < radix)%N ds ∧ 1 ≤ length ds ≤ S f ∧ foldl step 0%N ds = n
    ∧ (match ds with d :: _ :: _ => d ≠ 0%N | _ => True end).
Proof.
  revert n. induction f as [|f IH]; intros n Hn.
  - rewrite N.pow_1_r in Hn. cbn [digits]. destruct (N.ltb_spec n radix); [| lia].
    exists [n]. split_and!; simpl; auto with lia.
  - cbn [digits]. destruct (N.ltb_spec n radix) as [Hlt|Hge].
    + exists [n]. split_and!; simpl; auto with lia.
    + rewrite Nat2N.inj_succ, N.pow_succ_r' in Hn.
      pose proof (N.mod_lt n radix ltac:(lia)) as Hr.
      pose proof (N.div_mod n radix ltac:(lia)) as Hdm.
      destruct (IH (n / radix)%N) as (ds & Hds & Hall & Hlen & Hval & Hz).
      { by apply N.Div0.div_lt_upper_bound. }
      cbn [digits] in Hds |- *. rewrite Hds. exists (ds ++ [n mod radix]%N).
      split_and!.
      * by rewrite map_app.
      * apply Forall_app. split; [done | by repeat constructor].
      * rewrite length_app. simpl. lia.
      * rewrite length_app. simpl. lia.
      * rewrite foldl_app, Hval. simpl. unfold step. lia.
      * destruct ds as [|d [|d' ds]]; [simpl in Hlen; lia | | done].
        simpl in Hval |- *. unfold step in Hval. intros ->.
        assert (1 ≤ n / radix)%N by (apply N.div_le_lower_bound; lia). lia.
Qed.

Lemma read_digits_map bound max_digits ds acc count rest :
  Forall (λ d, d < radix)%N ds → stops rest →
  match max_digits with
  | Some m => count + length ds ≤ m
  | None => (foldl step acc ds ≤ bound)%N
  end →
  read_digits radix bound max_digits count acc (map hex_digit ds ++ rest)
  = Some (foldl step acc ds, count + length ds, rest).
Proof.
  intros Hall Hstop. revert acc count. induction Hall as [|d ds Hd Hall IH]; intros acc count Hm.
  - cbn [map app foldl length]. rewrite Nat.add_0_r.
    destruct rest as [|b rest]; [done |]. simpl in *. by rewrite Hstop.
  - cbn [map app read_digits]. rewrite to_digit_hex_digit by lia.
    change (foldl step acc (d :: ds)) with (foldl step (step acc d) ds) in *.
    destruct max_digits as [m|].
    + simpl length in Hm. destruct (Nat.ltb_spec m (S count)); [lia |].
      change (acc * radix + d)%N with (step acc d). rewrite IH by lia.
      simpl. by rewrite Nat.add_succ_r.
    + pose proof (foldl_step_le (step acc d) ds). unfold step in H at 1.
      destruct (N.leb_spec (acc * radix) bound); [| lia].
      destruct (N.leb_spec (acc * radix + d) bound); [| lia].
      change (acc * radix + d)%N with (step acc d). rewrite IH by done.
      simpl. by rewrite Nat.add_succ_r.
Qed.

Lemma read_number_digits bound max_digits allow f n rest :
  (n < radix ^ N.of_nat (S f))%N → (n ≤ bound)%N → stops rest →
  match max_digits with Some m => S f ≤ m | None => True end →
  read_number radix bound max_digits allow (digits radix (S f) n ++ rest) = Some (n, rest).
Proof.
  intros Hn Hb Hs Hm. destruct (digits_spec f n Hn) as (ds & -> & Hall & Hlen & Hval & Hz).
  unfold read_number. rewrite read_digits_map, Hval; [| done | done |].
  2: { destruct max_digits; [lia |]. by rewrite Hval. }
  cbn [plus]. destruct (Nat.eqb_spec (length ds) 0); [lia |].
  destruct (N.leb_spec n bound); [| lia].
  assert (bool_decide (hex_digit (hd 0%N ds) = x30) && (1 <? length ds) = false) as Hlz.
  { destruct ds as [|d [|d' ds]]; [simpl in *; lia | by rewrite andb_false_r |].
    rewrite bool_decide_eq_false_2; [done |]. cbn [hd].
    intros E%hex_digit_head_zero; [done |].
    inversion Hall; subst. lia. }
  destruct ds as [|d ds]; [simpl in *; lia |]. cbn [map app hd] in *.
  rewrite <- andb_assoc, Hlz. by rewrite andb_false_r.
Qed.
End Digits.

Lemma read_given_char_here c s : read_given_char c (c :: s) = Some (tt, s).
Proof. unfold read_given_char. by rewrite decide_True. Qed.

Lemma read_number_u8 b rest :
  stops 10 rest → read_number 10 u8_max (Some 3) false (show_u8 b ++ rest) = Some (Byte.to_N b, rest).
Proof.
  pose proof (to_N_lt_256 b). intros Hs.
  apply read_number_digits; [lia | | unfold u8_max; lia | done | done].
  change (10 ^ N.of_nat 3)%N with 1000%N. lia.
Qed.

Lemma read_number_hex16 n rest :
  (n ≤ u16_max)%N → stops 16 rest →
  read_number 16 u16_max (Some 4) true (show_hex16 n ++ rest) = Some (n, rest).
Proof.
  unfold u16_max. intros Hn Hs. apply read_number_digits; [lia | | done | done | done].
  change (16 ^ N.of_nat 4)%N with 65536%N. lia.
Qed.

Lemma read_number_u16 n rest :
  (n ≤ u16_max)%N → stops 10 rest →
  read_number 10 u16_max None true (show_u16 n ++ rest) = Some (n, rest).
Proof.
  unfold u16_max. intros Hn Hs. apply read_number_digits; [lia | | done | done | done].
  change (10 ^ N.of_nat 5)%N with 100000%N. lia.
Qed.

Lemma read_number_u32 n rest :
  (n ≤ u32_max)%N → stops 10 rest →
  read_number 10 u32_max None true (show_u32 n ++ rest) = Some (n, rest).
Proof.
  unfold u32_max. intros Hn Hs. apply read_number_digits; [lia | | done | done | done].
  change (10 ^ N.of_nat 10)%N with 10000000000%N. lia.
Qed.

Lemma read_ipv4_roundtrip ip rest :
  stops 10 rest → read_ipv4_addr (Ipv4Addr_to_string ip ++ rest) = Some (ip, rest).
Proof.
  destruct ip as [a b c d]. intros Hs. unfold read_ipv4_addr, Ipv4Addr_to_string.
  repeat (rewrite <- app_assoc; cbn [app]).
  unfold read_octet, read_separator. cbn [Nat.eqb].
  do 3 (rewrite read_number_u8 by done; rewrite read_given_char_here; cbn beta iota).
  rewrite read_number_u8 by done. by rewrite !byte_of_N_to_N.
Qed.

(** *** Groups *)

(** What may follow a hexadecimal group in the text of an address. *)
Definition group_stop (rest : bytes) : Prop :=
  match rest with [] => True | b :: _ => to_digit 16 b = None ∧ b ≠ x2e end.

(** No further group can be read from here. *)
Definition groups_end (rest : bytes) : Prop :=
  match rest with
  | b :: rest' => b = x5d ∨ b = x25 ∨ (b = x3a ∧ ∃ r, rest' = x3a :: r)
  | [] => False
  end.

Lemma to_digit_10_16 b d : to_digit 10 b = Some d → is_Some (to_digit 16 b).
Proof. destruct b; vm_compute; intros [= <-]; eauto. Qed.

Lemma read_digits_no_dot h rest bound m count acc n c s' :
  Forall (λ b, is_Some (to_digit 16 b)) h → group_stop rest →
  read_digits 10 bound m count acc (h ++ rest) = Some (n, c, s') →
  match s' with [] => True | b :: _ => b ≠ x2e end.
Proof.
  intros Hh Hr. revert count acc. induction Hh as [|b h Hb Hh IH]; intros count acc.
  - destruct rest as [|b rest]; simpl; [by intros [= <- <- <-] |].
    destruct Hr as [Hr Hdot]. destruct (to_digit 10 b) as [d|] eqn:E.
    + apply to_digit_10_16 in E as [? E]. by rewrite Hr in E.
    + by intros [= <- <- <-].
  - simpl. destruct (to_digit 10 b) as [d|] eqn:E.
    + destruct m as [m|]; [destruct (m <? S count); [done | apply IH] |].
      destruct (acc * 10 <=? bound)%N, (acc * 10 + d <=? bound)%N; try done. apply IH.
    + intros [= <- <- <-]. destruct Hb as [x Hb]. intros ->. done.
Qed.

Lemma show_hex16_digits n :
  (n ≤ u16_max)%N → Forall (λ b, is_Some (to_digit 16 b)) (show_hex16 n).
Proof.
  unfold u16_max. intros Hn.
  destruct (digits_spec 16 ltac:(lia) 3 n) as (ds & E & Hall & _).
  { change (16 ^ N.of_nat 4)%N with 65536%N. lia. }
  unfold show_hex16. rewrite E. clear E. induction Hall; simpl; constructor; [| done].
  rewrite to_digit_hex_digit by lia. done.
Qed.

Lemma read_ipv4_not_group n rest :
  (n ≤ u16_max)%N → group_stop rest → read_ipv4_addr (show_hex16 n ++ rest) = None.
Proof.
  intros Hn Hr. unfold read_ipv4_addr, read_octet at 1, read_separator, read_number. cbn [Nat.eqb].
  destruct (read_digits 10 u8_max (Some 3) 0 0 (show_hex16 n ++ rest)) as [[[v c] s']|] eqn:E; [| done].
  eapply read_digits_no_dot in E; [| by apply show_hex16_digits | done].
  repeat match goal with |- context [if ?x then _ else _] => destruct x end; try done;
  unfold read_octet, read_separator; cbn [Nat.eqb]; destruct s'; try done;
  unfold read_given_char; by rewrite decide_False.
Qed.

Lemma groups_end_stop rest : groups_end rest → group_stop rest.
Proof. destruct rest as [|b rest]; [done |]. by intros [->|[->|[-> _]]]. Qed.

Lemma groups_end_read i rest :
  groups_end rest →
  read_separator x3a i read_ipv4_addr rest = None
  ∧ read_separator x3a i (read_number 16 u16_max (Some 4) true) rest = None.
Proof.
  destruct rest as [|b rest]; [done |].
  intros [->|[->|[-> [r ->]]]]; unfold read_separator; destruct (i =? 0); split; done.
Qed.

Lemma fmt_groups_stop i l rest : group_stop rest → group_stop (fmt_groups_from (S i) l ++ rest).
Proof. destruct l; done. Qed.

Lemma read_separator_fmt {A} (r : reader A) i t :
  read_separator x3a i r ((if i =? 0 then [] else [x3a]) ++ t) = r t.
Proof. unfold read_separator. by destruct (i =? 0). Qed.

Lemma stops_group_stop rest : group_stop rest → stops 16 rest.
Proof. destruct rest; [done |]. by intros [? _]. Qed.

Lemma read_groups_fmt l todo i rest :
  Forall (λ s, s ≤ u16_max)%N l → length l ≤ todo → group_stop rest →
  (length l < todo → groups_end rest) →
  read_groups todo i (fmt_groups_from i l ++ rest) = (l, false, rest).
Proof.
  intros Hl. revert todo i. induction Hl as [|s l Hs Hl IH]; intros todo i Hlen Hr He.
  - destruct todo as [|todo]; [done |]. cbn [read_groups fmt_groups_from app].
    destruct (groups_end_read i rest) as [-> ->]; [apply He; simpl; lia |].
    by destruct (0 <? todo).
  - destruct todo as [|todo]; [simpl in Hlen; lia |].
    cbn [read_groups fmt_groups_from]. rewrite <- !app_assoc, !read_separator_fmt.
    rewrite read_ipv4_not_group by (try done; by apply fmt_groups_stop).
    rewrite read_number_hex16 by (try done; by apply stops_group_stop, fmt_groups_stop).
    rewrite IH; [| simpl in Hlen; lia | done | simpl in He; intros; apply He; lia].
    by destruct (0 <? todo).
Qed.

(** *** The zero run *)

(** [(start, n)] delimits a run of zeroes inside [l]. *)
Definition zero_run (l : list N) (r : nat * nat) : Prop :=
  r.1 + r.2 ≤ length l ∧ take r.2 (drop r.1 l) = replicate r.2 0%N.

Lemma zero_run_nil l i : i ≤ length l → zero_run l (i, 0).
Proof. intros. split; simpl; [lia | done]. Qed.

Lemma zero_run_app l k r : zero_run l r → zero_run (l ++ k) r.
Proof.
  destruct r as [st n]. intros [Hb Hz]. simpl in *. split; simpl.
  - rewrite length_app. lia.
  - rewrite drop_app_le by lia. rewrite take_app_le; [done |]. rewrite length_drop. lia.
Qed.

Lemma zero_run_extend l st n :
  zero_run l (st, n) → st + n = length l → zero_run (l ++ [0%N]) (st, S n).
Proof.
  intros [Hb Hz] He. simpl in *. split; simpl; [rewrite length_app; simpl; lia |].
  rewrite drop_app_le by lia.
  assert (length (drop st l) = n) as Hd by (rewrite length_drop; lia).
  rewrite take_ge in Hz by lia. rewrite Hz. rewrite take_ge by (rewrite length_app, length_replicate; simpl; lia).
  rewrite <- replicate_S_end. done.
Qed.

Lemma zero_span_run l pre longest current :
  zero_run pre longest → zero_run pre current →
  (current.2 ≠ 0 → current.1 + current.2 = length pre) →
  zero_run (pre ++ l) (zero_span l (length pre) longest current).
Proof.
  revert pre longest current. induction l as [|s l IH]; intros pre longest [st n] Hl Hc He;
    cbn [zero_span]; [by rewrite app_nil_r |].
  replace (S (length pre)) with (length (pre ++ [s])) by (rewrite length_app; simpl; lia).
  replace (pre ++ s :: l) with ((pre ++ [s]) ++ l) by (by rewrite <- app_assoc).
  destruct (N.eqb_spec s 0) as [->|Hs].
  - assert (zero_run (pre ++ [0%N]) (if n =? 0 then (length pre, 1) else (st, S n))) as Hc'.
    { destruct (Nat.eqb_spec n 0) as [->|Hn].
      - apply zero_run_extend; [by apply zero_run_nil | simpl; lia].
      - apply zero_run_extend; [done | by apply He]. }
    cbn [fst snd] in *. apply IH.
    + destruct (_ <? _); [done | by apply zero_run_app].
    + done.
    + intros _. rewrite length_app. simpl. destruct (Nat.eqb_spec n 0); simpl in *; lia.
  - apply IH; [by apply zero_run_app | apply zero_run_nil; lia | done].
Qed.

Lemma zero_span_split l st n :
  zero_span l 0 (0, 0) (0, 0) = (st, n) →
  st + n ≤ length l ∧ l = take st l ++ replicate n 0%N ++ drop (st + n) l.
Proof.
  intros E. pose proof (zero_span_run l [] (0, 0) (0, 0)) as H. simpl in H.
  rewrite E in H. destruct H as [Hb Hz]; [by apply zero_run_nil .. | done |]. simpl in *.
  split; [done |]. rewrite <- Hz, <- drop_drop. by rewrite !take_drop.
Qed.

(** *** Addresses *)

Lemma be16_split n : (n ≤ u16_max)%N → be16 (byte_of_N (n / 256)) (byte_of_N n) = n.
Proof.
  unfold u16_max, be16. intros Hn. rewrite !to_N_byte_of_N.
  pose proof (N.div_mod n 256 ltac:(done)).
  rewrite (N.mod_small (n / 256)); [lia |]. apply N.Div0.div_lt_upper_bound. lia.
Qed.

Lemma to_ipv4_mapped_Some ip v4 :
  Ipv6Addr_wf ip → to_ipv4_mapped ip = Some v4 →
  ∃ a b c d, v4 = Ipv4 a b c d ∧ ip = Ipv6 [0; 0; 0; 0; 0; 65535; be16 a b; be16 c d]%N.
Proof.
  destruct ip as [l]. unfold Ipv6Addr_wf, to_ipv4_mapped. cbn [segments]. intros [Hlen Hall].
  do 9 (destruct l as [|? l]; try done).
  destruct (_ && _) eqn:E; [| done]. intros [= <-]. reflect_bools. subst.
  rewrite !Forall_cons in Hall. destruct Hall as (_ & _ & _ & _ & _ & _ & Hab & Hcd & _).
  eexists _, _, _, _. split; [done |]. by rewrite !be16_split.
Qed.

Lemma read_groups_mapped a b c d rest :
  stops 10 rest →
  read_groups 7 0 (lit "ffff:" ++ Ipv4Addr_to_string (Ipv4 a b c d) ++ rest)
  = ([65535; be16 a b; be16 c d]%N, true, rest).
Proof.
  intros Hs. change (lit "ffff:" ++ ?t) with (show_hex16 65535 ++ x3a :: t).
  cbn [read_groups]. unfold read_separator at 1 2. cbn [Nat.eqb Nat.ltb Nat.leb].
  rewrite read_ipv4_not_group, read_number_hex16 by done.
  cbn [read_groups Nat.ltb Nat.leb]. unfold read_separator at 1. cbn [Nat.eqb].
  rewrite read_given_char_here; cbn beta iota. by rewrite read_ipv4_roundtrip.
Qed.

Lemma read_ipv6_compressed head tail rest :
  Forall (λ s, s ≤ u16_max)%N head → Forall (λ s, s ≤ u16_max)%N tail →
  length head + length tail ≤ 6 → groups_end rest →
  read_ipv6_addr (fmt_subslice head ++ lit "::" ++ fmt_subslice tail ++ rest)
  = Some (Ipv6 (head ++ replicate (8 - length head - length tail) 0%N ++ tail), rest).
Proof.
  intros Hh Ht Hlen He. unfold read_ipv6_addr.
  change (lit "::" ++ ?t) with (x3a :: x3a :: t).
  unfold fmt_subslice at 1. rewrite read_groups_fmt;
    [| done | lia | done | intros _; simpl; eauto].
  destruct (Nat.eqb_spec (length head) 8); [lia |].
  do 2 (rewrite read_given_char_here; cbn beta iota).
  unfold fmt_subslice. rewrite read_groups_fmt;
    [done | done | lia | by apply groups_end_stop | done].
Qed.

Lemma read_ipv6_roundtrip ip rest :
  Ipv6Addr_wf ip → groups_end rest → stops 10 rest →
  read_ipv6_addr (Ipv6Addr_to_string ip ++ rest) = Some (ip, rest).
Proof.
  intros Hwf He Hs. unfold Ipv6Addr_to_string. destruct (to_ipv4_mapped ip) as [v4|] eqn:E.
  - apply to_ipv4_mapped_Some in E as (a & b & c & d & -> & ->); [| done].
    rewrite <- app_assoc. change (lit "::ffff:" ++ ?t) with (x3a :: x3a :: lit "ffff:" ++ t).
    unfold read_ipv6_addr.
    change (x3a :: x3a :: ?t) with (fmt_groups_from 0 [] ++ x3a :: x3a :: t).
    rewrite read_groups_fmt; [| done | simpl; lia | done | intros _; simpl; eauto].
    cbn [length Nat.eqb Nat.sub Nat.add].
    do 2 (rewrite read_given_char_here; cbn beta iota).
    by rewrite read_groups_mapped.
  - destruct ip as [l]. destruct Hwf as [Hlen Hall]. cbn [segments] in *.
    destruct (zero_span l 0 (0, 0) (0, 0)) as [st n] eqn:Z.
    apply zero_span_split in Z as [Hb Hl]. destruct (Nat.ltb_spec 1 n).
    + rewrite <- !app_assoc. rewrite read_ipv6_compressed.
      * replace (8 - length (take st l) - length (drop (st + n) l)) with n
          by (rewrite length_take, length_drop; lia).
        by rewrite <- Hl.
      * by apply Forall_take.
      * by apply Forall_drop.
      * rewrite length_take, length_drop. lia.
      * done.
    + unfold read_ipv6_addr, fmt_subslice.
      rewrite read_groups_fmt; [| done | lia | by apply groups_end_stop | lia].
      by rewrite Hlen.
Qed.

Lemma SocketAddr_v6_not_v4 s : read_socket_addr_v4 (x5b :: s) = None.
Proof. done. Qed.

(** Printing a socket address and parsing the text gives the address back,
    except that the IPv6 flow information is not part of the text. *)
Lemma parse_SocketAddr_to_string a :
  SocketAddr_wf a →
  parse_SocketAddr (SocketAddr_to_string a) =
  Some (match a with V4 ip port => V4 ip port | V6 ip port _ sc => V6 ip port 0 sc end).
Proof.
  unfold parse_SocketAddr, read_socket_addr. destruct a as [ip port|ip port fl sc].
  - intros Hp. unfold read_socket_addr_v4, SocketAddr_to_string.
    rewrite read_ipv4_roundtrip by done. unfold read_port. rewrite read_given_char_here; cbn beta iota. rewrite <- (app_nil_r (show_u16 port)).
    by rewrite read_number_u16.
  - intros (Hip & Hp & _ & Hsc). unfold SocketAddr_to_string. rewrite SocketAddr_v6_not_v4.
    unfold read_socket_addr_v6. rewrite read_given_char_here; cbn beta iota.
    rewrite read_ipv6_roundtrip; [| done | |]; try (destruct (sc =? 0)%N; simpl; eauto; fail).
    assert (read_port (x3a :: show_u16 port) = Some (port, [])) as Hport.
    { unfold read_port. rewrite read_given_char_here; cbn beta iota.
      rewrite <- (app_nil_r (show_u16 port)). by rewrite read_number_u16. }
    destruct (N.eqb_spec sc 0) as [->|Hsc0]; cbn [app].
    + change (read_scope_id (x5d :: ?t)) with (@None (N * bytes)).
      cbn beta iota. rewrite read_given_char_here; cbn beta iota. by rewrite Hport.
    + unfold read_scope_id. rewrite read_given_char_here; cbn beta iota.
      rewrite read_number_u32 by done. rewrite read_given_char_here; cbn beta iota. by rewrite Hport.
Qed.

(** The text is ASCII, hence UTF-8. *)
Definition ascii (s : bytes) : Prop := Forall (λ b, (Byte.to_N b < 128)%N) s.

Lemma hex_digit_ascii n : (n < 16)%N → (Byte.to_N (hex_digit n) < 128)%N.
Proof. intros H. rewrite to_N_hex_digit by done. destruct (n <? 10)%N; lia. Qed.

Lemma digits_ascii radix f n : (2 ≤ radix ≤ 16)%N → ascii (digits radix f n).
Proof.
  intros Hr. revert n. induction f as [|f IH]; intros n; cbn [digits]; [constructor |].
  destruct (N.ltb_spec n radix).
  - repeat constructor. apply hex_digit_ascii. lia.
  - apply Forall_app. split; [apply IH |]. repeat constructor. apply hex_digit_ascii.
    pose proof (N.mod_lt n radix ltac:(lia)). lia.
Qed.

Lemma fmt_groups_ascii i l : ascii (fmt_groups_from i l).
Proof.
  revert i. induction l as [|s l IH]; intros i; cbn [fmt_groups_from]; [constructor |].
  apply Forall_app. split; [by destruct (i =? 0); repeat constructor |].
  apply Forall_app. split; [apply digits_ascii; lia | apply IH].
Qed.

Ltac solve_ascii :=
  repeat first
    [ apply Forall_app; split
    | apply Forall_cons; split
    | apply Forall_nil_2
    | apply digits_ascii; lia
    | apply fmt_groups_ascii
    | vm_compute; reflexivity ].

Lemma SocketAddr_to_string_utf8 a : utf8_valid (SocketAddr_to_string a) = true.
Proof.
  apply ascii_utf8_valid.
  assert (∀ ip, ascii (Ipv4Addr_to_string ip)) as H4.
  { intros []. unfold Ipv4Addr_to_string. fold (ascii []). solve_ascii. }
  destruct a as [ip port|ip port fl sc]; simpl.
  - apply Forall_app. split; [apply H4 | solve_ascii].
  - apply Forall_cons. split; [done |]. apply Forall_app. split.
    + unfold Ipv6Addr_to_string. destruct (to_ipv4_mapped ip).
      * apply Forall_app. split; [by repeat constructor | apply H4].
      * destruct (zero_span _ _ _ _) as [st n]. unfold fmt_subslice. destruct (1 <? n); solve_ascii.
    + destruct (sc =? 0)%N; solve_ascii.
Qed.
