(* ===== verification/Guard.v ===== *)
(** * guard.rs: channel-name and public-host checks

    [host_is_public] accepts an [https] URL whose host is a literal address
    outside the reserved ranges the standard library's predicates name.  The
    reference definition of those ranges is a list of address blocks. *)

From S2P Require Import Prelude Bytes Crypto Kdf Net.

Definition validate_channel_name (name : bytes) : result unit NameError := validate_name name.

(** ** The predicates of [std::net] *)

Definition octet (b : byte) : N := Byte.to_N b.

Definition v4_is_private (ip : Ipv4Addr) : bool :=
  let '(Ipv4 a b _ _) := ip in
  (octet a =? 10)%N
  || ((octet a =? 172) && (16 <=? octet b) && (octet b <=? 31))%N%bool
  || ((octet a =? 192) && (octet b =? 168))%N%bool.

Definition v4_is_loopback (ip : Ipv4Addr) : bool :=
  let '(Ipv4 a _ _ _) := ip in (octet a =? 127)%N.

Definition v4_is_link_local (ip : Ipv4Addr) : bool :=
  let '(Ipv4 a b _ _) := ip in ((octet a =? 169) && (octet b =? 254))%N%bool.

Definition v4_is_broadcast (ip : Ipv4Addr) : bool :=
  bool_decide (ip = Ipv4 xff xff xff xff).

Definition v4_is_documentation (ip : Ipv4Addr) : bool :=
  let '(Ipv4 a b c _) := ip in
  ((octet a =? 192) && (octet b =? 0) && (octet c =? 2))%N%bool
  || ((octet a =? 198) && (octet b =? 51) && (octet c =? 100))%N%bool
  || ((octet a =? 203) && (octet b =? 0) && (octet c =? 113))%N%bool.

Definition v4_is_unspecified (ip : Ipv4Addr) : bool :=
  bool_decide (ip = Ipv4 x00 x00 x00 x00).

Definition v4_is_multicast (ip : Ipv4Addr) : bool :=
  let '(Ipv4 a _ _ _) := ip in ((224 <=? octet a) && (octet a <=? 239))%N%bool.

Definition segment (i : nat) (ip : Ipv6Addr) : N := nth i (segments ip) 0%N.

Definition v6_is_loopback (ip : Ipv6Addr) : bool :=
  bool_decide (segments ip = [0; 0; 0; 0; 0; 0; 0; 1]%N).

Definition v6_is_unspecified (ip : Ipv6Addr) : bool :=
  bool_decide (segments ip = [0; 0; 0; 0; 0; 0; 0; 0]%N).

(** [segments()[0] & 0xfe00 == 0xfc00] and its two siblings. *)
Definition v6_is_unique_local (ip : Ipv6Addr) : bool :=
  (N.land (segment 0 ip) 0xfe00 =? 0xfc00)%N.

Definition v6_is_unicast_link_local (ip : Ipv6Addr) : bool :=
  (N.land (segment 0 ip) 0xffc0 =? 0xfe80)%N.

Definition v6_is_multicast (ip : Ipv6Addr) : bool :=
  (N.land (segment 0 ip) 0xff00 =? 0xff00)%N.

(** ** guard.rs *)

Definition ipv4_is_public (ip : Ipv4Addr) : bool :=
  negb (v4_is_private ip || v4_is_loopback ip || v4_is_link_local ip || v4_is_broadcast ip
        || v4_is_documentation ip || v4_is_unspecified ip || v4_is_multicast ip).

Definition is_ipv6_documentation (ip : Ipv6Addr) : bool :=
  ((segment 0 ip =? 0x2001) && (segment 1 ip =? 0x0db8))%N%bool.

Definition ipv6_is_public (ip : Ipv6Addr) : bool :=
  negb (v6_is_loopback ip || v6_is_unspecified ip || v6_is_unique_local ip
        || v6_is_unicast_link_local ip || v6_is_multicast ip || is_ipv6_documentation ip).

Definition host_is_public `{UL : UrlLib} (url : bytes) : bool :=
  match url_parse url with
  | None => false
  | Some url =>
      if negb (bool_decide (url_scheme url = lit "https")) then false
      else
        match url_host url with
        | Some (Host_Ipv4 ip) => ipv4_is_public ip
        | Some (Host_Ipv6 ip) => ipv6_is_public ip
        | Some (Host_Domain _) | None => false
        end
  end.

(** ** Reference: reserved blocks *)

Definition v4_value (ip : Ipv4Addr) : N :=
  let '(Ipv4 a b c d) := ip in
  (octet a * 16777216 + octet b * 65536 + octet c * 256 + octet d)%N.

(** A block [base/prefix] of 32-bit addresses. *)
Definition in_block (base : Ipv4Addr) (prefix : N) (ip : Ipv4Addr) : Prop :=
  (v4_value base ≤ v4_value ip < v4_value base + 2 ^ (32 - prefix))%N.

(** Private use, loopback, link local, broadcast, documentation,
    unspecified and multicast. *)
Definition v4_reserved : list (Ipv4Addr * N) :=
  [ (Ipv4 x0a x00 x00 x00, 8); (Ipv4 xac x10 x00 x00, 12); (Ipv4 xc0 xa8 x00 x00, 16);
    (Ipv4 x7f x00 x00 x00, 8); (Ipv4 xa9 xfe x00 x00, 16); (Ipv4 xff xff xff xff, 32);
    (Ipv4 xc0 x00 x02 x00, 24); (Ipv4 xc6 x33 x64 x00, 24); (Ipv4 xcb x00 x71 x00, 24);
    (Ipv4 x00 x00 x00 x00, 32); (Ipv4 xe0 x00 x00 x00, 4) ]%N.

(** The IPv4-mapped IPv6 address [::ffff:a.b.c.d]. *)
Definition mapped (ip : Ipv4Addr) : Ipv6Addr :=
  let '(Ipv4 a b c d) := ip in Ipv6 [0; 0; 0; 0; 0; 65535; be16 a b; be16 c d]%N.

(** ** Proofs *)

Lemma ipv4_eq_octets a b c d a' b' c' d' :
  Ipv4 a b c d = Ipv4 a' b' c' d' ↔
  octet a = octet a' ∧ octet b = octet b' ∧ octet c = octet c' ∧ octet d = octet d'.
Proof.
  unfold octet. split; [by intros [= -> -> -> ->] |].
  intros (?%to_N_inj & ?%to_N_inj & ?%to_N_inj & ?%to_N_inj). by subst.
Qed.

(** Membership in a block of prefix length 8, 16, 24 or 32 is equality of the
    leading octets. *)
Lemma in_block_octets base prefix a b c d :
  in_block base prefix (Ipv4 a b c d) ↔
  (v4_value base ≤ octet a * 16777216 + octet b * 65536 + octet c * 256 + octet d
   < v4_value base + 2 ^ (32 - prefix))%N.
Proof. done. Qed.

(** Finds the disjunct that [lia] proves. *)
Ltac solve_or :=
  lazymatch goal with
  | |- _ ∨ _ => first [left; solve_or | right; solve_or]
  | |- False => fail
  | |- _ => lia
  end.

Lemma v4_reserved_spec ip :
  Exists (λ r, in_block r.1 r.2 ip) v4_reserved ↔ ipv4_is_public ip = false.
Proof.
  unfold ipv4_is_public. rewrite negb_false_iff. destruct ip as [a b c d].
  unfold v4_reserved. rewrite !Exists_cons, Exists_nil. cbn [fst snd].
  rewrite !in_block_octets.
  unfold v4_is_private, v4_is_loopback, v4_is_link_local, v4_is_broadcast, v4_is_documentation,
    v4_is_unspecified, v4_is_multicast.
  rewrite !orb_true_iff, !andb_true_iff, !bool_decide_eq_true, !N.eqb_eq, !N.leb_le, !ipv4_eq_octets.
  repeat match goal with
  | |- context [v4_value ?x] => let v := eval vm_compute in (v4_value x) in change (v4_value x) with v
  | |- context [(2 ^ (32 - ?k))%N] =>
      let v := eval vm_compute in (2 ^ (32 - k))%N in change (2 ^ (32 - k))%N with v
  end.
  change (octet xff) with 255%N. change (octet x00) with 0%N.
  pose proof (to_N_lt_256 a : octet a < 256)%N. pose proof (to_N_lt_256 b : octet b < 256)%N.
  pose proof (to_N_lt_256 c : octet c < 256)%N. pose proof (to_N_lt_256 d : octet d < 256)%N.
  generalize dependent (octet a); intros A ?. generalize dependent (octet b); intros B ?.
  generalize dependent (octet c); intros C ?. generalize dependent (octet d); intros D ?.
  split; intros HH; repeat destruct HH as [HH|HH]; try done; solve_or.
Qed.

Lemma v4_public_blocks ip :
  Forall (λ r, ¬ in_block r.1 r.2 ip) v4_reserved ↔ ipv4_is_public ip = true.
Proof.
  rewrite <- not_false_iff_true, <- v4_reserved_spec. apply Forall_Exists_neg.
Qed.

(** Masking with the high bits of a 16-bit segment clears its low bits. *)
Lemma land_high_mask s k :
  (s ≤ u16_max)%N → (k ≤ 16)%N →
  N.land s (N.shiftl (N.ones (16 - k)) k) = (s / 2 ^ k * 2 ^ k)%N.
Proof.
  unfold u16_max. intros Hs Hk.
  rewrite <- N.shiftr_div_pow2, <- N.shiftl_mul_pow2. apply N.bits_inj. intros i.
  rewrite N.land_spec. destruct (N.ltb_spec i k) as [Hi|Hi].
  - rewrite !N.shiftl_spec_low by done. by rewrite andb_false_r.
  - rewrite !N.shiftl_spec_high' by done. rewrite N.shiftr_spec'.
    replace (i - k + k)%N with i by lia.
    destruct (N.ltb_spec (i - k) (16 - k)) as [Hj|Hj].
    + by rewrite N.ones_spec_low, andb_true_r by lia.
    + rewrite N.ones_spec_high, andb_false_r by lia. symmetry.
      destruct (N.eq_dec s 0) as [->|Hne]; [by rewrite N.bits_0 |].
      apply N.bits_above_log2. apply N.log2_lt_pow2; [lia |].
      eapply N.lt_le_trans with (2 ^ 16)%N; [change (2 ^ 16)%N with 65536%N; lia |].
      apply N.pow_le_mono_r; lia.
Qed.

(** The first segments of unique-local, link-local and multicast addresses. *)
Definition v6_reserved_head (s0 s1 : N) : Prop :=
  (0xfc00 ≤ s0 ≤ 0xfdff ∨ 0xfe80 ≤ s0 ≤ 0xfebf ∨ 0xff00 ≤ s0 ≤ 0xffff
   ∨ (s0 = 0x2001 ∧ s1 = 0xdb8))%N.

Lemma v6_masks s :
  (s ≤ u16_max)%N →
  ((N.land s 0xfe00 = 0xfc00 ↔ 0xfc00 ≤ s ≤ 0xfdff)
   ∧ (N.land s 0xffc0 = 0xfe80 ↔ 0xfe80 ≤ s ≤ 0xfebf)
   ∧ (N.land s 0xff00 = 0xff00 ↔ 0xff00 ≤ s ≤ 0xffff))%N.
Proof.
  intros Hs. pose proof (land_high_mask s 9 Hs ltac:(done)) as H1.
  pose proof (land_high_mask s 6 Hs ltac:(done)) as H2.
  pose proof (land_high_mask s 8 Hs ltac:(done)) as H3.
  change (N.shiftl (N.ones (16 - 9)) 9) with 0xfe00%N in H1.
  change (N.shiftl (N.ones (16 - 6)) 6) with 0xffc0%N in H2.
  change (N.shiftl (N.ones (16 - 8)) 8) with 0xff00%N in H3.
  change (2 ^ 9)%N with 512%N in H1. change (2 ^ 6)%N with 64%N in H2.
  change (2 ^ 8)%N with 256%N in H3. unfold u16_max in Hs.
  rewrite H1, H2, H3. split_and!; lia.
Qed.

Lemma ipv6_is_public_spec ip :
  Ipv6Addr_wf ip →
  ipv6_is_public ip = true ↔
  segments ip ≠ [0; 0; 0; 0; 0; 0; 0; 1]%N ∧ segments ip ≠ [0; 0; 0; 0; 0; 0; 0; 0]%N
  ∧ ¬ v6_reserved_head (segment 0 ip) (segment 1 ip).
Proof.
  intros [Hlen Hall]. unfold ipv6_is_public, v6_is_loopback, v6_is_unspecified,
    v6_is_unique_local, v6_is_unicast_link_local, v6_is_multicast, is_ipv6_documentation.
  assert (segment 0 ip ≤ u16_max)%N as Hs0.
  { unfold segment. destruct (segments ip) as [|s l]; [done |]. by inversion Hall. }
  destruct (v6_masks _ Hs0) as (H1 & H2 & H3).
  rewrite negb_true_iff, !orb_false_iff, !bool_decide_eq_false, !N.eqb_neq.
  rewrite andb_false_iff, !N.eqb_neq, H1, H2, H3. unfold v6_reserved_head.
  destruct (N.eq_dec (segment 0 ip) 0x2001), (N.eq_dec (segment 1 ip) 0xdb8); naive_solver.
Qed.

(** ** Results *)

Section Claims.
Context `{UL : UrlLib}.

(** [host_is_public] accepts exactly the URLs that parse, have scheme
    [https] and name their host by an address literal outside the reserved
    ranges: for IPv4, outside every block of [v4_reserved]; for IPv6, neither
    [::1] nor [::] and outside the unique-local, link-local, multicast and
    documentation prefixes.  Domain names are always rejected. *)
Lemma host_is_public_spec (url : bytes) :
  (∀ u ip, url_host u = Some (Host_Ipv6 ip) → Ipv6Addr_wf ip) →
  host_is_public url = true ↔
  ∃ u, url_parse url = Some u ∧ url_scheme u = lit "https" ∧
    match url_host u with
    | Some (Host_Ipv4 ip) => Forall (λ r, ¬ in_block r.1 r.2 ip) v4_reserved
    | Some (Host_Ipv6 ip) =>
        segments ip ≠ [0; 0; 0; 0; 0; 0; 0; 1]%N ∧ segments ip ≠ [0; 0; 0; 0; 0; 0; 0; 0]%N
        ∧ ¬ v6_reserved_head (segment 0 ip) (segment 1 ip)
    | _ => False
    end.
Proof.
  intros Hwf. unfold host_is_public.
  destruct (url_parse url) as [u|]; [| split; [done | by intros (u & [=] & _)]].
  transitivity (url_scheme u = lit "https" ∧ match url_host u with
    | Some (Host_Ipv4 ip) => ipv4_is_public ip = true
    | Some (Host_Ipv6 ip) => ipv6_is_public ip = true
    | _ => False
    end).
  { destruct (bool_decide_reflect (url_scheme u = lit "https")); simpl;
      destruct (url_host u) as [[]|]; split; try done; by intros [? ?]. }
  transitivity (url_scheme u = lit "https" ∧ match url_host u with
    | Some (Host_Ipv4 ip) => Forall (λ r, ¬ in_block r.1 r.2 ip) v4_reserved
    | Some (Host_Ipv6 ip) =>
        segments ip ≠ [0; 0; 0; 0; 0; 0; 0; 1]%N ∧ segments ip ≠ [0; 0; 0; 0; 0; 0; 0; 0]%N
        ∧ ¬ v6_reserved_head (segment 0 ip) (segment 1 ip)
    | _ => False
    end).
  { destruct (url_host u) as [[d|ip|ip]|] eqn:Hh; [done | | | done].
    - by rewrite v4_public_blocks.
    - by rewrite ipv6_is_public_spec by eauto. }
  split; [intros [H1 H2]; by exists u | by intros (u' & [= <-] & H)].
Qed.

(** The IPv6 check does not look inside IPv4-mapped addresses: an
    [https] URL whose host is the mapped form [::ffff:a.b.c.d] of any IPv4
    address, private and loopback ones included, is reported as public. *)
Lemma host_is_public_mapped (url : bytes) (u : Url) (ip : Ipv4Addr) :
  url_parse url = Some u → url_scheme u = lit "https" →
  url_host u = Some (Host_Ipv6 (mapped ip)) →
  host_is_public url = true.
Proof.
  intros Hp Hs Hh. unfold host_is_public. rewrite Hp, Hs, Hh.
  rewrite bool_decide_eq_true_2 by done. by destruct ip.
Qed.
End Claims.

(** A small URL library for the witnesses: the text is the URL, its scheme is
    [https], and the text [6] names the mapped loopback address. *)
Module ToyUrl.

Definition toy_url : UrlLib := {|
  Url := dsig (λ s : bytes, utf8_valid s = true);
  Url_eq_dec := _;
  url_parse s := match decide (utf8_valid s = true) with
                 | left H => Some (dexist _ H) | right _ => None end;
  url_as_str u := `u;
  url_scheme _ := lit "https";
  url_host u := if decide (`u = lit "6") then Some (Host_Ipv6 (mapped (Ipv4 x7f x00 x00 x01)))
                else Some (Host_Ipv4 (Ipv4 x08 x08 x08 x08))
|}.

Lemma toy_url_laws : UrlLaws (UL:=toy_url).
Proof.
  split; simpl.
  - intros u. destruct (decide (utf8_valid (`u) = true)) as [H|H].
    + f_equal. by apply dsig_eq.
    + destruct H. apply (proj2_dsig u).
  - intros u. apply (proj2_dsig u).
Qed.
End ToyUrl.

Lemma host_is_public_spec_witness :
  host_is_public (UL:=ToyUrl.toy_url) (lit "4") = true.
Proof.
  apply (host_is_public_spec (UL:=ToyUrl.toy_url) (lit "4")).
  - intros u ip. simpl. case_decide; [| done]. intros [= <-]. by split; repeat constructor.
  - eexists. split; [reflexivity |]. split; [reflexivity |].
    apply v4_public_blocks. reflexivity.
Defined.

