(* ===== verification/Errors.v ===== *)
(** * error.rs, and the error enums of state.rs and peer.rs

    Every error enum of the library with the source's variants, its text
    ([Display]) and the [From] conversions the [?] operator applies.  A boxed
    foreign error is its rendered text. *)

From S2P Require Import Prelude Bytes Crypto Kdf.

(** ** error.rs *)

Inductive SealError : Type :=
| SealError_TooShort
| SealError_AeadFailed
| SealError_MsgpackFailed
| SealError_SignatureMissing
| SealError_SignatureInvalid
| SealError_UntrustedSigner.

#[export] Instance SealError_eq_dec : EqDecision SealError.
Proof. solve_decision. Defined.

Definition SealError_display (e : SealError) : bytes :=
  match e with
  | SealError_TooShort => lit "sealed payload too short"
  | SealError_AeadFailed => lit "AEAD authentication failed"
  | SealError_MsgpackFailed => lit "malformed msgpack envelope"
  | SealError_SignatureMissing => lit "signature required but absent"
  | SealError_SignatureInvalid => lit "signature verification failed"
  | SealError_UntrustedSigner => lit "signer is not in the trusted set"
  end.

Definition SealError_from_crypto (e : CryptoError) : SealError :=
  match e with
  | CryptoError_TooShort => SealError_TooShort
  | CryptoError_AeadFailed => SealError_AeadFailed
  end.

Inductive TransportError : Type :=
| TransportError_Network (msg : bytes)
| TransportError_Auth
| TransportError_Stale
| TransportError_BodyTooLarge
| TransportError_Timeout
| TransportError_Unsupported
| TransportError_Other (text : bytes).

#[export] Instance TransportError_eq_dec : EqDecision TransportError.
Proof. solve_decision. Defined.

Definition TransportError_display (e : TransportError) : bytes :=
  match e with
  | TransportError_Network msg => lit "network error: " ++ msg
  | TransportError_Auth => lit "authentication failed"
  | TransportError_Stale => lit "slot put rejected: version is not newer"
  | TransportError_BodyTooLarge => lit "body exceeded configured size cap"
  | TransportError_Timeout => lit "request timed out"
  | TransportError_Unsupported => lit "operation is not supported by this transport"
  | TransportError_Other text => text
  end.

(** state.rs. *)
Inductive StateError : Type :=
| StateError_Backend (text : bytes)
| StateError_Corrupted (msg : bytes)
| StateError_Unsupported (msg : bytes).

#[export] Instance StateError_eq_dec : EqDecision StateError.
Proof. solve_decision. Defined.

Definition StateError_display (e : StateError) : bytes :=
  match e with
  | StateError_Backend e => lit "state backend error: " ++ e
  | StateError_Corrupted msg => lit "state corrupted: " ++ msg
  | StateError_Unsupported msg => lit "state operation unsupported: " ++ msg
  end.

Inductive OpenError : Type :=
| OpenError_NoTransport
| OpenError_InvalidSeed
| OpenError_TransportInit (kind : TransportKind) (text : bytes)
| OpenError_State (e : StateError).

Definition OpenError_display (e : OpenError) : bytes :=
  match e with
  | OpenError_NoTransport => lit "no transport configured"
  | OpenError_InvalidSeed => lit "seed failed validation"
  | OpenError_TransportInit kind e =>
      TransportKind_display kind ++ lit " transport failed to initialize: " ++ e
  | OpenError_State e => lit "state store error: " ++ StateError_display e
  end.

Abbreviation failures := (list (TransportKind * TransportError)).

Fixpoint format_failures (sep : bytes) (l : failures) : bytes :=
  match l with
  | [] => []
  | (kind, err) :: l' =>
      sep ++ TransportKind_display kind ++ lit ": " ++ TransportError_display err
      ++ format_failures (lit ", ") l'
  end.

Definition format_all_failed (l : failures) : bytes :=
  lit "all " ++ u64_to_string (len l) ++ lit " transport(s) failed" ++ format_failures (lit ": ") l.

Inductive SendError : Type :=
| SendError_AllTransportsFailed (l : failures)
| SendError_Sealing (e : SealError).

Definition SendError_display (e : SendError) : bytes :=
  match e with
  | SendError_AllTransportsFailed l => format_all_failed l
  | SendError_Sealing e => lit "sealing failed: " ++ SealError_display e
  end.

Inductive RecvError : Type := RecvError_Closed.

Definition RecvError_display (e : RecvError) : bytes :=
  match e with
  | RecvError_Closed => lit "namespace closed"
  end.

Inductive SlotError : Type :=
| SlotError_AllTransportsFailed (l : failures)
| SlotError_Sealing (e : SealError)
| SlotError_State (e : StateError).

Definition SlotError_display (e : SlotError) : bytes :=
  match e with
  | SlotError_AllTransportsFailed l => format_all_failed l
  | SlotError_Sealing e => lit "sealing failed: " ++ SealError_display e
  | SlotError_State e => lit "state store error: " ++ StateError_display e
  end.

(** ** peer.rs *)

Inductive PeerCardError : Type :=
| PeerCardError_MissingPrefix
| PeerCardError_InvalidEncoding
| PeerCardError_UnsupportedVersion
| PeerCardError_Truncated (field : bytes)
| PeerCardError_TrailingBytes
| PeerCardError_InvalidSigningKey
| PeerCardError_InconsistentPeerId
| PeerCardError_EmptyExchangeKey
| PeerCardError_InvalidIrohEndpoint
| PeerCardError_InvalidUtf8 (field : bytes)
| PeerCardError_InvalidRelayUrl
| PeerCardError_InvalidDirectAddr
| PeerCardError_CountTooLarge (field : bytes)
| PeerCardError_FieldTooLarge (field : bytes).

#[export] Instance PeerCardError_eq_dec : EqDecision PeerCardError.
Proof. solve_decision. Defined.

Definition PeerCardError_display (e : PeerCardError) : bytes :=
  match e with
  | PeerCardError_MissingPrefix => lit "peer card export prefix missing"
  | PeerCardError_InvalidEncoding => lit "peer card export encoding invalid"
  | PeerCardError_UnsupportedVersion => lit "peer card version unsupported"
  | PeerCardError_Truncated field => lit "peer card ended inside " ++ field
  | PeerCardError_TrailingBytes => lit "peer card has trailing bytes"
  | PeerCardError_InvalidSigningKey => lit "peer card signing key invalid"
  | PeerCardError_InconsistentPeerId => lit "peer card id does not match signing key"
  | PeerCardError_EmptyExchangeKey => lit "peer card exchange key is empty"
  | PeerCardError_InvalidIrohEndpoint => lit "peer card iroh endpoint invalid"
  | PeerCardError_InvalidUtf8 field => lit "peer card " ++ field ++ lit " is not utf-8"
  | PeerCardError_InvalidRelayUrl => lit "peer card relay url invalid"
  | PeerCardError_InvalidDirectAddr => lit "peer card direct address invalid"
  | PeerCardError_CountTooLarge field => lit "peer card " ++ field ++ lit " count too large"
  | PeerCardError_FieldTooLarge field => lit "peer card " ++ field ++ lit " too large"
  end.

Inductive PeerEnvelopeError : Type :=
| PeerEnvelopeError_Name (e : NameError)
| PeerEnvelopeError_NoRecipients
| PeerEnvelopeError_InvalidRecipient (e : PeerCardError)
| PeerEnvelopeError_MsgpackFailed
| PeerEnvelopeError_UnsupportedVersion
| PeerEnvelopeError_NotAddressed
| PeerEnvelopeError_AeadFailed
| PeerEnvelopeError_SignatureInvalid
| PeerEnvelopeError_UntrustedSender
| PeerEnvelopeError_WrongChannel.

Definition PeerEnvelopeError_display (e : PeerEnvelopeError) : bytes :=
  match e with
  | PeerEnvelopeError_Name err => lit "channel name invalid: " ++ NameError_display err
  | PeerEnvelopeError_NoRecipients => lit "peer envelope has no recipients"
  | PeerEnvelopeError_InvalidRecipient err =>
      lit "peer envelope recipient invalid: " ++ PeerCardError_display err
  | PeerEnvelopeError_MsgpackFailed => lit "peer envelope is malformed"
  | PeerEnvelopeError_UnsupportedVersion => lit "peer envelope version unsupported"
  | PeerEnvelopeError_NotAddressed => lit "peer envelope is not addressed to this peer"
  | PeerEnvelopeError_AeadFailed => lit "peer envelope authentication failed"
  | PeerEnvelopeError_SignatureInvalid => lit "peer envelope signature invalid"
  | PeerEnvelopeError_UntrustedSender => lit "peer envelope sender is not trusted"
  | PeerEnvelopeError_WrongChannel => lit "peer envelope channel mismatch"
  end.

Inductive GroupEnvelopeError : Type :=
| GroupEnvelopeError_Name (e : NameError)
| GroupEnvelopeError_NoGroupKeys
| GroupEnvelopeError_MsgpackFailed
| GroupEnvelopeError_UnsupportedVersion
| GroupEnvelopeError_MissingGroupKey
| GroupEnvelopeError_AeadFailed
| GroupEnvelopeError_SignatureInvalid
| GroupEnvelopeError_UntrustedSender
| GroupEnvelopeError_WrongChannel.

Definition GroupEnvelopeError_display (e : GroupEnvelopeError) : bytes :=
  match e with
  | GroupEnvelopeError_Name err => lit "channel name invalid: " ++ NameError_display err
  | GroupEnvelopeError_NoGroupKeys => lit "group envelope has no keys"
  | GroupEnvelopeError_MsgpackFailed => lit "group envelope is malformed"
  | GroupEnvelopeError_UnsupportedVersion => lit "group envelope version unsupported"
  | GroupEnvelopeError_MissingGroupKey => lit "group envelope key is missing"
  | GroupEnvelopeError_AeadFailed => lit "group envelope authentication failed"
  | GroupEnvelopeError_SignatureInvalid => lit "group envelope signature invalid"
  | GroupEnvelopeError_UntrustedSender => lit "group envelope sender is not trusted"
  | GroupEnvelopeError_WrongChannel => lit "group envelope channel mismatch"
  end.

Inductive PeerSendError : Type :=
| PeerSendError_PeerEnvelope (e : PeerEnvelopeError)
| PeerSendError_GroupEnvelope (e : GroupEnvelopeError)
| PeerSendError_AllTransportsFailed (l : failures).

Definition PeerSendError_display (e : PeerSendError) : bytes :=
  match e with
  | PeerSendError_PeerEnvelope err => lit "peer envelope failed: " ++ PeerEnvelopeError_display err
  | PeerSendError_GroupEnvelope err =>
      lit "group envelope failed: " ++ GroupEnvelopeError_display err
  | PeerSendError_AllTransportsFailed l => format_all_failed l
  end.

Inductive PeerSlotError : Type :=
| PeerSlotError_PeerEnvelope (e : PeerEnvelopeError)
| PeerSlotError_GroupEnvelope (e : GroupEnvelopeError)
| PeerSlotError_MsgpackFailed
| PeerSlotError_State (e : StateError)
| PeerSlotError_AllTransportsFailed (l : failures).

Definition PeerSlotError_display (e : PeerSlotError) : bytes :=
  match e with
  | PeerSlotError_PeerEnvelope err => lit "peer envelope failed: " ++ PeerEnvelopeError_display err
  | PeerSlotError_GroupEnvelope err =>
      lit "group envelope failed: " ++ GroupEnvelopeError_display err
  | PeerSlotError_MsgpackFailed => lit "peer slot payload is malformed"
  | PeerSlotError_State err => lit "state store error: " ++ StateError_display err
  | PeerSlotError_AllTransportsFailed l => format_all_failed l
  end.

Inductive TrustError : Type :=
| TrustError_InvalidPeerCard (e : PeerCardError)
| TrustError_State (e : StateError).

Definition TrustError_display (e : TrustError) : bytes :=
  match e with
  | TrustError_InvalidPeerCard err => lit "invalid peer card: " ++ PeerCardError_display err
  | TrustError_State err => lit "state store error: " ++ StateError_display err
  end.

Inductive GroupKeyError : Type :=
| GroupKeyError_State (e : StateError).

Definition GroupKeyError_display (e : GroupKeyError) : bytes :=
  match e with
  | GroupKeyError_State err => lit "state store error: " ++ StateError_display err
  end.

(** The versions among the items of a transport's watch stream. *)
Definition item_versions (items : list (result (N * bytes) TransportError)) : list N :=
  filter_map (λ r : result (N * bytes) TransportError, match r with Ok (v, _) => Some v | _ => None end) items.
