(* ===== verification/Dedup.v ===== *)
(** * dedup.rs: suppression of recently seen payloads

    [Dedup] keeps the SHA-256 digests of recently seen sealed payloads in an
    [lru::LruCache].  The cache is third-party: it is the class [LruCache],
    whose laws describe its documented behaviour through the list of its keys
    from the most to the least recently used.  The main theorem compares the
    buffer, driven by any history of observations, with a reference
    definition on the whole history. *)

From S2P Require Import Prelude Bytes Crypto.

(** ** The cache interface ([lru::LruCache<K, ()>]) *)

Class LruCache (K : Type) `{EqDecision K} := {
  lru : Type;
  lru_new : nat → lru;
  lru_put : K → lru → option unit * lru;
  lru_len : lru → nat;
  lru_is_empty : lru → bool;
  lru_cap : lru → nat;
  lru_clear : lru → lru;
  (** The keys, most recently used first. *)
  lru_keys : lru → list K;
  lru_keys_new : ∀ c, lru_keys (lru_new c) = [];
  lru_cap_new : ∀ c, lru_cap (lru_new c) = c;
  lru_put_old : ∀ k c, (lru_put k c).1 = (if decide (k ∈ lru_keys c) then Some tt else None);
  lru_put_keys : ∀ k c,
    lru_keys (lru_put k c).2 = take (lru_cap c) (k :: filter (λ x, x ≠ k) (lru_keys c));
  lru_put_cap : ∀ k c, lru_cap (lru_put k c).2 = lru_cap c;
  lru_len_keys : ∀ c, lru_len c = length (lru_keys c);
  lru_is_empty_keys : ∀ c, lru_is_empty c = bool_decide (lru_keys c = []);
  lru_clear_keys : ∀ c, lru_keys (lru_clear c) = [];
  lru_clear_cap : ∀ c, lru_cap (lru_clear c) = lru_cap c
}.

(** A list-backed cache. *)
Module ListLru.
Section Impl.
Context {K : Type} `{EqDecision K}.

Record cache : Type := Cache { cap : nat; keys : list K }.

Definition put (k : K) (c : cache) : option unit * cache :=
  (if decide (k ∈ keys c) then Some tt else None,
   Cache (cap c) (take (cap c) (k :: filter (λ x, x ≠ k) (keys c)))).

#[export] Instance list_lru : LruCache K.
Proof.
  refine {|
    lru := cache;
    lru_new c := Cache c [];
    lru_put := put;
    lru_len c := length (keys c);
    lru_is_empty c := bool_decide (keys c = []);
    lru_cap := cap;
    lru_clear c := Cache (cap c) [];
    lru_keys := keys
  |}; done.
Defined.
End Impl.
End ListLru.

(** ** The buffer *)

Definition DEFAULT_CAPACITY : nat := 1024.
Definition DIGEST_LEN : nat := 32.

Section Dedup.
Context `{PR : Primitives} {LC : LruCache bytes}.

Record Dedup : Type := MkDedup { cache : option lru }.

(** [NonZeroUsize::new(capacity).map(LruCache::new)]. *)
Definition Dedup_new (capacity : nat) : Dedup :=
  MkDedup (match capacity with O => None | S _ => Some (lru_new capacity) end).

Definition digest (sealed : bytes) : bytes := sha256 sealed.

Definition observe (d : Dedup) (sealed : bytes) : bool * Dedup :=
  match cache d with
  | None => (false, d)
  | Some c =>
      let '(old, c') := lru_put (digest sealed) c in
      (bool_decide (is_Some old), MkDedup (Some c'))
  end.

Definition Dedup_len (d : Dedup) : nat :=
  match cache d with None => 0 | Some c => lru_len c end.

Definition Dedup_is_empty (d : Dedup) : bool :=
  match cache d with None => true | Some c => lru_is_empty c end.

Definition Dedup_capacity (d : Dedup) : nat :=
  match cache d with None => 0 | Some c => lru_cap c end.

Definition Dedup_clear (d : Dedup) : Dedup :=
  match cache d with None => d | Some c => MkDedup (Some (lru_clear c)) end.

Definition Dedup_default : Dedup := Dedup_new DEFAULT_CAPACITY.

(** The buffer after a sequence of observations, oldest first. *)
Definition observe_all (d : Dedup) (history : list bytes) : Dedup :=
  foldl (λ d p, (observe d p).2) d history.

(** ** Reference definition *)

(** The distinct elements of [l], each at its first position. *)
Fixpoint uniq (l : list bytes) : list bytes :=
  match l with
  | [] => []
  | x :: l' => x :: filter (λ y, y ≠ x) (uniq l')
  end.

(** The window of a history: the digests of its [capacity] most recent
    distinct payloads, most recent first. *)
Definition window (capacity : nat) (history : list bytes) : list bytes :=
  take capacity (uniq (digest <$> reverse history)).

Definition keys_of (d : Dedup) : list bytes :=
  match cache d with None => [] | Some c => lru_keys c end.

(** ** Lemmas *)

Lemma elem_of_uniq x l : x ∈ uniq l ↔ x ∈ l.
Proof.
  induction l as [|y l IH]; simpl; [done |].
  rewrite !elem_of_cons, list_elem_of_filter, IH. destruct (decide (x = y)); naive_solver.
Qed.

Lemma NoDup_uniq l : NoDup (uniq l).
Proof.
  induction l as [|y l IH]; simpl; [constructor |].
  constructor; [rewrite list_elem_of_filter; naive_solver |]. by apply NoDup_filter.
Qed.

Lemma filter_ne_notin (k : bytes) (l : list bytes) : k ∉ l → filter (λ x, x ≠ k) l = l.
Proof.
  induction l as [|y l IH]; intros Hk; [done |].
  rewrite not_elem_of_cons in Hk. rewrite filter_cons_True by naive_solver.
  by rewrite IH by naive_solver.
Qed.

Lemma take_filter_take (k : bytes) n (u : list bytes) :
  NoDup u →
  take n (filter (λ x, x ≠ k) (take (S n) u)) = take n (filter (λ x, x ≠ k) u).
Proof.
  revert n. induction u as [|y u IH]; intros n Hu; [done |].
  inversion_clear Hu as [|? ? Hy Hnd]. cbn [take].
  destruct (decide (y = k)) as [->|Hne].
  - rewrite !filter_cons_False by naive_solver.
    rewrite (filter_ne_notin k u) by done.
    rewrite filter_ne_notin; [by rewrite take_take, Nat.min_id |].
    intros (i & Hi & _)%elem_of_take. apply Hy. by eapply list_elem_of_lookup_2.
  - rewrite !filter_cons_True by done. destruct n as [|n]; [done |].
    cbn [take]. f_equal. by apply IH.
Qed.

Lemma take_cons_filter_take (k : bytes) c (u : list bytes) :
  NoDup u →
  take c (k :: filter (λ x, x ≠ k) (take c u)) = take c (k :: filter (λ x, x ≠ k) u).
Proof.
  intros Hu. destruct c as [|c]; [done |]. cbn [take]. f_equal.
  by apply take_filter_take.
Qed.

Lemma uniq_app l r : uniq (l ++ r) = uniq l ++ filter (λ x, x ∉ l) (uniq r).
Proof.
  induction l as [|y l IH]; simpl.
  - rewrite (list_filter_iff _ (λ _, True)) by (split; [done | intros; apply not_elem_of_nil]).
    induction (uniq r) as [|x u IH]; [done |]. rewrite filter_cons_True by done. by f_equal.
  - f_equal. rewrite IH, filter_app. f_equal. rewrite list_filter_filter.
    apply list_filter_iff. intros x. rewrite not_elem_of_cons. naive_solver.
Qed.

Lemma length_uniq_reverse l : length (uniq (reverse l)) = length (uniq l).
Proof.
  apply Permutation_length, NoDup_Permutation; try apply NoDup_uniq.
  intros x. by rewrite !elem_of_uniq, elem_of_reverse.
Qed.

Lemma take_uniq_recent c l x r :
  length (uniq l) < c → x ∈ take c (uniq (l ++ [x] ++ r)).
Proof.
  intros Hl. rewrite uniq_app. destruct (decide (x ∈ l)) as [Hx|Hx].
  - rewrite take_app_ge by lia. apply elem_of_app. left. by apply elem_of_uniq.
  - simpl. rewrite filter_cons_True by done. rewrite take_app_ge by lia.
    apply elem_of_app. right. destruct (c - length (uniq l)) eqn:E; [lia |].
    simpl. apply list_elem_of_here.
Qed.

Lemma observe_result d p :
  (observe d p).1 = bool_decide (digest p ∈ keys_of d).
Proof.
  unfold observe, keys_of. destruct (cache d) as [c|].
  - destruct (lru_put (digest p) c) as [old c'] eqn:E. simpl.
    pose proof (lru_put_old (digest p) c) as Ho. rewrite E in Ho. simpl in Ho. subst.
    case_decide as Hk; apply bool_decide_ext; [naive_solver |].
    split; [intros [? [=]] | done].
  - symmetry. apply bool_decide_eq_false. apply not_elem_of_nil.
Qed.

Lemma observe_capacity d p : Dedup_capacity (observe d p).2 = Dedup_capacity d.
Proof.
  unfold observe, Dedup_capacity. destruct (cache d) as [c|] eqn:E.
  - pose proof (lru_put_cap (digest p) c). by destruct (lru_put (digest p) c).
  - simpl. by rewrite E.
Qed.

Lemma observe_keys d p :
  keys_of (observe d p).2 =
  take (Dedup_capacity d) (digest p :: filter (λ x, x ≠ digest p) (keys_of d)).
Proof.
  unfold observe, keys_of, Dedup_capacity. destruct (cache d) as [c|] eqn:E.
  - pose proof (lru_put_keys (digest p) c). by destruct (lru_put (digest p) c).
  - simpl. by rewrite E.
Qed.

Lemma Dedup_new_keys c : keys_of (Dedup_new c) = [].
Proof. destruct c; [done |]. apply lru_keys_new. Qed.

Lemma Dedup_new_capacity c : Dedup_capacity (Dedup_new c) = c.
Proof. destruct c; [done |]. apply lru_cap_new. Qed.

Lemma observe_all_snoc d h p : observe_all d (h ++ [p]) = (observe (observe_all d h) p).2.
Proof. unfold observe_all. by rewrite foldl_app. Qed.

Lemma observe_all_capacity c h : Dedup_capacity (observe_all (Dedup_new c) h) = c.
Proof.
  induction h as [|p h IH] using rev_ind; [apply Dedup_new_capacity |].
  by rewrite observe_all_snoc, observe_capacity.
Qed.

Lemma observe_all_keys c h : keys_of (observe_all (Dedup_new c) h) = window c h.
Proof.
  unfold window. induction h as [|p h IH] using rev_ind.
  - unfold observe_all. simpl. rewrite Dedup_new_keys. by destruct c.
  - rewrite observe_all_snoc, observe_keys, IH, observe_all_capacity, reverse_snoc.
    rewrite fmap_cons. cbn [uniq]. apply take_cons_filter_take, NoDup_uniq.
Qed.

Lemma window_bound c h : length (window c h) ≤ c.
Proof. unfold window. rewrite length_take. lia. Qed.

(** ** Claims *)

(** C23: after any history of observations, the buffer reports a payload as a
    duplicate exactly when its digest is among the digests of the
    [capacity] most recent distinct payloads of that history; the buffer
    never retains more than [capacity] digests, and capacity zero disables
    it. *)
Theorem dedup_refines_window (capacity : nat) (history : list bytes) (p : bytes) :
  let d := observe_all (Dedup_new capacity) history in
  (observe d p).1 = bool_decide (digest p ∈ window capacity history)
  ∧ Dedup_len d = length (window capacity history)
  ∧ Dedup_len d ≤ capacity
  ∧ (capacity = 0 → (observe d p).1 = false).
Proof.
  intros d.
  assert (Dedup_len d = length (window capacity history)) as Hlen.
  { rewrite <- observe_all_keys. fold d. unfold Dedup_len, keys_of.
    destruct (cache d); [apply lru_len_keys | done]. }
  assert (keys_of d = window capacity history) as Hk by apply observe_all_keys.
  rewrite observe_result, Hk.
  split_and!; [done | done | rewrite Hlen; apply window_bound |].
  intros ->. apply bool_decide_eq_false. unfold window. apply not_elem_of_nil.
Qed.

(** Within the window nothing is surfaced twice: if [p] was observed and
    fewer than [capacity] distinct payload digests were observed since, the
    next observation of [p] is a duplicate; and a payload whose digest never
    occurred before is never reported as a duplicate. *)
Lemma dedup_suppresses_recent (capacity : nat) (before after : list bytes) (p : bytes) :
  length (uniq (digest <$> after)) < capacity →
  (observe (observe_all (Dedup_new capacity) (before ++ p :: after)) p).1 = true
  ∧ (digest p ∉ digest <$> after →
     (observe (observe_all (Dedup_new capacity) after) p).1 = false).
Proof.
  intros Hlt. rewrite !observe_result, !observe_all_keys. unfold window. split.
  - apply bool_decide_eq_true. rewrite reverse_app, reverse_cons, !fmap_app.
    rewrite <- app_assoc. apply take_uniq_recent.
    by rewrite fmap_reverse, length_uniq_reverse.
  - intros Hnin. apply bool_decide_eq_false. intros (i & Hi & _)%elem_of_take.
    apply list_elem_of_lookup_2 in Hi. rewrite elem_of_uniq in Hi.
    apply list_elem_of_fmap in Hi as (y & Hy' & Hy). rewrite elem_of_reverse in Hy.
    apply Hnin. rewrite Hy'. by apply list_elem_of_fmap_2.
Qed.
End Dedup.

Module DedupWitness.
Import Toy ListLru.

Lemma dedup_refines_window_witness :
  (observe (observe_all (Dedup_new 2) [lit "a"; lit "b"; lit "c"]) (lit "a")).1 = false.
Proof.
  rewrite (proj1 (dedup_refines_window 2 [lit "a"; lit "b"; lit "c"] (lit "a"))). vm_refl.
Defined.

End DedupWitness.
