(* ===== verification/Config.v ===== *)
(** * config.rs: configuration records and their defaults

    Durations are whole nanoseconds.  A configured transport carries a
    transport object; the records are parametrised by its type. *)

From S2P Require Import Prelude Bytes Crypto Kdf Net Dedup.

Definition NANOS_PER_SEC : N := 1000000000.
Definition from_secs (s : N) : N := (s * NANOS_PER_SEC)%N.
Definition from_mins (m : N) : N := from_secs (m * 60).

(** [Duration::MAX], at which [saturating_mul] saturates. *)
Definition duration_max : N := (u64_max * NANOS_PER_SEC + 999999999)%N.
Definition duration_saturating_mul (d n : N) : N := N.min (d * n) duration_max.

Definition DEFAULT_MAX_PLAINTEXT_BYTES : N := 65536.
Definition DEFAULT_LONG_POLL_SECS : N := 25.
Definition DEFAULT_REPUBLISH_INTERVAL : N := from_mins 30.
Definition DEFAULT_PKARR_RELAYS : list bytes :=
  [lit "https://relay.pkarr.org"; lit "https://pkarr.pubky.org"; lit "https://pkarr.pubky.app"].
Definition DEFAULT_PKARR_REQUEST_TIMEOUT : N := 0.
Definition DEFAULT_IROH_MAX_MESSAGE_BYTES : N := (DEFAULT_MAX_PLAINTEXT_BYTES + 4096)%N.
Definition DEFAULT_IROH_MAX_STREAMS_PER_PEER : N := 32.
Definition DEFAULT_IROH_MAX_CONNS_PER_PEER : N := 4.

Record ConfiguredTransport (T : Type) : Type :=
  MkConfiguredTransport { ct_kind : TransportKind; ct_transport : T }.
Arguments MkConfiguredTransport {T} _ _.
Arguments ct_kind {T} _.
Arguments ct_transport {T} _.

Record BasicAuth : Type := MkBasicAuth { username : bytes; password : bytes }.

Inductive PkarrNetworkMode : Type := PkarrNetworkMode_Relays | PkarrNetworkMode_Dht | PkarrNetworkMode_Both.

Record PkarrConfig : Type := MkPkarrConfig {
  pk_network : PkarrNetworkMode;
  resolvers : list bytes;
  bootstrap : list SocketAddr;
  request_timeout : N;
  republish_interval : N
}.

Definition PkarrConfig_default : PkarrConfig :=
  MkPkarrConfig PkarrNetworkMode_Relays DEFAULT_PKARR_RELAYS [] DEFAULT_PKARR_REQUEST_TIMEOUT
    DEFAULT_REPUBLISH_INTERVAL.

Definition effective_resolvers (c : PkarrConfig) : list bytes :=
  match resolvers c with
  | [] => DEFAULT_PKARR_RELAYS
  | rs => rs
  end.

Definition effective_bootstrap (c : PkarrConfig) : list SocketAddr := bootstrap c.

Section Config.
Context `{PR : Primitives} `{UL : UrlLib}.

Record HttpConfig : Type := MkHttpConfig {
  url : Url;
  skip_verify : bool;
  auth : option BasicAuth;
  long_poll_secs : N
}.

Definition HttpConfig_new (u : Url) : HttpConfig := MkHttpConfig u false None DEFAULT_LONG_POLL_SECS.

Record IrohEndpointAddr : Type := MkIrohEndpointAddr {
  endpoint_id : bytes;
  relay_urls : list Url;
  direct_addrs : list SocketAddr
}.

#[export] Instance IrohEndpointAddr_eq_dec : EqDecision IrohEndpointAddr.
Proof. solve_decision. Defined.

Inductive IrohRelayMode : Type :=
| IrohRelayMode_Default
| IrohRelayMode_Custom (urls : list Url)
| IrohRelayMode_Disabled.

Record IrohConfig : Type := MkIrohConfig {
  relay_mode : IrohRelayMode;
  bind_addrs : list SocketAddr;
  peers : list IrohEndpointAddr;
  max_message_bytes : N;
  max_streams_per_peer : N;
  max_conns_per_peer : N
}.

Definition IrohConfig_default : IrohConfig :=
  MkIrohConfig IrohRelayMode_Default [] [] DEFAULT_IROH_MAX_MESSAGE_BYTES
    DEFAULT_IROH_MAX_STREAMS_PER_PEER DEFAULT_IROH_MAX_CONNS_PER_PEER.

(** [S] is the state handle, [T] the transport objects. *)
Record Config (S T : Type) : Type := MkConfig {
  cfg_http : option HttpConfig;
  cfg_pkarr : option PkarrConfig;
  cfg_iroh : option IrohConfig;
  cfg_signing : option SigningKey;
  cfg_trusted : list VerifyingKey;
  cfg_dedup_buffer : nat;
  cfg_max_plaintext_bytes : N;
  cfg_state : S;
  cfg_transports : list (ConfiguredTransport T)
}.

(** [memory] is the [State::memory()] of the default. *)
Definition Config_default {S T : Type} (memory : S) : Config S T :=
  MkConfig S T None None None None [] DEFAULT_CAPACITY DEFAULT_MAX_PLAINTEXT_BYTES memory [].

Definition some_count {A} (o : option A) : nat := match o with Some _ => 1 | None => 0 end.

Definition transport_count {S T : Type} (c : Config S T) : nat :=
  length (cfg_transports _ _ c) + some_count (cfg_http _ _ c) + some_count (cfg_pkarr _ _ c)
  + some_count (cfg_iroh _ _ c).
End Config.

Arguments cfg_http {PR UL S T} _.
Arguments cfg_pkarr {PR UL S T} _.
Arguments cfg_iroh {PR UL S T} _.
Arguments cfg_signing {PR UL S T} _.
Arguments cfg_trusted {PR UL S T} _.
Arguments cfg_dedup_buffer {PR UL S T} _.
Arguments cfg_max_plaintext_bytes {PR UL S T} _.
Arguments cfg_state {PR UL S T} _.
Arguments cfg_transports {PR UL S T} _.
