(* ===== verification/TestKit.v ===== *)
(** * enlace-testkit: transports for tests

    The in-memory transport and the two wrappers that lose and delay
    operations, in any stack.  An operation is a program [io]: the sections
    it runs under the lock of the shared tables, the updates it broadcasts,
    its sleeps, its random draws and its waits.  Every call is a task that is
    suspended between these, so that calls on clones of one transport overlap
    in every way; a delayed operation sleeps first and runs what it wraps
    after that. *)

From S2P Require Import Prelude Bytes Crypto Kdf Net Guard Errors Dedup Config.

Definition DEFAULT_DROP_PERCENT : N := 30.
Definition TESTKIT_WATCH_BUFFER : nat := 64.
Definition from_millis (ms : N) : N := (ms * 1000000)%N.

Record SlotUpdate : Type := MkSlotUpdate { su_id : bytes; su_version : N; su_sealed : bytes }.

(** ** Programs *)

(** [Push], [Pop], [Put] and [Get] are the sections under the lock; [Put]
    answers whether the put is stale.  [Timeout] waits for a notification or
    for the time to run out, which it answers with [true]. *)
Inductive io (A : Type) : Type :=
| Ret (a : A)
| Push (id sealed : bytes) (k : io A)
| Pop (id : bytes) (k : option bytes → io A)
| Put (id : bytes) (version : N) (sealed : bytes) (k : bool → io A)
| Get (id : bytes) (k : option (N * bytes) → io A)
| Broadcast (u : SlotUpdate) (k : io A)
| Sleep (millis : N) (k : io A)
| RandomU8 (k : byte → io A)
| RandomU64 (k : N → io A)
| Timeout (k : bool → io A).
Arguments Ret {A} _.
Arguments Push {A} _ _ _.
Arguments Pop {A} _ _.
Arguments Put {A} _ _ _ _.
Arguments Get {A} _ _.
Arguments Broadcast {A} _ _.
Arguments Sleep {A} _ _.
Arguments RandomU8 {A} _.
Arguments RandomU64 {A} _.
Arguments Timeout {A} _.

(** [p.await] followed by [f]. *)
Fixpoint io_bind {A B} (p : io A) (f : A → io B) : io B :=
  match p with
  | Ret a => f a
  | Push id sealed k => Push id sealed (io_bind k f)
  | Pop id k => Pop id (λ o, io_bind (k o) f)
  | Put id version sealed k => Put id version sealed (λ stale, io_bind (k stale) f)
  | Get id k => Get id (λ o, io_bind (k o) f)
  | Broadcast u k => Broadcast u (io_bind k f)
  | Sleep ms k => Sleep ms (io_bind k f)
  | RandomU8 k => RandomU8 (λ b, io_bind (k b) f)
  | RandomU64 k => RandomU64 (λ n, io_bind (k n) f)
  | Timeout k => Timeout (λ t, io_bind (k t) f)
  end.

(** ** The in-memory transport *)

Record TransportState : Type := MkTransportState {
  tk_mailboxes : gmap bytes (list bytes);
  tk_slots : gmap bytes (N * bytes)
}.

(** The tables and the updates broadcast so far. *)
Record InMemoryTransport : Type := MkInMemoryTransport {
  tk_state : TransportState;
  tk_updates : list SlotUpdate
}.

Definition InMemoryTransport_new : InMemoryTransport := MkInMemoryTransport (MkTransportState ∅ ∅) [].

Definition push_back (id sealed : bytes) (st : TransportState) : TransportState :=
  MkTransportState (<[id := default [] (tk_mailboxes st !! id) ++ [sealed]]> (tk_mailboxes st)) (tk_slots st).

Definition pop_front (id : bytes) (st : TransportState) : option bytes * TransportState :=
  match tk_mailboxes st !! id with
  | Some (sealed :: queue) => (Some sealed, MkTransportState (<[id := queue]> (tk_mailboxes st)) (tk_slots st))
  | _ => (None, st)
  end.

Definition insert_newer (id : bytes) (version : N) (sealed : bytes) (st : TransportState) : bool * TransportState :=
  if match tk_slots st !! id with Some (current, _) => (version <=? current)%N | None => false end
  then (true, st)
  else (false, MkTransportState (tk_mailboxes st) (<[id := (version, sealed)]> (tk_slots st))).

Definition mem_send (id sealed : bytes) : io (result unit TransportError) := Push id sealed (Ret (Ok tt)).

(** [recv]: no result after [fuel] looks is a call that still waits. *)
Fixpoint mem_recv (fuel : nat) (id : bytes) (wait_is_zero : bool) : io (option (result (option bytes) TransportError)) :=
  match fuel with
  | O => Ret None
  | S fuel =>
      Pop id (λ o,
        match o with
        | Some sealed => Ret (Some (Ok (Some sealed)))
        | None =>
            if wait_is_zero then Ret (Some (Ok None))
            else Timeout (λ elapsed, if (elapsed : bool) then Ret (Some (Ok None)) else mem_recv fuel id wait_is_zero)
        end)
  end.

(** The update is broadcast after the lock is released. *)
Definition mem_put (id : bytes) (version : N) (sealed : bytes) : io (result unit TransportError) :=
  Put id version sealed (λ stale,
    if (stale : bool) then Ret (Err TransportError_Stale)
    else Broadcast (MkSlotUpdate id version sealed) (Ret (Ok tt))).

Definition mem_get (id : bytes) : io (result (option (N * bytes)) TransportError) := Get id (λ o, Ret (Ok o)).

(** *** Watching: tokio's broadcast channel keeps the last 64 updates *)

(** [mw_pos] counts the updates already received or skipped, [mw_held] is an
    update the task is sending; then the channel to the consumer and what the
    consumer has taken. *)
Record mem_watch : Type := MkMemWatch {
  mw_id : bytes;
  mw_since : N;
  mw_pos : nat;
  mw_held : option (N * bytes);
  mw_queue : list (N * bytes);
  mw_taken : list (N * bytes)
}.

Definition watch_open (id : bytes) (since : N) (w : InMemoryTransport) : mem_watch :=
  MkMemWatch id since (length (tk_updates w)) None [] [].

Definition update_matches (id : bytes) (since : N) (u : SlotUpdate) : option (N * bytes) :=
  if bool_decide (su_id u = id) && (since <? su_version u)%N then Some (su_version u, su_sealed u) else None.

(** One move of the task, [updates.recv()] or [tx.send(..)]; [None] waits for
    an update or for room in the channel. *)
Definition mem_watch_step (w : InMemoryTransport) (m : mem_watch) : option mem_watch :=
  match mw_held m with
  | Some v =>
      if length (mw_queue m) <? TESTKIT_WATCH_BUFFER
      then Some (MkMemWatch (mw_id m) (mw_since m) (mw_pos m) None (mw_queue m ++ [v]) (mw_taken m))
      else None
  | None =>
      let lag := length (tk_updates w) - TESTKIT_WATCH_BUFFER in
      if mw_pos m <? lag then Some (MkMemWatch (mw_id m) (mw_since m) lag None (mw_queue m) (mw_taken m))
      else
        match tk_updates w !! mw_pos m with
        | None => None
        | Some u =>
            Some (MkMemWatch (mw_id m) (mw_since m) (S (mw_pos m)) (update_matches (mw_id m) (mw_since m) u)
                    (mw_queue m) (mw_taken m))
        end
  end.

Definition mem_watch_take (m : mem_watch) : option mem_watch :=
  match mw_queue m with
  | v :: q => Some (MkMemWatch (mw_id m) (mw_since m) (mw_pos m) (mw_held m) q (mw_taken m ++ [v]))
  | [] => None
  end.

(** ** Losing operations *)

(** A byte is drawn only when the percentage is not zero. *)
Definition drops (percent : N) (b : byte) : bool := (Byte.to_N b mod 100 <? percent)%N.

Definition should_drop (percent : N) : io bool :=
  if (0 <? percent)%N then RandomU8 (λ b, Ret (drops percent b)) else Ret false.

Definition with_drop_percent (percent : N) : N := N.min percent 100.

(** [send] and [put], which answer [Ok] to a lost operation; the others are
    those of the inner transport. *)
Definition lossy (percent : N) (inner : io (result unit TransportError)) : io (result unit TransportError) :=
  io_bind (should_drop percent) (λ drop, if (drop : bool) then Ret (Ok tt) else inner).

(** ** Delaying operations *)

(** [as_millis], a [u64] or [u64::MAX]; the delay of one operation. *)
Definition max_millis (d : N) : N := N.min (d / 1000000) u64_max.
Definition delay_of (max_delay random : N) : N := (random mod N.min (max_millis max_delay + 1) u64_max)%N.

Definition delay (max_delay : N) : io unit :=
  if (max_delay =? 0)%N then Ret tt else RandomU64 (λ random, Sleep (delay_of max_delay random) (Ret tt)).

Definition delayed {A} (max_delay : N) (inner : io A) : io A := io_bind (delay max_delay) (λ _, inner).

(** ** Stacks of transports *)

(** [LossyTransport<T>] and [DelayingTransport<T>] around one in-memory
    transport, of which every clone is the same. *)
Inductive stack : Type :=
| InMemory
| Lossy (drop_percent : N) (inner : stack)
| Delaying (max_delay : N) (inner : stack).

Definition lossy_new (inner : stack) : stack := Lossy DEFAULT_DROP_PERCENT inner.
Definition delaying_new (inner : stack) : stack := Delaying (from_millis 25) inner.

Fixpoint stack_send (st : stack) (id sealed : bytes) : io (result unit TransportError) :=
  match st with
  | InMemory => mem_send id sealed
  | Lossy percent st => lossy percent (stack_send st id sealed)
  | Delaying d st => delayed d (stack_send st id sealed)
  end.

Fixpoint stack_recv (st : stack) (fuel : nat) (id : bytes) (wait_is_zero : bool)
    : io (option (result (option bytes) TransportError)) :=
  match st with
  | InMemory => mem_recv fuel id wait_is_zero
  | Lossy _ st => stack_recv st fuel id wait_is_zero
  | Delaying d st => delayed d (stack_recv st fuel id wait_is_zero)
  end.

Fixpoint stack_put (st : stack) (id : bytes) (version : N) (sealed : bytes) : io (result unit TransportError) :=
  match st with
  | InMemory => mem_put id version sealed
  | Lossy percent st => lossy percent (stack_put st id version sealed)
  | Delaying d st => delayed d (stack_put st id version sealed)
  end.

Fixpoint stack_get (st : stack) (id : bytes) : io (result (option (N * bytes)) TransportError) :=
  match st with
  | InMemory => mem_get id
  | Lossy _ st => stack_get st id
  | Delaying d st => delayed d (stack_get st id)
  end.

(** ** Overlapping calls *)

Inductive tk_op : Type :=
| TkSend (id sealed : bytes)
| TkRecv (fuel : nat) (id : bytes) (wait_is_zero : bool)
| TkPut (id : bytes) (version : N) (sealed : bytes)
| TkGet (id : bytes).

Inductive tk_out : Type :=
| OutUnit (r : result unit TransportError)
| OutRecv (r : option (result (option bytes) TransportError))
| OutGet (r : result (option (N * bytes)) TransportError).

Definition call_of (st : stack) (op : tk_op) : io tk_out :=
  match op with
  | TkSend id sealed => io_bind (stack_send st id sealed) (λ r, Ret (OutUnit r))
  | TkRecv fuel id zero => io_bind (stack_recv st fuel id zero) (λ r, Ret (OutRecv r))
  | TkPut id version sealed => io_bind (stack_put st id version sealed) (λ r, Ret (OutUnit r))
  | TkGet id => io_bind (stack_get st id) (λ r, Ret (OutGet r))
  end.

(** What a call did under the lock. *)
Inductive locked : Type :=
| DidPush (id sealed : bytes)
| DidPop (id : bytes) (o : option bytes)
| DidPut (id : bytes) (version : N) (sealed : bytes) (stale : bool)
| DidGet (id : bytes) (o : option (N * bytes)).

(** What the environment answers to a call that moves. *)
Record chance : Type := MkChance { ch_u8 : byte; ch_u64 : N; ch_elapsed : bool }.

(** One move of a call, with what it did under the lock. *)
Definition io_step {A} (c : chance) (p : io A) (w : InMemoryTransport) : io A * InMemoryTransport * list locked :=
  let set st := MkInMemoryTransport st (tk_updates w) in
  match p with
  | Ret a => (Ret a, w, [])
  | Push id sealed k => (k, set (push_back id sealed (tk_state w)), [DidPush id sealed])
  | Pop id k => let '(o, st) := pop_front id (tk_state w) in (k o, set st, [DidPop id o])
  | Put id version sealed k =>
      let '(stale, st) := insert_newer id version sealed (tk_state w) in (k stale, set st, [DidPut id version sealed stale])
  | Get id k => let o := tk_slots (tk_state w) !! id in (k o, w, [DidGet id o])
  | Broadcast u k => (k, MkInMemoryTransport (tk_state w) (tk_updates w ++ [u]), [])
  | Sleep _ k => (k, w, [])
  | RandomU8 k => (k (ch_u8 c), w, [])
  | RandomU64 k => (k (ch_u64 c), w, [])
  | Timeout k => (k (ch_elapsed c), w, [])
  end.

(** The transport, every call made on it and the sections run under the lock,
    in order, each with its call. *)
Record tk_run : Type := MkTkRun {
  rn_world : InMemoryTransport;
  rn_calls : list (tk_op * io tk_out);
  rn_log : list (nat * locked)
}.

Definition tk_start : tk_run := MkTkRun InMemoryTransport_new [] [].

Inductive tk_move : Type :=
| TkCall (op : tk_op)
| TkRun (call : nat) (c : chance).

Definition tk_step (st : stack) (r : tk_run) (m : tk_move) : tk_run :=
  match m with
  | TkCall op => MkTkRun (rn_world r) (rn_calls r ++ [(op, call_of st op)]) (rn_log r)
  | TkRun k c =>
      match rn_calls r !! k with
      | Some (op, p) =>
          let '(p, w, did) := io_step c p (rn_world r) in
          MkTkRun w (<[k := (op, p)]> (rn_calls r)) (rn_log r ++ map (pair k) did)
      | None => r
      end
  end.

(** ** Lemmas: what the log says *)

(** The payloads pushed to and popped from a channel, and the last value put
    into a slot, by a list of sections. *)
Definition pushed (id : bytes) (log : list (nat * locked)) : list bytes :=
  filter_map (λ x, match x.2 with DidPush i s => if decide (i = id) then Some s else None | _ => None end) log.

Definition popped (id : bytes) (log : list (nat * locked)) : list bytes :=
  filter_map (λ x, match x.2 with DidPop i (Some s) => if decide (i = id) then Some s else None | _ => None end) log.

Definition stored (id : bytes) (log : list (nat * locked)) : list (N * bytes) :=
  filter_map (λ x, match x.2 with
                   | DidPut i v s false => if decide (i = id) then Some (v, s) else None
                   | _ => None
                   end) log.

(** What a section must answer after the sections [log] on a FIFO queue and a
    register that takes newer versions only. *)
Definition answers (log : list (nat * locked)) (x : locked) : Prop :=
  match x with
  | DidPush _ _ => True
  | DidPop id o => o = pushed id log !! length (popped id log)
  | DidPut id v _ stale => stale = match last (stored id log) with Some (w, _) => (v <=? w)%N | None => false end
  | DidGet id o => o = last (stored id log)
  end.

Definition sequential (log : list (nat * locked)) : Prop :=
  ∀ l1 k x l2, log = l1 ++ (k, x) :: l2 → answers l1 x.

Record tables_ok (st : TransportState) (log : list (nat * locked)) : Prop := {
  to_queue : ∀ id, popped id log ++ default [] (tk_mailboxes st !! id) = pushed id log;
  to_slot : ∀ id, tk_slots st !! id = last (stored id log)
}.

Lemma sequential_snoc log k x : sequential log → answers log x → sequential (log ++ [(k, x)]).
Proof.
  intros Hs Hx l1 k' y l2 H. destruct l2 as [|z l3 _] using rev_ind.
  - by apply app_inj_tail in H as [<- [= _ <-]].
  - rewrite app_comm_cons, app_assoc in H. apply app_inj_tail in H as [H _]. by apply (Hs l1 k' y l3).
Qed.

Lemma tables_ok_push st log k id sealed :
  tables_ok st log → tables_ok (push_back id sealed st) (log ++ [(k, DidPush id sealed)]).
Proof.
  intros [Hq Hs]. split; intros i; unfold pushed, popped, stored; rewrite !filter_map_app; cbn;
    fold (pushed i log) (popped i log) (stored i log); rewrite ?app_nil_r; [| done].
  destruct (decide (id = i)) as [->|Hne].
  - rewrite lookup_insert_eq. cbn. by rewrite app_assoc, Hq.
  - rewrite lookup_insert_ne by done. by rewrite app_nil_r, Hq.
Qed.

Lemma tables_ok_pop st log k id :
  tables_ok st log →
  let '(o, st') := pop_front id st in answers log (DidPop id o) ∧ tables_ok st' (log ++ [(k, DidPop id o)]).
Proof.
  intros [Hq Hs]. unfold pop_front, answers. pose proof (Hq id) as Hid.
  destruct (tk_mailboxes st !! id) as [[|x q]|] eqn:E; cbn in Hid;
    rewrite <- Hid, ?app_nil_r, ?list_lookup_middle by done; (split; [by rewrite ?lookup_ge_None_2 |]);
    (split; intros i; unfold pushed, popped, stored; rewrite !filter_map_app; cbn;
      fold (pushed i log) (popped i log) (stored i log); rewrite ?app_nil_r; try done).
  destruct (decide (id = i)) as [->|Hne].
  - rewrite lookup_insert_eq. cbn. by rewrite <- app_assoc, <- Hid.
  - rewrite lookup_insert_ne by done. by rewrite app_nil_r, Hq.
Qed.

Lemma tables_ok_put st log k id v sealed :
  tables_ok st log →
  let '(stale, st') := insert_newer id v sealed st in
  answers log (DidPut id v sealed stale) ∧ tables_ok st' (log ++ [(k, DidPut id v sealed stale)]).
Proof.
  intros [Hq Hs]. unfold insert_newer, answers. rewrite <- Hs.
  destruct (match tk_slots st !! id with Some _ => _ | None => _ end) eqn:E; (split; [done |]);
    (split; intros i; unfold pushed, popped, stored; rewrite !filter_map_app; cbn;
      fold (pushed i log) (popped i log) (stored i log); rewrite ?app_nil_r; try done).
  destruct (decide (id = i)) as [->|Hne].
  - by rewrite lookup_insert_eq, last_snoc.
  - by rewrite lookup_insert_ne, app_nil_r.
Qed.

(** One move keeps the log sequential. *)
Lemma io_step_sequential {A} k c (p : io A) w log :
  sequential log → tables_ok (tk_state w) log →
  let '(_, w', did) := io_step c p w in
  sequential (log ++ map (pair k) did) ∧ tables_ok (tk_state w') (log ++ map (pair k) did).
Proof.
  intros Hs Ht. destruct p; cbn [io_step map]; rewrite ?app_nil_r; try done.
  - split; [by apply sequential_snoc | by apply tables_ok_push].
  - pose proof (tables_ok_pop _ _ k id Ht) as H. destruct (pop_front id (tk_state w)) as [o st].
    destruct H as [Ha Ht']. split; [by apply sequential_snoc | done].
  - pose proof (tables_ok_put _ _ k id version sealed Ht) as H.
    destruct (insert_newer id version sealed (tk_state w)) as [stale st].
    destruct H as [Ha Ht']. split; [by apply sequential_snoc | done].
  - split; [apply sequential_snoc; [done | by apply (to_slot _ _ Ht)] |]. destruct Ht as [Hq Hsl].
    split; intros i; unfold pushed, popped, stored; rewrite !filter_map_app; cbn;
      fold (pushed i log) (popped i log) (stored i log); by rewrite ?app_nil_r.
Qed.

(** ** Lemmas: what a call does *)

(** From the program [p] of a call that has run the sections [did], every
    state keeps [I] and every return satisfies [Q]. *)
Fixpoint wp {A} (I : list locked → Prop) (Q : list locked → A → Prop) (did : list locked) (p : io A) : Prop :=
  I did ∧
  match p with
  | Ret a => Q did a
  | Push id sealed k => wp I Q (did ++ [DidPush id sealed]) k
  | Pop id k => ∀ o, wp I Q (did ++ [DidPop id o]) (k o)
  | Put id version sealed k => ∀ stale, wp I Q (did ++ [DidPut id version sealed stale]) (k stale)
  | Get id k => ∀ o, wp I Q (did ++ [DidGet id o]) (k o)
  | Broadcast _ k | Sleep _ k => wp I Q did k
  | RandomU8 k => ∀ b, wp I Q did (k b)
  | RandomU64 k => ∀ n, wp I Q did (k n)
  | Timeout k => ∀ t, wp I Q did (k t)
  end.

Lemma wp_inv {A} I (Q : list locked → A → Prop) did p : wp I Q did p → I did.
Proof. destruct p; by intros [? _]. Qed.

Lemma wp_bind {A B} I (Q : list locked → B → Prop) did (p : io A) (f : A → io B) :
  wp I (λ did a, wp I Q did (f a)) did p → wp I Q did (io_bind p f).
Proof.
  revert did. induction p as [a|i s k IH|i k IH|i v s k IH|i k IH|u k IH|ms k IH|k IH|k IH|k IH];
    intros did; cbn [wp io_bind]; intros [HI H]; [exact H | split; [done |] ..]; try (intros x); by apply IH.
Qed.

Lemma wp_step {A} I (Q : list locked → A → Prop) c did p w :
  wp I Q did p → let '(p', _, more) := io_step c p w in wp I Q (did ++ more) p'.
Proof.
  destruct p as [a|i s k|i k|i v s k|i k|u k|ms k|k|k|k]; cbn [io_step]; intros H; rewrite ?app_nil_r; try done;
    try (destruct H as [_ H]; exact H || apply H).
  - destruct (pop_front i (tk_state w)). destruct H as [_ H]. apply H.
  - destruct (insert_newer i v s (tk_state w)). destruct H as [_ H]. apply H.
Qed.

(** A stack without a lossy wrapper. *)
Fixpoint lossless (st : stack) : bool :=
  match st with InMemory => true | Lossy p st => (p =? 0)%N && lossless st | Delaying _ st => lossless st end.

(** What a call may have done at any moment, and when it has returned. *)
Definition did_ok (op : tk_op) (did : list locked) : Prop :=
  match op with
  | TkSend id sealed => did = [] ∨ did = [DidPush id sealed]
  | TkRecv _ id _ => ∃ n o, did = replicate n (DidPop id None) ++ option_list (DidPop id <$> (Some <$> o))
  | TkPut id v sealed => did = [] ∨ ∃ stale, did = [DidPut id v sealed stale]
  | TkGet id => did = [] ∨ ∃ o, did = [DidGet id o]
  end.

Definition returns_ok (st : stack) (op : tk_op) (did : list locked) (out : tk_out) : Prop :=
  match op, out with
  | TkSend id sealed, OutUnit r => r = Ok tt ∧ (lossless st = true → did = [DidPush id sealed])
  | TkRecv _ id _, OutRecv (Some r) =>
      ∃ n o, r = Ok o ∧ did = replicate n (DidPop id None) ++ option_list (DidPop id <$> (Some <$> o))
  | TkRecv fuel id _, OutRecv None => did = replicate fuel (DidPop id None)
  | TkPut id v sealed, OutUnit r =>
      r = Err TransportError_Stale ∧ did = [DidPut id v sealed true]
      ∨ r = Ok tt ∧ (did = [DidPut id v sealed false] ∨ did = [] ∧ lossless st = false)
  | TkGet id, OutGet r => ∃ o, r = Ok o ∧ did = [DidGet id o]
  | _, _ => False
  end.

Lemma wp_delayed {A} I (Q : list locked → A → Prop) d p : I [] → wp I Q [] p → wp I Q [] (delayed d p).
Proof.
  intros HI H. unfold delayed. apply wp_bind. unfold delay. destruct (d =? 0)%N; cbn [wp]; [done |].
  split; [done |]. intros n. by repeat (split; [done |]).
Qed.

Lemma wp_lossy I (Q : list locked → result unit TransportError → Prop) percent p :
  I [] → wp I Q [] p → (percent ≠ 0%N → Q [] (Ok tt)) → wp I Q [] (lossy percent p).
Proof.
  intros HI H HQ. unfold lossy. apply wp_bind. unfold should_drop. destruct (N.ltb_spec 0 percent); cbn [wp].
  - split; [done |]. intros b. split; [done |]. destruct (drops percent b); [| done]. cbn [wp]. split; [done |]. apply HQ. lia.
  - done.
Qed.

Lemma wp_mono {A} I (Q Q' : list locked → A → Prop) did p :
  (∀ d a, Q d a → Q' d a) → wp I Q did p → wp I Q' did p.
Proof.
  intros HQ. revert did. induction p as [a|i s k IH|i k IH|i v s k IH|i k IH|u k IH|ms k IH|k IH|k IH|k IH];
    intros did; cbn [wp]; intros [HI H]; (split; [done |]); try (intros x); auto.
Qed.

Lemma send_wp st id sealed :
  wp (did_ok (TkSend id sealed)) (λ did r, returns_ok st (TkSend id sealed) did (OutUnit r)) [] (stack_send st id sealed).
Proof.
  induction st as [|percent st IH|d st IH]; cbn [stack_send].
  - cbn. auto.
  - apply wp_lossy; [by left | |].
    + eapply wp_mono; [| exact IH]. cbn. intros did r [-> H]. split; [done |]. intros [_ Hl]%andb_true_iff. auto.
    + intros Hp. cbn. split; [done |]. by rewrite (proj2 (N.eqb_neq _ _) Hp).
  - apply wp_delayed; [by left | exact IH].
Qed.

Lemma put_wp st id v sealed :
  wp (did_ok (TkPut id v sealed)) (λ did r, returns_ok st (TkPut id v sealed) did (OutUnit r)) []
    (stack_put st id v sealed).
Proof.
  induction st as [|percent st IH|d st IH]; cbn [stack_put].
  - cbn. split; [auto |]. intros [|]; cbn; [eauto 6 |]. split; [eauto |]. split; eauto 8.
  - apply wp_lossy; [by left | |].
    + eapply wp_mono; [| exact IH]. cbn. intros did r [[-> H]|[-> [H|[H Hl]]]]; [auto | auto |].
      right. split; [done |]. right. split; [done |]. by rewrite Hl, andb_false_r.
    + intros Hp. cbn. right. split; [done |]. right. split; [done |]. by rewrite (proj2 (N.eqb_neq _ _) Hp).
  - apply wp_delayed; [by left | exact IH].
Qed.

Lemma get_wp st id :
  wp (did_ok (TkGet id)) (λ did r, returns_ok st (TkGet id) did (OutGet r)) [] (stack_get st id).
Proof.
  induction st as [|percent st IH|d st IH]; cbn [stack_get]; [cbn; eauto 8 | | apply wp_delayed; [by left | exact IH]].
  eapply wp_mono; [| exact IH]. done.
Qed.

Lemma recv_wp st fuel id zero :
  wp (did_ok (TkRecv fuel id zero)) (λ did r, returns_ok st (TkRecv fuel id zero) did (OutRecv r)) []
    (stack_recv st fuel id zero).
Proof.
  induction st as [|percent st IH|d st IH]; cbn [stack_recv].
  - assert (∀ n m, n + m = fuel → wp (did_ok (TkRecv fuel id zero))
      (λ did r, returns_ok InMemory (TkRecv fuel id zero) did (OutRecv r)) (replicate n (DidPop id None))
      (mem_recv m id zero)) as H; [| by apply (H 0 fuel)].
    assert (∀ n, did_ok (TkRecv fuel id zero) (replicate n (DidPop id None))) as Hn
      by (intros n; exists n, None; cbn; by rewrite app_nil_r).
    intros n m. revert n. induction m as [|m IH]; intros n Hnm; cbn [mem_recv wp].
    + split; [apply Hn |]. cbn. f_equal. lia.
    + split; [apply Hn |]. intros [s|].
      * cbn [wp]. split; [by exists n, (Some s) |]. by exists n, (Some s).
      * assert (replicate n (DidPop id None) ++ [DidPop id None] = replicate (S n) (DidPop id None)) as ->
          by (symmetry; apply replicate_S_end).
        assert (returns_ok InMemory (TkRecv fuel id zero) (replicate (S n) (DidPop id None)) (OutRecv (Some (Ok None))))
          as Hret by (exists (S n), None; split; [done |]; cbn; by rewrite app_nil_r).
        destruct zero; cbn [wp]; (split; [apply (Hn (S n)) |]); [exact Hret |].
        intros [|]; [split; [apply (Hn (S n)) | exact Hret] |]. apply IH. lia.
  - eapply wp_mono; [| exact IH]. done.
  - apply wp_delayed; [exists 0, None; done | exact IH].
Qed.

Lemma wp_keep {A} I (Q : list locked → A → Prop) did p : wp I Q did p → wp I (λ d a, I d ∧ Q d a) did p.
Proof.
  revert did. induction p as [a|i s k IH|i k IH|i v s k IH|i k IH|u k IH|ms k IH|k IH|k IH|k IH];
    intros did; cbn [wp]; intros [HI H]; (split; [done |]); try (intros x); auto.
Qed.

Lemma call_wp st op : wp (did_ok op) (returns_ok st op) [] (call_of st op).
Proof.
  destruct op; cbn [call_of]; apply wp_bind;
    [pose proof (send_wp st id sealed) as H | pose proof (recv_wp st fuel id wait_is_zero) as H
    | pose proof (put_wp st id version sealed) as H | pose proof (get_wp st id) as H];
    (eapply wp_mono; [| apply wp_keep, H]); by intros d a.
Qed.

(** ** Lemmas: runs *)

(** The sections a call has run. *)
Definition did_by (k : nat) (log : list (nat * locked)) : list locked :=
  filter_map (λ x : nat * locked, if decide (x.1 = k) then Some x.2 else None) log.

Lemma did_by_app k log more : did_by k (log ++ more) = did_by k log ++ did_by k more.
Proof. apply filter_map_app. Qed.

Lemma did_by_own k did : did_by k (map (pair k) did) = did.
Proof. induction did as [|x l IH]; [done |]. cbn. rewrite decide_True by done. by f_equal. Qed.

Lemma did_by_other k k' did : k ≠ k' → did_by k (map (pair k') did) = [].
Proof. intros Hne. induction did as [|x l IH]; [done |]. cbn. by rewrite decide_False. Qed.

Record run_ok (st : stack) (r : tk_run) : Prop := {
  ro_sequential : sequential (rn_log r);
  ro_tables : tables_ok (tk_state (rn_world r)) (rn_log r);
  ro_calls : ∀ k op p, rn_calls r !! k = Some (op, p) → wp (did_ok op) (returns_ok st op) (did_by k (rn_log r)) p;
  ro_later : ∀ k, length (rn_calls r) ≤ k → did_by k (rn_log r) = []
}.

Lemma tk_step_ok st r m : run_ok st r → run_ok st (tk_step st r m).
Proof.
  intros [Hs Ht Hc Hl]. destruct m as [op|k c]; cbn [tk_step].
  - split; cbn [rn_world rn_calls rn_log]; [done | done | |].
    + intros k op' p [H|[Hk H]]%lookup_app_Some; [by apply Hc |].
      destruct (k - length (rn_calls r)) as [|n] eqn:E; [| by destruct n]. injection H as <- <-.
      rewrite Hl by lia. apply call_wp.
    + intros k. rewrite length_app. intros Hk. apply Hl. lia.
  - destruct (rn_calls r !! k) as [[op p]|] eqn:Ek; [| by split].
    pose proof (io_step_sequential k c p (rn_world r) (rn_log r) Hs Ht) as Hseq.
    pose proof (wp_step _ _ c _ _ (rn_world r) (Hc k op p Ek)) as Hstep.
    destruct (io_step c p (rn_world r)) as [[p' w'] did]. destruct Hseq as [Hs' Ht'].
    split; cbn [rn_world rn_calls rn_log]; [done | done | |].
    + intros k' op' q. rewrite did_by_app. destruct (decide (k = k')) as [<-|Hne].
      * rewrite list_lookup_insert_eq by (by eapply lookup_lt_Some). intros [= <- <-]. by rewrite did_by_own.
      * rewrite list_lookup_insert_ne by done. rewrite did_by_other by done. rewrite app_nil_r. apply Hc.
    + intros k'. rewrite length_insert. intros Hk'. rewrite did_by_app, Hl by done.
      apply lookup_lt_Some in Ek. apply did_by_other. lia.
Qed.

Lemma tk_run_ok st ms : run_ok st (foldl (tk_step st) tk_start ms).
Proof.
  induction ms as [|m ms IH] using rev_ind; [| rewrite foldl_app; by apply tk_step_ok].
  split; cbn; [| | done | done].
  - intros l1 k x l2 H. by destruct l1.
  - split; intros id; cbn; by rewrite lookup_empty.
Qed.

(** A call that has returned stays as it is. *)
Lemma tk_returned st r ms k op out :
  rn_calls r !! k = Some (op, Ret out) →
  let r' := foldl (tk_step st) r ms in
  rn_calls r' !! k = Some (op, Ret out) ∧ did_by k (rn_log r') = did_by k (rn_log r).
Proof.
  intros H. cbv zeta. induction ms as [|m ms [IH1 IH2]] using rev_ind; [done |]. rewrite foldl_app. cbn [foldl].
  set (r1 := foldl (tk_step st) r ms) in *. destruct m as [op'|k' c]; cbn [tk_step].
  - cbn. split; [by apply lookup_app_l_Some | done].
  - destruct (rn_calls r1 !! k') as [[op' p]|] eqn:E; [| done].
    destruct (decide (k' = k)) as [->|Hne].
    + rewrite IH1 in E. injection E as <- <-. cbn [io_step map rn_calls rn_log]. rewrite app_nil_r. split; [| done].
      apply list_lookup_insert_eq. by eapply lookup_lt_Some.
    + destruct (io_step c p (rn_world r1)) as [[p' w'] did]. cbn [rn_calls rn_log].
      rewrite list_lookup_insert_ne by done. rewrite did_by_app, did_by_other, app_nil_r by done. done.
Qed.

(** ** Claims *)

(** C40: stacks of the in-memory, lossy and delaying transports are
    linearizable.  Take any stack and any interleaving of overlapping calls.
    The sections run under the lock form a sequential history of FIFO queues
    and of registers that take newer versions only: a pop takes the oldest
    payload pushed and not yet popped, a get shows the last value stored, and
    a put is stale exactly when the slot holds its version or a newer one;
    what was popped from a channel followed by its queue is what was pushed.
    A send pushes its payload at most once, and when it has returned on a
    stack that loses nothing, exactly once; a receive returns the payload it
    popped, and none exactly when it popped none; a put that answers [Stale]
    was refused, one that answers [Ok] was stored, or lost by a stack that
    loses operations; a get returns what it read.  A call has run no section
    before it started and runs none after it has returned, so calls that do
    not overlap keep their order. *)
Theorem testkit_linearizable (st : stack) (pre ms : list tk_move) :
  let r0 := foldl (tk_step st) tk_start pre in
  let r := foldl (tk_step st) r0 ms in
  sequential (rn_log r)
  ∧ (∀ id, popped id (rn_log r) ++ default [] (tk_mailboxes (tk_state (rn_world r)) !! id) = pushed id (rn_log r))
  ∧ (∀ k op p, rn_calls r !! k = Some (op, p) →
       did_ok op (did_by k (rn_log r)) ∧ ∀ out, p = Ret out → returns_ok st op (did_by k (rn_log r)) out)
  ∧ (∀ k, length (rn_calls r0) ≤ k → did_by k (rn_log r0) = [])
  ∧ (∀ k op out, rn_calls r0 !! k = Some (op, Ret out) →
       rn_calls r !! k = Some (op, Ret out) ∧ did_by k (rn_log r) = did_by k (rn_log r0)).
Proof.
  cbv zeta. rewrite <- foldl_app. destruct (tk_run_ok st (pre ++ ms)) as [Hs [Hq _] Hc _].
  split_and!; [done | done | | apply (tk_run_ok st pre) |].
  - intros k op p Hk. specialize (Hc k op p Hk). split; [by apply wp_inv in Hc |].
    intros out ->. by destruct Hc.
  - intros k op out Hk. rewrite foldl_app. by apply tk_returned.
Qed.

(** Two delayed sends that overlap can change places: the one that was called
    first sleeps longer. *)
Lemma delayed_sends_reorder (id a b : bytes) (c : chance) :
  let st := delaying_new InMemory in
  let r := foldl (tk_step st) tk_start
             [TkCall (TkSend id a); TkCall (TkSend id b); TkRun 0 c; TkRun 1 c; TkRun 1 c; TkRun 1 c; TkRun 0 c; TkRun 0 c] in
  pushed id (rn_log r) = [b; a] ∧ (∀ k, k < 2 → ∃ op, rn_calls r !! k = Some (op, Ret (OutUnit (Ok tt)))).
Proof.
  cbv zeta. set (r := foldl _ _ _).
  assert (rn_log r = [(1, DidPush id b); (0, DidPush id a)]) as -> by reflexivity.
  assert (rn_calls r = [(TkSend id a, Ret (OutUnit (Ok tt))); (TkSend id b, Ret (OutUnit (Ok tt)))]) as -> by reflexivity.
  split; [cbn; by rewrite !decide_True by done |]. intros [|[|k]] Hk; [by eexists | by eexists | lia].
Qed.

(** ** Lemmas: watching and the wrappers *)

(** The watch next to a transport that others use. *)
Inductive mw_reach (id : bytes) (since : N) (start : nat) : InMemoryTransport → mem_watch → Prop :=
| mw_start w : start = length (tk_updates w) → mw_reach id since start w (watch_open id since w)
| mw_world w m u ts : mw_reach id since start w m → mw_reach id since start (MkInMemoryTransport ts (tk_updates w ++ u)) m
| mw_step w m m' : mw_reach id since start w m → mem_watch_step w m = Some m' → mw_reach id since start w m'
| mw_take w m m' : mw_reach id since start w m → mem_watch_take m = Some m' → mw_reach id since start w m'.

(** What a watch hands over are updates of its slot above [since] that were
    broadcast after it was opened, in order and each once. *)
Lemma mem_watch_sound id since start w m :
  mw_reach id since start w m →
  mw_id m = id ∧ mw_since m = since ∧ start ≤ mw_pos m ≤ length (tk_updates w)
  ∧ mw_taken m ++ mw_queue m ++ option_list (mw_held m)
    `sublist_of` filter_map (update_matches id since) (drop start (take (mw_pos m) (tk_updates w))).
Proof.
  induction 1 as [w ->|w m u ts _ (H1 & H2 & H3 & H4)|w m m' _ (H1 & H2 & H3 & H4) Hs|w m m' _ (H1 & H2 & H3 & H4) Ht].
  - cbn. split_and!; try done. apply sublist_nil_l.
  - cbn [tk_updates]. rewrite length_app. split_and!; try done; try lia. by rewrite take_app_le by lia.
  - unfold mem_watch_step in Hs. destruct (mw_held m) as [v|] eqn:Hh.
    { destruct (_ <? _); [| done]. injection Hs as <-. cbn [mw_id mw_since mw_pos mw_taken mw_queue mw_held option_list].
      split_and!; try done; try lia. by rewrite app_nil_r. }
    cbn [option_list] in H4. rewrite app_nil_r in H4.
    destruct (Nat.ltb_spec (mw_pos m) (length (tk_updates w) - TESTKIT_WATCH_BUFFER)) as [Hlt|Hge].
    + injection Hs as <-. cbn [mw_id mw_since mw_pos mw_taken mw_queue mw_held option_list]. rewrite app_nil_r.
      split_and!; try done; try lia.
      etransitivity; [exact H4 |]. set (p' := length (tk_updates w) - TESTKIT_WATCH_BUFFER) in *.
      replace (take (mw_pos m) (tk_updates w)) with (take (mw_pos m) (take p' (tk_updates w)))
        by (rewrite take_take; f_equal; lia).
      rewrite <- (take_drop (mw_pos m) (take p' (tk_updates w))) at 2.
      rewrite drop_app_le by (rewrite !length_take; lia). rewrite filter_map_app. by apply sublist_inserts_r.
    + destruct (tk_updates w !! mw_pos m) as [u|] eqn:Hu; [| done]. pose proof (lookup_lt_Some _ _ _ Hu) as Hlt.
      injection Hs as <-. cbn [mw_id mw_since mw_pos mw_taken mw_queue mw_held]. split_and!; try done; try lia.
      rewrite (take_S_r _ _ _ Hu), drop_app_le by (rewrite length_take; lia). rewrite filter_map_app, app_assoc, H1, H2.
      apply sublist_app; [done |]. cbn [filter_map]. by destruct (update_matches id since u).
  - unfold mem_watch_take in Ht. destruct (mw_queue m) as [|x q]; [done |]. injection Ht as <-.
    cbn [mw_id mw_since mw_pos mw_taken mw_queue mw_held]. split_and!; try done; try lia. by rewrite <- app_assoc.
Qed.

(** A watch never shows what the slot held when it was opened: unlike the
    http and the pkarr transport, it waits for the next put. *)
Lemma mem_watch_skips_current id since w : mem_watch_step w (watch_open id since w) = None.
Proof.
  unfold mem_watch_step. cbn [watch_open mw_held mw_pos]. destruct (Nat.ltb_spec (length (tk_updates w)) (length (tk_updates w) - TESTKIT_WATCH_BUFFER)); [lia |].
  by rewrite lookup_ge_None_2.
Qed.

(** Of the 256 bytes, 90 make the default drop an operation: 35 percent, as
    the remainder by 100 favours the small values. *)
Lemma default_drop_bias :
  length (List.filter (drops DEFAULT_DROP_PERCENT) (map (λ n, byte_of_N (N.of_nat n)) (seq 0 256))) = 90.
Proof. vm_refl. Qed.

Lemma delay_bound max_delay random : (delay_of max_delay random ≤ max_millis max_delay)%N.
Proof.
  unfold delay_of. assert (max_millis max_delay ≤ u64_max)%N by (unfold max_millis; lia).
  pose proof (N.mod_lt random (N.min (max_millis max_delay + 1) u64_max) ltac:(unfold u64_max; lia)). lia.
Qed.

(** ** Witness *)

Module TestKitWitness.
Definition lossy_stack : stack := delaying_new (lossy_new InMemory).
Definition draw (b : byte) : chance := MkChance b 0 false.

(** The first send draws a byte that loses it; the receive gets the second. *)
Definition history : list tk_move :=
  [TkCall (TkSend (lit "c") (lit "a")); TkCall (TkSend (lit "c") (lit "b")); TkCall (TkRecv 1 (lit "c") true)]
  ++ replicate 4 (TkRun 0 (draw x05)) ++ replicate 4 (TkRun 1 (draw x50)) ++ replicate 3 (TkRun 2 (draw x50)).

Lemma testkit_linearizable_witness :
  let r := foldl (tk_step lossy_stack) tk_start history in
  rn_log r = [(1, DidPush (lit "c") (lit "b")); (2, DidPop (lit "c") (Some (lit "b")))] ∧ sequential (rn_log r).
Proof.
  split; [vm_refl |]. exact (proj1 (testkit_linearizable lossy_stack [] history)).
Defined.
End TestKitWitness.
