(* ===== verification/Health.v ===== *)
(** * transports.rs: the transport health tracker

    Each configured transport has a three-state machine (healthy, degraded,
    down) driven by the successes and failures the coordinator records, with
    saturating [u32] counters and a log of at most 64 transitions.  The main
    theorem gives the state after any history of outcomes in closed form. *)

From S2P Require Import Prelude Bytes Crypto Kdf Net Dedup Config.

Inductive HealthState : Type := Healthy | Degraded | Down.

#[export] Instance HealthState_eq_dec : EqDecision HealthState.
Proof. solve_decision. Defined.

Inductive HealthTransitionKind : Type := BecameHealthy | BecameDegraded | BecameDown.

(** Times are readings of the clocks: [SystemTime] for the report, [Instant]
    for ages, both in nanoseconds. *)
Record HealthTransition : Type := MkHealthTransition {
  tr_kind : HealthTransitionKind;
  tr_from : HealthState;
  tr_to : HealthState;
  tr_at : N
}.

Record EndpointHealth : Type := MkEndpointHealth { ep_endpoint : bytes; ep_state : HealthState }.

Definition EndpointHealth_configured (endpoint : bytes) : EndpointHealth :=
  MkEndpointHealth endpoint Healthy.

Record TransportHealth : Type := MkTransportHealth {
  th_kind : TransportKind;
  th_configured : bool;
  th_state : HealthState;
  consecutive_successes : N;
  consecutive_failures : N;
  last_success : option N;
  last_failure : option N;
  transitions : list HealthTransition;
  endpoints : list EndpointHealth
}.

Record TrackedTransport : Type := MkTrackedTransport {
  health : TransportHealth;
  poll_interval : option N;
  last_success_instant : option N
}.

(** The tracker: the mutex-protected vector.  Every method holds the lock for
    its whole body, so each is one atomic step. *)
Record HealthTracker : Type := MkHealthTracker { inner : list TrackedTransport }.

Record HealthReport : Type := MkHealthReport { transports : list TransportHealth }.

Definition TrackedTransport_new (kind : TransportKind) (poll : option N)
    (eps : list EndpointHealth) : TrackedTransport :=
  MkTrackedTransport
    (MkTransportHealth kind true Healthy 0 0 None None [] eps) poll None.

Definition saturating_add_u32 (a b : N) : N := N.min (a + b) u32_max.

(** [transition(to)], with [now] the reading of [SystemTime::now()]. *)
Definition transition (now : N) (to : HealthState) (h : TransportHealth) : TransportHealth :=
  if decide (th_state h = to) then h
  else
    let log := if length (transitions h) =? 64 then drop 1 (transitions h) else transitions h in
    let kind := match to with
                | Healthy => BecameHealthy | Degraded => BecameDegraded | Down => BecameDown
                end in
    MkTransportHealth (th_kind h) (th_configured h) to (consecutive_successes h)
      (consecutive_failures h) (last_success h) (last_failure h)
      (log ++ [MkHealthTransition kind (th_state h) to now]) (endpoints h).

(** [system] and [instant] are the clock readings of the call. *)
Definition TrackedTransport_record_success (system instant : N) (t : TrackedTransport)
    : TrackedTransport :=
  let h := health t in
  let h := MkTransportHealth (th_kind h) (th_configured h) (th_state h)
             (saturating_add_u32 (consecutive_successes h) 1) 0 (Some system) (last_failure h)
             (transitions h) (endpoints h) in
  let h := match th_state h with
           | Down => transition system Degraded h
           | Degraded => if (3 <=? consecutive_successes h)%N then transition system Healthy h else h
           | Healthy => h
           end in
  MkTrackedTransport h (poll_interval t) (Some instant).

Definition TrackedTransport_record_failure (system : N) (t : TrackedTransport) : TrackedTransport :=
  let h := health t in
  let h := MkTransportHealth (th_kind h) (th_configured h) (th_state h) 0
             (saturating_add_u32 (consecutive_failures h) 1) (last_success h) (Some system)
             (transitions h) (endpoints h) in
  let h := match th_state h with
           | Healthy => transition system Degraded h
           | Degraded => if (3 <=? consecutive_failures h)%N then transition system Down h else h
           | Down => h
           end in
  MkTrackedTransport h (poll_interval t) (last_success_instant t).

(** The state a snapshot taken at [now] reports: silence since the last
    success overrides the tracked state. *)
Definition snapshot_state (now : N) (t : TrackedTransport) : HealthState :=
  match last_success_instant t with
  | None => th_state (health t)
  | Some last =>
      let age := (now - last)%N in
      if (from_mins 5 <=? age)%N then Down
      else
        match poll_interval t with
        | Some interval =>
            if (duration_saturating_mul interval 2 <=? age)%N then Degraded
            else th_state (health t)
        | None => th_state (health t)
        end
  end.

Definition TrackedTransport_snapshot (now : N) (t : TrackedTransport) : TransportHealth :=
  let h := health t in
  let st := snapshot_state now t in
  MkTransportHealth (th_kind h) (th_configured h) st (consecutive_successes h)
    (consecutive_failures h) (last_success h) (last_failure h) (transitions h)
    (map (λ e, MkEndpointHealth (ep_endpoint e) st) (endpoints h)).

Definition for_kind (kind : TransportKind) (f : TrackedTransport → TrackedTransport)
    (t : HealthTracker) : HealthTracker :=
  MkHealthTracker
    (map (λ x, if decide (th_kind (health x) = kind) then f x else x) (inner t)).

Definition record_success (kind : TransportKind) (system instant : N) : HealthTracker → HealthTracker :=
  for_kind kind (TrackedTransport_record_success system instant).

Definition record_failure (kind : TransportKind) (system : N) : HealthTracker → HealthTracker :=
  for_kind kind (TrackedTransport_record_failure system).

Definition snapshot (now : N) (t : HealthTracker) : HealthReport :=
  MkHealthReport (map (TrackedTransport_snapshot now) (inner t)).

Definition pkarr_health_endpoints (c : PkarrConfig) : list EndpointHealth :=
  (match pk_network c with
   | PkarrNetworkMode_Relays | PkarrNetworkMode_Both =>
       map EndpointHealth_configured (effective_resolvers c)
   | PkarrNetworkMode_Dht => []
   end) ++
  (match pk_network c with
   | PkarrNetworkMode_Dht | PkarrNetworkMode_Both =>
       match bootstrap c with
       | [] => [EndpointHealth_configured (lit "mainline-dht")]
       | bs => map (λ a, EndpointHealth_configured (SocketAddr_to_string a)) bs
       end
   | PkarrNetworkMode_Relays => []
   end).

Section FromConfig.
Context `{PR : Primitives} `{UL : UrlLib} {S T : Type}.

Definition iroh_health_endpoints (c : IrohConfig) : list EndpointHealth :=
  map EndpointHealth_configured (concat (map (λ p, map url_as_str (relay_urls p)) (peers c))) ++
  match relay_mode c with
  | IrohRelayMode_Custom urls => map (λ u, EndpointHealth_configured (url_as_str u)) urls
  | IrohRelayMode_Default => [EndpointHealth_configured (lit "default")]
  | IrohRelayMode_Disabled => []
  end.

Definition from_config (c : Config S T) : HealthTracker :=
  MkHealthTracker
    ((match cfg_http c with
      | Some http =>
          [TrackedTransport_new Http (Some (from_secs (N.max (long_poll_secs http) 1)))
             [EndpointHealth_configured (url_as_str (url http))]]
      | None => []
      end) ++
     (match cfg_pkarr c with
      | Some pkarr =>
          [TrackedTransport_new Pkarr (Some (republish_interval pkarr)) (pkarr_health_endpoints pkarr)]
      | None => []
      end) ++
     (match cfg_iroh c with
      | Some iroh => [TrackedTransport_new Iroh (Some (from_secs 30)) (iroh_health_endpoints iroh)]
      | None => []
      end) ++
     map (λ t, TrackedTransport_new (ct_kind t) None []) (cfg_transports c)).

Lemma from_config_length c : length (inner (from_config c)) = transport_count c.
Proof.
  unfold from_config, transport_count. cbn [inner].
  rewrite !length_app, length_map.
  destruct (cfg_http c), (cfg_pkarr c), (cfg_iroh c); simpl; lia.
Qed.
End FromConfig.

(** ** Histories of outcomes *)

Inductive outcome : Type :=
| Success (system instant : N)
| Failure (system : N).

Definition record (t : TrackedTransport) (o : outcome) : TrackedTransport :=
  match o with
  | Success system instant => TrackedTransport_record_success system instant t
  | Failure system => TrackedTransport_record_failure system t
  end.

Definition record_all (t : TrackedTransport) (history : list outcome) : TrackedTransport :=
  foldl record t history.

Definition is_success (o : outcome) : bool := match o with Success _ _ => true | _ => false end.

(** Length of the leading run of [b] in a newest-first list of outcomes. *)
Fixpoint streak (b : bool) (l : list outcome) : nat :=
  match l with
  | o :: l' => if Bool.eqb (is_success o) b then S (streak b l') else 0
  | [] => 0
  end.

(** The closed form: three failures in a row are down, three successes in a
    row (or no failure at all) are healthy, anything else is degraded. *)
Definition classify (newest_first : list outcome) : HealthState :=
  if 3 <=? streak false newest_first then Down
  else if (3 <=? streak true newest_first) || forallb is_success newest_first then Healthy
  else Degraded.

Definition transition_kind (s : HealthState) : HealthTransitionKind :=
  match s with Healthy => BecameHealthy | Degraded => BecameDegraded | Down => BecameDown end.

(** A log whose entries are real changes, chain, and end in [s]. *)
Fixpoint log_chain (l : list HealthTransition) (s : HealthState) : Prop :=
  match l with
  | [] => True
  | t :: l' =>
      tr_from t ≠ tr_to t ∧ tr_kind t = transition_kind (tr_to t)
      ∧ tr_to t = match l' with [] => s | t' :: _ => tr_from t' end
      ∧ log_chain l' s
  end.

Lemma log_chain_snoc l t :
  log_chain l (tr_from t) → tr_from t ≠ tr_to t → tr_kind t = transition_kind (tr_to t) →
  log_chain (l ++ [t]) (tr_to t).
Proof.
  intros H Hne Hk. induction l as [|a l IH]; simpl in *; [done |].
  destruct H as (H1 & H2 & H3 & H4). split_and!; [done | done | | by apply IH].
  by destruct l.
Qed.

Lemma log_chain_drop l s : log_chain l s → log_chain (drop 1 l) s.
Proof. destruct l; simpl; [done |]. rewrite drop_0. naive_solver. Qed.

Definition log_ok (h : TransportHealth) : Prop :=
  length (transitions h) ≤ 64 ∧ log_chain (transitions h) (th_state h).

Lemma transition_log_ok now to h : log_ok h → log_ok (transition now to h).
Proof.
  intros [Hl Hc]. unfold transition. case_decide as Hne; [done |].
  split; cbn [transitions th_state].
  - rewrite length_app. cbn [length]. destruct (Nat.eqb_spec (length (transitions h)) 64);
      [rewrite length_drop |]; lia.
  - pose proof (log_chain_snoc
      (if length (transitions h) =? 64 then drop 1 (transitions h) else transitions h)
      (MkHealthTransition (transition_kind to) (th_state h) to now)) as Hs.
    cbn [tr_from tr_to tr_kind] in Hs. apply Hs; [| done | done].
    destruct (_ =? _); [by apply log_chain_drop | done].
Qed.

Lemma transition_state now to h : th_state (transition now to h) = to.
Proof. unfold transition. by case_decide. Qed.

Lemma record_log_ok t o : log_ok (health t) → log_ok (health (record t o)).
Proof.
  intros H. destruct o as [system instant|system]; simpl;
    unfold TrackedTransport_record_success, TrackedTransport_record_failure;
    cbn [health th_state]; destruct (th_state (health t)) eqn:E;
    repeat match goal with |- context [if ?x then _ else _] => destruct x end;
    try apply transition_log_ok; unfold log_ok in *; cbn [transitions th_state]; by rewrite <- ?E.
Qed.

(** The counters and the state after a history, newest outcome first. *)
Definition tracks (t : TrackedTransport) (newest_first : list outcome) : Prop :=
  consecutive_successes (health t) = N.min (N.of_nat (streak true newest_first)) u32_max
  ∧ consecutive_failures (health t) = N.min (N.of_nat (streak false newest_first)) u32_max
  ∧ th_state (health t) = classify newest_first.

Lemma transition_counters now to h :
  consecutive_successes (transition now to h) = consecutive_successes h
  ∧ consecutive_failures (transition now to h) = consecutive_failures h.
Proof. unfold transition. by case_decide. Qed.

Lemma streak_exclusive l : streak true l = 0 ∨ streak false l = 0.
Proof. destruct l as [|o l]; simpl; [auto |]. destruct (is_success o); auto. Qed.

Lemma streak_forallb l : forallb is_success l = true → streak true l = length l ∧ streak false l = 0.
Proof.
  induction l as [|o l IH]; simpl; [done |]. intros [-> H]%andb_prop. simpl.
  by destruct (IH H) as [-> _].
Qed.

Lemma saturating_succ n : saturating_add_u32 (N.min (N.of_nat n) u32_max) 1 = N.min (N.of_nat (S n)) u32_max.
Proof. unfold saturating_add_u32, u32_max. lia. Qed.

Lemma min_ge_3 n : (3 <=? N.min (N.of_nat n) u32_max)%N = (3 <=? n).
Proof.
  unfold u32_max. destruct (Nat.leb_spec 3 n); [apply N.leb_le | apply N.leb_gt]; lia.
Qed.

Lemma record_success_tracks t l system instant :
  tracks t l → tracks (TrackedTransport_record_success system instant t) (Success system instant :: l).
Proof.
  intros (Hs & Hf & Hst). unfold TrackedTransport_record_success, tracks.
  cbn [health th_state consecutive_successes]. rewrite Hs, Hst, saturating_succ, min_ge_3.
  unfold classify. cbn [streak forallb is_success Bool.eqb andb].
  pose proof (streak_forallb l) as Hall. pose proof (streak_exclusive l) as Hex.
  destruct (Nat.leb_spec 3 (streak false l)).
  - rewrite !(proj1 (transition_counters _ _ _)), !(proj2 (transition_counters _ _ _)),
      transition_state.
    destruct (forallb is_success l) eqn:E; [destruct (Hall eq_refl); lia |].
    destruct Hex as [Hex|Hex]; [by rewrite Hex | lia].
  - destruct (Nat.leb_spec 3 (streak true l)); cbn [orb].
    + destruct (Nat.leb_spec 3 (S (streak true l))); [done | lia].
    + destruct (forallb is_success l) eqn:E; [by rewrite orb_true_r |].
      destruct (Nat.leb_spec 3 (S (streak true l))); [| done].
      by rewrite !(proj1 (transition_counters _ _ _)), !(proj2 (transition_counters _ _ _)),
        transition_state.
Qed.

Lemma record_failure_tracks t l system :
  tracks t l → tracks (TrackedTransport_record_failure system t) (Failure system :: l).
Proof.
  intros (Hs & Hf & Hst). unfold TrackedTransport_record_failure, tracks.
  cbn [health th_state consecutive_failures]. rewrite Hf, Hst, saturating_succ, min_ge_3.
  unfold classify. cbn [streak forallb is_success Bool.eqb andb].
  pose proof (streak_forallb l) as Hall. pose proof (streak_exclusive l) as Hex.
  destruct (Nat.leb_spec 3 (streak false l)).
  - destruct (Nat.leb_spec 3 (S (streak false l))); [done | lia].
  - destruct (_ || _) eqn:E.
    + rewrite !(proj1 (transition_counters _ _ _)), !(proj2 (transition_counters _ _ _)),
        transition_state.
      apply orb_prop in E as [E%Nat.leb_le|E]; [| destruct (Hall E) as [_ ->]; done].
      destruct Hex as [Hex|Hex]; [lia | by rewrite Hex].
    + destruct (Nat.leb_spec 3 (S (streak false l))); [| done].
      by rewrite !(proj1 (transition_counters _ _ _)), !(proj2 (transition_counters _ _ _)),
        transition_state.
Qed.

Lemma record_all_tracks kind poll eps history :
  tracks (record_all (TrackedTransport_new kind poll eps) history) (reverse history).
Proof.
  induction history as [|o h IH] using rev_ind; [done |].
  unfold record_all. rewrite foldl_app, reverse_snoc. cbn [foldl].
  destruct o; [by apply record_success_tracks | by apply record_failure_tracks].
Qed.

Lemma record_all_log_ok kind poll eps history :
  log_ok (health (record_all (TrackedTransport_new kind poll eps) history)).
Proof.
  induction history as [|o h IH] using rev_ind; [by split; simpl; [lia |] |].
  unfold record_all. rewrite foldl_app. by apply record_log_ok.
Qed.

(** ** Claims *)

(** C24: after any history of recorded outcomes of a freshly configured
    transport, its state is the closed form [classify]: down exactly when the
    last three or more outcomes are failures, healthy exactly when no failure
    was ever recorded or the last three or more are successes, degraded
    otherwise; the [u32] counters hold the current streaks, saturated; and
    the transition log has at most 64 entries, each a real state change, that
    chain from one to the next and end in the current state. *)
Theorem health_state_spec (kind : TransportKind) (poll : option N) (eps : list EndpointHealth)
    (history : list outcome) :
  let h := health (record_all (TrackedTransport_new kind poll eps) history) in
  th_state h = classify (reverse history)
  ∧ consecutive_successes h = N.min (N.of_nat (streak true (reverse history))) u32_max
  ∧ consecutive_failures h = N.min (N.of_nat (streak false (reverse history))) u32_max
  ∧ length (transitions h) ≤ 64
  ∧ log_chain (transitions h) (th_state h).
Proof.
  destruct (record_all_tracks kind poll eps history) as (? & ? & ?).
  destruct (record_all_log_ok kind poll eps history). by split_and!.
Qed.

(** A snapshot can report a better state than the tracked one.  After one
    success and three failures the tracked state is down, and a snapshot
    younger than two poll intervals after the success says so; but once the
    success is at least two poll intervals (and less than five minutes) old,
    the snapshot reports degraded, with the same three failures recorded. *)
Lemma snapshot_masks_down (kind : TransportKind) (interval t0 s0 s1 s2 s3 now now' : N)
    (eps : list EndpointHealth) :
  let t := record_all (TrackedTransport_new kind (Some interval) eps)
             [Success s0 t0; Failure s1; Failure s2; Failure s3] in
  (t0 ≤ now → now - t0 < 2 * interval → now - t0 < from_mins 5 →
   2 * interval ≤ now' - t0 → now' - t0 < from_mins 5 → 2 * interval ≤ duration_max →
   th_state (TrackedTransport_snapshot now t) = Down
   ∧ th_state (TrackedTransport_snapshot now' t) = Degraded
   ∧ consecutive_failures (TrackedTransport_snapshot now' t) = 3)%N.
Proof.
  intros t H1 H2 H3 H4 H5 H6.
  assert (th_state (health t) = Down) as Hst by done.
  unfold TrackedTransport_snapshot. cbn [th_state consecutive_failures].
  unfold snapshot_state, duration_saturating_mul.
  change (last_success_instant t) with (Some t0). change (poll_interval t) with (Some interval).
  rewrite Hst, N.min_l by lia.
  destruct (N.leb_spec (from_mins 5) (now - t0)); [lia |].
  destruct (N.leb_spec (interval * 2) (now - t0)); [lia |].
  destruct (N.leb_spec (from_mins 5) (now' - t0)); [lia |].
  destruct (N.leb_spec (interval * 2) (now' - t0)); [done | lia].
Qed.

