(* ===== verification/PeerCard.v ===== *)
(** * peer.rs: peer ids, peer cards and their binary and text codecs

    A peer card binds a signing key to the peer id derived from it and
    carries the exchange key and an optional iroh endpoint.  Cards travel as
    a versioned binary record (decoded by the cursor [CardDecoder]) or as a
    prefixed base64 string.  The base64 engine is third-party: class
    [Base64]. *)

From S2P Require Import Prelude Bytes Crypto Kdf Net Errors Dedup Config Guard.

Class Base64 := {
  b64_encode : bytes → bytes;
  b64_decode : bytes → option bytes;
  b64_decode_encode : ∀ b, b64_decode (b64_encode b) = Some b
}.

Definition PEER_ID_LEN : nat := 32.
Definition GROUP_ID_LEN : nat := 32.
Definition GROUP_KEY_ID_LEN : nat := 32.
Definition GROUP_KEY_SECRET_LEN : nat := 32.
Definition PEER_CARD_EXPORT_PREFIX : bytes := lit "enlace-peer-card-v1:".
Definition PEER_CARD_RECORD_VERSION : byte := x01.

(** ** Ids: 32-byte newtypes *)

Record PeerId : Type := MkPeerId { PeerId_to_bytes : bytes }.
Record GroupId : Type := MkGroupId { GroupId_to_bytes : bytes }.
Record GroupKeyId : Type := MkGroupKeyId { GroupKeyId_to_bytes : bytes }.

Definition PeerId_from_bytes (b : bytes) : PeerId := MkPeerId b.
Definition GroupId_from_bytes (b : bytes) : GroupId := MkGroupId b.
Definition GroupKeyId_from_bytes (b : bytes) : GroupKeyId := MkGroupKeyId b.

#[export] Instance PeerId_eq_dec : EqDecision PeerId.
Proof. solve_decision. Defined.

#[export] Instance GroupId_eq_dec : EqDecision GroupId.
Proof. solve_decision. Defined.

#[export] Instance GroupKeyId_eq_dec : EqDecision GroupKeyId.
Proof. solve_decision. Defined.

#[export] Instance PeerId_countable : Countable PeerId.
Proof. by refine (inj_countable' PeerId_to_bytes MkPeerId _); intros []. Defined.

#[export] Instance GroupId_countable : Countable GroupId.
Proof. by refine (inj_countable' GroupId_to_bytes MkGroupId _); intros []. Defined.

Record GroupKey : Type := MkGroupKey { gk_id : GroupKeyId; gk_secret : bytes }.

Definition GroupKey_new (id : GroupKeyId) (secret : bytes) : GroupKey := MkGroupKey id secret.

#[export] Instance GroupKey_eq_dec : EqDecision GroupKey.
Proof. solve_decision. Defined.

#[export] Instance GroupKeyId_countable : Countable GroupKeyId.
Proof. by refine (inj_countable' GroupKeyId_to_bytes MkGroupKeyId _); intros []. Defined.

Definition PeerId_display (p : PeerId) : bytes := hex_bytes (PeerId_to_bytes p).
Definition GroupId_display (g : GroupId) : bytes := hex_bytes (GroupId_to_bytes g).
Definition GroupKeyId_display (k : GroupKeyId) : bytes := hex_bytes (GroupKeyId_to_bytes k).

(** ** The cursor *)

Record CardDecoder : Type := MkCardDecoder { cd_bytes : bytes; cd_offset : N }.

Definition decoder (A : Type) : Type := CardDecoder → result (A * CardDecoder) PeerCardError.

Definition CardDecoder_new (b : bytes) : CardDecoder := MkCardDecoder b 0.

(** [usize::checked_add]. *)
Definition checked_add_usize (a b : N) : option N :=
  if (a + b <=? usize_max)%N then Some (a + b)%N else None.

(** [slice.get(start..end)]. *)
Definition slice_get (b : bytes) (start stop : N) : option bytes :=
  if ((start <=? stop) && (stop <=? len b))%N%bool
  then Some (take (N.to_nat (stop - start)) (drop (N.to_nat start) b)) else None.

Definition CardDecoder_take (field : bytes) (n : N) : decoder bytes := λ c,
  let! stop := ok_or (checked_add_usize (cd_offset c) n) (PeerCardError_FieldTooLarge field) in
  match slice_get (cd_bytes c) (cd_offset c) stop with
  | None => Err (PeerCardError_Truncated field)
  | Some b => Ok (b, MkCardDecoder (cd_bytes c) stop)
  end.

(** The index [[0]] into a one-byte slice. *)
Definition CardDecoder_u8 (field : bytes) : decoder byte := λ c,
  let! (b, c) := CardDecoder_take field 1 c in
  let! x := expect (head b) in
  Ok (x, c).

Definition CardDecoder_array (n : nat) (field : bytes) : decoder bytes := λ c,
  let! (b, c) := CardDecoder_take field (N.of_nat n) c in
  let! a := ok_or (array_from_slice n b) (PeerCardError_Truncated field) in
  Ok (a, c).

Definition CardDecoder_u32 (field : bytes) : decoder N := λ c,
  let! (b, c) := CardDecoder_array 4 field c in
  Ok (from_be_bytes b, c).

(** [usize::try_from(u32)]. *)
Definition usize_try_from (n : N) : option N := if (n <=? usize_max)%N then Some n else None.

Definition CardDecoder_bytes (field : bytes) : decoder bytes := λ c,
  let! (n, c) := CardDecoder_u32 field c in
  let! n := ok_or (usize_try_from n) (PeerCardError_FieldTooLarge field) in
  CardDecoder_take field n c.

Definition CardDecoder_version : decoder unit := λ c,
  let! (v, c) := CardDecoder_u8 (lit "version") c in
  if decide (v ≠ PEER_CARD_RECORD_VERSION) then Err PeerCardError_UnsupportedVersion else Ok (tt, c).

Definition CardDecoder_finish (c : CardDecoder) : result unit PeerCardError :=
  if (cd_offset c =? len (cd_bytes c))%N then Ok tt else Err PeerCardError_TrailingBytes.

(** ** Lists of strings *)

Definition write_bytes {E} (out b : bytes) : result bytes E :=
  let! n := expect (u32_try_from (len b)) in
  Ok (out ++ to_be_bytes 4 n ++ b).

(** [out[start..start + src.len()].copy_from_slice(src)]. *)
Definition copy_at (start : nat) (src out : bytes) : bytes :=
  take start out ++ src ++ drop (start + length src) out.

Definition write_string_list {E} (out : bytes) (values : list bytes) : result bytes E :=
  let start := length out in
  let out := out ++ to_be_bytes 4 0 in
  let! (out, count) :=
    foldl_result (λ '(out, count) value,
      let! out := write_bytes out value in
      let! count := expect (u32_try_from (count + 1)) in
      Ok (out, count)) (out, 0%N) values in
  Ok (copy_at start (to_be_bytes 4 count) out).

Definition read_string (field : bytes) : decoder bytes := λ c,
  let! (b, c) := CardDecoder_bytes field c in
  if utf8_valid b then Ok (b, c) else Err (PeerCardError_InvalidUtf8 field).

Fixpoint read_strings (count : nat) (field : bytes) : decoder (list bytes) := λ c,
  match count with
  | O => Ok ([], c)
  | S n =>
      let! (s, c) := read_string field c in
      let! (ss, c) := read_strings n field c in
      Ok (s :: ss, c)
  end.

Definition read_string_list (field : bytes) : decoder (list bytes) := λ c,
  let! (count, c) := CardDecoder_u32 field c in
  let! count := ok_or (usize_try_from count) (PeerCardError_CountTooLarge field) in
  read_strings (N.to_nat count) field c.

Section PeerCard.
Context `{PR : Primitives} `{UL : UrlLib} {B64 : Base64}.

(** ** Endpoints *)

Definition write_endpoint {E} (out : bytes) (endpoint : option IrohEndpointAddr) : result bytes E :=
  match endpoint with
  | None => Ok (out ++ [x00])
  | Some e =>
      let out := out ++ [x01] ++ endpoint_id e in
      let! out := write_string_list out (map url_as_str (relay_urls e)) in
      write_string_list out (map SocketAddr_to_string (direct_addrs e))
  end.

Definition read_endpoint : decoder (option IrohEndpointAddr) := λ c,
  let! (flag, c) := CardDecoder_u8 (lit "iroh endpoint flag") c in
  if decide (flag = x00) then Ok (None, c)
  else if decide (flag = x01) then
    let! (id, c) := CardDecoder_array 32 (lit "iroh endpoint id") c in
    let! (raw_urls, c) := read_string_list (lit "relay url") c in
    let! urls := map_result (λ raw, ok_or (url_parse raw) PeerCardError_InvalidRelayUrl) raw_urls in
    let! (raw_addrs, c) := read_string_list (lit "direct address") c in
    let! addrs := map_result (λ raw, ok_or (parse_SocketAddr raw) PeerCardError_InvalidDirectAddr)
                    raw_addrs in
    Ok (Some (MkIrohEndpointAddr id urls addrs), c)
  else Err PeerCardError_InvalidIrohEndpoint.

(** ** Cards *)

Definition PeerId_from_signing_key (vk : VerifyingKey) : PeerId :=
  MkPeerId (sha256 (lit "enlace/v1/pkey/peer-id" ++ vk_to_bytes vk)).

Record PeerCard : Type := MkPeerCard {
  peer_id : PeerId;
  signing_key : VerifyingKey;
  exchange_key : bytes;
  iroh_endpoint : option IrohEndpointAddr
}.

Definition PeerCard_new (vk : VerifyingKey) (exchange : bytes) (e : option IrohEndpointAddr)
    : PeerCard :=
  MkPeerCard (PeerId_from_signing_key vk) vk exchange e.

Definition is_consistent (card : PeerCard) : bool :=
  bool_decide (peer_id card = PeerId_from_signing_key (signing_key card)).

Definition PeerCard_validate (card : PeerCard) : result unit PeerCardError :=
  if negb (is_consistent card) then Err PeerCardError_InconsistentPeerId
  else if all_zero (exchange_key card) then Err PeerCardError_EmptyExchangeKey
  else if match iroh_endpoint card with Some e => all_zero (endpoint_id e) | None => false end
  then Err PeerCardError_InvalidIrohEndpoint
  else Ok tt.

Definition PeerCard_to_bytes {E} (card : PeerCard) : result bytes E :=
  write_endpoint
    ([PEER_CARD_RECORD_VERSION] ++ PeerId_to_bytes (peer_id card)
     ++ vk_to_bytes (signing_key card) ++ exchange_key card)
    (iroh_endpoint card).

Definition PeerCard_from_bytes (b : bytes) : result PeerCard PeerCardError :=
  let c := CardDecoder_new b in
  let! (_, c) := CardDecoder_version c in
  let! (id, c) := CardDecoder_array PEER_ID_LEN (lit "peer id") c in
  let! (key, c) := CardDecoder_array 32 (lit "signing key") c in
  let! vk := ok_or (vk_from_bytes key) PeerCardError_InvalidSigningKey in
  let! (exchange, c) := CardDecoder_array 32 (lit "exchange key") c in
  let! (endpoint, c) := read_endpoint c in
  let! _ := CardDecoder_finish c in
  let card := MkPeerCard (PeerId_from_bytes id) vk exchange endpoint in
  let! _ := PeerCard_validate card in
  Ok card.

Definition export_string {E} (card : PeerCard) : result bytes E :=
  let! b := PeerCard_to_bytes card in
  Ok (PEER_CARD_EXPORT_PREFIX ++ b64_encode b).

(** [str::strip_prefix]. *)
Definition strip_prefix (prefix s : bytes) : option bytes :=
  if decide (take (length prefix) s = prefix) then Some (drop (length prefix) s) else None.

Definition import_string (exported : bytes) : result PeerCard PeerCardError :=
  let! encoded := ok_or (strip_prefix PEER_CARD_EXPORT_PREFIX exported) PeerCardError_MissingPrefix in
  let! b := ok_or (b64_decode encoded) PeerCardError_InvalidEncoding in
  PeerCard_from_bytes b.

Record TrustedPeer : Type := TrustedPeer_new { card : PeerCard }.

Definition TrustedPeer_try_from_card (c : PeerCard) : result TrustedPeer PeerCardError :=
  let! _ := PeerCard_validate c in
  Ok (TrustedPeer_new c).

Definition TrustedPeer_peer_id (t : TrustedPeer) : PeerId := peer_id (card t).

(** ** Local identity material and group keys *)

Record PeerIdentity : Type := MkPeerIdentity {
  signing : SigningKey;
  exchange : StaticSecret;
  iroh_secret : option bytes
}.

(** [generate], with [s] and [x] the 32 random bytes drawn for each key. *)
Definition PeerIdentity_generate (s x : bytes) : PeerIdentity :=
  MkPeerIdentity (sk_from_bytes s) (secret_from_bytes x) None.

Definition PeerIdentity_from_parts (sk : SigningKey) (x : StaticSecret) (iroh : option bytes)
    : PeerIdentity :=
  MkPeerIdentity sk x iroh.

Definition PeerIdentity_peer_id (i : PeerIdentity) : PeerId :=
  PeerId_from_signing_key (verifying_key (signing i)).

Definition PeerIdentity_card (i : PeerIdentity) : PeerCard :=
  PeerCard_new (verifying_key (signing i)) (x25519_public (exchange i)) None.

Definition card_with_iroh_endpoint (i : PeerIdentity) (e : IrohEndpointAddr) : PeerCard :=
  PeerCard_new (verifying_key (signing i)) (x25519_public (exchange i)) (Some e).
End PeerCard.

(** ** The writer in closed form *)

Definition encode_str (s : bytes) : bytes := to_be_bytes 4 (len s) ++ s.
Definition encode_list (l : list bytes) : bytes := to_be_bytes 4 (len l) ++ concat (map encode_str l).

(** What the [u32] length prefixes can hold. *)
Definition list_fits (l : list bytes) : Prop :=
  Forall (λ s, len s ≤ u32_max)%N l ∧ (len l ≤ u32_max)%N.

#[export] Instance list_fits_dec l : Decision (list_fits l).
Proof. unfold list_fits. apply _. Defined.

Lemma u32_try_from_gt n : (u32_max < n)%N → u32_try_from n = None.
Proof. intros H. unfold u32_try_from. by destruct (N.leb_spec n u32_max); [lia |]. Qed.

Lemma write_bytes_eq {E} out b :
  write_bytes (E:=E) out b = if decide (len b ≤ u32_max)%N then Ok (out ++ encode_str b) else Panic.
Proof.
  unfold write_bytes. case_decide.
  - by rewrite u32_try_from_Some.
  - rewrite u32_try_from_gt by lia. done.
Qed.

Lemma write_loop {E} out n l :
  (n ≤ u32_max)%N →
  foldl_result (E:=E) (λ '(out, count) value,
      let! out := write_bytes out value in
      let! count := expect (u32_try_from (count + 1)) in
      Ok (out, count)) (out, n) l
  = if decide (Forall (λ s, len s ≤ u32_max)%N l ∧ (n + len l ≤ u32_max)%N)
    then Ok (out ++ concat (map encode_str l), n + len l)%N else Panic.
Proof.
  revert out n. induction l as [|s l IH]; intros out n Hn; cbn [foldl_result].
  - rewrite decide_True; [by rewrite app_nil_r, N.add_0_r |].
    split; [constructor |]. change (len (@nil bytes)) with 0%N. lia.
  - assert (len (s :: l) = 1 + len l)%N as Hlen by (unfold len; simpl length; lia).
    rewrite write_bytes_eq. destruct (decide (len s ≤ u32_max)%N) as [Hs|Hs]; cbn [rbind].
    2: { rewrite decide_False; [done |]. intros [Hall _]. inversion Hall; done. }
    destruct (decide (n + 1 ≤ u32_max)%N) as [Hn1|Hn1].
    + rewrite u32_try_from_Some by done. cbn [expect rbind]. rewrite IH by done.
      rewrite Hlen, N.add_assoc.
      destruct (decide (Forall _ l ∧ _)) as [Hd|Hd];
        destruct (decide (Forall _ (s :: l) ∧ _)) as [Hd'|Hd']; try done.
      * cbn [map concat]. by rewrite <- app_assoc.
      * destruct Hd'. destruct Hd. split; [by constructor | done].
      * destruct Hd. destruct Hd' as [Hall ?]. by inversion Hall.
    + rewrite u32_try_from_gt by lia. cbn [expect rbind].
      rewrite decide_False; [done |]. intros [_ ?]. lia.
Qed.

Lemma write_string_list_eq {E} out l :
  write_string_list (E:=E) out l = if decide (list_fits l) then Ok (out ++ encode_list l) else Panic.
Proof.
  unfold write_string_list. rewrite write_loop by done.
  rewrite N.add_0_l. destruct (decide (list_fits l)) as [Hf|Hf];
    [rewrite decide_True by done | by rewrite decide_False by done]. cbn [rbind]. f_equal.
  unfold copy_at. rewrite length_to_be_bytes, <- !app_assoc.
  rewrite take_app_length. f_equal. unfold encode_list. f_equal.
  rewrite <- drop_drop, drop_app_length, drop_app_length'; [done |].
  by rewrite length_to_be_bytes.
Qed.

(** ** The reader on encoded input *)

(** The cursor [c] stands before [r], in a buffer Rust can hold. *)
Definition at_rest (c : CardDecoder) (r : bytes) : Prop :=
  ∃ d, cd_bytes c = d ++ r ∧ cd_offset c = len d ∧ (len (cd_bytes c) ≤ usize_max)%N.

Lemma at_rest_new b : (len b ≤ usize_max)%N → at_rest (CardDecoder_new b) b.
Proof. intros H. by exists []. Qed.

Lemma take_at f n a r c :
  at_rest c (a ++ r) → n = len a → ∃ c', CardDecoder_take f n c = Ok (a, c') ∧ at_rest c' r.
Proof.
  intros (d & Hb & Ho & Hlen) ->. unfold CardDecoder_take, checked_add_usize, slice_get.
  rewrite Ho, Hb in *. rewrite !len_app in *.
  destruct (N.leb_spec (len d + len a) usize_max); [| lia]. cbn [ok_or rbind].
  destruct (N.leb_spec (len d) (len d + len a)); [| lia].
  destruct (N.leb_spec (len d + len a) (len d + (len a + len r))); [| lia]. cbn [andb].
  eexists. split.
  - f_equal. f_equal. unfold len.
    replace (N.to_nat (N.of_nat (length d) + N.of_nat (length a) - N.of_nat (length d)))
      with (length a) by lia.
    rewrite Nat2N.id, drop_app_length. by rewrite take_app_length.
  - exists (d ++ a). cbn [cd_bytes cd_offset]. rewrite !len_app, <- app_assoc.
    split_and!; [done | done | lia].
Qed.

Lemma u8_at f x r c :
  at_rest c (x :: r) → ∃ c', CardDecoder_u8 f c = Ok (x, c') ∧ at_rest c' r.
Proof.
  intros H. destruct (take_at f 1 [x] r c H) as (c' & E & Hc); [done |].
  exists c'. unfold CardDecoder_u8. by rewrite E.
Qed.

Lemma array_at n f a r c :
  at_rest c (a ++ r) → length a = n → ∃ c', CardDecoder_array n f c = Ok (a, c') ∧ at_rest c' r.
Proof.
  intros H Hn. destruct (take_at f (N.of_nat n) a r c H) as (c' & E & Hc);
    [by unfold len; rewrite Hn |].
  exists c'. unfold CardDecoder_array. rewrite E. cbn [rbind].
  by rewrite array_from_slice_length.
Qed.

Lemma u32_at f n r c :
  at_rest c (to_be_bytes 4 n ++ r) → (n ≤ u32_max)%N →
  ∃ c', CardDecoder_u32 f c = Ok (n, c') ∧ at_rest c' r.
Proof.
  intros H Hn. destruct (array_at 4 f _ r c H) as (c' & E & Hc); [apply length_to_be_bytes |].
  exists c'. unfold CardDecoder_u32. rewrite E. cbn [rbind].
  by rewrite from_to_be_bytes by auto with enlace.
Qed.

Lemma usize_of_u32 n : (n ≤ u32_max)%N → usize_try_from n = Some n.
Proof.
  unfold usize_try_from, usize_max, u64_max, u32_max. intros.
  destruct (N.leb_spec n 18446744073709551615); [done | lia].
Qed.

Lemma bytes_at f s r c :
  at_rest c (encode_str s ++ r) → (len s ≤ u32_max)%N →
  ∃ c', CardDecoder_bytes f c = Ok (s, c') ∧ at_rest c' r.
Proof.
  unfold encode_str. rewrite <- app_assoc. intros H Hn.
  destruct (u32_at f _ _ c H Hn) as (c' & E & Hc).
  unfold CardDecoder_bytes. rewrite E. cbn [rbind]. rewrite usize_of_u32 by done.
  cbn [ok_or rbind]. by apply take_at.
Qed.

Lemma read_strings_at f l r c :
  at_rest c (concat (map encode_str l) ++ r) →
  Forall (λ s, len s ≤ u32_max)%N l → Forall (λ s, utf8_valid s = true) l →
  ∃ c', read_strings (length l) f c = Ok (l, c') ∧ at_rest c' r.
Proof.
  intros H Hl Hu. revert c H. induction l as [|s l IH]; intros c H; [by exists c |].
  inversion_clear Hl. inversion_clear Hu. cbn [length read_strings map concat] in *.
  rewrite <- app_assoc in H. destruct (bytes_at f s _ c H) as (c1 & E1 & Hc1); [done |].
  unfold read_string. rewrite E1. cbn [rbind].
  destruct (utf8_valid s); [| done]. cbn [rbind].
  destruct (IH ltac:(done) ltac:(done) c1 Hc1) as (c2 & E2 & Hc2). rewrite E2. by exists c2.
Qed.

Lemma read_string_list_at f l r c :
  at_rest c (encode_list l ++ r) → list_fits l → Forall (λ s, utf8_valid s = true) l →
  ∃ c', read_string_list f c = Ok (l, c') ∧ at_rest c' r.
Proof.
  unfold encode_list. rewrite <- app_assoc. intros H [Hl Hn] Hu.
  destruct (u32_at f _ _ c H Hn) as (c1 & E1 & H1).
  unfold read_string_list. rewrite E1. cbn [rbind]. rewrite usize_of_u32 by done.
  cbn [ok_or rbind]. unfold len. rewrite Nat2N.id. by apply read_strings_at.
Qed.

Lemma finish_at c : at_rest c [] → CardDecoder_finish c = Ok tt.
Proof.
  intros (d & Hb & Ho & _). unfold CardDecoder_finish.
  by rewrite Ho, Hb, app_nil_r, N.eqb_refl.
Qed.

(** ** The reader on arbitrary input *)

(** The cursor [c] stands before [r]. *)
Definition before (c : CardDecoder) (r : bytes) : Prop :=
  ∃ d, cd_bytes c = d ++ r ∧ cd_offset c = len d.

Lemma take_inv f n c r a c' :
  before c r → CardDecoder_take f n c = Ok (a, c') →
  ∃ r', r = a ++ r' ∧ len a = n ∧ before c' r'.
Proof.
  intros (d & Hb & Ho). unfold CardDecoder_take, checked_add_usize, slice_get.
  rewrite Hb, Ho, len_app.
  destruct (N.leb_spec (len d + n) usize_max); cbn [ok_or rbind]; [| done].
  destruct (N.leb_spec (len d) (len d + n)); [| lia].
  destruct (N.leb_spec (len d + n) (len d + len r)) as [Hr|]; cbn [andb]; [| done].
  intros [= <- <-]. unfold len in *.
  replace (N.to_nat (N.of_nat (length d) + n - N.of_nat (length d))) with (N.to_nat n) by lia.
  rewrite Nat2N.id, drop_app_length. exists (drop (N.to_nat n) r).
  split_and!; [by rewrite take_drop | rewrite length_take; lia |].
  exists (d ++ take (N.to_nat n) r). cbn [cd_bytes cd_offset].
  rewrite <- app_assoc, take_drop. split; [done |]. rewrite len_app. unfold len.
  rewrite length_take. lia.
Qed.

Lemma take_total f n c : CardDecoder_take f n c ≠ Panic.
Proof.
  unfold CardDecoder_take. destruct (checked_add_usize _ _); cbn [ok_or rbind]; [| done].
  by destruct (slice_get _ _ _).
Qed.

Lemma take_one f c b c' : CardDecoder_take f 1 c = Ok (b, c') → ∃ x, b = [x].
Proof.
  unfold CardDecoder_take, checked_add_usize, slice_get.
  destruct (N.leb_spec (cd_offset c + 1) usize_max); cbn [ok_or rbind]; [| done].
  destruct (N.leb_spec (cd_offset c) (cd_offset c + 1)); [| lia].
  destruct (N.leb_spec (cd_offset c + 1) (len (cd_bytes c))) as [Hl|]; cbn [andb]; [| done].
  intros [= <- _]. replace (N.to_nat (cd_offset c + 1 - cd_offset c)) with 1 by lia.
  unfold len in Hl. destruct (drop (N.to_nat (cd_offset c)) (cd_bytes c)) as [|x l] eqn:E.
  - apply (f_equal length) in E. rewrite length_drop in E. simpl in E. lia.
  - by exists x.
Qed.

Lemma u8_total f c : CardDecoder_u8 f c ≠ Panic.
Proof.
  unfold CardDecoder_u8. destruct (CardDecoder_take f 1 c) as [[b c']|e|] eqn:E; cbn [rbind].
  - apply take_one in E as [x ->]. done.
  - done.
  - by apply take_total in E.
Qed.

Lemma array_inv n f c r a c' :
  before c r → CardDecoder_array n f c = Ok (a, c') →
  ∃ r', r = a ++ r' ∧ length a = n ∧ before c' r'.
Proof.
  intros Hc. unfold CardDecoder_array. intros ([b c1] & Ht & H)%rbind_Ok.
  apply rbind_Ok in H as (a' & Ha%ok_or_Ok & [= -> ->]).
  apply array_from_slice_Some in Ha as [-> Hl].
  destruct (take_inv _ _ _ _ _ _ Hc Ht) as (r' & -> & _ & Hc'). eauto.
Qed.

Lemma u8_inv f c r x c' :
  before c r → CardDecoder_u8 f c = Ok (x, c') → ∃ r', r = x :: r' ∧ before c' r'.
Proof.
  intros Hc. unfold CardDecoder_u8. intros ([b c1] & Ht & H)%rbind_Ok.
  pose proof (take_one _ _ _ _ Ht) as [y ->]. cbn in H. injection H as -> ->.
  destruct (take_inv _ _ _ _ _ _ Hc Ht) as (r' & -> & _ & Hc'). eauto.
Qed.

Lemma array_total n f c : CardDecoder_array n f c ≠ Panic.
Proof.
  unfold CardDecoder_array. pose proof (take_total f (N.of_nat n) c).
  destruct (CardDecoder_take f (N.of_nat n) c) as [[b c']|e|]; cbn [rbind]; try done.
  by destruct (array_from_slice n b).
Qed.

Lemma bytes_total f c : CardDecoder_bytes f c ≠ Panic.
Proof.
  unfold CardDecoder_bytes, CardDecoder_u32. pose proof (array_total 4 f c).
  destruct (CardDecoder_array 4 f c) as [[b c']|e|]; cbn [rbind]; try done.
  destruct (usize_try_from _); cbn [ok_or rbind]; [apply take_total | done].
Qed.

Lemma read_strings_total n f c : read_strings n f c ≠ Panic.
Proof.
  revert c. induction n as [|n IH]; intros c; cbn [read_strings]; [done |].
  unfold read_string. pose proof (bytes_total f c).
  destruct (CardDecoder_bytes f c) as [[b c']|e|]; cbn [rbind]; try done.
  destruct (utf8_valid b); cbn [rbind]; [| done].
  pose proof (IH c'). by destruct (read_strings n f c') as [[ss c'']|e|].
Qed.

Lemma read_string_list_total f c : read_string_list f c ≠ Panic.
Proof.
  unfold read_string_list, CardDecoder_u32. pose proof (array_total 4 f c).
  destruct (CardDecoder_array 4 f c) as [[b c']|e|]; cbn [rbind]; try done.
  destruct (usize_try_from _); cbn [ok_or rbind]; [apply read_strings_total | done].
Qed.

Lemma u32_inv f c r n c' :
  before c r → CardDecoder_u32 f c = Ok (n, c') → ∃ r', r = to_be_bytes 4 n ++ r' ∧ before c' r'.
Proof.
  intros Hc. unfold CardDecoder_u32. intros ([b c1] & Ha & [= <- <-])%rbind_Ok.
  destruct (array_inv _ _ _ _ _ _ Hc Ha) as (r' & -> & Hl & Hc'). exists r'.
  pose proof (to_from_be_bytes b) as Hb. rewrite Hl in Hb. by rewrite Hb.
Qed.

Lemma read_string_inv f c r s c' :
  before c r → read_string f c = Ok (s, c') →
  ∃ r', r = encode_str s ++ r' ∧ utf8_valid s = true ∧ before c' r'.
Proof.
  intros Hc. unfold read_string, CardDecoder_bytes. intros ([b c1] & Hb & H)%rbind_Ok.
  apply rbind_Ok in Hb as ([n c2] & Hn & Hb). destruct (u32_inv _ _ _ _ _ Hc Hn) as (r1 & -> & H1).
  apply rbind_Ok in Hb as (n' & Hn'%ok_or_Ok & Ht). unfold usize_try_from in Hn'.
  destruct (n <=? usize_max)%N; [| done]. injection Hn' as <-.
  destruct (take_inv _ _ _ _ _ _ H1 Ht) as (r2 & -> & Hl & H2).
  destruct (utf8_valid b) eqn:Hu; [| done]. injection H as <- <-. exists r2. unfold encode_str.
  by rewrite Hl, <- app_assoc.
Qed.

Lemma read_strings_inv f n : ∀ c r ss c',
  before c r → read_strings n f c = Ok (ss, c') →
  ∃ r', r = concat (map encode_str ss) ++ r' ∧ length ss = n ∧ Forall (λ s, utf8_valid s = true) ss ∧ before c' r'.
Proof.
  induction n as [|n IH]; intros c r ss c' Hc; cbn [read_strings].
  - intros [= <- <-]. by exists r.
  - intros ([s c1] & Hs & H)%rbind_Ok. apply rbind_Ok in H as ([ss' c2] & Hss & [= <- <-]).
    destruct (read_string_inv _ _ _ _ _ Hc Hs) as (r1 & -> & Hu & H1).
    destruct (IH _ _ _ _ H1 Hss) as (r2 & -> & <- & Hus & H2). exists r2.
    cbn [map concat length]. rewrite <- app_assoc. split_and!; try done. by constructor.
Qed.

(** A list that was read is its own encoding. *)
Lemma read_string_list_inv f c r ss c' :
  before c r → read_string_list f c = Ok (ss, c') →
  ∃ r', r = encode_list ss ++ r' ∧ Forall (λ s, utf8_valid s = true) ss ∧ before c' r'.
Proof.
  intros Hc. unfold read_string_list. intros ([n c1] & Hn & H)%rbind_Ok.
  destruct (u32_inv _ _ _ _ _ Hc Hn) as (r1 & -> & H1).
  apply rbind_Ok in H as (n' & Hn'%ok_or_Ok & H). unfold usize_try_from in Hn'.
  destruct (n <=? usize_max)%N; [| done]. injection Hn' as <-.
  destruct (read_strings_inv _ _ _ _ _ _ H1 H) as (r2 & -> & Hl & Hu & H2). exists r2.
  unfold encode_list, len. rewrite Hl, N2Nat.id, <- app_assoc. done.
Qed.

Lemma map_result_ok_or_total {A B E} (g : A → option B) (e : E) l :
  map_result (λ a, ok_or (g a) e) l ≠ Panic.
Proof.
  induction l as [|a l IH]; cbn [map_result]; [done |].
  destruct (g a); cbn [ok_or rbind]; [| done].
  by destruct (map_result _ l).
Qed.

Lemma finish_inv c r : before c r → CardDecoder_finish c = Ok tt → r = [].
Proof.
  intros (d & Hb & Ho). unfold CardDecoder_finish. rewrite Hb, Ho, len_app.
  destruct (N.eqb_spec (len d) (len d + len r)); [| done]. intros _.
  destruct r; [done |]. unfold len in *. simpl length in *. lia.
Qed.

(** ** Properties of cards *)

Section CardProperties.
Context `{PR : Primitives} `{PL : !PrimitivesLaws} `{UL : UrlLib} `{ULL : !UrlLaws} {B64 : Base64}.

(** The values of the Rust types: arrays of 32 bytes, socket addresses in
    range, and no IPv6 flow label (the text form drops it). *)
Definition addr_printable (a : SocketAddr) : Prop :=
  SocketAddr_wf a ∧ match a with V6 _ _ flowinfo _ => flowinfo = 0%N | _ => True end.

Definition endpoint_wf (e : IrohEndpointAddr) : Prop :=
  length (endpoint_id e) = 32 ∧ Forall addr_printable (direct_addrs e).

Definition card_wf (c : PeerCard) : Prop :=
  length (PeerId_to_bytes (peer_id c)) = PEER_ID_LEN ∧ length (exchange_key c) = 32
  ∧ match iroh_endpoint c with Some e => endpoint_wf e | None => True end.

Definition endpoint_fits (o : option IrohEndpointAddr) : Prop :=
  match o with
  | None => True
  | Some e => list_fits (map url_as_str (relay_urls e))
              ∧ list_fits (map SocketAddr_to_string (direct_addrs e))
  end.

Definition encode_endpoint (o : option IrohEndpointAddr) : bytes :=
  match o with
  | None => [x00]
  | Some e => [x01] ++ endpoint_id e ++ encode_list (map url_as_str (relay_urls e))
              ++ encode_list (map SocketAddr_to_string (direct_addrs e))
  end.

Definition encode_card (c : PeerCard) : bytes :=
  [PEER_CARD_RECORD_VERSION] ++ PeerId_to_bytes (peer_id c) ++ vk_to_bytes (signing_key c)
  ++ exchange_key c ++ encode_endpoint (iroh_endpoint c).

Lemma write_endpoint_eq {E} out o :
  (endpoint_fits o ∧ write_endpoint (E:=E) out o = Ok (out ++ encode_endpoint o))
  ∨ (¬ endpoint_fits o ∧ write_endpoint (E:=E) out o = Panic).
Proof.
  destruct o as [e|]; cbn [write_endpoint endpoint_fits encode_endpoint]; [| by left].
  rewrite write_string_list_eq. case_decide as H1; cbn [rbind]; [| right; naive_solver].
  rewrite write_string_list_eq. case_decide as H2; [| right; naive_solver].
  left. split; [done |]. by rewrite <- !app_assoc.
Qed.

Lemma PeerCard_to_bytes_Ok {E} c b :
  PeerCard_to_bytes (E:=E) c = Ok b ↔ endpoint_fits (iroh_endpoint c) ∧ b = encode_card c.
Proof.
  unfold PeerCard_to_bytes, encode_card.
  destruct (write_endpoint_eq (E:=E) ([PEER_CARD_RECORD_VERSION] ++ PeerId_to_bytes (peer_id c)
     ++ vk_to_bytes (signing_key c) ++ exchange_key c) (iroh_endpoint c)) as [[H ->]|[H ->]].
  - rewrite <- !app_assoc. naive_solver.
  - naive_solver.
Qed.

Lemma parse_addr_printable a :
  addr_printable a → parse_SocketAddr (SocketAddr_to_string a) = Some a.
Proof.
  intros [Hwf Hf]. rewrite parse_SocketAddr_to_string by done. by destruct a; subst.
Qed.

Lemma read_endpoint_at o r c :
  at_rest c (encode_endpoint o ++ r) → endpoint_fits o →
  match o with Some e => endpoint_wf e | None => True end →
  ∃ c', read_endpoint c = Ok (o, c') ∧ at_rest c' r.
Proof.
  destruct o as [[id urls addrs]|]; cbn [encode_endpoint endpoint_fits]; unfold read_endpoint.
  - intros H [Hf1 Hf2] [Hid Ha]. cbn [relay_urls direct_addrs endpoint_id] in *.
    repeat rewrite <- app_assoc in H. cbn [app] in H.
    destruct (u8_at (lit "iroh endpoint flag") _ _ _ H) as (c1 & -> & H1). cbn [rbind].
    rewrite decide_False, decide_True by done.
    destruct (array_at 32 (lit "iroh endpoint id") _ _ _ H1 Hid) as (c2 & -> & H2). cbn [rbind].
    destruct (read_string_list_at (lit "relay url") _ _ _ H2 Hf1) as (c3 & -> & H3).
    { apply Forall_map, Forall_true. intros u. apply url_as_str_utf8. }
    cbn [rbind]. rewrite (map_result_map_Ok _ _ (λ u, u));
      [| intros u _; by rewrite url_parse_as_str].
    cbn [rbind].
    destruct (read_string_list_at (lit "direct address") _ _ _ H3 Hf2) as (c4 & -> & H4).
    { apply Forall_map, Forall_true. intros u. apply SocketAddr_to_string_utf8. }
    cbn [rbind]. rewrite (map_result_map_Ok _ _ (λ u, u)).
    2: { intros a Hin. rewrite parse_addr_printable; [done |]. rewrite Forall_forall in Ha. auto. }
    cbn [rbind]. rewrite !map_id. by exists c4.
  - intros H _ _. cbn [app] in H.
    destruct (u8_at (lit "iroh endpoint flag") _ _ _ H) as (c1 & -> & H1). cbn [rbind].
    rewrite decide_True by done. by exists c1.
Qed.

Lemma from_bytes_encode_card c :
  card_wf c → endpoint_fits (iroh_endpoint c) → (len (encode_card c) ≤ usize_max)%N →
  PeerCard_from_bytes (encode_card c) = (let! _ := PeerCard_validate c in Ok c).
Proof.
  destruct c as [[id] vk ex ep]. intros (Hid & Hex & Hep) Hfit Hlen.
  pose proof (at_rest_new _ Hlen) as H0. unfold PeerCard_from_bytes, encode_card in *.
  cbn [peer_id signing_key exchange_key iroh_endpoint PeerId_to_bytes app] in *.
  unfold CardDecoder_version.
  destruct (u8_at (lit "version") _ _ _ H0) as (c1 & -> & H1). cbn [rbind].
  rewrite decide_False by (intros []; done). cbn [rbind].
  destruct (array_at PEER_ID_LEN (lit "peer id") _ _ _ H1 Hid) as (c2 & -> & H2). cbn [rbind].
  destruct (array_at 32 (lit "signing key") _ _ _ H2 (vk_to_bytes_length vk)) as (c3 & -> & H3).
  cbn [rbind]. rewrite vk_from_to_bytes. cbn [rbind ok_or].
  destruct (array_at 32 (lit "exchange key") _ _ _ H3 Hex) as (c4 & -> & H4). cbn [rbind].
  rewrite <- (app_nil_r (encode_endpoint ep)) in H4.
  destruct (read_endpoint_at _ _ _ H4 Hfit Hep) as (c5 & -> & H5). cbn [rbind].
  by rewrite finish_at.
Qed.

Lemma read_endpoint_total c : read_endpoint c ≠ Panic.
Proof.
  unfold read_endpoint. pose proof (u8_total (lit "iroh endpoint flag") c).
  destruct (CardDecoder_u8 _ c) as [[x c1]|?|]; cbn [rbind]; try done.
  destruct (decide (x = x00)); [done |]. destruct (decide (x = x01)); [| done].
  pose proof (array_total 32 (lit "iroh endpoint id") c1).
  destruct (CardDecoder_array 32 _ c1) as [[id c2]|?|]; cbn [rbind]; try done.
  pose proof (read_string_list_total (lit "relay url") c2).
  destruct (read_string_list _ c2) as [[us c3]|?|]; cbn [rbind]; try done.
  pose proof (map_result_ok_or_total url_parse PeerCardError_InvalidRelayUrl us).
  destruct (map_result _ us); cbn [rbind]; try done.
  pose proof (read_string_list_total (lit "direct address") c3).
  destruct (read_string_list _ c3) as [[ads c4]|?|]; cbn [rbind]; try done.
  pose proof (map_result_ok_or_total parse_SocketAddr PeerCardError_InvalidDirectAddr ads).
  by destruct (map_result _ ads).
Qed.

Lemma PeerCard_validate_total c : PeerCard_validate c ≠ Panic.
Proof. unfold PeerCard_validate. by repeat case_match. Qed.

Lemma PeerCard_validate_Ok c :
  PeerCard_validate c = Ok tt ↔
  peer_id c = PeerId_from_signing_key (signing_key c) ∧ all_zero (exchange_key c) = false
  ∧ match iroh_endpoint c with Some e => all_zero (endpoint_id e) = false | None => True end.
Proof.
  unfold PeerCard_validate, is_consistent.
  destruct (bool_decide_reflect (peer_id c = PeerId_from_signing_key (signing_key c)));
    cbn [negb]; [| naive_solver].
  destruct (all_zero (exchange_key c)); [naive_solver |].
  destruct (iroh_endpoint c) as [ep|]; [destruct (all_zero (endpoint_id ep)) |]; naive_solver.
Qed.

(** The last part of a record: the flag, and for an endpoint its id and two
    lists of texts that parse to the addresses of the card.  Nothing else. *)
Definition endpoint_record (o : option IrohEndpointAddr) (tail : bytes) : Prop :=
  match o with
  | None => tail = [x00]
  | Some e =>
      length (endpoint_id e) = 32
      ∧ ∃ urls addrs, tail = [x01] ++ endpoint_id e ++ encode_list urls ++ encode_list addrs
          ∧ Forall2 (λ s u, url_parse s = Some u) urls (relay_urls e)
          ∧ Forall2 (λ s a, parse_SocketAddr s = Some a) addrs (direct_addrs e)
          ∧ Forall (λ s, utf8_valid s = true) (urls ++ addrs)
  end.

Lemma map_result_ok_or {A B E} (f : A → option B) (e : E) l l' :
  map_result (λ x, ok_or (f x) e) l = Ok l' → Forall2 (λ x y, f x = Some y) l l'.
Proof.
  intros H%map_result_Ok_Forall2. eapply Forall2_impl; [exact H |]. intros x y Hxy. by apply ok_or_Ok in Hxy.
Qed.

Lemma read_endpoint_inv c r o c' :
  before c r → read_endpoint c = Ok (o, c') → ∃ tail r', r = tail ++ r' ∧ endpoint_record o tail ∧ before c' r'.
Proof.
  intros Hc. unfold read_endpoint. intros ([x c1] & Hx & H)%rbind_Ok.
  destruct (u8_inv _ _ _ _ _ Hc Hx) as (r' & -> & Hc').
  destruct (decide (x = x00)) as [->|]; [injection H as <- <-; by exists [x00], r' |].
  destruct (decide (x = x01)) as [->|]; [| done].
  apply rbind_Ok in H as ([id c2] & Hid & H). destruct (array_inv _ _ _ _ _ _ Hc' Hid) as (r2 & -> & Hl & H2).
  apply rbind_Ok in H as ([us c3] & Hus & H).
  destruct (read_string_list_inv _ _ _ _ _ H2 Hus) as (r3 & -> & Hu & H3).
  apply rbind_Ok in H as (urls & Hurls%map_result_ok_or & H). apply rbind_Ok in H as ([ads c4] & Hads & H).
  destruct (read_string_list_inv _ _ _ _ _ H3 Hads) as (r4 & -> & Ha & H4).
  apply rbind_Ok in H as (addrs & Haddrs%map_result_ok_or & [= <- <-]).
  exists ([x01] ++ id ++ encode_list us ++ encode_list ads), r4.
  cbn [app]. rewrite <- !app_assoc. split; [done |]. split; [| done].
  split; [done |]. exists us, ads. split_and!; try done. by apply Forall_app.
Qed.

(** ** The codec of cards *)

(** A valid card survives its binary and its text encoding: when
    [to_bytes] returns (it panics only when a list or string exceeds the
    [u32] length prefix), [from_bytes] of the record is the card itself, and
    so is [import_string] of the exported text. *)
Lemma peer_card_roundtrip (c : PeerCard) (b : bytes) :
  card_wf c → PeerCard_validate c = Ok tt →
  PeerCard_to_bytes (E:=PeerCardError) c = Ok b → (len b ≤ usize_max)%N →
  PeerCard_from_bytes b = Ok c
  ∧ export_string (E:=PeerCardError) c = Ok (PEER_CARD_EXPORT_PREFIX ++ b64_encode b)
  ∧ import_string (PEER_CARD_EXPORT_PREFIX ++ b64_encode b) = Ok c.
Proof.
  intros Hwf Hv Hb Hlen.
  assert (PeerCard_from_bytes b = Ok c) as Hfrom.
  { apply PeerCard_to_bytes_Ok in Hb as [Hfit ->]. rewrite from_bytes_encode_card by done.
    by rewrite Hv. }
  split_and!; [done | unfold export_string; by rewrite Hb |].
  unfold import_string, strip_prefix. rewrite take_app_length, drop_app_length.
  rewrite decide_True by done. cbn [ok_or rbind]. rewrite b64_decode_encode. done.
Qed.

(** Decoding never panics, and what it accepts is trustworthy: the peer id
    is the one derived from the signing key, the keys are 32 bytes and not all
    zero; the record is the version byte, the id, the signing key, the
    exchange key and the endpoint, with nothing after it. *)
Lemma peer_card_from_bytes_sound (b : bytes) :
  PeerCard_from_bytes b ≠ Panic
  ∧ ∀ c, PeerCard_from_bytes b = Ok c →
      peer_id c = PeerId_from_signing_key (signing_key c)
      ∧ all_zero (exchange_key c) = false ∧ length (exchange_key c) = 32
      ∧ (∀ e, iroh_endpoint c = Some e → all_zero (endpoint_id e) = false)
      ∧ ∃ tail, b = [PEER_CARD_RECORD_VERSION] ++ PeerId_to_bytes (peer_id c)
                    ++ vk_to_bytes (signing_key c) ++ exchange_key c ++ tail
                ∧ endpoint_record (iroh_endpoint c) tail.
Proof.
  split.
  - unfold PeerCard_from_bytes, CardDecoder_version.
    pose proof (u8_total (lit "version") (CardDecoder_new b)).
    destruct (CardDecoder_u8 _ _) as [[x c1]|?|]; cbn [rbind]; try done.
    destruct (decide (x ≠ PEER_CARD_RECORD_VERSION)); cbn [rbind]; [done |].
    pose proof (array_total PEER_ID_LEN (lit "peer id") c1).
    destruct (CardDecoder_array _ _ c1) as [[id c2]|?|]; cbn [rbind]; try done.
    pose proof (array_total 32 (lit "signing key") c2).
    destruct (CardDecoder_array _ _ c2) as [[key c3]|e|]; cbn [rbind]; try done.
    destruct (vk_from_bytes key); cbn [ok_or rbind]; [| done].
    pose proof (array_total 32 (lit "exchange key") c3).
    destruct (CardDecoder_array _ _ c3) as [[ex c4]|e|]; cbn [rbind]; try done.
    pose proof (read_endpoint_total c4).
    destruct (read_endpoint c4) as [[ep c5]|e|]; cbn [rbind]; try done.
    unfold CardDecoder_finish. destruct (_ =? _)%N; cbn [rbind]; [| done].
    match goal with |- context [PeerCard_validate ?c] =>
      pose proof (PeerCard_validate_total c); by destruct (PeerCard_validate c) end.
  - intros c H. unfold PeerCard_from_bytes, CardDecoder_version in H.
    assert (before (CardDecoder_new b) b) as H0 by (by exists []).
    apply rbind_Ok in H as ([[] c1] & Hv & H). apply rbind_Ok in Hv as ([x c1'] & Hx & Hv).
    destruct (decide (x ≠ PEER_CARD_RECORD_VERSION)) as [|Hver]; [done |].
    injection Hv as ->. destruct (u8_inv _ _ _ _ _ H0 Hx) as (r1 & -> & H1).
    apply rbind_Ok in H as ([id c2] & Hid & H).
    destruct (array_inv _ _ _ _ _ _ H1 Hid) as (r2 & -> & Hidl & H2).
    apply rbind_Ok in H as ([key c3] & Hkey & H).
    destruct (array_inv _ _ _ _ _ _ H2 Hkey) as (r3 & -> & Hkeyl & H3).
    apply rbind_Ok in H as (vk & Hvk%ok_or_Ok & H). apply vk_to_from_bytes in Hvk as <-.
    apply rbind_Ok in H as ([ex c4] & Hex & H).
    destruct (array_inv _ _ _ _ _ _ H3 Hex) as (r4 & -> & Hexl & H4).
    apply rbind_Ok in H as ([ep c5] & Hep & H).
    apply rbind_Ok in H as ([] & Hfin & H).
    apply rbind_Ok in H as ([] & [Hc [Hz Hez]]%PeerCard_validate_Ok & [= <-]).
    cbn [peer_id signing_key exchange_key iroh_endpoint PeerId_to_bytes PeerId_from_bytes] in *.
    destruct (read_endpoint_inv _ _ _ _ H4 Hep) as (tail & r5 & -> & Hrec & H5).
    rewrite (finish_inv _ _ H5 Hfin), app_nil_r. split_and!; [done | done | done | by intros e -> |].
    exists tail. split; [by apply dec_stable in Hver as -> | done].
Qed.

(** ** Claims *)

End CardProperties.

(** The identity base64 for the witnesses. *)
Definition toy_base64 : Base64 := {| b64_encode b := b; b64_decode b := Some b; b64_decode_encode _ := eq_refl |}.

Module PeerCardWitness.
Import Toy.

Definition toy_endpoint : IrohEndpointAddr (UL:=ToyUrl.toy_url) :=
  MkIrohEndpointAddr (UL:=ToyUrl.toy_url) (key_bytes x07) []
    [V4 (Ipv4 x7f x00 x00 x01) 80; V6 (Ipv6 [0x2001; 0xdb8; 0; 0; 0; 0; 0; 1]%N) 443 0 0].

Definition toy_card : PeerCard (UL:=ToyUrl.toy_url) :=
  PeerCard_new (UL:=ToyUrl.toy_url) x01 (key_bytes x02) (Some toy_endpoint).

End PeerCardWitness.
