(* ===== verification/Msgpack.v ===== *)
(** * The MessagePack codec

    [rmp_serde::to_vec_named] and [rmp_serde::from_slice] are third-party:
    one class per serialized type, whose law is that decoding inverts
    encoding.  A decoding failure carries the text of the codec's error.  The
    instance [toy_msgpack] shows that the law can be met for every countable
    type. *)

From S2P Require Import Prelude Bytes.

Class Msgpack (A : Type) := {
  to_vec_named : A → bytes + bytes;
  from_slice : bytes → A + bytes
}.

Class MsgpackLaws (A : Type) `{MP : Msgpack A} := {
  from_slice_to_vec_named : ∀ (a : A) b, to_vec_named a = inl b → from_slice b = inl a
}.

(** A Rust [Result] without panics. *)
Definition of_sum {T F E} (f : F → E) (s : T + F) : result T E :=
  match s with
  | inl t => Ok t
  | inr e => Err (f e)
  end.

Lemma of_sum_Ok {T F E} (f : F → E) (s : T + F) t : of_sum f s = Ok t ↔ s = inl t.
Proof. destruct s; simpl; naive_solver. Qed.

Lemma of_sum_total {T F E} (f : F → E) (s : T + F) : of_sum f s ≠ Panic.
Proof. by destruct s. Qed.

(** ** A concrete codec for countable types: the bits of the code. *)

Fixpoint bits_of (p : positive) : bytes :=
  match p with
  | xH => []
  | xO p => x00 :: bits_of p
  | xI p => x01 :: bits_of p
  end.

Fixpoint of_bits (l : bytes) : option positive :=
  match l with
  | [] => Some xH
  | x00 :: l => xO <$> of_bits l
  | x01 :: l => xI <$> of_bits l
  | _ => None
  end.

Lemma of_bits_of p : of_bits (bits_of p) = Some p.
Proof. induction p as [p IH|p IH|]; simpl; rewrite ?IH; done. Qed.

Section Toy.
Context {A : Type} `{Countable A}.

Definition toy_msgpack : Msgpack A := {|
  to_vec_named a := inl (bits_of (encode a));
  from_slice b :=
    match of_bits b with
    | Some p => match decode p with Some a => inl a | None => inr [] end
    | None => inr []
    end
|}.

Lemma toy_msgpack_laws : MsgpackLaws A (MP:=toy_msgpack).
Proof.
  split. simpl. intros a b [= <-]. by rewrite of_bits_of, decode_encode.
Qed.
End Toy.
