(* ===== verification/State.v ===== *)
(** * state.rs: endpoint-local state

    [InMemoryInner] holds the slot-version counters, the high-water marks,
    the key material, the trusted peers and the group keys; the two stores
    wrap it behind a lock (each method is one atomic step), the file store
    also rewriting a snapshot through a temporary file and a rename.  The
    trait [StateStore] is the class of that name.  A [HashMap] is a [gmap]:
    its iteration order is unspecified in Rust and arbitrary here. *)

From S2P Require Import Prelude Bytes Crypto Kdf Net Guard Errors Dedup Config PeerCard Msgpack.

(** A method on shared state: the new state comes with the outcome, because
    a failing method may have changed memory already. *)
Definition stateful (S A E : Type) : Type := S → result A E * S.

Definition unsupported_state (record : bytes) : StateError :=
  StateError_Unsupported (record ++ lit " storage").

Definition backend_error (err : bytes) : StateError := StateError_Backend err.

Definition SNAPSHOT_VERSION : N := 1.

Section State.
Context `{PR : Primitives} `{UL : UrlLib}.

(** ** The trait *)

Class StateStore (S : Type) := {
  next_local_slot_version : bytes → stateful S N StateError;
  last_seen_slot_version : bytes → S → result (option N) StateError;
  record_seen_slot_version : bytes → N → stateful S unit StateError;
  iroh_keypair : S → result (option bytes) StateError;
  store_iroh_keypair : bytes → stateful S unit StateError;
  peer_identity : S → result (option PeerIdentity) StateError;
  store_peer_identity : PeerIdentity → stateful S unit StateError;
  trusted_peer : PeerId → S → result (option TrustedPeer) StateError;
  trusted_peers : S → result (list TrustedPeer) StateError;
  store_trusted_peer : TrustedPeer → stateful S unit StateError;
  remove_trusted_peer : PeerId → stateful S unit StateError;
  group_keys : GroupId → S → result (list GroupKey) StateError;
  store_group_key : GroupId → GroupKey → stateful S unit StateError;
  remove_group_key : GroupId → GroupKeyId → stateful S unit StateError
}.

(** The provided methods of the trait, for a backend that implements only
    the five required ones. *)
Definition default_store {S : Type} (next : bytes → stateful S N StateError)
    (last : bytes → S → result (option N) StateError)
    (rec : bytes → N → stateful S unit StateError)
    (kp : S → result (option bytes) StateError)
    (skp : bytes → stateful S unit StateError) : StateStore S := {|
  next_local_slot_version := next;
  last_seen_slot_version := last;
  record_seen_slot_version := rec;
  iroh_keypair := kp;
  store_iroh_keypair := skp;
  peer_identity _ := Err (unsupported_state (lit "peer identity"));
  store_peer_identity _ s := (Err (unsupported_state (lit "peer identity")), s);
  trusted_peer _ _ := Err (unsupported_state (lit "trusted peer"));
  trusted_peers _ := Err (unsupported_state (lit "trusted peer"));
  store_trusted_peer _ s := (Err (unsupported_state (lit "trusted peer")), s);
  remove_trusted_peer _ s := (Err (unsupported_state (lit "trusted peer")), s);
  group_keys _ _ := Err (unsupported_state (lit "group key"));
  store_group_key _ _ s := (Err (unsupported_state (lit "group key")), s);
  remove_group_key _ _ s := (Err (unsupported_state (lit "group key")), s)
|}.

(** ** Identity material at rest *)

Record StoredPeerIdentity : Type := MkStoredPeerIdentity {
  st_signing : bytes;
  st_exchange : bytes;
  st_iroh_secret : option bytes
}.

Definition from_identity (i : PeerIdentity) : StoredPeerIdentity :=
  MkStoredPeerIdentity (sk_to_bytes (signing i)) (secret_to_bytes (exchange i)) (iroh_secret i).

Definition to_identity (s : StoredPeerIdentity) : PeerIdentity :=
  PeerIdentity_from_parts (sk_from_bytes (st_signing s)) (secret_from_bytes (st_exchange s))
    (st_iroh_secret s).

(** ** The in-memory tables *)

Record InMemoryInner : Type := MkInner {
  in_local : gmap bytes N;
  in_last_seen : gmap bytes N;
  in_iroh_keypair : option bytes;
  in_peer_identity : option StoredPeerIdentity;
  in_trusted : gmap PeerId TrustedPeer;
  in_group_keys : gmap (GroupId * GroupKeyId) GroupKey
}.

Definition Inner_default : InMemoryInner := MkInner ∅ ∅ None None ∅ ∅.

Definition set_local (f : gmap bytes N → gmap bytes N) (i : InMemoryInner) : InMemoryInner :=
  MkInner (f (in_local i)) (in_last_seen i) (in_iroh_keypair i) (in_peer_identity i)
    (in_trusted i) (in_group_keys i).

Definition set_last_seen (f : gmap bytes N → gmap bytes N) (i : InMemoryInner) : InMemoryInner :=
  MkInner (in_local i) (f (in_last_seen i)) (in_iroh_keypair i) (in_peer_identity i)
    (in_trusted i) (in_group_keys i).

Definition set_trusted (f : gmap PeerId TrustedPeer → gmap PeerId TrustedPeer) (i : InMemoryInner)
    : InMemoryInner :=
  MkInner (in_local i) (in_last_seen i) (in_iroh_keypair i) (in_peer_identity i)
    (f (in_trusted i)) (in_group_keys i).

Definition set_group_keys
    (f : gmap (GroupId * GroupKeyId) GroupKey → gmap (GroupId * GroupKeyId) GroupKey)
    (i : InMemoryInner) : InMemoryInner :=
  MkInner (in_local i) (in_last_seen i) (in_iroh_keypair i) (in_peer_identity i)
    (in_trusted i) (f (in_group_keys i)).

(** [checked_add(1)] on [u64]. *)
Definition checked_succ_u64 (n : N) : option N :=
  if (n + 1 <=? u64_max)%N then Some (n + 1)%N else None.

(** The entry exists (at 0) before the overflow check can panic. *)
Definition Inner_next_local_slot_version {E} (slot : bytes) : stateful InMemoryInner N E := λ i,
  let observed := default 0%N (in_last_seen i !! slot) in
  let entry := default 0%N (in_local i !! slot) in
  let i := set_local (insert slot entry) i in
  let floor := N.max entry observed in
  match checked_succ_u64 floor with
  | None => (Panic, i)
  | Some next => (Ok next, set_local (insert slot next) i)
  end.

Definition Inner_last_seen_slot_version (slot : bytes) (i : InMemoryInner) : option N :=
  in_last_seen i !! slot.

Definition Inner_record_seen_slot_version (slot : bytes) (version : N) (i : InMemoryInner)
    : bool * InMemoryInner :=
  match in_last_seen i !! slot with
  | Some current =>
      if (version <=? current)%N then (false, i)
      else (true, set_last_seen (insert slot version) i)
  | None => (true, set_last_seen (insert slot version) i)
  end.

Definition Inner_iroh_keypair (i : InMemoryInner) : option bytes := in_iroh_keypair i.

Definition Inner_store_iroh_keypair (secret : bytes) (i : InMemoryInner) : InMemoryInner :=
  MkInner (in_local i) (in_last_seen i) (Some secret) (in_peer_identity i) (in_trusted i)
    (in_group_keys i).

Definition Inner_peer_identity (i : InMemoryInner) : option PeerIdentity :=
  to_identity <$> in_peer_identity i.

Definition Inner_store_peer_identity (id : PeerIdentity) (i : InMemoryInner) : InMemoryInner :=
  MkInner (in_local i) (in_last_seen i) (in_iroh_keypair i) (Some (from_identity id))
    (in_trusted i) (in_group_keys i).

Definition Inner_trusted_peer (p : PeerId) (i : InMemoryInner) : option TrustedPeer :=
  in_trusted i !! p.

Definition Inner_trusted_peers (i : InMemoryInner) : list TrustedPeer :=
  snd <$> map_to_list (in_trusted i).

Definition Inner_store_trusted_peer (t : TrustedPeer) (i : InMemoryInner) : InMemoryInner :=
  set_trusted (insert (TrustedPeer_peer_id t) t) i.

Definition Inner_remove_trusted_peer (p : PeerId) (i : InMemoryInner) : bool * InMemoryInner :=
  (bool_decide (is_Some (in_trusted i !! p)), set_trusted (delete p) i).

Definition Inner_group_keys (g : GroupId) (i : InMemoryInner) : list GroupKey :=
  snd <$> filter (λ e : (GroupId * GroupKeyId) * GroupKey, e.1.1 = g) (map_to_list (in_group_keys i)).

Definition Inner_store_group_key (g : GroupId) (k : GroupKey) (i : InMemoryInner) : InMemoryInner :=
  set_group_keys (insert (g, gk_id k) k) i.

Definition Inner_remove_group_key (g : GroupId) (k : GroupKeyId) (i : InMemoryInner)
    : bool * InMemoryInner :=
  (bool_decide (is_Some (in_group_keys i !! (g, k))), set_group_keys (delete (g, k)) i).

(** ** The in-memory store *)

#[export] Instance InMemoryStateStore : StateStore InMemoryInner := {|
  next_local_slot_version slot := Inner_next_local_slot_version slot;
  last_seen_slot_version slot i := Ok (Inner_last_seen_slot_version slot i);
  record_seen_slot_version slot v i := (Ok tt, (Inner_record_seen_slot_version slot v i).2);
  iroh_keypair i := Ok (Inner_iroh_keypair i);
  store_iroh_keypair secret i := (Ok tt, Inner_store_iroh_keypair secret i);
  peer_identity i := Ok (Inner_peer_identity i);
  store_peer_identity id i := (Ok tt, Inner_store_peer_identity id i);
  trusted_peer p i := Ok (Inner_trusted_peer p i);
  trusted_peers i := Ok (Inner_trusted_peers i);
  store_trusted_peer t i := (Ok tt, Inner_store_trusted_peer t i);
  remove_trusted_peer p i := (Ok tt, (Inner_remove_trusted_peer p i).2);
  group_keys g i := Ok (Inner_group_keys g i);
  store_group_key g k i := (Ok tt, Inner_store_group_key g k i);
  remove_group_key g k i := (Ok tt, (Inner_remove_group_key g k i).2)
|}.

(** ** The snapshot *)

Record SnapshotPeerIdentity : Type := MkSnapIdentity {
  sn_signing : bytes; sn_exchange : bytes; sn_iroh_secret : option bytes
}.

Record SnapshotIrohEndpoint : Type := MkSnapEndpoint {
  sn_endpoint_id : bytes; sn_relay_urls : list bytes; sn_direct_addrs : list bytes
}.

Record SnapshotTrustedPeer : Type := MkSnapPeer {
  sn_peer_id : bytes; sn_signing_key : bytes; sn_exchange_key : bytes;
  sn_iroh_endpoint : option SnapshotIrohEndpoint
}.

Record SnapshotGroupKey : Type := MkSnapGroupKey {
  sn_group : bytes; sn_id : bytes; sn_secret : bytes
}.

Record Snapshot : Type := MkSnapshot {
  sn_version : N;
  sn_local_slot_versions : gmap bytes N;
  sn_last_seen_slot_versions : gmap bytes N;
  sn_iroh_keypair : option bytes;
  sn_peer_identity : option SnapshotPeerIdentity;
  sn_trusted_peers : list SnapshotTrustedPeer;
  sn_group_keys : list SnapshotGroupKey
}.

Definition snapshot_endpoint (e : IrohEndpointAddr) : SnapshotIrohEndpoint :=
  MkSnapEndpoint (endpoint_id e) (map url_as_str (relay_urls e))
    (map SocketAddr_to_string (direct_addrs e)).

Definition snapshot_peer (t : TrustedPeer) : SnapshotTrustedPeer :=
  MkSnapPeer (PeerId_to_bytes (peer_id (card t))) (vk_to_bytes (signing_key (card t)))
    (exchange_key (card t)) (snapshot_endpoint <$> iroh_endpoint (card t)).

Definition from_inner (i : InMemoryInner) : Snapshot :=
  MkSnapshot SNAPSHOT_VERSION (in_local i) (in_last_seen i) (in_iroh_keypair i)
    ((λ st, MkSnapIdentity (st_signing st) (st_exchange st) (st_iroh_secret st))
       <$> in_peer_identity i)
    (map (λ e : PeerId * TrustedPeer, snapshot_peer e.2) (map_to_list (in_trusted i)))
    (map (λ e : (GroupId * GroupKeyId) * GroupKey,
            MkSnapGroupKey (GroupId_to_bytes e.1.1) (GroupKeyId_to_bytes (gk_id e.2)) (gk_secret e.2))
       (map_to_list (in_group_keys i))).

Definition restore_endpoint (e : SnapshotIrohEndpoint) : result IrohEndpointAddr StateError :=
  let! urls := map_result (λ raw, ok_or (url_parse raw)
                 (StateError_Corrupted (lit "trusted peer relay url invalid"))) (sn_relay_urls e) in
  let! addrs := map_result (λ raw, ok_or (parse_SocketAddr raw)
                 (StateError_Corrupted (lit "trusted peer direct address invalid")))
                 (sn_direct_addrs e) in
  Ok (MkIrohEndpointAddr (sn_endpoint_id e) urls addrs).

(** [Option::map(f).transpose()]. *)
Definition transpose_map {A B E} (f : A → result B E) (o : option A) : result (option B) E :=
  match o with
  | None => Ok None
  | Some a => rmap Some (f a)
  end.

Definition restore_peer (s : SnapshotTrustedPeer) : result TrustedPeer StateError :=
  let! vk := ok_or (vk_from_bytes (sn_signing_key s))
               (StateError_Corrupted (lit "trusted peer signing key invalid")) in
  let! endpoint := transpose_map restore_endpoint (sn_iroh_endpoint s) in
  let c := MkPeerCard (PeerId_from_bytes (sn_peer_id s)) vk (sn_exchange_key s) endpoint in
  map_err (λ err, StateError_Corrupted (lit "trusted peer card is invalid: " ++ PeerCardError_display err))
    (TrustedPeer_try_from_card c).

Definition into_inner (s : Snapshot) : result InMemoryInner StateError :=
  if negb (sn_version s =? SNAPSHOT_VERSION)%N then
    Err (StateError_Corrupted
           (lit "snapshot has unsupported version " ++ u64_to_string (sn_version s)))
  else
    let! trusted :=
      foldl_result (λ m sp, let! t := restore_peer sp in Ok (<[TrustedPeer_peer_id t := t]> m))
        (∅ : gmap PeerId TrustedPeer) (sn_trusted_peers s) in
    let keys :=
      foldl (λ m sk, let group := GroupId_from_bytes (sn_group sk) in
                     let id := GroupKeyId_from_bytes (sn_id sk) in
                     <[(group, id) := GroupKey_new id (sn_secret sk)]> m)
        (∅ : gmap (GroupId * GroupKeyId) GroupKey) (sn_group_keys s) in
    Ok (MkInner (sn_local_slot_versions s) (sn_last_seen_slot_versions s) (sn_iroh_keypair s)
          ((λ st, MkStoredPeerIdentity (sn_signing st) (sn_exchange st) (sn_iroh_secret st))
             <$> sn_peer_identity s)
          trusted keys).

Context {MP : Msgpack Snapshot}.

Definition Snapshot_encode (s : Snapshot) : result bytes StateError :=
  of_sum backend_error (to_vec_named s).

Definition Snapshot_decode (b : bytes) : result Snapshot StateError :=
  of_sum (λ err, StateError_Corrupted (lit "snapshot decode failed: " ++ err)) (from_slice b).

(** ** The file store

    The directory holds the state file and the temporary file.  A flush is a
    sequence of file-system calls; their outcomes are inputs: [fs::write] may
    fail with anything left in the file it writes, [fs::rename] replaces its
    target or changes nothing. *)

Record Disk : Type := MkDisk { disk_file : option bytes; disk_tmp : option bytes }.

Inductive state_path : Type := FilePath | TmpPath.

Definition disk_at (p : state_path) (d : Disk) : option bytes :=
  match p with FilePath => disk_file d | TmpPath => disk_tmp d end.

Definition disk_set (p : state_path) (v : option bytes) (d : Disk) : Disk :=
  match p with FilePath => MkDisk v (disk_tmp d) | TmpPath => MkDisk (disk_file d) v end.

Inductive fs_call : Type :=
| FsWrite (p : state_path) (b : bytes)
| FsRename (from to : state_path).

(** What a call does when it succeeds. *)
Definition fs_done (call : fs_call) (d : Disk) : Disk :=
  match call with
  | FsWrite p b => disk_set p (Some b) d
  | FsRename from to => disk_set to (disk_at from d) (disk_set from None d)
  end.

Inductive WriteOutcome : Type := WriteOk | WriteErr (leftover : option bytes) (err : bytes).
Inductive RenameOutcome : Type := RenameOk | RenameErr (err : bytes).

Record FlushIo : Type := MkFlushIo { io_write : WriteOutcome; io_rename : RenameOutcome }.

Definition fs_run (io : FlushIo) (call : fs_call) (d : Disk) : result unit StateError * Disk :=
  match call with
  | FsWrite p b =>
      match io_write io with
      | WriteOk => (Ok tt, fs_done call d)
      | WriteErr leftover err => (Err (backend_error err), disk_set p leftover d)
      end
  | FsRename _ _ =>
      match io_rename io with
      | RenameOk => (Ok tt, fs_done call d)
      | RenameErr err => (Err (backend_error err), d)
      end
  end.

(** One call after the other, up to the first error. *)
Fixpoint fs_run_all (io : FlushIo) (calls : list fs_call) (d : Disk) : result unit StateError * Disk :=
  match calls with
  | [] => (Ok tt, d)
  | call :: calls =>
      match fs_run io call d with
      | (Ok _, d) => fs_run_all io calls d
      | (r, d) => (r, d)
      end
  end.

(** The calls of a flush: the snapshot goes to the temporary file, which then
    replaces the state file.  Neither file is synced. *)
Definition flush_calls (i : InMemoryInner) : result (list fs_call) StateError :=
  let! b := Snapshot_encode (from_inner i) in
  Ok [FsWrite TmpPath b; FsRename TmpPath FilePath].

Definition flush_locked (io : FlushIo) (i : InMemoryInner) (d : Disk) : result unit StateError * Disk :=
  match flush_calls i with
  | Err e => (Err e, d)
  | Panic => (Panic, d)
  | Ok calls => fs_run_all io calls d
  end.

(** [open], with the outcomes of [create_dir_all] and of a read that fails
    for another reason than a missing file. *)
Definition FileStateStore_open (mkdir_err read_err : option bytes) (d : Disk)
    : result InMemoryInner StateError :=
  match mkdir_err with
  | Some err => Err (backend_error err)
  | None =>
      match read_err with
      | Some err => Err (backend_error err)
      | None =>
          match disk_file d with
          | None => Ok Inner_default
          | Some b => let! s := Snapshot_decode b in into_inner s
          end
      end
  end.

(** An open store: memory, disk, and the outcomes of its future flushes. *)
Record FileStateStore : Type := MkFileStore {
  fs_inner : InMemoryInner;
  fs_disk : Disk;
  fs_io : nat → FlushIo
}.

Definition flush (i : InMemoryInner) (f : FileStateStore) : result unit StateError * FileStateStore :=
  let '(r, d) := flush_locked (fs_io f 0) i (fs_disk f) in
  (r, MkFileStore i d (λ n, fs_io f (S n))).

Definition with_inner (i : InMemoryInner) (f : FileStateStore) : FileStateStore :=
  MkFileStore i (fs_disk f) (fs_io f).

(** [if changed { self.flush_locked(&inner)?; } Ok(())]. *)
Definition flush_if (r : bool * InMemoryInner) (f : FileStateStore)
    : result unit StateError * FileStateStore :=
  if r.1 then flush r.2 f else (Ok tt, with_inner r.2 f).

#[export] Instance FileStateStore_store : StateStore FileStateStore := {|
  next_local_slot_version slot f :=
    let '(r, i) := Inner_next_local_slot_version slot (fs_inner f) in
    match r with
    | Ok next =>
        let '(w, f) := flush i f in
        (let! _ := w in Ok next, f)
    | Err e => (Err e, with_inner i f)
    | Panic => (Panic, with_inner i f)
    end;
  last_seen_slot_version slot f := Ok (Inner_last_seen_slot_version slot (fs_inner f));
  record_seen_slot_version slot v f := flush_if (Inner_record_seen_slot_version slot v (fs_inner f)) f;
  iroh_keypair f := Ok (Inner_iroh_keypair (fs_inner f));
  store_iroh_keypair secret f := flush (Inner_store_iroh_keypair secret (fs_inner f)) f;
  peer_identity f := Ok (Inner_peer_identity (fs_inner f));
  store_peer_identity id f := flush (Inner_store_peer_identity id (fs_inner f)) f;
  trusted_peer p f := Ok (Inner_trusted_peer p (fs_inner f));
  trusted_peers f := Ok (Inner_trusted_peers (fs_inner f));
  store_trusted_peer t f := flush (Inner_store_trusted_peer t (fs_inner f)) f;
  remove_trusted_peer p f := flush_if (Inner_remove_trusted_peer p (fs_inner f)) f;
  group_keys g f := Ok (Inner_group_keys g (fs_inner f));
  store_group_key g k f := flush (Inner_store_group_key g k (fs_inner f)) f;
  remove_group_key g k f := flush_if (Inner_remove_group_key g k (fs_inner f)) f
|}.

(** ** The handle [State] and the identity helpers of peer.rs *)

Definition State_trust_peer {S : Type} {ST : StateStore S} (c : PeerCard) : stateful S TrustedPeer TrustError := λ s,
  match TrustedPeer_try_from_card c with
  | Err e => (Err (TrustError_InvalidPeerCard e), s)
  | Panic => (Panic, s)
  | Ok t =>
      let '(r, s) := store_trusted_peer t s in
      (let! _ := map_err TrustError_State r in Ok t, s)
  end.

(** [generated] is the identity [generate()] draws when none is stored. *)
Definition load_or_generate {S : Type} {ST : StateStore S} (generated : PeerIdentity)
    : stateful S PeerIdentity StateError := λ s,
  match peer_identity s with
  | Err e => (Err e, s)
  | Panic => (Panic, s)
  | Ok (Some id) => (Ok id, s)
  | Ok None =>
      let '(r, s) := store_peer_identity generated s in
      (let! _ := r in Ok generated, s)
  end.
End State.

(** ** Lemmas *)

Lemma foldl_insert_lookup {K} `{Countable K} {V} (l : list (K * V)) (m : gmap K V) k :
  NoDup l.*1 →
  foldl (λ m e, <[e.1 := e.2]> m) m l !! k
  = match list_to_map (M:=gmap K V) l !! k with Some v => Some v | None => m !! k end.
Proof.
  revert m. induction l as [|[k' v] l IH]; intros m Hnd; cbn [foldl];
    [by rewrite list_to_map_nil, lookup_empty |].
  inversion_clear Hnd as [|? ? Hk Hl]. rewrite IH by done. rewrite list_to_map_cons. cbn [fst snd].
  destruct (decide (k = k')) as [->|Hne].
  - rewrite lookup_insert_eq. rewrite (proj1 (not_elem_of_list_to_map l k')); [| done].
    by rewrite lookup_insert_eq.
  - by rewrite !lookup_insert_ne by done.
Qed.

(** Inserting the bindings of a map one by one rebuilds it. *)
Lemma foldl_insert_map_to_list {K} `{Countable K} {V} (m : gmap K V) :
  foldl (λ m e, <[e.1 := e.2]> m) ∅ (map_to_list m) = m.
Proof.
  apply map_eq. intros k. rewrite foldl_insert_lookup by apply NoDup_fst_map_to_list.
  rewrite list_to_map_to_list, lookup_empty. by destruct (m !! k).
Qed.

Section Properties.
Context `{PR : Primitives} `{PL : !PrimitivesLaws} `{UL : UrlLib} `{ULL : !UrlLaws}.
Context {MP : Msgpack Snapshot} {MPL : MsgpackLaws Snapshot}.

(** *** Identity material *)

Lemma to_from_identity id : to_identity (from_identity id) = id.
Proof.
  destruct id. unfold to_identity, from_identity. simpl.
  unfold PeerIdentity_from_parts. by rewrite sk_from_to_bytes, secret_from_to_bytes.
Qed.

(** *** Well-formed tables *)

(** A card the snapshot can represent: valid, with printable addresses. *)
Definition storable (t : TrustedPeer) : Prop :=
  PeerCard_validate (card t) = Ok tt
  ∧ match iroh_endpoint (card t) with
    | Some e => Forall addr_printable (direct_addrs e)
    | None => True
    end.

Definition inner_wf (i : InMemoryInner) : Prop :=
  map_Forall (λ p t, TrustedPeer_peer_id t = p ∧ storable t) (in_trusted i)
  ∧ map_Forall (λ (gk : GroupId * GroupKeyId) k, gk_id k = gk.2) (in_group_keys i).

Lemma Inner_default_wf : inner_wf Inner_default.
Proof. split; apply map_Forall_empty. Qed.

Lemma store_trusted_peer_wf t i :
  storable t → inner_wf i → inner_wf (Inner_store_trusted_peer t i).
Proof. intros Ht [H1 H2]. split; [| done]. by apply map_Forall_insert_2. Qed.

Lemma store_group_key_wf g k i : inner_wf i → inner_wf (Inner_store_group_key g k i).
Proof. intros [H1 H2]. split; [done |]. by apply map_Forall_insert_2. Qed.

Lemma remove_trusted_peer_wf p i : inner_wf i → inner_wf (Inner_remove_trusted_peer p i).2.
Proof. intros [H1 H2]. split; [| done]. by apply map_Forall_delete. Qed.

Lemma remove_group_key_wf g k i : inner_wf i → inner_wf (Inner_remove_group_key g k i).2.
Proof. intros [H1 H2]. split; [done |]. by apply map_Forall_delete. Qed.

(** *** The snapshot restores the tables *)

Lemma restore_endpoint_snapshot e :
  Forall addr_printable (direct_addrs e) → restore_endpoint (snapshot_endpoint e) = Ok e.
Proof.
  destruct e as [id urls addrs]. cbn [direct_addrs]. intros Ha.
  unfold restore_endpoint, snapshot_endpoint. cbn [sn_relay_urls sn_direct_addrs sn_endpoint_id
    relay_urls direct_addrs endpoint_id].
  rewrite (map_result_map_Ok _ _ (λ u, u)); [| intros u _; by rewrite url_parse_as_str].
  cbn [rbind]. rewrite (map_result_map_Ok _ _ (λ u, u)).
  - cbn [rbind]. by rewrite !map_id.
  - intros a Hin. rewrite parse_addr_printable; [done |]. rewrite Forall_forall in Ha. auto.
Qed.

Lemma restore_peer_snapshot t : storable t → restore_peer (snapshot_peer t) = Ok t.
Proof.
  destruct t as [[[id] vk ex ep]]. unfold storable. cbn [card iroh_endpoint]. intros [Hv Hep].
  unfold restore_peer, snapshot_peer. cbn [card sn_signing_key sn_iroh_endpoint sn_peer_id
    sn_exchange_key signing_key iroh_endpoint exchange_key peer_id PeerId_to_bytes].
  rewrite vk_from_to_bytes. cbn [ok_or rbind].
  assert (transpose_map restore_endpoint (snapshot_endpoint <$> ep) = Ok ep) as ->.
  { destruct ep as [e|]; [| done]. simpl. by rewrite restore_endpoint_snapshot. }
  cbn [rbind]. unfold PeerId_from_bytes, TrustedPeer_try_from_card. by rewrite Hv.
Qed.

Lemma restore_trusted l (m : gmap PeerId TrustedPeer) :
  Forall (λ e : PeerId * TrustedPeer, TrustedPeer_peer_id e.2 = e.1 ∧ storable e.2) l →
  foldl_result (E:=StateError)
    (λ m sp, let! t := restore_peer sp in Ok (<[TrustedPeer_peer_id t := t]> m)) m
    (map (λ e : PeerId * TrustedPeer, snapshot_peer e.2) l)
  = Ok (foldl (λ m e, <[e.1 := e.2]> m) m l).
Proof.
  intros Hl. revert m. induction Hl as [|[p t] l [Hp Ht] Hl IH]; intros m; [done |].
  cbn [map foldl_result foldl fst snd] in *. rewrite restore_peer_snapshot by done.
  cbn [rbind]. by rewrite Hp, IH.
Qed.

Lemma restore_groups (l : list ((GroupId * GroupKeyId) * GroupKey)) (m : gmap (GroupId * GroupKeyId) GroupKey) :
  Forall (λ e : (GroupId * GroupKeyId) * GroupKey, gk_id e.2 = e.1.2) l →
  foldl (λ (m : gmap (GroupId * GroupKeyId) GroupKey) sk, <[(GroupId_from_bytes (sn_group sk), GroupKeyId_from_bytes (sn_id sk)) :=
                   GroupKey_new (GroupKeyId_from_bytes (sn_id sk)) (sn_secret sk)]> m) m
    (map (λ e : (GroupId * GroupKeyId) * GroupKey,
            MkSnapGroupKey (GroupId_to_bytes e.1.1) (GroupKeyId_to_bytes (gk_id e.2)) (gk_secret e.2)) l)
  = foldl (λ m e, <[e.1 := e.2]> m) m l.
Proof.
  intros Hl. revert m. induction Hl as [|[[[g] [k]] [[id] s]] l Hk Hl IH]; intros m; [done |].
  simpl in *. injection Hk as ->. apply IH.
Qed.

Lemma into_inner_from_inner i : inner_wf i → into_inner (from_inner i) = Ok i.
Proof.
  intros [Ht Hg]. unfold into_inner. cbn [from_inner sn_version].
  rewrite N.eqb_refl. cbn [negb]. cbn [from_inner sn_trusted_peers].
  rewrite restore_trusted.
  2: { apply Forall_forall. intros [p t] Hin%elem_of_map_to_list. by apply (Ht p t). }
  cbn [rbind]. cbn [from_inner sn_group_keys]. cbv zeta. rewrite restore_groups.
  2: { apply Forall_forall. intros [gk k] Hin%elem_of_map_to_list. by apply (Hg gk k). }
  rewrite !foldl_insert_map_to_list. destruct i as [l s kp id tr gk]. simpl. do 2 f_equal.
  by destruct id as [[]|].
Qed.

(** A disk whose state file holds the tables [i]. *)
Definition disk_holds (d : Disk) (i : InMemoryInner) : Prop :=
  FileStateStore_open None None d = Ok i.

Lemma disk_holds_encoded i b tmp :
  inner_wf i → Snapshot_encode (from_inner i) = Ok b → disk_holds (MkDisk (Some b) tmp) i.
Proof.
  intros Hwf Hb. unfold disk_holds, FileStateStore_open, Snapshot_decode. cbn [disk_file].
  apply of_sum_Ok, from_slice_to_vec_named in Hb. rewrite Hb. cbn [of_sum rbind].
  by apply into_inner_from_inner.
Qed.

(** What the directory holds when the process dies while a call is under way:
    a write has emptied the file and put a front part of the data into it, a
    rename has happened or not. *)
Inductive during : fs_call → Disk → Disk → Prop :=
| during_before call d : during call d d
| during_write p b k d : during (FsWrite p b) d (disk_set p (Some (take k b)) d)
| during_rename from to d : during (FsRename from to) d (fs_done (FsRename from to) d).

(** ... and at any instant of a sequence of calls. *)
Inductive killed : list fs_call → Disk → Disk → Prop :=
| killed_in call calls d d' : during call d d' → killed (call :: calls) d d'
| killed_later call calls d d' : killed calls (fs_done call d) d' → killed (call :: calls) d d'
| killed_after d : killed [] d d.

(** When the machine loses power instead, data that was never synced may be
    missing although the rename is in the directory. *)
Inductive power_cut : list fs_call → Disk → Disk → Prop :=
| cut_as_killed calls d d' : killed calls d d' → power_cut calls d d'
| cut_torn calls d d' b k :
    killed calls d d' → disk_file d' = Some b → disk_file d ≠ Some b →
    power_cut calls d (disk_set FilePath (Some (take k b)) d').

Lemma flush_locked_Ok io i d :
  (flush_locked io i d).1 = Ok tt →
  ∃ b, Snapshot_encode (from_inner i) = Ok b ∧ (flush_locked io i d).2 = MkDisk (Some b) None.
Proof.
  unfold flush_locked, flush_calls. destruct (Snapshot_encode (from_inner i)) as [b|e|]; cbn [rbind]; [| done | done].
  cbn [fs_run_all fs_run]. destruct (io_write io); [| done]. cbn [fs_run_all fs_run].
  destruct (io_rename io); [eauto | done].
Qed.

(** *** Version counters *)

Inductive version_op : Type :=
| OpNext (slot : bytes)
| OpSeen (slot : bytes) (version : N).

(** The tables with the versions issued and observed so far. *)
Record trace : Type := MkTrace {
  tr_inner : InMemoryInner;
  tr_issued : list (bytes * N);
  tr_seen : list (bytes * N)
}.

Definition run_op (t : trace) (op : version_op) : trace :=
  match op with
  | OpNext slot =>
      match Inner_next_local_slot_version (E:=StateError) slot (tr_inner t) with
      | (Ok v, i) => MkTrace i ((slot, v) :: tr_issued t) (tr_seen t)
      | (_, i) => MkTrace i (tr_issued t) (tr_seen t)
      end
  | OpSeen slot v =>
      MkTrace (Inner_record_seen_slot_version slot v (tr_inner t)).2 (tr_issued t)
        ((slot, v) :: tr_seen t)
  end.

Definition run_ops (ops : list version_op) : trace := foldl run_op (MkTrace Inner_default [] []) ops.

(** The highest version logged for [slot], 0 when there is none. *)
Fixpoint max_of (slot : bytes) (l : list (bytes * N)) : N :=
  match l with
  | [] => 0
  | e :: l' => if decide (e.1 = slot) then N.max e.2 (max_of slot l') else max_of slot l'
  end%N.

Definition logged (slot : bytes) (l : list (bytes * N)) : bool :=
  existsb (λ e, bool_decide (e.1 = slot)) l.

Lemma max_of_bound slot l e : e ∈ l → e.1 = slot → (e.2 ≤ max_of slot l)%N.
Proof.
  induction l as [|x l IH]; [by intros ?%not_elem_of_nil |].
  intros [->|Hin]%elem_of_cons He; cbn [max_of].
  - rewrite decide_True by done. lia.
  - specialize (IH Hin He). case_decide; lia.
Qed.

Definition trace_ok (t : trace) : Prop := ∀ slot,
  in_last_seen (tr_inner t) !! slot
    = (if logged slot (tr_seen t) then Some (max_of slot (tr_seen t)) else None)
  ∧ N.max (default 0 (in_local (tr_inner t) !! slot))%N (max_of slot (tr_seen t))
    = N.max (max_of slot (tr_issued t)) (max_of slot (tr_seen t)).

Lemma not_logged_max slot l : logged slot l = false → max_of slot l = 0%N.
Proof.
  induction l as [|e l IH]; cbn [logged existsb max_of]; [done |].
  intros [He Hl]%orb_false_iff. apply bool_decide_eq_false in He.
  rewrite decide_False by done. by apply IH.
Qed.

Lemma trace_ok_observed t slot :
  trace_ok t → default 0%N (in_last_seen (tr_inner t) !! slot) = max_of slot (tr_seen t).
Proof.
  intros H. destruct (H slot) as [-> _]. destruct (logged slot (tr_seen t)) eqn:E; [done |].
  simpl. by rewrite not_logged_max.
Qed.

Lemma next_local_eq {E} t slot :
  trace_ok t →
  let m := N.max (max_of slot (tr_issued t)) (max_of slot (tr_seen t)) in
  Inner_next_local_slot_version (E:=E) slot (tr_inner t)
  = let i := set_local (insert slot (default 0%N (in_local (tr_inner t) !! slot))) (tr_inner t) in
    if (m + 1 <=? u64_max)%N then (Ok (m + 1)%N, set_local (insert slot (m + 1)%N) i)
    else (Panic, i).
Proof.
  intros H m. unfold Inner_next_local_slot_version. rewrite trace_ok_observed by done.
  destruct (H slot) as [_ ->]. fold m. unfold checked_succ_u64. by destruct (m + 1 <=? u64_max)%N.
Qed.

Lemma run_op_ok t op : trace_ok t → trace_ok (run_op t op).
Proof.
  intros H slot. destruct op as [s|s v]; cbn [run_op].
  - rewrite next_local_eq by done. destruct (H slot) as [H1 H2].
    destruct (_ <=? _)%N; cbn [tr_inner tr_issued tr_seen set_local in_last_seen in_local];
      (split; [done |]).
    + destruct (decide (slot = s)) as [->|Hne].
      * rewrite lookup_insert_eq. cbn [default max_of fst snd]. rewrite decide_True by done.
        unfold default, id. lia.
      * rewrite !lookup_insert_ne by done. cbn [max_of fst]. by rewrite decide_False.
    + destruct (decide (slot = s)) as [->|Hne]; [by rewrite lookup_insert_eq |].
      by rewrite lookup_insert_ne.
  - destruct (H slot) as [H1 H2]. cbn [tr_inner tr_issued tr_seen].
    cbn [logged existsb max_of fst snd]. unfold Inner_record_seen_slot_version.
    destruct (decide (slot = s)) as [<-|Hne].
    + rewrite decide_True, bool_decide_eq_true_2 by done. cbn [orb]. rewrite H1.
      destruct (logged slot (tr_seen t)) eqn:El.
      * destruct (N.leb_spec v (max_of slot (tr_seen t))); cbn [snd set_last_seen in_last_seen in_local].
        -- rewrite H1. split; [f_equal |]; lia.
        -- rewrite lookup_insert_eq. split; [f_equal |]; lia.
      * cbn [snd set_last_seen in_last_seen in_local]. rewrite lookup_insert_eq.
        rewrite not_logged_max in * by done. split; [f_equal |]; lia.
    + rewrite decide_False, bool_decide_eq_false_2 by done. cbn [orb].
      fold (logged slot (tr_seen t)).
      assert (∀ i, in_last_seen (set_last_seen (insert s v) i) !! slot = in_last_seen i !! slot) as Hs.
      { intros i. simpl. by rewrite lookup_insert_ne. }
      destruct (in_last_seen (tr_inner t) !! s) as [cur|]; [destruct (v <=? cur)%N |];
        cbn [snd]; rewrite ?Hs; done.
Qed.

Lemma run_ops_ok ops : trace_ok (run_ops ops).
Proof.
  unfold run_ops. assert (trace_ok (MkTrace Inner_default [] [])) as H0 by done.
  revert H0. generalize (MkTrace Inner_default [] []).
  induction ops as [|op ops IH]; intros t H; [done |]. cbn [foldl]. apply IH, run_op_ok, H.
Qed.

(** *** What a store promises its clients about slot versions

    The coordinator relies on this interface only; both stores implement
    it, the file store also when its flushes fail. *)

Class SlotVersionLaws (S : Type) {ST : StateStore S} := {
  (** The highest version the store knows for a slot. *)
  high_water : bytes → S → N;
  next_exceeds_high_water slot s v s' :
    next_local_slot_version slot s = (Ok v, s') → (high_water slot s < v ≤ u64_max)%N ∧ high_water slot s' = v;
  seen_raises_high_water slot s v :
    high_water slot (record_seen_slot_version slot v s).2 = N.max v (high_water slot s);
  next_keeps_high_water slot slot' s :
    (high_water slot s ≤ high_water slot (next_local_slot_version slot' s).2)%N;
  seen_keeps_high_water slot slot' s v :
    (high_water slot s ≤ high_water slot (record_seen_slot_version slot' v s).2)%N
}.

Definition Inner_high_water (slot : bytes) (i : InMemoryInner) : N :=
  N.max (default 0%N (in_local i !! slot)) (default 0%N (in_last_seen i !! slot)).

Lemma Inner_next_high_water {E} slot i v i' :
  Inner_next_local_slot_version (E:=E) slot i = (Ok v, i') →
  (Inner_high_water slot i < v ≤ u64_max)%N ∧ Inner_high_water slot i' = v.
Proof.
  unfold Inner_next_local_slot_version, checked_succ_u64. fold (Inner_high_water slot i).
  destruct (N.leb_spec (Inner_high_water slot i + 1) u64_max) as [Hle|]; [| done].
  intros H. simplify_eq. split; [lia |].
  unfold Inner_high_water at 1. cbn [set_local in_local in_last_seen]. rewrite lookup_insert_eq.
  cbn [default]. unfold Inner_high_water, default, id in *. lia.
Qed.

Lemma Inner_seen_high_water slot i v :
  Inner_high_water slot (Inner_record_seen_slot_version slot v i).2 = N.max v (Inner_high_water slot i).
Proof.
  unfold Inner_record_seen_slot_version, Inner_high_water.
  destruct (in_last_seen i !! slot) as [cur|] eqn:E; [destruct (N.leb_spec v cur) |];
    cbn [snd set_last_seen in_local in_last_seen]; rewrite ?lookup_insert_eq, ?E;
    unfold default, id; lia.
Qed.

Lemma Inner_next_keeps {E} slot slot' i :
  (Inner_high_water slot i ≤ Inner_high_water slot (Inner_next_local_slot_version (E:=E) slot' i).2)%N.
Proof.
  unfold Inner_next_local_slot_version, checked_succ_u64, Inner_high_water.
  destruct (decide (slot = slot')) as [<-|Hne]; destruct (_ <=? _)%N;
    cbn [snd set_local in_local in_last_seen];
    rewrite ?lookup_insert_eq, ?(lookup_insert_ne _ _ _ _ (not_eq_sym Hne)); unfold default, id; lia.
Qed.

Lemma Inner_seen_keeps slot slot' v i :
  (Inner_high_water slot i ≤ Inner_high_water slot (Inner_record_seen_slot_version slot' v i).2)%N.
Proof.
  destruct (decide (slot = slot')) as [<-|Hne]; [rewrite Inner_seen_high_water; lia |].
  unfold Inner_record_seen_slot_version, Inner_high_water.
  destruct (in_last_seen i !! slot') as [cur|]; [destruct (v <=? cur)%N |];
    cbn [snd set_last_seen in_local in_last_seen]; rewrite ?lookup_insert_ne by done; lia.
Qed.

#[export] Instance InMemory_version_laws : SlotVersionLaws InMemoryInner.
Proof.
  refine {| high_water := Inner_high_water |}.
  - intros slot s v s'. apply Inner_next_high_water.
  - intros slot s v. apply Inner_seen_high_water.
  - intros slot slot' s. apply Inner_next_keeps.
  - intros slot slot' s v. apply Inner_seen_keeps.
Defined.

#[export] Instance FileStateStore_version_laws : SlotVersionLaws FileStateStore.
Proof.
  refine {| high_water slot f := Inner_high_water slot (fs_inner f) |}.
  - intros slot f v f'. cbn [next_local_slot_version FileStateStore_store].
    destruct (Inner_next_local_slot_version slot (fs_inner f)) as [[n|e|] i] eqn:E; [| done | done].
    unfold flush. destruct (flush_locked _ _ _) as [r d]. intros [= H <-].
    apply rbind_Ok in H as (_ & _ & [= ->]). by apply Inner_next_high_water in E.
  - intros slot f v. cbn [record_seen_slot_version FileStateStore_store]. unfold flush_if.
    rewrite <- Inner_seen_high_water. destruct (Inner_record_seen_slot_version slot v (fs_inner f)) as [ch i].
    cbn [fst snd]. destruct ch; [| done]. unfold flush. by destruct (flush_locked _ _ _).
  - intros slot slot' f. etransitivity; [apply (Inner_next_keeps (E:=StateError) slot slot') |].
    cbn [next_local_slot_version FileStateStore_store].
    destruct (Inner_next_local_slot_version slot' (fs_inner f)) as [[n|e|] i]; [| reflexivity | reflexivity].
    unfold flush. destruct (flush_locked _ _ _). reflexivity.
  - intros slot slot' f v. etransitivity; [apply (Inner_seen_keeps slot slot' v) |].
    cbn [record_seen_slot_version FileStateStore_store]. unfold flush_if.
    destruct (Inner_record_seen_slot_version slot' v (fs_inner f)) as [ch i]. cbn [fst snd].
    destruct ch; [| reflexivity]. unfold flush. destruct (flush_locked _ _ _). reflexivity.
Defined.

(** *** Restoring a snapshot with an invalid peer *)

Definition corrupted {A} (r : result A StateError) : Prop := ∃ msg, r = Err (StateError_Corrupted msg).

Lemma map_result_corrupted {A B} (g : A → option B) msg l :
  (∃ bs, map_result (λ a, ok_or (g a) (StateError_Corrupted msg)) l = Ok bs)
  ∨ corrupted (map_result (λ a, ok_or (g a) (StateError_Corrupted msg)) l).
Proof.
  unfold corrupted. induction l as [|a l [[bs IH]|[m IH]]]; cbn [map_result]; [eauto | |];
    (destruct (g a); cbn [ok_or rbind]; [rewrite IH; cbn [rbind] |]); eauto.
Qed.

Lemma restore_peer_cases sp : (∃ t, restore_peer sp = Ok t) ∨ corrupted (restore_peer sp).
Proof.
  unfold restore_peer, corrupted.
  destruct (vk_from_bytes (sn_signing_key sp)) as [vk|]; cbn [ok_or rbind]; [| eauto].
  assert ((∃ o, transpose_map restore_endpoint (sn_iroh_endpoint sp) = Ok o)
          ∨ corrupted (transpose_map restore_endpoint (sn_iroh_endpoint sp))) as [[o ->]|[m ->]].
  { destruct (sn_iroh_endpoint sp) as [e|]; [| cbn; eauto]. cbn [transpose_map].
    unfold restore_endpoint.
    destruct (map_result_corrupted url_parse (lit "trusted peer relay url invalid")
      (sn_relay_urls e)) as [[us ->]|[m ->]]; cbn [rbind rmap]; [| right; by eexists].
    destruct (map_result_corrupted parse_SocketAddr (lit "trusted peer direct address invalid")
      (sn_direct_addrs e)) as [[ads ->]|[m ->]]; cbn [rbind rmap]; [| right; by eexists]. eauto. }
  - cbn [rbind]. unfold TrustedPeer_try_from_card.
    match goal with |- context [PeerCard_validate ?c] =>
      pose proof (PeerCard_validate_total c); destruct (PeerCard_validate c) end; cbn; eauto; done.
  - cbn [rbind]. eauto.
Qed.

Lemma restore_peer_invalid t e :
  PeerCard_validate (card t) = Err e → corrupted (restore_peer (snapshot_peer t)).
Proof.
  intros Hv. destruct (restore_peer_cases (snapshot_peer t)) as [[t' Ht]|]; [| done].
  exfalso. unfold restore_peer in Ht.
  apply rbind_Ok in Ht as (vk & Hvk%ok_or_Ok & Ht). cbn [snapshot_peer sn_signing_key] in Hvk.
  rewrite vk_from_to_bytes in Hvk. injection Hvk as <-.
  apply rbind_Ok in Ht as (ep & Hep & Ht). rewrite map_err_Ok in Ht.
  unfold TrustedPeer_try_from_card in Ht. apply rbind_Ok in Ht as ([] & Hc & _).
  rewrite PeerCard_validate_Ok in Hc. destruct t as [[[id] vk ex o]].
  cbn [snapshot_peer card sn_peer_id sn_exchange_key sn_iroh_endpoint peer_id signing_key
    exchange_key iroh_endpoint PeerId_from_bytes PeerId_to_bytes] in *.
  assert (PeerCard_validate (MkPeerCard (MkPeerId id) vk ex o) = Ok tt) as Hok; [| congruence].
  apply PeerCard_validate_Ok. cbn [peer_id signing_key exchange_key iroh_endpoint].
  destruct Hc as (H1 & H2 & H3). split_and!; [done | done |].
  destruct o as [e0|]; [| done]. cbn in Hep.
  destruct (restore_endpoint (snapshot_endpoint e0)) as [e1|?|] eqn:He; try done.
  injection Hep as <-. unfold restore_endpoint in He.
  apply rbind_Ok in He as (? & _ & He). apply rbind_Ok in He as (? & _ & [= <-]). done.
Qed.

Lemma restore_trusted_corrupted l sp (m : gmap PeerId TrustedPeer) :
  sp ∈ l → corrupted (restore_peer sp) →
  corrupted (foldl_result (λ m sp, let! t := restore_peer sp in Ok (<[TrustedPeer_peer_id t := t]> m)) m l).
Proof.
  intros Hin [msg Hsp]. revert m. induction l as [|x l IH]; [by apply not_elem_of_nil in Hin |].
  intros m. cbn [foldl_result]. destruct (restore_peer_cases x) as [[t Hx]|[msg' Hx]].
  - rewrite Hx. cbn [rbind]. apply elem_of_cons in Hin as [->|Hin]; [congruence | by apply IH].
  - rewrite Hx. by exists msg'.
Qed.

(** ** Claims *)

(** C9: after any interleaving of version requests and observations on any
    slots, the high-water mark of a slot is the largest version observed for
    it (or absent), and the next local version is one more than every version
    ever issued or observed for that slot: it is fresh, it never exceeds
    [u64::MAX], and the request panics exactly when [u64::MAX] itself has
    been issued or observed. *)
Theorem slot_versions_fresh (ops : list version_op) (slot : bytes) :
  let t := run_ops ops in
  let seen_or_issued := tr_issued t ++ tr_seen t in
  last_seen_slot_version slot (tr_inner t)
    = Ok (if logged slot (tr_seen t) then Some (max_of slot (tr_seen t)) else None)
  ∧ match (next_local_slot_version slot (tr_inner t)).1 with
    | Ok v => (v ≤ u64_max)%N ∧ Forall (λ e, e.1 = slot → (e.2 < v)%N) seen_or_issued
              ∧ v = (N.max (max_of slot (tr_issued t)) (max_of slot (tr_seen t)) + 1)%N
    | Panic => (u64_max ≤ N.max (max_of slot (tr_issued t)) (max_of slot (tr_seen t)))%N
    | Err _ => False
    end.
Proof.
  intros t l. pose proof (run_ops_ok ops) as H. fold t in H.
  split; [unfold last_seen_slot_version; cbn; f_equal; apply (H slot) |].
  cbn [next_local_slot_version InMemoryStateStore]. rewrite next_local_eq by done. cbv zeta.
  destruct (N.leb_spec (N.max (max_of slot (tr_issued t)) (max_of slot (tr_seen t)) + 1) u64_max);
    cbn [fst]; [| lia].
  split_and!; [done | | done]. apply Forall_forall. intros e He Hs.
  unfold l in He. apply elem_of_app in He as [He|He]; apply (max_of_bound slot) in He; auto; lia.
Qed.

(** The snapshot written by the file store restores the tables exactly:
    encoding, decoding and rebuilding well-formed tables gives them back;
    and well-formedness (validated peers stored under their own id, group
    keys under theirs) is kept by every store operation. *)
Lemma state_snapshot_roundtrip (i : InMemoryInner) (b : bytes) :
  inner_wf i → Snapshot_encode (from_inner i) = Ok b →
  (let! s := Snapshot_decode b in into_inner s) = Ok i
  ∧ (∀ t, storable t → inner_wf (Inner_store_trusted_peer t i))
  ∧ (∀ p, inner_wf (Inner_remove_trusted_peer p i).2)
  ∧ (∀ g k, inner_wf (Inner_store_group_key g k i))
  ∧ (∀ g k, inner_wf (Inner_remove_group_key g k i).2)
  ∧ (∀ slot, inner_wf (Inner_next_local_slot_version (E:=StateError) slot i).2)
  ∧ (∀ slot v, inner_wf (Inner_record_seen_slot_version slot v i).2)
  ∧ (∀ id, inner_wf (Inner_store_peer_identity id i)
           ∧ Inner_peer_identity (Inner_store_peer_identity id i) = Some id).
Proof.
  intros Hwf Hb. split_and!.
  - apply (disk_holds_encoded i b None Hwf Hb).
  - intros t Ht. by apply store_trusted_peer_wf.
  - intros p. by apply remove_trusted_peer_wf.
  - intros g k. by apply store_group_key_wf.
  - intros g k. by apply remove_group_key_wf.
  - intros slot. unfold Inner_next_local_slot_version. by destruct (checked_succ_u64 _).
  - intros slot v. unfold Inner_record_seen_slot_version.
    destruct (in_last_seen i !! slot); [by destruct (v <=? n)%N | done].
  - intros id. split; [done |]. unfold Inner_peer_identity. cbn. by rewrite to_from_identity.
Qed.

(** C10: the file store survives the death of the process.  If the state file
    holds tables [old], then at whatever instant of the calls of the flush of
    well-formed tables [new] the process dies, reopening the directory gives
    exactly [old] or exactly [new]; a flush that reports success leaves a
    directory that reopens to [new], and one that reports an error a directory
    that reopens to [old].  This is about the file system as other processes
    see it: nothing is synced, so a loss of power is a different matter
    ([power_cut_corrupts]). *)
Theorem file_store_crash_consistent (d : Disk) (old new : InMemoryInner) (io : FlushIo) :
  disk_holds d old → inner_wf new →
  (∀ calls d', flush_calls new = Ok calls → killed calls d d' → disk_holds d' old ∨ disk_holds d' new)
  ∧ ((flush_locked io new d).1 = Ok tt → disk_holds (flush_locked io new d).2 new)
  ∧ (∀ e, (flush_locked io new d).1 = Err e → disk_holds (flush_locked io new d).2 old).
Proof.
  intros Hold Hwf. split_and!.
  - intros calls d' (b & Hb & [= <-])%rbind_Ok Hk. pose proof (disk_holds_encoded new b None Hwf Hb) as Hnew.
    inversion Hk as [? ? ? ? Hd|? ? ? ? Hk2|]; subst; [inversion Hd; subst; by left |].
    inversion Hk2 as [? ? ? ? Hd|? ? ? ? Hk3|]; subst; [inversion Hd; subst; [by left | by right] |].
    inversion Hk3; subst. by right.
  - intros (b & Hb & ->)%flush_locked_Ok. by apply disk_holds_encoded.
  - unfold flush_locked, flush_calls. intros e. destruct (Snapshot_encode (from_inner new)); cbn [rbind]; try done.
    cbn [fs_run_all fs_run]. destruct (io_write io); [| done]. cbn [fs_run_all fs_run]. by destruct (io_rename io).
Qed.

(** The rename is not ordered after the data: when power is lost after a
    flush that reported success, the state file may be empty.  If an empty
    file does not decode, the store cannot be opened any more and holds
    neither the old nor the new tables. *)
Lemma power_cut_corrupts (d : Disk) (new : InMemoryInner) (b err : bytes) :
  Snapshot_encode (from_inner new) = Ok b → disk_file d ≠ Some b → from_slice (A:=Snapshot) [] = inr err →
  ∃ calls d' msg, flush_calls new = Ok calls ∧ (fs_run_all (MkFlushIo WriteOk RenameOk) calls d).1 = Ok tt
    ∧ power_cut calls d d' ∧ FileStateStore_open None None d' = Err (StateError_Corrupted msg).
Proof.
  intros Hb Hd He. unfold flush_calls. rewrite Hb. cbn [rbind].
  eexists _, (MkDisk (Some (take 0 b)) None), _. split_and!; [done | done | |].
  - apply (cut_torn _ d (MkDisk (Some b) None) b 0); [| done | done].
    apply killed_later, killed_later. constructor.
  - unfold FileStateStore_open, Snapshot_decode. cbn [disk_file]. rewrite take_0, He. reflexivity.
Qed.

(** Storing a trusted peer whose card does not validate makes the state
    file unreadable: the store reports success, and every later attempt to
    open the directory fails as corrupted. *)
Lemma unvalidated_peer_corrupts_store (t : TrustedPeer) (e : PeerCardError) (f : FileStateStore) :
  PeerCard_validate (card t) = Err e →
  (store_trusted_peer t f).1 = Ok tt →
  ∃ msg, FileStateStore_open None None (fs_disk (store_trusted_peer t f).2)
         = Err (StateError_Corrupted msg).
Proof.
  intros Hv. cbn [store_trusted_peer FileStateStore_store]. unfold flush.
  destruct (flush_locked _ _ _) as [r d] eqn:Hf. cbn [fst snd fs_disk]. intros ->.
  destruct (flush_locked_Ok (fs_io f 0) (Inner_store_trusted_peer t (fs_inner f)) (fs_disk f))
    as (b & Hb & Hd); [by rewrite Hf |]. rewrite Hf in Hd. cbn [snd] in Hd. subst d.
  unfold FileStateStore_open, Snapshot_decode. cbn [disk_file].
  apply of_sum_Ok, from_slice_to_vec_named in Hb. rewrite Hb. cbn [of_sum rbind].
  unfold into_inner. cbn [from_inner sn_version]. rewrite N.eqb_refl. cbn [negb].
  destruct (restore_trusted_corrupted
    (sn_trusted_peers (from_inner (Inner_store_trusted_peer t (fs_inner f)))) (snapshot_peer t) ∅)
    as [msg ->]; [| by eapply restore_peer_invalid | by exists msg].
  cbn [from_inner sn_trusted_peers]. apply list_elem_of_fmap.
  exists (TrustedPeer_peer_id t, t). split; [done |].
  apply elem_of_map_to_list. cbn. by rewrite lookup_insert_eq.
Qed.
End Properties.

(** ** Witnesses: the snapshot is countable, hence has a toy codec. *)

#[export] Instance SnapshotPeerIdentity_eq_dec : EqDecision SnapshotPeerIdentity.
Proof. solve_decision. Defined.

#[export] Instance SnapshotPeerIdentity_countable : Countable SnapshotPeerIdentity.
Proof.
  by refine (inj_countable' (λ s, (sn_signing s, sn_exchange s, sn_iroh_secret s))
    (λ '(a, b, c), MkSnapIdentity a b c) _); intros [].
Defined.

#[export] Instance SnapshotIrohEndpoint_eq_dec : EqDecision SnapshotIrohEndpoint.
Proof. solve_decision. Defined.

#[export] Instance SnapshotIrohEndpoint_countable : Countable SnapshotIrohEndpoint.
Proof.
  by refine (inj_countable' (λ s, (sn_endpoint_id s, sn_relay_urls s, sn_direct_addrs s))
    (λ '(a, b, c), MkSnapEndpoint a b c) _); intros [].
Defined.

#[export] Instance SnapshotTrustedPeer_eq_dec : EqDecision SnapshotTrustedPeer.
Proof. solve_decision. Defined.

#[export] Instance SnapshotTrustedPeer_countable : Countable SnapshotTrustedPeer.
Proof.
  by refine (inj_countable'
    (λ s, (sn_peer_id s, sn_signing_key s, sn_exchange_key s, sn_iroh_endpoint s))
    (λ '(a, b, c, d), MkSnapPeer a b c d) _); intros [].
Defined.

#[export] Instance SnapshotGroupKey_eq_dec : EqDecision SnapshotGroupKey.
Proof. solve_decision. Defined.

#[export] Instance SnapshotGroupKey_countable : Countable SnapshotGroupKey.
Proof.
  by refine (inj_countable' (λ s, (sn_group s, sn_id s, sn_secret s))
    (λ '(a, b, c), MkSnapGroupKey a b c) _); intros [].
Defined.

#[export] Instance Snapshot_eq_dec : EqDecision Snapshot.
Proof. solve_decision. Defined.

#[export] Instance Snapshot_countable : Countable Snapshot.
Proof.
  by refine (inj_countable'
    (λ s, (sn_version s, sn_local_slot_versions s, sn_last_seen_slot_versions s,
           sn_iroh_keypair s, sn_peer_identity s, sn_trusted_peers s, sn_group_keys s))
    (λ '(a, b, c, d, e, f, g), MkSnapshot a b c d e f g) _); intros [].
Defined.

Module StateWitness.
Import Toy PeerCardWitness.
Local Existing Instance ToyUrl.toy_url.
Local Existing Instance ToyUrl.toy_url_laws.
Local Instance snapshot_msgpack : Msgpack Snapshot := toy_msgpack.
Local Instance snapshot_msgpack_laws : MsgpackLaws Snapshot := toy_msgpack_laws.

Definition toy_inner : InMemoryInner :=
  Inner_store_trusted_peer (TrustedPeer_new toy_card)
    (Inner_store_group_key (MkGroupId (key_bytes x01))
       (GroupKey_new (MkGroupKeyId (key_bytes x02)) (key_bytes x03)) Inner_default).

Lemma toy_storable : storable (TrustedPeer_new toy_card).
Proof. split; [vm_refl |]. repeat constructor; vm_compute; congruence. Qed.

Lemma toy_inner_wf : inner_wf toy_inner.
Proof.
  apply store_trusted_peer_wf; [apply toy_storable |].
  apply store_group_key_wf, Inner_default_wf.
Qed.

Lemma file_store_crash_consistent_witness :
  disk_holds (flush_locked (MkFlushIo WriteOk RenameOk) toy_inner (MkDisk None None)).2 toy_inner.
Proof.
  apply (file_store_crash_consistent (MkDisk None None) Inner_default toy_inner
           (MkFlushIo WriteOk RenameOk)).
  - reflexivity.
  - apply toy_inner_wf.
  - reflexivity.
Defined.

(** A card whose exchange key is all zero. *)
Definition zero_card : PeerCard := PeerCard_new x01 (key_bytes x00) None.

End StateWitness.
