(* ===== verification/PeerEnvelope.v ===== *)
(** * peer.rs: pairwise envelopes

    [PeerEnvelope] carries one ciphertext per recipient under a key agreed by
    Diffie-Hellman, and one signature by the sender over everything else.
    The helpers both envelope kinds share (channel kind codes, length
    prefixes) are here too.  The random nonces of [seal] are an argument, one
    per recipient. *)

From S2P Require Import Prelude Bytes Crypto Kdf Net Guard Errors Dedup Config PeerCard Msgpack.

Definition PEER_ENVELOPE_RECORD_VERSION : byte := x01.

(** ** Shared helpers *)

Definition channel_kind_code (kind : ChannelKind) : byte :=
  match kind with ChMailbox => x00 | ChSlot => x01 end.

Definition channel_kind_from_code (code : byte) : result ChannelKind PeerEnvelopeError :=
  match code with
  | x00 => Ok ChMailbox
  | x01 => Ok ChSlot
  | _ => Err PeerEnvelopeError_MsgpackFailed
  end.

Definition write_len_prefixed {E} (out b : bytes) : result bytes E :=
  let! n := expect (u32_try_from (len b)) in
  Ok (out ++ to_be_bytes 4 n ++ b).

(** ** Data *)

Record PeerRecipientEnvelope : Type := MkPeerRecipientEnvelope {
  recipient : PeerId;
  pr_nonce : bytes;
  pr_ciphertext : bytes
}.

Record PeerRecipientEnvelopeWire : Type := MkPeerRecipientEnvelopeWire {
  recipient_peer_id : bytes;
  prw_nonce : bytes;
  prw_ciphertext : bytes
}.

Record PeerEnvelopeWire : Type := MkPeerEnvelopeWire {
  pw_version : byte;
  pw_sender_peer_id : bytes;
  pw_channel_kind : byte;
  pw_channel_name : bytes;
  pw_recipients : list PeerRecipientEnvelopeWire;
  pw_signature : bytes
}.

Record PeerEnvelope : Type := MkPeerEnvelope {
  pe_sender : PeerId;
  pe_kind : ChannelKind;
  pe_name : bytes;
  pe_recipients : list PeerRecipientEnvelope;
  pe_signature : bytes
}.

Section PeerEnvelope.
Context `{PR : Primitives} `{UL : UrlLib} {MP : Msgpack PeerEnvelopeWire}.

Record PeerEnvelopeMessage : Type := MkPeerEnvelopeMessage {
  pm_sender : PeerId;
  pm_signed_by : VerifyingKey;
  pm_payload : bytes
}.

(** ** Keys, associated data, encryption *)

Definition pairwise_message_key {E} (secret : StaticSecret) (public : bytes) (kind : ChannelKind)
    (name nonce : bytes) : result bytes E :=
  let shared := diffie_hellman secret public in
  let info := lit "enlace/v1/pkey/message" ++ ChannelKind_as_bytes kind ++ name ++ nonce in
  hkdf_sha256 shared [] info AEAD_KEY_LEN.

Definition peer_encrypt (key nonce aad plaintext : bytes) : result bytes PeerEnvelopeError :=
  ok_or (aead_encrypt key nonce aad plaintext) PeerEnvelopeError_AeadFailed.

Definition peer_decrypt (key nonce aad ciphertext : bytes) : result bytes PeerEnvelopeError :=
  ok_or (aead_decrypt key nonce aad ciphertext) PeerEnvelopeError_AeadFailed.

Definition peer_envelope_aad (sender recipient : PeerId) (kind : ChannelKind) (name nonce : bytes)
    : bytes :=
  lit "enlace/v1/pkey/aead/" ++ PeerId_to_bytes sender ++ PeerId_to_bytes recipient
  ++ ChannelKind_as_bytes kind ++ name ++ nonce.

(** ** The signed bytes *)

Definition write_recipient {E} (out : bytes) (r : PeerRecipientEnvelope) : result bytes E :=
  write_len_prefixed (out ++ PeerId_to_bytes (recipient r) ++ pr_nonce r) (pr_ciphertext r).

Definition peer_signature_preimage {E} (e : PeerEnvelope) : result bytes E :=
  let out := lit "enlace/v1/pkey/sig/" ++ [PEER_ENVELOPE_RECORD_VERSION]
             ++ PeerId_to_bytes (pe_sender e) ++ [channel_kind_code (pe_kind e)] in
  let! out := write_len_prefixed out (pe_name e) in
  let! count := expect (u32_try_from (len (pe_recipients e))) in
  foldl_result write_recipient (out ++ to_be_bytes 4 count) (pe_recipients e).

(** ** Seal *)

(** The loop over the recipients; [nonces i] is the nonce drawn for the
    [i]-th one. *)
Fixpoint seal_recipients (sender : PeerIdentity) (kind : ChannelKind) (name payload : bytes)
    (nonces : nat → bytes) (i : nat) (recipients : list PeerCard)
    : result (list PeerRecipientEnvelope) PeerEnvelopeError :=
  match recipients with
  | [] => Ok []
  | c :: rest =>
      let! _ := map_err PeerEnvelopeError_InvalidRecipient (PeerCard_validate c) in
      let nonce := nonces i in
      let! key := pairwise_message_key (exchange sender) (exchange_key c) kind name nonce in
      let aad := peer_envelope_aad (PeerIdentity_peer_id sender) (peer_id c) kind name nonce in
      let! ciphertext := peer_encrypt key nonce aad payload in
      let! rs := seal_recipients sender kind name payload nonces (S i) rest in
      Ok (MkPeerRecipientEnvelope (peer_id c) nonce ciphertext :: rs)
  end.

Definition with_signature (e : PeerEnvelope) (s : bytes) : PeerEnvelope :=
  MkPeerEnvelope (pe_sender e) (pe_kind e) (pe_name e) (pe_recipients e) s.

Definition PeerEnvelope_seal (nonces : nat → bytes) (sender : PeerIdentity) (kind : ChannelKind)
    (name payload : bytes) (recipients : list PeerCard) : result PeerEnvelope PeerEnvelopeError :=
  let! _ := map_err PeerEnvelopeError_Name (validate_name name) in
  match recipients with
  | [] => Err PeerEnvelopeError_NoRecipients
  | _ =>
      let! encrypted := seal_recipients sender kind name payload nonces 0 recipients in
      let e := MkPeerEnvelope (PeerIdentity_peer_id sender) kind name encrypted
                 (replicate SIG_LEN x00) in
      let! preimage := peer_signature_preimage e in
      Ok (with_signature e (sign (signing sender) preimage))
  end.

(** ** Wire format *)

Definition PeerEnvelope_to_wire (e : PeerEnvelope) : PeerEnvelopeWire :=
  MkPeerEnvelopeWire PEER_ENVELOPE_RECORD_VERSION (PeerId_to_bytes (pe_sender e))
    (channel_kind_code (pe_kind e)) (pe_name e)
    (map (λ r, MkPeerRecipientEnvelopeWire (PeerId_to_bytes (recipient r)) (pr_nonce r)
                 (pr_ciphertext r)) (pe_recipients e))
    (pe_signature e).

Definition PeerEnvelope_try_from_wire (w : PeerEnvelopeWire) : result PeerEnvelope PeerEnvelopeError :=
  if decide (pw_version w ≠ PEER_ENVELOPE_RECORD_VERSION)
  then Err PeerEnvelopeError_UnsupportedVersion
  else
    let! kind := channel_kind_from_code (pw_channel_kind w) in
    let! _ := map_err PeerEnvelopeError_Name (validate_name (pw_channel_name w)) in
    match pw_recipients w with
    | [] => Err PeerEnvelopeError_NoRecipients
    | _ =>
        let! signature := ok_or (array_from_slice SIG_LEN (pw_signature w))
                            PeerEnvelopeError_SignatureInvalid in
        Ok (MkPeerEnvelope (PeerId_from_bytes (pw_sender_peer_id w)) kind (pw_channel_name w)
              (map (λ r, MkPeerRecipientEnvelope (PeerId_from_bytes (recipient_peer_id r))
                           (prw_nonce r) (prw_ciphertext r)) (pw_recipients w))
              signature)
    end.

Definition PeerEnvelope_to_bytes (e : PeerEnvelope) : result bytes PeerEnvelopeError :=
  of_sum (λ _, PeerEnvelopeError_MsgpackFailed) (to_vec_named (PeerEnvelope_to_wire e)).

Definition PeerEnvelope_from_bytes (b : bytes) : result PeerEnvelope PeerEnvelopeError :=
  let! wire := of_sum (λ _, PeerEnvelopeError_MsgpackFailed) (from_slice b) in
  PeerEnvelope_try_from_wire wire.

(** ** Open *)

Definition PeerEnvelope_open (e : PeerEnvelope) (me : PeerIdentity) (kind : ChannelKind)
    (name : bytes) (trusted : list TrustedPeer) : result PeerEnvelopeMessage PeerEnvelopeError :=
  let! _ := map_err PeerEnvelopeError_Name (validate_name name) in
  let! _ := guard_err (negb (bool_decide (pe_kind e = kind)) || negb (bool_decide (pe_name e = name)))
              PeerEnvelopeError_WrongChannel in
  let recipient_id := PeerIdentity_peer_id me in
  let! entry := ok_or (find_first (λ r, bool_decide (recipient r = recipient_id)) (pe_recipients e))
                  PeerEnvelopeError_NotAddressed in
  let! sender := ok_or (find_first (λ t, bool_decide (TrustedPeer_peer_id t = pe_sender e)) trusted)
                   PeerEnvelopeError_UntrustedSender in
  let! _ := map_err (λ _, PeerEnvelopeError_UntrustedSender) (PeerCard_validate (card sender)) in
  let! key := pairwise_message_key (exchange me) (exchange_key (card sender)) kind name
                (pr_nonce entry) in
  let aad := peer_envelope_aad (pe_sender e) (recipient entry) kind name (pr_nonce entry) in
  let! payload := peer_decrypt key (pr_nonce entry) aad (pr_ciphertext entry) in
  let! preimage := peer_signature_preimage e in
  let! _ := guard_err (negb (verify (signing_key (card sender)) preimage (pe_signature e)))
              PeerEnvelopeError_SignatureInvalid in
  Ok (MkPeerEnvelopeMessage (pe_sender e) (signing_key (card sender)) payload).

Definition PeerEnvelope_open_or_drop (e : PeerEnvelope) (me : PeerIdentity) (kind : ChannelKind)
    (name : bytes) (trusted : list TrustedPeer) : option PeerEnvelopeMessage :=
  ok (PeerEnvelope_open e me kind name trusted).

Definition PeerEnvelope_open_bytes (b : bytes) (me : PeerIdentity) (kind : ChannelKind)
    (name : bytes) (trusted : list TrustedPeer) : result PeerEnvelopeMessage PeerEnvelopeError :=
  let! e := PeerEnvelope_from_bytes b in
  PeerEnvelope_open e me kind name trusted.

Definition PeerEnvelope_open_bytes_or_drop (b : bytes) (me : PeerIdentity) (kind : ChannelKind)
    (name : bytes) (trusted : list TrustedPeer) : option PeerEnvelopeMessage :=
  ok (PeerEnvelope_open_bytes b me kind name trusted).
End PeerEnvelope.

(** ** Encodings that can be read back *)

(** [f a] followed by anything determines [a]. *)
Definition prefix_code {A} (wf : A → Prop) (f : A → bytes) : Prop :=
  ∀ a b r s, wf a → wf b → f a ++ r = f b ++ s → a = b ∧ r = s.

Lemma prefix_code_concat {A} (wf : A → Prop) (f : A → bytes) l k r s :
  prefix_code wf f → Forall wf l → Forall wf k → length l = length k →
  concat (map f l) ++ r = concat (map f k) ++ s → l = k ∧ r = s.
Proof.
  intros Hf Hl. revert k. induction Hl as [|a l Ha Hl IH]; intros [|b k] Hk Hlen; try done.
  inversion_clear Hk. injection Hlen as Hlen. cbn [map concat]. rewrite <- !app_assoc.
  intros [-> Heq]%Hf; [| done | done]. by apply IH in Heq as [-> ->].
Qed.

Lemma encode_str_prefix_code : prefix_code (λ s, len s ≤ u32_max)%N encode_str.
Proof.
  intros a b r s Ha Hb. unfold encode_str. rewrite <- !app_assoc.
  intros H. apply app_inj_length in H as [Hn Heq]; [| by rewrite !length_to_be_bytes].
  apply to_be_bytes_inj in Hn; [| auto with enlace ..].
  unfold len in Hn. apply app_inj_length; [lia | done].
Qed.

Lemma fixed_prefix_code n : prefix_code (λ s : bytes, length s = n) (λ s, s).
Proof. intros a b r s Ha Hb. apply app_inj_length. lia. Qed.

Lemma ChannelKind_prefix_code k k' r s :
  ChannelKind_as_bytes k ++ r = ChannelKind_as_bytes k' ++ s → k = k' ∧ r = s.
Proof. destruct k, k'; simpl; intros [= ->]; done. Qed.

Lemma write_len_prefixed_eq {E} out b :
  write_len_prefixed (E:=E) out b
  = if decide (len b ≤ u32_max)%N then Ok (out ++ encode_str b) else Panic.
Proof. apply write_bytes_eq. Qed.

Lemma channel_kind_code_inj k k' : channel_kind_code k = channel_kind_code k' → k = k'.
Proof. by destruct k, k'. Qed.

(** ** The signed bytes in closed form *)

Definition encode_recipient (r : PeerRecipientEnvelope) : bytes :=
  PeerId_to_bytes (recipient r) ++ pr_nonce r ++ encode_str (pr_ciphertext r).

Definition recipient_fits (r : PeerRecipientEnvelope) : Prop := (len (pr_ciphertext r) ≤ u32_max)%N.

Definition envelope_fits (e : PeerEnvelope) : Prop :=
  (len (pe_name e) ≤ u32_max)%N ∧ (len (pe_recipients e) ≤ u32_max)%N
  ∧ Forall recipient_fits (pe_recipients e).

#[export] Instance recipient_fits_dec r : Decision (recipient_fits r).
Proof. unfold recipient_fits. apply _. Defined.

#[export] Instance envelope_fits_dec e : Decision (envelope_fits e).
Proof. unfold envelope_fits. apply _. Defined.

Definition encode_envelope (e : PeerEnvelope) : bytes :=
  (lit "enlace/v1/pkey/sig/" ++ [PEER_ENVELOPE_RECORD_VERSION])
  ++ PeerId_to_bytes (pe_sender e) ++ [channel_kind_code (pe_kind e)]
  ++ encode_str (pe_name e) ++ to_be_bytes 4 (len (pe_recipients e))
  ++ concat (map encode_recipient (pe_recipients e)).

Lemma write_recipients_eq {E} out l :
  foldl_result (E:=E) write_recipient out l
  = if decide (Forall recipient_fits l) then Ok (out ++ concat (map encode_recipient l)) else Panic.
Proof.
  revert out. induction l as [|r l IH]; intros out; cbn [foldl_result map concat].
  - rewrite decide_True by constructor. by rewrite app_nil_r.
  - unfold write_recipient at 1. rewrite write_len_prefixed_eq.
    destruct (decide (len (pr_ciphertext r) ≤ u32_max)%N) as [Hr|Hr]; cbn [rbind].
    + rewrite IH. destruct (decide (Forall recipient_fits l)) as [Hl|Hl].
      * rewrite decide_True by (by constructor). unfold encode_recipient. by rewrite <- !app_assoc.
      * rewrite decide_False by (by inversion 1). done.
    + rewrite decide_False by (by inversion 1). done.
Qed.

Lemma peer_preimage_eq {E} e :
  peer_signature_preimage (E:=E) e = if decide (envelope_fits e) then Ok (encode_envelope e) else Panic.
Proof.
  unfold peer_signature_preimage. rewrite write_len_prefixed_eq.
  destruct (decide (len (pe_name e) ≤ u32_max)%N) as [Hn|Hn]; cbn [rbind];
    [| rewrite decide_False; [done |]; by intros (? & _)].
  destruct (decide (len (pe_recipients e) ≤ u32_max)%N) as [Hc|Hc].
  - rewrite u32_try_from_Some by done. cbn [expect rbind]. rewrite write_recipients_eq.
    destruct (decide (Forall recipient_fits (pe_recipients e))) as [Hf|Hf].
    + rewrite decide_True by done. unfold encode_envelope. by rewrite <- !app_assoc.
    + rewrite decide_False; [done |]. by intros (_ & _ & ?).
  - rewrite u32_try_from_gt by lia. cbn. rewrite decide_False; [done |]. by intros (_ & ? & _).
Qed.

(** Array fields have their lengths. *)
Definition recipient_wf (r : PeerRecipientEnvelope) : Prop :=
  length (PeerId_to_bytes (recipient r)) = PEER_ID_LEN ∧ length (pr_nonce r) = NONCE_LEN.

Definition envelope_wf (e : PeerEnvelope) : Prop :=
  length (PeerId_to_bytes (pe_sender e)) = PEER_ID_LEN ∧ Forall recipient_wf (pe_recipients e).

Lemma encode_recipient_prefix_code :
  prefix_code (λ r, recipient_wf r ∧ recipient_fits r) encode_recipient.
Proof.
  intros [[i] n c] [[i'] n' c'] r s [[Hi Hn] Hf] [[Hi' Hn'] Hf'].
  unfold encode_recipient. cbn [recipient pr_nonce pr_ciphertext PeerId_to_bytes] in *.
  rewrite <- !app_assoc. intros [-> H]%(fixed_prefix_code PEER_ID_LEN); [| done | done].
  apply (fixed_prefix_code NONCE_LEN) in H as [-> H]; [| done | done].
  by apply encode_str_prefix_code in H as [-> ->].
Qed.

Lemma encode_envelope_inj e e' :
  envelope_wf e → envelope_wf e' → envelope_fits e → envelope_fits e' →
  encode_envelope e = encode_envelope e' → with_signature e [] = with_signature e' [].
Proof.
  destruct e as [[i] k n l s], e' as [[i'] k' n' l' s'].
  intros [Hi Hl] [Hi' Hl'] (Hn & Hc & Hf) (Hn' & Hc' & Hf').
  unfold encode_envelope, with_signature. cbn [pe_sender pe_kind pe_name pe_recipients pe_signature
    PeerId_to_bytes] in *.
  intros H. apply app_inv_head in H.
  apply (fixed_prefix_code PEER_ID_LEN) in H as [-> H]; [| done | done].
  apply (fixed_prefix_code 1) in H as [Hk H]; [| done | done].
  injection Hk as <-%channel_kind_code_inj.
  apply encode_str_prefix_code in H as [-> H]; [| done | done].
  apply app_inj_length in H as [Hlen H]; [| by rewrite !length_to_be_bytes].
  apply to_be_bytes_inj in Hlen; [| auto with enlace ..].
  rewrite <- (app_nil_r (concat _)) in H. rewrite <- (app_nil_r (concat (map _ l'))) in H.
  apply (prefix_code_concat _ _ _ _ _ _ encode_recipient_prefix_code) in H as [-> _]; [done | | |].
  - apply Forall_and. done.
  - apply Forall_and. done.
  - unfold len in Hlen. lia.
Qed.

Section Properties.
Context `{PR : Primitives} `{PL : !PrimitivesLaws} `{UL : UrlLib}.
Context {MP : Msgpack PeerEnvelopeWire} {MPL : MsgpackLaws PeerEnvelopeWire}.

Lemma pairwise_message_key_Ok {E} s p k n nonce :
  ∃ key, pairwise_message_key (E:=E) s p k n nonce = Ok key.
Proof.
  unfold pairwise_message_key. edestruct (hkdf_sha256_Ok (E:=E)) as (key & -> & _); [| eauto].
  unfold AEAD_KEY_LEN. lia.
Qed.

(** Both ends of a pair derive the same key. *)
Lemma pairwise_message_key_comm {E} a b k n nonce :
  pairwise_message_key (E:=E) a (x25519_public b) k n nonce
  = pairwise_message_key b (x25519_public a) k n nonce.
Proof. unfold pairwise_message_key. by rewrite diffie_hellman_comm. Qed.

Lemma PeerId_from_signing_key_length vk :
  length (PeerId_to_bytes (PeerId_from_signing_key vk)) = PEER_ID_LEN.
Proof. unfold PeerId_from_signing_key. cbn [PeerId_to_bytes]. apply sha256_length. Qed.

(** What the sealing loop produces for each card. *)
Definition sealed_for (sender : PeerIdentity) (kind : ChannelKind) (name payload : bytes)
    (c : PeerCard) (r : PeerRecipientEnvelope) : Prop :=
  recipient r = peer_id c ∧ PeerCard_validate c = Ok tt
  ∧ ∃ key, pairwise_message_key (E:=PeerEnvelopeError) (exchange sender) (exchange_key c) kind name
             (pr_nonce r) = Ok key
    ∧ aead_encrypt key (pr_nonce r)
        (peer_envelope_aad (PeerIdentity_peer_id sender) (peer_id c) kind name (pr_nonce r)) payload
      = Some (pr_ciphertext r).

Lemma seal_recipients_Ok sender kind name payload nonces i cards rs :
  seal_recipients sender kind name payload nonces i cards = Ok rs →
  Forall2 (sealed_for sender kind name payload) cards rs
  ∧ ((∀ j, length (nonces j) = NONCE_LEN) → Forall (λ r, length (pr_nonce r) = NONCE_LEN) rs).
Proof.
  revert i rs. induction cards as [|c cards IH]; intros i rs; cbn [seal_recipients].
  - intros [= <-]. by split; constructor.
  - intros ([] & Hv%map_err_Ok & H)%rbind_Ok. apply rbind_Ok in H as (key & Hk & H).
    apply rbind_Ok in H as (ct & Hct%ok_or_Ok & H). apply rbind_Ok in H as (rs' & Hrs & [= <-]).
    apply IH in Hrs as [H1 H2]. split.
    + constructor; [| done]. split_and!; [done | done |]. by exists key.
    + intros Hn. constructor; [apply Hn | by apply H2].
Qed.

Lemma PeerEnvelope_seal_Ok nonces sender kind name payload cards e :
  PeerEnvelope_seal nonces sender kind name payload cards = Ok e →
  name_ok name ∧ cards ≠ [] ∧ pe_sender e = PeerIdentity_peer_id sender ∧ pe_kind e = kind
  ∧ pe_name e = name ∧ Forall2 (sealed_for sender kind name payload) cards (pe_recipients e)
  ∧ envelope_fits e ∧ pe_signature e = sign (signing sender) (encode_envelope e)
  ∧ ((∀ j, length (nonces j) = NONCE_LEN) → Forall (λ r, length (pr_nonce r) = NONCE_LEN) (pe_recipients e)).
Proof.
  unfold PeerEnvelope_seal. intros ([] & Hname%map_err_Ok%validate_name_Ok & H)%rbind_Ok.
  destruct cards as [|c cards]; [done |].
  apply rbind_Ok in H as (rs & Hrs & H). apply rbind_Ok in H as (pre & Hpre & [= <-]).
  apply seal_recipients_Ok in Hrs as [H1 H2].
  rewrite peer_preimage_eq in Hpre. case_decide as Hfit; [| done]. injection Hpre as <-.
  cbn [with_signature pe_sender pe_kind pe_name pe_recipients pe_signature].
  split_and!; done.
Qed.

Lemma Forall2_find_first {A B} (R : A → B → Prop) (q : B → bool) l k a :
  Forall2 R l k → a ∈ l → (∀ b, R a b → q b = true) →
  ∃ b, find_first q k = Some b ∧ ∃ a', a' ∈ l ∧ R a' b.
Proof.
  induction 1 as [|a0 b0 l k Hab Hlk IH]; intros Hin Hq; [by apply not_elem_of_nil in Hin |].
  cbn [find_first]. destruct (q b0) eqn:E; [exists b0; split; [done |]; exists a0; auto with enlace |].
  apply elem_of_cons in Hin as [->|Hin]; [by rewrite Hq in E |].
  destruct (IH Hin Hq) as (b & Hb & a' & Ha' & Hr). exists b. split; [done |].
  exists a'. auto with enlace.
Qed.

(** The pairing both sides have made: the trust list names the sender by the
    sender's own keys, and every card sealed for the recipient's id carries
    the recipient's exchange key. *)
Definition trusts (trusted : list TrustedPeer) (sender : PeerIdentity) : Prop :=
  (∃ t, t ∈ trusted ∧ TrustedPeer_peer_id t = PeerIdentity_peer_id sender)
  ∧ ∀ t, t ∈ trusted → TrustedPeer_peer_id t = PeerIdentity_peer_id sender →
      signing_key (card t) = verifying_key (signing sender)
      ∧ exchange_key (card t) = x25519_public (exchange sender)
      ∧ PeerCard_validate (card t) = Ok tt.

Definition addresses (cards : list PeerCard) (me : PeerIdentity) : Prop :=
  (∃ c, c ∈ cards ∧ peer_id c = PeerIdentity_peer_id me)
  ∧ ∀ c, c ∈ cards → peer_id c = PeerIdentity_peer_id me → exchange_key c = x25519_public (exchange me).

Lemma trusts_find trusted sender :
  trusts trusted sender →
  ∃ t, find_first (λ t, bool_decide (TrustedPeer_peer_id t = PeerIdentity_peer_id sender)) trusted
       = Some t
    ∧ signing_key (card t) = verifying_key (signing sender)
    ∧ exchange_key (card t) = x25519_public (exchange sender) ∧ PeerCard_validate (card t) = Ok tt.
Proof.
  intros [(t & Hin & Ht) Hall].
  destruct (find_first _ trusted) as [t'|] eqn:E.
  - apply find_first_Some in E as [Hin' Hb%bool_decide_eq_true]. eauto.
  - rewrite find_first_None in E. specialize (E t Hin). by apply bool_decide_eq_false in E.
Qed.

Lemma open_seal_aux nonces sender kind name payload cards e me trusted :
  PeerEnvelope_seal nonces sender kind name payload cards = Ok e →
  addresses cards me → trusts trusted sender →
  PeerEnvelope_open e me kind name trusted
  = Ok (MkPeerEnvelopeMessage (PeerIdentity_peer_id sender) (verifying_key (signing sender)) payload).
Proof.
  intros (Hname & _ & Hs & Hk & Hn & Hrs & Hfit & Hsig & _)%PeerEnvelope_seal_Ok [(c & Hc & Hid) Hex] Htr.
  apply validate_name_Ok in Hname.
  destruct (trusts_find _ _ Htr) as (t & Ht & Htk & Htx & Htv).
  destruct (Forall2_find_first _ (λ r, bool_decide (recipient r = PeerIdentity_peer_id me)) _ _ c Hrs Hc)
    as (r & Hr & c' & Hc' & Hseal).
  { intros b (Hb & _). apply bool_decide_eq_true. congruence. }
  pose proof (find_first_Some _ _ _ Hr) as [_ Hrid%bool_decide_eq_true].
  destruct Hseal as (Hrc & _ & key & Hkey & Henc).
  unfold PeerEnvelope_open. rewrite Hname, Hs, Hk, Hn, Hr, Ht.
  rewrite !bool_decide_eq_true_2 by done. cbn [map_err rbind negb orb guard_err ok_or].
  rewrite Htv. cbn [map_err rbind]. rewrite Htx, pairwise_message_key_comm.
  rewrite <- (Hex c' Hc') by congruence. rewrite Hkey. cbn [rbind].
  rewrite Hrc. unfold peer_decrypt. rewrite (aead_decrypt_encrypt _ _ _ _ _ Henc). cbn [ok_or rbind].
  rewrite peer_preimage_eq, decide_True by done. cbn [rbind].
  rewrite Hsig, Htk. unfold verify, sign. by rewrite ed_verify_sign.
Qed.

Lemma try_from_to_wire e :
  name_ok (pe_name e) → pe_recipients e ≠ [] → length (pe_signature e) = SIG_LEN →
  PeerEnvelope_try_from_wire (PeerEnvelope_to_wire e) = Ok e.
Proof.
  destruct e as [[i] k n l s]. cbn [pe_name pe_recipients pe_signature].
  intros Hn%validate_name_Ok Hl Hs. unfold PeerEnvelope_try_from_wire, PeerEnvelope_to_wire.
  cbn [pw_version pw_channel_kind pw_channel_name pw_recipients pw_signature pw_sender_peer_id
    pe_sender pe_kind pe_name pe_recipients pe_signature PeerId_to_bytes].
  rewrite decide_False by (intros []; done).
  assert (channel_kind_from_code (channel_kind_code k) = Ok k) as -> by (by destruct k).
  cbn [rbind]. rewrite Hn. cbn [map_err rbind]. destruct l as [|r l]; [done |]. cbn [map].
  rewrite array_from_slice_length by done. cbn [ok_or rbind]. rewrite map_map.
  do 2 f_equal. destruct r as [[id] no ct]. f_equal.
  rewrite <- (map_id l) at 2. apply map_ext. by intros [[] ? ?].
Qed.

(** A sealed envelope is what its bytes decode to. *)
Lemma PeerEnvelope_from_to_bytes nonces sender kind name payload cards e b :
  PeerEnvelope_seal nonces sender kind name payload cards = Ok e →
  PeerEnvelope_to_bytes e = Ok b → PeerEnvelope_from_bytes b = Ok e.
Proof.
  intros (Hn & Hc & _ & _ & Hname & Hrs & _ & Hsig & _)%PeerEnvelope_seal_Ok Hb%of_sum_Ok%from_slice_to_vec_named.
  unfold PeerEnvelope_from_bytes. rewrite Hb. cbn [of_sum rbind].
  rewrite try_from_to_wire; [done | by rewrite Hname | | rewrite Hsig; apply ed_sign_length].
  intros Hnil. rewrite Hnil in Hrs. by inversion Hrs; subst.
Qed.

Lemma open_bytes_seal_aux nonces sender kind name payload cards e me trusted b :
  PeerEnvelope_seal nonces sender kind name payload cards = Ok e →
  addresses cards me → trusts trusted sender → PeerEnvelope_to_bytes e = Ok b →
  PeerEnvelope_open_bytes b me kind name trusted
  = Ok (MkPeerEnvelopeMessage (PeerIdentity_peer_id sender) (verifying_key (signing sender)) payload).
Proof.
  intros Hs Ha Ht Hb. unfold PeerEnvelope_open_bytes.
  rewrite (PeerEnvelope_from_to_bytes _ _ _ _ _ _ _ _ Hs Hb). by eapply open_seal_aux.
Qed.

(** The conditions under which an envelope opens, read off the code. *)
Lemma PeerEnvelope_open_Ok e me kind name trusted m :
  PeerEnvelope_open e me kind name trusted = Ok m →
  name_ok name ∧ pe_kind e = kind ∧ pe_name e = name
  ∧ ∃ entry t key,
      entry ∈ pe_recipients e ∧ recipient entry = PeerIdentity_peer_id me
      ∧ t ∈ trusted ∧ TrustedPeer_peer_id t = pe_sender e ∧ PeerCard_validate (card t) = Ok tt
      ∧ pairwise_message_key (E:=PeerEnvelopeError) (exchange me) (exchange_key (card t)) kind name
          (pr_nonce entry) = Ok key
      ∧ aead_decrypt key (pr_nonce entry)
          (peer_envelope_aad (pe_sender e) (recipient entry) kind name (pr_nonce entry))
          (pr_ciphertext entry) = Some (pm_payload m)
      ∧ envelope_fits e ∧ verify (signing_key (card t)) (encode_envelope e) (pe_signature e) = true
      ∧ pm_sender m = pe_sender e ∧ pm_signed_by m = signing_key (card t).
Proof.
  unfold PeerEnvelope_open. intros ([] & Hname%map_err_Ok%validate_name_Ok & H)%rbind_Ok.
  apply rbind_Ok in H as ([] & Hch%guard_err_Ok & H).
  apply orb_false_iff in Hch as [Hk Hn]. apply negb_false_iff, bool_decide_eq_true in Hk, Hn.
  apply rbind_Ok in H as (entry & [Hen Hid%bool_decide_eq_true]%ok_or_Ok%find_first_Some & H).
  apply rbind_Ok in H as (t & [Ht Htid%bool_decide_eq_true]%ok_or_Ok%find_first_Some & H).
  apply rbind_Ok in H as ([] & Hv%map_err_Ok & H). apply rbind_Ok in H as (key & Hkey & H).
  apply rbind_Ok in H as (payload & Hp%ok_or_Ok & H). apply rbind_Ok in H as (pre & Hpre & H).
  apply rbind_Ok in H as ([] & Hsig%guard_err_Ok%negb_false_iff & [= <-]).
  rewrite peer_preimage_eq in Hpre. case_decide as Hfit; [| done]. injection Hpre as <-.
  split_and!; [done | done | done |]. exists entry, t, key. cbn [pm_payload pm_sender pm_signed_by].
  split_and!; done.
Qed.

(** ** Claims *)

(** C1: what one peer seals, the other opens.  When [seal] succeeds, every
    addressed recipient that trusts the sender opens the envelope (directly,
    or from its serialized bytes) and gets the payload, the sender's id and
    the sender's verifying key. *)
Theorem peer_envelope_roundtrip (nonces : nat → bytes) (sender me : PeerIdentity)
    (kind : ChannelKind) (name payload : bytes) (cards : list PeerCard)
    (trusted : list TrustedPeer) (e : PeerEnvelope) :
  PeerEnvelope_seal nonces sender kind name payload cards = Ok e →
  addresses cards me → trusts trusted sender →
  let m := MkPeerEnvelopeMessage (PeerIdentity_peer_id sender) (verifying_key (signing sender)) payload in
  PeerEnvelope_open e me kind name trusted = Ok m
  ∧ ∀ b, PeerEnvelope_to_bytes e = Ok b → PeerEnvelope_open_bytes b me kind name trusted = Ok m.
Proof.
  intros Hseal Haddr Htr m. split; [by eapply open_seal_aux |].
  intros b Hb. by eapply open_bytes_seal_aux.
Qed.

(** C2: an envelope opens only if it is authentic: the requested channel is
    the envelope's own, the recipient is addressed, and the signature
    verifies, over exactly this envelope's contents, under the signing key of
    a valid card in the trust list whose id is derived from that key and is
    the sender reported to the caller. *)
Theorem peer_envelope_open_authentic (e : PeerEnvelope) (me : PeerIdentity) (kind : ChannelKind)
    (name : bytes) (trusted : list TrustedPeer) (m : PeerEnvelopeMessage) :
  PeerEnvelope_open e me kind name trusted = Ok m →
  name_ok name ∧ pe_kind e = kind ∧ pe_name e = name
  ∧ Exists (λ r, recipient r = PeerIdentity_peer_id me) (pe_recipients e)
  ∧ pm_sender m = pe_sender e
  ∧ pm_sender m = PeerId_from_signing_key (pm_signed_by m)
  ∧ Exists (λ t, TrustedPeer_peer_id t = pm_sender m ∧ signing_key (card t) = pm_signed_by m
                 ∧ PeerCard_validate (card t) = Ok tt) trusted
  ∧ verify (pm_signed_by m) (encode_envelope e) (pe_signature e) = true.
Proof.
  intros (Hn & Hk & Hnm & en & t & key & Hen & Hid & Ht & Htid & Hv & _ & _ & Hfit & Hsig & Hs & Hby)
    %PeerEnvelope_open_Ok.
  split_and!; try done.
  - apply Exists_exists. by exists en.
  - rewrite Hs, Hby, <- Htid. apply PeerCard_validate_Ok in Hv as [Hv _]. done.
  - apply Exists_exists. exists t. by rewrite Hs, Hby.
  - by rewrite Hby.
Qed.

(** The signed bytes determine the envelope: two envelopes with the same
    signature preimage agree on the sender, the channel, and the recipients
    with their nonces and ciphertexts, so a signature cannot be moved to a
    different envelope.  Computing the preimage fails only when a length
    exceeds [u32]. *)
Lemma peer_preimage_injective (e e' : PeerEnvelope) (p : bytes) :
  envelope_wf e → envelope_wf e' →
  peer_signature_preimage (E:=PeerEnvelopeError) e = Ok p →
  peer_signature_preimage (E:=PeerEnvelopeError) e' = Ok p →
  pe_sender e = pe_sender e' ∧ pe_kind e = pe_kind e' ∧ pe_name e = pe_name e'
  ∧ pe_recipients e = pe_recipients e'.
Proof.
  intros Hwf Hwf'. rewrite !peer_preimage_eq.
  case_decide as Hf; [| done]. case_decide as Hf'; [| done]. intros H1 H2.
  assert (encode_envelope e = encode_envelope e') as Heq by congruence.
  pose proof (encode_envelope_inj e e' Hwf Hwf' Hf Hf' Heq) as H.
  unfold with_signature in H. by injection H.
Qed.
End Properties.

#[export] Instance PeerRecipientEnvelopeWire_eq_dec : EqDecision PeerRecipientEnvelopeWire.
Proof. solve_decision. Defined.

#[export] Instance PeerRecipientEnvelopeWire_countable : Countable PeerRecipientEnvelopeWire.
Proof.
  by refine (inj_countable' (λ r, (recipient_peer_id r, prw_nonce r, prw_ciphertext r))
    (λ '(a, b, c), MkPeerRecipientEnvelopeWire a b c) _); intros [].
Defined.

#[export] Instance PeerEnvelopeWire_eq_dec : EqDecision PeerEnvelopeWire.
Proof. solve_decision. Defined.

#[export] Instance PeerEnvelopeWire_countable : Countable PeerEnvelopeWire.
Proof.
  by refine (inj_countable'
    (λ w, (pw_version w, pw_sender_peer_id w, pw_channel_kind w, pw_channel_name w, pw_recipients w,
           pw_signature w))
    (λ '(a, b, c, d, e, f), MkPeerEnvelopeWire a b c d e f) _); intros [].
Defined.

(** ** Witnesses *)
Module PeerEnvelopeWitness.
Import Toy.
Local Existing Instance ToyUrl.toy_url.
Local Instance peer_msgpack : Msgpack PeerEnvelopeWire := toy_msgpack.
Local Instance peer_msgpack_laws : MsgpackLaws PeerEnvelopeWire := toy_msgpack_laws.

Definition alice : PeerIdentity := PeerIdentity_generate (key_bytes x01) (key_bytes x02).
Definition bob : PeerIdentity := PeerIdentity_generate (key_bytes x03) (key_bytes x04).
Definition toy_nonces (i : nat) : bytes := to_be_bytes NONCE_LEN (N.of_nat i).

Definition toy_envelope : result PeerEnvelope PeerEnvelopeError :=
  PeerEnvelope_seal toy_nonces alice ChMailbox (lit "a/b") (lit "hi") [PeerIdentity_card bob].

Definition toy_opened : PeerEnvelope :=
  match toy_envelope with Ok e => e | _ => MkPeerEnvelope (MkPeerId []) ChMailbox [] [] [] end.

Lemma toy_addresses : addresses [PeerIdentity_card bob] bob.
Proof.
  split; [exists (PeerIdentity_card bob); split; [apply list_elem_of_here | reflexivity] |].
  intros c [->|Hc]%elem_of_cons; [done | by apply not_elem_of_nil in Hc].
Qed.

Lemma toy_trusts : trusts [TrustedPeer_new (PeerIdentity_card alice)] alice.
Proof.
  split; [eexists; split; [apply list_elem_of_here | reflexivity] |].
  intros c [->|Hc]%elem_of_cons; [| by apply not_elem_of_nil in Hc].
  intros _. split_and!; [done | done | vm_refl].
Qed.

Lemma peer_envelope_roundtrip_witness :
  PeerEnvelope_open toy_opened bob ChMailbox (lit "a/b") [TrustedPeer_new (PeerIdentity_card alice)]
  = Ok (MkPeerEnvelopeMessage (PeerIdentity_peer_id alice) (verifying_key (signing alice)) (lit "hi")).
Proof.
  refine (proj1 (peer_envelope_roundtrip toy_nonces alice bob ChMailbox (lit "a/b") (lit "hi")
    [PeerIdentity_card bob] [TrustedPeer_new (PeerIdentity_card alice)] toy_opened _
    toy_addresses toy_trusts)).
  vm_refl.
Defined.

Lemma peer_envelope_open_authentic_witness :
  verify (verifying_key (signing alice)) (encode_envelope toy_opened) (pe_signature toy_opened) = true.
Proof.
  assert (PeerEnvelope_open toy_opened bob ChMailbox (lit "a/b")
            [TrustedPeer_new (PeerIdentity_card alice)]
          = Ok (MkPeerEnvelopeMessage (PeerIdentity_peer_id alice) (verifying_key (signing alice))
                  (lit "hi"))) as H by (vm_refl).
  apply peer_envelope_open_authentic in H. apply H.
Defined.

End PeerEnvelopeWitness.
