(* ===== verification/GroupEnvelope.v ===== *)
(** * peer.rs: group envelopes

    A group envelope carries one ciphertext per group key and the sender's
    signature.  Opening walks the entries and the keys the caller holds, in
    order, and stops at the first entry that decrypts. *)

From S2P Require Import Prelude Bytes Crypto Kdf Net Guard Errors Dedup Config PeerCard Msgpack PeerEnvelope.

Definition GROUP_ENVELOPE_RECORD_VERSION : byte := x01.

Definition group_channel_kind_from_code (code : byte) : result ChannelKind GroupEnvelopeError :=
  match code with
  | x00 => Ok ChMailbox
  | x01 => Ok ChSlot
  | _ => Err GroupEnvelopeError_MsgpackFailed
  end.

Record GroupEnvelopeEntry : Type := MkGroupEnvelopeEntry {
  ge_group : GroupId;
  ge_key_id : GroupKeyId;
  ge_nonce : bytes;
  ge_ciphertext : bytes
}.

Record GroupEnvelopeEntryWire : Type := MkGroupEnvelopeEntryWire {
  gw_group_id : bytes;
  gw_key_id : bytes;
  gw_nonce : bytes;
  gw_ciphertext : bytes
}.

Record GroupEnvelopeWire : Type := MkGroupEnvelopeWire {
  gw_version : byte;
  gw_sender_peer_id : bytes;
  gw_channel_kind : byte;
  gw_channel_name : bytes;
  gw_entries : list GroupEnvelopeEntryWire;
  gw_signature : bytes
}.

Record GroupEnvelope : Type := MkGroupEnvelope {
  gr_sender : PeerId;
  gr_kind : ChannelKind;
  gr_name : bytes;
  gr_entries : list GroupEnvelopeEntry;
  gr_signature : bytes
}.

Section GroupEnvelope.
Context `{PR : Primitives} `{UL : UrlLib} {MP : Msgpack GroupEnvelopeWire}.

Record GroupEnvelopeMessage : Type := MkGroupEnvelopeMessage {
  gm_sender : PeerId;
  gm_signed_by : VerifyingKey;
  gm_group : GroupId;
  gm_key_id : GroupKeyId;
  gm_payload : bytes
}.

Definition group_message_key {E} (group : GroupId) (key : GroupKey) (kind : ChannelKind)
    (name nonce : bytes) : result bytes E :=
  let info := lit "enlace/v1/pkey/group" ++ GroupId_to_bytes group ++ GroupKeyId_to_bytes (gk_id key)
              ++ ChannelKind_as_bytes kind ++ name ++ nonce in
  hkdf_sha256 (gk_secret key) [] info AEAD_KEY_LEN.

Definition group_encrypt (key nonce aad plaintext : bytes) : result bytes GroupEnvelopeError :=
  ok_or (aead_encrypt key nonce aad plaintext) GroupEnvelopeError_AeadFailed.

Definition group_decrypt (key nonce aad ciphertext : bytes) : result bytes GroupEnvelopeError :=
  ok_or (aead_decrypt key nonce aad ciphertext) GroupEnvelopeError_AeadFailed.

Definition group_envelope_aad (sender : PeerId) (group : GroupId) (key_id : GroupKeyId)
    (kind : ChannelKind) (name nonce : bytes) : bytes :=
  lit "enlace/v1/pkey/group/aead/" ++ PeerId_to_bytes sender ++ GroupId_to_bytes group
  ++ GroupKeyId_to_bytes key_id ++ ChannelKind_as_bytes kind ++ name ++ nonce.

Definition write_entry {E} (out : bytes) (e : GroupEnvelopeEntry) : result bytes E :=
  write_len_prefixed
    (out ++ GroupId_to_bytes (ge_group e) ++ GroupKeyId_to_bytes (ge_key_id e) ++ ge_nonce e)
    (ge_ciphertext e).

Definition group_signature_preimage {E} (e : GroupEnvelope) : result bytes E :=
  let out := lit "enlace/v1/pkey/group/sig/" ++ [GROUP_ENVELOPE_RECORD_VERSION]
             ++ PeerId_to_bytes (gr_sender e) ++ [channel_kind_code (gr_kind e)] in
  let! out := write_len_prefixed out (gr_name e) in
  let! count := expect (u32_try_from (len (gr_entries e))) in
  foldl_result write_entry (out ++ to_be_bytes 4 count) (gr_entries e).

(** ** Seal *)

Fixpoint seal_entries (sender_id : PeerId) (kind : ChannelKind) (name payload : bytes)
    (nonces : nat → bytes) (i : nat) (keys : list (GroupId * GroupKey))
    : result (list GroupEnvelopeEntry) GroupEnvelopeError :=
  match keys with
  | [] => Ok []
  | (group, key) :: rest =>
      let nonce := nonces i in
      let! message_key := group_message_key group key kind name nonce in
      let aad := group_envelope_aad sender_id group (gk_id key) kind name nonce in
      let! ciphertext := group_encrypt message_key nonce aad payload in
      let! es := seal_entries sender_id kind name payload nonces (S i) rest in
      Ok (MkGroupEnvelopeEntry group (gk_id key) nonce ciphertext :: es)
  end.

Definition group_with_signature (e : GroupEnvelope) (s : bytes) : GroupEnvelope :=
  MkGroupEnvelope (gr_sender e) (gr_kind e) (gr_name e) (gr_entries e) s.

Definition GroupEnvelope_seal (nonces : nat → bytes) (sender : PeerIdentity) (kind : ChannelKind)
    (name payload : bytes) (group_keys : list (GroupId * GroupKey))
    : result GroupEnvelope GroupEnvelopeError :=
  let! _ := map_err GroupEnvelopeError_Name (validate_name name) in
  match group_keys with
  | [] => Err GroupEnvelopeError_NoGroupKeys
  | _ =>
      let sender_id := PeerIdentity_peer_id sender in
      let! entries := seal_entries sender_id kind name payload nonces 0 group_keys in
      let e := MkGroupEnvelope sender_id kind name entries (replicate SIG_LEN x00) in
      let! preimage := group_signature_preimage e in
      Ok (group_with_signature e (sign (signing sender) preimage))
  end.

(** ** Wire format *)

Definition GroupEnvelope_to_wire (e : GroupEnvelope) : GroupEnvelopeWire :=
  MkGroupEnvelopeWire GROUP_ENVELOPE_RECORD_VERSION (PeerId_to_bytes (gr_sender e))
    (channel_kind_code (gr_kind e)) (gr_name e)
    (map (λ x, MkGroupEnvelopeEntryWire (GroupId_to_bytes (ge_group x))
                 (GroupKeyId_to_bytes (ge_key_id x)) (ge_nonce x) (ge_ciphertext x)) (gr_entries e))
    (gr_signature e).

Definition GroupEnvelope_try_from_wire (w : GroupEnvelopeWire) : result GroupEnvelope GroupEnvelopeError :=
  if decide (gw_version w ≠ GROUP_ENVELOPE_RECORD_VERSION)
  then Err GroupEnvelopeError_UnsupportedVersion
  else
    let! kind := group_channel_kind_from_code (gw_channel_kind w) in
    let! _ := map_err GroupEnvelopeError_Name (validate_name (gw_channel_name w)) in
    match gw_entries w with
    | [] => Err GroupEnvelopeError_NoGroupKeys
    | _ =>
        let! signature := ok_or (array_from_slice SIG_LEN (gw_signature w))
                            GroupEnvelopeError_SignatureInvalid in
        Ok (MkGroupEnvelope (PeerId_from_bytes (gw_sender_peer_id w)) kind (gw_channel_name w)
              (map (λ x, MkGroupEnvelopeEntry (GroupId_from_bytes (gw_group_id x))
                           (GroupKeyId_from_bytes (gw_key_id x)) (gw_nonce x) (gw_ciphertext x))
                 (gw_entries w))
              signature)
    end.

Definition GroupEnvelope_to_bytes (e : GroupEnvelope) : result bytes GroupEnvelopeError :=
  of_sum (λ _, GroupEnvelopeError_MsgpackFailed) (to_vec_named (GroupEnvelope_to_wire e)).

Definition GroupEnvelope_from_bytes (b : bytes) : result GroupEnvelope GroupEnvelopeError :=
  let! wire := of_sum (λ _, GroupEnvelopeError_MsgpackFailed) (from_slice b) in
  GroupEnvelope_try_from_wire wire.

(** ** Open *)

(** One iteration either returns from [open] or goes on with the flags
    [had_matching_key] and [had_aead_failure]. *)
Inductive flow : Type :=
| Return (r : result GroupEnvelopeMessage GroupEnvelopeError)
| Continue (had_matching_key had_aead_failure : bool).

(** The body of the inner loop. *)
Definition try_key (e : GroupEnvelope) (signer : VerifyingKey) (kind : ChannelKind) (name : bytes)
    (entry : GroupEnvelopeEntry) (gk : GroupId * GroupKey) (matching aead : bool) : flow :=
  let '(group, key) := gk in
  if negb (bool_decide (group = ge_group entry)) || negb (bool_decide (gk_id key = ge_key_id entry))
  then Continue matching aead
  else
    match group_message_key group key kind name (ge_nonce entry) with
    | Err err => Return (Err err)
    | Panic => Return Panic
    | Ok message_key =>
        let aad := group_envelope_aad (gr_sender e) group (gk_id key) kind name (ge_nonce entry) in
        match group_decrypt message_key (ge_nonce entry) aad (ge_ciphertext entry) with
        | Ok payload =>
            Return (let! preimage := group_signature_preimage e in
                    let! _ := guard_err (negb (verify signer preimage (gr_signature e)))
                                GroupEnvelopeError_SignatureInvalid in
                    Ok (MkGroupEnvelopeMessage (gr_sender e) signer group (gk_id key) payload))
        | Err GroupEnvelopeError_AeadFailed => Continue true true
        | Err err => Return (Err err)
        | Panic => Return Panic
        end
    end.

Fixpoint try_keys (e : GroupEnvelope) (signer : VerifyingKey) (kind : ChannelKind) (name : bytes)
    (entry : GroupEnvelopeEntry) (keys : list (GroupId * GroupKey)) (matching aead : bool) : flow :=
  match keys with
  | [] => Continue matching aead
  | gk :: rest =>
      match try_key e signer kind name entry gk matching aead with
      | Return r => Return r
      | Continue matching aead => try_keys e signer kind name entry rest matching aead
      end
  end.

Fixpoint try_entries (e : GroupEnvelope) (signer : VerifyingKey) (kind : ChannelKind) (name : bytes)
    (entries : list GroupEnvelopeEntry) (keys : list (GroupId * GroupKey)) (matching aead : bool)
    : flow :=
  match entries with
  | [] => Continue matching aead
  | entry :: rest =>
      match try_keys e signer kind name entry keys matching aead with
      | Return r => Return r
      | Continue matching aead => try_entries e signer kind name rest keys matching aead
      end
  end.

Definition GroupEnvelope_open (e : GroupEnvelope) (kind : ChannelKind) (name : bytes)
    (trusted : list TrustedPeer) (group_keys : list (GroupId * GroupKey))
    : result GroupEnvelopeMessage GroupEnvelopeError :=
  let! _ := map_err GroupEnvelopeError_Name (validate_name name) in
  let! _ := guard_err (negb (bool_decide (gr_kind e = kind)) || negb (bool_decide (gr_name e = name)))
              GroupEnvelopeError_WrongChannel in
  let! sender := ok_or (find_first (λ t, bool_decide (TrustedPeer_peer_id t = gr_sender e)) trusted)
                   GroupEnvelopeError_UntrustedSender in
  let! _ := map_err (λ _, GroupEnvelopeError_UntrustedSender) (PeerCard_validate (card sender)) in
  match try_entries e (signing_key (card sender)) kind name (gr_entries e) group_keys false false with
  | Return r => r
  | Continue had_matching_key had_aead_failure =>
      if had_aead_failure && had_matching_key then Err GroupEnvelopeError_AeadFailed
      else Err GroupEnvelopeError_MissingGroupKey
  end.

Definition GroupEnvelope_open_or_drop (e : GroupEnvelope) (kind : ChannelKind) (name : bytes)
    (trusted : list TrustedPeer) (group_keys : list (GroupId * GroupKey)) : option GroupEnvelopeMessage :=
  ok (GroupEnvelope_open e kind name trusted group_keys).

Definition GroupEnvelope_open_bytes (b : bytes) (kind : ChannelKind) (name : bytes)
    (trusted : list TrustedPeer) (group_keys : list (GroupId * GroupKey))
    : result GroupEnvelopeMessage GroupEnvelopeError :=
  let! e := GroupEnvelope_from_bytes b in
  GroupEnvelope_open e kind name trusted group_keys.

Definition GroupEnvelope_open_bytes_or_drop (b : bytes) (kind : ChannelKind) (name : bytes)
    (trusted : list TrustedPeer) (group_keys : list (GroupId * GroupKey)) : option GroupEnvelopeMessage :=
  ok (GroupEnvelope_open_bytes b kind name trusted group_keys).
End GroupEnvelope.

(** ** The signed bytes in closed form *)

Definition encode_entry (e : GroupEnvelopeEntry) : bytes :=
  GroupId_to_bytes (ge_group e) ++ GroupKeyId_to_bytes (ge_key_id e) ++ ge_nonce e
  ++ encode_str (ge_ciphertext e).

Definition entry_fits (e : GroupEnvelopeEntry) : Prop := (len (ge_ciphertext e) ≤ u32_max)%N.

Definition group_fits (e : GroupEnvelope) : Prop :=
  (len (gr_name e) ≤ u32_max)%N ∧ (len (gr_entries e) ≤ u32_max)%N
  ∧ Forall entry_fits (gr_entries e).

#[export] Instance entry_fits_dec e : Decision (entry_fits e).
Proof. unfold entry_fits. apply _. Defined.

#[export] Instance group_fits_dec e : Decision (group_fits e).
Proof. unfold group_fits. apply _. Defined.

Definition encode_group (e : GroupEnvelope) : bytes :=
  (lit "enlace/v1/pkey/group/sig/" ++ [GROUP_ENVELOPE_RECORD_VERSION])
  ++ PeerId_to_bytes (gr_sender e) ++ [channel_kind_code (gr_kind e)]
  ++ encode_str (gr_name e) ++ to_be_bytes 4 (len (gr_entries e))
  ++ concat (map encode_entry (gr_entries e)).

Lemma write_entries_eq {E} out l :
  foldl_result (E:=E) write_entry out l
  = if decide (Forall entry_fits l) then Ok (out ++ concat (map encode_entry l)) else Panic.
Proof.
  revert out. induction l as [|r l IH]; intros out; cbn [foldl_result map concat].
  - rewrite decide_True by constructor. by rewrite app_nil_r.
  - unfold write_entry at 1. rewrite write_len_prefixed_eq.
    destruct (decide (len (ge_ciphertext r) ≤ u32_max)%N) as [Hr|Hr]; cbn [rbind].
    + rewrite IH. destruct (decide (Forall entry_fits l)) as [Hl|Hl].
      * rewrite decide_True by (by constructor). unfold encode_entry. by rewrite <- !app_assoc.
      * rewrite decide_False by (by inversion 1). done.
    + rewrite decide_False by (by inversion 1). done.
Qed.

Lemma group_preimage_eq {E} e :
  group_signature_preimage (E:=E) e = if decide (group_fits e) then Ok (encode_group e) else Panic.
Proof.
  unfold group_signature_preimage. rewrite write_len_prefixed_eq.
  destruct (decide (len (gr_name e) ≤ u32_max)%N) as [Hn|Hn]; cbn [rbind];
    [| rewrite decide_False; [done |]; by intros (? & _)].
  destruct (decide (len (gr_entries e) ≤ u32_max)%N) as [Hc|Hc].
  - rewrite u32_try_from_Some by done. cbn [expect rbind]. rewrite write_entries_eq.
    destruct (decide (Forall entry_fits (gr_entries e))) as [Hf|Hf].
    + rewrite decide_True by done. unfold encode_group. by rewrite <- !app_assoc.
    + rewrite decide_False; [done |]. by intros (_ & _ & ?).
  - rewrite u32_try_from_gt by lia. cbn. rewrite decide_False; [done |]. by intros (_ & ? & _).
Qed.

Definition entry_wf (e : GroupEnvelopeEntry) : Prop :=
  length (GroupId_to_bytes (ge_group e)) = GROUP_ID_LEN
  ∧ length (GroupKeyId_to_bytes (ge_key_id e)) = GROUP_KEY_ID_LEN ∧ length (ge_nonce e) = NONCE_LEN.

Definition group_wf (e : GroupEnvelope) : Prop :=
  length (PeerId_to_bytes (gr_sender e)) = PEER_ID_LEN ∧ Forall entry_wf (gr_entries e).

Lemma encode_entry_prefix_code : prefix_code (λ e, entry_wf e ∧ entry_fits e) encode_entry.
Proof.
  intros [[g] [k] n c] [[g'] [k'] n' c'] r s [(Hg & Hk & Hn) Hf] [(Hg' & Hk' & Hn') Hf'].
  unfold encode_entry. cbn [ge_group ge_key_id ge_nonce ge_ciphertext GroupId_to_bytes
    GroupKeyId_to_bytes] in *.
  rewrite <- !app_assoc. intros [-> H]%(fixed_prefix_code GROUP_ID_LEN); [| done | done].
  apply (fixed_prefix_code GROUP_KEY_ID_LEN) in H as [-> H]; [| done | done].
  apply (fixed_prefix_code NONCE_LEN) in H as [-> H]; [| done | done].
  by apply encode_str_prefix_code in H as [-> ->].
Qed.

Lemma encode_group_inj e e' :
  group_wf e → group_wf e' → group_fits e → group_fits e' →
  encode_group e = encode_group e' → group_with_signature e [] = group_with_signature e' [].
Proof.
  destruct e as [[i] k n l s], e' as [[i'] k' n' l' s'].
  intros [Hi Hl] [Hi' Hl'] (Hn & Hc & Hf) (Hn' & Hc' & Hf').
  unfold encode_group, group_with_signature. cbn [gr_sender gr_kind gr_name gr_entries gr_signature
    PeerId_to_bytes] in *.
  intros H. apply app_inv_head in H.
  apply (fixed_prefix_code PEER_ID_LEN) in H as [-> H]; [| done | done].
  apply (fixed_prefix_code 1) in H as [Hk H]; [| done | done].
  injection Hk as <-%channel_kind_code_inj.
  apply encode_str_prefix_code in H as [-> H]; [| done | done].
  apply app_inj_length in H as [Hlen H]; [| by rewrite !length_to_be_bytes].
  apply to_be_bytes_inj in Hlen; [| auto with enlace ..].
  rewrite <- (app_nil_r (concat _)) in H. rewrite <- (app_nil_r (concat (map _ l'))) in H.
  apply (prefix_code_concat _ _ _ _ _ _ encode_entry_prefix_code) in H as [-> _]; [done | | |].
  - apply Forall_and. done.
  - apply Forall_and. done.
  - unfold len in Hlen. lia.
Qed.

(** Pairwise and group envelopes never share signed bytes. *)
Lemma peer_group_preimage_distinct p g : encode_envelope p ≠ encode_group g.
Proof. unfold encode_envelope, encode_group. simpl. intros [=]. Qed.

Section Properties.
Context `{PR : Primitives} `{PL : !PrimitivesLaws} `{UL : UrlLib}.
Context {MP : Msgpack GroupEnvelopeWire} {MPL : MsgpackLaws GroupEnvelopeWire}.

Lemma group_message_key_Ok {E} g k kind name nonce :
  ∃ key, group_message_key (E:=E) g k kind name nonce = Ok key.
Proof.
  unfold group_message_key. edestruct (hkdf_sha256_Ok (E:=E)) as (key & -> & _); [| eauto].
  unfold AEAD_KEY_LEN. lia.
Qed.

(** ** The search, as a function of the pairs *)

Definition matches (entry : GroupEnvelopeEntry) (gk : GroupId * GroupKey) : bool :=
  bool_decide (gk.1 = ge_group entry) && bool_decide (gk_id gk.2 = ge_key_id entry).

(** The payload of [entry] under the key [gk], if the ids match and the
    ciphertext authenticates. *)
Definition attempt (sender : PeerId) (kind : ChannelKind) (name : bytes) (entry : GroupEnvelopeEntry)
    (gk : GroupId * GroupKey) : option bytes :=
  if matches entry gk then
    match group_message_key (E:=GroupEnvelopeError) gk.1 gk.2 kind name (ge_nonce entry) with
    | Ok key =>
        aead_decrypt key (ge_nonce entry)
          (group_envelope_aad sender gk.1 (gk_id gk.2) kind name (ge_nonce entry)) (ge_ciphertext entry)
    | _ => None
    end
  else None.

(** The first entry, in envelope order, that some key of the caller opens,
    with the first such key. *)
Fixpoint first_key (sender : PeerId) (kind : ChannelKind) (name : bytes) (entry : GroupEnvelopeEntry)
    (keys : list (GroupId * GroupKey)) : option (GroupId * GroupKey * bytes) :=
  match keys with
  | [] => None
  | gk :: rest =>
      match attempt sender kind name entry gk with
      | Some p => Some (gk, p)
      | None => first_key sender kind name entry rest
      end
  end.

Fixpoint first_opened (sender : PeerId) (kind : ChannelKind) (name : bytes)
    (entries : list GroupEnvelopeEntry) (keys : list (GroupId * GroupKey))
    : option (GroupId * GroupKey * bytes) :=
  match entries with
  | [] => None
  | entry :: rest =>
      match first_key sender kind name entry keys with
      | Some r => Some r
      | None => first_opened sender kind name rest keys
      end
  end.

Definition any_match (entries : list GroupEnvelopeEntry) (keys : list (GroupId * GroupKey)) : bool :=
  existsb (λ entry, existsb (matches entry) keys) entries.

(** The verdict on the entry that opened. *)
Definition finish_open (e : GroupEnvelope) (signer : VerifyingKey) (r : GroupId * GroupKey * bytes)
    : result GroupEnvelopeMessage GroupEnvelopeError :=
  let! preimage := group_signature_preimage e in
  let! _ := guard_err (negb (verify signer preimage (gr_signature e))) GroupEnvelopeError_SignatureInvalid in
  Ok (MkGroupEnvelopeMessage (gr_sender e) signer r.1.1 (gk_id r.1.2) r.2).

Lemma try_key_eq e signer kind name entry gk m a :
  try_key e signer kind name entry gk m a
  = match attempt (gr_sender e) kind name entry gk with
    | Some p => Return (finish_open e signer (gk, p))
    | None => if matches entry gk then Continue true true else Continue m a
    end.
Proof.
  unfold try_key, attempt, matches. destruct gk as [g k]. cbn [fst snd].
  destruct (bool_decide (g = ge_group entry)), (bool_decide (gk_id k = ge_key_id entry));
    cbn [negb orb andb]; try done.
  destruct (group_message_key_Ok (E:=GroupEnvelopeError) g k kind name (ge_nonce entry)) as (key & ->).
  unfold group_decrypt. by destruct (aead_decrypt _ _ _ _).
Qed.

Lemma try_keys_eq e signer kind name entry keys m a :
  try_keys e signer kind name entry keys m a
  = match first_key (gr_sender e) kind name entry keys with
    | Some r => Return (finish_open e signer r)
    | None => if existsb (matches entry) keys then Continue true true else Continue m a
    end.
Proof.
  revert m a. induction keys as [|gk keys IH]; intros m a; [done |].
  cbn [try_keys first_key existsb]. rewrite try_key_eq.
  destruct (attempt (gr_sender e) kind name entry gk); [done |].
  destruct (matches entry gk); rewrite IH; destruct (first_key _ _ _ _ _); cbn [orb];
    try done. by destruct (existsb _ keys).
Qed.

Lemma try_entries_eq e signer kind name entries keys m a :
  try_entries e signer kind name entries keys m a
  = match first_opened (gr_sender e) kind name entries keys with
    | Some r => Return (finish_open e signer r)
    | None => if any_match entries keys then Continue true true else Continue m a
    end.
Proof.
  revert m a. induction entries as [|x entries IH]; intros m a; [done |].
  cbn [try_entries first_opened any_match existsb]. rewrite try_keys_eq.
  destruct (first_key (gr_sender e) kind name x keys); [done |].
  fold (any_match entries keys).
  destruct (existsb (matches x) keys); rewrite IH; destruct (first_opened _ _ _ _ _); cbn [orb];
    try done. by destruct (any_match entries keys).
Qed.

Lemma first_key_Some sender kind name entry keys gk pl :
  first_key sender kind name entry keys = Some (gk, pl) →
  gk ∈ keys ∧ attempt sender kind name entry gk = Some pl.
Proof.
  induction keys as [|x keys IH]; cbn [first_key]; [done |].
  destruct (attempt sender kind name entry x) eqn:E.
  - intros [= <- <-]. auto with enlace.
  - intros [? ?]%IH. auto with enlace.
Qed.

Lemma first_opened_Some sender kind name entries keys gk pl :
  first_opened sender kind name entries keys = Some (gk, pl) →
  ∃ entry, entry ∈ entries ∧ gk ∈ keys ∧ attempt sender kind name entry gk = Some pl.
Proof.
  induction entries as [|x entries IH]; cbn [first_opened]; [done |].
  destruct (first_key sender kind name x keys) as [[gk' pl']|] eqn:E.
  - intros [= -> ->]. apply first_key_Some in E as [? ?]. eauto with enlace.
  - intros (entry & ? & ? & ?)%IH. eauto with enlace.
Qed.

Lemma first_key_None sender kind name entry keys gk :
  first_key sender kind name entry keys = None → gk ∈ keys →
  attempt sender kind name entry gk = None.
Proof.
  induction keys as [|x keys IH]; cbn [first_key]; [by intros _ ?%not_elem_of_nil |].
  destruct (attempt sender kind name entry x) eqn:E; [done |].
  intros H [->|Hin]%elem_of_cons; [done | by apply IH].
Qed.

Lemma first_opened_None sender kind name entries keys entry gk :
  first_opened sender kind name entries keys = None → entry ∈ entries → gk ∈ keys →
  attempt sender kind name entry gk = None.
Proof.
  induction entries as [|x entries IH]; cbn [first_opened]; [by intros _ ?%not_elem_of_nil |].
  destruct (first_key sender kind name x keys) eqn:E; [done |].
  intros H [->|Hin]%elem_of_cons Hgk; [by eapply first_key_None | by apply IH].
Qed.

Lemma attempt_matches sender kind name entry gk pl :
  attempt sender kind name entry gk = Some pl → gk.1 = ge_group entry ∧ gk_id gk.2 = ge_key_id entry.
Proof.
  unfold attempt, matches.
  destruct (bool_decide_reflect (gk.1 = ge_group entry)),
    (bool_decide_reflect (gk_id gk.2 = ge_key_id entry)); done.
Qed.

(** ** Sealing *)

(** Every entry opens, with the payload, under the key it was sealed with. *)
Lemma seal_entries_Ok sender kind name payload nonces i keys es :
  seal_entries sender kind name payload nonces i keys = Ok es →
  Forall2 (λ gk entry, attempt sender kind name entry gk = Some payload) keys es.
Proof.
  revert i es. induction keys as [|[g k] keys IH]; intros i es; cbn [seal_entries].
  - intros [= <-]. constructor.
  - intros (key & Hk & H)%rbind_Ok. apply rbind_Ok in H as (ct & Hct%ok_or_Ok & H).
    apply rbind_Ok in H as (es' & Hes & [= <-]). constructor; [| by eapply IH].
    unfold attempt, matches. cbn [fst snd ge_group ge_key_id ge_nonce ge_ciphertext].
    rewrite !bool_decide_eq_true_2 by done. cbn [andb]. rewrite Hk.
    by apply aead_decrypt_encrypt.
Qed.

Lemma GroupEnvelope_seal_Ok nonces sender kind name payload keys e :
  GroupEnvelope_seal nonces sender kind name payload keys = Ok e →
  name_ok name ∧ gr_sender e = PeerIdentity_peer_id sender ∧ gr_kind e = kind ∧ gr_name e = name
  ∧ gr_entries e ≠ []
  ∧ Forall2 (λ gk entry, attempt (PeerIdentity_peer_id sender) kind name entry gk = Some payload)
      keys (gr_entries e)
  ∧ group_fits e ∧ gr_signature e = sign (signing sender) (encode_group e).
Proof.
  unfold GroupEnvelope_seal. intros ([] & Hname%map_err_Ok%validate_name_Ok & H)%rbind_Ok.
  destruct keys as [|k keys]; [done |].
  apply rbind_Ok in H as (es & Hes & H). apply rbind_Ok in H as (pre & Hpre & [= <-]).
  apply seal_entries_Ok in Hes.
  rewrite group_preimage_eq in Hpre. case_decide as Hfit; [| done]. injection Hpre as <-.
  cbn [group_with_signature gr_sender gr_kind gr_name gr_entries gr_signature].
  split_and!; try done. intros ->. inversion Hes.
Qed.

Lemma group_try_from_to_wire e :
  name_ok (gr_name e) → gr_entries e ≠ [] → length (gr_signature e) = SIG_LEN →
  GroupEnvelope_try_from_wire (GroupEnvelope_to_wire e) = Ok e.
Proof.
  destruct e as [[i] k n l s]. cbn [gr_name gr_entries gr_signature].
  intros Hn%validate_name_Ok Hl Hs. unfold GroupEnvelope_try_from_wire, GroupEnvelope_to_wire.
  cbn [gw_version gw_channel_kind gw_channel_name gw_entries gw_signature gw_sender_peer_id
    gr_sender gr_kind gr_name gr_entries gr_signature PeerId_to_bytes].
  rewrite decide_False by (intros []; done).
  assert (group_channel_kind_from_code (channel_kind_code k) = Ok k) as -> by (by destruct k).
  cbn [rbind]. rewrite Hn. cbn [map_err rbind]. destruct l as [|r l]; [done |]. cbn [map].
  rewrite array_from_slice_length by done. cbn [ok_or rbind]. rewrite map_map.
  do 2 f_equal. destruct r as [[g] [id] no ct]. f_equal.
  rewrite <- (map_id l) at 2. apply map_ext. by intros [[] [] ? ?].
Qed.

(** The opening, past the channel and trust checks, in closed form. *)
Lemma GroupEnvelope_open_eq e kind name trusted keys t :
  name_ok name → gr_kind e = kind → gr_name e = name →
  find_first (λ t, bool_decide (TrustedPeer_peer_id t = gr_sender e)) trusted = Some t →
  PeerCard_validate (card t) = Ok tt →
  GroupEnvelope_open e kind name trusted keys
  = match first_opened (gr_sender e) kind name (gr_entries e) keys with
    | Some r => finish_open e (signing_key (card t)) r
    | None => if any_match (gr_entries e) keys then Err GroupEnvelopeError_AeadFailed
              else Err GroupEnvelopeError_MissingGroupKey
    end.
Proof.
  intros Hn%validate_name_Ok Hk Hnm Ht Hv. unfold GroupEnvelope_open. rewrite Hn, Hk, Hnm, Ht.
  rewrite !bool_decide_eq_true_2 by done. cbn [map_err rbind negb orb guard_err ok_or].
  rewrite Hv. cbn [map_err rbind]. rewrite try_entries_eq.
  destruct (first_opened _ _ _ _ _); [done |]. by destruct (any_match _ _).
Qed.

(** The sender of an envelope that opens is a trusted peer. *)
Lemma GroupEnvelope_open_sender e kind name trusted keys m :
  GroupEnvelope_open e kind name trusted keys = Ok m →
  ∃ t, t ∈ trusted ∧ TrustedPeer_peer_id t = gm_sender m.
Proof.
  unfold GroupEnvelope_open. intros (? & _ & H)%rbind_Ok. apply rbind_Ok in H as (? & _ & H).
  apply rbind_Ok in H as (t & [Ht Hid%bool_decide_eq_true]%ok_or_Ok%find_first_Some & H).
  apply rbind_Ok in H as (? & _ & H). rewrite try_entries_eq in H.
  destruct (first_opened _ _ _ _ _); [| by destruct (any_match _ _)].
  unfold finish_open in H. apply rbind_Ok in H as (? & _ & H). apply rbind_Ok in H as (? & _ & [= <-]).
  by exists t.
Qed.

(** The caller's keys agree with the sender's wherever both have a key id,
    and they share at least one key. *)
Definition shares_keys (mine sealed : list (GroupId * GroupKey)) : Prop :=
  (∃ gk, gk ∈ mine ∧ gk ∈ sealed)
  ∧ ∀ g k k', (g, k) ∈ mine → (g, k') ∈ sealed → gk_id k = gk_id k' → k = k'.

Lemma first_opened_shared sender kind name payload sealed entries mine :
  Forall2 (λ gk entry, attempt sender kind name entry gk = Some payload) sealed entries →
  shares_keys mine sealed →
  ∃ gk, first_opened sender kind name entries mine = Some (gk, payload) ∧ gk ∈ mine ∧ gk ∈ sealed.
Proof.
  intros Hse [(gk & Hm & Hs) Hagree].
  assert (∀ entry gk' pl, entry ∈ entries → gk' ∈ mine → attempt sender kind name entry gk' = Some pl →
    pl = payload ∧ gk' ∈ sealed) as Hall.
  { intros entry [g' k'] pl Hen Hgk Ha. apply list_elem_of_lookup in Hen as [j Hj].
    destruct (Forall2_lookup_r _ _ _ _ _ Hse Hj) as ([g0 k0] & Hj' & Ha0).
    pose proof (attempt_matches _ _ _ _ _ _ Ha) as [Hg1 Hk1].
    pose proof (attempt_matches _ _ _ _ _ _ Ha0) as [Hg0 Hk0]. cbn [fst snd] in *.
    apply list_elem_of_lookup_2 in Hj'. subst g' g0.
    assert (k' = k0) as -> by (eapply Hagree; eauto; congruence). split; [congruence | done]. }
  destruct (first_opened sender kind name entries mine) as [[gk' pl]|] eqn:E.
  - apply first_opened_Some in E as (entry & Hen & Hgk & Ha).
    destruct (Hall _ _ _ Hen Hgk Ha) as [-> ?]. by exists gk'.
  - apply list_elem_of_lookup in Hs as [j Hj].
    destruct (Forall2_lookup_l _ _ _ _ _ Hse Hj) as (entry & Hj' & Ha).
    eapply first_opened_None in E; [| by eapply list_elem_of_lookup_2 | exact Hm]. congruence.
Qed.

Lemma group_open_seal_aux nonces sender kind name payload sealed mine trusted e :
  GroupEnvelope_seal nonces sender kind name payload sealed = Ok e →
  shares_keys mine sealed → trusts trusted sender →
  ∃ g k, (g, k) ∈ mine ∧ (g, k) ∈ sealed ∧
    GroupEnvelope_open e kind name trusted mine
    = Ok (MkGroupEnvelopeMessage (PeerIdentity_peer_id sender) (verifying_key (signing sender))
            g (gk_id k) payload).
Proof.
  intros (Hn & Hs & Hk & Hnm & Hne & Hes & Hfit & Hsig)%GroupEnvelope_seal_Ok Hsh Htr.
  destruct (trusts_find _ _ Htr) as (t & Ht & Htk & _ & Htv).
  destruct (first_opened_shared _ _ _ _ _ _ _ Hes Hsh) as ([g k] & Hfirst & Hm & Hse).
  exists g, k. split_and!; [done | done |].
  rewrite (GroupEnvelope_open_eq e kind name trusted mine t) by (try done; by rewrite Hs).
  rewrite Hs, Hfirst. unfold finish_open. rewrite group_preimage_eq, decide_True by done.
  cbn [rbind]. rewrite Hsig, Htk. unfold verify, sign. rewrite ed_verify_sign. cbn. by rewrite Hs.
Qed.

Lemma GroupEnvelope_from_to_bytes nonces sender kind name payload sealed e b :
  GroupEnvelope_seal nonces sender kind name payload sealed = Ok e →
  GroupEnvelope_to_bytes e = Ok b → GroupEnvelope_from_bytes b = Ok e.
Proof.
  intros (Hn & Hs & Hk & Hnm & Hne & Hes & Hfit & Hsig)%GroupEnvelope_seal_Ok Hb%of_sum_Ok%from_slice_to_vec_named.
  unfold GroupEnvelope_from_bytes. rewrite Hb. cbn [of_sum rbind].
  rewrite group_try_from_to_wire; [done | by rewrite Hnm | done | rewrite Hsig; apply ed_sign_length].
Qed.

(** ** Claims *)

(** C16: what is sealed to a group opens for every member: when [seal]
    succeeds, a holder of one of the group keys that trusts the sender opens
    the envelope, directly or from its bytes, and gets the payload, the
    sender's identity, and a group and key id that both sides hold. *)
Theorem group_envelope_roundtrip (nonces : nat → bytes) (sender : PeerIdentity)
    (kind : ChannelKind) (name payload : bytes) (sealed mine : list (GroupId * GroupKey))
    (trusted : list TrustedPeer) (e : GroupEnvelope) :
  GroupEnvelope_seal nonces sender kind name payload sealed = Ok e →
  shares_keys mine sealed → trusts trusted sender →
  ∃ g k, (g, k) ∈ mine ∧ (g, k) ∈ sealed ∧
    let m := MkGroupEnvelopeMessage (PeerIdentity_peer_id sender) (verifying_key (signing sender))
               g (gk_id k) payload in
    GroupEnvelope_open e kind name trusted mine = Ok m
    ∧ ∀ b, GroupEnvelope_to_bytes e = Ok b → GroupEnvelope_open_bytes b kind name trusted mine = Ok m.
Proof.
  intros Hseal Hsh Htr. destruct (group_open_seal_aux _ _ _ _ _ _ _ _ _ Hseal Hsh Htr) as (g & k & Hm & Hse & Hopen).
  exists g, k. cbv zeta. do 3 (split; [done |]). intros b Hb. unfold GroupEnvelope_open_bytes.
  by rewrite (GroupEnvelope_from_to_bytes _ _ _ _ _ _ _ _ Hseal Hb).
Qed.

(** Opening from a trusted sender on the right channel is exactly the
    search: the first entry that some held key decrypts decides, and it is
    returned only if the signature over this envelope verifies under the
    sender's key; otherwise the error is "authentication failed" when some
    entry named a held key, and "key missing" when none did. *)
Lemma group_envelope_open_spec (e : GroupEnvelope) (kind : ChannelKind) (name : bytes)
    (trusted : list TrustedPeer) (keys : list (GroupId * GroupKey)) (t : TrustedPeer) :
  name_ok name → gr_kind e = kind → gr_name e = name → group_fits e →
  find_first (λ t, bool_decide (TrustedPeer_peer_id t = gr_sender e)) trusted = Some t →
  PeerCard_validate (card t) = Ok tt →
  GroupEnvelope_open e kind name trusted keys
  = match first_opened (gr_sender e) kind name (gr_entries e) keys with
    | Some (g, k, payload) =>
        if verify (signing_key (card t)) (encode_group e) (gr_signature e)
        then Ok (MkGroupEnvelopeMessage (gr_sender e) (signing_key (card t)) g (gk_id k) payload)
        else Err GroupEnvelopeError_SignatureInvalid
    | None => if any_match (gr_entries e) keys then Err GroupEnvelopeError_AeadFailed
              else Err GroupEnvelopeError_MissingGroupKey
    end.
Proof.
  intros Hn Hk Hnm Hfit Ht Hv. rewrite (GroupEnvelope_open_eq e kind name trusted keys t) by done.
  destruct (first_opened _ _ _ _ _) as [[[g k] pl]|]; [| done].
  unfold finish_open. rewrite group_preimage_eq, decide_True by done. cbn [rbind fst snd].
  by destruct (verify _ _ _).
Qed.

(** The signed bytes determine a group envelope, and no group envelope
    shares its signed bytes with a pairwise one: a signature made for one
    envelope is never a signature for another. *)
Lemma group_preimage_injective (e e' : GroupEnvelope) (p : bytes) :
  group_wf e → group_wf e' →
  group_signature_preimage (E:=GroupEnvelopeError) e = Ok p →
  (group_signature_preimage (E:=GroupEnvelopeError) e' = Ok p →
   gr_sender e = gr_sender e' ∧ gr_kind e = gr_kind e' ∧ gr_name e = gr_name e'
   ∧ gr_entries e = gr_entries e')
  ∧ ∀ q, peer_signature_preimage (E:=PeerEnvelopeError) q ≠ Ok p.
Proof.
  intros Hwf Hwf'. rewrite !group_preimage_eq. case_decide as Hf; [| done]. intros H1. split.
  - case_decide as Hf'; [| done]. intros H2.
    assert (encode_group e = encode_group e') as Heq by congruence.
    pose proof (encode_group_inj e e' Hwf Hwf' Hf Hf' Heq) as H.
    unfold group_with_signature in H. by injection H.
  - intros q. rewrite peer_preimage_eq. case_decide; [| done]. intros H2.
    apply (peer_group_preimage_distinct q e). congruence.
Qed.
End Properties.

#[export] Instance GroupEnvelopeEntryWire_eq_dec : EqDecision GroupEnvelopeEntryWire.
Proof. solve_decision. Defined.

#[export] Instance GroupEnvelopeEntryWire_countable : Countable GroupEnvelopeEntryWire.
Proof.
  by refine (inj_countable' (λ r, (gw_group_id r, gw_key_id r, gw_nonce r, gw_ciphertext r))
    (λ '(a, b, c, d), MkGroupEnvelopeEntryWire a b c d) _); intros [].
Defined.

#[export] Instance GroupEnvelopeWire_eq_dec : EqDecision GroupEnvelopeWire.
Proof. solve_decision. Defined.

#[export] Instance GroupEnvelopeWire_countable : Countable GroupEnvelopeWire.
Proof.
  by refine (inj_countable'
    (λ w, (gw_version w, gw_sender_peer_id w, gw_channel_kind w, gw_channel_name w, gw_entries w,
           gw_signature w))
    (λ '(a, b, c, d, e, f), MkGroupEnvelopeWire a b c d e f) _); intros [].
Defined.

(** ** Witnesses *)
Module GroupEnvelopeWitness.
Import Toy PeerEnvelopeWitness.
#[local] Existing Instance ToyUrl.toy_url.
#[local] Instance group_msgpack : Msgpack GroupEnvelopeWire := toy_msgpack.
#[local] Instance group_msgpack_laws : MsgpackLaws GroupEnvelopeWire := toy_msgpack_laws.

Definition team : GroupId := MkGroupId (key_bytes x09).
Definition team_key : GroupKey := MkGroupKey (MkGroupKeyId (key_bytes x05)) (key_bytes x06).
Definition other_key : GroupKey := MkGroupKey (MkGroupKeyId (key_bytes x07)) (key_bytes x08).
Definition sealed_keys : list (GroupId * GroupKey) := [(team, other_key); (team, team_key)].
Definition trust_alice : list TrustedPeer := [TrustedPeer_new (PeerIdentity_card alice)].

Definition toy_group : GroupEnvelope :=
  match GroupEnvelope_seal toy_nonces alice ChSlot (lit "team") (lit "hello") sealed_keys with
  | Ok e => e
  | _ => MkGroupEnvelope (MkPeerId []) ChSlot [] [] []
  end.

Lemma toy_shares : shares_keys [(team, team_key)] sealed_keys.
Proof.
  unfold sealed_keys. split; [exists (team, team_key); auto with enlace |].
  intros g k k' H1 H2 Hid. apply list_elem_of_singleton in H1.
  assert (k = team_key) as -> by congruence.
  apply elem_of_cons in H2 as [H2|H2%list_elem_of_singleton]; [| congruence].
  assert (k' = other_key) as -> by congruence. discriminate Hid.
Qed.

Lemma group_envelope_roundtrip_witness :
  ∃ g k, GroupEnvelope_open toy_group ChSlot (lit "team") trust_alice [(team, team_key)]
         = Ok (MkGroupEnvelopeMessage (PeerIdentity_peer_id alice) (verifying_key (signing alice))
                 g (gk_id k) (lit "hello")).
Proof.
  assert (GroupEnvelope_seal toy_nonces alice ChSlot (lit "team") (lit "hello") sealed_keys
          = Ok toy_group) as H by vm_refl.
  destruct (group_envelope_roundtrip toy_nonces alice ChSlot (lit "team") (lit "hello") sealed_keys
    [(team, team_key)] trust_alice toy_group H toy_shares toy_trusts) as (g & k & _ & _ & Ho & _).
  exists g, k. exact Ho.
Defined.

End GroupEnvelopeWitness.
