(* ===== verification/Coordinator.v ===== *)
(** * coordinator.rs: sealing, fan-out and selection

    The coordinator seals a payload once, fans it out over every configured
    transport and combines the answers.  The concurrency of a fan-out is the
    completion order of its tasks: each operation takes the environment
    [run], which receives the tasks the code spawned and returns their
    results in the order in which they completed.  The shared state store
    and health tracker are threaded explicitly. *)

From S2P Require Import Prelude Bytes Crypto Kdf Net Guard Errors Dedup Config Health PeerCard Msgpack State.

(** ** Messages of mailbox.rs and slot.rs *)

Record SendReport : Type := MkSendReport {
  sr_delivered : list TransportKind;
  sr_failed : failures
}.

Record PutReport : Type := MkPutReport {
  pr_version : N;
  pr_stored : list TransportKind;
  pr_failed : failures
}.

(** ** The inner record *)

Record SignedInner : Type := MkSignedInner {
  si_payload : bytes;
  si_version : option N;
  si_signer : option bytes;
  si_signature : option bytes
}.

Definition aead_aad (kind : ChannelKind) (name : bytes) : bytes :=
  lit "enlace/v1/aead/" ++ ChannelKind_as_bytes kind ++ x2f :: name.

Definition signature_preimage (kind : ChannelKind) (name payload : bytes) (version : option N) : bytes :=
  lit "enlace/v1/sig/" ++ ChannelKind_as_bytes kind ++ x2f :: name ++ x2f ::
  match version with Some v => to_be_bytes 8 v | None => [] end ++ payload.

Definition slot_pair_is_newer (version : N) (sealed : bytes) (best_version : N) (best_sealed : bytes)
    : bool :=
  pair_ltb (best_version, best_sealed) (version, sealed).

Section Coordinator.
Context `{PR : Primitives} `{UL : UrlLib} {LC : LruCache bytes} {MP : Msgpack SignedInner}.
(** The state handle and the transport objects. *)
Context {S : Type} {ST : StateStore S} {T : Type}.

Record RecvMessage : Type := MkRecvMessage {
  rm_payload : bytes;
  rm_via : TransportKind;
  rm_signed_by : option VerifyingKey
}.

Record SlotValue : Type := MkSlotValue {
  sv_version : N;
  sv_payload : bytes;
  sv_via : TransportKind;
  sv_signed_by : option VerifyingKey
}.

Record OpenedEnvelope : Type := MkOpenedEnvelope {
  oe_payload : bytes;
  oe_version : option N;
  oe_signed_by : option VerifyingKey
}.

Record TransportEndpoint : Type := MkTransportEndpoint {
  te_kind : TransportKind;
  te_transport : T
}.

(** The immutable part; [state] and [health] are shared and mutable. *)
Record Coordinator : Type := MkCoordinator {
  seed : bytes;
  co_transports : list TransportEndpoint;
  co_signing : option SigningKey;
  co_trusted : list VerifyingKey;
  co_dedup_buffer : nat;
  co_max_plaintext_bytes : N
}.

Record world : Type := MkWorld { w_state : S; w_health : HealthTracker }.

Definition Coordinator_new (sd : bytes) (transports : list TransportEndpoint) (config : Config S T)
    : Coordinator :=
  MkCoordinator sd transports (cfg_signing config) (cfg_trusted config) (cfg_dedup_buffer config)
    (cfg_max_plaintext_bytes config).

(** ** Sealing and opening *)

Definition transport_channel_id (sd : bytes) (transport : TransportKind) (kind : ChannelKind)
    (name : bytes) : result bytes NameError :=
  if decide (transport = Iroh) then iroh_topic_id sd kind name
  else channel_id sd transport kind name.

(** [nonce] is the nonce drawn by [crypto::seal]. *)
Definition Coordinator_seal (nonce : bytes) (c : Coordinator) (kind : ChannelKind)
    (name payload : bytes) (version : option N) : result bytes SealError :=
  let preimage := signature_preimage kind name payload version in
  let '(signer, signature) :=
    match co_signing c with
    | None => (None, None)
    | Some sk => (Some (vk_to_bytes (verifying_key sk)), Some (sign sk preimage))
    end in
  let inner := MkSignedInner payload version signer signature in
  let! plaintext := of_sum (λ _, SealError_MsgpackFailed) (to_vec_named inner) in
  let! key := map_err (λ _, SealError_MsgpackFailed) (channel_aead_key (seed c) kind name) in
  Crypto.seal nonce key (aead_aad kind name) plaintext.

Definition verify_inner (kind : ChannelKind) (name : bytes) (inner : SignedInner)
    (trusted : list VerifyingKey) : result (option VerifyingKey) SealError :=
  match si_signer inner, si_signature inner with
  | None, None =>
      match trusted with
      | [] => Ok None
      | _ => Err SealError_SignatureMissing
      end
  | Some _, None | None, Some _ => Err SealError_MsgpackFailed
  | Some signer, Some signature =>
      let! signer := ok_or (vk_from_bytes signer) SealError_SignatureInvalid in
      let! signature := ok_or (array_from_slice SIG_LEN signature) SealError_SignatureInvalid in
      let preimage := signature_preimage kind name (si_payload inner) (si_version inner) in
      if negb (verify signer preimage signature) then Err SealError_SignatureInvalid
      else if match trusted with [] => false | _ => true end
              && negb (existsb (λ k, bool_decide (vk_to_bytes k = vk_to_bytes signer)) trusted)
      then Err SealError_UntrustedSigner
      else Ok (Some signer)
  end.

Definition Coordinator_open (c : Coordinator) (kind : ChannelKind) (name sealed : bytes)
    : result OpenedEnvelope SealError :=
  let! key := map_err (λ _, SealError_MsgpackFailed) (channel_aead_key (seed c) kind name) in
  let! plaintext := map_err SealError_from_crypto (unseal key (aead_aad kind name) sealed) in
  let! _ := guard_err (co_max_plaintext_bytes c <? len plaintext)%N SealError_MsgpackFailed in
  let! inner := of_sum (λ _, SealError_MsgpackFailed) (from_slice plaintext) in
  let! signed_by := verify_inner kind name inner (co_trusted c) in
  Ok (MkOpenedEnvelope (si_payload inner) (si_version inner) signed_by).

(** ** Health bookkeeping *)

(** [clock] gives the readings ([SystemTime], [Instant]) of the [n]-th
    recorded result of a call. *)
Definition record_transport_result {A} (clock : N * N) (kind : TransportKind)
    (r : result A TransportError) (h : HealthTracker) : HealthTracker :=
  match r with
  | Ok _ | Err TransportError_Stale | Err TransportError_BodyTooLarge =>
      record_success kind clock.1 clock.2 h
  | Err TransportError_Unsupported => h
  | Err (TransportError_Network _) | Err TransportError_Auth | Err TransportError_Timeout
  | Err (TransportError_Other _) => record_failure kind clock.1 h
  | Panic => h
  end.

(** Recording the results of a whole fan-out, in completion order. *)
Fixpoint record_all_results {A} (clock : nat → N * N) (i : nat)
    (done : list (TransportKind * result A TransportError)) (h : HealthTracker) : HealthTracker :=
  match done with
  | [] => h
  | (kind, r) :: rest =>
      record_all_results clock (Datatypes.S i) rest (record_transport_result (clock i) kind r h)
  end.

(** ** Fan-out *)

(** One spawned task: the endpoint and the channel id it addresses. *)
Record task : Type := MkTask { tk_endpoint : TransportEndpoint; tk_id : bytes }.

(** The spawning loop: an invalid name stops it with the error [e]. *)
Definition spawn_all {E} (e : E) (c : Coordinator) (kind : ChannelKind) (name : bytes)
    : result (list task) E :=
  map_result (λ ep, let! id := map_err (λ _, e) (transport_channel_id (seed c) (te_kind ep) kind name) in
                    Ok (MkTask ep id)) (co_transports c).

(** Splits the results of a fan-out, both halves in completion order. *)
Fixpoint split_results (done : list (TransportKind * result unit TransportError))
    : list TransportKind * failures :=
  match done with
  | [] => ([], [])
  | (kind, r) :: rest =>
      let '(oks, errs) := split_results rest in
      match r with
      | Ok _ => (kind :: oks, errs)
      | Err e => (oks, (kind, e) :: errs)
      | Panic => (oks, errs)
      end
  end.

Definition lift {A B E F} (f : E → F) (r : result A E) (k : A → result B F) : result B F :=
  let! a := map_err f r in k a.

Definition mailbox_send (nonce : bytes) (clock : nat → N * N)
    (run : list task → bytes → list (TransportKind * result unit TransportError))
    (c : Coordinator) (name payload : bytes) (w : world) : result SendReport SendError * world :=
  match lift SendError_Sealing (Coordinator_seal nonce c ChMailbox name payload None) (λ sealed,
          lift SendError_Sealing (spawn_all SealError_MsgpackFailed c ChMailbox name) (λ tasks,
            Ok (tasks, sealed))) with
  | Err e => (Err e, w)
  | Panic => (Panic, w)
  | Ok (tasks, sealed) =>
      let done := run tasks sealed in
      let w := MkWorld (w_state w) (record_all_results clock 0 done (w_health w)) in
      let '(delivered, failed) := split_results done in
      match delivered with
      | [] => (Err (SendError_AllTransportsFailed failed), w)
      | _ => (Ok (MkSendReport delivered failed), w)
      end
  end.

Definition slot_put (nonce : bytes) (clock : nat → N * N)
    (run : list task → N → bytes → list (TransportKind * result unit TransportError))
    (c : Coordinator) (name payload : bytes) (w : world) : result PutReport SlotError * world :=
  let '(r, st) := next_local_slot_version name (w_state w) in
  let w := MkWorld st (w_health w) in
  match r with
  | Err e => (Err (SlotError_State e), w)
  | Panic => (Panic, w)
  | Ok version =>
      match lift SlotError_Sealing (Coordinator_seal nonce c ChSlot name payload (Some version)) (λ sealed,
              lift SlotError_Sealing (spawn_all SealError_MsgpackFailed c ChSlot name) (λ tasks,
                Ok (tasks, sealed))) with
      | Err e => (Err e, w)
      | Panic => (Panic, w)
      | Ok (tasks, sealed) =>
          let done := run tasks version sealed in
          let w := MkWorld (w_state w) (record_all_results clock 0 done (w_health w)) in
          let '(stored, failed) := split_results done in
          match stored with
          | [] => (Err (SlotError_AllTransportsFailed failed), w)
          | _ => (Ok (MkPutReport version stored failed), w)
          end
      end
  end.

(** ** Receiving *)

(** The body of the receive loop over one round of completed tasks: the
    outcome is a message (the rest of the round is dropped) or whether any
    transport answered.  Opening a frame does not panic
    ([Coordinator_open_total]), nor does a transport's answer. *)
Fixpoint recv_round (clock : nat → N * N) (i : nat) (c : Coordinator) (name : bytes)
    (done : list (TransportKind * result (option bytes) TransportError)) (answered : bool)
    (d : Dedup) (h : HealthTracker) : (RecvMessage + bool) * Dedup * HealthTracker :=
  match done with
  | [] => (inr answered, d, h)
  | (kind, r) :: rest =>
      let h := record_transport_result (clock i) kind r h in
      match r with
      | Ok (Some sealed) =>
          let '(dup, d) := observe d sealed in
          if dup then recv_round clock (Datatypes.S i) c name rest true d h
          else
            match Coordinator_open c ChMailbox name sealed with
            | Ok opened =>
                match oe_version opened with
                | Some _ => recv_round clock (Datatypes.S i) c name rest true d h
                | None => (inl (MkRecvMessage (oe_payload opened) kind (oe_signed_by opened)), d, h)
                end
            | _ => recv_round clock (Datatypes.S i) c name rest true d h
            end
      | Ok None => recv_round clock (Datatypes.S i) c name rest true d h
      | _ => recv_round clock (Datatypes.S i) c name rest answered d h
      end
  end.

(** The loop: [run n] completes the tasks of round [n].  [None] is an
    unfinished call after [rounds] rounds; the sleep of a round without
    answers has no effect on the state. *)
Fixpoint mailbox_recv (rounds : nat) (n : nat) (clock : nat → nat → N * N)
    (run : nat → list task → list (TransportKind * result (option bytes) TransportError))
    (c : Coordinator) (name : bytes) (wait_is_zero : bool) (d : Dedup) (h : HealthTracker)
    : option (result RecvMessage RecvError) * Dedup * HealthTracker :=
  match rounds with
  | O => (None, d, h)
  | Datatypes.S rounds =>
      match spawn_all RecvError_Closed c ChMailbox name with
      | Err e => (Some (Err e), d, h)
      | Panic => (Some Panic, d, h)
      | Ok tasks =>
          match recv_round (clock n) 0 c name (run n tasks) false d h with
          | (inl m, d, h) => (Some (Ok m), d, h)
          | (inr _, d, h) =>
              if wait_is_zero then (Some (Err RecvError_Closed), d, h)
              else mailbox_recv rounds (Datatypes.S n) clock run c name wait_is_zero d h
          end
      end
  end.

Definition mailbox_subscribe (clock : nat → N * N)
    (run : list task → list (TransportKind * result unit TransportError))
    (c : Coordinator) (name : bytes) (h : HealthTracker) : result unit RecvError * HealthTracker :=
  match spawn_all RecvError_Closed c ChMailbox name with
  | Err e => (Err e, h)
  | Panic => (Panic, h)
  | Ok tasks =>
      let done := run tasks in
      let h := record_all_results clock 0 done h in
      let any_ok := existsb (λ r, match r.2 with Ok _ => true | _ => false end) done in
      let any_hard_failure :=
        existsb (λ r, match r.2 with
                      | Err TransportError_Unsupported => false
                      | Err _ => true
                      | _ => false
                      end) done in
      if any_ok || negb any_hard_failure then (Ok tt, h) else (Err RecvError_Closed, h)
  end.

(** ** Reading a slot *)

(** The running selection: the count of answers, the failures and the best
    (version, sealed, value) so far. *)
Record selection : Type := MkSelection {
  sel_ok_count : nat;
  sel_failures : failures;
  sel_best : option (N * bytes * SlotValue)
}.

(** What a sealed slot value opens to, if it opens and carries a version. *)
Definition open_slot (c : Coordinator) (name : bytes) (kind : TransportKind) (sealed : bytes)
    : option SlotValue :=
  match Coordinator_open c ChSlot name sealed with
  | Ok opened =>
      match oe_version opened with
      | Some v => Some (MkSlotValue v (oe_payload opened) kind (oe_signed_by opened))
      | None => None
      end
  | _ => None
  end.

Definition select_one (c : Coordinator) (name : bytes) (s : selection)
    (r : TransportKind * result (option (N * bytes)) TransportError) : selection :=
  let '(kind, r) := r in
  match r with
  | Ok None => MkSelection (Datatypes.S (sel_ok_count s)) (sel_failures s) (sel_best s)
  | Ok (Some (_, sealed)) =>
      let s := MkSelection (Datatypes.S (sel_ok_count s)) (sel_failures s) (sel_best s) in
      match open_slot c name kind sealed with
      | None => s
      | Some value =>
          if match sel_best s with
             | None => true
             | Some (bv, bs, _) => slot_pair_is_newer (sv_version value) sealed bv bs
             end
          then MkSelection (sel_ok_count s) (sel_failures s) (Some (sv_version value, sealed, value))
          else s
      end
  | Err e => MkSelection (sel_ok_count s) (sel_failures s ++ [(kind, e)]) (sel_best s)
  | Panic => s
  end.

Definition slot_get (clock : nat → N * N)
    (run : list task → list (TransportKind * result (option (N * bytes)) TransportError))
    (c : Coordinator) (name : bytes) (w : world) : result (option SlotValue) SlotError * world :=
  match lift SlotError_Sealing (spawn_all SealError_MsgpackFailed c ChSlot name) Ok with
  | Err e => (Err e, w)
  | Panic => (Panic, w)
  | Ok tasks =>
      let done := run tasks in
      let h := record_all_results clock 0 done (w_health w) in
      let s := foldl (select_one c name) (MkSelection 0 [] None) done in
      if (sel_ok_count s =? 0) && negb (match sel_failures s with [] => true | _ => false end)
      then (Err (SlotError_AllTransportsFailed (sel_failures s)), MkWorld (w_state w) h)
      else
        let st := match sel_best s with
                  | Some (version, _, _) => (record_seen_slot_version name version (w_state w)).2
                  | None => w_state w
                  end in
        (Ok ((λ b : N * bytes * SlotValue, b.2) <$> sel_best s), MkWorld st h)
  end.
End Coordinator.

(** ** Lemmas: sealing and opening *)

Section Sealing.
Context `{PR : Primitives} `{PL : !PrimitivesLaws} `{UL : UrlLib}.
Context {MP : Msgpack SignedInner} {MPL : MsgpackLaws SignedInner} {T : Type}.
Notation Coordinator := (Coordinator (T:=T)).

Definition inner_of (c : Coordinator) (kind : ChannelKind) (name payload : bytes) (version : option N)
    : SignedInner :=
  MkSignedInner payload version ((λ sk, vk_to_bytes (verifying_key sk)) <$> co_signing c)
    ((λ sk, sign sk (signature_preimage kind name payload version)) <$> co_signing c).

Lemma Coordinator_seal_Ok nonce (c : Coordinator) kind name payload version s :
  Coordinator_seal nonce c kind name payload version = Ok s →
  ∃ pt key, to_vec_named (inner_of c kind name payload version) = inl pt
    ∧ channel_aead_key (seed c) kind name = Ok key
    ∧ Crypto.seal (E:=SealError) nonce key (aead_aad kind name) pt = Ok s.
Proof.
  unfold Coordinator_seal, inner_of. intros H.
  destruct (co_signing c) as [sk|]; cbn [fmap option_fmap option_map] in *;
    apply rbind_Ok in H as (pt & Hpt%of_sum_Ok & H);
    apply rbind_Ok in H as (key & Hk%map_err_Ok & H); by exists pt, key.
Qed.

(** The signer is acceptable to the reader. *)
Definition signer_accepted (c reader : Coordinator) : Prop :=
  match co_signing c with
  | None => co_trusted reader = []
  | Some sk => co_trusted reader = [] ∨ verifying_key sk ∈ co_trusted reader
  end.

Lemma verify_inner_of (c reader : Coordinator) kind name payload version :
  signer_accepted c reader →
  verify_inner kind name (inner_of c kind name payload version) (co_trusted reader)
  = Ok (verifying_key <$> co_signing c).
Proof.
  unfold signer_accepted, verify_inner, inner_of. cbn [si_signer si_signature si_payload si_version].
  destruct (co_signing c) as [sk|]; cbn [fmap option_fmap option_map]; [| by intros ->].
  intros Ht. rewrite vk_from_to_bytes. cbn [ok_or rbind].
  rewrite array_from_slice_length by apply ed_sign_length. cbn [ok_or rbind].
  unfold verify, sign. rewrite ed_verify_sign. cbn [negb].
  destruct Ht as [->|Hin]; [done |].
  assert (existsb (λ k, bool_decide (vk_to_bytes k = vk_to_bytes (verifying_key sk)))
            (co_trusted reader) = true) as ->; [| by rewrite andb_false_r].
  apply existsb_exists. exists (verifying_key sk). split; [by apply list_elem_of_In |].
  by apply bool_decide_eq_true.
Qed.

Lemma Coordinator_open_unfold (c : Coordinator) kind name sealed key :
  channel_aead_key (seed c) kind name = Ok key →
  Coordinator_open c kind name sealed
  = let! plaintext := map_err SealError_from_crypto (unseal key (aead_aad kind name) sealed) in
    let! _ := guard_err (co_max_plaintext_bytes c <? len plaintext)%N SealError_MsgpackFailed in
    let! inner := of_sum (λ _, SealError_MsgpackFailed) (from_slice plaintext) in
    let! signed_by := verify_inner kind name inner (co_trusted c) in
    Ok (MkOpenedEnvelope (si_payload inner) (si_version inner) signed_by).
Proof. intros H. unfold Coordinator_open. by rewrite H. Qed.

Lemma verify_inner_returns kind name inner trusted : verify_inner kind name inner trusted ≠ Panic.
Proof.
  unfold verify_inner. destruct (si_signer inner), (si_signature inner), trusted; try done;
    (destruct (vk_from_bytes _); cbn [ok_or rbind]; [| done]);
    (destruct (array_from_slice _ _); cbn [ok_or rbind]; [| done]);
    (destruct (negb _); [done |]); by destruct (_ && _).
Qed.

Lemma Coordinator_open_total (c : Coordinator) kind name sealed : Coordinator_open c kind name sealed ≠ Panic.
Proof.
  unfold Coordinator_open.
  assert (channel_aead_key (seed c) kind name ≠ Panic) as Hk.
  { destruct (validate_name_cases name) as [H|[e H]].
    - destruct (channel_aead_key_Ok (seed c) kind name) as (k & -> & _); [by apply validate_name_Ok | done].
    - unfold channel_aead_key. by rewrite H. }
  destruct (channel_aead_key (seed c) kind name) as [key|e|]; cbn [map_err rbind]; [| done | done].
  pose proof (unseal_total key (aead_aad kind name) sealed) as Hu.
  destruct (unseal key (aead_aad kind name) sealed) as [pt|e|]; cbn [map_err rbind]; [| done | done].
  unfold guard_err. destruct (_ <? _)%N; cbn [rbind]; [done |].
  destruct (from_slice pt) as [inner|]; cbn [of_sum rbind]; [| done].
  pose proof (verify_inner_returns kind name inner (co_trusted c)) as Hv. by destruct (verify_inner _ _ _ _).
Qed.

Lemma Coordinator_open_Ok (c : Coordinator) kind name sealed o :
  Coordinator_open c kind name sealed = Ok o →
  name_ok name ∧ ∃ key pt inner, channel_aead_key (seed c) kind name = Ok key
    ∧ unseal key (aead_aad kind name) sealed = Ok pt ∧ (len pt ≤ co_max_plaintext_bytes c)%N
    ∧ from_slice pt = inl inner
    ∧ verify_inner kind name inner (co_trusted c) = Ok (oe_signed_by o)
    ∧ oe_payload o = si_payload inner ∧ oe_version o = si_version inner.
Proof.
  unfold Coordinator_open. intros (key & Hk%map_err_Ok & H)%rbind_Ok.
  apply rbind_Ok in H as (pt & Hpt%map_err_Ok & H).
  apply rbind_Ok in H as ([] & Hl%guard_err_Ok%N.ltb_ge & H).
  apply rbind_Ok in H as (inner & Hi%of_sum_Ok & H).
  apply rbind_Ok in H as (sb & Hs & [= <-]). split.
  - unfold channel_aead_key in Hk. apply rbind_Ok in Hk as ([] & Hv & _). by apply validate_name_Ok.
  - exists key, pt, inner. by split_and!.
Qed.

Lemma verify_inner_Ok kind name inner trusted o :
  verify_inner kind name inner trusted = Ok o →
  match o with
  | None => trusted = [] ∧ si_signer inner = None ∧ si_signature inner = None
  | Some vk =>
      ∃ sig, si_signer inner = Some (vk_to_bytes vk) ∧ si_signature inner = Some sig
        ∧ verify vk (signature_preimage kind name (si_payload inner) (si_version inner)) sig = true
        ∧ (trusted = [] ∨ Exists (λ k, vk_to_bytes k = vk_to_bytes vk) trusted)
  end.
Proof.
  unfold verify_inner. destruct (si_signer inner) as [sb|], (si_signature inner) as [sg|]; try done.
  - intros (vk & Hvk%ok_or_Ok & H)%rbind_Ok. apply rbind_Ok in H as (sig & Hsig%ok_or_Ok & H).
    apply array_from_slice_Some in Hsig as [-> _]. apply vk_to_from_bytes in Hvk as <-.
    destruct (verify vk _ sg) eqn:Hv; [| done]. cbn [negb] in H.
    destruct (_ && _) eqn:Ht; [done |]. injection H as <-. exists sg. split_and!; [done | done | done |].
    destruct trusted as [|k trusted]; [by left | right]. cbn [andb] in Ht.
    apply negb_false_iff, existsb_exists in Ht as (k' & Hin & Hk%bool_decide_eq_true).
    apply Exists_exists. exists k'. split; [by apply list_elem_of_In | done].
  - destruct trusted; [by intros [= <-] | done].
Qed.

(** ** Claims: sealing and opening *)

(** C12: what an endpoint seals, an endpoint with the same seed opens: the
    payload and the version come back with the sender's verifying key (or
    none when it does not sign), provided the reader accepts the signer.  The
    only other outcome is that the encoded record exceeds the reader's
    plaintext limit, and then the record is rejected; sealing itself never
    checks that limit. *)
Theorem coordinator_open_seal (nonce : bytes) (c reader : Coordinator) (kind : ChannelKind)
    (name payload s : bytes) (version : option N) :
  length nonce = NONCE_LEN → seed reader = seed c → signer_accepted c reader →
  Coordinator_seal nonce c kind name payload version = Ok s →
  ∃ pt, to_vec_named (inner_of c kind name payload version) = inl pt
    ∧ Coordinator_open reader kind name s
      = if (co_max_plaintext_bytes reader <? len pt)%N then Err SealError_MsgpackFailed
        else Ok (MkOpenedEnvelope payload version (verifying_key <$> co_signing c)).
Proof.
  intros Hn Hseed Hacc (pt & key & Hpt & Hkey & Hs)%Coordinator_seal_Ok. exists pt. split; [done |].
  rewrite (Coordinator_open_unfold reader kind name s key) by (by rewrite Hseed).
  rewrite (unseal_seal _ _ _ _ _ Hn Hs). cbn [map_err rbind]. unfold guard_err.
  destruct (_ <? _)%N; [done |]. cbn [rbind].
  rewrite (from_slice_to_vec_named _ _ Hpt). cbn [of_sum rbind]. by rewrite verify_inner_of.
Qed.

(** C20: a frame opens only if it is authentic.  The channel name is legal,
    the frame decrypts under the key and the context of this channel to a
    record within the plaintext limit, and the payload and version reported
    are that record's.  Either the record carries no signature, which happens
    only when no trusted keys are configured, and no signer is reported; or
    the signer reported is the one the record names, the signature the record
    carries verifies under that key over this channel, version and payload,
    and the key is a trusted one unless none are configured. *)
Theorem coordinator_open_authentic (c : Coordinator) (kind : ChannelKind) (name sealed : bytes)
    (o : OpenedEnvelope) :
  Coordinator_open c kind name sealed = Ok o →
  name_ok name
  ∧ ∃ key pt inner,
      channel_aead_key (seed c) kind name = Ok key ∧ unseal key (aead_aad kind name) sealed = Ok pt
      ∧ (len pt ≤ co_max_plaintext_bytes c)%N ∧ from_slice pt = inl inner
      ∧ oe_payload o = si_payload inner ∧ oe_version o = si_version inner
      ∧ match oe_signed_by o with
        | None => co_trusted c = [] ∧ si_signer inner = None ∧ si_signature inner = None
        | Some vk =>
            ∃ sig, si_signer inner = Some (vk_to_bytes vk) ∧ si_signature inner = Some sig
              ∧ verify vk (signature_preimage kind name (oe_payload o) (oe_version o)) sig = true
              ∧ (co_trusted c = [] ∨ Exists (λ k, vk_to_bytes k = vk_to_bytes vk) (co_trusted c))
        end.
Proof.
  intros (Hn & key & pt & inner & Hk & Hu & Hl & Hi & Hv & Hp & Hver)%Coordinator_open_Ok.
  apply verify_inner_Ok in Hv. split; [done |]. exists key, pt, inner.
  split_and!; try done. by rewrite Hp, Hver.
Qed.

(** The signed bytes do not separate the channel name from the payload,
    and names may contain the separator.  A record signed for channel [n]
    with payload [m/p] therefore also verifies, with the same signer and
    signature, for channel [n/m] with payload [p]: any holder of the seed can
    move a trusted signer's message to another channel. *)
Lemma signature_moves_between_channels (kind : ChannelKind) (n m p signer sig : bytes)
    (trusted : list VerifyingKey) (vk : VerifyingKey) :
  verify_inner kind n (MkSignedInner (m ++ x2f :: p) None (Some signer) (Some sig)) trusted = Ok (Some vk) →
  verify_inner kind (n ++ x2f :: m) (MkSignedInner p None (Some signer) (Some sig)) trusted = Ok (Some vk).
Proof.
  unfold verify_inner. cbn [si_signer si_signature si_payload si_version].
  assert (signature_preimage kind (n ++ x2f :: m) p None
          = signature_preimage kind n (m ++ x2f :: p) None) as ->; [| done].
  unfold signature_preimage. cbn [app]. rewrite <- app_assoc. by cbn [app].
Qed.
End Sealing.

(** ** Lemmas: selection *)

Section Selection.
Context `{PR : Primitives} `{UL : UrlLib} {MP : Msgpack SignedInner}.
Context {S : Type} {ST : StateStore S} {T : Type}.
Notation Coordinator := (Coordinator (T:=T)).
Notation slot_result := (TransportKind * result (option (N * bytes)) TransportError)%type.

(** The valid values among the answers, with the pair they are compared by. *)
Definition candidate (c : Coordinator) (name : bytes) (r : slot_result) : option (N * bytes * SlotValue) :=
  match r.2 with
  | Ok (Some (_, sealed)) =>
      match open_slot c name r.1 sealed with
      | Some v => Some (sv_version v, sealed, v)
      | None => None
      end
  | _ => None
  end.

Definition candidates (c : Coordinator) (name : bytes) (done : list slot_result)
    : list (N * bytes * SlotValue) :=
  filter_map (candidate c name) done.

Definition failures_of (done : list slot_result) : failures :=
  filter_map (λ r : slot_result, match r.2 with Err e => Some (r.1, e) | _ => None end) done.

Definition answered (done : list slot_result) : nat :=
  length (filter_map (λ r : slot_result, match r.2 with Ok _ => Some r | _ => None end) done).

(** [b] is the newest of [l], the earliest of its kind when pairs tie. *)
Definition newest {V} (l : list (N * bytes * V)) (b : option (N * bytes * V)) : Prop :=
  match b with
  | None => l = []
  | Some x => x ∈ l ∧ ∀ y, y ∈ l → pair_le y.1 x.1
  end.

Lemma newest_snoc {V} (l : list (N * bytes * V)) x b :
  newest l b →
  newest (l ++ [x]) (if match b with None => true | Some y => pair_ltb y.1 x.1 end then Some x else b).
Proof.
  destruct b as [y|]; simpl.
  - intros [Hy Hmax]. destruct (pair_ltb y.1 x.1) eqn:E.
    + split; [apply elem_of_app; right; apply list_elem_of_here |].
      intros z [Hz|Hz]%elem_of_app.
      * eapply pair_le_trans; [by apply Hmax |]. by apply pair_ltb_asym.
      * apply list_elem_of_singleton in Hz as ->. apply pair_le_refl.
    + split; [apply elem_of_app; by left |]. intros z [Hz|Hz]%elem_of_app; [by apply Hmax |].
      by apply list_elem_of_singleton in Hz as ->.
  - intros ->. split; [apply list_elem_of_here |].
    intros z Hz%list_elem_of_singleton. subst. apply pair_le_refl.
Qed.

Lemma select_spec (c : Coordinator) name done :
  let s := foldl (select_one c name) (MkSelection 0 [] None) done in
  sel_ok_count s = answered done ∧ sel_failures s = failures_of done
  ∧ newest (candidates c name done) (sel_best s).
Proof.
  induction done as [|[kind r] done IH] using rev_ind; [done |].
  rewrite foldl_app. cbn [foldl]. destruct IH as (H1 & H2 & H3).
  set (s := foldl (select_one c name) (MkSelection 0 [] None) done) in *.
  unfold answered, failures_of, candidates in *. rewrite !filter_map_app, length_app.
  unfold select_one. destruct r as [[[sv sealed]|]|e|]; cbn [filter_map snd fst candidate length app].
  - unfold candidate. cbn [fst snd]. destruct (open_slot c name kind sealed) as [v|].
    + pose proof (newest_snoc _ (sv_version v, sealed, v) _ H3) as Hn.
      cbn [sel_best]. destruct (sel_best s) as [[[bv bs] bx]|] eqn:Eb; cbn [fst snd] in Hn.
      * unfold slot_pair_is_newer. destruct (pair_ltb (bv, bs) (sv_version v, sealed));
          cbn [sel_ok_count sel_failures sel_best]; rewrite ?app_nil_r, ?Eb; split_and!; (lia || done).
      * cbn [sel_ok_count sel_failures sel_best]. rewrite app_nil_r. split_and!; (lia || done).
    + cbn [sel_ok_count sel_failures sel_best]. rewrite !app_nil_r. split_and!; (lia || done).
  - cbn [sel_ok_count sel_failures sel_best]. rewrite !app_nil_r. split_and!; (lia || done).
  - cbn [sel_ok_count sel_failures sel_best]. rewrite !app_nil_r. rewrite H2. split_and!; (lia || done).
  - rewrite !app_nil_r. split_and!; (lia || done).
Qed.

(** Two candidates with the same sealed bytes differ only in the transport. *)
Lemma candidate_sealed (c : Coordinator) name done x y :
  x ∈ candidates c name done → y ∈ candidates c name done → x.1.2 = y.1.2 →
  sv_version x.2 = sv_version y.2 ∧ sv_payload x.2 = sv_payload y.2 ∧ sv_signed_by x.2 = sv_signed_by y.2.
Proof.
  assert (∀ z, z ∈ candidates c name done → ∃ kind, open_slot c name kind z.1.2 = Some z.2) as Hc.
  { intros z ([kind r] & _ & Hz)%elem_of_filter_map. unfold candidate in Hz. cbn [fst snd] in Hz.
    destruct r as [[[sv sealed]|]|e|]; try done.
    destruct (open_slot c name kind sealed) as [v|] eqn:E; [| done]. injection Hz as <-. by exists kind. }
  intros [kx Hx]%Hc [ky Hy]%Hc Heq. rewrite Heq in Hx. unfold open_slot in Hx, Hy.
  destruct (Coordinator_open c ChSlot name y.1.2) as [o|?|]; [| done | done].
  destruct (oe_version o); [| done]. injection Hx as <-. by injection Hy as <-.
Qed.

Lemma pair_le_antisym p q : pair_le p q → pair_le q p → p = q.
Proof. unfold pair_le. intros H1 H2. by apply pair_ltb_total. Qed.

Lemma newest_Permutation (c : Coordinator) name done done' b b' :
  done ≡ₚ done' → newest (candidates c name done) b → newest (candidates c name done') b' →
  match b, b' with
  | None, None => True
  | Some x, Some y => x.1 = y.1 ∧ sv_version x.2 = sv_version y.2 ∧ sv_payload x.2 = sv_payload y.2
                      ∧ sv_signed_by x.2 = sv_signed_by y.2
  | _, _ => False
  end.
Proof.
  intros Hp. assert (candidates c name done ≡ₚ candidates c name done') as Hc
    by by apply filter_map_Permutation.
  destruct b as [x|], b' as [y|]; simpl.
  - intros [Hx Hmx] [Hy Hmy]. rewrite <- Hc in Hy.
    assert (x.1 = y.1) as Heq.
    { apply pair_le_antisym; [apply Hmy; by rewrite <- Hc | by apply Hmx]. }
    split; [done |]. eapply candidate_sealed; [done | done | by rewrite Heq].
  - intros [Hx _] Hn. rewrite Hc, Hn in Hx. by apply not_elem_of_nil in Hx.
  - intros Hn [Hy _]. rewrite <- Hc, Hn in Hy. by apply not_elem_of_nil in Hy.
  - done.
Qed.

Lemma slot_get_eq clock run (c : Coordinator) name (w : world (S:=S)) tasks :
  spawn_all SealError_MsgpackFailed c ChSlot name = Ok tasks →
  ∃ best, newest (candidates c name (run tasks)) best ∧
  slot_get clock run c name w
  = let h := record_all_results clock 0 (run tasks) (w_health w) in
    if (answered (run tasks) =? 0) && negb (match failures_of (run tasks) with [] => true | _ => false end)
    then (Err (SlotError_AllTransportsFailed (failures_of (run tasks))), MkWorld (w_state w) h)
    else (Ok ((λ b : N * bytes * SlotValue, b.2) <$> best),
          MkWorld (match best with
                   | Some b => (record_seen_slot_version name b.1.1 (w_state w)).2
                   | None => w_state w
                   end) h).
Proof.
  intros Ht. destruct (select_spec c name (run tasks)) as (H1 & H2 & H3).
  eexists. split; [exact H3 |]. unfold slot_get, lift. rewrite Ht. cbn [map_err rbind].
  rewrite H1, H2. destruct (_ && _); [done |]. do 2 f_equal.
  by destruct (sel_best _) as [[[? ?] ?]|].
Qed.

(** Every endpoint gets a task when the name is legal. *)
Lemma spawn_all_Ok `{PL : !PrimitivesLaws} {E} (e : E) (c : Coordinator) kind name :
  name_ok name →
  ∃ tasks, spawn_all e c kind name = Ok tasks
    ∧ Forall2 (λ ep t, tk_endpoint t = ep ∧ transport_channel_id (seed c) (te_kind ep) kind name = Ok (tk_id t))
        (co_transports c) tasks.
Proof.
  intros Hn. unfold spawn_all. induction (co_transports c) as [|ep eps IH]; [by exists [] |].
  destruct IH as (tasks & Ht & Hall). cbn [map_result].
  assert (∃ id, transport_channel_id (seed c) (te_kind ep) kind name = Ok id) as [id Hid].
  { unfold transport_channel_id. case_decide.
    - destruct (iroh_topic_id_Ok (seed c) kind name Hn) as (i & ? & _). eauto.
    - destruct (channel_id_Ok (seed c) (te_kind ep) kind name Hn) as (i & ? & _). eauto. }
  rewrite Hid. cbn [map_err rbind]. rewrite Ht. cbn [rbind].
  exists (MkTask ep id :: tasks). split; [done |]. by constructor.
Qed.

Lemma split_results_spec done :
  split_results done
  = (filter_map (λ r : TransportKind * result unit TransportError,
                   match r.2 with Ok _ => Some r.1 | _ => None end) done,
     filter_map (λ r : TransportKind * result unit TransportError,
                   match r.2 with Err e => Some (r.1, e) | _ => None end) done).
Proof.
  induction done as [|[kind r] done IH]; [done |]. cbn [split_results filter_map fst snd].
  rewrite IH. by destruct r.
Qed.
End Selection.

(** ** Lemmas: receiving *)

Section Receiving.
Context `{PR : Primitives} `{PL : !PrimitivesLaws} `{UL : UrlLib} {LC : LruCache bytes}.
Context {MP : Msgpack SignedInner} {S : Type} {ST : StateStore S} {T : Type}.
Notation Coordinator := (Coordinator (T:=T)).
Notation recv_result := (TransportKind * result (option bytes) TransportError)%type.

(** The sealed payloads of a round, in completion order. *)
Definition payloads (done : list recv_result) : list bytes :=
  filter_map (λ r : recv_result, match r.2 with Ok (Some sealed) => Some sealed | _ => None end) done.

(** What a sealed mailbox payload opens to, if it opens without a version. *)
Definition open_mail (c : Coordinator) (name : bytes) (kind : TransportKind) (sealed : bytes)
    : option RecvMessage :=
  match Coordinator_open c ChMailbox name sealed with
  | Ok o => match oe_version o with
            | None => Some (MkRecvMessage (oe_payload o) kind (oe_signed_by o))
            | Some _ => None
            end
  | _ => None
  end.

(** No payload of [done] is both new to [d] (as it evolves) and openable. *)
Fixpoint all_dropped (c : Coordinator) (name : bytes) (d : Dedup) (done : list recv_result) : Prop :=
  match done with
  | [] => True
  | (kind, Ok (Some sealed)) :: rest =>
      ((observe d sealed).1 = true ∨ open_mail c name kind sealed = None)
      ∧ all_dropped c name (observe d sealed).2 rest
  | _ :: rest => all_dropped c name d rest
  end.

Lemma observe_all_cons (d : Dedup) p h : observe_all d (p :: h) = observe_all (observe d p).2 h.
Proof. done. Qed.

(** The code's nested matches, through [open_mail]. *)
Lemma recv_round_cons clock i (c : Coordinator) name kind sealed rest a d h :
  recv_round clock i c name ((kind, Ok (Some sealed)) :: rest) a d h
  = let h := record_transport_result (clock i) kind (Ok (Some sealed)) h in
    match (observe d sealed).1, open_mail c name kind sealed with
    | false, Some m => (inl m, (observe d sealed).2, h)
    | _, _ => recv_round clock (Datatypes.S i) c name rest true (observe d sealed).2 h
    end.
Proof.
  cbn [recv_round]. unfold open_mail. destruct (observe d sealed) as [dup d']. cbn [fst snd].
  destruct dup; [done |]. destruct (Coordinator_open c ChMailbox name sealed) as [o|?|]; try done.
  by destruct (oe_version o).
Qed.

Lemma recv_round_spec clock i (c : Coordinator) name done a d h :
  match recv_round clock i c name done a d h with
  | (inl m, d', _) =>
      ∃ pre kind sealed post, done = pre ++ (kind, Ok (Some sealed)) :: post
        ∧ all_dropped c name d pre
        ∧ (observe (observe_all d (payloads pre)) sealed).1 = false
        ∧ open_mail c name kind sealed = Some m
        ∧ d' = observe_all d (payloads pre ++ [sealed])
  | (inr _, d', _) => all_dropped c name d done ∧ d' = observe_all d (payloads done)
  end.
Proof.
  revert i a d h. induction done as [|[kind r] done IH]; intros i a d h; [done |].
  assert (∀ a' d' h', match recv_round clock (Datatypes.S i) c name done a' d' h' with
    | (inl m, d'', _) => ∃ pre kind sealed post, done = pre ++ (kind, Ok (Some sealed)) :: post
        ∧ all_dropped c name d' pre ∧ (observe (observe_all d' (payloads pre)) sealed).1 = false
        ∧ open_mail c name kind sealed = Some m ∧ d'' = observe_all d' (payloads pre ++ [sealed])
    | (inr _, d'', _) => all_dropped c name d' done ∧ d'' = observe_all d' (payloads done)
    end) as IH' by (intros; apply IH). clear IH.
  destruct r as [[sealed|]|e|].
  - rewrite recv_round_cons. cbv zeta.
    assert (∀ h', ((observe d sealed).1 = true ∨ open_mail c name kind sealed = None) →
      match recv_round clock (Datatypes.S i) c name done true (observe d sealed).2 h' with
      | (inl m, d', _) => ∃ pre kind0 sealed0 post,
          (kind, Ok (Some sealed)) :: done = pre ++ (kind0, Ok (Some sealed0)) :: post
          ∧ all_dropped c name d pre ∧ (observe (observe_all d (payloads pre)) sealed0).1 = false
          ∧ open_mail c name kind0 sealed0 = Some m ∧ d' = observe_all d (payloads pre ++ [sealed0])
      | (inr _, d', _) => all_dropped c name d ((kind, Ok (Some sealed)) :: done)
          ∧ d' = observe_all d (payloads ((kind, Ok (Some sealed)) :: done))
      end) as Hskip.
    { intros h' Hdrop. specialize (IH' true (observe d sealed).2 h').
      destruct (recv_round _ _ _ _ _ _ _ _) as [[[m|b] d'] h''].
      - destruct IH' as (pre & k & s & post & -> & H1 & H2 & H3 & H4).
        exists ((kind, Ok (Some sealed)) :: pre), k, s, post. by split_and!.
      - destruct IH' as [H1 H2]. by split. }
    destruct (observe d sealed).1 eqn:Hdup; [apply Hskip; by left |].
    destruct (open_mail c name kind sealed) as [m|] eqn:Hom; [| apply Hskip; by right].
    exists [], kind, sealed, done. by split_and!.
  - cbn [recv_round]. specialize (IH' true d (record_transport_result (clock i) kind (Ok (@None bytes)) h)).
    destruct (recv_round _ _ _ _ _ _ _ _) as [[[m|b] d'] h'']; [| done].
    destruct IH' as (pre & k & s & post & -> & ?). by exists ((kind, Ok None) :: pre), k, s, post.
  - cbn [recv_round]. specialize (IH' a d (record_transport_result (A:=option bytes) (clock i) kind (Err e) h)).
    destruct (recv_round _ _ _ _ _ _ _ _) as [[[m|b] d'] h'']; [| done].
    destruct IH' as (pre & k & s & post & -> & ?). by exists ((kind, Err e) :: pre), k, s, post.
  - cbn [recv_round]. specialize (IH' a d (record_transport_result (A:=option bytes) (clock i) kind Panic h)).
    destruct (recv_round _ _ _ _ _ _ _ _) as [[[m|b] d'] h'']; [| done].
    destruct IH' as (pre & k & s & post & -> & ?). by exists ((kind, Panic) :: pre), k, s, post.
Qed.

Lemma observe_new cap history sealed :
  (observe (observe_all (Dedup_new cap) history) sealed).1 = bool_decide (digest sealed ∈ window cap history).
Proof. by rewrite observe_result, observe_all_keys. Qed.

Lemma observe_all_app (d : Dedup) h k : observe_all (observe_all d h) k = observe_all d (h ++ k).
Proof. unfold observe_all. by rewrite foldl_app. Qed.

Lemma window_subset cap history x : x ∈ window cap history → x ∈ digest <$> history.
Proof.
  unfold window. intros (i & Hi & _)%elem_of_take. apply list_elem_of_lookup_2 in Hi.
  rewrite elem_of_uniq in Hi. apply list_elem_of_fmap in Hi as (y & -> & Hy).
  rewrite elem_of_reverse in Hy. by apply list_elem_of_fmap_2.
Qed.

Lemma all_dropped_app (c : Coordinator) name d l k :
  all_dropped c name d (l ++ k) ↔ all_dropped c name d l ∧ all_dropped c name (observe_all d (payloads l)) k.
Proof.
  revert d. induction l as [|[kind r] l IH]; intros d; [naive_solver |].
  destruct r as [[sealed|]|e|]; cbn [app all_dropped payloads filter_map snd]; fold (payloads l);
    rewrite ?observe_all_cons, IH; naive_solver.
Qed.

(** The payloads of the first [j] rounds. *)
Fixpoint rounds_payloads (run : nat → list (task (T:=T)) → list recv_result) (tasks : list task)
    (n j : nat) : list bytes :=
  match j with
  | O => []
  | Datatypes.S j => payloads (run n tasks) ++ rounds_payloads run tasks (Datatypes.S n) j
  end.

Lemma mailbox_recv_reaches j : ∀ rounds n clock run (c : Coordinator) name tasks cap history h
    pre kind sealed post m,
  j < rounds → spawn_all RecvError_Closed c ChMailbox name = Ok tasks →
  run (n + j) tasks = pre ++ (kind, Ok (Some sealed)) :: post →
  open_mail c name kind sealed = Some m →
  digest sealed ∉ digest <$> (history ++ rounds_payloads run tasks n j ++ payloads pre) →
  ∃ m' d' h', mailbox_recv rounds n clock run c name false (observe_all (Dedup_new cap) history) h
              = (Some (Ok m'), d', h').
Proof.
  induction j as [|j IH]; intros rounds n clock run c name tasks cap history h pre kind sealed post m
    Hj Htasks Hrun Hopen Hnew; destruct rounds as [|rounds]; try lia;
    cbn [mailbox_recv]; rewrite Htasks.
  - rewrite Nat.add_0_r in Hrun. rewrite Hrun.
    pose proof (recv_round_spec (clock n) 0 c name (pre ++ (kind, Ok (Some sealed)) :: post) false
      (observe_all (Dedup_new cap) history) h) as Hspec.
    destruct (recv_round _ _ _ _ _ _ _ _) as [[[m'|b] d'] h']; [eauto |]. exfalso.
    destruct Hspec as [Hd _]. apply all_dropped_app in Hd as [_ Hd].
    cbn [all_dropped] in Hd. destruct Hd as [[Hdup|Hno] _]; [| congruence].
    rewrite observe_all_app, observe_new in Hdup. apply bool_decide_eq_true, window_subset in Hdup.
    cbn [rounds_payloads] in Hnew. by apply Hnew.
  - pose proof (recv_round_spec (clock n) 0 c name (run n tasks) false
      (observe_all (Dedup_new cap) history) h) as Hspec.
    destruct (recv_round _ _ _ _ _ _ _ _) as [[[m'|b] d'] h']; [eauto |].
    destruct Hspec as [_ ->]. rewrite observe_all_app.
    eapply (IH rounds (Datatypes.S n) clock run c name tasks cap _ h' pre kind sealed post m);
      [lia | done | by rewrite Nat.add_succ_l, <- Nat.add_succ_r | done |].
    cbn [rounds_payloads] in Hnew. by rewrite <- !app_assoc in *.
Qed.

(** ** Claims: receiving *)

(** One round of [recv] delivers the first payload, in completion order,
    that opens on this mailbox without a version and whose digest is not
    among the [capacity] most recent distinct ones observed before it; every
    payload before it was a duplicate or did not open, every payload up to
    and including it is remembered, and the rest of the round is discarded
    unseen.  When nothing qualifies, all payloads are remembered. *)
Lemma mailbox_recv_round_spec (clock : nat → N * N) (c : Coordinator) (name : bytes)
    (done : list recv_result) (capacity : nat) (history : list bytes) (h : HealthTracker) :
  match recv_round clock 0 c name done false (observe_all (Dedup_new capacity) history) h with
  | (inl m, d', _) =>
      ∃ pre kind sealed post, done = pre ++ (kind, Ok (Some sealed)) :: post
        ∧ open_mail c name kind sealed = Some m
        ∧ digest sealed ∉ window capacity (history ++ payloads pre)
        ∧ all_dropped c name (observe_all (Dedup_new capacity) history) pre
        ∧ d' = observe_all (Dedup_new capacity) (history ++ payloads pre ++ [sealed])
  | (inr _, d', _) =>
      all_dropped c name (observe_all (Dedup_new capacity) history) done
      ∧ d' = observe_all (Dedup_new capacity) (history ++ payloads done)
  end.
Proof.
  pose proof (recv_round_spec clock 0 c name done false (observe_all (Dedup_new capacity) history) h) as H.
  destruct (recv_round _ _ _ _ _ _ _ _) as [[[m|b] d'] h'].
  - destruct H as (pre & kind & sealed & post & -> & Hd & Hnew & Hopen & ->).
    exists pre, kind, sealed, post. rewrite !observe_all_app in *. rewrite observe_new in Hnew.
    apply bool_decide_eq_false in Hnew. by split_and!.
  - destruct H as [Hd ->]. by rewrite observe_all_app.
Qed.

(** C21: [recv] with a non-zero wait returns: if round [j] brings a payload
    that opens on the mailbox and whose digest did not occur before, the call
    has returned a message after at most [j + 1] rounds; with a zero wait it
    always returns after one round. *)
Theorem mailbox_recv_returns (j rounds : nat) (clock : nat → nat → N * N)
    (run : nat → list (task (T:=T)) → list recv_result) (c : Coordinator) (name : bytes)
    (tasks : list task) (capacity : nat) (history : list bytes) (h : HealthTracker)
    (pre post : list recv_result) (kind : TransportKind) (sealed : bytes) (m : RecvMessage) :
  j < rounds → spawn_all RecvError_Closed c ChMailbox name = Ok tasks →
  run j tasks = pre ++ (kind, Ok (Some sealed)) :: post →
  open_mail c name kind sealed = Some m →
  digest sealed ∉ digest <$> (history ++ rounds_payloads run tasks 0 j ++ payloads pre) →
  (∃ m' d' h', mailbox_recv rounds 0 clock run c name false (observe_all (Dedup_new capacity) history) h
               = (Some (Ok m'), d', h'))
  ∧ ∀ d, (mailbox_recv 1 0 clock run c name true d h).1.1 ≠ None.
Proof.
  intros Hj Htasks Hrun Hopen Hnew. split.
  - by eapply (mailbox_recv_reaches j rounds 0).
  - intros d. cbn [mailbox_recv]. rewrite Htasks. by destruct (recv_round _ _ _ _ _ _ _ _) as [[[?|?] ?] ?].
Qed.

(** ** Claims: sending and slots *)

(** A send seals the payload once, gives that same sealed frame to one
    task per configured transport, each under its own channel id, and reports
    exactly what completed: the transports that accepted it and the failures,
    in completion order; it is an error exactly when no transport accepted
    it.  The state store is not touched. *)
Lemma mailbox_send_spec (nonce : bytes) (clock : nat → N * N)
    (run : list (task (T:=T)) → bytes → list (TransportKind * result unit TransportError))
    (c : Coordinator) (name payload sealed : bytes) (w : world (S:=S)) :
  name_ok name → Coordinator_seal nonce c ChMailbox name payload None = Ok sealed →
  ∃ tasks,
    Forall2 (λ ep t, tk_endpoint t = ep
               ∧ transport_channel_id (seed c) (te_kind ep) ChMailbox name = Ok (tk_id t))
      (co_transports c) tasks
    ∧ let done := run tasks sealed in
      let delivered := filter_map (λ r : TransportKind * result unit TransportError,
                         match r.2 with Ok _ => Some r.1 | _ => None end) done in
      let failed := filter_map (λ r : TransportKind * result unit TransportError,
                      match r.2 with Err e => Some (r.1, e) | _ => None end) done in
      (mailbox_send nonce clock run c name payload w).1
        = (if decide (delivered = []) then Err (SendError_AllTransportsFailed failed)
           else Ok (MkSendReport delivered failed))
      ∧ w_state (mailbox_send nonce clock run c name payload w).2 = w_state w.
Proof.
  intros Hn Hs. destruct (spawn_all_Ok SealError_MsgpackFailed c ChMailbox name Hn) as (tasks & Ht & Hall).
  exists tasks. split; [done |]. cbv zeta. unfold mailbox_send, lift. rewrite Hs. cbn [map_err rbind].
  rewrite Ht. cbn [map_err rbind]. rewrite split_results_spec.
  by destruct (filter_map _ (run tasks sealed)).
Qed.

(** C13: [get] returns the newest value: among the answers that open on this
    slot with a version, the one with the largest (version, sealed bytes)
    pair; nothing when no answer qualifies; and an error exactly when some
    transport failed and none answered.  The result does not depend on the
    completion order (only the reported transport may). *)
Theorem slot_get_newest (clock clock' : nat → N * N)
    (run run' : list (task (T:=T)) → list (TransportKind * result (option (N * bytes)) TransportError))
    (c : Coordinator) (name : bytes) (w : world (S:=S)) :
  name_ok name → (∀ tasks, run tasks ≡ₚ run' tasks) →
  ∃ tasks, spawn_all SealError_MsgpackFailed c ChSlot name = Ok tasks
  ∧ match (slot_get clock run c name w).1, (slot_get clock' run' c name w).1 with
    | Ok (Some v), Ok (Some v') =>
        (answered (run tasks) ≠ 0 ∨ failures_of (run tasks) = [])
        ∧ (∃ sealed, (sv_version v, sealed, v) ∈ candidates c name (run tasks)
           ∧ ∀ y, y ∈ candidates c name (run tasks) → pair_le y.1 (sv_version v, sealed))
        ∧ sv_version v = sv_version v' ∧ sv_payload v = sv_payload v' ∧ sv_signed_by v = sv_signed_by v'
    | Ok None, Ok None =>
        (answered (run tasks) ≠ 0 ∨ failures_of (run tasks) = []) ∧ candidates c name (run tasks) = []
    | Err e, Err _ =>
        answered (run tasks) = 0 ∧ failures_of (run tasks) ≠ []
        ∧ e = SlotError_AllTransportsFailed (failures_of (run tasks))
    | _, _ => False
    end.
Proof.
  intros Hn Hperm. destruct (spawn_all_Ok SealError_MsgpackFailed c ChSlot name Hn) as (tasks & Ht & _).
  exists tasks. split; [done |].
  destruct (slot_get_eq clock run c name w tasks Ht) as (b & Hb & ->).
  destruct (slot_get_eq clock' run' c name w tasks Ht) as (b' & Hb' & ->). cbv zeta.
  pose proof (newest_Permutation c name _ _ b b' (Hperm tasks) Hb Hb') as Hbb.
  assert (answered (run' tasks) = answered (run tasks)) as ->.
  { unfold answered. apply Permutation_length. by rewrite (filter_map_Permutation _ _ _ (Hperm tasks)). }
  assert (failures_of (run tasks) ≡ₚ failures_of (run' tasks)) as Hf
    by (by apply filter_map_Permutation).
  assert ((match failures_of (run' tasks) with [] => true | _ => false end)
          = match failures_of (run tasks) with [] => true | _ => false end) as ->.
  { pose proof (Permutation_length Hf). by destruct (failures_of (run' tasks)), (failures_of (run tasks)). }
  destruct (Nat.eqb_spec (answered (run tasks)) 0) as [Ha|Ha]; cbn [andb fst].
  - destruct (failures_of (run tasks)) as [|x l] eqn:Ef; cbn [negb fst]; [| by split].
    destruct b as [[[v sl] x]|], b' as [[[v' sl'] x']|]; try done; [exfalso | split; [by right | done]].
    (* no answers, hence no candidates *)
    destruct Hb as [Hb _]. apply elem_of_filter_map in Hb as ([k r] & Hin & Hc).
    unfold candidate in Hc. destruct r as [o|?|]; cbn in Hc; try done.
    unfold answered in Ha. apply length_zero_iff_nil in Ha.
    assert ((k, Ok o) ∈ @nil (TransportKind * result (option (N * bytes)) TransportError)) as H0;
      [| by apply not_elem_of_nil in H0].
    rewrite <- Ha. apply elem_of_filter_map. by exists (k, Ok o).
  - destruct b as [[[v sl] x]|], b' as [[[v' sl'] x']|]; try done; cbn [fmap option_fmap option_map snd];
      [| split; [by left | done]].
    destruct Hb as [Hin Hmax]. destruct Hbb as (_ & H1 & H2 & H3). split_and!; [by left | | done ..].
    exists sl. assert (v = sv_version x) as ->.
    { apply elem_of_filter_map in Hin as ([k r] & _ & Hc). unfold candidate in Hc.
      destruct r as [[[? ?]|]|?|]; try done. cbn [fst snd] in Hc.
      destruct (open_slot _ _ _ _); [| done]. by injection Hc as <- <- <-. }
    split; done.
Qed.
Lemma slot_put_Ok nonce clock run (c : Coordinator) name payload (w w' : world (S:=S)) report :
  slot_put nonce clock run c name payload w = (Ok report, w') →
  ∃ tasks sealed, next_local_slot_version name (w_state w) = (Ok (pr_version report), w_state w')
    ∧ Coordinator_seal nonce c ChSlot name payload (Some (pr_version report)) = Ok sealed
    ∧ spawn_all SealError_MsgpackFailed c ChSlot name = Ok tasks
    ∧ split_results (run tasks (pr_version report) sealed) = (pr_stored report, pr_failed report)
    ∧ pr_stored report ≠ [].
Proof.
  unfold slot_put, lift. destruct (next_local_slot_version name (w_state w)) as [[v|e|] st]; try done.
  cbn [w_state w_health].
  destruct (Coordinator_seal nonce c ChSlot name payload (Some v)) as [sealed|?|] eqn:Hs; try done.
  cbn [map_err rbind].
  destruct (spawn_all SealError_MsgpackFailed c ChSlot name) as [tasks|?|] eqn:Ht; try done.
  cbn [map_err rbind]. destruct (split_results (run tasks v sealed)) as [stored failed] eqn:Hr.
  destruct stored as [|k stored]; [done |]. intros [= <- <-]. exists tasks, sealed. by split_and!.
Qed.

Lemma slot_get_raises `{!SlotVersionLaws S} clock run (c : Coordinator) name (w w' : world (S:=S)) v :
  slot_get clock run c name w = (Ok (Some v), w') →
  high_water name (w_state w') = N.max (sv_version v) (high_water name (w_state w)).
Proof.
  intros H. assert (∃ tasks, spawn_all SealError_MsgpackFailed c ChSlot name = Ok tasks) as [tasks Ht].
  { unfold slot_get, lift in H. destruct (spawn_all _ _ _ _) as [tasks|?|]; [by exists tasks | done | done]. }
  destruct (slot_get_eq clock run c name w tasks Ht) as (b & Hb & Heq). rewrite Heq in H. cbv zeta in H.
  destruct (_ && _); [done |]. destruct b as [[[bv bs] bx]|]; [| done]. injection H as <- <-.
  destruct Hb as [Hin _]. apply elem_of_filter_map in Hin as ([k r] & _ & Hc).
  unfold candidate in Hc. destruct r as [[[? ?]|]|?|]; try done. cbn [fst snd] in Hc.
  destruct (open_slot _ _ _ _); [| done]. injection Hc as <- <- <-.
  cbn [w_state fst snd]. apply seen_raises_high_water.
Qed.

(** On any store that keeps its version promises (both stores do), a put
    after a get publishes a version above the one the get returned, above
    every version the store knew, within 64 bits, and recorded by the store;
    it reports exactly the transports that stored that version's frame, and
    succeeds only if there is one.  A local put can therefore never be
    shadowed by the value just read. *)
Lemma slot_put_after_get `{!SlotVersionLaws S} (nonce : bytes) (clock clock' : nat → N * N)
    (run : list (task (T:=T)) → list (TransportKind * result (option (N * bytes)) TransportError))
    (run' : list (task (T:=T)) → N → bytes → list (TransportKind * result unit TransportError))
    (c : Coordinator) (name payload : bytes) (w w1 w2 : world (S:=S)) (v : SlotValue) (report : PutReport) :
  slot_get clock run c name w = (Ok (Some v), w1) →
  slot_put nonce clock' run' c name payload w1 = (Ok report, w2) →
  (sv_version v < pr_version report ≤ u64_max)%N
  ∧ (high_water name (w_state w) < pr_version report)%N
  ∧ high_water name (w_state w2) = pr_version report
  ∧ pr_stored report ≠ []
  ∧ ∃ tasks sealed, Coordinator_seal nonce c ChSlot name payload (Some (pr_version report)) = Ok sealed
    ∧ length tasks = length (co_transports c)
    ∧ split_results (run' tasks (pr_version report) sealed) = (pr_stored report, pr_failed report).
Proof.
  intros Hg%slot_get_raises (tasks & sealed & Hv & Hs & Ht & Hr & Hne)%slot_put_Ok.
  apply next_exceeds_high_water in Hv as [Hv Hw]. rewrite Hg in Hv.
  split_and!; try done; try lia. exists tasks, sealed. split_and!; try done.
  by apply map_result_length in Ht.
Qed.
End Receiving.

(** ** Witnesses *)

#[export] Instance SignedInner_eq_dec : EqDecision SignedInner.
Proof. solve_decision. Defined.

#[export] Instance SignedInner_countable : Countable SignedInner.
Proof.
  refine (inj_countable' (λ i, (si_payload i, si_version i, si_signer i, si_signature i))
    (λ t, MkSignedInner t.1.1.1 t.1.1.2 t.1.2 t.2) _). by intros [].
Defined.

Module CoordinatorWitness.
Import Toy ListLru.
#[local] Existing Instance ToyUrl.toy_url.
#[local] Instance inner_msgpack : Msgpack SignedInner := toy_msgpack.
#[local] Instance inner_msgpack_laws : MsgpackLaws SignedInner := toy_msgpack_laws.

Definition sk5 : @SigningKey toy_primitives := x05.
Definition vk5 : @VerifyingKey toy_primitives := x05.
Definition toy_seed : bytes := key_bytes x2a.
Definition toy_nonce : bytes := replicate NONCE_LEN x01.
Definition toy_clock (i : nat) : N * N := (N.of_nat i, N.of_nat i).
Definition toy_endpoints : list (TransportEndpoint (T:=unit)) :=
  [MkTransportEndpoint Http tt; MkTransportEndpoint Iroh tt].

(** One signing node that trusts itself, with room for small records. *)
Definition node : Coordinator (T:=unit) :=
  MkCoordinator toy_seed toy_endpoints (Some sk5) [vk5] 4 4096.

Definition toy_world : world (S:=InMemoryInner) := MkWorld Inner_default (MkHealthTracker []).

Definition get_ok {A E} (d : A) (r : result A E) : A := match r with Ok a => a | _ => d end.

Definition frame (kind : ChannelKind) (payload : bytes) (version : option N) : bytes :=
  get_ok [] (Coordinator_seal toy_nonce node kind (lit "a/b") payload version).

Definition mail : bytes := frame ChMailbox (lit "hi") None.
Definition slot3 : bytes := frame ChSlot (lit "old") (Some 3%N).
Definition slot7 : bytes := frame ChSlot (lit "new") (Some 7%N).

Lemma coordinator_open_seal_witness :
  Coordinator_open node ChMailbox (lit "a/b") mail = Ok (MkOpenedEnvelope (lit "hi") None (Some vk5)).
Proof.
  destruct (coordinator_open_seal toy_nonce node node ChMailbox (lit "a/b") (lit "hi") mail None)
    as (pt & _ & H); [reflexivity | reflexivity | right; apply list_elem_of_here | vm_refl |].
  vm_refl.
Defined.

Lemma coordinator_open_authentic_witness :
  ∃ key pt inner sig, unseal key (aead_aad ChSlot (lit "a/b")) slot7 = Ok pt ∧ from_slice pt = inl inner
    ∧ si_signature inner = Some sig
    ∧ verify vk5 (signature_preimage ChSlot (lit "a/b") (lit "new") (Some 7%N)) sig = true.
Proof.
  destruct (coordinator_open_authentic node ChSlot (lit "a/b") slot7
    (MkOpenedEnvelope (lit "new") (Some 7%N) (Some vk5))) as (_ & key & pt & inner & _ & Hu & _ & Hi & _ & _ & sig & _ & Hs & Hv & _).
  - vm_refl.
  - exists key, pt, inner, sig. split_and!; [exact Hu | exact Hi | exact Hs | exact Hv].
Defined.

Definition toy_recv (n : nat) (tasks : list (task (T:=unit)))
    : list (TransportKind * result (option bytes) TransportError) :=
  match n with
  | O => [(Http, Ok None); (Iroh, Err TransportError_Timeout)]
  | _ => [(Iroh, Ok (Some (lit "junk"))); (Http, Ok (Some mail))]
  end.

Lemma mailbox_recv_returns_witness :
  ∃ m d h, mailbox_recv 2 0 (λ _, toy_clock) toy_recv node (lit "a/b") false
             (observe_all (Dedup_new 4) []) (MkHealthTracker []) = (Some (Ok m), d, h).
Proof.
  assert (spawn_all RecvError_Closed node ChMailbox (lit "a/b")
          = Ok (get_ok [] (spawn_all RecvError_Closed node ChMailbox (lit "a/b")))) as Ht by vm_refl.
  assert (open_mail node (lit "a/b") Http mail = Some (MkRecvMessage (lit "hi") Http (Some vk5)))
    as Hm by vm_refl.
  refine (proj1 (mailbox_recv_returns 1 2 (λ _, toy_clock) toy_recv node (lit "a/b") _ 4 []
    (MkHealthTracker []) [(Iroh, Ok (Some (lit "junk")))] [] Http mail _ _ Ht _ Hm _)).
  - lia.
  - reflexivity.
  - apply (bool_decide_eq_true_1 (Dedup.digest mail ∉ _)). vm_refl.
Defined.

Definition toy_get (_ : list (task (T:=unit)))
    : list (TransportKind * result (option (N * bytes)) TransportError) :=
  [(Http, Ok (Some (9%N, slot3))); (Iroh, Ok (Some (7%N, slot7)))].

Definition seven : SlotValue := MkSlotValue 7 (lit "new") Iroh (Some vk5).

Lemma slot_get_newest_witness :
  ∃ tasks, spawn_all SealError_MsgpackFailed node ChSlot (lit "a/b") = Ok tasks
  ∧ ∀ y, y ∈ candidates node (lit "a/b") (toy_get tasks) → (y.1.1 ≤ 7)%N.
Proof.
  destruct (slot_get_newest toy_clock toy_clock toy_get (λ t, reverse (toy_get t)) node (lit "a/b") toy_world)
    as (tasks & Ht & H).
  - apply validate_name_Ok. vm_refl.
  - intros tasks. symmetry. apply reverse_Permutation.
  - exists tasks. split; [exact Ht |].
    assert ((slot_get toy_clock toy_get node (lit "a/b") toy_world).1 = Ok (Some seven)) as Hv by vm_refl.
    rewrite Hv in H.
    destruct (slot_get toy_clock (λ t, reverse (toy_get t)) node (lit "a/b") toy_world).1
      as [[v'|]|e|]; try contradiction.
    destruct H as (_ & (sealed & _ & Hmax) & _). intros y Hy. specialize (Hmax y Hy).
    exact (pair_le_version _ _ Hmax).
Defined.

Definition toy_put (tasks : list (task (T:=unit))) (_ : N) (_ : bytes)
    : list (TransportKind * result unit TransportError) :=
  [(Iroh, Ok tt); (Http, Err TransportError_Auth)].

Lemma slot_put_after_get_witness : (7 < 8)%N.
Proof.
  assert (slot_get toy_clock toy_get node (lit "a/b") toy_world
          = (Ok (Some seven), (slot_get toy_clock toy_get node (lit "a/b") toy_world).2)) as Hg by vm_refl.
  refine (proj1 (proj1 (slot_put_after_get toy_nonce toy_clock toy_clock toy_get toy_put node (lit "a/b")
    (lit "next") toy_world _ (slot_put toy_nonce toy_clock toy_put node (lit "a/b") (lit "next")
       (slot_get toy_clock toy_get node (lit "a/b") toy_world).2).2 seven
    (MkPutReport 8 [Iroh] [(Http, TransportError_Auth)]) Hg _))).
  vm_refl.
Defined.
End CoordinatorWitness.
