(* ===== verification/SlotWatch.v ===== *)
(** * coordinator.rs: watching a slot

    [slot_watch] spawns one task per transport.  The tasks share the
    duplicate buffer, the best pair seen so far, the state store and the
    sending half of a bounded channel; they interleave at their [await]
    points.  The model is a transition system whose events name the task that
    moves: every schedule of the runtime is a sequence of events. *)

From S2P Require Import Prelude Bytes Crypto Kdf Net Guard Errors Dedup Config Health PeerCard Msgpack State Coordinator.

Definition WATCH_BUFFER : nat := 64.

Section SlotWatch.
Context `{PR : Primitives} `{UL : UrlLib} {LC : LruCache bytes} {MP : Msgpack SignedInner}.
Context {S : Type} {ST : StateStore S} {T : Type}.

(** Where a task is suspended in the body of its loop. *)
Inductive pc : Type :=
| Waiting                                          (** [stream.next().await] *)
| Received (sealed : bytes)                        (** [dedup.lock().await] *)
| Opened (sealed : bytes) (value : SlotValue)      (** [best.lock().await] *)
| Accepted (sealed : bytes) (value : SlotValue)    (** after [drop(best)] *)
| Sending (sealed : bytes) (value : SlotValue)     (** [tx.send(..).await] *)
| Stopped.                                         (** the loop has ended *)

Record watcher : Type := MkWatcher { wt_kind : TransportKind; wt_pc : pc }.

(** The shared state.  The last four fields record history only: the frames
    given to the duplicate buffer, the pairs stored in [best], the values
    that entered the channel and those the consumer took, oldest first. *)
Record watch : Type := MkWatch {
  wa_tasks : list watcher;
  wa_best : option (N * bytes);
  wa_dedup : Dedup;
  wa_world : world (S:=S);
  wa_queue : list SlotValue;
  wa_rx_open : bool;
  wa_observed : list bytes;
  wa_accepted : list (N * bytes * SlotValue);
  wa_sent : list (N * bytes * SlotValue);
  wa_taken : list SlotValue
}.

(** One task per transport whose channel id can be derived. *)
Definition slot_watch (c : Coordinator (T:=T)) (name : bytes) (w : world) : watch :=
  let tasks :=
    filter_map (λ ep, match transport_channel_id (seed c) (te_kind ep) ChSlot name with
                      | Ok _ => Some (MkWatcher (te_kind ep) Waiting)
                      | _ => None
                      end) (co_transports c) in
  MkWatch tasks None (Dedup_new (co_dedup_buffer c)) w [] true [] [] [] [].

Definition set_task (i : nat) (kind : TransportKind) (p : pc) (a : watch) : watch :=
  MkWatch (<[i := MkWatcher kind p]> (wa_tasks a)) (wa_best a) (wa_dedup a) (wa_world a) (wa_queue a)
    (wa_rx_open a) (wa_observed a) (wa_accepted a) (wa_sent a) (wa_taken a).

Definition set_world (w : world) (a : watch) : watch :=
  MkWatch (wa_tasks a) (wa_best a) (wa_dedup a) w (wa_queue a) (wa_rx_open a) (wa_observed a)
    (wa_accepted a) (wa_sent a) (wa_taken a).

(** [stream.next()] yields an item or the end of the stream. *)
Definition task_item (i : nat) (kind : TransportKind) (clock : N * N)
    (item : option (result (N * bytes) TransportError)) (a : watch) : watch :=
  match item with
  | None => set_task i kind Stopped a
  | Some r =>
      let w := wa_world a in
      let a := set_world (MkWorld (w_state w) (record_transport_result clock kind r (w_health w))) a in
      match r with
      | Ok (_, sealed) => set_task i kind (Received sealed) a
      | _ => a
      end
  end.

(** [if dedup.lock().await.observe(&sealed) { continue; }], then opening. *)
Definition task_observe (c : Coordinator (T:=T)) (name : bytes) (i : nat) (kind : TransportKind)
    (sealed : bytes) (a : watch) : watch :=
  let '(dup, d) := observe (wa_dedup a) sealed in
  let next :=
    if dup then Waiting
    else match open_slot c name kind sealed with
         | Some value => Opened sealed value
         | None => Waiting
         end in
  set_task i kind next
    (MkWatch (wa_tasks a) (wa_best a) d (wa_world a) (wa_queue a) (wa_rx_open a)
       (wa_observed a ++ [sealed]) (wa_accepted a) (wa_sent a) (wa_taken a)).

(** The critical section of [best]. *)
Definition task_compare (i : nat) (kind : TransportKind) (sealed : bytes) (value : SlotValue) (a : watch)
    : watch :=
  let version := sv_version value in
  if match wa_best a with
     | Some (bv, bs) => negb (slot_pair_is_newer version sealed bv bs)
     | None => false
     end
  then set_task i kind Waiting a
  else set_task i kind (Accepted sealed value)
         (MkWatch (wa_tasks a) (Some (version, sealed)) (wa_dedup a) (wa_world a) (wa_queue a)
            (wa_rx_open a) (wa_observed a) (wa_accepted a ++ [(version, sealed, value)]) (wa_sent a)
            (wa_taken a)).

Definition task_record (name : bytes) (i : nat) (kind : TransportKind) (sealed : bytes) (value : SlotValue)
    (a : watch) : watch :=
  let w := wa_world a in
  set_task i kind (Sending sealed value)
    (set_world (MkWorld (record_seen_slot_version name (sv_version value) (w_state w)).2 (w_health w)) a).

(** [tx.send]: waits while the buffer is full, fails when the receiver is
    gone. *)
Definition task_send (i : nat) (kind : TransportKind) (sealed : bytes) (value : SlotValue) (a : watch)
    : option watch :=
  if wa_rx_open a then
    if length (wa_queue a) <? WATCH_BUFFER then
      Some (set_task i kind Waiting
        (MkWatch (wa_tasks a) (wa_best a) (wa_dedup a) (wa_world a) (wa_queue a ++ [value])
           (wa_rx_open a) (wa_observed a) (wa_accepted a) (wa_sent a ++ [(sv_version value, sealed, value)])
           (wa_taken a)))
    else None
  else Some (set_task i kind Stopped a).

(** One event: a stream item for a waiting task, a move of a suspended task,
    another client of the shared store, a [recv] or the drop of the
    consumer.  [None] means that the event cannot happen. *)
Inductive event : Type :=
| EvItem (i : nat) (clock : N * N) (item : option (result (N * bytes) TransportError))
| EvRun (i : nat)
| EvStore (op : version_op)
| EvRecv
| EvDrop.

Definition run_task (c : Coordinator (T:=T)) (name : bytes) (i : nat) (a : watch) : option watch :=
  match wa_tasks a !! i with
  | Some (MkWatcher kind p) =>
      match p with
      | Received sealed => Some (task_observe c name i kind sealed a)
      | Opened sealed value => Some (task_compare i kind sealed value a)
      | Accepted sealed value => Some (task_record name i kind sealed value a)
      | Sending sealed value => task_send i kind sealed value a
      | Waiting | Stopped => None
      end
  | None => None
  end.

Definition store_op (op : version_op) (s : S) : S :=
  match op with
  | OpNext slot => (next_local_slot_version slot s).2
  | OpSeen slot v => (record_seen_slot_version slot v s).2
  end.

(** [SlotWatch::recv]: a value, [Closed] once every task has ended and the
    buffer is empty, or still waiting. *)
Definition watch_recv (a : watch) : option (result SlotValue RecvError * watch) :=
  match wa_queue a with
  | v :: q =>
      Some (Ok v, MkWatch (wa_tasks a) (wa_best a) (wa_dedup a) (wa_world a) q (wa_rx_open a)
                    (wa_observed a) (wa_accepted a) (wa_sent a) (wa_taken a ++ [v]))
  | [] =>
      if forallb (λ t, match wt_pc t with Stopped => true | _ => false end) (wa_tasks a)
      then Some (Err RecvError_Closed, a) else None
  end.

Definition watch_step (c : Coordinator (T:=T)) (name : bytes) (ev : event) (a : watch) : option watch :=
  match ev with
  | EvItem i clock item =>
      match wa_tasks a !! i with
      | Some (MkWatcher kind Waiting) => Some (task_item i kind clock item a)
      | _ => None
      end
  | EvRun i => run_task c name i a
  | EvStore op =>
      let w := wa_world a in Some (set_world (MkWorld (store_op op (w_state w)) (w_health w)) a)
  | EvRecv => if wa_rx_open a then snd <$> watch_recv a else None
  | EvDrop =>
      Some (MkWatch (wa_tasks a) (wa_best a) (wa_dedup a) (wa_world a) [] false (wa_observed a)
              (wa_accepted a) (wa_sent a) (wa_taken a))
  end.

(** Every state some schedule leads to. *)
Inductive reachable (c : Coordinator (T:=T)) (name : bytes) (w : world) : watch → Prop :=
| reach_start : reachable c name w (slot_watch c name w)
| reach_step ev a a' :
    reachable c name w a → watch_step c name ev a = Some a' → reachable c name w a'.

Fixpoint run_events (c : Coordinator (T:=T)) (name : bytes) (evs : list event) (a : watch) : option watch :=
  match evs with
  | [] => Some a
  | ev :: evs =>
      match watch_step c name ev a with
      | Some a => run_events c name evs a
      | None => None
      end
  end.
End SlotWatch.

(** ** Lemmas: the shape of a step *)

Section Steps.
Context `{PR : Primitives} `{UL : UrlLib} {LC : LruCache bytes} {MP : Msgpack SignedInner}.
Context {S : Type} {ST : StateStore S} {T : Type}.
Notation watch := (watch (S:=S)).
Variable (c : Coordinator (T:=T)) (name : bytes).

(** The steps, one rule per suspension point. *)
Inductive moves : watch → watch → Prop :=
| mv_item i kind clock item a :
    wa_tasks a !! i = Some (MkWatcher kind Waiting) → moves a (task_item i kind clock item a)
| mv_observe i kind sealed a :
    wa_tasks a !! i = Some (MkWatcher kind (Received sealed)) →
    moves a (task_observe c name i kind sealed a)
| mv_compare i kind sealed value a :
    wa_tasks a !! i = Some (MkWatcher kind (Opened sealed value)) →
    moves a (task_compare i kind sealed value a)
| mv_record i kind sealed value a :
    wa_tasks a !! i = Some (MkWatcher kind (Accepted sealed value)) →
    moves a (task_record name i kind sealed value a)
| mv_send i kind sealed value a a' :
    wa_tasks a !! i = Some (MkWatcher kind (Sending sealed value)) →
    task_send i kind sealed value a = Some a' → moves a a'
| mv_store op a :
    moves a (set_world (MkWorld (store_op op (w_state (wa_world a))) (w_health (wa_world a))) a)
| mv_recv r a a' : wa_rx_open a = true → watch_recv a = Some (r, a') → moves a a'
| mv_drop a :
    moves a (MkWatch (wa_tasks a) (wa_best a) (wa_dedup a) (wa_world a) [] false (wa_observed a)
               (wa_accepted a) (wa_sent a) (wa_taken a)).

Lemma watch_step_moves ev a a' : watch_step c name ev a = Some a' → moves a a'.
Proof.
  destruct ev as [i clock item|i|op| |]; cbn [watch_step].
  - destruct (wa_tasks a !! i) as [[kind []]|] eqn:E; try done. intros [= <-]. by constructor.
  - unfold run_task. destruct (wa_tasks a !! i) as [[kind []]|] eqn:E; try done;
      [intros [= <-]; by constructor .. | intros H; by eapply mv_send].
  - intros [= <-]. apply mv_store.
  - destruct (wa_rx_open a) eqn:Ho; [| done].
    destruct (watch_recv a) as [[r b]|] eqn:E; [| done]. intros [= <-]. by eapply mv_recv.
  - intros [= <-]. apply mv_drop.
Qed.

(** An invariant that holds at the start and along every step. *)
Lemma reachable_ind_moves (w : world) (P : watch → Prop) :
  P (slot_watch c name w) → (∀ a a', P a → moves a a' → P a') →
  ∀ a, reachable c name w a → P a.
Proof. intros H0 Hs a. induction 1; [done |]. eapply Hs; [done |]. by eapply watch_step_moves. Qed.

Lemma run_events_reachable (w : world) evs a a' :
  reachable c name w a → run_events c name evs a = Some a' → reachable c name w a'.
Proof.
  revert a. induction evs as [|ev evs IH]; intros a Ha; cbn [run_events]; [by intros [= <-] |].
  destruct (watch_step c name ev a) as [b|] eqn:E; [| done]. apply IH. by eapply reach_step.
Qed.

(** *** Updating one task *)

Lemma task_split {A} (l : list A) i t :
  l !! i = Some t → ∃ l1 l2, l = l1 ++ t :: l2 ∧ ∀ t', <[i := t']> l = l1 ++ t' :: l2.
Proof.
  intros H. exists (take i l), (drop (Datatypes.S i) l). split; [by rewrite take_drop_middle |].
  intros t'. apply insert_take_drop. by eapply lookup_lt_Some.
Qed.

Lemma filter_map_insert {A B} (f : A → option B) l i t t' :
  l !! i = Some t →
  option_list (f t) ++ filter_map f (<[i := t']> l) ≡ₚ option_list (f t') ++ filter_map f l.
Proof.
  intros (l1 & l2 & -> & Hi)%task_split. rewrite Hi, !filter_map_app. cbn [filter_map].
  destruct (f t), (f t'); cbn [option_list app]; rewrite <- ?Permutation_middle; try done. by constructor.
Qed.

(** The frames the transports yield in a schedule, and those a task has taken
    from its stream and not yet shown to the duplicate buffer. *)
Definition yielded (evs : list event) : list bytes :=
  filter_map (λ ev, match ev with EvItem _ _ (Some (Ok (_, sealed))) => Some sealed | _ => None end) evs.

Definition in_hand (t : watcher) : option bytes :=
  match wt_pc t with Received sealed => Some sealed | _ => None end.

(** Every frame a transport yields is in a task's hand or has been shown to
    the duplicate buffer. *)
Lemma step_yielded ev (a a' : watch) :
  watch_step c name ev a = Some a' →
  wa_observed a' ++ filter_map in_hand (wa_tasks a')
  ≡ₚ wa_observed a ++ filter_map in_hand (wa_tasks a) ++ yielded [ev].
Proof.
  assert (∀ i kind p p' q, wa_tasks a !! i = Some (MkWatcher kind p) →
    option_list (in_hand (MkWatcher kind p)) ++ q ≡ₚ option_list (in_hand (MkWatcher kind p')) →
    filter_map in_hand (<[i := MkWatcher kind p']> (wa_tasks a)) ≡ₚ filter_map in_hand (wa_tasks a) ++ q) as Hmove.
  { intros i kind p p' q Hi Hq. pose proof (filter_map_insert in_hand _ i _ (MkWatcher kind p') Hi) as H.
    apply (Permutation_app_inv_l (option_list (in_hand (MkWatcher kind p)))). rewrite H, <- Hq.
    rewrite (Permutation_app_comm (filter_map in_hand (wa_tasks a)) q). by rewrite app_assoc. }
  destruct ev as [i clock item|i|op| |]; cbn [watch_step].
  - destruct (wa_tasks a !! i) as [[kind []]|] eqn:Hi; try done. intros [= <-].
    destruct item as [[[v b]|e|]|]; cbn [task_item wa_observed wa_tasks set_task set_world yielded filter_map];
      apply Permutation_app_head; rewrite ?app_nil_r; try done.
    + by apply (Hmove i kind Waiting (Received b) [b] Hi).
    + rewrite (Hmove i kind Waiting Stopped [] Hi); [by rewrite app_nil_r | done].
  - unfold run_task. destruct (wa_tasks a !! i) as [[kind p]|] eqn:Hi; [| done].
    cbn [yielded filter_map]. rewrite app_nil_r.
    destruct p as [|b|b v|b v|b v|]; try done.
    + intros [= <-]. unfold task_observe. destruct (observe (wa_dedup a) b) as [dup d]. cbn [wa_observed wa_tasks set_task].
      set (p' := if dup then _ else _).
      assert (in_hand (MkWatcher kind p') = None) as Hp by (unfold p'; destruct dup; [| destruct (open_slot _ _ _ _)]; done).
      pose proof (filter_map_insert in_hand _ i _ (MkWatcher kind p') Hi) as H. rewrite Hp in H.
      cbn [in_hand wt_pc option_list app] in H. by rewrite <- app_assoc, H.
    + intros [= <-]. unfold task_compare. destruct (match wa_best a with Some _ => _ | None => _ end);
        cbn [wa_observed wa_tasks set_task]; apply Permutation_app_head.
      * rewrite (Hmove i kind _ Waiting [] Hi); [by rewrite app_nil_r | done].
      * rewrite (Hmove i kind _ (Accepted b v) [] Hi); [by rewrite app_nil_r | done].
    + intros [= <-]. cbn [task_record wa_observed wa_tasks set_task set_world]. apply Permutation_app_head.
      rewrite (Hmove i kind _ (Sending b v) [] Hi); [by rewrite app_nil_r | done].
    + unfold task_send. destruct (wa_rx_open a); [destruct (_ <? _); [| done] |]; intros [= <-];
        cbn [wa_observed wa_tasks set_task]; apply Permutation_app_head.
      * rewrite (Hmove i kind _ Waiting [] Hi); [by rewrite app_nil_r | done].
      * rewrite (Hmove i kind _ Stopped [] Hi); [by rewrite app_nil_r | done].
  - intros [= <-]. cbn. by rewrite app_nil_r.
  - destruct (wa_rx_open a); [| done]. unfold watch_recv. cbn [yielded filter_map]. rewrite app_nil_r.
    destruct (wa_queue a); [destruct (forallb _ _); [| done] |]; by intros [= <-].
  - intros [= <-]. cbn. by rewrite app_nil_r.
Qed.

Lemma run_yielded evs : ∀ a a' : watch,
  run_events c name evs a = Some a' →
  wa_observed a' ++ filter_map in_hand (wa_tasks a')
  ≡ₚ wa_observed a ++ filter_map in_hand (wa_tasks a) ++ yielded evs.
Proof.
  induction evs as [|ev evs IH]; intros a a'; cbn [run_events]; [intros [= <-]; cbn; by rewrite app_nil_r |].
  destruct (watch_step c name ev a) as [b|] eqn:E; [| done]. intros ->%IH. apply step_yielded in E.
  rewrite !app_assoc in *. rewrite E. change (ev :: evs) with ([ev] ++ evs). unfold yielded.
  by rewrite filter_map_app, <- !app_assoc.
Qed.

(** The values accepted but not yet in the channel. *)
Definition flight (t : watcher) : option (N * bytes * SlotValue) :=
  match wt_pc t with
  | Accepted s v | Sending s v => Some (sv_version v, s, v)
  | _ => None
  end.

Definition inflight (tasks : list watcher) : list (N * bytes * SlotValue) := filter_map flight tasks.

Lemma inflight_same tasks i t t' :
  tasks !! i = Some t → flight t = flight t' → inflight (<[i := t']> tasks) = inflight tasks.
Proof.
  intros (l1 & l2 & -> & Hi)%task_split Hf. unfold inflight.
  rewrite Hi, !filter_map_app. cbn [filter_map]. by rewrite Hf.
Qed.

Lemma inflight_add tasks i t t' x :
  tasks !! i = Some t → flight t = None → flight t' = Some x →
  inflight (<[i := t']> tasks) ≡ₚ x :: inflight tasks.
Proof.
  intros (l1 & l2 & -> & Hi)%task_split Hf Hf'. unfold inflight.
  rewrite Hi, !filter_map_app. cbn [filter_map]. rewrite Hf, Hf'. by rewrite Permutation_middle.
Qed.

Lemma inflight_remove tasks i t t' x :
  tasks !! i = Some t → flight t = Some x → flight t' = None →
  inflight tasks ≡ₚ x :: inflight (<[i := t']> tasks).
Proof.
  intros (l1 & l2 & -> & Hi)%task_split Hf Hf'. unfold inflight.
  rewrite Hi, !filter_map_app. cbn [filter_map]. rewrite Hf, Hf'. by rewrite Permutation_middle.
Qed.
End Steps.

(** ** Invariants *)

Section Invariants.
Context `{PR : Primitives} `{UL : UrlLib} {LC : LruCache bytes} {MP : Msgpack SignedInner}.
Context {S : Type} {ST : StateStore S} {T : Type}.
Notation watch := (watch (S:=S)).
Variable (c : Coordinator (T:=T)) (name : bytes).
Notation moves := (moves c name).

(** [older x y]: [y] replaces [x] as the best pair. *)
Definition older {V} (x y : N * bytes * V) : Prop := pair_ltb x.1 y.1 = true.

Lemma older_trans {V} (x y z : N * bytes * V) : older x y → older y z → older x z.
Proof. apply pair_ltb_trans. Qed.

(** The accepted pairs increase and [best] is the last one. *)
Record order_inv (a : watch) : Prop := {
  ord_sorted : StronglySorted older (wa_accepted a);
  ord_best : wa_best a = fst <$> last (wa_accepted a)
}.

(** Nothing is sent that was not accepted, nothing twice, and while the
    consumer exists nothing is lost. *)
Record flow_inv (a : watch) : Prop := {
  flow_sub : wa_sent a ++ inflight (wa_tasks a) ⊆+ wa_accepted a;
  flow_open : wa_rx_open a = true → wa_sent a ++ inflight (wa_tasks a) ≡ₚ wa_accepted a
}.

(** Everything accepted is a frame that opens on this slot. *)
Record auth_inv (a : watch) : Prop := {
  auth_accepted : Forall (λ x, ∃ kind, open_slot c name kind x.1.2 = Some x.2 ∧ x.1.1 = sv_version x.2)
                    (wa_accepted a);
  auth_opened : ∀ t s v, t ∈ wa_tasks a → wt_pc t = Opened s v → open_slot c name (wt_kind t) s = Some v
}.

(** The channel is a bounded FIFO. *)
Record channel_inv (a : watch) : Prop := {
  chan_fifo : wa_rx_open a = true → wa_taken a ++ wa_queue a = snd <$> wa_sent a;
  chan_prefix : wa_taken a `prefix_of` (snd <$> wa_sent a);
  chan_bound : length (wa_queue a) ≤ WATCH_BUFFER
}.

(** A move either leaves the four shared histories and [best] alone or is
    one of the two steps that write them. *)
Lemma moves_frame a a' :
  moves a a' →
  (wa_accepted a' = wa_accepted a ∧ wa_best a' = wa_best a)
  ∨ (∃ i kind s v, wa_tasks a !! i = Some (MkWatcher kind (Opened s v))
      ∧ match wa_best a with Some b => pair_ltb b (sv_version v, s) = true | None => True end
      ∧ wa_accepted a' = wa_accepted a ++ [(sv_version v, s, v)] ∧ wa_best a' = Some (sv_version v, s)
      ∧ wa_tasks a' = <[i := MkWatcher kind (Accepted s v)]> (wa_tasks a)
      ∧ wa_sent a' = wa_sent a ∧ wa_rx_open a' = wa_rx_open a ∧ wa_taken a' = wa_taken a
      ∧ wa_queue a' = wa_queue a ∧ wa_observed a' = wa_observed a ∧ wa_dedup a' = wa_dedup a
      ∧ wa_world a' = wa_world a).
Proof.
  destruct 1 as [i kind clock item a Hi|i kind s a Hi|i kind s v a Hi|i kind s v a Hi
    |i kind s v a a' Hi Hs|op a|r a a' Ho Hr|a]; try (left; done).
  - left. unfold task_item. by destruct item as [[[? ?]|?|]|].
  - left. unfold task_observe. by destruct (observe _ _).
  - unfold task_compare. destruct (wa_best a) as [[bv bs]|] eqn:Hb.
    + unfold slot_pair_is_newer. destruct (pair_ltb (bv, bs) (sv_version v, s)) eqn:Hn; cbn [negb].
      * right. exists i, kind, s, v. by split_and!.
      * left. by rewrite <- Hb.
    + right. exists i, kind, s, v. by split_and!.
  - left. unfold task_send in Hs. destruct (wa_rx_open a); [| by injection Hs as <-].
    destruct (_ <? _); [by injection Hs as <- | done].
  - left. unfold watch_recv in Hr. destruct (wa_queue a); [| by injection Hr as <- <-].
    destruct (forallb _ _); [by injection Hr as <- <- | done].
Qed.

Lemma StronglySorted_last_max {V} (l : list (N * bytes * V)) x y :
  StronglySorted older l → last l = Some y → x ∈ l → x = y ∨ older x y.
Proof.
  induction 1 as [|z l Hl IH Hz]; [done |]. intros Hy [->|Hx]%elem_of_cons.
  - destruct l as [|u l]; [left; cbn in Hy; congruence | right].
    rewrite last_cons in Hy. destruct (last (u :: l)) as [q|] eqn:E; [| by apply last_None in E].
    injection Hy as <-. rewrite Forall_forall in Hz. apply Hz. by apply last_Some_elem_of.
  - rewrite last_cons in Hy. destruct (last l) eqn:E; [by apply IH |].
    apply last_None in E as ->. by apply not_elem_of_nil in Hx.
Qed.

Lemma order_inv_step a a' : order_inv a → moves a a' → order_inv a'.
Proof.
  intros [H1 H2] [[Ha Hb]|(i & kind & s & v & _ & Hn & Ha & Hb & _)]%moves_frame.
  - split; by rewrite ?Ha, ?Hb.
  - split; rewrite Ha, ?Hb, ?last_snoc; [| done]. apply StronglySorted_snoc; [done |].
    apply Forall_forall. intros x Hx. rewrite H2 in Hn.
    destruct (last (wa_accepted a)) as [y|] eqn:Hy.
    + destruct (StronglySorted_last_max _ x y H1 Hy Hx) as [->|Ho]; [done |].
      by eapply older_trans.
    + apply last_None in Hy. rewrite Hy in Hx. by apply not_elem_of_nil in Hx.
Qed.

(** What happens to tasks, sent values and the receiver, per step. *)
Lemma moves_flow a a' :
  moves a a' →
  (wa_sent a' = wa_sent a ∧ inflight (wa_tasks a') = inflight (wa_tasks a)
    ∧ wa_accepted a' = wa_accepted a ∧ (wa_rx_open a' = true → wa_rx_open a = true))
  ∨ (∃ x, wa_sent a' = wa_sent a ∧ inflight (wa_tasks a') ≡ₚ x :: inflight (wa_tasks a)
      ∧ wa_accepted a' = wa_accepted a ++ [x] ∧ wa_rx_open a' = wa_rx_open a)
  ∨ (∃ x, inflight (wa_tasks a) ≡ₚ x :: inflight (wa_tasks a') ∧ wa_accepted a' = wa_accepted a
      ∧ (wa_sent a' = wa_sent a ++ [x] ∧ wa_rx_open a' = wa_rx_open a
         ∨ wa_sent a' = wa_sent a ∧ wa_rx_open a' = false)).
Proof.
  intros Hm. pose proof (moves_frame a a' Hm) as Hf.
  destruct Hf as [[Hacc _]|(i & kind & s & v & Hi & _ & Hacc & _ & Ht & Hs & Ho & _)].
  2:{ right. left. exists (sv_version v, s, v). rewrite Ht. split_and!; [done | | done | done].
      by eapply inflight_add. }
  destruct Hm as [i kind clock item a Hi|i kind s a Hi|i kind s v a Hi|i kind s v a Hi
    |i kind s v a a' Hi Hs|op a|r a a' Ho Hr|a]; try (left; done).
  - left. split_and!; try done; unfold task_item; destruct item as [[[? ?]|?|]|]; try done;
      by eapply inflight_same.
  - left. clear Hacc. unfold task_observe. destruct (observe _ _) as [dup d]. split_and!; try done.
    cbn [wa_tasks set_task]. eapply inflight_same; [done |].
    destruct dup; [done |]. by destruct (open_slot _ _ _ _).
  - left. revert Hacc. unfold task_compare. destruct (match wa_best a with Some _ => _ | None => _ end).
    + intros _. split_and!; try done. by eapply inflight_same.
    + cbn. intros Hl%(f_equal length). rewrite length_app in Hl. cbn in Hl. lia.
  - left. split_and!; try done. by eapply inflight_same.
  - right. right. exists (sv_version v, s, v). unfold task_send in Hs.
    destruct (wa_rx_open a) eqn:Ho.
    + destruct (_ <? _); [| done]. injection Hs as <-. split_and!; [| done | by left].
      by eapply inflight_remove.
    + injection Hs as <-. split_and!; [by eapply inflight_remove | done | by right].
  - left. unfold watch_recv in Hr. destruct (wa_queue a); [| by injection Hr as <- <-].
    destruct (forallb _ _); [by injection Hr as <- <- | done].
Qed.

Lemma flow_inv_step a a' : flow_inv a → moves a a' → flow_inv a'.
Proof.
  intros [H1 H2] [(Hs & Hi & Ha & Ho)|[(x & Hs & Hi & Ha & Ho)|(x & Hi & Ha & Hso)]]%moves_flow;
    split; rewrite ?Hs, ?Ha.
  - by rewrite Hi.
  - intros Hopen. rewrite Hi. auto.
  - rewrite Hi, Permutation_cons_append, app_assoc. by apply submseteq_app.
  - rewrite Ho. intros Hopen. by rewrite Hi, Permutation_cons_append, app_assoc, (H2 Hopen).
  - rewrite Hi in H1. destruct Hso as [[-> _]|[-> _]].
    + by rewrite <- app_assoc.
    + etransitivity; [| apply H1]. apply submseteq_app; [done |]. by apply submseteq_cons.
  - intros Hopen. destruct Hso as [[-> Ho]|[_ Ho]]; [| congruence].
    rewrite <- app_assoc. cbn [app]. rewrite <- Hi. apply H2. by rewrite <- Ho.
Qed.

Lemma elem_of_insert_task (tasks : list watcher) i t t' :
  t ∈ <[i := t']> tasks → t = t' ∨ t ∈ tasks.
Proof.
  intros (j & Hj)%list_elem_of_lookup. destruct (decide (i = j)) as [<-|Hne].
  - left. apply list_lookup_insert_Some in Hj. naive_solver.
  - rewrite list_lookup_insert_ne in Hj by done. right. by eapply list_elem_of_lookup_2.
Qed.

Lemma auth_inv_step a a' : auth_inv a → moves a a' → auth_inv a'.
Proof.
  intros [H1 H2] Hm. split.
  - destruct (moves_frame a a' Hm) as [[-> _]|(i & kind & s & v & Hi & _ & -> & _)]; [done |].
    apply Forall_app. split; [done |]. constructor; [| done]. exists kind. split; [| done].
    cbn. eapply (H2 (MkWatcher kind (Opened s v))); [by eapply list_elem_of_lookup_2 | done].
  - intros t s0 v0 Ht Hpc.
    destruct Hm as [i kind clock item a Hi|i kind s a Hi|i kind s v a Hi|i kind s v a Hi
      |i kind s v a a' Hi Hs|op a|r a a' Ho Hr|a]; eauto.
    + unfold task_item in Ht. destruct item as [[[? ?]|?|]|]; eauto;
        apply elem_of_insert_task in Ht as [->|Ht]; [done | eauto | done | eauto].
    + unfold task_observe in Ht. destruct (observe _ _) as [dup d].
      apply elem_of_insert_task in Ht as [->|Ht]; [| eauto].
      cbn [wt_pc wt_kind] in *. destruct dup; [done |].
      destruct (open_slot c name kind s) as [v|] eqn:E; [| done]. by injection Hpc as <- <-.
    + unfold task_compare in Ht. destruct (match wa_best a with Some _ => _ | None => _ end);
        apply elem_of_insert_task in Ht as [->|Ht]; by eauto.
    + apply elem_of_insert_task in Ht as [->|Ht]; by eauto.
    + unfold task_send in Hs. destruct (wa_rx_open a); [destruct (_ <? _); [| done] |];
        injection Hs as <-; apply elem_of_insert_task in Ht as [->|Ht]; by eauto.
    + unfold watch_recv in Hr. destruct (wa_queue a); [destruct (forallb _ _); [| done] |];
        injection Hr as <- <-; eauto.
Qed.

Lemma channel_inv_step a a' : channel_inv a → moves a a' → channel_inv a'.
Proof.
  intros [H1 H2 H3].
  destruct 1 as [i kind clock item a Hi|i kind s a Hi|i kind s v a Hi|i kind s v a Hi
    |i kind s v a a' Hi Hs|op a|r a a' Ho Hr|a].
  - unfold task_item. destruct item as [[[? ?]|?|]|]; by split.
  - unfold task_observe. destruct (observe _ _). by split.
  - unfold task_compare. destruct (match wa_best a with Some _ => _ | None => _ end); by split.
  - by split.
  - unfold task_send in Hs. destruct (wa_rx_open a) eqn:Ho.
    + destruct (Nat.ltb_spec (length (wa_queue a)) WATCH_BUFFER) as [Hl|]; [| done]. injection Hs as <-.
      split; cbn [set_task wa_taken wa_queue wa_sent wa_rx_open].
      * intros _. by rewrite fmap_app, app_assoc, H1.
      * rewrite fmap_app. by apply prefix_app_r.
      * rewrite length_app. cbn. lia.
    + injection Hs as <-. split; cbn [set_task wa_taken wa_queue wa_sent wa_rx_open]; [congruence | done ..].
  - by split.
  - unfold watch_recv in Hr. destruct (wa_queue a) as [|q qs] eqn:Hq.
    + destruct (forallb _ _); [| done]. injection Hr as <- <-. split; rewrite ?Hq; done.
    + injection Hr as <- <-. specialize (H1 Ho).
      split; cbn [wa_taken wa_queue wa_sent wa_rx_open].
      * intros _. by rewrite <- app_assoc.
      * rewrite <- H1. exists qs. by rewrite <- app_assoc.
      * cbn [length] in H3. lia.
  - split; cbn; [done | done | lia].
Qed.

(** *** Coverage: what the buffer swallowed is covered by [best] *)

Definition opens_to (s : bytes) (n : N) : Prop :=
  ∃ kind v, open_slot c name kind s = Some v ∧ sv_version v = n.

Lemma open_slot_opens_to kind s v n : open_slot c name kind s = Some v → opens_to s n → n = sv_version v.
Proof.
  intros Hv (k & v' & Hv' & <-). unfold open_slot in *.
  destruct (Coordinator_open c ChSlot name s) as [o|?|]; [| done | done].
  destruct (oe_version o); [| done]. injection Hv as <-. by injection Hv' as <-.
Qed.

Definition best_ge (a : watch) (p : N * bytes) : Prop := ∃ b, wa_best a = Some b ∧ pair_le p b.

(** The frame [s] is either being compared or no newer than the best pair. *)
Definition settled (a : watch) (s : bytes) : Prop :=
  ∀ n, opens_to s n → (∃ t v, t ∈ wa_tasks a ∧ wt_pc t = Opened s v) ∨ best_ge a (n, s).

Record cover_inv (a : watch) : Prop := {
  cov_dedup : wa_dedup a = observe_all (Dedup_new (co_dedup_buffer c)) (wa_observed a);
  cov_settled : ∀ s, s ∈ wa_observed a →
    ∃ s', s' ∈ wa_observed a ∧ digest s' = digest s ∧ settled a s'
}.

Lemma best_ge_step a a' p : moves a a' → best_ge a p → best_ge a' p.
Proof.
  intros [[_ Hb]|(i & kind & s & v & _ & Hn & _ & Hb & _)]%moves_frame (b & Hab & Hp); [exists b; by rewrite Hb |].
  exists (sv_version v, s). split; [done |]. rewrite Hab in Hn.
  eapply pair_le_trans; [done |]. by apply pair_ltb_asym.
Qed.

(** A suspended comparison stays, except when it runs. *)
Lemma opened_insert (tasks : list watcher) i k p t s v kind p' :
  tasks !! i = Some (MkWatcher k p) → t ∈ tasks → wt_pc t = Opened s v →
  (∃ t v, t ∈ <[i := MkWatcher kind p']> tasks ∧ wt_pc t = Opened s v) ∨ p = Opened s v.
Proof.
  intros Hi (j & Hj)%list_elem_of_lookup Hpc. destruct (decide (i = j)) as [<-|Hne].
  - right. rewrite Hi in Hj. injection Hj as <-. done.
  - left. exists t, v. split; [| done]. apply (list_elem_of_lookup_2 _ j).
    by rewrite list_lookup_insert_ne.
Qed.

Lemma compare_settles i kind s v a n :
  open_slot c name kind s = Some v → opens_to s n → best_ge (task_compare i kind s v a) (n, s).
Proof.
  intros Hv ->%(open_slot_opens_to _ _ _ _ Hv). unfold task_compare, best_ge, slot_pair_is_newer.
  destruct (wa_best a) as [[bv bs]|] eqn:Hb.
  - destruct (pair_ltb (bv, bs) (sv_version v, s)) eqn:Hn; cbn.
    + exists (sv_version v, s). split; [done | apply pair_le_refl].
    + exists (bv, bs). by split.
  - exists (sv_version v, s). split; [done | apply pair_le_refl].
Qed.

Lemma settled_step a a' s : auth_inv a → moves a a' → settled a s → settled a' s.
Proof.
  intros Hau Hm Hset n Hn. destruct (Hset n Hn) as [(t & v & Ht & Hpc)|Hb]; [| right; by eapply best_ge_step].
  assert (∀ i k p kind p', wa_tasks a !! i = Some (MkWatcher k p) → p ≠ Opened s v →
    wa_tasks a' = <[i := MkWatcher kind p']> (wa_tasks a) →
    (∃ t v, t ∈ wa_tasks a' ∧ wt_pc t = Opened s v) ∨ best_ge a' (n, s)) as Hins.
  { intros i k p kind p' Hi Hp ->. left. by destruct (opened_insert _ i k p t s v kind p' Hi Ht Hpc). }
  destruct Hm as [i kind clock item a Hi|i kind s0 a Hi|i kind s0 v0 a Hi|i kind s0 v0 a Hi
      |i kind s0 v0 a a' Hi Hs|op a|r a a' Ho Hr|a]; eauto.
  - unfold task_item in *. destruct item as [[[? ?]|?|]|]; eauto; (eapply (Hins i); [done | congruence | done]).
  - unfold task_observe in *. destruct (observe _ _). eapply (Hins i); [done | congruence | done].
  - destruct (decide (s0 = s)) as [->|Hne].
    + right. apply compare_settles; [| done].
      eapply (auth_opened _ Hau (MkWatcher kind (Opened s v0))); [by eapply list_elem_of_lookup_2 | done].
    + unfold task_compare in *. destruct (match wa_best a with Some _ => _ | None => _ end);
        (eapply (Hins i); [done | congruence | done]).
  - unfold task_send in Hs. destruct (wa_rx_open a); [destruct (_ <? _); [| done] |];
      injection Hs as <-; (eapply (Hins i); [done | congruence | done]).
  - unfold watch_recv in Hr. destruct (wa_queue a); [destruct (forallb _ _); [| done] |];
      injection Hr as <- <-; eauto.
Qed.

Lemma digest_seen cap history s :
  (observe (observe_all (Dedup_new cap) history) s).1 = true → ∃ s', s' ∈ history ∧ digest s' = digest s.
Proof.
  rewrite observe_new. intros Hd%bool_decide_eq_true%window_subset.
  apply list_elem_of_fmap in Hd as (s' & Heq & Hin). by exists s'.
Qed.

Lemma observe_cover i kind s a :
  auth_inv a → cover_inv a → wa_tasks a !! i = Some (MkWatcher kind (Received s)) →
  cover_inv (task_observe c name i kind s a).
Proof.
  intros Hau Hcov Hi. pose proof (mv_observe c name i kind s a Hi) as Hm.
  destruct Hcov as [Hd Hs]. unfold task_observe in *.
  assert ((observe (wa_dedup a) s).2 = observe_all (Dedup_new (co_dedup_buffer c)) (wa_observed a ++ [s])) as Hd'.
  { rewrite Hd. unfold observe_all. by rewrite foldl_app. }
  assert ((observe (wa_dedup a) s).1 = true → ∃ s', s' ∈ wa_observed a ∧ digest s' = digest s) as Hdup.
  { rewrite Hd. apply digest_seen. }
  destruct (observe (wa_dedup a) s) as [dup d]. cbn [fst snd] in *. split; [done |].
  assert (∀ s0, s0 ∈ wa_observed a → ∃ s', s' ∈ wa_observed a ++ [s] ∧ digest s' = digest s0
    ∧ settled (set_task i kind (if dup then Waiting else match open_slot c name kind s with
                                | Some value => Opened s value | None => Waiting end)
        (MkWatch (wa_tasks a) (wa_best a) d (wa_world a) (wa_queue a) (wa_rx_open a)
           (wa_observed a ++ [s]) (wa_accepted a) (wa_sent a) (wa_taken a))) s') as Hold.
  { intros s0 (s' & Hin & Heq & Hst)%Hs. exists s'. split_and!; [apply elem_of_app; by left | done |].
    by apply (settled_step a). }
  intros s0 [H0|H0]%elem_of_app; [by apply Hold |]. apply list_elem_of_singleton in H0 as ->.
  destruct dup; [destruct (Hdup eq_refl) as (s' & Hin & <-); by apply Hold |].
  exists s. split_and!; [apply elem_of_app; right; apply list_elem_of_here | done |].
  intros n (k & v & Hv & Hn). left.
  assert (∃ v', open_slot c name kind s = Some v') as [v' Hv'].
  { unfold open_slot in *. destruct (Coordinator_open _ _ _ _); [| done | done].
    destruct (oe_version _); [by eexists | done]. }
  exists (MkWatcher kind (Opened s v')), v'. split; [| done]. rewrite Hv'. cbn [wa_tasks set_task].
  apply (list_elem_of_lookup_2 _ i). apply list_lookup_insert_eq. by eapply lookup_lt_Some.
Qed.

Lemma cover_inv_step a a' : auth_inv a → cover_inv a → moves a a' → cover_inv a'.
Proof.
  intros Hau Hcov Hm.
  assert (wa_dedup a' = wa_dedup a → wa_observed a' = wa_observed a → cover_inv a') as Hkeep.
  { intros Hd Ho. destruct Hcov as [H1 H2]. split; rewrite ?Hd, Ho; [done |].
    intros s (s' & ? & ? & ?)%H2. exists s'. split_and!; [done | done |]. by eapply settled_step. }
  destruct Hm as [i kind clock item a Hi|i kind s0 a Hi|i kind s0 v0 a Hi|i kind s0 v0 a Hi
      |i kind s0 v0 a a' Hi Hs|op a|r a a' Ho Hr|a]; try (by apply Hkeep).
  - unfold task_item in *. destruct item as [[[? ?]|?|]|]; by apply Hkeep.
  - by apply observe_cover.
  - unfold task_compare in *. destruct (match wa_best a with Some _ => _ | None => _ end); by apply Hkeep.
  - unfold task_send in Hs. destruct (wa_rx_open a); [destruct (_ <? _); [| done] |];
      injection Hs as <-; by apply Hkeep.
  - unfold watch_recv in Hr. destruct (wa_queue a); [destruct (forallb _ _); [| done] |];
      injection Hr as <- <-; by apply Hkeep.
Qed.

(** *** One transport *)

Lemma moves_tasks_length a a' : moves a a' → length (wa_tasks a') = length (wa_tasks a).
Proof.
  destruct 1 as [i kind clock item a Hi|i kind s a Hi|i kind s v a Hi|i kind s v a Hi
    |i kind s v a a' Hi Hs|op a|r a a' Ho Hr|a]; try done.
  - unfold task_item. destruct item as [[[? ?]|?|]|]; try done; apply length_insert.
  - unfold task_observe. destruct (observe _ _). apply length_insert.
  - unfold task_compare. destruct (match wa_best a with Some _ => _ | None => _ end); apply length_insert.
  - apply length_insert.
  - unfold task_send in Hs. destruct (wa_rx_open a); [destruct (_ <? _); [| done] |];
      injection Hs as <-; apply length_insert.
  - unfold watch_recv in Hr. destruct (wa_queue a); [destruct (forallb _ _); [| done] |];
      by injection Hr as <- <-.
Qed.

Lemma inflight_length (tasks : list watcher) : length (inflight tasks) ≤ length tasks.
Proof.
  unfold inflight. induction tasks as [|t tasks IH]; cbn [filter_map length]; [lia |].
  destruct (flight t); cbn [length]; lia.
Qed.

Definition single_inv (a : watch) : Prop :=
  length (wa_tasks a) ≤ 1 → StronglySorted older (wa_sent a ++ inflight (wa_tasks a)).

Lemma StronglySorted_app_l {A} (R : A → A → Prop) l k : StronglySorted R (l ++ k) → StronglySorted R l.
Proof.
  induction l as [|x l IH]; [constructor |]. inversion_clear 1 as [|? ? H1 H2].
  apply Forall_app in H2 as [H2 _]. constructor; [by apply IH | done].
Qed.

(** A newly accepted pair is newer than everything accepted before. *)
Lemma accepted_snoc_newer (l : list (N * bytes * SlotValue)) x :
  StronglySorted older (l ++ [x]) → Forall (λ y, older y x) l.
Proof.
  induction l as [|y l IH]; [constructor |]. inversion_clear 1 as [|? ? H1 H2].
  apply Forall_app in H2 as [_ H2]. inversion_clear H2. constructor; [done | by apply IH].
Qed.

Lemma single_inv_step a a' :
  order_inv a → flow_inv a → single_inv a → moves a a' → single_inv a'.
Proof.
  intros Ho Hf Hs Hm Hlen. rewrite (moves_tasks_length _ _ Hm) in Hlen. specialize (Hs Hlen).
  pose proof (order_inv_step _ _ Ho Hm) as [Hsort _].
  pose proof (inflight_length (wa_tasks a)) as Hl. pose proof (inflight_length (wa_tasks a')) as Hl'.
  rewrite (moves_tasks_length _ _ Hm) in Hl'.
  destruct (moves_flow _ _ Hm) as [(-> & -> & _)|[(x & -> & Hi & Ha & _)|(x & Hi & _ & Hso)]]; [done | |].
  - pose proof (Permutation_length Hi) as Hp. cbn [length] in Hp.
    destruct (inflight (wa_tasks a)) as [|? ?] eqn:E0; [| cbn [length] in *; lia].
    apply Permutation_singleton_r in Hi. rewrite Hi. rewrite app_nil_r in Hs.
    apply StronglySorted_snoc; [done |]. rewrite Ha in Hsort. apply accepted_snoc_newer in Hsort.
    destruct Hf as [Hsub _]. rewrite E0, app_nil_r in Hsub.
    apply Forall_forall. intros y Hy. rewrite Forall_forall in Hsort. apply Hsort.
    by eapply elem_of_submseteq.
  - pose proof (Permutation_length Hi) as Hp. cbn [length] in Hp.
    destruct (inflight (wa_tasks a')) as [|? ?] eqn:E0; [| cbn [length] in *; lia].
    apply Permutation_singleton_r in Hi. rewrite Hi in Hs. rewrite app_nil_r.
    destruct Hso as [[-> _]|[-> _]]; [done | by eapply StronglySorted_app_l].
Qed.

(** *** The store knows every version that was sent *)

Record seen_inv `{!SlotVersionLaws S} (a : watch) : Prop := {
  seen_sent : Forall (λ x, (x.1.1 ≤ high_water name (w_state (wa_world a)))%N) (wa_sent a);
  seen_sending : ∀ t s v, t ∈ wa_tasks a → wt_pc t = Sending s v →
    (sv_version v ≤ high_water name (w_state (wa_world a)))%N
}.

Lemma moves_high_water `{!SlotVersionLaws S} a a' :
  moves a a' → (high_water name (w_state (wa_world a)) ≤ high_water name (w_state (wa_world a')))%N.
Proof.
  destruct 1 as [i kind clock item a Hi|i kind s a Hi|i kind s v a Hi|i kind s v a Hi
    |i kind s v a a' Hi Hs|op a|r a a' Ho Hr|a]; try reflexivity.
  - unfold task_item. destruct item as [[[? ?]|?|]|]; reflexivity.
  - unfold task_observe. destruct (observe _ _). reflexivity.
  - unfold task_compare. destruct (match wa_best a with Some _ => _ | None => _ end); reflexivity.
  - apply seen_keeps_high_water.
  - unfold task_send in Hs. destruct (wa_rx_open a); [destruct (_ <? _); [| done] |];
      injection Hs as <-; reflexivity.
  - destruct op; [apply next_keeps_high_water | apply seen_keeps_high_water].
  - unfold watch_recv in Hr. destruct (wa_queue a); [destruct (forallb _ _); [| done] |];
      injection Hr as <- <-; reflexivity.
Qed.

Lemma seen_inv_step `{!SlotVersionLaws S} a a' : seen_inv a → moves a a' → seen_inv a'.
Proof.
  intros [H1 H2] Hm. pose proof (moves_high_water _ _ Hm) as Hw.
  assert (Forall (λ x, (x.1.1 ≤ high_water name (w_state (wa_world a')))%N) (wa_sent a)) as H1'.
  { eapply Forall_impl; [exact H1 |]. cbn. lia. }
  assert (∀ t s v, t ∈ wa_tasks a → wt_pc t = Sending s v →
    (sv_version v ≤ high_water name (w_state (wa_world a')))%N) as H2'.
  { intros t s v Ht Hpc. specialize (H2 t s v Ht Hpc). lia. }
  destruct Hm as [i kind clock item a Hi|i kind s a Hi|i kind s v a Hi|i kind s v a Hi
    |i kind s v a a' Hi Hs|op a|r a a' Ho Hr|a]; try (split; done).
  - unfold task_item in *. destruct item as [[[? ?]|?|]|]; split; try done;
      intros t s v [->|Ht]%elem_of_insert_task; by eauto.
  - unfold task_observe in *. destruct (observe _ _) as [dup d]. split; [done |].
    intros t s0 v [->|Ht]%elem_of_insert_task; [| by eauto]. cbn. destruct dup; [done |].
    by destruct (open_slot _ _ _ _).
  - unfold task_compare in *. destruct (match wa_best a with Some _ => _ | None => _ end);
      (split; [done |]); intros t s0 v0 [->|Ht]%elem_of_insert_task; by eauto.
  - split; [done |]. intros t s0 v0 [->|Ht]%elem_of_insert_task; [| by eauto].
    intros [= <- <-]. cbn [task_record set_task set_world wa_world w_state].
    rewrite seen_raises_high_water. lia.
  - assert (sv_version v ≤ high_water name (w_state (wa_world a')))%N as Hv.
    { eapply (H2' (MkWatcher kind (Sending s v))); [by eapply list_elem_of_lookup_2 | done]. }
    unfold task_send in Hs. destruct (wa_rx_open a); [destruct (_ <? _); [| done] |]; injection Hs as <-;
      (split; [cbn; rewrite ?Forall_app; by repeat constructor |]);
      intros t s0 v0 [->|Ht]%elem_of_insert_task; by eauto.
  - unfold watch_recv in Hr. destruct (wa_queue a); [destruct (forallb _ _); [| done] |];
      injection Hr as <- <-; by split.
Qed.
End Invariants.

(** ** Reachable states *)

Section Claims.
Context `{PR : Primitives} `{UL : UrlLib} {LC : LruCache bytes} {MP : Msgpack SignedInner}.
Context {S : Type} {ST : StateStore S} {T : Type}.
Notation watch := (watch (S:=S)).
Variable (c : Coordinator (T:=T)) (name : bytes).

Lemma start_waiting (w : world) t : t ∈ wa_tasks (slot_watch (S:=S) c name w) → wt_pc t = Waiting.
Proof.
  intros (ep & _ & H)%elem_of_filter_map.
  destruct (transport_channel_id _ _ _ _); try done. by injection H as <-.
Qed.

(** No task is between two suspension points of one item. *)
Definition idle (tasks : list watcher) : Prop :=
  Forall (λ t, match wt_pc t with Waiting | Stopped => True | _ => False end) tasks.

Lemma idle_inflight tasks : idle tasks → inflight tasks = [].
Proof.
  unfold inflight. induction 1 as [|t l Ht Hl IH]; [done |]. cbn [filter_map].
  assert (flight t = None) as -> by (unfold flight; by destruct (wt_pc t)). exact IH.
Qed.

Lemma idle_in_hand tasks : idle tasks → filter_map in_hand tasks = [].
Proof.
  induction 1 as [|t l Ht Hl IH]; [done |]. cbn [filter_map].
  assert (in_hand t = None) as -> by (unfold in_hand; by destruct (wt_pc t)). exact IH.
Qed.

Lemma start_idle (w : world) : idle (wa_tasks (slot_watch (S:=S) c name w)).
Proof. apply Forall_forall. intros t Ht. by rewrite (start_waiting w t Ht). Qed.

Lemma start_inflight (w : world) : inflight (wa_tasks (slot_watch (S:=S) c name w)) = [].
Proof.
  apply idle_inflight, start_idle.
Qed.

Record watch_inv (a : watch) : Prop := {
  wi_order : order_inv a;
  wi_flow : flow_inv a;
  wi_auth : auth_inv c name a;
  wi_channel : channel_inv a;
  wi_cover : cover_inv c name a;
  wi_single : single_inv a
}.

Lemma reachable_inv (w : world) a : reachable c name w a → watch_inv a.
Proof.
  apply reachable_ind_moves.
  - split.
    + split; [constructor | done].
    + split; intros; by rewrite start_inflight.
    + split; [constructor |]. intros t s v Ht Hpc. apply start_waiting in Ht. congruence.
    + split; [done | done | cbn; lia].
    + split; [done |]. intros s Hs. by apply not_elem_of_nil in Hs.
    + intros _. rewrite start_inflight. constructor.
  - intros a0 a1 [] Hm. split.
    + by eapply order_inv_step.
    + by eapply flow_inv_step.
    + by eapply auth_inv_step.
    + by eapply channel_inv_step.
    + by eapply cover_inv_step.
    + by eapply single_inv_step.
Qed.

Lemma reachable_seen `{!SlotVersionLaws S} (w : world) a : reachable c name w a → seen_inv name a.
Proof.
  apply reachable_ind_moves.
  - split; [constructor |]. intros t s v Ht Hpc. apply start_waiting in Ht. congruence.
  - intros a0 a1 Ha Hm. by eapply seen_inv_step.
Qed.

Lemma older_irrefl {V} (x : N * bytes * V) : ~ older x x.
Proof. unfold older. by rewrite pair_ltb_irrefl. Qed.

Lemma sorted_NoDup {V} (l : list (N * bytes * V)) : StronglySorted older l → NoDup l.
Proof.
  induction 1 as [|x l Hl IH Hx]; constructor; [| done].
  intros Hin. rewrite Forall_forall in Hx. by apply (older_irrefl x), Hx.
Qed.

(** ** Claims *)

(** C11: whatever the schedule of the tasks, the items the transports yield,
    the other users of the store and the consumer, a watch only ever puts
    values into its channel that open on this slot, each at most once; the
    accepted pairs strictly increase; the consumer takes the channel's values
    in order, at most 64 are buffered, while the consumer exists every
    accepted value has been sent or is about to be; and the store has already
    recorded the version of every value sent, so that a put by a consumer
    that reacts to a value is newer than it. *)
Theorem slot_watch_safety `{!SlotVersionLaws S} (w : world) (a : watch) :
  reachable c name w a →
  StronglySorted older (wa_accepted a)
  ∧ NoDup (wa_sent a)
  ∧ (∀ x, x ∈ wa_sent a → x ∈ wa_accepted a
      ∧ (∃ kind, open_slot c name kind x.1.2 = Some x.2 ∧ x.1.1 = sv_version x.2)
      ∧ (x.1.1 ≤ high_water name (w_state (wa_world a)))%N)
  ∧ wa_taken a `prefix_of` (snd <$> wa_sent a)
  ∧ length (wa_queue a) ≤ WATCH_BUFFER
  ∧ (wa_rx_open a = true →
      wa_taken a ++ wa_queue a = snd <$> wa_sent a
      ∧ wa_accepted a ≡ₚ wa_sent a ++ inflight (wa_tasks a)).
Proof.
  intros Hr. destruct (reachable_seen _ _ Hr) as [Hseen _].
  destruct (reachable_inv _ _ Hr) as [[Hs _] [Hsub Hopen] [Hau _] [Hq Hp Hb] _ _].
  assert (wa_sent a ⊆+ wa_accepted a) as Hsub' by (etransitivity; [apply submseteq_inserts_r | exact Hsub]; done).
  split_and!; try done.
  - apply submseteq_Permutation in Hsub' as [k Hk]. apply sorted_NoDup in Hs.
    rewrite Hk in Hs. by apply NoDup_app in Hs as [? _].
  - intros x Hx. assert (x ∈ wa_accepted a) as Hacc by by eapply elem_of_submseteq.
    split; [done |]. rewrite Forall_forall in Hau, Hseen. split; [by apply Hau | by apply Hseen].
  - intros Ho. split; [by apply Hq | by rewrite Hopen].
Qed.

(** With a single transport the values arrive in strictly increasing
    order of their (version, sealed) pairs. *)
Lemma slot_watch_single_transport_ordered (w : world) (a : watch) :
  length (co_transports c) ≤ 1 → reachable c name w a → StronglySorted older (wa_sent a).
Proof.
  intros Hl Hr. destruct (reachable_inv _ _ Hr) as [_ _ _ _ _ Hs].
  apply (StronglySorted_app_l older _ (inflight (wa_tasks a))). apply Hs.
  clear Hs. revert a Hr. apply (reachable_ind_moves c name w (λ a, length (wa_tasks a) ≤ 1)).
  - cbn [wa_tasks slot_watch]. etransitivity; [| exact Hl].
    induction (co_transports c) as [|ep eps IH]; cbn [filter_map length]; [lia |].
    destruct (transport_channel_id _ _ _ _); cbn [length] in *; specialize (IH ltac:(lia)); lia.
  - intros a a' IH Hm. by rewrite (moves_tasks_length _ _ _ _ Hm).
Qed.

(** C19: nothing new is missed.  Take any schedule after which every task is
    waiting for its transport again, or has ended, and the consumer is still
    there.  Every frame any transport yielded in that schedule that opens on
    this slot is at most as new as a value that the consumer has taken or
    finds in its channel, namely the best pair, which is the newest value sent;
    the frames that were yielded must not collide under the digest the
    duplicate buffer uses. *)
Theorem slot_watch_delivers_newest (w : world) (evs : list event) (a : watch) (sealed : bytes)
    (kind : TransportKind) (v : SlotValue) :
  run_events c name evs (slot_watch c name w) = Some a → wa_rx_open a = true →
  idle (wa_tasks a) →
  (∀ s s', s ∈ yielded evs → s' ∈ yielded evs → digest s = digest s' → s = s') →
  sealed ∈ yielded evs → open_slot c name kind sealed = Some v →
  ∃ x, x ∈ wa_sent a ∧ x.2 ∈ wa_taken a ++ wa_queue a
    ∧ pair_le (sv_version v, sealed) x.1 ∧ wa_best a = Some x.1
    ∧ ∀ y, y ∈ wa_sent a → pair_le y.1 x.1.
Proof.
  intros Hrun Ho Hidle Hinj Hin Hv.
  assert (wa_observed a ≡ₚ yielded evs) as Hobs.
  { pose proof (run_yielded _ _ _ _ _ Hrun) as H. rewrite (idle_in_hand _ Hidle), app_nil_r in H.
    rewrite H. cbn [wa_observed slot_watch app]. rewrite (idle_in_hand _ (start_idle w)). done. }
  assert (reachable c name w a) as Hr by (eapply run_events_reachable; [apply reach_start | done]).
  destruct (reachable_inv _ _ Hr) as [[Hs Hb] [_ Hopen] _ [Hq _ _] [_ Hcov] _].
  destruct (Hcov sealed) as (s' & Hin' & Hd & Hset); [by rewrite Hobs |].
  apply Hinj in Hd as ->; [| by rewrite <- Hobs | done].
  pose proof (idle_inflight _ Hidle) as Hnone. unfold idle in Hidle. rewrite Forall_forall in Hidle.
  destruct (Hset (sv_version v)) as [(t & v' & Ht & Hpc)|(b & Hbest & Hle)]; [by exists kind, v | |].
  { specialize (Hidle t Ht). by rewrite Hpc in Hidle. }
  specialize (Hopen Ho). rewrite Hnone, app_nil_r in Hopen.
  rewrite Hb in Hbest. destruct (last (wa_accepted a)) as [x|] eqn:Hx; [| done].
  injection Hbest as <-. assert (x ∈ wa_sent a) as Hxs by (rewrite Hopen; by apply last_Some_elem_of).
  exists x. split_and!; [done | rewrite (Hq Ho); by apply list_elem_of_fmap_2 | done | done |].
  intros y Hy. rewrite Hopen in Hy. destruct (StronglySorted_last_max _ y x Hs Hx Hy) as [->|Hlt].
  - apply pair_le_refl.
  - by apply pair_ltb_asym.
Qed.

(** *** A schedule that reorders two values *)

Lemma watch_tasks `{PL : !PrimitivesLaws} (w : world) e0 e1 rest :
  name_ok name → co_transports c = e0 :: e1 :: rest →
  ∃ l, wa_tasks (slot_watch (S:=S) c name w)
       = MkWatcher (te_kind e0) Waiting :: MkWatcher (te_kind e1) Waiting :: l.
Proof.
  intros Hn Hc. cbn [wa_tasks slot_watch]. rewrite Hc.
  assert (∀ k, ∃ id, transport_channel_id (seed c) k ChSlot name = Ok id) as Hid.
  { intros k. unfold transport_channel_id. case_decide.
    - destruct (iroh_topic_id_Ok (seed c) ChSlot name Hn) as (i & ? & _). eauto.
    - destruct (channel_id_Ok (seed c) k ChSlot name Hn) as (i & ? & _). eauto. }
  cbn [filter_map]. destruct (Hid (te_kind e0)) as [i0 ->], (Hid (te_kind e1)) as [i1 ->]. eauto.
Qed.

Definition inverting_schedule (clock : N * N) (s0 s1 : bytes) : list event :=
  [EvItem 0 clock (Some (Ok (0%N, s0))); EvRun 0; EvRun 0;
   EvItem 1 clock (Some (Ok (0%N, s1))); EvRun 1; EvRun 1; EvRun 1; EvRun 1;
   EvRun 0; EvRun 0; EvRecv; EvRecv].

Lemma observe_fresh cap history s :
  digest s ∉ digest <$> history →
  observe (observe_all (Dedup_new cap) history) s
  = (false, observe_all (Dedup_new cap) (history ++ [s])).
Proof.
  intros Hf. rewrite (surjective_pairing (observe _ s)). f_equal.
  - rewrite observe_new. apply bool_decide_eq_false. by intros ?%window_subset.
  - unfold observe_all. by rewrite foldl_app.
Qed.

Lemma inverting_schedule_runs (w : world) clock e0 e1 l s0 s1 v0 v1 :
  wa_tasks (slot_watch (S:=S) c name w) = MkWatcher e0 Waiting :: MkWatcher e1 Waiting :: l →
  open_slot c name e0 s0 = Some v0 → open_slot c name e1 s1 = Some v1 →
  pair_ltb (sv_version v0, s0) (sv_version v1, s1) = true → digest s0 ≠ digest s1 →
  ∃ a, run_events c name (inverting_schedule clock s0 s1) (slot_watch c name w) = Some a
    ∧ wa_taken a = [v1; v0].
Proof.
  intros Ht H0 H1 Hlt Hd. unfold slot_watch in *. cbn [wa_tasks] in Ht. rewrite Ht. clear Ht.
  assert (∃ d1 d2, observe (Dedup_new (co_dedup_buffer c)) s0 = (false, d1) ∧ observe d1 s1 = (false, d2))
    as (d1 & d2 & Ho0 & Ho1).
  { exists (observe_all (Dedup_new (co_dedup_buffer c)) [s0]),
      (observe_all (Dedup_new (co_dedup_buffer c)) [s0; s1]).
    split; [apply (observe_fresh _ []) | apply (observe_fresh _ [s0])].
    - by intros ?%not_elem_of_nil.
    - intros ?%list_elem_of_singleton. congruence. }
  unfold inverting_schedule. cbn. unfold task_observe. cbn. rewrite Ho0. cbn. rewrite H0. cbn.
  unfold task_compare. cbn. unfold task_observe. cbn. rewrite Ho1. cbn. rewrite H1. cbn.
  unfold task_compare. cbn. unfold slot_pair_is_newer. rewrite Hlt. cbn.
  eexists. split; [reflexivity | reflexivity].
Qed.

(** One value of the first transport, up to the consumer. *)
Definition one_value (clock : N * N) (s0 : bytes) : list event :=
  [EvItem 0 clock (Some (Ok (0%N, s0))); EvRun 0; EvRun 0; EvRun 0; EvRun 0; EvRecv].

Lemma one_value_runs (w : world) clock e0 e1 s0 v0 :
  wa_tasks (slot_watch (S:=S) c name w) = [MkWatcher e0 Waiting; MkWatcher e1 Waiting] →
  open_slot c name e0 s0 = Some v0 →
  ∃ a, run_events c name (one_value clock s0) (slot_watch c name w) = Some a
    ∧ wa_tasks a = [MkWatcher e0 Waiting; MkWatcher e1 Waiting] ∧ wa_rx_open a = true
    ∧ wa_observed a = [s0] ∧ wa_sent a = [(sv_version v0, s0, v0)].
Proof.
  intros Ht H0. unfold slot_watch in *. cbn [wa_tasks] in Ht. rewrite Ht. clear Ht.
  assert (observe (Dedup_new (co_dedup_buffer c)) s0
          = (false, observe_all (Dedup_new (co_dedup_buffer c)) [s0])) as Ho.
  { apply (observe_fresh _ []). by intros ?%not_elem_of_nil. }
  unfold one_value. cbn. unfold task_observe. cbn. rewrite Ho. cbn. rewrite H0. cbn.
  unfold task_compare. cbn. eexists. split; [reflexivity |]. by split_and!.
Qed.

(** With two transports the order is not kept.  For any two values of a
    slot, an older and a newer one, yielded by different transports, some
    schedule hands the newer value to the consumer first and the older one
    after it: the comparison and the send are not one critical section. *)
Lemma slot_watch_inverts_order `{PL : !PrimitivesLaws} (w : world (S:=S)) (clock : N * N)
    (e0 e1 : TransportEndpoint) (rest : list TransportEndpoint) (s0 s1 : bytes) (v0 v1 : SlotValue) :
  name_ok name → co_transports c = e0 :: e1 :: rest →
  open_slot c name (te_kind e0) s0 = Some v0 → open_slot c name (te_kind e1) s1 = Some v1 →
  (sv_version v0 < sv_version v1)%N → digest s0 ≠ digest s1 →
  ∃ a, reachable c name w a ∧ wa_taken a = [v1; v0].
Proof.
  intros Hn Hc H0 H1 Hlt Hd. destruct (watch_tasks w e0 e1 rest Hn Hc) as [l Hl].
  destruct (inverting_schedule_runs w clock _ _ l s0 s1 v0 v1 Hl H0 H1) as (a & Ha & Htk); [| done |].
  - unfold pair_ltb. cbn [fst snd]. apply orb_true_iff. left. by apply N.ltb_lt.
  - exists a. split; [| done]. eapply run_events_reachable; [apply reach_start | exact Ha].
Qed.
End Claims.

(** ** Witnesses *)

Module SlotWatchWitness.
Import Toy ListLru CoordinatorWitness.
#[local] Existing Instance ToyUrl.toy_url.
#[local] Existing Instance inner_msgpack.
#[local] Existing Instance inner_msgpack_laws.

Definition three : SlotValue := MkSlotValue 3 (lit "old") Http (Some vk5).

(** The node after the first transport's value has been handed over. *)
Lemma after_one :
  ∃ a, run_events node (lit "a/b") (one_value (0%N, 0%N) slot3) (slot_watch node (lit "a/b") toy_world) = Some a
    ∧ reachable node (lit "a/b") toy_world a
    ∧ wa_tasks a = [MkWatcher Http Waiting; MkWatcher Iroh Waiting] ∧ wa_rx_open a = true
    ∧ wa_observed a = [slot3] ∧ wa_sent a = [(3%N, slot3, three)].
Proof.
  assert (open_slot node (lit "a/b") Http slot3 = Some three) as H3 by vm_refl.
  assert (wa_tasks (slot_watch (S:=InMemoryInner) node (lit "a/b") toy_world)
          = [MkWatcher Http Waiting; MkWatcher Iroh Waiting]) as Ht by vm_refl.
  destruct (one_value_runs node (lit "a/b") toy_world (0%N, 0%N) Http Iroh slot3 three Ht H3)
    as (a & Hrun & Ha). exists a. split; [exact Hrun |]. split; [| exact Ha].
  eapply run_events_reachable; [apply reach_start | exact Hrun].
Qed.

Lemma slot_watch_safety_witness :
  ∃ a : watch (S:=InMemoryInner), (3 ≤ high_water (lit "a/b") (w_state (wa_world a)))%N.
Proof.
  destruct after_one as (a & _ & Hr & _ & _ & _ & Hs). exists a.
  destruct (slot_watch_safety node (lit "a/b") toy_world a Hr) as (_ & _ & H & _).
  apply (H (3%N, slot3, three)). rewrite Hs. apply list_elem_of_here.
Defined.

(** The same node with its first transport only. *)
Definition solo : Coordinator (T:=unit) :=
  MkCoordinator toy_seed [MkTransportEndpoint Http tt] (Some sk5) [vk5] 4 4096.

Lemma slot_watch_delivers_newest_witness :
  ∃ (a : watch (S:=InMemoryInner)) x, x.2 ∈ wa_taken a ++ wa_queue a ∧ pair_le (3%N, slot3) x.1.
Proof.
  destruct after_one as (a & Hrun & _ & Ht & Ho & _). exists a.
  assert (open_slot node (lit "a/b") Http slot3 = Some three) as H3 by vm_refl.
  destruct (slot_watch_delivers_newest node (lit "a/b") toy_world (one_value (0%N, 0%N) slot3) a slot3 Http three Hrun Ho)
    as (x & _ & Hx & Hle & _).
  - rewrite Ht. repeat constructor.
  - intros s s' ->%list_elem_of_singleton ->%list_elem_of_singleton _. reflexivity.
  - apply list_elem_of_here.
  - exact H3.
  - exists x. split; [exact Hx | exact Hle].
Defined.

End SlotWatchWitness.
