(* ===== verification/SignedPacket.v ===== *)
(** * vendor/pkarr: signed DNS packets

    The part of the vendored pkarr the transport works with: names under the
    origin of a key, building, signing, encoding and verifying a packet, the
    lookup of records.  [Inner] keeps
    the key, the signature, the timestamp and the encoded packet as one byte
    string next to the parsed packet; here they are fields, and [as_bytes]
    lays them out.  The moment a packet was last seen is used for expiry
    only, which the transport never asks for.  The DNS codec ([simple_dns])
    and z-base-32 are third-party: class [DnsLib], whose laws are [DnsLaws]. *)

From S2P Require Import Prelude Bytes Crypto.

(** ** Text *)

(** [str::split] with a [char] pattern. *)
Fixpoint split_on (c : byte) (s : bytes) : list bytes :=
  match s with
  | [] => [[]]
  | b :: s' =>
      match split_on c s' with
      | [] => [[b]]
      | part :: parts => if decide (b = c) then [] :: part :: parts else (b :: part) :: parts
      end
  end.

(** [str::strip_suffix]. *)
Definition strip_suffix (suffix s : bytes) : option bytes :=
  let n := length s - length suffix in
  if decide (length suffix ≤ length s ∧ drop n s = suffix) then Some (take n s) else None.

Definition DOT : byte := x2e.

(** A letter or a digit. *)
Definition alnum (b : byte) : bool := in_range 48 57 b || in_range 65 90 b || in_range 97 122 b.

(** A plain domain name: dot-separated labels of 1 to 63 letters and digits,
    at most 253 bytes. *)
Definition dns_label (l : bytes) : bool := (0 <? length l) && (length l <=? 63) && forallb alnum l.
Definition dns_name (s : bytes) : bool := forallb dns_label (split_on DOT s) && (length s <=? 253).

(** ** The DNS codec *)

Class DnsLib := {
  TXT : Type;
  SVCB : Type;
  OtherRData : Type;
  (** [TXT::try_from(&str)] and [String::try_from(TXT)], with the error's text. *)
  txt_try_from : bytes → result TXT bytes;
  txt_string : TXT → result bytes bytes;
  (** [Name::try_from(&str)], as the text the name prints. *)
  name_try_from : bytes → result bytes bytes;
  (** [base32::encode(Alphabet::Z, ..)]. *)
  z32_encode : bytes → bytes
}.

(** The record types the builder knows, and the others; an address is its
    number. *)
Inductive RData `{DL : DnsLib} : Type :=
| RData_A (address : N)
| RData_AAAA (address : N)
| RData_CNAME (name : bytes)
| RData_TXT (txt : TXT)
| RData_HTTPS (svcb : SVCB)
| RData_SVCB (svcb : SVCB)
| RData_Other (other : OtherRData).
Arguments RData_A {DL} _.
Arguments RData_AAAA {DL} _.
Arguments RData_CNAME {DL} _.
Arguments RData_TXT {DL} _.
Arguments RData_HTTPS {DL} _.
Arguments RData_SVCB {DL} _.
Arguments RData_Other {DL} _.

Record ResourceRecord `{DL : DnsLib} : Type := MkResourceRecord {
  rr_name : bytes;
  rr_class : N;
  rr_ttl : N;
  rr_rdata : RData
}.
Arguments MkResourceRecord {DL} _ _ _ _.

Class DnsCodec `{DL : DnsLib} := {
  (** [build_bytes_vec_compressed] of a reply with these answers, and the
      answers [Packet::parse] finds. *)
  packet_build : list ResourceRecord → result bytes bytes;
  packet_parse : bytes → result (list ResourceRecord) bytes
}.

Class DnsLaws `{DC : DnsCodec} := {
  txt_string_from : ∀ s t, txt_try_from s = Ok t → txt_string t = Ok s;
  name_try_from_plain : ∀ s, dns_name s = true → name_try_from s = Ok s;
  z32_encode_shape : ∀ b, length b = 32 → length (z32_encode b) = 52 ∧ forallb alnum (z32_encode b) = true;
  packet_parse_build : ∀ rs b, Forall (λ r, dns_name (rr_name r) = true) rs →
    packet_build rs = Ok b → packet_parse b = Ok rs
}.

Definition CLASS_IN : N := 1.

Section SignedPacket.
Context `{PR : Primitives} `{DC : DnsCodec}.

(** ** Keys *)

Definition to_z32 (pk : VerifyingKey) : bytes := z32_encode (vk_to_bytes pk).

(** ** Names *)

Definition ends_with_dot (s : bytes) : bool := bool_decide (last s = Some DOT).

Definition normalize_name (origin name : bytes) : bytes :=
  let name := if ends_with_dot name then take (length name - 1) name else name in
  let label := default [] (last (split_on DOT name)) in
  if decide (label = origin) then name
  else if decide (label = lit "@" ∨ label = []) then origin
  else name ++ DOT :: origin.

(** ** Packets *)

Record SignedPacket : Type := MkSignedPacket {
  sp_public_key : VerifyingKey;
  sp_signature : bytes;
  sp_timestamp : N;
  sp_encoded : bytes;
  sp_answers : list ResourceRecord
}.

Inductive SignedPacketBuildError : Type :=
| SignedPacketBuildError_PacketTooLarge (n : nat)
| SignedPacketBuildError_FailedToWrite (text : bytes).

Inductive SignedPacketVerifyError : Type :=
| SignedPacketVerifyError_SignatureError
| SignedPacketVerifyError_DnsError (text : bytes)
| SignedPacketVerifyError_InvalidSignedPacketBytesLength (n : nat)
| SignedPacketVerifyError_PacketTooLarge (n : nat)
| SignedPacketVerifyError_PublicKeyError.

Definition MAX_BYTES : nat := 1104.
Definition MAX_ENCODED : nat := 1000.

Definition signable (timestamp : N) (v : bytes) : bytes :=
  lit "3:seqi" ++ u64_to_string timestamp ++ lit "e1:v" ++ u64_to_string (N.of_nat (length v)) ++ lit ":" ++ v.

(** [Inner::try_from_parts]. *)
Definition try_from_parts (pk : VerifyingKey) (signature : bytes) (timestamp : N) (encoded : bytes)
    : result SignedPacket bytes :=
  let! answers := packet_parse encoded in Ok (MkSignedPacket pk signature timestamp encoded answers).

Definition normalize_record (origin : bytes) (r : ResourceRecord) : ResourceRecord :=
  MkResourceRecord (normalize_name origin (rr_name r)) (rr_class r) (rr_ttl r) (rr_rdata r).

Definition SignedPacket_new (keypair : SigningKey) (answers : list ResourceRecord) (timestamp : N)
    : result SignedPacket SignedPacketBuildError :=
  let origin := to_z32 (verifying_key keypair) in
  let! encoded := map_err SignedPacketBuildError_FailedToWrite
                    (packet_build (normalize_record origin <$> answers)) in
  let! _ := guard_err (MAX_ENCODED <? length encoded)
              (SignedPacketBuildError_PacketTooLarge (length encoded)) in
  let signature := ed_sign keypair (signable timestamp encoded) in
  expect (ok (try_from_parts (verifying_key keypair) signature timestamp encoded)).

(** [SignedPacketBuilder], with the moment [sign] reads from the clock. *)
Definition SignedPacketBuilder_default : list ResourceRecord := [].
Definition builder_record (b : list ResourceRecord) (r : ResourceRecord) : list ResourceRecord := b ++ [r].
Definition builder_rdata (b : list ResourceRecord) (name : bytes) (rdata : RData) (ttl : N) : list ResourceRecord :=
  builder_record b (MkResourceRecord name CLASS_IN ttl rdata).
Definition builder_cname (b : list ResourceRecord) (name cname : bytes) (ttl : N) : list ResourceRecord :=
  builder_rdata b name (RData_CNAME cname) ttl.
Definition builder_txt (b : list ResourceRecord) (name : bytes) (txt : TXT) (ttl : N) : list ResourceRecord :=
  builder_rdata b name (RData_TXT txt) ttl.
Definition builder_https (b : list ResourceRecord) (name : bytes) (svcb : SVCB) (ttl : N) : list ResourceRecord :=
  builder_rdata b name (RData_HTTPS svcb) ttl.
Definition builder_svcb (b : list ResourceRecord) (name : bytes) (svcb : SVCB) (ttl : N) : list ResourceRecord :=
  builder_rdata b name (RData_SVCB svcb) ttl.
Definition builder_sign (b : list ResourceRecord) (keypair : SigningKey) (now : N)
    : result SignedPacket SignedPacketBuildError := SignedPacket_new keypair b now.

(** [sign] after [timestamp]. *)
Definition builder_sign_at (b : list ResourceRecord) (timestamp : N) (keypair : SigningKey)
    : result SignedPacket SignedPacketBuildError := SignedPacket_new keypair b timestamp.

(** ** Bytes *)

Definition as_bytes (p : SignedPacket) : bytes :=
  vk_to_bytes (sp_public_key p) ++ sp_signature p ++ to_be_bytes 8 (sp_timestamp p) ++ sp_encoded p.

Definition from_bytes (b : bytes) : result SignedPacket SignedPacketVerifyError :=
  let! _ := guard_err (length b <? 104)
              (SignedPacketVerifyError_InvalidSignedPacketBytesLength (length b)) in
  let! _ := guard_err (MAX_BYTES <? length b) (SignedPacketVerifyError_PacketTooLarge (length b)) in
  let! pk := ok_or (vk_from_bytes (take 32 b)) SignedPacketVerifyError_PublicKeyError in
  let signature := take 64 (drop 32 b) in
  let timestamp := from_be_bytes (take 8 (drop 96 b)) in
  let encoded := drop 104 b in
  let! _ := guard_err (negb (ed_verify pk (signable timestamp encoded) signature))
              SignedPacketVerifyError_SignatureError in
  map_err SignedPacketVerifyError_DnsError (try_from_parts pk signature timestamp encoded).

Definition to_relay_payload (p : SignedPacket) : bytes := drop 32 (as_bytes p).

Definition from_relay_payload (pk : VerifyingKey) (payload : bytes)
    : result SignedPacket SignedPacketVerifyError := from_bytes (vk_to_bytes pk ++ payload).

(** [serialize] of a packet last seen at [last_seen]. *)
Definition serialize (last_seen : N) (p : SignedPacket) : bytes := to_be_bytes 8 last_seen ++ as_bytes p.

(** ** Lookup and order *)

(** The smallest lifetime, clamped; [u32::clamp] panics when the bounds are
    swapped. *)
Definition ttl {E} (p : SignedPacket) (min max : N) : result N E :=
  match rr_ttl <$> sp_answers p with
  | [] => Ok min
  | t :: ts =>
      let smallest := foldr N.min t ts in
      if (min <=? max)%N then Ok (N.max min (N.min smallest max)) else Panic
  end.

Definition resource_records (p : SignedPacket) (name : bytes) : list ResourceRecord :=
  let normalized := normalize_name (to_z32 (sp_public_key p)) name in
  let is_wildcard := bool_decide (head normalized = Some x2a) in
  List.filter (λ r,
    if is_wildcard then
      match strip_suffix (drop 1 normalized) (rr_name r) with
      | Some m => bool_decide (DOT ∉ m)
      | None => false
      end
    else bool_decide (rr_name r = normalized)) (sp_answers p).

(** ** Publishing *)

Inductive QueryError : Type :=
| QueryError_Timeout
| QueryError_NoClosestNodes
| QueryError_DhtErrorResponse (code : Z) (description : bytes)
| QueryError_BadRequest.

Inductive ConcurrencyError : Type :=
| ConcurrencyError_ConflictRisk
| ConcurrencyError_NotMostRecent
| ConcurrencyError_CasFailed.

Inductive PublishError : Type :=
| PublishError_Query (e : QueryError)
| PublishError_Concurrency (e : ConcurrencyError)
| PublishError_UnexpectedResponses.

Definition i32_to_string (z : Z) : bytes :=
  (if decide (z < 0)%Z then lit "-" else []) ++ u64_to_string (Z.abs_N z).

Definition PublishError_display (e : PublishError) : bytes :=
  match e with
  | PublishError_Query QueryError_Timeout =>
      lit "Publish query timed out with no responses neither success or errors."
  | PublishError_Query QueryError_NoClosestNodes => lit "Publishing SignedPacket to Mainline failed."
  | PublishError_Query (QueryError_DhtErrorResponse code description) =>
      lit "Publishing SignedPacket to Mainline failed code: " ++ i32_to_string code
        ++ lit ", description: " ++ description ++ lit "."
  | PublishError_Query QueryError_BadRequest => lit "Most relays responded with bad request"
  | PublishError_Concurrency ConcurrencyError_ConflictRisk =>
      lit "A different SignedPacket is being concurrently published for the same PublicKey."
  | PublishError_Concurrency ConcurrencyError_NotMostRecent =>
      lit "Found a more recent SignedPacket in the client's cache"
  | PublishError_Concurrency ConcurrencyError_CasFailed =>
      lit "Compare and swap failed; there is a more recent SignedPacket than the one seen before publishing"
  | PublishError_UnexpectedResponses =>
      lit "All relays responded with unexpected responses, check debug logs."
  end.

End SignedPacket.

(** ** Lemmas *)

Lemma split_on_none c s : c ∉ s → split_on c s = [s].
Proof.
  induction s as [|b s IH]; [done |]. intros Hn. apply not_elem_of_cons in Hn as [Hb Hs].
  cbn [split_on]. rewrite (IH Hs). by rewrite decide_False by congruence.
Qed.

Lemma split_on_app c a s : c ∉ a → split_on c (a ++ c :: s) = a :: split_on c s.
Proof.
  induction a as [|b a IH]; intros Hn.
  - cbn [app split_on]. destruct (split_on c s) as [|p ps] eqn:E.
    + destruct s as [|b s]; [done |]. cbn [split_on] in E.
      destruct (split_on c s); [done |]. by destruct (decide _).
    + by rewrite decide_True by done.
  - apply not_elem_of_cons in Hn as [Hb Hs]. cbn [app split_on]. rewrite (IH Hs).
    by rewrite decide_False by congruence.
Qed.

Lemma alnum_dot : alnum DOT = false.
Proof. reflexivity. Qed.

Lemma alnum_not_dot s : forallb alnum s = true → DOT ∉ s.
Proof.
  intros Hs Hd. rewrite forallb_forall in Hs. apply list_elem_of_In, Hs in Hd. by rewrite alnum_dot in Hd.
Qed.

Section Lemmas.
Context `{PR : Primitives} `{PL : !PrimitivesLaws} `{DC : DnsCodec} `{DW : !DnsLaws}.

Lemma to_z32_shape pk : length (to_z32 pk) = 52 ∧ forallb alnum (to_z32 pk) = true.
Proof. apply z32_encode_shape, vk_to_bytes_length. Qed.

(** A label below the origin of a key, and the name it gets. *)
Definition plain_label (l : bytes) : Prop := 0 < length l ∧ length l < 52 ∧ forallb alnum l = true.

Lemma plain_dns_name pk l : plain_label l → dns_name (l ++ DOT :: to_z32 pk) = true.
Proof.
  intros (Hp & Hlt & Ha). destruct (to_z32_shape pk) as [Hz Hza]. unfold dns_name.
  rewrite split_on_app by by apply alnum_not_dot. rewrite split_on_none by by apply alnum_not_dot.
  cbn [forallb]. unfold dns_label. rewrite Ha, Hza, Hz, length_app. cbn [length]. rewrite Hz.
  rewrite !andb_true_iff, !Nat.ltb_lt, !Nat.leb_le. split_and!; lia || done.
Qed.

Lemma last_alnum l : forallb alnum l = true → last l ≠ Some DOT.
Proof.
  intros Ha (k & ->)%last_Some. rewrite forallb_app in Ha. cbn [forallb] in Ha. rewrite alnum_dot, andb_false_r in Ha. done.
Qed.

Lemma normalize_label pk l : plain_label l → normalize_name (to_z32 pk) l = l ++ DOT :: to_z32 pk.
Proof.
  intros (Hp & Hlt & Ha). destruct (to_z32_shape pk) as [Hz Hza]. unfold normalize_name, ends_with_dot.
  rewrite bool_decide_eq_false_2 by by apply last_alnum.
  rewrite split_on_none by by apply alnum_not_dot. cbn [last from_option id].
  rewrite decide_False by (intros ->; lia). rewrite decide_False; [done |].
  intros [-> | ->]; [done | cbn in Hp; lia].
Qed.

Lemma normalize_full pk l :
  plain_label l → normalize_name (to_z32 pk) (l ++ DOT :: to_z32 pk) = l ++ DOT :: to_z32 pk.
Proof.
  intros (Hp & Hlt & Ha). destruct (to_z32_shape pk) as [Hz Hza]. unfold normalize_name, ends_with_dot.
  assert (last (l ++ DOT :: to_z32 pk) ≠ Some DOT) as Hl.
  { rewrite last_app, last_cons. destruct (last (to_z32 pk)) eqn:E.
    - rewrite <- E. by apply last_alnum.
    - apply last_None in E. by rewrite E in Hz. }
  rewrite bool_decide_eq_false_2 by done.
  rewrite split_on_app by by apply alnum_not_dot. rewrite split_on_none by by apply alnum_not_dot.
  cbn [last from_option id]. by rewrite decide_True.
Qed.

(** Every answer is named by a plain label under the origin of [pk]. *)
Definition plain_answers (pk : VerifyingKey) (rs : list ResourceRecord) : Prop :=
  Forall (λ r, ∃ l, plain_label l ∧ rr_name r = l ++ DOT :: to_z32 pk) rs.

Lemma normalize_plain pk rs : plain_answers pk rs → normalize_record (to_z32 pk) <$> rs = rs.
Proof.
  intros Hr. induction Hr as [|r rs (l & Hl & Hn) _ IH]; [done |]. rewrite fmap_cons, IH. f_equal.
  destruct r as [name c t d]. cbn in Hn. subst name. unfold normalize_record. cbn [rr_name rr_class rr_ttl rr_rdata].
  by rewrite normalize_full.
Qed.

Lemma plain_dns_names pk rs : plain_answers pk rs → Forall (λ r, dns_name (rr_name r) = true) rs.
Proof. intros Hr. eapply Forall_impl; [exact Hr |]. intros r (l & Hl & ->). by apply plain_dns_name. Qed.

(** What a packet signed over plain answers and one new label consists of. *)
Lemma SignedPacket_new_Ok kp rs l c t d now p :
  plain_answers (verifying_key kp) rs → plain_label l →
  SignedPacket_new kp (rs ++ [MkResourceRecord l c t d]) now = Ok p →
  sp_public_key p = verifying_key kp ∧ sp_timestamp p = now
  ∧ sp_answers p = rs ++ [MkResourceRecord (l ++ DOT :: to_z32 (verifying_key kp)) c t d]
  ∧ plain_answers (verifying_key kp) (sp_answers p)
  ∧ packet_parse (sp_encoded p) = Ok (sp_answers p) ∧ length (sp_encoded p) ≤ MAX_ENCODED
  ∧ sp_signature p = ed_sign kp (signable now (sp_encoded p)).
Proof.
  intros Hrs Hl. unfold SignedPacket_new. rewrite fmap_app, (normalize_plain _ _ Hrs). cbn [fmap list_fmap].
  unfold normalize_record. cbn [rr_name rr_class rr_ttl rr_rdata]. rewrite (normalize_label _ _ Hl).
  set (out := rs ++ _). assert (plain_answers (verifying_key kp) out) as Hp.
  { apply Forall_app. split; [done |]. apply Forall_singleton. by exists l. }
  intros (enc & He%map_err_Ok & Hx)%rbind_Ok. apply rbind_Ok in Hx as ([] & Hg & Hx).
  unfold guard_err in Hg. destruct (Nat.ltb_spec MAX_ENCODED (length enc)); [done |].
  pose proof (packet_parse_build _ _ (plain_dns_names _ _ Hp) He) as Hparse.
  unfold try_from_parts in Hx. rewrite Hparse in Hx. cbn [rbind ok expect] in Hx.
  injection Hx as <-. by split_and!.
Qed.

(** The bytes a relay hands out verify and parse back to the packet. *)
Lemma from_relay_payload_round kp p :
  sp_public_key p = verifying_key kp → (sp_timestamp p ≤ u64_max)%N →
  packet_parse (sp_encoded p) = Ok (sp_answers p) → length (sp_encoded p) ≤ MAX_ENCODED →
  sp_signature p = ed_sign kp (signable (sp_timestamp p) (sp_encoded p)) →
  from_relay_payload (verifying_key kp) (to_relay_payload p) = Ok p.
Proof.
  intros Hpk Hts Hparse Hlen Hsig. unfold from_relay_payload, to_relay_payload, as_bytes. rewrite Hpk.
  rewrite drop_app_length' by (symmetry; apply vk_to_bytes_length).
  pose proof (vk_to_bytes_length (verifying_key kp)) as L1.
  assert (length (sp_signature p) = 64) as L2 by (rewrite Hsig; apply ed_sign_length).
  pose proof (length_to_be_bytes 8 (sp_timestamp p)) as L3.
  set (b := vk_to_bytes _ ++ _ ++ _ ++ _).
  assert (length b = 104 + length (sp_encoded p)) as Lb
    by (unfold b; rewrite !length_app, L1, L2, L3; lia).
  assert (take 32 b = vk_to_bytes (verifying_key kp)) as T1 by (unfold b; by rewrite take_app_length').
  assert (drop 32 b = sp_signature p ++ to_be_bytes 8 (sp_timestamp p) ++ sp_encoded p) as D1
    by (unfold b; by rewrite drop_app_length').
  assert (drop 96 b = to_be_bytes 8 (sp_timestamp p) ++ sp_encoded p) as D2.
  { replace 96 with (32 + 64) by lia. rewrite <- drop_drop, D1. by rewrite drop_app_length'. }
  assert (drop 104 b = sp_encoded p) as D3.
  { replace 104 with (96 + 8) by lia. rewrite <- drop_drop, D2. by rewrite drop_app_length'. }
  unfold from_bytes. rewrite T1, D1, D2, D3, Lb, vk_from_to_bytes. unfold guard_err.
  rewrite (proj2 (Nat.ltb_ge _ _)) by lia. cbn [rbind].
  rewrite (proj2 (Nat.ltb_ge _ _)) by (unfold MAX_BYTES, MAX_ENCODED in *; lia). cbn [rbind ok_or].
  rewrite !take_app_length' by done. rewrite from_to_be_bytes by by apply u64_bound.
  rewrite Hsig at 1. rewrite ed_verify_sign. cbn [negb rbind]. unfold try_from_parts. rewrite Hparse. cbn.
  rewrite <- Hpk. by destruct p.
Qed.

Lemma resource_records_label p l :
  plain_label l →
  resource_records p l
  = List.filter (λ r, bool_decide (rr_name r = l ++ DOT :: to_z32 (sp_public_key p))) (sp_answers p).
Proof.
  intros Hl. unfold resource_records. rewrite (normalize_label _ _ Hl).
  rewrite bool_decide_eq_false_2; [done |].
  destruct Hl as (Hp & _ & Ha). destruct l as [|b l]; [cbn in Hp; lia |]. cbn. intros [= ->].
  cbn [forallb] in Ha. by apply andb_true_iff in Ha as [? _].
Qed.
End Lemmas.
