(* ===== verification/Pkarr.v ===== *)
(** * transports/pkarr.rs: slots as signed DNS records

    A slot is a TXT record of the signed packet of a key: the key of the
    namespace for a 16-byte channel id, a key of its own for a 32-byte
    address.  Writing is read, modify, compare-and-swap: resolve the packet,
    replace the record, drop other records from the end until the packet
    fits, publish with the timestamp of the packet that was read, and try
    again, four times in all.  The client's network (relays, the DHT) is the
    environment; the base64 engine and reqwest's URL conversion are the
    classes [Base64] and [PkarrLib].

    A put is split where it waits for the network: [put_prepare] runs from
    the answer of a resolve to the publish, [put_answer] from the answer of
    the publish to the next resolve, and [pkarr_put] composes them.  What a
    resolve finds and what a publish is answered are arbitrary: nothing is
    taken for granted of the relays and the DHT, which may hold different
    packets and accept or refuse a publish for any reason. *)

From S2P Require Import Prelude Bytes Crypto Kdf Net Guard Errors Config PeerCard SignedPacket.

Definition DEFAULT_RECORD_TTL : N := 300.
Definition MAX_PUBLISH_ATTEMPTS : nat := 4.
Definition RECORD_PREFIX : bytes := lit "enlace-slot-v1".
Definition PKARR_WATCH_BUFFER : nat := 64.
(** pkarr's own timeout, used when the configured one is zero. *)
Definition DEFAULT_REQUEST_TIMEOUT : N := from_secs 2.

Definition COLON : byte := x3a.

(** [str::split_once] with a [char] pattern. *)
Fixpoint split_once (c : byte) (s : bytes) : option (bytes * bytes) :=
  match s with
  | [] => None
  | b :: s' =>
      if decide (b = c) then Some ([], s')
      else match split_once c s' with
           | Some (l, r) => Some (b :: l, r)
           | None => None
           end
  end.

(** [str::splitn] with a [char] pattern. *)
Fixpoint splitn (n : nat) (c : byte) (s : bytes) : list bytes :=
  match n with
  | O => []
  | S O => [s]
  | S n' =>
      match split_once c s with
      | Some (l, r) => l :: splitn n' c r
      | None => [s]
      end
  end.

(** The text of the [ParseIntError] of [u64::from_str_radix], for an input
    it rejects. *)
Fixpoint radix_error (radix max acc : N) (s : bytes) : bytes :=
  match s with
  | [] => lit "number too large to fit in target type"
  | b :: s' =>
      match to_digit radix b with
      | None => lit "invalid digit found in string"
      | Some d =>
          if (acc * radix + d <=? max)%N then radix_error radix max (acc * radix + d) s'
          else lit "number too large to fit in target type"
      end
  end.

Definition parse_int_error (radix max : N) (s : bytes) : bytes :=
  match s with
  | [] => lit "cannot parse integer from empty string"
  | [_] => lit "invalid digit found in string"
  | b :: s' => radix_error radix max 0 (if decide (b = x2b) then s' else s)
  end.

Class PkarrLib `{UL : UrlLib} := {
  (** The text of the error of decoding a text that is not base64. *)
  b64_error_text : bytes → bytes;
  (** [reqwest::IntoUrl], with the error's text. *)
  into_url : bytes → result Url bytes
}.

Section Pkarr.
Context `{PR : Primitives} `{DC : DnsCodec} `{UL : UrlLib} `{PK : !PkarrLib} {B64 : Base64}.

Definition map_other_error (text : bytes) : TransportError := TransportError_Other text.

(** ** Construction *)

(** pkarr's [ClientBuilder] and the part of the client it settles. *)
Record ClientBuilder : Type := MkClientBuilder {
  cb_relays : option (list Url);
  (** [None]: no DHT; [Some None]: mainline's own bootstrap nodes. *)
  cb_dht : option (option (list SocketAddr));
  cb_cache_size : nat;
  cb_request_timeout : N
}.

Definition relay_url (text : bytes) : result Url TransportError :=
  let! u := map_err (λ e, map_other_error (lit "Failed to parse into a Url: " ++ e)) (into_url text) in
  if decide (url_scheme u ≠ lit "http" ∧ url_scheme u ≠ lit "https")
  then Err (map_other_error (lit "Relays Urls should have `http` or `https`: " ++ url_as_str u))
  else Ok u.

Definition apply_relays (b : ClientBuilder) (config : PkarrConfig) : result ClientBuilder TransportError :=
  let! urls := map_result relay_url (effective_resolvers config) in
  Ok (MkClientBuilder (Some urls) (cb_dht b) (cb_cache_size b) (cb_request_timeout b)).

(** [dht_feature]: a native build with the feature pkarr-dht. *)
Definition apply_dht (dht_feature : bool) (b : ClientBuilder) (config : PkarrConfig)
    : result ClientBuilder TransportError :=
  if dht_feature then
    let bootstrap := effective_bootstrap config in
    Ok (MkClientBuilder (cb_relays b) (Some (match bootstrap with [] => None | _ => Some bootstrap end))
          (cb_cache_size b) (cb_request_timeout b))
  else Err (TransportError_Network
              (lit "pkarr DHT mode requires the 'pkarr-dht' feature on a non-wasm target")).

(** [ClientBuilder::build]; [start_dht] is the outcome of starting a DHT node. *)
Definition client_build (start_dht : option (list SocketAddr) → result unit bytes) (b : ClientBuilder)
    : result ClientBuilder TransportError :=
  let! _ := match cb_dht b with
            | Some nodes =>
                map_err (λ e, map_other_error (lit "Failed to build the Dht client " ++ e)) (start_dht nodes)
            | None => Ok tt
            end in
  match cb_relays b, cb_dht b with
  | Some [], _ => Err (map_other_error (lit "Passed an empty list of relays"))
  | None, None => Err (map_other_error (lit "Client configured without Mainline node or relays."))
  | _, _ => Ok b
  end.

Record PkarrTransport : Type := MkPkarrTransport {
  pt_client : ClientBuilder;
  pt_keypair : SigningKey;
  pt_public_key : VerifyingKey;
  pt_record_ttl : N;
  pt_poll_interval : N
}.

Definition record_ttl (interval : N) : N :=
  match u32_try_from (interval / NANOS_PER_SEC)%N with
  | Some 0%N => DEFAULT_RECORD_TTL
  | Some ttl => ttl
  | None => u32_max
  end.

Definition poll_interval (interval : N) : N :=
  if (interval =? 0)%N then from_secs DEFAULT_RECORD_TTL else interval.

Definition pkarr_keypair {E} (seed : bytes) : result SigningKey E :=
  let! key := derive_key32 seed (lit "enlace/v1/key/pkarr-id") in Ok (sk_from_bytes key).

Definition PkarrTransport_new (dht_feature : bool) (start_dht : option (list SocketAddr) → result unit bytes)
    (seed : bytes) (config : PkarrConfig) : result PkarrTransport TransportError :=
  let builder := MkClientBuilder None None 0 DEFAULT_REQUEST_TIMEOUT in
  let! builder :=
    match pk_network config with
    | PkarrNetworkMode_Relays => apply_relays builder config
    | PkarrNetworkMode_Dht => apply_dht dht_feature builder config
    | PkarrNetworkMode_Both =>
        let! builder := apply_relays builder config in apply_dht dht_feature builder config
    end in
  let builder :=
    if (request_timeout config =? 0)%N then builder
    else MkClientBuilder (cb_relays builder) (cb_dht builder) (cb_cache_size builder) (request_timeout config) in
  let! client := client_build start_dht builder in
  let! keypair := pkarr_keypair seed in
  Ok (MkPkarrTransport client keypair (verifying_key keypair) (record_ttl (republish_interval config))
        (poll_interval (republish_interval config))).

(** ** Mailboxes *)

Definition pkarr_send (id sealed : bytes) : result unit TransportError := Err TransportError_Unsupported.
Definition pkarr_recv (id : bytes) (wait : N) : result (option bytes) TransportError :=
  Err TransportError_Unsupported.

(** ** Records *)

Definition record_name (id : bytes) : bytes := hex_bytes id.

Definition normalized_record_name (pk : VerifyingKey) (name : bytes) : bytes := name ++ DOT :: to_z32 pk.

(** [{version:016x}] is the hexadecimal text of the eight bytes. *)
Definition encode_slot_record (version : N) (sealed : bytes) : bytes :=
  RECORD_PREFIX ++ COLON :: hex_bytes (to_be_bytes 8 version) ++ COLON :: b64_encode sealed.

Definition decode_slot_record (txt : TXT) : result (N * bytes) TransportError :=
  let! encoded := map_err map_other_error (txt_string txt) in
  match splitn 3 COLON encoded with
  | prefix :: version :: sealed :: _ =>
      if decide (prefix = RECORD_PREFIX) then
        let! version := ok_or (from_str_radix 16 u64_max version)
                          (map_other_error (parse_int_error 16 u64_max version)) in
        let! sealed := ok_or (b64_decode sealed) (map_other_error (b64_error_text sealed)) in
        Ok (version, sealed)
      else Err (TransportError_Network (lit "malformed pkarr slot record"))
  | _ => Err (TransportError_Network (lit "malformed pkarr slot record"))
  end.

Definition rdata_txt (r : ResourceRecord) : option TXT :=
  match rr_rdata r with RData_TXT txt => Some txt | _ => None end.

Definition slot_record (packet : SignedPacket) (id : bytes) : result (option (N * bytes)) TransportError :=
  match head (filter_map rdata_txt (resource_records packet (record_name id))) with
  | Some txt => rmap Some (decode_slot_record txt)
  | None => Ok None
  end.

(** ** Slot ids *)

Record PkarrSlotId : Type := MkPkarrSlotId {
  psi_keypair : SigningKey;
  psi_public_key : VerifyingKey;
  psi_record : bytes
}.

Definition pkarr_slot_id (t : PkarrTransport) (id : bytes) : result PkarrSlotId TransportError :=
  if decide (length id = 16) then Ok (MkPkarrSlotId (pt_keypair t) (pt_public_key t) id)
  else if decide (length id = 32) then
    let! keypair := pkarr_keypair id in
    Ok (MkPkarrSlotId keypair (verifying_key keypair) (replicate 16 x00))
  else Err (TransportError_Network (lit "pkarr channel id must be 16 or 32 bytes")).

(** ** Packets *)

Definition map_build_error (err : SignedPacketBuildError) : TransportError :=
  match err with
  | SignedPacketBuildError_PacketTooLarge _ => TransportError_BodyTooLarge
  | SignedPacketBuildError_FailedToWrite text => map_other_error text
  end.

(** [now] is the timestamp [sign] takes. *)
Definition sign_packet (now : N) (keypair : SigningKey) (preserved : list ResourceRecord) (name value : bytes)
    (ttl : N) : result SignedPacket TransportError :=
  let builder := foldl builder_record SignedPacketBuilder_default preserved in
  let! name := map_err map_other_error (name_try_from name) in
  let! txt := map_err map_other_error (txt_try_from value) in
  map_err map_build_error (builder_sign (builder_txt builder name txt ttl) keypair now).

(** The loop of [build_packet]; signing number [k] happens at [clock k].  It
    runs once more than there are records to drop. *)
Fixpoint build_loop (fuel k : nat) (clock : nat → N) (keypair : SigningKey) (preserved : list ResourceRecord)
    (name value : bytes) (ttl : N) : result SignedPacket TransportError :=
  match sign_packet (clock k) keypair preserved name value ttl with
  | Ok packet => Ok packet
  | Err TransportError_BodyTooLarge =>
      match preserved, fuel with
      | _ :: _, S fuel =>
          build_loop fuel (S k) clock keypair (take (length preserved - 1) preserved) name value ttl
      | _, _ => Err TransportError_BodyTooLarge
      end
  | Err err => Err err
  | Panic => Panic
  end.

Definition preserved_records (pk : VerifyingKey) (current : option SignedPacket) (id : bytes)
    : list ResourceRecord :=
  match current with
  | Some p => List.filter (λ r, negb (bool_decide (rr_name r = normalized_record_name pk (record_name id))))
                (sp_answers p)
  | None => []
  end.

Definition build_packet (clock : nat → N) (keypair : SigningKey) (pk : VerifyingKey)
    (current : option SignedPacket) (id : bytes) (version : N) (sealed : bytes) (ttl : N)
    : result SignedPacket TransportError :=
  let preserved := preserved_records pk current id in
  build_loop (length preserved) 0 clock keypair preserved (record_name id) (encode_slot_record version sealed) ttl.

(** ** Publishing *)

Definition map_publish_error (err : PublishError) : TransportError :=
  match err with
  | PublishError_Concurrency _ => TransportError_Stale
  | PublishError_Query QueryError_Timeout => TransportError_Timeout
  | err => map_other_error (PublishError_display err)
  end.

Definition is_transient_publish_error (err : PublishError) : bool :=
  match err with
  | PublishError_Concurrency _ => true
  | PublishError_Query QueryError_NoClosestNodes | PublishError_Query QueryError_BadRequest => true
  | _ => false
  end.

(** From the answer of [resolve_packet_for] to [client.publish]: the packet
    and the timestamp to compare with. *)
Definition put_prepare (t : PkarrTransport) (id : PkarrSlotId) (version : N) (sealed : bytes) (clock : nat → N)
    (current : option SignedPacket) : result (SignedPacket * option N) TransportError :=
  let! stored := match current with Some packet => slot_record packet (psi_record id) | None => Ok None end in
  let! _ := guard_err (match stored with Some (current_version, _) => (version <=? current_version)%N | None => false end)
              TransportError_Stale in
  let! packet := build_packet clock (psi_keypair id) (psi_public_key id) current (psi_record id) version sealed
                   (pt_record_ttl t) in
  Ok (packet, sp_timestamp <$> current).

(** From the answer of the publish of attempt [attempt] to the end of the
    loop's body: the result, or the error kept for the end. *)
Definition put_answer (answer : result unit PublishError) : result unit TransportError + TransportError :=
  match answer with
  | Ok _ => inl (Ok tt)
  | Err err => if is_transient_publish_error err then inr (map_publish_error err) else inl (Err (map_publish_error err))
  | Panic => inl Panic
  end.

(** What one put meets: attempt [k] resolves [pe_resolve k], signs at the
    moments [pe_clock k] and is answered [pe_publish k]. *)
Record put_env : Type := MkPutEnv {
  pe_resolve : nat → option SignedPacket;
  pe_clock : nat → nat → N;
  pe_publish : nat → SignedPacket → option N → result unit PublishError
}.

(** The result and the packets published, in order. *)
Fixpoint put_loop (rest k : nat) (env : put_env) (t : PkarrTransport) (id : PkarrSlotId) (version : N)
    (sealed : bytes) (last_err : option TransportError)
    : result unit TransportError * list (SignedPacket * option N) :=
  match rest with
  | O => (Err (default TransportError_Stale last_err), [])
  | S rest =>
      match put_prepare t id version sealed (pe_clock env k) (pe_resolve env k) with
      | Ok (packet, cas) =>
          match put_answer (pe_publish env k packet cas) with
          | inl r => (r, [(packet, cas)])
          | inr err =>
              let '(r, sent) := put_loop rest (S k) env t id version sealed (Some err) in
              (r, (packet, cas) :: sent)
          end
      | Err err => (Err err, [])
      | Panic => (Panic, [])
      end
  end.

Definition pkarr_put (env : put_env) (t : PkarrTransport) (id : bytes) (version : N) (sealed : bytes)
    : result unit TransportError * list (SignedPacket * option N) :=
  match pkarr_slot_id t id with
  | Ok id => put_loop MAX_PUBLISH_ATTEMPTS 0 env t id version sealed None
  | Err err => (Err err, [])
  | Panic => (Panic, [])
  end.

(** ** Reading *)

Definition pkarr_slot_get_since (resolve : VerifyingKey → option SignedPacket) (id : PkarrSlotId) (since : N)
    : result (option (N * bytes)) TransportError :=
  match resolve (psi_public_key id) with
  | None => Ok None
  | Some packet =>
      let! stored := slot_record packet (psi_record id) in
      match stored with
      | None => Ok None
      | Some (version, sealed) => if (version <=? since)%N then Ok None else Ok (Some (version, sealed))
      end
  end.

Definition pkarr_get (resolve : VerifyingKey → option SignedPacket) (t : PkarrTransport) (id : bytes)
    : result (option (N * bytes)) TransportError :=
  let! id := pkarr_slot_id t id in pkarr_slot_get_since resolve id 0.

(** The task of [watch]: poll [n] resolves with [net n]; [alive n] says
    whether the consumer still exists when the item of poll [n] is sent. *)
Fixpoint pkarr_watch_loop (fuel n : nat) (net : nat → VerifyingKey → option SignedPacket) (alive : nat → bool)
    (id : PkarrSlotId) (since : N) : list (result (N * bytes) TransportError) :=
  match fuel with
  | O => []
  | S fuel =>
      match pkarr_slot_get_since (net n) id since with
      | Ok (Some (version, value)) =>
          if alive n then Ok (version, value) :: pkarr_watch_loop fuel (S n) net alive id version else []
      | Ok None => pkarr_watch_loop fuel (S n) net alive id since
      | Err err => if alive n then Err err :: pkarr_watch_loop fuel (S n) net alive id since else []
      | Panic => []
      end
  end.

Definition pkarr_watch (fuel : nat) (net : nat → VerifyingKey → option SignedPacket) (alive : nat → bool)
    (t : PkarrTransport) (id : bytes) (since : N) : list (result (N * bytes) TransportError) :=
  match pkarr_slot_id t id with
  | Ok id => pkarr_watch_loop fuel 0 net alive id since
  | Err _ => [Err (TransportError_Network (lit "pkarr channel id must be 16 or 32 bytes"))]
  | Panic => []
  end.

End Pkarr.

(** ** Lemmas: records *)

Lemma split_once_app c a s : c ∉ a → split_once c (a ++ c :: s) = Some (a, s).
Proof.
  induction a as [|b a IH]; intros Hn; cbn [app split_once].
  - by rewrite decide_True.
  - apply not_elem_of_cons in Hn as [Hb Ha]. rewrite decide_False by congruence. by rewrite IH.
Qed.

Lemma hex_digit_alnum n : (n < 16)%N → alnum (hex_digit n) = true.
Proof.
  intros Hn. unfold alnum, in_range. rewrite to_N_hex_digit by done.
  destruct (N.ltb_spec n 10); rewrite !orb_true_iff, !andb_true_iff, !N.leb_le; lia.
Qed.

Lemma hex_bytes_alnum l : forallb alnum (hex_bytes l) = true.
Proof.
  induction l as [|b l IH]; [done |]. unfold hex_bytes. cbn [map concat hex_byte app forallb].
  destruct (nibbles_lt b). fold (hex_bytes l). by rewrite !hex_digit_alnum, IH.
Qed.

Lemma hex_bytes_no_colon l : COLON ∉ hex_bytes l.
Proof.
  intros Hin. pose proof (hex_bytes_alnum l) as Ha. rewrite forallb_forall in Ha.
  apply list_elem_of_In, Ha in Hin. done.
Qed.

Lemma prefix_no_colon : COLON ∉ RECORD_PREFIX.
Proof. refine (bool_decide_unpack _ _). vm_compute. exact I. Qed.

Section Records.
Context `{PR : Primitives} `{PL : !PrimitivesLaws} `{DC : DnsCodec} `{DW : !DnsLaws}.
Context `{UL : UrlLib} `{PK : !PkarrLib} {B64 : Base64}.

Lemma record_name_plain id : length id = 16 → plain_label (record_name id).
Proof.
  intros Hl. unfold plain_label, record_name. rewrite length_hex_bytes, Hl.
  split_and!; [lia | lia | apply hex_bytes_alnum].
Qed.

Lemma normalized_record_name_inj pk id id' :
  normalized_record_name pk (record_name id) = normalized_record_name pk (record_name id') → id = id'.
Proof.
  unfold normalized_record_name, record_name. intros H.
  apply app_inj_length_r in H as [H _]; [by apply hex_bytes_inj | done].
Qed.

(** Reading back a record gives the version and the value. *)
Lemma decode_encode_slot_record v sealed txt :
  (v ≤ u64_max)%N → txt_try_from (encode_slot_record v sealed) = Ok txt →
  decode_slot_record txt = Ok (v, sealed).
Proof.
  intros Hv Ht. unfold decode_slot_record. rewrite (txt_string_from _ _ Ht). cbn [map_err rbind].
  unfold encode_slot_record. cbn [splitn]. rewrite split_once_app by apply prefix_no_colon.
  rewrite split_once_app by apply hex_bytes_no_colon.
  rewrite decide_True by done. rewrite (from_str_radix_hex _ Hv). cbn [ok_or rbind].
  by rewrite b64_decode_encode.
Qed.

(** The first TXT record under the name of [id]. *)
Definition txt_at (pk : VerifyingKey) (id : bytes) (rs : list ResourceRecord) : option TXT :=
  head (filter_map rdata_txt
          (List.filter (λ r, bool_decide (rr_name r = normalized_record_name pk (record_name id))) rs)).

Definition slot_of_txt (o : option TXT) : result (option (N * bytes)) TransportError :=
  match o with Some txt => rmap Some (decode_slot_record txt) | None => Ok None end.

Lemma slot_record_txt p id :
  length id = 16 → slot_record p id = slot_of_txt (txt_at (sp_public_key p) id (sp_answers p)).
Proof. intros Hl. unfold slot_record. by rewrite (resource_records_label _ _ (record_name_plain _ Hl)). Qed.

Lemma txt_at_app pk id rs rs' :
  txt_at pk id (rs ++ rs') = match txt_at pk id rs with Some t => Some t | None => txt_at pk id rs' end.
Proof.
  unfold txt_at. rewrite List.filter_app, filter_map_app.
  by destruct (filter_map rdata_txt (List.filter _ rs)).
Qed.

Lemma txt_at_absent pk id rs :
  Forall (λ r, rr_name r ≠ normalized_record_name pk (record_name id)) rs → txt_at pk id rs = None.
Proof.
  intros Hr. unfold txt_at. induction Hr as [|r rs Hn _ IH]; [done |]. cbn [List.filter].
  by rewrite bool_decide_eq_false_2.
Qed.

(** A part of the records from the front shows a slot as the whole does, or
    not at all. *)
Lemma txt_at_take pk id n rs : txt_at pk id (take n rs) = txt_at pk id rs ∨ txt_at pk id (take n rs) = None.
Proof.
  rewrite <- (take_drop n rs) at 2. rewrite txt_at_app. destruct (txt_at pk id (take n rs)); [by left | by right].
Qed.

Lemma txt_at_preserved pk id id' q :
  id' ≠ id → txt_at pk id' (preserved_records pk (Some q) id) = txt_at pk id' (sp_answers q).
Proof.
  intros Hne. unfold txt_at, preserved_records. do 2 f_equal. induction (sp_answers q) as [|r rs IH]; [done |].
  cbn [List.filter]. destruct (bool_decide_reflect (rr_name r = normalized_record_name pk (record_name id))) as [E|E];
    cbn [negb List.filter]; rewrite IH; [| done].
  rewrite bool_decide_eq_false_2; [done |]. rewrite E. intros H. by apply normalized_record_name_inj in H.
Qed.

Lemma preserved_absent pk id o : txt_at pk id (preserved_records pk o id) = None.
Proof.
  destruct o as [q|]; [| done]. apply txt_at_absent, List.Forall_forall. intros r [_ Hr]%List.filter_In.
  by apply negb_true_iff, bool_decide_eq_false in Hr.
Qed.

Lemma preserved_plain pk id q : plain_answers pk (sp_answers q) → plain_answers pk (preserved_records pk (Some q) id).
Proof.
  intros Hp. unfold plain_answers, preserved_records. apply List.Forall_forall.
  intros r [Hr _]%List.filter_In. by eapply List.Forall_forall in Hp.
Qed.

(** ** Lemmas: building a packet *)

Lemma foldl_builder rs b : foldl builder_record b rs = b ++ rs.
Proof.
  revert b. induction rs as [|r rs IH]; intros b; [by rewrite app_nil_r |]. cbn [foldl]. rewrite IH.
  unfold builder_record. by rewrite <- app_assoc.
Qed.

(** A packet this transport signed for [kp]. *)
Record own_packet (kp : SigningKey) (p : SignedPacket) : Prop := {
  op_key : sp_public_key p = verifying_key kp;
  op_plain : plain_answers (verifying_key kp) (sp_answers p);
  op_parse : packet_parse (sp_encoded p) = Ok (sp_answers p);
  op_fits : length (sp_encoded p) ≤ MAX_ENCODED;
  op_signed : sp_signature p = ed_sign kp (signable (sp_timestamp p) (sp_encoded p))
}.

Lemma sign_packet_Ok now kp rs id value ttl p :
  plain_answers (verifying_key kp) rs → length id = 16 →
  sign_packet now kp rs (record_name id) value ttl = Ok p →
  own_packet kp p ∧ sp_timestamp p = now
  ∧ ∃ txt, txt_try_from value = Ok txt
    ∧ sp_answers p = rs ++ [MkResourceRecord (normalized_record_name (verifying_key kp) (record_name id)) CLASS_IN ttl
                              (RData_TXT txt)].
Proof.
  intros Hrs Hl. unfold sign_packet. pose proof (record_name_plain _ Hl) as Hn.
  assert (dns_name (record_name id) = true) as Hd.
  { unfold dns_name. destruct Hn as (Hp & Hlt & Ha). rewrite split_on_none by by apply alnum_not_dot.
    cbn [forallb]. unfold dns_label. rewrite Ha.
    rewrite !andb_true_iff, !Nat.ltb_lt, !Nat.leb_le. split_and!; lia || done. }
  rewrite (name_try_from_plain _ Hd). cbn [map_err rbind].
  intros (txt & Ht%map_err_Ok & Hs%map_err_Ok)%rbind_Ok.
  unfold builder_sign, builder_txt in Hs. rewrite foldl_builder in Hs. unfold builder_record in Hs. cbn [app] in Hs.
  destruct (SignedPacket_new_Ok _ _ _ _ _ _ _ _ Hrs Hn Hs) as (H1 & H2 & H3 & H4 & H5 & H6 & H7).
  split; [split; try done; by rewrite H2 |]. split; [done |]. by exists txt.
Qed.

(** The loop keeps the longest front part of the records that fits. *)
Lemma build_loop_spec fuel k clock kp rs name value ttl :
  length rs ≤ fuel →
  let outcome n := sign_packet (clock (k + (length rs - n))) kp (take n rs) name value ttl in
  ∃ n, n ≤ length rs
    ∧ build_loop fuel k clock kp rs name value ttl = outcome n
    ∧ (∀ m, n < m ≤ length rs → outcome m = Err TransportError_BodyTooLarge)
    ∧ (outcome n = Err TransportError_BodyTooLarge → n = 0).
Proof.
  revert k rs. induction fuel as [|fuel IH]; intros k rs Hf; cbn zeta.
  - destruct rs as [|x rs]; [| cbn in Hf; lia]. exists 0. cbn [build_loop length take Nat.sub]. rewrite Nat.add_0_r.
    split_and!; [lia | | lia | done].
    by destruct (sign_packet (clock k) kp [] name value ttl) as [p|[]|].
  - assert ((sign_packet (clock k) kp rs name value ttl = Err TransportError_BodyTooLarge ∧ rs ≠ [])
            ∨ ¬ (sign_packet (clock k) kp rs name value ttl = Err TransportError_BodyTooLarge ∧ rs ≠ []))
      as [[HB Hne]|Hno]
      by (destruct (sign_packet _ _ _ _ _ _) as [p|[]|], rs; naive_solver).
    + destruct (IH (S k) (take (length rs - 1) rs)) as (n & Hn & Heq & Hm & H0).
      { rewrite length_take. lia. }
      assert (0 < length rs) by (destruct rs; [done | cbn; lia]).
      rewrite length_take in *. assert (∀ m, m ≤ length rs - 1 →
        sign_packet (clock (S k + ((length rs - 1) `min` length rs - m))) kp (take m (take (length rs - 1) rs)) name value ttl
        = sign_packet (clock (k + (length rs - m))) kp (take m rs) name value ttl) as Hshift.
      { intros m Hm'. rewrite take_take. f_equal; [f_equal; lia | f_equal; lia]. }
      exists n. split; [lia |]. split; [| split].
      * cbn [build_loop]. rewrite HB. destruct rs as [|x rs]; [done |]. rewrite Heq. apply Hshift. lia.
      * intros m Hm'. destruct (decide (m = length rs)) as [->|]; [| rewrite <- Hshift by lia; apply Hm; lia].
        rewrite Nat.sub_diag, Nat.add_0_r, firstn_all. done.
      * rewrite <- Hshift by lia. exact H0.
    + exists (length rs). rewrite Nat.sub_diag, Nat.add_0_r, firstn_all. split_and!; [done | | lia |].
      * cbn [build_loop]. destruct (sign_packet (clock k) kp rs name value ttl) as [p|[]|]; try done.
        destruct rs; [done | naive_solver].
      * intros HB. destruct rs; [done | naive_solver].
Qed.

(** ** Lemmas: one attempt *)

Record slot_id_wf (id : PkarrSlotId) : Prop := {
  siw_key : psi_public_key id = verifying_key (psi_keypair id);
  siw_record : length (psi_record id) = 16
}.

Definition transport_wf (t : PkarrTransport) : Prop := pt_public_key t = verifying_key (pt_keypair t).

Lemma PkarrTransport_new_wf dht_feature start_dht seed config t :
  PkarrTransport_new dht_feature start_dht seed config = Ok t → transport_wf t.
Proof. intros (b & _ & (c & _ & (kp & _ & [= <-])%rbind_Ok)%rbind_Ok)%rbind_Ok. done. Qed.

Lemma pkarr_slot_id_wf t id s : transport_wf t → pkarr_slot_id t id = Ok s → slot_id_wf s.
Proof.
  intros Ht. unfold pkarr_slot_id. destruct (decide (length id = 16)); [by intros [= <-] |].
  destruct (decide (length id = 32)); [| done].
  intros (kp & _ & [= <-])%rbind_Ok. by split.
Qed.

(** What a put reads when it sees the packet [cur]. *)
Definition slot_in (cur : option SignedPacket) (id : bytes) : result (option (N * bytes)) TransportError :=
  match cur with Some q => slot_record q id | None => Ok None end.

Definition own_opt (kp : SigningKey) (cur : option SignedPacket) : Prop :=
  match cur with Some q => own_packet kp q | None => True end.

(** The packet of [cur] with one slot replaced: the slot holds the new pair,
    which is newer than the one before, and every other slot is as it was or
    gone. *)
Definition replaces (cur : option SignedPacket) (p : SignedPacket) (id : bytes) (v : N) (sealed : bytes) : Prop :=
  slot_record p id = Ok (Some (v, sealed))
  ∧ (∀ w b, slot_in cur id = Ok (Some (w, b)) → (w < v)%N)
  ∧ (∀ id', length id' = 16 → id' ≠ id → slot_record p id' = slot_in cur id' ∨ slot_record p id' = Ok None).

Lemma preserved_own kp cur id : own_opt kp cur → plain_answers (verifying_key kp) (preserved_records (verifying_key kp) cur id).
Proof. destruct cur as [q|]; [intros [] | constructor]. by apply preserved_plain. Qed.

Lemma build_packet_Ok clock kp cur id v sealed ttl p :
  length id = 16 → (v ≤ u64_max)%N → own_opt kp cur →
  build_packet clock kp (verifying_key kp) cur id v sealed ttl = Ok p →
  own_packet kp p ∧ (∃ k, sp_timestamp p = clock k)
  ∧ slot_record p id = Ok (Some (v, sealed))
  ∧ (∀ id', length id' = 16 → id' ≠ id → slot_record p id' = slot_in cur id' ∨ slot_record p id' = Ok None).
Proof.
  intros Hl Hv Hcur. unfold build_packet.
  set (rs := preserved_records (verifying_key kp) cur id).
  destruct (build_loop_spec (length rs) 0 clock kp rs (record_name id) (encode_slot_record v sealed) ttl (le_n _))
    as (n & _ & -> & _). intros Hs.
  assert (plain_answers (verifying_key kp) (take n rs)) as Hrs by by apply Forall_take, preserved_own.
  destruct (sign_packet_Ok _ _ _ _ _ _ _ Hrs Hl Hs) as (Hown & Hts & txt & Htxt & Hans).
  pose proof (op_key _ _ Hown) as Hpk.
  split; [done |]. split; [by eexists |]. split.
  - rewrite (slot_record_txt _ _ Hl), Hpk, Hans, txt_at_app.
    assert (txt_at (verifying_key kp) id (take n rs) = None) as ->.
    { destruct (txt_at_take (verifying_key kp) id n rs) as [->| ->]; [apply preserved_absent | done]. }
    unfold txt_at. cbn [List.filter rr_name]. rewrite bool_decide_eq_true_2 by done. cbn.
    by rewrite (decode_encode_slot_record _ _ _ Hv Htxt).
  - intros id' Hl' Hne. rewrite (slot_record_txt _ _ Hl'), Hpk, Hans, txt_at_app.
    assert (txt_at (verifying_key kp) id' [MkResourceRecord (normalized_record_name (verifying_key kp) (record_name id))
              CLASS_IN ttl (RData_TXT txt)] = None) as ->.
    { apply txt_at_absent, Forall_singleton. cbn [rr_name]. intros H. by apply normalized_record_name_inj in H. }
    destruct (txt_at_take (verifying_key kp) id' n rs) as [->| ->]; [| by right]. left.
    destruct cur as [q|]; cbn [slot_in]; [| done]. unfold rs. rewrite txt_at_preserved by done.
    rewrite (slot_record_txt _ _ Hl'), (op_key _ _ Hcur). by destruct (txt_at _ _ _).
Qed.

Lemma put_prepare_Ok t id v sealed clock cur p cas :
  slot_id_wf id → (v ≤ u64_max)%N → own_opt (psi_keypair id) cur →
  put_prepare t id v sealed clock cur = Ok (p, cas) →
  own_packet (psi_keypair id) p ∧ cas = sp_timestamp <$> cur ∧ (∃ k, sp_timestamp p = clock k)
  ∧ replaces cur p (psi_record id) v sealed.
Proof.
  intros [Hk Hl] Hv Hcur. unfold put_prepare. intros (stored & Hst & Hx)%rbind_Ok.
  apply rbind_Ok in Hx as ([] & Hg & Hx). apply rbind_Ok in Hx as (p' & Hp & [= -> <-]).
  rewrite Hk in Hp. destruct (build_packet_Ok _ _ _ _ _ _ _ _ Hl Hv Hcur Hp) as (H1 & H2 & H3 & H4).
  split_and!; try done. split_and!; try done. intros w b Hw. unfold slot_in in Hw. rewrite Hst in Hw.
  injection Hw as ->. unfold guard_err in Hg. by destruct (N.leb_spec v w).
Qed.

Lemma own_packet_payload kp p :
  own_packet kp p → (sp_timestamp p ≤ u64_max)%N →
  from_relay_payload (verifying_key kp) (to_relay_payload p) = Ok p.
Proof. intros [] Ht. by apply from_relay_payload_round. Qed.

(** ** Lemmas: the loop of put *)

(** The facts about every publish of a put. *)
Lemma put_loop_sent rest k env t id v sealed last_err r sent :
  put_loop rest k env t id v sealed last_err = (r, sent) →
  length sent ≤ rest
  ∧ (∀ i p cas, sent !! i = Some (p, cas) →
       put_prepare t id v sealed (pe_clock env (k + i)) (pe_resolve env (k + i)) = Ok (p, cas)
       ∧ (S i < length sent → ∃ e, pe_publish env (k + i) p cas = Err e ∧ is_transient_publish_error e = true))
  ∧ (r = Ok tt → ∃ i p cas, S i = length sent ∧ sent !! i = Some (p, cas) ∧ pe_publish env (k + i) p cas = Ok tt).
Proof.
  revert k last_err r sent. induction rest as [|rest IH]; intros k last_err r sent; cbn [put_loop].
  - intros [= <- <-]. split; [done |]. split; [| done]. intros i p cas Hi. by rewrite lookup_nil in Hi.
  - destruct (put_prepare t id v sealed (pe_clock env k) (pe_resolve env k)) as [[p cas]|e|] eqn:Hp.
    2,3: intros [= <- <-]; split; [cbn; lia |]; split; [intros i ? ? Hi; by rewrite lookup_nil in Hi | done].
    unfold put_answer. destruct (pe_publish env k p cas) as [[]|e|] eqn:Hpub.
    + intros [= <- <-]. split; [cbn; lia |]. split.
      * intros [|i] p' cas' Hi; [| done]. injection Hi as <- <-. rewrite Nat.add_0_r. split; [done | cbn; lia].
      * intros _. exists 0, p, cas. by rewrite Nat.add_0_r.
    + destruct (is_transient_publish_error e) eqn:Ht.
      * destruct (put_loop rest (S k) env t id v sealed (Some (map_publish_error e))) as [r' sent'] eqn:Hl.
        intros [= <- <-]. destruct (IH _ _ _ _ Hl) as (H1 & H2 & H3). cbn [length]. split; [lia |]. split.
        -- intros [|i] p' cas' Hi; cbn in Hi.
           ++ injection Hi as <- <-. rewrite Nat.add_0_r. split; [done |]. intros _. by exists e.
           ++ rewrite <- Nat.add_succ_comm. destruct (H2 _ _ _ Hi) as [Ha Hb]. split; [done |]. intros Hlt. apply Hb. lia.
        -- intros Hr. destruct (H3 Hr) as (i & p' & cas' & Hi & Hs & Hok). exists (S i), p', cas'.
           rewrite <- Nat.add_succ_comm. cbn. split_and!; [lia | done | done].
      * intros [= <- <-]. split; [cbn; lia |]. split; [| done].
        intros [|i] p' cas' Hi; [| done]. injection Hi as <- <-. rewrite Nat.add_0_r. split; [done | cbn; lia].
    + intros [= <- <-]. split; [cbn; lia |]. split; [| done].
      intros [|i] p' cas' Hi; [| done]. injection Hi as <- <-. rewrite Nat.add_0_r. split; [done | cbn; lia].
Qed.

(** How a put ends: after a publish that was accepted, on a packet it cannot
    replace, or on a publish that failed for good or for the last time. *)
Lemma put_loop_result rest k env t id v sealed last_err r sent :
  put_loop rest k env t id v sealed last_err = (r, sent) →
  let n := length sent in
  let prepare i := put_prepare t id v sealed (pe_clock env i) (pe_resolve env i) in
  let answered x := ∃ p cas, last sent = Some (p, cas) ∧ pe_publish env (k + (n - 1)) p cas = x in
  match r with
  | Ok _ => answered (Ok tt)
  | Err e =>
      n < rest ∧ prepare (k + n) = Err e
        ∧ (sent ≠ [] → ∃ err, answered (Err err) ∧ is_transient_publish_error err = true)
      ∨ (∃ err, answered (Err err) ∧ e = map_publish_error err ∧ (is_transient_publish_error err = false ∨ n = rest))
      ∨ rest = 0 ∧ sent = [] ∧ e = default TransportError_Stale last_err
  | Panic => n < rest ∧ prepare (k + n) = Panic ∨ answered Panic
  end.
Proof.
  cbv zeta. revert k last_err r sent. induction rest as [|rest IH]; intros k last_err r sent; cbn [put_loop].
  { intros [= <- <-]. right. by right. }
  destruct (put_prepare t id v sealed (pe_clock env k) (pe_resolve env k)) as [[p cas]|e|] eqn:Hp.
  2,3: intros [= <- <-]; cbn [length]; rewrite Nat.add_0_r; left; split_and!; (done || lia).
  unfold put_answer. destruct (pe_publish env k p cas) as [[]|e|] eqn:Hpub.
  - intros [= <- <-]. exists p, cas. cbn. by rewrite Nat.add_0_r.
  - destruct (is_transient_publish_error e) eqn:Ht.
    + destruct (put_loop rest (S k) env t id v sealed (Some (map_publish_error e))) as [r' sent'] eqn:Hl.
      intros [= <- <-]. specialize (IH _ _ _ _ Hl). cbn [length].
      assert (∀ x, (∃ p' cas', last sent' = Some (p', cas') ∧ pe_publish env (S k + (length sent' - 1)) p' cas' = x) →
        ∃ p' cas', last ((p, cas) :: sent') = Some (p', cas') ∧ pe_publish env (k + (S (length sent') - 1)) p' cas' = x)
        as Hlift.
      { intros x (p' & cas' & Hlast & Hx). exists p', cas'. destruct sent' as [|y l]; [done |].
        split; [done |]. rewrite <- Hx. f_equal. cbn [length]. lia. }
      assert (sent' = [] → ∃ p' cas', last ((p, cas) :: sent') = Some (p', cas')
        ∧ pe_publish env (k + (S (length sent') - 1)) p' cas' = Err e) as Hhere.
      { intros ->. exists p, cas. cbn. by rewrite Nat.add_0_r. }
      replace (S k + length sent') with (k + S (length sent')) in IH by lia.
      destruct r' as [u|e'|]; [by apply Hlift | |].
      * destruct IH as [(Hn & Hpr & Hs)|[(err & Ha & Hm & Hor)|(-> & -> & ->)]].
        -- left. split_and!; [lia | done |]. intros _. destruct sent' as [|y l]; [exists e; split; [by apply Hhere | done] |].
           destruct Hs as (err & Ha & Htr); [done |]. exists err. split; [by apply Hlift | done].
        -- right. left. exists err. split_and!; [by apply Hlift | done |]. destruct Hor as [?| ->]; [by left | by right].
        -- right. left. exists e. split_and!; [by apply Hhere | done | by right].
      * destruct IH as [[Hn Hpr]|Ha]; [left; split; [lia | done] | right; by apply Hlift].
    + intros [= <- <-]. right. left. exists e. split_and!; [| done | by left]. exists p, cas. cbn. by rewrite Nat.add_0_r.
  - intros [= <- <-]. right. exists p, cas. cbn. by rewrite Nat.add_0_r.
Qed.

(** Why the packet [cur] cannot be replaced: the slot does not decode, holds
    this version or a newer one, or no packet can be built. *)
Definition irreplaceable (t : PkarrTransport) (id : PkarrSlotId) (v : N) (sealed : bytes) (clock : nat → N)
    (cur : option SignedPacket) (e : TransportError) : Prop :=
  match slot_in cur (psi_record id) with
  | Ok stored =>
      if match stored with Some (w, _) => (v <=? w)%N | None => false end then e = TransportError_Stale
      else build_packet clock (psi_keypair id) (psi_public_key id) cur (psi_record id) v sealed (pt_record_ttl t) = Err e
  | Err e' => e = e'
  | Panic => False
  end.

Lemma put_prepare_Err t id v sealed clock cur e :
  put_prepare t id v sealed clock cur = Err e ↔ irreplaceable t id v sealed clock cur e.
Proof.
  unfold put_prepare, irreplaceable, slot_in.
  destruct (match cur with Some _ => _ | None => _ end) as [stored|e'|]; cbn [rbind]; [| split; congruence | done].
  destruct (match stored with Some _ => _ | None => _ end); cbn [guard_err rbind]; [split; congruence |].
  destruct (build_packet _ _ _ _ _ _ _ _); cbn [rbind]; split; congruence.
Qed.

(** A watch yields strictly increasing versions above the one it started
    from, whatever packets the polls resolve to. *)
Lemma pkarr_watch_increasing (net : nat → VerifyingKey → option SignedPacket) (alive : nat → bool)
    (t : PkarrTransport) (id : bytes) (since : N) (fuel : nat) :
  StronglySorted N.lt (since :: item_versions (pkarr_watch fuel net alive t id since)).
Proof.
  assert (∀ n, StronglySorted N.lt [n]) as Hone by by repeat constructor.
  unfold pkarr_watch. destruct (pkarr_slot_id t id) as [s|e|]; [| apply Hone..].
  generalize 0. revert since. induction fuel as [|fuel IH]; intros since n; cbn [pkarr_watch_loop]; [apply Hone |].
  destruct (pkarr_slot_get_since (net n) s since) as [[[v b]|]|e|] eqn:E; [| by apply IH | | apply Hone].
  - destruct (alive n); [| apply Hone]. assert (since < v)%N as Hlt.
    { unfold pkarr_slot_get_since in E. destruct (net n (psi_public_key s)); [| done].
      apply rbind_Ok in E as (st & _ & E). destruct st as [[w c]|]; [| done].
      destruct (N.leb_spec w since); [done |]. by injection E as <- _. }
    cbn [item_versions filter_map]. specialize (IH v (S n)). constructor; [done |].
    apply StronglySorted_inv in IH as [_ Hf]. constructor; [done |]. eapply Forall_impl; [exact Hf |]. cbn. lia.
  - destruct (alive n); [| apply Hone]. cbn [item_versions filter_map]. by apply IH.
Qed.

(** The networks a transport uses are those of the configured mode, and its
    records live for between one second and [u32::MAX] seconds. *)
Lemma PkarrTransport_new_Ok dht_feature start_dht seed config t :
  PkarrTransport_new dht_feature start_dht seed config = Ok t →
  match pk_network config with
  | PkarrNetworkMode_Relays => cb_dht (pt_client t) = None ∧ is_Some (cb_relays (pt_client t))
  | PkarrNetworkMode_Dht => cb_relays (pt_client t) = None ∧ is_Some (cb_dht (pt_client t)) ∧ dht_feature = true
  | PkarrNetworkMode_Both =>
      is_Some (cb_relays (pt_client t)) ∧ is_Some (cb_dht (pt_client t)) ∧ dht_feature = true
  end
  ∧ (1 ≤ pt_record_ttl t ≤ u32_max)%N ∧ (0 < pt_poll_interval t)%N ∧ transport_wf t.
Proof.
  intros H. pose proof (PkarrTransport_new_wf _ _ _ _ _ H) as Hwf. revert H.
  intros (b & Hb & (c & Hc & (kp & _ & [= <-])%rbind_Ok)%rbind_Ok)%rbind_Ok. cbn [pt_client pt_record_ttl pt_poll_interval] in *.
  assert (cb_relays c = cb_relays b ∧ cb_dht c = cb_dht b) as [-> ->].
  { unfold client_build in Hc. apply rbind_Ok in Hc as (? & _ & Hc).
    destruct (request_timeout config =? 0)%N; cbn [cb_relays cb_dht] in Hc;
      destruct (cb_relays b) as [[|]|] eqn:E1, (cb_dht b) eqn:E2; try done; injection Hc as <-; by rewrite ?E1, ?E2. }
  split_and!; [| | | | exact Hwf].
  - destruct (pk_network config).
    + by apply rbind_Ok in Hb as (urls & _ & [= <-]).
    + unfold apply_dht in Hb. destruct dht_feature; [| done]. by injection Hb as <-.
    + apply rbind_Ok in Hb as (b' & (urls & _ & [= <-])%rbind_Ok & Hb). unfold apply_dht in Hb.
      destruct dht_feature; [| done]. by injection Hb as <-.
  - unfold record_ttl. destruct (u32_try_from _) as [[|q]|]; unfold DEFAULT_RECORD_TTL, u32_max; lia.
  - unfold record_ttl, u32_try_from. destruct (N.leb_spec (republish_interval config / NANOS_PER_SEC) u32_max); [| done].
    destruct (republish_interval config / NANOS_PER_SEC)%N; [done | done].
  - unfold poll_interval. destruct (N.eqb_spec (republish_interval config) 0); [done | lia].
Qed.

(** ** Claims *)


(** A put whose resolve came back empty, because there is no packet yet
    or because nobody answered, publishes without a timestamp to compare
    with, and a packet that holds its own slot and no other slot of the key:
    a network that takes it has lost every other slot, and the slot itself
    goes back when it held a newer version. *)
Lemma pkarr_blind_put (t : PkarrTransport) (id : PkarrSlotId) (v : N) (sealed : bytes)
    (clock : nat → N) (p : SignedPacket) (cas : option N) :
  slot_id_wf id → (v ≤ u64_max)%N → put_prepare t id v sealed clock None = Ok (p, cas) →
  cas = None ∧ slot_record p (psi_record id) = Ok (Some (v, sealed))
  ∧ (∀ id', length id' = 16 → id' ≠ psi_record id → slot_record p id' = Ok None).
Proof.
  intros Hid Hv Hp. destruct (put_prepare_Ok _ _ _ _ _ None _ _ Hid Hv I Hp) as (_ & -> & _ & Hrep).
  destruct Hrep as (H1 & _ & H3). split_and!; [done .. |].
  intros id' Hl Hne. by destruct (H3 id' Hl Hne).
Qed.

(** C34: [build_packet] drops records from the end and nothing else: it
    behaves as one signature over the longest front part of the other
    records for which the packet is not too large, and reports a packet that
    is too large only when the new record alone is. *)
Theorem build_packet_longest_prefix (clock : nat → N) (kp : SigningKey) (cur : option SignedPacket)
    (id : bytes) (v : N) (sealed : bytes) (ttl : N) :
  let others := preserved_records (verifying_key kp) cur id in
  let outcome n := sign_packet (clock (length others - n)) kp (take n others) (record_name id)
                     (encode_slot_record v sealed) ttl in
  ∃ n, n ≤ length others
    ∧ build_packet clock kp (verifying_key kp) cur id v sealed ttl = outcome n
    ∧ (∀ m, n < m ≤ length others → outcome m = Err TransportError_BodyTooLarge)
    ∧ (outcome n = Err TransportError_BodyTooLarge → n = 0).
Proof. apply (build_loop_spec _ 0 clock). done. Qed.

End Records.

(** ** Witnesses *)

(** A small DNS codec: a packet is its records one after the other, each a
    name, a class, a lifetime, a type and the data with their lengths. *)
Module ToyDns.
#[export] Instance toy_dns : DnsLib := {|
  TXT := bytes;
  SVCB := bytes;
  OtherRData := Empty_set;
  txt_try_from s := Ok s;
  txt_string t := Ok t;
  name_try_from s := Ok s;
  z32_encode b := take 52 (hex_bytes b)
|}.

Definition rdata_tag (r : RData) : N :=
  match r with
  | RData_A _ => 1 | RData_AAAA _ => 28 | RData_CNAME _ => 5 | RData_TXT _ => 16
  | RData_HTTPS _ => 65 | RData_SVCB _ => 64 | RData_Other o => match o with end
  end.

Definition rr_text (r : ResourceRecord) : bytes :=
  match rr_rdata r with
  | RData_A a => to_be_bytes 4 a
  | RData_AAAA a => to_be_bytes 16 a
  | RData_CNAME t | RData_TXT t | RData_HTTPS t | RData_SVCB t => t
  | RData_Other o => match o with end
  end.

Definition rdata_of (tag : N) (t : bytes) : RData :=
  if (tag =? 1)%N then RData_A (from_be_bytes t) else if (tag =? 28)%N then RData_AAAA (from_be_bytes t)
  else if (tag =? 5)%N then RData_CNAME t else if (tag =? 65)%N then RData_HTTPS (t : SVCB)
  else if (tag =? 64)%N then RData_SVCB (t : SVCB) else RData_TXT (t : TXT).

Definition fits (n : nat) (v : N) : bool := (v <? 256 ^ N.of_nat n)%N.

Definition record_fits (r : ResourceRecord) : bool :=
  fits 2 (len (rr_name r)) && fits 2 (rr_class r) && fits 4 (rr_ttl r) && fits 2 (len (rr_text r))
  && match rr_rdata r with RData_A a => fits 4 a | RData_AAAA a => fits 16 a | _ => true end.

Definition record_bytes (r : ResourceRecord) : bytes :=
  to_be_bytes 2 (len (rr_name r)) ++ rr_name r ++ to_be_bytes 2 (rr_class r) ++ to_be_bytes 4 (rr_ttl r)
    ++ to_be_bytes 1 (rdata_tag (rr_rdata r)) ++ to_be_bytes 2 (len (rr_text r)) ++ rr_text r.

Definition split_field (n : nat) (b : bytes) : N * bytes := (from_be_bytes (take n b), drop n b).

Fixpoint parse_records (fuel : nat) (b : bytes) : option (list ResourceRecord) :=
  match b, fuel with
  | [], _ => Some []
  | _, O => None
  | _, S fuel =>
      let '(n, b) := split_field 2 b in
      let name := take (N.to_nat n) b in
      let '(class, b) := split_field 2 (drop (N.to_nat n) b) in
      let '(ttl, b) := split_field 4 b in
      let '(tag, b) := split_field 1 b in
      let '(m, b) := split_field 2 b in
      match parse_records fuel (drop (N.to_nat m) b) with
      | Some rs => Some (MkResourceRecord name class ttl (rdata_of tag (take (N.to_nat m) b)) :: rs)
      | None => None
      end
  end.

#[export] Instance toy_codec : DnsCodec := {|
  packet_build rs := if forallb record_fits rs then Ok (concat (map record_bytes rs)) else Err (lit "field too large");
  packet_parse b := ok_or (parse_records (length b) b) (lit "malformed packet")
|}.

Lemma split_field_app n v b : fits n v = true → split_field n (to_be_bytes n v ++ b) = (v, b).
Proof.
  intros Hv%N.ltb_lt. unfold split_field.
  rewrite take_app_length', drop_app_length' by by rewrite length_to_be_bytes.
  by rewrite from_to_be_bytes.
Qed.

Lemma rdata_of_tag name c t d :
  match d with RData_A a => fits 4 a | RData_AAAA a => fits 16 a | _ => true end = true →
  rdata_of (rdata_tag d) (rr_text (MkResourceRecord name c t d)) = d.
Proof.
  destruct d as [a|a|n|x|v|v|[]]; try done; intros H%N.ltb_lt; unfold rdata_of;
    cbn [rdata_tag rr_text rr_rdata N.eqb Pos.eqb]; by rewrite from_to_be_bytes.
Qed.

Lemma length_record_bytes r : 0 < length (record_bytes r).
Proof. unfold record_bytes. rewrite length_app, length_to_be_bytes. lia. Qed.

Lemma parse_records_concat rs fuel :
  forallb record_fits rs = true → length (concat (map record_bytes rs)) ≤ fuel →
  parse_records fuel (concat (map record_bytes rs)) = Some rs.
Proof.
  revert fuel. induction rs as [|r rs IH]; intros fuel; cbn [forallb map concat]; [by destruct fuel |].
  intros [Hr Hrs]%andb_true_iff Hlen. rewrite length_app in Hlen. pose proof (length_record_bytes r).
  destruct fuel as [|fuel]; [lia |]. specialize (IH fuel Hrs ltac:(lia)).
  unfold record_fits in Hr. rewrite !andb_true_iff in Hr. destruct Hr as [[[[H1 H2] H3] H4] H5].
  set (tail := concat (map record_bytes rs)) in *.
  assert (∀ b, b = record_bytes r ++ tail → parse_records (S fuel) b = Some (r :: rs)) as Hgoal;
    [| by apply Hgoal].
  intros b Hb. destruct b as [|x b'] eqn:Eb.
  { exfalso. destruct (record_bytes r); [cbn in *; lia | done]. }
  cbn [parse_records]. rewrite Hb. unfold record_bytes. rewrite <- !app_assoc.
  rewrite split_field_app by done. unfold len. rewrite Nat2N.id, take_app_length, drop_app_length.
  rewrite split_field_app by done. rewrite split_field_app by done.
  rewrite split_field_app by (destruct (rr_rdata r) as [| | | | | |[]]; done). unfold len.
  rewrite split_field_app by done. rewrite Nat2N.id, take_app_length, drop_app_length, IH.
  destruct r as [name c t d]. cbn [rr_name rr_class rr_ttl rr_rdata] in *. do 3 f_equal. by apply rdata_of_tag.
Qed.

#[export] Instance toy_dns_laws : DnsLaws.
Proof.
  split.
  - intros s t [= <-]. done.
  - done.
  - intros b Hb. cbn [z32_encode toy_dns]. split; [rewrite length_take, length_hex_bytes; lia |].
    pose proof (hex_bytes_alnum b) as Ha. rewrite <- (take_drop 52 (hex_bytes b)), forallb_app in Ha.
    by apply andb_true_iff in Ha as [? _].
  - intros rs b _. cbn [packet_build packet_parse toy_codec]. destruct (forallb record_fits rs) eqn:E; [| done].
    intros [= <-]. by rewrite (parse_records_concat _ _ E).
Qed.
End ToyDns.

Module PkarrWitness.
Import Toy ToyDns.
#[local] Existing Instance ToyUrl.toy_url.
#[local] Existing Instance toy_base64.
#[local] Instance toy_pkarr : PkarrLib := {| b64_error_text _ := []; into_url s := ok_or (url_parse s) [] |}.

Definition transport : PkarrTransport :=
  MkPkarrTransport (MkClientBuilder None None 0 DEFAULT_REQUEST_TIMEOUT) x05 x05 300 (from_secs 300).
Definition id1 : bytes := replicate 16 x01.
Definition id2 : bytes := replicate 16 x02.
Definition slot1 : PkarrSlotId := MkPkarrSlotId x05 x05 id1.
Definition slot2 : PkarrSlotId := MkPkarrSlotId x05 x05 id2.

(** The first publish is told that somebody else was faster; the second is
    accepted. *)
Definition raced : put_env :=
  MkPutEnv (λ _, None) (λ k _, N.of_nat (10 + k))
    (λ k _ _, if k =? 0 then Err (PublishError_Concurrency ConcurrencyError_CasFailed) else Ok tt).


Definition calm : put_env := MkPutEnv (λ _, None) (λ _ _, 10%N) (λ _ _ _, Ok tt).

End PkarrWitness.
