(* ===== verification/PkarrLite.v ===== *)
(** * packages/pkarr-lite/native: the native peer of the TypeScript tests

    The harness prints a signed packet with everything the TypeScript library
    must reproduce, checks the vectors that library printed, and publishes and
    resolves packets through a relay.  It works with the packets of
    SignedPacket; [hex], the SVCB builders and the relay client are
    third-party, and so is the JSON it reads and prints: a command takes the
    parsed input and returns the record it prints. *)

From S2P Require Import Prelude Bytes Crypto Net SignedPacket Pkarr.

Class HexLib := {
  hex_encode : bytes → bytes;
  hex_decode : bytes → result bytes bytes;
  hex_decode_encode b : hex_decode (hex_encode b) = Ok b
}.

(** [SVCB] and [Name::new] of [simple_dns], and [TXT::with_string]. *)
Class SvcbLib `{DL : DnsLib} := {
  name_new : bytes → result bytes bytes;
  txt_with_string : bytes → result TXT bytes;
  CharacterString : Type;
  character_string : bytes → result CharacterString bytes;
  svcb_new : N → bytes → SVCB;
  set_alpn : list CharacterString → SVCB → SVCB;
  set_port : N → SVCB → SVCB;
  set_ipv4hint : list N → SVCB → SVCB;
  set_ipv6hint : list N → SVCB → SVCB;
  with_unknown_param : N → bytes → SVCB → SVCB
}.

Definition SECRET_KEY : bytes := replicate 32 x07.
Definition TIMESTAMP_MICROS : N := 123456789.
Definition LAST_SEEN_MICROS : N := 987654321.

(** ** Vectors *)

Record KeyVector : Type := MkKeyVector {
  secret_key_hex : bytes;
  kv_public_key_hex : bytes;
  z32 : bytes;
  uri : bytes
}.

Record RecordSummary : Type := MkRecordSummary { rs_name : bytes; record_type_name : bytes; rs_ttl : N }.

#[export] Instance RecordSummary_eq_dec : EqDecision RecordSummary.
Proof. solve_decision. Defined.

Record LookupVector : Type := MkLookupVector { lv_name : bytes; names : list bytes }.

Record PacketVector : Type := MkPacketVector {
  timestamp_micros : N;
  last_seen_micros : N;
  signature_hex : bytes;
  signable_hex : bytes;
  encoded_packet_hex : bytes;
  signed_packet_hex : bytes;
  relay_payload_hex : bytes;
  serialized_hex : bytes;
  ttl_default : N;
  ttl_unclamped : N;
  records : list RecordSummary;
  lookups : list LookupVector
}.

Record NativeVectors : Type := MkNativeVectors { nv_key : KeyVector; nv_packet : PacketVector }.

Record TsPacketVector : Type := MkTsPacketVector {
  ts_timestamp_micros : N;
  ts_signature_hex : bytes;
  ts_signable_hex : bytes;
  ts_encoded_packet_hex : bytes;
  ts_signed_packet_hex : bytes;
  ts_relay_payload_hex : bytes;
  ts_ttl_default : N;
  ts_ttl_unclamped : N;
  ts_records : list RecordSummary;
  ts_lookups : list LookupVector
}.

Record VerifyTsVector : Type := MkVerifyTsVector { public_key_hex : bytes; packet : TsPacketVector }.

(** What a command fails with: a check of [ensure_eq], by its name, or the
    text of another error. *)
Inductive harness_error : Type :=
| Mismatch (name : bytes)
| HarnessError (text : bytes)
| BuildFailed (e : SignedPacketBuildError)
| VerifyFailed (e : SignedPacketVerifyError)
| PublishFailed (e : PublishError)
| InvalidKey (b : bytes).

Definition ensure_eq {T} `{EqDecision T} (left right : T) (name : bytes) : result unit harness_error :=
  if decide (left = right) then Ok tt else Err (Mismatch name).

Section PkarrLite.
Context `{PR : Primitives} `{DC : DnsCodec} `{SL : !SvcbLib} {HX : HexLib}.

Definition harness_text {A} (r : result A bytes) : result A harness_error := map_err HarnessError r.

Definition name (input : bytes) : result bytes harness_error := harness_text (name_new input).

(** [signable] of the harness, written out again. *)
Definition lite_signable (timestamp : N) (encoded_packet : bytes) : bytes :=
  (lit "3:seqi" ++ u64_to_string timestamp ++ lit "e1:v" ++ u64_to_string (N.of_nat (length encoded_packet)) ++ lit ":")
    ++ encoded_packet.

(** ** Building the packet *)

Definition ipv4_number (ip : Ipv4Addr) : N :=
  let '(Ipv4 a b c d) := ip in from_be_bytes [a; b; c; d].

Definition ipv6_number (ip : Ipv6Addr) : N := foldl (λ acc s, (acc * 65536 + s)%N) 0%N (segments ip).

(** [SignedPacketBuilder::address] of a parsed [IpAddr]. *)
Definition builder_address (b : list ResourceRecord) (name text : bytes) (t : N)
    : result (list ResourceRecord) harness_error :=
  match read_ipv4_addr text with
  | Some (ip, []) => Ok (builder_rdata b name (RData_A (ipv4_number ip)) t)
  | Some (_, _ :: _) => Err (HarnessError (lit "invalid IP address syntax"))
  | None =>
      match read_ipv6_addr text with
      | Some (ip, []) => Ok (builder_rdata b name (RData_AAAA (ipv6_number ip)) t)
      | _ => Err (HarnessError (lit "invalid IP address syntax"))
      end
  end.

Definition parse_ipv6 (text : bytes) : result Ipv6Addr harness_error :=
  match read_ipv6_addr text with
  | Some (ip, []) => Ok ip
  | _ => Err (HarnessError (lit "invalid IPv6 address syntax"))
  end.

Definition https_binding : result SVCB harness_error :=
  let! target := name (lit "svc.example.com") in
  let! h2 := harness_text (character_string (lit "h2")) in
  let! h3 := harness_text (character_string (lit "h3")) in
  let! ip := parse_ipv6 (lit "2001:db8::1") in
  Ok (set_ipv6hint [ipv6_number ip] (set_ipv4hint [ipv4_number (Ipv4 xc0 x00 x02 x01)]
       (set_port 443 (set_alpn [h2; h3] (svcb_new 1 target))))).

Definition svcb_binding : result SVCB harness_error :=
  let! root := name (lit ".") in
  Ok (with_unknown_param 667 (lit "hello" ++ xd2 :: lit "qoo") (svcb_new 0 root)).

Definition vector_keypair : SigningKey := sk_from_bytes SECRET_KEY.

Definition vector_packet (keypair : SigningKey) : result SignedPacket harness_error :=
  let! root := name (lit ".") in
  let! b := builder_address SignedPacketBuilder_default root (lit "1.2.3.4") 30 in
  let! www := name (lit "www") in
  let! b := builder_address b www (lit "::1") 60 in
  let! alias := name (lit "alias.") in
  let! target := name (lit "target.example.com") in
  let b := builder_cname b alias target 70 in
  let! proto := name (lit "_proto") in
  let! txt := harness_text (txt_with_string (lit "foo=bar")) in
  let b := builder_txt b proto txt 80 in
  let! root := name (lit ".") in
  let! https := https_binding in
  let b := builder_https b root https 90 in
  let! svc := name (lit "_svc") in
  let! svcb := svcb_binding in
  let b := builder_svcb b svc svcb 100 in
  map_err BuildFailed (builder_sign_at b TIMESTAMP_MICROS keypair).

(** ** Describing a packet *)

Definition record_type (r : RData) : bytes :=
  match r with
  | RData_A _ => lit "A"
  | RData_AAAA _ => lit "AAAA"
  | RData_CNAME _ => lit "CNAME"
  | RData_TXT _ => lit "TXT"
  | RData_HTTPS _ => lit "HTTPS"
  | RData_SVCB _ => lit "SVCB"
  | RData_Other _ => lit "UNSUPPORTED"
  end.

Definition record_summaries (p : SignedPacket) : list RecordSummary :=
  (λ r, MkRecordSummary (rr_name r) (record_type (rr_rdata r)) (rr_ttl r)) <$> sp_answers p.

Definition lookup_names (p : SignedPacket) (name : bytes) : list bytes := rr_name <$> resource_records p name.

Definition lookup_vector (p : SignedPacket) (name : bytes) : LookupVector :=
  MkLookupVector name (lookup_names p name).

Definition packet_vector (p : SignedPacket) : result PacketVector harness_error :=
  let! ttl_default := ttl p 300 86400 in
  let! ttl_unclamped := ttl p 0 86400 in
  let origin := to_z32 (sp_public_key p) in
  Ok (MkPacketVector (sp_timestamp p) LAST_SEEN_MICROS (hex_encode (sp_signature p))
        (hex_encode (lite_signable (sp_timestamp p) (sp_encoded p))) (hex_encode (sp_encoded p))
        (hex_encode (as_bytes p)) (hex_encode (to_relay_payload p)) (hex_encode (serialize LAST_SEEN_MICROS p))
        ttl_default ttl_unclamped (record_summaries p)
        [lookup_vector p (lit "@"); lookup_vector p (lit "_svc"); lookup_vector p (lit "*." ++ origin);
         lookup_vector p (lit "*.example." ++ origin)]).

Definition key_vector (keypair : SigningKey) : KeyVector :=
  let pk := verifying_key keypair in
  MkKeyVector (hex_encode SECRET_KEY) (hex_encode (vk_to_bytes pk)) (to_z32 pk) (lit "pk:" ++ to_z32 pk).

(** ** Commands *)

Definition print_vectors : result NativeVectors harness_error :=
  let keypair := vector_keypair in
  let! p := vector_packet keypair in
  let! v := packet_vector p in
  Ok (MkNativeVectors (key_vector keypair) v).

Definition public_key_try_from (b : bytes) : result VerifyingKey harness_error :=
  ok_or (array_from_slice 32 b ≫= vk_from_bytes) (InvalidKey b).

Fixpoint verify_lookups (p : SignedPacket) (ls : list LookupVector) : result unit harness_error :=
  match ls with
  | [] => Ok tt
  | l :: ls =>
      let! _ := ensure_eq (lookup_names p (lv_name l)) (names l) (lit "lookup " ++ lv_name l) in
      verify_lookups p ls
  end.

Definition verify_ts (input : result VerifyTsVector bytes) : result unit harness_error :=
  let! vector := harness_text input in
  let! public_key_bytes := harness_text (hex_decode (public_key_hex vector)) in
  let! public_key := public_key_try_from public_key_bytes in
  let v := packet vector in
  let! relay_payload := harness_text (hex_decode (ts_relay_payload_hex v)) in
  let! p := map_err VerifyFailed (from_relay_payload public_key relay_payload) in
  let! _ := ensure_eq (hex_encode (as_bytes p)) (ts_signed_packet_hex v) (lit "signed packet bytes") in
  let! _ := ensure_eq (hex_encode (sp_signature p)) (ts_signature_hex v) (lit "signature") in
  let! _ := ensure_eq (hex_encode (sp_encoded p)) (ts_encoded_packet_hex v) (lit "encoded DNS packet") in
  let! _ := ensure_eq (hex_encode (lite_signable (ts_timestamp_micros v) (sp_encoded p))) (ts_signable_hex v)
              (lit "signable bytes") in
  let! _ := ensure_eq (sp_timestamp p) (ts_timestamp_micros v) (lit "timestamp") in
  let! ttl_default := ttl p 300 86400 in
  let! _ := ensure_eq ttl_default (ts_ttl_default v) (lit "default TTL") in
  let! ttl_unclamped := ttl p 0 86400 in
  let! _ := ensure_eq ttl_unclamped (ts_ttl_unclamped v) (lit "unclamped TTL") in
  let! _ := ensure_eq (record_summaries p) (ts_records v) (lit "resource records") in
  verify_lookups p (ts_lookups v).

(** The relay client: building it for a URL, publishing with it and resolving
    with it. *)
Record RelayClient : Type := MkRelayClient {
  rc_publish : SignedPacket → option N → result unit PublishError;
  rc_resolve : VerifyingKey → option SignedPacket
}.

Definition relay_client : Type := bytes → result RelayClient bytes.

Definition publish_relay (connect : relay_client) (relay_url : result bytes bytes)
    : result NativeVectors harness_error :=
  let! url := harness_text relay_url in
  let keypair := vector_keypair in
  let! p := vector_packet keypair in
  let! client := harness_text (connect url) in
  let! _ := map_err PublishFailed (rc_publish client p None) in
  let! v := packet_vector p in
  Ok (MkNativeVectors (key_vector keypair) v).

(** The URL, the timestamps and the text of [RelayCasPublishInput]. *)
Record RelayCasPublishInput : Type := MkRelayCasPublishInput {
  rci_relay_url : bytes;
  cas_micros : N;
  rci_timestamp_micros : N;
  rci_text : bytes
}.

Definition publish_relay_cas (connect : relay_client) (input : result RelayCasPublishInput bytes)
    : result NativeVectors harness_error :=
  let! input := harness_text input in
  let keypair := vector_keypair in
  let! cas := name (lit "_cas") in
  let! txt := harness_text (txt_with_string (rci_text input)) in
  let! p := map_err BuildFailed
              (builder_sign_at (builder_txt SignedPacketBuilder_default cas txt 30) (rci_timestamp_micros input) keypair) in
  let! client := harness_text (connect (rci_relay_url input)) in
  let! _ := map_err PublishFailed (rc_publish client p (Some (cas_micros input))) in
  let! v := packet_vector p in
  Ok (MkNativeVectors (key_vector keypair) v).

(** The URL and the key of [RelayResolveInput]. *)
Definition resolve_relay (connect : relay_client) (input : result (bytes * bytes) bytes)
    : result PacketVector harness_error :=
  let! (url, key_hex) := harness_text input in
  let! key_bytes := harness_text (hex_decode key_hex) in
  let! public_key := public_key_try_from key_bytes in
  let! client := harness_text (connect url) in
  let! p := ok_or (rc_resolve client public_key) (HarnessError (lit "native client did not resolve packet")) in
  packet_vector p.

(** What standard input parses to, by the command that reads it. *)
Record harness_input : Type := MkHarnessInput {
  in_verify : result VerifyTsVector bytes;
  in_publish : result bytes bytes;
  in_cas : result RelayCasPublishInput bytes;
  in_resolve : result (bytes * bytes) bytes
}.

Inductive harness_output : Type :=
| PrintedVectors (v : NativeVectors)
| PrintedPacket (v : PacketVector)
| PrintedNothing.

Definition lite_run (connect : relay_client) (input : harness_input) (command : option bytes)
    : result harness_output harness_error :=
  let is_command c := bool_decide (command = Some c) in
  if is_command (lit "vectors") then rmap PrintedVectors print_vectors
  else if is_command (lit "verify-ts") then rmap (λ _, PrintedNothing) (verify_ts (in_verify input))
  else if is_command (lit "publish-relay") then rmap PrintedVectors (publish_relay connect (in_publish input))
  else if is_command (lit "publish-relay-cas") then rmap PrintedVectors (publish_relay_cas connect (in_cas input))
  else if is_command (lit "resolve-relay") then rmap PrintedPacket (resolve_relay connect (in_resolve input))
  else Err (HarnessError
         (lit "usage: pkarr-lite-native <vectors|verify-ts|publish-relay|publish-relay-cas|resolve-relay>")).
End PkarrLite.

(** ** Lemmas *)

Lemma ensure_eq_Ok {T} `{EqDecision T} (a b : T) n u : ensure_eq a b n = Ok u ↔ a = b.
Proof. unfold ensure_eq. destruct u. case_decide; naive_solver. Qed.

Section PkarrLiteLemmas.
Context `{PR : Primitives} `{PL : !PrimitivesLaws} `{DC : DnsCodec} `{SL : !SvcbLib} {HX : HexLib}.

(** What signing produces, whatever the records. *)
Lemma SignedPacket_new_parts kp rs now p :
  SignedPacket_new kp rs now = Ok p →
  sp_public_key p = verifying_key kp ∧ sp_timestamp p = now
  ∧ packet_parse (sp_encoded p) = Ok (sp_answers p) ∧ length (sp_encoded p) ≤ MAX_ENCODED
  ∧ sp_signature p = ed_sign kp (signable (sp_timestamp p) (sp_encoded p)).
Proof.
  unfold SignedPacket_new. intros (enc & He & Hx)%rbind_Ok. apply rbind_Ok in Hx as ([] & Hg & Hx).
  unfold guard_err in Hg. destruct (Nat.ltb_spec MAX_ENCODED (length enc)); [done |].
  unfold try_from_parts in Hx. destruct (packet_parse enc) as [answers|?|] eqn:Hparse; cbn [rbind ok expect] in Hx; [| done ..].
  injection Hx as <-. by split_and!.
Qed.

Lemma new_relay_round kp rs now p :
  (now ≤ u64_max)%N → SignedPacket_new kp rs now = Ok p →
  from_relay_payload (sp_public_key p) (to_relay_payload p) = Ok p.
Proof.
  intros Hn (Hpk & Hts & Hparse & Hlen & Hsig)%SignedPacket_new_parts. rewrite Hpk.
  apply from_relay_payload_round; try done. by rewrite Hts.
Qed.

Lemma vector_packet_new kp p : vector_packet kp = Ok p → ∃ rs, SignedPacket_new kp rs TIMESTAMP_MICROS = Ok p.
Proof.
  unfold vector_packet. cbv zeta. intros H. repeat apply rbind_Ok in H as (? & _ & H).
  apply map_err_Ok in H. by eexists.
Qed.

Lemma public_key_bytes_round pk : public_key_try_from (vk_to_bytes pk) = Ok pk.
Proof.
  unfold public_key_try_from. rewrite array_from_slice_length by apply vk_to_bytes_length.
  cbn [mbind option_bind]. by rewrite vk_from_to_bytes.
Qed.

Lemma public_key_try_from_Ok b pk : public_key_try_from b = Ok pk ↔ b = vk_to_bytes pk.
Proof.
  split; [| intros ->; apply public_key_bytes_round]. unfold public_key_try_from. rewrite ok_or_Ok.
  destruct (array_from_slice 32 b) as [a|] eqn:E; [| done]. apply array_from_slice_Some in E as [-> _].
  intros H. symmetry. by apply vk_to_from_bytes.
Qed.

Lemma verify_lookups_Ok p ls u :
  verify_lookups p ls = Ok u ↔ Forall (λ l, lookup_names p (lv_name l) = names l) ls.
Proof.
  destruct u. induction ls as [|l ls IH]; cbn [verify_lookups]; [by split; [constructor |] |].
  rewrite rbind_Ok, Forall_cons, <- IH. setoid_rewrite ensure_eq_Ok. naive_solver.
Qed.

(** The vector states the truth about the packet. *)
Definition describes (p : SignedPacket) (v : TsPacketVector) : Prop :=
  ts_signed_packet_hex v = hex_encode (as_bytes p) ∧ ts_signature_hex v = hex_encode (sp_signature p)
  ∧ ts_encoded_packet_hex v = hex_encode (sp_encoded p)
  ∧ ts_signable_hex v = hex_encode (signable (sp_timestamp p) (sp_encoded p))
  ∧ ts_timestamp_micros v = sp_timestamp p
  ∧ ttl (E:=harness_error) p 300 86400 = Ok (ts_ttl_default v)
  ∧ ttl (E:=harness_error) p 0 86400 = Ok (ts_ttl_unclamped v)
  ∧ ts_records v = record_summaries p
  ∧ Forall (λ l, lookup_names p (lv_name l) = names l) (ts_lookups v).

Lemma lite_signable_eq t b : lite_signable t b = signable t b.
Proof. unfold lite_signable, signable. by rewrite <- !app_assoc. Qed.

Lemma harness_text_Ok {A} (r : result A bytes) a : harness_text r = Ok a ↔ r = Ok a.
Proof. apply map_err_Ok. Qed.

Lemma verify_ts_spec v :
  verify_ts (Ok v) = Ok tt ↔
  ∃ pk payload p, hex_decode (public_key_hex v) = Ok (vk_to_bytes pk)
    ∧ hex_decode (ts_relay_payload_hex (packet v)) = Ok payload
    ∧ from_relay_payload pk payload = Ok p ∧ describes p (packet v).
Proof.
  unfold verify_ts, describes. cbn [harness_text map_err rbind].
  split.
  - intros H. repeat (apply rbind_Ok in H as (? & ? & H)).
    repeat match goal with
    | H : ensure_eq _ _ _ = Ok _ |- _ => apply ensure_eq_Ok in H
    | H : harness_text _ = Ok _ |- _ => apply harness_text_Ok in H
    | H : map_err _ _ = Ok _ |- _ => apply map_err_Ok in H
    | H : verify_lookups _ _ = Ok _ |- _ => apply verify_lookups_Ok in H
    | H : public_key_try_from _ = Ok _ |- _ => apply public_key_try_from_Ok in H; subst
    | H : context [lite_signable _ _] |- _ => rewrite lite_signable_eq in H
    end.
    eexists _, _, _. split; [done |]. split; [done |]. split; [done |]. split_and!; congruence || done.
  - intros (pk & payload & p & Hk & Hp & Hr & H1 & H2 & H3 & H4 & H5 & H6 & H7 & H8 & H9).
    rewrite Hk, Hp. cbn [harness_text map_err rbind]. rewrite public_key_bytes_round. cbn [rbind]. rewrite Hr.
    cbn [map_err rbind]. rewrite lite_signable_eq, H5, H6, H7.
    repeat (rewrite (proj2 (ensure_eq_Ok _ _ _ tt)) by done; cbn [rbind]). by apply verify_lookups_Ok.
Qed.

(** The part of the printed vectors the other side sends back. *)
Definition ts_of (nv : NativeVectors) : VerifyTsVector :=
  let v := nv_packet nv in
  MkVerifyTsVector (kv_public_key_hex (nv_key nv))
    (MkTsPacketVector (timestamp_micros v) (signature_hex v) (signable_hex v) (encoded_packet_hex v)
       (signed_packet_hex v) (relay_payload_hex v) (ttl_default v) (ttl_unclamped v) (records v) (lookups v)).

Lemma packet_vector_describes p v kv :
  packet_vector p = Ok v →
  describes p (packet (ts_of (MkNativeVectors kv v))) ∧ relay_payload_hex v = hex_encode (to_relay_payload p).
Proof.
  unfold packet_vector. intros (d & Hd & H)%rbind_Ok. apply rbind_Ok in H as (u & Hu & [= <-]).
  unfold describes. cbn [ts_of nv_packet nv_key packet ts_signed_packet_hex ts_signature_hex ts_encoded_packet_hex
    ts_signable_hex ts_timestamp_micros ts_ttl_default ts_ttl_unclamped ts_records ts_lookups signed_packet_hex
    signature_hex encoded_packet_hex signable_hex timestamp_micros ttl_default ttl_unclamped records lookups
    relay_payload_hex]. rewrite lite_signable_eq. split_and!; try done.
  by repeat constructor.
Qed.

(** ** Claims *)

(** The two sides of the vectors agree.  A vector is accepted exactly when
    its payload is a packet signed by its key and every other field states
    the truth about that packet; the vectors the harness prints are accepted;
    and when the relay hands out the payload of the published packet,
    resolving prints the same description as publishing. *)
Lemma lite_vectors_verify (nv : NativeVectors) (v : VerifyTsVector) (url : bytes)
    (connect : relay_client) (client : RelayClient) :
  print_vectors = Ok nv → connect url = Ok client →
  (∀ p, rc_publish client p None = Ok tt) →
  (∀ p pk, vector_packet vector_keypair = Ok p → pk = sp_public_key p →
           rc_resolve client pk = ok (from_relay_payload pk (to_relay_payload p))) →
  (verify_ts (Ok v) = Ok tt ↔
   ∃ pk payload p, hex_decode (public_key_hex v) = Ok (vk_to_bytes pk)
     ∧ hex_decode (ts_relay_payload_hex (packet v)) = Ok payload
     ∧ from_relay_payload pk payload = Ok p ∧ describes p (packet v))
  ∧ verify_ts (Ok (ts_of nv)) = Ok tt
  ∧ publish_relay connect (Ok url) = Ok nv
  ∧ resolve_relay connect (Ok (url, kv_public_key_hex (nv_key nv))) = Ok (nv_packet nv).
Proof.
  intros Hpv Hc Hpub Hres. split; [apply verify_ts_spec |].
  unfold print_vectors in Hpv. cbv zeta in Hpv. apply rbind_Ok in Hpv as (p & Hp & Hv). apply rbind_Ok in Hv as (w & Hw & Hnv).
  injection Hnv as <-. pose proof (vector_packet_new _ _ Hp) as [rs Hnew].
  pose proof (SignedPacket_new_parts _ _ _ _ Hnew) as (Hpk & _).
  pose proof (new_relay_round _ _ TIMESTAMP_MICROS _ ltac:(done) Hnew) as Hround.
  destruct (packet_vector_describes p w (key_vector vector_keypair) Hw) as [Hd Hpay]. split_and!.
  - apply verify_ts_spec. exists (verifying_key vector_keypair), (to_relay_payload p), p.
    cbn [ts_of public_key_hex packet ts_relay_payload_hex nv_key nv_packet key_vector kv_public_key_hex].
    rewrite hex_decode_encode, Hpay, hex_decode_encode, <- Hpk. by split_and!.
  - unfold publish_relay. cbn [harness_text map_err rbind]. rewrite Hp. cbn [rbind]. rewrite Hc. cbn [harness_text map_err rbind].
    rewrite Hpub. cbn [map_err rbind]. by rewrite Hw.
  - unfold resolve_relay. cbn [harness_text map_err rbind nv_key key_vector kv_public_key_hex nv_packet].
    rewrite hex_decode_encode. cbn [harness_text map_err rbind]. rewrite public_key_bytes_round. cbn [rbind]. rewrite Hc.
    cbn [harness_text map_err rbind]. rewrite (Hres p _ Hp (eq_sym Hpk)), <- Hpk, Hround. done.
Qed.
End PkarrLiteLemmas.

(** ** Witness *)

Module PkarrLiteWitness.
Import Toy ToyDns.

Definition nibble (b : byte) : N :=
  let n := Byte.to_N b in if (n <? 58)%N then (n - 48)%N else (n - 87)%N.

Fixpoint unhex (s : bytes) : bytes :=
  match s with
  | a :: b :: s' => byte_of_N (nibble a * 16 + nibble b) :: unhex s'
  | _ => []
  end.

Lemma unhex_hex b : unhex (hex_bytes b) = b.
Proof.
  induction b as [|x b IH]; [done |]. change (hex_bytes (x :: b)) with (hex_byte x ++ hex_bytes b).
  transitivity (x :: unhex (hex_bytes b)); [by destruct x | by rewrite IH].
Qed.

#[local] Instance toy_hex : HexLib := {|
  hex_encode := hex_bytes;
  hex_decode s := Ok (unhex s);
  hex_decode_encode b := f_equal Ok (unhex_hex b)
|}.

#[local] Instance toy_svcb : SvcbLib := {|
  name_new s := Ok s;
  txt_with_string s := Ok s;
  CharacterString := bytes;
  character_string s := Ok s;
  svcb_new p t := to_be_bytes 2 p ++ t;
  set_alpn l s := s ++ concat l;
  set_port p s := s ++ to_be_bytes 2 p;
  set_ipv4hint l s := s ++ concat (map (to_be_bytes 4) l);
  set_ipv6hint l s := s ++ concat (map (to_be_bytes 16) l);
  with_unknown_param k v s := s ++ to_be_bytes 2 k ++ v
|}.

(** A relay that keeps what the harness publishes. *)
Definition kept : RelayClient :=
  MkRelayClient (λ _ _, Ok tt)
    (λ pk, match vector_packet vector_keypair with
           | Ok p => ok (from_relay_payload pk (to_relay_payload p))
           | _ => None
           end).

Lemma lite_vectors_verify_witness :
  ∃ nv, print_vectors = Ok nv ∧ verify_ts (Ok (ts_of nv)) = Ok tt
    ∧ resolve_relay (λ _, Ok kept) (Ok (lit "http://relay", kv_public_key_hex (nv_key nv))) = Ok (nv_packet nv).
Proof.
  assert (match print_vectors with Ok _ => true | _ => false end = true) as Hok by vm_refl.
  destruct print_vectors as [nv|?|] eqn:E; [| discriminate Hok ..].
  exists nv. split; [reflexivity |].
  destruct (lite_vectors_verify nv (ts_of nv) (lit "http://relay") (λ _, Ok kept) kept E eq_refl
              (λ _, eq_refl)) as (_ & Hv & _ & Hr).
  - intros p pk Hp _. cbn [rc_resolve kept]. rewrite Hp. reflexivity.
  - split; [exact Hv | exact Hr].
Defined.
End PkarrLiteWitness.
