(* ===== verification/Iroh.v ===== *)
(** * transports/iroh.rs: gossip topics, peers and the connection gate

    The gossip engine, the QUIC endpoint and the key type are arguments: the
    operations take what [subscribe], [join_peers], [broadcast] and [bind]
    answer.  Every lock of the source protects one critical section, which is
    one step of the model.  A topic is shared by reference: the transport's
    map and the watch tasks point into one heap of topic states. *)

From S2P Require Import Prelude Bytes Crypto Kdf Net Guard Errors Dedup Config Health PeerCard Msgpack State.

Definition IROH_WATCH_BUFFER : nat := 64.
Definition SLOT_HEADER_LEN : nat := 8.
Definition MAX_PENDING_BROADCASTS : nat := 64.

(** ** The iroh library *)

(** Endpoint ids are public keys: not every 32-byte string is one. *)
Class IrohLib := {
  EndpointId : Type;
  EndpointId_eq_dec :: EqDecision EndpointId;
  EndpointId_countable :: Countable EndpointId;
  EndpointId_from_bytes : bytes → option EndpointId;
  EndpointId_as_bytes : EndpointId → bytes;
  EndpointId_as_from : ∀ b e, EndpointId_from_bytes b = Some e → EndpointId_as_bytes e = b;
  EndpointId_from_as : ∀ e, EndpointId_from_bytes (EndpointId_as_bytes e) = Some e;
  (** [SecretKey::from_bytes(..).public()]. *)
  iroh_public : bytes → EndpointId
}.

(** ** Slot frames *)

Definition encode_slot_frame (version : N) (sealed : bytes) : bytes :=
  to_be_bytes SLOT_HEADER_LEN version ++ sealed.

Definition decode_slot_frame (frame : bytes) : option (N * bytes) :=
  if length frame <? SLOT_HEADER_LEN then None
  else Some (from_be_bytes (take SLOT_HEADER_LEN frame), drop SLOT_HEADER_LEN frame).

Section Iroh.
Context `{PR : Primitives} `{UL : UrlLib} `{IL : IrohLib}.

Inductive IrohInitError : Type :=
| IrohInitError_State (e : StateError)
| IrohInitError_Transport (e : TransportError).

Definition topic_id (id : bytes) : result bytes TransportError :=
  ok_or (array_from_slice 32 id) (TransportError_Network (lit "iroh topic id must be 32 bytes")).

Definition endpoint_id_from_bytes (id : bytes) : result EndpointId TransportError :=
  ok_or (EndpointId_from_bytes id) (TransportError_Network (lit "invalid iroh endpoint id")).

(** The addresses of the library's [EndpointAddr], as it is given them. *)
Inductive TransportAddr : Type :=
| TransportAddr_Relay (u : Url)
| TransportAddr_Ip (a : SocketAddr).

Record EndpointAddr : Type := MkEndpointAddr { ea_id : EndpointId; ea_addrs : list TransportAddr }.

Definition endpoint_addr (peer : IrohEndpointAddr) : result EndpointAddr TransportError :=
  let! id := endpoint_id_from_bytes (endpoint_id peer) in
  Ok (MkEndpointAddr id (map TransportAddr_Relay (relay_urls peer) ++ map TransportAddr_Ip (direct_addrs peer))).

Definition endpoint_addr_to_config (a : EndpointAddr) : IrohEndpointAddr :=
  MkIrohEndpointAddr (EndpointId_as_bytes (ea_id a))
    (filter_map (λ t, match t with TransportAddr_Relay u => Some u | _ => None end) (ea_addrs a))
    (filter_map (λ t, match t with TransportAddr_Ip s => Some s | _ => None end) (ea_addrs a)).

(** ** Neighbours of a topic *)

Record NeighborState : Type := MkNeighborState {
  neighbors : gset EndpointId;
  pending_broadcasts : list bytes
}.

Definition NeighborState_new (ns : gset EndpointId) : NeighborState := MkNeighborState ns [].

(** The messages to broadcast now. *)
Definition mark_up (peer : EndpointId) (s : NeighborState) : list bytes * NeighborState :=
  let was_empty := bool_decide (neighbors s = ∅) in
  let ns := {[peer]} ∪ neighbors s in
  if was_empty then (pending_broadcasts s, MkNeighborState ns [])
  else ([], MkNeighborState ns (pending_broadcasts s)).

Definition mark_down (peer : EndpointId) (s : NeighborState) : NeighborState :=
  MkNeighborState (neighbors s ∖ {[peer]}) (pending_broadcasts s).

Definition queue_or_send (message : bytes) (s : NeighborState)
    : result (option bytes) TransportError * NeighborState :=
  if negb (bool_decide (neighbors s = ∅)) then (Ok (Some message), s)
  else if MAX_PENDING_BROADCASTS <=? length (pending_broadcasts s)
  then (Err (TransportError_Network (lit "iroh pending broadcast queue is full")), s)
  else (Ok None, MkNeighborState (neighbors s) (pending_broadcasts s ++ [message])).

(** ** Topics *)

(** [ts_updates] is every value ever sent on the broadcast channel; a
    receiver is a position in it. *)
Record TopicState : Type := MkTopicState {
  ts_mailbox : list bytes;
  ts_slot : option (N * bytes);
  ts_updates : list (N * bytes);
  ts_neighbors : NeighborState
}.

Definition TopicState_new (initial_neighbors : gset EndpointId) : TopicState :=
  MkTopicState [] None [] (NeighborState_new initial_neighbors).

Definition record_mailbox (sealed : bytes) (t : TopicState) : TopicState :=
  MkTopicState (ts_mailbox t ++ [sealed]) (ts_slot t) (ts_updates t) (ts_neighbors t).

Definition record_slot (version : N) (sealed : bytes) (t : TopicState) : TopicState :=
  if match ts_slot t with
     | Some (v, s) => negb (pair_ltb (v, s) (version, sealed))
     | None => false
     end
  then t
  else MkTopicState (ts_mailbox t) (Some (version, sealed)) (ts_updates t ++ [(version, sealed)])
         (ts_neighbors t).

Definition current_slot (t : TopicState) : option (N * bytes) := ts_slot t.

(** The first neighbour releases the queued messages. *)
Definition mark_neighbor_up (peer : EndpointId) (t : TopicState) : list bytes * TopicState :=
  let '(pending, ns) := mark_up peer (ts_neighbors t) in
  (pending, MkTopicState (ts_mailbox t) (ts_slot t) (ts_updates t) ns).

Definition mark_neighbor_down (peer : EndpointId) (t : TopicState) : TopicState :=
  MkTopicState (ts_mailbox t) (ts_slot t) (ts_updates t) (mark_down peer (ts_neighbors t)).

(** [broadcast] is the answer of the gossip sender. *)
Definition broadcast_or_buffer (broadcast : bytes → result unit TransportError) (message : bytes)
    (t : TopicState) : result unit TransportError * TopicState :=
  let '(r, ns) := queue_or_send message (ts_neighbors t) in
  let t := MkTopicState (ts_mailbox t) (ts_slot t) (ts_updates t) ns in
  (let! send_now := r in match send_now with Some m => broadcast m | None => Ok tt end, t).

Inductive Event : Type :=
| Event_NeighborUp (peer : EndpointId)
| Event_NeighborDown (peer : EndpointId)
| Event_Received (content : bytes)
| Event_Lagged.

(** The body of the task that reads the gossip events of a topic: the
    messages it broadcasts and the new state. *)
Definition topic_event (ev : result Event TransportError) (t : TopicState) : list bytes * TopicState :=
  match ev with
  | Ok (Event_NeighborUp peer) => mark_neighbor_up peer t
  | Ok (Event_NeighborDown peer) => ([], mark_neighbor_down peer t)
  | Ok (Event_Received content) =>
      let t := record_mailbox content t in
      ([], match decode_slot_frame content with
           | Some (version, sealed) => record_slot version sealed t
           | None => t
           end)
  | Ok Event_Lagged => ([], t)
  | Err _ | Panic => ([], t)
  end.

(** [recv_mailbox]: [wake n] is what the other tasks did to the topic before
    the notification of the [n]-th wait, or [None] at the deadline; no result
    after [fuel] rounds is a call that still waits. *)
Fixpoint recv_mailbox (fuel n : nat) (wait_is_zero : bool) (wake : nat → option (TopicState → TopicState))
    (t : TopicState) : option (result (option bytes) TransportError) * TopicState :=
  match ts_mailbox t with
  | sealed :: rest =>
      (Some (Ok (Some sealed)), MkTopicState rest (ts_slot t) (ts_updates t) (ts_neighbors t))
  | [] =>
      if wait_is_zero then (Some (Ok None), t)
      else match wake n, fuel with
           | None, _ => (Some (Ok None), t)
           | Some _, O => (None, t)
           | Some f, S fuel => recv_mailbox fuel (S n) wait_is_zero wake (f t)
           end
  end.

(** ** Broadcasts in flight *)

(** A topic with its tasks that hand messages to the gossip sender: the task
    spawned by [mark_neighbor_up] for the messages it drained, and each call
    of [broadcast_or_buffer] that was told to send at once.  A task is the
    messages it was given and those it has not handed over yet; [nr_log] is
    every call of [broadcast] in order, with its task, its message and whether
    it succeeded; [nr_accepted] the messages that were not refused, in
    order. *)
Record neighbor_run : Type := MkNeighborRun {
  nr_topic : TopicState;
  nr_tasks : list (list bytes * list bytes);
  nr_log : list (nat * bytes * bool);
  nr_accepted : list bytes
}.

Definition neighbor_start (ns : gset EndpointId) : neighbor_run := MkNeighborRun (TopicState_new ns) [] [] [].

(** A gossip event, the critical section of a send, or a task's call of
    [broadcast] with its answer. *)
Inductive neighbor_op : Type :=
| NeighborEvent (ev : result Event TransportError)
| NeighborSend (message : bytes)
| NeighborRun (task : nat) (ok : bool).

Definition set_neighbors (ns : NeighborState) (t : TopicState) : TopicState :=
  MkTopicState (ts_mailbox t) (ts_slot t) (ts_updates t) ns.

Definition neighbor_step (r : neighbor_run) (op : neighbor_op) : neighbor_run :=
  match op with
  | NeighborEvent ev =>
      let '(pending, t) := topic_event ev (nr_topic r) in
      MkNeighborRun t (match pending with [] => nr_tasks r | _ => nr_tasks r ++ [(pending, pending)] end)
        (nr_log r) (nr_accepted r)
  | NeighborSend message =>
      match queue_or_send message (ts_neighbors (nr_topic r)) with
      | (Ok (Some m), ns) =>
          MkNeighborRun (set_neighbors ns (nr_topic r)) (nr_tasks r ++ [([m], [m])]) (nr_log r)
            (nr_accepted r ++ [message])
      | (Ok None, ns) =>
          MkNeighborRun (set_neighbors ns (nr_topic r)) (nr_tasks r) (nr_log r) (nr_accepted r ++ [message])
      | (_, ns) => MkNeighborRun (set_neighbors ns (nr_topic r)) (nr_tasks r) (nr_log r) (nr_accepted r)
      end
  | NeighborRun k ok =>
      match nr_tasks r !! k with
      | Some (given, m :: rest) =>
          MkNeighborRun (nr_topic r) (<[k := (given, rest)]> (nr_tasks r)) (nr_log r ++ [(k, m, ok)]) (nr_accepted r)
      | _ => r
      end
  end.

(** The messages a task has handed over, successfully or not. *)
Definition attempts (k : nat) (log : list (nat * bytes * bool)) : list bytes :=
  filter_map (λ x, if decide (x.1.1 = k) then Some x.1.2 else None) log.

(** ** The transport *)

(** [ii_topics] maps a channel id to a topic of [ii_heap], which holds every
    topic ever created; [ii_lookup] is what the address book was given. *)
Record IrohInner : Type := MkIrohInner {
  ii_endpoint_id : bytes;
  ii_lookup : list EndpointAddr;
  ii_peers : list IrohEndpointAddr;
  ii_allowed_endpoints : option (gset EndpointId);
  ii_topics : gmap bytes nat;
  ii_heap : list TopicState
}.

Definition set_peers (ps : list IrohEndpointAddr) (i : IrohInner) : IrohInner :=
  MkIrohInner (ii_endpoint_id i) (ii_lookup i) ps (ii_allowed_endpoints i) (ii_topics i) (ii_heap i).

Definition set_allowed (a : option (gset EndpointId)) (i : IrohInner) : IrohInner :=
  MkIrohInner (ii_endpoint_id i) (ii_lookup i) (ii_peers i) a (ii_topics i) (ii_heap i).

Definition set_topics (ts : gmap bytes nat) (heap : list TopicState) (i : IrohInner) : IrohInner :=
  MkIrohInner (ii_endpoint_id i) (ii_lookup i) (ii_peers i) (ii_allowed_endpoints i) ts heap.

(** [find] on the endpoint id, then replace or push. *)
Fixpoint upsert_peer (peer : IrohEndpointAddr) (ps : list IrohEndpointAddr) : list IrohEndpointAddr :=
  match ps with
  | [] => [peer]
  | p :: ps =>
      if decide (endpoint_id p = endpoint_id peer) then peer :: ps else p :: upsert_peer peer ps
  end.

(** The topics that are told to join the new peer come second. *)
Definition add_peer_addr (peer : IrohEndpointAddr) (i : IrohInner)
    : IrohInner * list (nat * EndpointId) :=
  let lookup := match endpoint_addr peer with Ok a => ii_lookup i ++ [a] | _ => ii_lookup i end in
  let i' := MkIrohInner (ii_endpoint_id i) lookup (upsert_peer peer (ii_peers i)) (ii_allowed_endpoints i)
              (ii_topics i) (ii_heap i) in
  (i', match EndpointId_from_bytes (endpoint_id peer) with
       | Some e => map (λ kt, (kt.2, e)) (map_to_list (ii_topics i))
       | None => []
       end).

Definition add_peer (peer : IrohEndpointAddr) (i : IrohInner) : IrohInner * list (nat * EndpointId) :=
  add_peer_addr peer i.

Definition reset_topics (i : IrohInner) : IrohInner := set_topics ∅ (ii_heap i) i.

Definition remove_peer (id : bytes) (i : IrohInner) : bool * IrohInner :=
  let ps := filter (λ p, endpoint_id p ≠ id) (ii_peers i) in
  let removed := negb (length ps =? length (ii_peers i)) in
  let i := set_peers ps i in
  (removed, if removed then reset_topics i else i).

Definition allow_peer (peer : IrohEndpointAddr) (i : IrohInner) : IrohInner * list (nat * EndpointId) :=
  add_peer_addr peer
    (match ii_allowed_endpoints i, endpoint_id_from_bytes (endpoint_id peer) with
     | Some allowed, Ok e => set_allowed (Some ({[e]} ∪ allowed)) i
     | _, _ => i
     end).

Definition revoke_peer (id : bytes) (i : IrohInner) : IrohInner :=
  let i := match ii_allowed_endpoints i, endpoint_id_from_bytes id with
           | Some allowed, Ok e => set_allowed (Some (allowed ∖ {[e]})) i
           | _, _ => i
           end in
  reset_topics (remove_peer id i).2.

Definition bootstrap_peers (i : IrohInner) : list EndpointId :=
  filter_map (λ p, EndpointId_from_bytes (endpoint_id p)) (ii_peers i).

(** [ensure_topic] up to its first await: the cached topic, the error for a
    bad id, or the call of [subscribe] it makes. *)
Definition ensure_lookup (id : bytes) (i : IrohInner) : result nat TransportError + bytes * list EndpointId :=
  match ii_topics i !! id with
  | Some topic => inl (Ok topic)
  | None =>
      match topic_id id with
      | Err e => inl (Err e)
      | Panic => inl Panic
      | Ok tid => inr (tid, bootstrap_peers i)
      end
  end.

(** From the answer of [subscribe], the topic's first neighbours, to the call
    of [join_peers]: the topic and the peers to join, none when there is no
    call. *)
Definition ensure_insert (id : bytes) (subscribed : result (gset EndpointId) TransportError) (i : IrohInner)
    : result (nat * list EndpointId) TransportError * IrohInner :=
  match subscribed with
  | Err e => (Err e, i)
  | Panic => (Panic, i)
  | Ok initial =>
      let fresh := length (ii_heap i) in
      let '(topic, i) :=
        match ii_topics i !! id with
        | Some topic => (topic, i)
        | None => (fresh, set_topics (<[id := fresh]> (ii_topics i)) (ii_heap i ++ [TopicState_new initial]) i)
        end in
      (Ok (topic, bootstrap_peers i), i)
  end.

(** What the environment does during one [ensure_topic]: the answer of
    [subscribe], the work of other tasks while it is awaited, and the answer
    of [join_peers]. *)
Record topic_env : Type := MkTopicEnv {
  te_subscribe : bytes → list EndpointId → result (gset EndpointId) TransportError;
  te_others : IrohInner → IrohInner;
  te_join : nat → list EndpointId → result unit TransportError
}.

Definition ensure_topic (env : topic_env) (id : bytes) (i : IrohInner)
    : result nat TransportError * IrohInner :=
  match ensure_lookup id i with
  | inl r => (r, i)
  | inr (tid, bootstrap) =>
      let '(r, i) := ensure_insert id (te_subscribe env tid bootstrap) (te_others env i) in
      (let! (topic, peers) := r in
       match peers with
       | [] => Ok topic
       | _ => let! _ := te_join env topic peers in Ok topic
       end, i)
  end.

(** An operation on the topic behind a reference. *)
Definition on_topic {A E} (topic : nat) (f : TopicState → result A E * TopicState) (i : IrohInner)
    : result A E * IrohInner :=
  match ii_heap i !! topic with
  | Some t => let '(r, t) := f t in (r, set_topics (ii_topics i) (<[topic := t]> (ii_heap i)) i)
  | None => (Panic, i)
  end.

Definition iroh_subscribe (env : topic_env) (id : bytes) (i : IrohInner)
    : result unit TransportError * IrohInner :=
  let '(r, i) := ensure_topic env id i in (let! _ := r in Ok tt, i).

Definition iroh_with_topic {A} (env : topic_env) (id : bytes)
    (f : TopicState → result A TransportError * TopicState) (i : IrohInner)
    : result A TransportError * IrohInner :=
  let '(r, i) := ensure_topic env id i in
  match r with
  | Ok topic => on_topic topic f i
  | Err e => (Err e, i)
  | Panic => (Panic, i)
  end.

Definition iroh_send (env : topic_env) (broadcast : bytes → result unit TransportError)
    (id sealed : bytes) (i : IrohInner) : result unit TransportError * IrohInner :=
  iroh_with_topic env id (broadcast_or_buffer broadcast sealed) i.

Definition iroh_recv (env : topic_env) (fuel : nat) (wait_is_zero : bool)
    (wake : nat → option (TopicState → TopicState)) (id : bytes) (i : IrohInner)
    : option (result (option bytes) TransportError) * IrohInner :=
  let '(r, i) := ensure_topic env id i in
  match r with
  | Err e => (Some (Err e), i)
  | Panic => (Some Panic, i)
  | Ok topic =>
      match ii_heap i !! topic with
      | Some t =>
          let '(r, t) := recv_mailbox fuel 0 wait_is_zero wake t in
          (r, set_topics (ii_topics i) (<[topic := t]> (ii_heap i)) i)
      | None => (Some Panic, i)
      end
  end.

Definition iroh_put (env : topic_env) (broadcast : bytes → result unit TransportError)
    (id : bytes) (version : N) (sealed : bytes) (i : IrohInner) : result unit TransportError * IrohInner :=
  iroh_with_topic env id
    (λ t, broadcast_or_buffer broadcast (encode_slot_frame version sealed) (record_slot version sealed t)) i.

Definition iroh_get (env : topic_env) (id : bytes) (i : IrohInner)
    : result (option (N * bytes)) TransportError * IrohInner :=
  iroh_with_topic env id (λ t, (Ok (current_slot t), t)) i.

(** ** Calls in flight *)

(** Where a call of [ensure_topic] is: awaiting [subscribe], awaiting
    [join_peers], or returned. *)
Inductive ensure_pc : Type :=
| EnsureSubscribing (tid : bytes) (bootstrap : list EndpointId)
| EnsureJoining (topic : nat) (peers : list EndpointId)
| EnsureDone (r : result nat TransportError).

(** The transport and every call of [ensure_topic] made so far, each with its
    channel id. *)
Record table_run : Type := MkTableRun {
  tr_inner : IrohInner;
  tr_calls : list (bytes * ensure_pc)
}.

(** A call starts, an awaited answer arrives, someone works on a topic behind
    a reference, or the set of peers is changed. *)
Inductive table_op : Type :=
| TableEnsure (id : bytes)
| TableSubscribed (call : nat) (answer : result (gset EndpointId) TransportError)
| TableJoined (call : nat) (answer : result unit TransportError)
| TableTopic (topic : nat) (f : TopicState → TopicState)
| TableAdd (peer : IrohEndpointAddr)
| TableRemove (id : bytes)
| TableAllow (peer : IrohEndpointAddr)
| TableRevoke (id : bytes).

Definition ensure_start (id : bytes) (i : IrohInner) : ensure_pc :=
  match ensure_lookup id i with
  | inl r => EnsureDone r
  | inr (tid, bootstrap) => EnsureSubscribing tid bootstrap
  end.

Definition ensure_resume (r : result (nat * list EndpointId) TransportError) : ensure_pc :=
  match r with
  | Ok (topic, []) => EnsureDone (Ok topic)
  | Ok (topic, peers) => EnsureJoining topic peers
  | Err e => EnsureDone (Err e)
  | Panic => EnsureDone Panic
  end.

Definition on_inner (f : IrohInner → IrohInner) (r : table_run) : table_run :=
  MkTableRun (f (tr_inner r)) (tr_calls r).

Definition table_step (r : table_run) (op : table_op) : table_run :=
  match op with
  | TableEnsure id => MkTableRun (tr_inner r) (tr_calls r ++ [(id, ensure_start id (tr_inner r))])
  | TableSubscribed k answer =>
      match tr_calls r !! k with
      | Some (id, EnsureSubscribing _ _) =>
          let '(res, i) := ensure_insert id answer (tr_inner r) in
          MkTableRun i (<[k := (id, ensure_resume res)]> (tr_calls r))
      | _ => r
      end
  | TableJoined k answer =>
      match tr_calls r !! k with
      | Some (id, EnsureJoining topic _) =>
          MkTableRun (tr_inner r) (<[k := (id, EnsureDone (let! _ := answer in Ok topic))]> (tr_calls r))
      | _ => r
      end
  | TableTopic topic f =>
      on_inner (λ i, set_topics (ii_topics i) (alter f topic (ii_heap i)) i) r
  | TableAdd peer => on_inner (λ i, (add_peer peer i).1) r
  | TableRemove id => on_inner (λ i, (remove_peer id i).2) r
  | TableAllow peer => on_inner (λ i, (allow_peer peer i).1) r
  | TableRevoke id => on_inner (revoke_peer id) r
  end.

(** The topic a call got, with its channel. *)
Definition call_topic (r : table_run) (k : nat) : option (bytes * nat) :=
  match tr_calls r !! k with
  | Some (id, EnsureJoining topic _) | Some (id, EnsureDone (Ok topic)) => Some (id, topic)
  | _ => None
  end.

(** The peers a call that has not returned asked the gossip engine for. *)
Definition call_peers (r : table_run) (k : nat) : list EndpointId :=
  match tr_calls r !! k with
  | Some (_, EnsureSubscribing _ peers) | Some (_, EnsureJoining _ peers) => peers
  | _ => []
  end.

(** The endpoint that an operation dropped_peer: a revoked one, or a removed one that
    was among the peers. *)
Definition dropped_peer (op : table_op) (i : IrohInner) : option bytes :=
  match op with
  | TableRevoke id => Some id
  | TableRemove id => if existsb (λ p, bool_decide (endpoint_id p = id)) (ii_peers i) then Some id else None
  | _ => None
  end.

Definition added_peer (op : table_op) : option bytes :=
  match op with TableAdd peer | TableAllow peer => Some (endpoint_id peer) | _ => None end.

(** ** Opening *)

(** [add_endpoint_info] for every configured peer. *)
Definition lookup_of (ps : list IrohEndpointAddr) : result (list EndpointAddr) TransportError :=
  map_result endpoint_addr ps.

Definition allowed_of (ids : list bytes) : result (gset EndpointId) TransportError :=
  let! es := map_result endpoint_id_from_bytes ids in Ok (list_to_set es).

Record ConnLimitHook : Type := MkConnLimitHook {
  max_conns : N;
  active : gmap EndpointId N
}.

(** [iroh::RelayMode]. *)
Inductive RelayMode : Type :=
| RelayMode_Default
| RelayMode_Custom (urls : list Url)
| RelayMode_Disabled.

Definition iroh_relay_mode (mode : IrohRelayMode) : RelayMode :=
  match mode with
  | IrohRelayMode_Default => RelayMode_Default
  | IrohRelayMode_Custom urls => RelayMode_Custom urls
  | IrohRelayMode_Disabled => RelayMode_Disabled
  end.

(** What [bind_endpoint] sets on the builder; without [eb_ips] the endpoint
    keeps the IP transports the library binds by itself. *)
Record EndpointBuilder : Type := MkEndpointBuilder {
  eb_secret_key : bytes;
  eb_lookup : list EndpointAddr;
  eb_relay_mode : RelayMode;
  eb_bidi_streams : N;
  eb_uni_streams : N;
  eb_hook : ConnLimitHook;
  eb_ips : option (list SocketAddr)
}.

(** What [bind_addr] and [bind] of the library answer. *)
Record endpoint_lib : Type := MkEndpointLib {
  el_bind_addr : SocketAddr → result unit bytes;
  el_bind : EndpointBuilder → result unit bytes
}.

Definition add_bind_addr (lib : endpoint_lib) (b : EndpointBuilder) (addr : SocketAddr)
    : result EndpointBuilder TransportError :=
  let! _ := map_err TransportError_Other (el_bind_addr lib addr) in
  Ok (MkEndpointBuilder (eb_secret_key b) (eb_lookup b) (eb_relay_mode b) (eb_bidi_streams b) (eb_uni_streams b)
        (eb_hook b) ((λ l, l ++ [addr]) <$> eb_ips b)).

(** The native [bind_endpoint]; the set of allowed endpoints of the hook is
    the one of the transport. *)
Definition bind_endpoint (lib : endpoint_lib) (config : IrohConfig) (secret_key : bytes) (lookup : list EndpointAddr)
    : result EndpointBuilder TransportError :=
  let stream_cap := max_streams_per_peer config in
  let conn_limit := MkConnLimitHook (max_conns_per_peer config) ∅ in
  let builder ips :=
    MkEndpointBuilder secret_key lookup (iroh_relay_mode (relay_mode config)) stream_cap stream_cap conn_limit ips in
  let! b := match bind_addrs config with
            | [] => Ok (builder None)
            | addrs => foldl_result (add_bind_addr lib) (builder (Some [])) addrs
            end in
  let! _ := map_err TransportError_Other (el_bind lib b) in
  Ok b.

Section Open.
Context {S : Type} {ST : StateStore S}.

(** [generated] is the key [SecretKey::generate] draws. *)
Definition new_with_allowed_endpoints (generated : bytes) (lib : endpoint_lib)
    (config : IrohConfig) (allowed : option (list bytes)) (st : S) : result IrohInner IrohInitError * S :=
  let '(secret, st) :=
    match iroh_keypair st with
    | Err e => (Err (IrohInitError_State e), st)
    | Panic => (Panic, st)
    | Ok (Some secret) => (Ok secret, st)
    | Ok None =>
        let '(r, st) := store_iroh_keypair generated st in
        (let! _ := map_err IrohInitError_State r in Ok generated, st)
    end in
  (let! secret := secret in
   let! lookup := map_err IrohInitError_Transport (lookup_of (peers config)) in
   let! allowed := map_err IrohInitError_Transport
                     (match allowed with
                      | None => Ok None
                      | Some ids => let! s := allowed_of ids in Ok (Some s)
                      end) in
   let! _ := map_err IrohInitError_Transport (bind_endpoint lib config secret lookup) in
   Ok (MkIrohInner (EndpointId_as_bytes (iroh_public secret)) lookup (peers config) allowed ∅ []), st).

Definition IrohTransport_new (generated : bytes) (lib : endpoint_lib) (config : IrohConfig)
    (st : S) : result IrohInner IrohInitError * S :=
  new_with_allowed_endpoints generated lib config None st.
End Open.

(** ** The connection gate *)

Inductive AfterHandshakeOutcome : Type :=
| Accept
| Reject (error_code : N) (reason : bytes).

(** [allowed] is the set shared with the transport at that moment. *)
Definition after_handshake (allowed : option (gset EndpointId)) (peer : EndpointId) (h : ConnLimitHook)
    : AfterHandshakeOutcome * ConnLimitHook :=
  if match allowed with Some a => bool_decide (peer ∉ a) | None => false end
  then (Reject 403 (lit "endpoint not trusted"), h)
  else
    let count := default 0%N (active h !! peer) in
    if (max_conns h <=? count)%N
    then (Reject 0 (lit "too many connections"), MkConnLimitHook (max_conns h) (<[peer := count]> (active h)))
    else (Accept, MkConnLimitHook (max_conns h) (<[peer := (count + 1)%N]> (active h))).

(** The task spawned for an accepted connection, once it has closed. *)
Definition conn_closed (peer : EndpointId) (h : ConnLimitHook) : ConnLimitHook :=
  match active h !! peer with
  | None => h
  | Some count =>
      let count := (count - 1)%N in
      MkConnLimitHook (max_conns h)
        (if (count =? 0)%N then delete peer (active h) else <[peer := count]> (active h))
  end.

(** ** Watching a slot *)

(** Where the task of [watch] is suspended. *)
Inductive watch_pc : Type :=
| WatchStart                                        (** before [current_slot] *)
| WatchFirst (version : N) (sealed : bytes)         (** sending the current value *)
| WatchSubscribe                                    (** before [subscribe()] *)
| WatchRecv (pos : nat)                             (** [updates.recv().await] *)
| WatchSend (pos : nat) (version : N) (sealed : bytes)
| WatchEnded.

(** [iw_sent] records everything sent so far.  The task holds the topic, whose
    state holds a sender of the update channel: [updates.recv] is never told
    that the channel is closed. *)
Record iroh_watch : Type := MkIrohWatch {
  iw_topic : TopicState;
  iw_pc : watch_pc;
  iw_since : N;
  iw_queue : list (N * bytes);
  iw_rx_open : bool;
  iw_sent : list (N * bytes)
}.

Definition iroh_watch_start (t : TopicState) (since : N) : iroh_watch :=
  MkIrohWatch t WatchStart since [] true [].

(** A stream that yields the error of [ensure_topic] and ends, or the task. *)
Definition iroh_watch_open (env : topic_env) (id : bytes) (since : N) (i : IrohInner)
    : result iroh_watch TransportError * IrohInner :=
  iroh_with_topic env id (λ t, (Ok (iroh_watch_start t since), t)) i.

Definition set_pc (p : watch_pc) (w : iroh_watch) : iroh_watch :=
  MkIrohWatch (iw_topic w) p (iw_since w) (iw_queue w) (iw_rx_open w) (iw_sent w).

Definition set_since (p : watch_pc) (since : N) (w : iroh_watch) : iroh_watch :=
  MkIrohWatch (iw_topic w) p since (iw_queue w) (iw_rx_open w) (iw_sent w).

(** [tx.send(..).await]: waits while the buffer is full, ends the task when
    the receiver is gone. *)
Definition watch_tx_send (v : N * bytes) (next : watch_pc) (w : iroh_watch) : option iroh_watch :=
  if iw_rx_open w then
    if length (iw_queue w) <? IROH_WATCH_BUFFER
    then Some (MkIrohWatch (iw_topic w) next (iw_since w) (iw_queue w ++ [v]) (iw_rx_open w) (iw_sent w ++ [v]))
    else None
  else Some (set_pc WatchEnded w).

(** [updates.recv()]: the oldest retained update, after skipping the ones the
    channel has dropped. *)
Definition watch_update (pos : nat) (w : iroh_watch) : option iroh_watch :=
  let log := ts_updates (iw_topic w) in
  let oldest := length log - IROH_WATCH_BUFFER in
  if pos <? oldest then Some (set_pc (WatchRecv oldest) w)
  else match log !! pos with
       | None => None
       | Some (version, sealed) =>
           if (iw_since w <? version)%N
           then Some (set_since (WatchSend (Datatypes.S pos) version sealed) version w)
           else Some (set_pc (WatchRecv (Datatypes.S pos)) w)
       end.

Definition watch_run (w : iroh_watch) : option iroh_watch :=
  match iw_pc w with
  | WatchStart =>
      match current_slot (iw_topic w) with
      | Some (version, sealed) =>
          if (iw_since w <? version)%N then Some (set_since (WatchFirst version sealed) version w)
          else Some (set_pc WatchSubscribe w)
      | None => Some (set_pc WatchSubscribe w)
      end
  | WatchFirst version sealed => watch_tx_send (version, sealed) WatchSubscribe w
  | WatchSubscribe => Some (set_pc (WatchRecv (length (ts_updates (iw_topic w)))) w)
  | WatchRecv pos => watch_update pos w
  | WatchSend pos version sealed => watch_tx_send (version, sealed) (WatchRecv pos) w
  | WatchEnded => None
  end.

(** The events of a watch: another task acts on the topic, the task of the
    watch moves, the consumer takes a value or goes away. *)
Inductive watch_ev : Type :=
| WatchTopic (ev : result Event TransportError)
| WatchPut (version : N) (sealed : bytes)
| WatchRun
| WatchTake
| WatchDrop.

Definition set_topic (t : TopicState) (w : iroh_watch) : iroh_watch :=
  MkIrohWatch t (iw_pc w) (iw_since w) (iw_queue w) (iw_rx_open w) (iw_sent w).

Definition iroh_watch_step (ev : watch_ev) (w : iroh_watch) : option iroh_watch :=
  match ev with
  | WatchTopic ev => Some (set_topic (topic_event ev (iw_topic w)).2 w)
  | WatchPut version sealed => Some (set_topic (record_slot version sealed (iw_topic w)) w)
  | WatchRun => watch_run w
  | WatchTake =>
      match iw_queue w with
      | _ :: q => Some (MkIrohWatch (iw_topic w) (iw_pc w) (iw_since w) q (iw_rx_open w) (iw_sent w))
      | [] => None
      end
  | WatchDrop => Some (MkIrohWatch (iw_topic w) (iw_pc w) (iw_since w) [] false (iw_sent w))
  end.

Inductive iroh_watch_reach (t : TopicState) (since : N) : iroh_watch → Prop :=
| iwr_start : iroh_watch_reach t since (iroh_watch_start t since)
| iwr_step ev w w' :
    iroh_watch_reach t since w → iroh_watch_step ev w = Some w' → iroh_watch_reach t since w'.
End Iroh.

(** ** Lemmas: slot frames and the slot register *)

Lemma decode_encode_slot_frame version sealed :
  (version < 2 ^ 64)%N → decode_slot_frame (encode_slot_frame version sealed) = Some (version, sealed).
Proof.
  intros Hv. unfold decode_slot_frame, encode_slot_frame.
  rewrite length_app, length_to_be_bytes. destruct (Nat.ltb_spec (SLOT_HEADER_LEN + length sealed) SLOT_HEADER_LEN); [lia |].
  rewrite take_app_length', drop_app_length' by (symmetry; apply length_to_be_bytes).
  by rewrite from_to_be_bytes.
Qed.

(** [b] is the largest pair of [l]. *)
Definition is_newest (l : list (N * bytes)) (b : option (N * bytes)) : Prop :=
  match b with
  | None => l = []
  | Some p => p ∈ l ∧ ∀ q, q ∈ l → pair_le q p
  end.

Lemma is_newest_unique l l' b b' :
  (∀ p, p ∈ l ↔ p ∈ l') → is_newest l b → is_newest l' b' → b = b'.
Proof.
  intros Hl. destruct b as [p|], b' as [q|]; cbn.
  - intros [Hp Hmax] [Hq Hmax']. f_equal. apply pair_ltb_total.
    + apply Hmax. by apply Hl.
    + apply Hmax'. by apply Hl.
  - intros [Hp _] ->. apply Hl in Hp. by apply not_elem_of_nil in Hp.
  - intros -> [Hq _]. apply Hl in Hq. by apply not_elem_of_nil in Hq.
  - done.
Qed.

Section Topics.
Context `{IL : IrohLib}.

Lemma record_slot_newest l version sealed (t : TopicState) :
  is_newest l (ts_slot t) → is_newest (l ++ [(version, sealed)]) (ts_slot (record_slot version sealed t)).
Proof.
  unfold record_slot. destruct (ts_slot t) as [[v s]|] eqn:E; cbn.
  - intros [Hin Hmax]. destruct (pair_ltb (v, s) (version, sealed)) eqn:L; cbn [negb ts_slot is_newest].
    + split; [set_solver |]. intros q [Hq| ->%list_elem_of_singleton]%elem_of_app; [| apply pair_le_refl].
      eapply pair_le_trans; [by apply Hmax |]. by apply pair_ltb_asym.
    + rewrite E. cbn. split; [set_solver |].
      intros q [Hq| ->%list_elem_of_singleton]%elem_of_app; [by apply Hmax | done].
  - intros ->. split; [set_solver |]. intros q ->%list_elem_of_singleton. apply pair_le_refl.
Qed.

(** The contents a list of gossip events delivers. *)
Definition received (evs : list (result Event TransportError)) : list bytes :=
  filter_map (λ ev, match ev with Ok (Event_Received c) => Some c | _ => None end) evs.

Definition topic_run (evs : list (result Event TransportError)) (t : TopicState) : TopicState :=
  foldl (λ t ev, (topic_event ev t).2) t evs.

Lemma mark_neighbor_up_keeps peer (t : TopicState) :
  ts_mailbox (mark_neighbor_up peer t).2 = ts_mailbox t ∧ ts_slot (mark_neighbor_up peer t).2 = ts_slot t
  ∧ ts_updates (mark_neighbor_up peer t).2 = ts_updates t.
Proof. unfold mark_neighbor_up. by destruct (mark_up peer (ts_neighbors t)). Qed.

Lemma record_slot_mailbox version sealed (t : TopicState) :
  ts_mailbox (record_slot version sealed t) = ts_mailbox t.
Proof. unfold record_slot. by destruct (match ts_slot t with Some _ => _ | None => _ end). Qed.

Lemma topic_run_snoc evs ev t : topic_run (evs ++ [ev]) t = (topic_event ev (topic_run evs t)).2.
Proof. unfold topic_run. by rewrite foldl_app. Qed.

Lemma topic_run_spec evs ns :
  let t := topic_run evs (TopicState_new ns) in
  ts_mailbox t = received evs ∧ is_newest (filter_map decode_slot_frame (received evs)) (ts_slot t).
Proof.
  cbv zeta. induction evs as [|ev evs [IHm IHs]] using rev_ind; [done |].
  rewrite topic_run_snoc. unfold received in *. rewrite filter_map_app.
  destruct ev as [[peer|peer|content|]|e|]; cbn [topic_event filter_map snd]; rewrite ?app_nil_r; try done.
  - pose proof (mark_neighbor_up_keeps peer (topic_run evs (TopicState_new ns))) as (-> & -> & _). done.
  - rewrite filter_map_app. cbn [filter_map].
    destruct (decode_slot_frame content) as [[version sealed]|]; rewrite ?app_nil_r.
    + rewrite record_slot_mailbox. cbn [record_mailbox ts_mailbox]. split; [by rewrite IHm |].
      by apply record_slot_newest.
    + cbn [record_mailbox ts_mailbox ts_slot]. by rewrite IHm.
Qed.

(** ** Lemmas: the queue of broadcasts *)

Record neighbor_inv (r : neighbor_run) : Prop := {
  ni_order : nr_accepted r = concat (nr_tasks r).*1 ++ pending_broadcasts (ts_neighbors (nr_topic r));
  ni_tasks : ∀ k given rest, nr_tasks r !! k = Some (given, rest) → attempts k (nr_log r) ++ rest = given;
  ni_log : ∀ k m ok, (k, m, ok) ∈ nr_log r → k < length (nr_tasks r);
  ni_bound : length (pending_broadcasts (ts_neighbors (nr_topic r))) ≤ MAX_PENDING_BROADCASTS;
  ni_idle : neighbors (ts_neighbors (nr_topic r)) ≠ ∅ → pending_broadcasts (ts_neighbors (nr_topic r)) = []
}.

Lemma attempts_snoc k log x :
  attempts k (log ++ [x]) = attempts k log ++ (if decide (x.1.1 = k) then [x.1.2] else []).
Proof.
  unfold attempts. rewrite filter_map_app. f_equal. cbn. by destruct (decide (x.1.1 = k)).
Qed.

Lemma attempts_later k log : (∀ k' m ok, (k', m, ok) ∈ log → k' < k) → attempts k log = [].
Proof.
  intros H. unfold attempts. destruct (filter_map _ log) as [|m l] eqn:E; [done |].
  assert (m ∈ filter_map (λ x : nat * bytes * bool, if decide (x.1.1 = k) then Some x.1.2 else None) log) as Hm
    by (rewrite E; left).
  apply elem_of_filter_map in Hm as ([[k' m'] ok] & Hin & Hk). cbn in Hk.
  apply H in Hin. destruct (decide (k' = k)); [lia | done].
Qed.

(** A task is added with the messages that leave the queue or pass it by. *)
Lemma neighbor_spawn r given t accepted :
  neighbor_inv r → nr_accepted r = concat (nr_tasks r).*1 ++ pending_broadcasts (ts_neighbors (nr_topic r)) →
  accepted = concat (nr_tasks r).*1 ++ given → pending_broadcasts (ts_neighbors t) = [] →
  neighbor_inv (MkNeighborRun t (nr_tasks r ++ [(given, given)]) (nr_log r) accepted).
Proof.
  intros [_ Ht Hl _ _] Ho -> Hp. split; cbn [nr_tasks nr_log nr_topic nr_accepted]; rewrite ?Hp; [| | | cbn; lia | done].
  - rewrite fmap_app, concat_app. cbn. by rewrite !app_nil_r.
  - intros k g rest [Hk|[Hk Hn]]%lookup_app_Some; [by eapply Ht |].
    destruct (k - length (nr_tasks r)) as [|x] eqn:Hx; [| done]. injection Hn as <- <-.
    rewrite attempts_later; [done |]. intros k' m ok H%Hl. lia.
  - intros k m ok H%Hl. rewrite length_app. lia.
Qed.

Lemma neighbor_quiet r t accepted :
  neighbor_inv r → accepted = concat (nr_tasks r).*1 ++ pending_broadcasts (ts_neighbors t) →
  length (pending_broadcasts (ts_neighbors t)) ≤ MAX_PENDING_BROADCASTS →
  (neighbors (ts_neighbors t) ≠ ∅ → pending_broadcasts (ts_neighbors t) = []) →
  neighbor_inv (MkNeighborRun t (nr_tasks r) (nr_log r) accepted).
Proof. by intros [_ Ht Hl _ _] -> Hb Hi. Qed.

Lemma topic_event_neighbors ev t :
  (topic_event ev t).1 = [] ∧ ts_neighbors (topic_event ev t).2 = ts_neighbors t
  ∨ (∃ peer, ev = Ok (Event_NeighborDown peer) ∧ topic_event ev t = ([], set_neighbors (mark_down peer (ts_neighbors t)) t))
  ∨ (∃ peer, ev = Ok (Event_NeighborUp peer)
      ∧ topic_event ev t = ((mark_up peer (ts_neighbors t)).1, set_neighbors (mark_up peer (ts_neighbors t)).2 t)).
Proof.
  destruct ev as [[peer|peer|content|]|e|]; cbn [topic_event]; try (by left).
  - right. right. exists peer. split; [done |]. unfold mark_neighbor_up. by destruct (mark_up peer (ts_neighbors t)).
  - right. left. by exists peer.
  - left. split; [done |]. cbn [snd]. destruct (decode_slot_frame content) as [[v b]|]; [| done].
    unfold record_slot. by destruct (match ts_slot _ with Some _ => _ | None => _ end).
Qed.

Lemma neighbor_event_inv r ev : neighbor_inv r → neighbor_inv (neighbor_step r (NeighborEvent ev)).
Proof.
  intros Hr. pose proof Hr as [Ho _ _ Hb Hi]. cbn [neighbor_step].
  destruct (topic_event_neighbors ev (nr_topic r)) as [[H1 H2]|[(peer & -> & ->)|(peer & -> & ->)]].
  - destruct (topic_event ev (nr_topic r)) as [out t]. cbn [fst snd] in *. subst out. apply neighbor_quiet; by rewrite ?H2.
  - apply neighbor_quiet; cbn; [done .. |]. intros Hn. apply Hi. set_solver.
  - unfold mark_up. case_bool_decide as Hn; cbn [fst snd].
    + destruct (pending_broadcasts (ts_neighbors (nr_topic r))) as [|m l] eqn:E.
      * apply neighbor_quiet; cbn; [done | done | lia | done].
      * by apply neighbor_spawn; rewrite ?E.
    + apply neighbor_quiet; cbn; [done .. |]. intros _. by apply Hi.
Qed.

Lemma neighbor_send_inv r m : neighbor_inv r → neighbor_inv (neighbor_step r (NeighborSend m)).
Proof.
  intros Hr. pose proof Hr as [Ho _ _ Hb Hi]. cbn [neighbor_step]. unfold queue_or_send.
  case_bool_decide as Hn; cbn [negb].
  - destruct (Nat.leb_spec MAX_PENDING_BROADCASTS (length (pending_broadcasts (ts_neighbors (nr_topic r))))).
    + by apply neighbor_quiet.
    + apply neighbor_quiet; cbn; [done | by rewrite Ho, app_assoc | rewrite length_app; cbn; lia | done].
  - apply neighbor_spawn; [done | done | | by apply Hi]. by rewrite Ho, (Hi Hn), app_nil_r.
Qed.

Lemma neighbor_run_inv r k ok : neighbor_inv r → neighbor_inv (neighbor_step r (NeighborRun k ok)).
Proof.
  intros Hr. pose proof Hr as [Ho Ht Hl Hb Hi]. cbn [neighbor_step].
  destruct (nr_tasks r !! k) as [[given [|m rest]]|] eqn:E; [done | | done].
  split; cbn [nr_tasks nr_log nr_topic nr_accepted]; [| | | done ..].
  - by rewrite list_fmap_insert, list_insert_id by (by rewrite list_lookup_fmap, E).
  - intros k' g l. rewrite attempts_snoc. cbn [fst snd]. destruct (decide (k = k')) as [<-|Hne].
    + rewrite list_lookup_insert_eq by (by eapply lookup_lt_Some). intros [= <- <-].
      rewrite <- (Ht k given (m :: rest) E). by rewrite <- app_assoc.
    + rewrite list_lookup_insert_ne by done. rewrite app_nil_r. apply Ht.
  - intros k' m' ok'. rewrite length_insert. intros [H|H%list_elem_of_singleton]%elem_of_app; [by eapply Hl |].
    injection H as -> _ _. by eapply lookup_lt_Some.
Qed.

Lemma neighbor_reach_inv ns ops : neighbor_inv (foldl neighbor_step (neighbor_start ns) ops).
Proof.
  induction ops as [|op ops IH] using rev_ind.
  - split; cbn [nr_tasks nr_log nr_topic nr_accepted neighbor_start TopicState_new ts_neighbors NeighborState_new pending_broadcasts]; try done.
    + by intros k m ok ?%not_elem_of_nil.
    + unfold MAX_PENDING_BROADCASTS. cbn. lia.
  - rewrite foldl_app. destruct op; [by apply neighbor_event_inv | by apply neighbor_send_inv | by apply neighbor_run_inv].
Qed.
End Topics.

(** ** Lemmas: the connection gate *)

Section Connections.
Context `{UL : UrlLib} `{IL : IrohLib}.

(** Accepted connections of a peer that are still open. *)
Definition conns (peer : EndpointId) (open : list EndpointId) : N :=
  N.of_nat (length (filter (λ p, p = peer) open)).

(** The hook and the peers of the open connections, under every order of
    handshakes and closed connections. *)
Inductive conn_reach (h0 : ConnLimitHook) : ConnLimitHook → list EndpointId → Prop :=
| cr_start : conn_reach h0 h0 []
| cr_handshake allowed peer h open o h' :
    conn_reach h0 h open → after_handshake allowed peer h = (o, h') →
    conn_reach h0 h' (match o with Accept => peer :: open | Reject _ _ => open end)
| cr_closed peer h open1 open2 :
    conn_reach h0 h (open1 ++ peer :: open2) → conn_reach h0 (conn_closed peer h) (open1 ++ open2).

Lemma conns_cons peer p open : conns peer (p :: open) = (conns peer open + if decide (p = peer) then 1 else 0)%N.
Proof. unfold conns. rewrite filter_cons. destruct (decide (p = peer)); cbn [length]; lia. Qed.

Lemma conns_delete peer p open1 open2 :
  conns peer (open1 ++ p :: open2) = (conns peer (open1 ++ open2) + if decide (p = peer) then 1 else 0)%N.
Proof.
  rewrite <- conns_cons. unfold conns. f_equal. apply Permutation_length. by rewrite Permutation_middle.
Qed.

(** The gate lets [peer] through. *)
Definition permitted (allowed : option (gset EndpointId)) (peer : EndpointId) : Prop :=
  match allowed with Some a => peer ∈ a | None => True end.

#[export] Instance permitted_dec allowed peer : Decision (permitted allowed peer).
Proof. destruct allowed; cbn; apply _. Defined.

Lemma after_handshake_accepts allowed peer h :
  (after_handshake allowed peer h).1 = Accept ↔
  permitted allowed peer ∧ (default 0 (active h !! peer) < max_conns h)%N.
Proof.
  unfold after_handshake, permitted. destruct allowed as [a|]; [case_bool_decide |];
    try (split; [done | by intros [? _]]);
    destruct (N.leb_spec (max_conns h) (default 0%N (active h !! peer))); cbn; split;
    try done; try (intros [_ ?]; lia); intros _; split; try done; try lia.
Qed.

Lemma after_handshake_counts allowed peer h p :
  let '(o, h') := after_handshake allowed peer h in
  max_conns h' = max_conns h
  ∧ default 0%N (active h' !! p)
    = (default 0%N (active h !! p)
       + match o with Accept => if decide (peer = p) then 1 else 0 | Reject _ _ => 0 end)%N.
Proof.
  unfold after_handshake. destruct (match allowed with Some _ => _ | None => _ end); [split; [done | lia] |].
  destruct (N.leb_spec (max_conns h) (default 0%N (active h !! peer))); (split; [done |]); cbn [active];
    destruct (decide (peer = p)) as [->|Hne]; rewrite ?lookup_insert_eq, ?lookup_insert_ne by done; cbn; lia.
Qed.

Lemma conn_closed_counts peer h p :
  max_conns (conn_closed peer h) = max_conns h
  ∧ default 0%N (active (conn_closed peer h) !! p)
    = (default 0%N (active h !! p) - if decide (peer = p) then 1 else 0)%N.
Proof.
  unfold conn_closed. destruct (active h !! peer) as [count|] eqn:E.
  - split; [done |]. cbn [active]. destruct (N.eqb_spec (count - 1) 0);
      destruct (decide (peer = p)) as [->|Hne];
      rewrite ?lookup_delete_eq, ?lookup_delete_ne, ?lookup_insert_eq, ?lookup_insert_ne, ?E by done; cbn; lia.
  - split; [done |]. destruct (decide (peer = p)) as [->|Hne]; rewrite ?E; cbn; lia.
Qed.

Lemma conn_reach_inv max h open :
  conn_reach (MkConnLimitHook max ∅) h open →
  max_conns h = max ∧ ∀ p, default 0%N (active h !! p) = conns p open ∧ (conns p open ≤ max)%N.
Proof.
  induction 1 as [|allowed peer h open o h' _ [Hm IH] Ho|peer h open1 open2 _ [Hm IH]].
  - split; [done |]. intros p. cbn. rewrite lookup_empty. unfold conns. cbn. lia.
  - pose proof (after_handshake_accepts allowed peer h) as Hacc.
    assert (max_conns h' = max_conns h) as Hm'
      by (pose proof (after_handshake_counts allowed peer h peer) as Hc; rewrite Ho in Hc; apply Hc).
    split; [by rewrite Hm' |]. intros p. destruct (IH p) as [IHp Hle].
    pose proof (after_handshake_counts allowed peer h p) as Hc. rewrite Ho in Hc, Hacc. destruct Hc as [_ ->].
    destruct o; [| split; [lia | done]]. rewrite conns_cons.
    destruct Hacc as [Hacc _]. destruct (Hacc eq_refl) as [_ Hlt].
    split; [by rewrite IHp |]. destruct (decide (peer = p)) as [->|]; lia.
  - pose proof (conn_closed_counts peer h peer) as [Hm' _]. split; [by rewrite Hm' |]. intros p.
    destruct (conn_closed_counts peer h p) as [_ ->]. destruct (IH p) as [-> Hle].
    rewrite conns_delete in *. destruct (decide (peer = p)); lia.
Qed.

Lemma bind_addrs_hook lib addrs b b' :
  foldl_result (add_bind_addr lib) b addrs = Ok b' →
  eb_hook b' = eb_hook b ∧ eb_ips b' = (λ l, l ++ addrs) <$> eb_ips b.
Proof.
  revert b. induction addrs as [|a addrs IH]; intros b; cbn [foldl_result].
  - intros [= <-]. split; [done |]. destruct (eb_ips b) as [l|]; cbn; [by rewrite app_nil_r | done].
  - intros (b1 & Hb1 & H)%rbind_Ok. unfold add_bind_addr in Hb1. apply rbind_Ok in Hb1 as (? & _ & [= <-]).
    apply IH in H as [-> ->]. split; [done |]. cbn [eb_ips]. destruct (eb_ips b) as [l|]; cbn; [| done].
    by rewrite <- app_assoc.
Qed.

(** The endpoint starts with no open connection, the limit of the
    configuration, and exactly the sockets asked for. *)
Lemma bind_endpoint_Ok lib config secret lookup b :
  bind_endpoint lib config secret lookup = Ok b →
  eb_hook b = MkConnLimitHook (max_conns_per_peer config) ∅
  ∧ eb_ips b = match bind_addrs config with [] => None | addrs => Some addrs end.
Proof.
  unfold bind_endpoint. cbv zeta. intros (b1 & Hb & H)%rbind_Ok. apply rbind_Ok in H as (? & _ & [= <-]).
  destruct (bind_addrs config) as [|a l]; [by injection Hb as <- |]. by apply bind_addrs_hook in Hb.
Qed.
End Connections.

(** ** Lemmas: watching a slot *)

Section Watching.
Context `{IL : IrohLib}.
Variables (t0 : TopicState) (since0 : N).

(** The value the task is about to send. *)
Definition sending (p : watch_pc) : list (N * bytes) :=
  match p with WatchFirst v s | WatchSend _ v s => [(v, s)] | _ => [] end.

Record iroh_watch_inv (w : iroh_watch) : Prop := {
  iwi_sorted : StronglySorted N.lt ((iw_sent w ++ sending (iw_pc w)).*1);
  iwi_above : Forall (λ v, since0 < v ≤ iw_since w)%N ((iw_sent w ++ sending (iw_pc w)).*1);
  iwi_since : (since0 ≤ iw_since w)%N;
  iwi_held : ∀ p, p ∈ iw_sent w ++ sending (iw_pc w) → p ∈ option_list (ts_slot t0) ++ ts_updates (iw_topic w);
  iwi_slot : ∀ p, ts_slot (iw_topic w) = Some p → p ∈ option_list (ts_slot t0) ++ ts_updates (iw_topic w);
  iwi_buffer : length (iw_queue w) ≤ IROH_WATCH_BUFFER
}.

(** What the topic held at the start or was sent on its channel. *)
Notation known w := (option_list (ts_slot t0) ++ ts_updates (iw_topic w)).

Lemma record_slot_known version sealed (t : TopicState) :
  (∀ p, ts_slot t = Some p → p ∈ option_list (ts_slot t0) ++ ts_updates t) →
  (∀ p, ts_slot (record_slot version sealed t) = Some p →
        p ∈ option_list (ts_slot t0) ++ ts_updates (record_slot version sealed t))
  ∧ ts_updates t ⊆ ts_updates (record_slot version sealed t).
Proof.
  intros H. unfold record_slot. destruct (match ts_slot t with Some _ => _ | None => _ end); [done |].
  cbn. split; [| set_solver]. intros p [= <-]. set_solver.
Qed.

Lemma topic_event_known ev (t : TopicState) :
  (∀ p, ts_slot t = Some p → p ∈ option_list (ts_slot t0) ++ ts_updates t) →
  (∀ p, ts_slot (topic_event ev t).2 = Some p → p ∈ option_list (ts_slot t0) ++ ts_updates (topic_event ev t).2)
  ∧ ts_updates t ⊆ ts_updates (topic_event ev t).2.
Proof.
  intros H. destruct ev as [[peer|peer|content|]|e|]; cbn [topic_event]; try done.
  - destruct (mark_neighbor_up_keeps peer t) as (_ & -> & ->). done.
  - cbn [snd]. destruct (decode_slot_frame content) as [[v s]|]; [| done].
    by apply (record_slot_known v s (record_mailbox content t)).
Qed.

Lemma iroh_watch_inv_topic t w :
  iroh_watch_inv w → (∀ p, ts_slot t = Some p → p ∈ option_list (ts_slot t0) ++ ts_updates t) →
  ts_updates (iw_topic w) ⊆ ts_updates t → iroh_watch_inv (set_topic t w).
Proof. intros [] Hslot Hsub. split; cbn; try done. intros p Hp. set_solver. Qed.

(** A move of the program counter that sends nothing new. *)
Lemma iroh_watch_inv_pc p w : iroh_watch_inv w → sending p = [] → iroh_watch_inv (set_pc p w).
Proof.
  intros [Hs Ha Hsi Hh Hsl Hb] Hp. split; cbn; rewrite ?Hp, ?app_nil_r; try done.
  - rewrite fmap_app in Hs. by apply StronglySorted_app_1_l in Hs.
  - rewrite fmap_app, Forall_app in Ha. apply Ha.
  - set_solver.
Qed.

(** Choosing a newer value to send. *)
Lemma iroh_watch_inv_choose p version sealed w :
  iroh_watch_inv w → sending (iw_pc w) = [] → sending p = [(version, sealed)] →
  (iw_since w < version)%N → (version, sealed) ∈ known w → iroh_watch_inv (set_since p version w).
Proof.
  intros [Hs Ha Hsi Hh Hsl Hb] Hw Hp Hlt Hin. rewrite Hw, app_nil_r in *.
  split; cbn; rewrite ?Hp, ?fmap_app; try done.
  - apply StronglySorted_app. split_and!; [| done | repeat constructor].
    intros x1 x2 Hx ->%list_elem_of_singleton. rewrite Forall_forall in Ha. specialize (Ha _ Hx). cbn. lia.
  - apply Forall_app. split; [eapply Forall_impl; [exact Ha | cbn; lia] |].
    constructor; [cbn; lia | constructor].
  - lia.
  - intros q [Hq| ->%list_elem_of_singleton]%elem_of_app; [by apply Hh | done].
Qed.

Lemma iroh_watch_inv_send v next w w' :
  iroh_watch_inv w → sending (iw_pc w) = [v] → sending next = [] →
  watch_tx_send v next w = Some w' → iroh_watch_inv w'.
Proof.
  intros Hw Hv Hn. unfold watch_tx_send. destruct (iw_rx_open w).
  - destruct (Nat.ltb_spec (length (iw_queue w)) IROH_WATCH_BUFFER); [| done]. intros [= <-].
    destruct Hw as [Hs Ha Hsi Hh Hsl Hb]. rewrite Hv in *. split; cbn; rewrite ?Hn, ?app_nil_r; try done.
    rewrite length_app. cbn. lia.
  - intros [= <-]. by apply iroh_watch_inv_pc.
Qed.

Lemma iroh_watch_run_inv w w' : iroh_watch_inv w → watch_run w = Some w' → iroh_watch_inv w'.
Proof.
  intros Hw. unfold watch_run. destruct (iw_pc w) as [|v s| |pos|pos v s|] eqn:Hpc.
  - unfold current_slot. destruct (ts_slot (iw_topic w)) as [[v s]|] eqn:Hsl.
    + destruct (N.ltb_spec (iw_since w) v); intros [= <-].
      * apply (iroh_watch_inv_choose (WatchFirst v s) v s w Hw); rewrite ?Hpc; try done.
        by apply (iwi_slot w Hw).
      * by apply iroh_watch_inv_pc.
    + intros [= <-]. by apply iroh_watch_inv_pc.
  - apply iroh_watch_inv_send; rewrite ?Hpc; done.
  - intros [= <-]. by apply iroh_watch_inv_pc.
  - unfold watch_update. destruct (pos <? _); [intros [= <-]; by apply iroh_watch_inv_pc |].
    destruct (ts_updates (iw_topic w) !! pos) as [[v s]|] eqn:Hl; [| done].
    destruct (N.ltb_spec (iw_since w) v); intros [= <-]; [| by apply iroh_watch_inv_pc].
    apply (iroh_watch_inv_choose (WatchSend (S pos) v s) v s w Hw); rewrite ?Hpc; try done.
    apply elem_of_app. right. by eapply list_elem_of_lookup_2.
  - apply iroh_watch_inv_send; rewrite ?Hpc; done.
  - done.
Qed.

Lemma iroh_watch_reach_inv w : iroh_watch_reach t0 since0 w → iroh_watch_inv w.
Proof.
  induction 1 as [|ev w w' _ IH Hstep].
  - split; cbn; [apply SSorted_nil | apply Forall_nil_2 | done | set_solver | | unfold IROH_WATCH_BUFFER; lia].
    intros p ->. set_solver.
  - destruct ev as [ev|v s| | |]; cbn [iroh_watch_step] in Hstep.
    + injection Hstep as <-. destruct (topic_event_known ev (iw_topic w) (iwi_slot w IH)).
      by apply iroh_watch_inv_topic.
    + injection Hstep as <-. destruct (record_slot_known v s (iw_topic w) (iwi_slot w IH)).
      by apply iroh_watch_inv_topic.
    + by eapply iroh_watch_run_inv.
    + destruct (iw_queue w) as [|x q] eqn:E; [done |]. injection Hstep as <-.
      destruct IH as [Hs Ha Hsi Hh Hsl Hb]. rewrite E in Hb. split; cbn in *; try done. lia.
    + injection Hstep as <-. destruct IH. split; cbn; try done. lia.
Qed.
End Watching.

(** ** Lemmas: the topic table *)

Section Table.
Context `{PR : Primitives} `{UL : UrlLib} `{IL : IrohLib}.

(** Every entry of the table points to a topic, and no two share one. *)
Record topics_wf (i : IrohInner) : Prop := {
  tw_valid : ∀ id p, ii_topics i !! id = Some p → p < length (ii_heap i);
  tw_inj : ∀ id id' p, ii_topics i !! id = Some p → ii_topics i !! id' = Some p → id = id'
}.

(** The other tasks keep the table well formed. *)
Definition env_ok (env : topic_env) : Prop := ∀ i, topics_wf i → topics_wf (te_others env i).

Lemma topics_wf_same i i' :
  ii_topics i' = ii_topics i → length (ii_heap i') = length (ii_heap i) → topics_wf i → topics_wf i'.
Proof. intros Ht Hh [Hv Hi]. split; rewrite Ht, ?Hh; done. Qed.

Lemma topics_wf_reset i : topics_wf (reset_topics i).
Proof. split; cbn; intros ?; by rewrite lookup_empty. Qed.

Lemma topics_wf_insert id t i :
  topics_wf i →
  topics_wf (set_topics (<[id := length (ii_heap i)]> (ii_topics i)) (ii_heap i ++ [t]) i).
Proof.
  intros [Hv Hi]. split; cbn.
  - intros id' p. rewrite length_app. cbn. intros [[_ <-]|[_ H%Hv]]%lookup_insert_Some; lia.
  - intros id1 id2 p [[<- <-]|[Hn1 H1]]%lookup_insert_Some [[<- Hp]|[Hn2 H2]]%lookup_insert_Some; try done.
    + apply Hv in H2. lia.
    + subst p. apply Hv in H1. lia.
    + by eapply Hi.
Qed.

Lemma ensure_topic_wf env id i :
  topics_wf i → env_ok env →
  let '(r, i') := ensure_topic env id i in
  topics_wf i' ∧ ∀ p, r = Ok p → ii_topics i' !! id = Some p.
Proof.
  intros Hw He. unfold ensure_topic, ensure_lookup, ensure_insert.
  destruct (ii_topics i !! id) as [topic|] eqn:E0; [naive_solver |].
  destruct (topic_id id) as [tid|?|]; [| done ..].
  specialize (He i Hw). destruct (te_subscribe env tid _) as [initial|?|]; cbn [rbind]; [| done ..].
  destruct (ii_topics (te_others env i) !! id) as [topic|] eqn:E; cbn [rbind].
  - destruct (bootstrap_peers _); [naive_solver |]. split; [done |].
    destruct (te_join env _ _); cbn; naive_solver.
  - pose proof (topics_wf_insert id (TopicState_new initial) _ He) as Hw'.
    destruct (bootstrap_peers _); (split; [done |]); [intros p [= <-]; apply lookup_insert_eq |].
    destruct (te_join env _ _); cbn; [intros p [= <-]; apply lookup_insert_eq | done ..].
Qed.

Lemma on_topic_wf {A E} topic (f : TopicState → result A E * TopicState) i :
  topics_wf i → topics_wf (on_topic topic f i).2.
Proof.
  intros Hw. unfold on_topic. destruct (ii_heap i !! topic) as [t|]; [| done].
  destruct (f t) as [r t']. cbn. eapply topics_wf_same; [| | exact Hw]; [done |]. cbn. apply length_insert.
Qed.

Lemma iroh_with_topic_wf {A} env id (f : TopicState → result A TransportError * TopicState) i :
  topics_wf i → env_ok env → topics_wf (iroh_with_topic env id f i).2.
Proof.
  intros Hw He. unfold iroh_with_topic. pose proof (ensure_topic_wf env id i Hw He) as H.
  destruct (ensure_topic env id i) as [[p|?|] i']; destruct H as [H _]; [by apply on_topic_wf | done ..].
Qed.

(** The topic behind a successful lookup exists. *)
Lemma ensure_topic_lookup env id i p i' :
  topics_wf i → env_ok env → ensure_topic env id i = (Ok p, i') →
  ii_topics i' !! id = Some p ∧ is_Some (ii_heap i' !! p).
Proof.
  intros Hw He E. pose proof (ensure_topic_wf env id i Hw He) as H. rewrite E in H.
  destruct H as [[Hv _] Hp]. specialize (Hp p eq_refl). split; [done |].
  apply lookup_lt_is_Some. by eapply Hv.
Qed.

Lemma record_slot_ge version sealed (t : TopicState) :
  ∃ q, ts_slot (record_slot version sealed t) = Some q ∧ pair_le (version, sealed) q.
Proof.
  unfold record_slot. destruct (ts_slot t) as [[v s]|] eqn:E; cbn; [| by eauto using pair_le_refl].
  destruct (pair_ltb (v, s) (version, sealed)) eqn:L; cbn; [by eauto using pair_le_refl |].
  rewrite E. by exists (v, s).
Qed.

(** A channel without a topic is empty once it has been joined. *)
Lemma iroh_get_fresh env id i :
  (∀ j, te_others env j = j) → ii_topics i !! id = None → (∃ p, (ensure_topic env id i).1 = Ok p) →
  (iroh_get env id i).1 = Ok None.
Proof.
  intros Ho Hn [p Hp]. unfold iroh_get, iroh_with_topic. revert Hp. unfold ensure_topic, ensure_lookup, ensure_insert. rewrite Ho, Hn.
  destruct (topic_id id) as [tid|?|]; [| done ..].
  destruct (te_subscribe env tid _) as [initial|?|]; cbn [rbind]; [| done ..].
  assert (∀ P, on_topic (A:=option (N * bytes)) (E:=TransportError) (length (ii_heap i))
    (λ t, (Ok (current_slot t), t))
    (set_topics P (ii_heap i ++ [TopicState_new initial]) i)
    = (Ok None, set_topics P (ii_heap i ++ [TopicState_new initial]) i)) as Hon.
  { intros P. unfold on_topic. cbn. rewrite lookup_app_r, Nat.sub_diag by done. cbn. f_equal.
    unfold set_topics. cbn. f_equal. rewrite list_insert_id; [done |].
    by rewrite lookup_app_r, Nat.sub_diag. }
  destruct (bootstrap_peers _); [intros _; by rewrite Hon |].
  destruct (te_join env _ _); cbn; [intros _; by rewrite Hon | done ..].
Qed.

(** *** Calls in flight *)

Lemma remove_peer_topics id i :
  ii_topics (remove_peer id i).2 = (if dropped_peer (TableRemove id) i then ∅ else ii_topics i)
  ∧ ii_heap (remove_peer id i).2 = ii_heap i
  ∧ ii_peers (remove_peer id i).2 = filter (λ p, endpoint_id p ≠ id) (ii_peers i).
Proof.
  assert ((length (filter (λ p, endpoint_id p ≠ id) (ii_peers i)) =? length (ii_peers i))
          = negb (existsb (λ p, bool_decide (endpoint_id p = id)) (ii_peers i))) as H.
  { induction (ii_peers i) as [|p ps IH]; [done |]. rewrite filter_cons. cbn [existsb].
    destruct (decide (endpoint_id p ≠ id)) as [Hp|Hp].
    - rewrite bool_decide_eq_false_2 by done. cbn [length Nat.eqb orb]. exact IH.
    - rewrite bool_decide_eq_true_2 by (by apply dec_stable). cbn [orb negb]. apply Nat.eqb_neq.
      pose proof (length_filter (λ p, endpoint_id p ≠ id) ps). cbn [length]. lia. }
  unfold remove_peer, dropped_peer. rewrite H, negb_involutive. cbn [snd].
  by destruct (existsb _ (ii_peers i)).
Qed.

Lemma allow_peer_topics peer i :
  ii_topics (allow_peer peer i).1 = ii_topics i ∧ ii_heap (allow_peer peer i).1 = ii_heap i
  ∧ ii_peers (allow_peer peer i).1 = upsert_peer peer (ii_peers i).
Proof. unfold allow_peer, add_peer_addr. cbn. by destruct (ii_allowed_endpoints i), (endpoint_id_from_bytes (endpoint_id peer)). Qed.

Lemma revoke_peer_topics id i :
  ii_topics (revoke_peer id i) = ∅ ∧ ii_heap (revoke_peer id i) = ii_heap i
  ∧ ii_peers (revoke_peer id i) = filter (λ p, endpoint_id p ≠ id) (ii_peers i).
Proof.
  unfold revoke_peer. set (i1 := match ii_allowed_endpoints i with Some _ => _ | None => _ end).
  assert (ii_heap i1 = ii_heap i ∧ ii_peers i1 = ii_peers i) as [Hh Hp]
    by (unfold i1; by destruct (ii_allowed_endpoints i), (endpoint_id_from_bytes id)).
  destruct (remove_peer_topics id i1) as (_ & H2 & H3). cbn [reset_topics set_topics ii_topics ii_heap ii_peers].
  by rewrite H2, H3, Hh, Hp.
Qed.

(** The call [k] is replaced or added. *)
Lemma call_topic_insert (r : table_run) k k' c i :
  k < length (tr_calls r) →
  call_topic (MkTableRun i (<[k := c]> (tr_calls r))) k'
  = if decide (k = k') then call_topic (MkTableRun i [c]) 0 else call_topic r k'.
Proof.
  intros Hk. unfold call_topic. cbn [tr_calls]. destruct (decide (k = k')) as [<-|Hne].
  - by rewrite list_lookup_insert_eq.
  - by rewrite list_lookup_insert_ne.
Qed.

Lemma call_topic_snoc (r : table_run) k' c i x :
  call_topic (MkTableRun i (tr_calls r ++ [c])) k' = Some x →
  call_topic r k' = Some x ∨ call_topic (MkTableRun i [c]) 0 = Some x.
Proof.
  unfold call_topic. cbn [tr_calls]. destruct (decide (k' < length (tr_calls r))) as [Hk|Hk].
  - rewrite lookup_app_l by done. by left.
  - rewrite lookup_app_r by lia. destruct (k' - length (tr_calls r)) as [|n]; [by right | by destruct n].
Qed.

(** How the table and the heap change. *)
Definition table_change (op : table_op) (i i' : IrohInner) : Prop :=
  match dropped_peer op i with
  | Some _ => ii_topics i' = ∅ ∧ length (ii_heap i') = length (ii_heap i)
  | None => ii_topics i' = ii_topics i ∧ length (ii_heap i') = length (ii_heap i)
            ∨ ∃ id, ii_topics i !! id = None ∧ ii_topics i' = <[id := length (ii_heap i)]> (ii_topics i)
                    ∧ length (ii_heap i') = S (length (ii_heap i))
  end.

Lemma ensure_insert_spec id answer i :
  let '(r, i') := ensure_insert id answer i in
  (∀ k a, table_change (TableSubscribed k a) i i') ∧ ii_peers i' = ii_peers i
  ∧ ∀ p ps, r = Ok (p, ps) → ii_topics i' !! id = Some p ∧ ps = bootstrap_peers i'.
Proof.
  unfold ensure_insert, table_change. cbn [dropped_peer]. destruct answer as [initial|e|]; [| naive_solver ..].
  destruct (ii_topics i !! id) as [topic|] eqn:E.
  - split_and!; [by left | done |]. by intros p ps [= <- <-].
  - split_and!; [| done |].
    + intros _ _. right. exists id. cbn. rewrite length_app. cbn. split_and!; [done .. | lia].
    + intros p ps [= <- <-]. split; [apply lookup_insert_eq | done].
Qed.

(** A call gets the topic that is in the table at that moment. *)
Lemma table_step_spec (r : table_run) op :
  let r' := table_step r op in
  table_change op (tr_inner r) (tr_inner r')
  ∧ ∀ k id p, call_topic r' k = Some (id, p) →
      call_topic r k = Some (id, p) ∨ ii_topics (tr_inner r') !! id = Some p.
Proof.
  cbv zeta. destruct op as [id|k a|k a|topic f|peer|id|peer|id]; cbn [table_step on_inner tr_inner].
  - split; [by left |]. intros k id' p [H|H]%call_topic_snoc; [by left |]. right. revert H.
    unfold call_topic, ensure_start, ensure_lookup. cbn [tr_calls lookup list_lookup].
    destruct (ii_topics (tr_inner r) !! id) as [t|] eqn:E; [by intros [= <- <-] |]. by destruct (topic_id id).
  - destruct (tr_calls r !! k) as [[id [tid b|?|?]]|] eqn:Ek; try (split; [by left | by left]).
    pose proof (ensure_insert_spec id a (tr_inner r)) as H.
    destruct (ensure_insert id a (tr_inner r)) as [res i']. destruct H as (Hc & _ & Hp).
    split; [apply Hc |]. intros k' id' p. rewrite call_topic_insert by (by eapply lookup_lt_Some).
    destruct (decide (k = k')); [| by left]. unfold call_topic. cbn [tr_calls lookup list_lookup].
    destruct res as [[q [|peer ps]]|?|]; cbn [ensure_resume]; try done; intros [= <- <-]; right; by eapply Hp.
  - destruct (tr_calls r !! k) as [[id [?|topic ps|?]]|] eqn:Ek; try (split; [by left | by left]).
    split; [by left |]. intros k' id' p. rewrite call_topic_insert by (by eapply lookup_lt_Some).
    destruct (decide (k = k')) as [<-|]; [| by left]. unfold call_topic. rewrite Ek. cbn [tr_calls lookup list_lookup].
    destruct a; cbn [rbind]; try done. intros [= <- <-]. by left.
  - split; [| by left]. left. cbn. by rewrite length_alter.
  - split; [by left | by left].
  - split; [| by left]. unfold table_change. destruct (remove_peer_topics id (tr_inner r)) as (-> & -> & _).
    destruct (dropped_peer (TableRemove id) (tr_inner r)); [done | by left].
  - split; [| by left]. left. by destruct (allow_peer_topics peer (tr_inner r)) as (-> & -> & _).
  - split; [| by left]. unfold table_change. cbn [dropped_peer]. by destruct (revoke_peer_topics id (tr_inner r)) as (-> & -> & _).
Qed.

(** [owners] is the channel each topic was made for. *)
Record table_inv (owners : list bytes) (r : table_run) : Prop := {
  ti_heap : length owners = length (ii_heap (tr_inner r));
  ti_table : ∀ id p, ii_topics (tr_inner r) !! id = Some p → owners !! p = Some id;
  ti_calls : ∀ k id p, call_topic r k = Some (id, p) → owners !! p = Some id
}.

Lemma table_step_inv owners (r : table_run) op :
  table_inv owners r → ∃ owners', table_inv (owners ++ owners') (table_step r op).
Proof.
  intros [Hh Ht Hc]. destruct (table_step_spec r op) as [Hch Hcall]. unfold table_change in Hch.
  assert (∃ owners', length (owners ++ owners') = length (ii_heap (tr_inner (table_step r op)))
    ∧ ∀ id p, ii_topics (tr_inner (table_step r op)) !! id = Some p → (owners ++ owners') !! p = Some id)
    as (o & Ho & Hto).
  { destruct (dropped_peer op (tr_inner r)); [destruct Hch as [-> ->] | destruct Hch as [[-> ->]|(id & Hn & -> & ->)]].
    - exists []. rewrite app_nil_r. split; [done |]. intros id p. by rewrite lookup_empty.
    - exists []. by rewrite app_nil_r.
    - exists [id]. rewrite length_app, Hh. cbn. split; [lia |]. intros id' p [[<- <-]|[_ H%Ht]]%lookup_insert_Some.
      + rewrite lookup_app_r, Hh, Nat.sub_diag by lia. done.
      + by apply lookup_app_l_Some. }
  exists o. split; [done .. |]. intros k id p [H|H]%Hcall; [| by apply Hto].
  apply lookup_app_l_Some. by eapply Hc.
Qed.

Definition table_start (eid : bytes) (lookup : list EndpointAddr) (ps : list IrohEndpointAddr)
    (allowed : option (gset EndpointId)) : table_run :=
  MkTableRun (MkIrohInner eid lookup ps allowed ∅ []) [].

Lemma table_reach_inv eid lookup ps allowed ops :
  ∃ owners, table_inv owners (foldl table_step (table_start eid lookup ps allowed) ops).
Proof.
  induction ops as [|op ops [owners IH]] using rev_ind.
  - exists []. by split; [| intros id p; cbn; rewrite lookup_empty |].
  - rewrite foldl_app. destruct (table_step_inv owners _ op IH) as [o H]. by exists (owners ++ o).
Qed.

(** Without a drop an entry of the table stays, and calls get it. *)
Lemma table_stable (r : table_run) mid id p :
  (∀ m1 op m2, mid = m1 ++ op :: m2 → dropped_peer op (tr_inner (foldl table_step r m1)) = None) →
  ii_topics (tr_inner r) !! id = Some p →
  let r' := foldl table_step r mid in
  ii_topics (tr_inner r') !! id = Some p
  ∧ ∀ k q, call_topic r k = None → call_topic r' k = Some (id, q) → q = p.
Proof.
  intros Hq Hp. cbv zeta. induction mid as [|op mid IH] using rev_ind; [naive_solver |].
  destruct IH as [IH1 IH2]; [intros m1 op' m2 ->; apply (Hq m1 op' (m2 ++ [op])); by rewrite <- app_assoc |].
  rewrite foldl_app. cbn [foldl]. destruct (table_step_spec (foldl table_step r mid) op) as [Hch Hcall].
  unfold table_change in Hch. rewrite (Hq mid op []) in Hch by done.
  assert (ii_topics (tr_inner (table_step (foldl table_step r mid) op)) !! id = Some p) as Hp'.
  { destruct Hch as [[-> _]|(id' & Hn & -> & _)]; [done |]. rewrite lookup_insert_ne; [done |]. congruence. }
  split; [done |]. intros k q Hk [H|H]%Hcall; [by eapply IH2 | congruence].
Qed.

(** After a drop every call gets a topic made since. *)
Lemma table_renewed (r : table_run) h mid :
  h ≤ length (ii_heap (tr_inner r)) → (∀ id p, ii_topics (tr_inner r) !! id = Some p → h ≤ p) →
  let r' := foldl table_step r mid in
  h ≤ length (ii_heap (tr_inner r')) ∧ (∀ id p, ii_topics (tr_inner r') !! id = Some p → h ≤ p)
  ∧ ∀ k id q, call_topic r k = None → call_topic r' k = Some (id, q) → h ≤ q.
Proof.
  intros Hh Ht. cbv zeta. induction mid as [|op mid (IH1 & IH2 & IH3)] using rev_ind; [naive_solver |].
  rewrite foldl_app. cbn [foldl]. destruct (table_step_spec (foldl table_step r mid) op) as [Hch Hcall].
  unfold table_change in Hch.
  assert (h ≤ length (ii_heap (tr_inner (table_step (foldl table_step r mid) op)))
    ∧ ∀ id p, ii_topics (tr_inner (table_step (foldl table_step r mid) op)) !! id = Some p → h ≤ p) as [H1 H2].
  { destruct (dropped_peer op _); [destruct Hch as [-> ->] | destruct Hch as [[-> ->]|(id & Hn & -> & ->)]]; [| done |].
    - split; [done |]. intros id p. by rewrite lookup_empty.
    - split; [lia |]. intros id' p [[_ <-]|[_ H%IH2]]%lookup_insert_Some; lia. }
  split_and!; [done .. |]. intros k id q Hk [H|H]%Hcall; [by eapply IH3 | by eapply H2].
Qed.

(** The endpoint [e] is not among the peers. *)
Definition without (e : bytes) (i : IrohInner) : Prop := ∀ p, p ∈ ii_peers i → endpoint_id p ≠ e.

Lemma upsert_peer_elem peer ps p : p ∈ upsert_peer peer ps → p = peer ∨ p ∈ ps.
Proof.
  induction ps as [|q ps IH]; cbn; [by rewrite list_elem_of_singleton; left |].
  destruct (decide _); rewrite !elem_of_cons; naive_solver.
Qed.

Lemma without_bootstrap e i x : without e i → x ∈ bootstrap_peers i → EndpointId_as_bytes x ≠ e.
Proof. intros Hw (p & Hp & Hx%EndpointId_as_from)%elem_of_filter_map. rewrite Hx. by apply Hw. Qed.

Lemma table_step_without e (r : table_run) op :
  added_peer op ≠ Some e → without e (tr_inner r) → without e (tr_inner (table_step r op)).
Proof.
  intros Ha Hw. destruct op as [id|k a|k a|topic f|peer|id|peer|id]; cbn [table_step on_inner tr_inner added_peer] in *; try done.
  - destruct (tr_calls r !! k) as [[id [tid b|?|?]]|]; try done.
    pose proof (ensure_insert_spec id a (tr_inner r)) as H.
    destruct (ensure_insert id a (tr_inner r)) as [res i']. destruct H as (_ & Hp & _).
    unfold without. cbn [tr_inner]. by rewrite Hp.
  - by destruct (tr_calls r !! k) as [[id [?|topic ps|?]]|].
  - intros p [->|Hp]%upsert_peer_elem; [congruence | by apply Hw].
  - unfold without. destruct (remove_peer_topics id (tr_inner r)) as (_ & _ & ->).
    intros p [_ Hp]%list_elem_of_filter. by apply Hw.
  - unfold without. destruct (allow_peer_topics peer (tr_inner r)) as (_ & _ & ->).
    intros p [->|Hp]%upsert_peer_elem; [congruence | by apply Hw].
  - unfold without. destruct (revoke_peer_topics id (tr_inner r)) as (_ & _ & ->).
    intros p [_ Hp]%list_elem_of_filter. by apply Hw.
Qed.

Lemma table_step_peers e (r : table_run) op k x :
  without e (tr_inner r) → x ∈ call_peers (table_step r op) k →
  x ∈ call_peers r k ∨ EndpointId_as_bytes x ≠ e.
Proof.
  intros Hw. unfold call_peers. destruct op as [id|k' a|k' a|topic f|peer|id|peer|id]; cbn [table_step on_inner tr_calls]; try by left.
  - destruct (decide (k < length (tr_calls r))); [rewrite lookup_app_l by done; by left |].
    rewrite lookup_app_r by lia. destruct (k - length (tr_calls r)) as [|n']; [| by destruct n'; intros ?%not_elem_of_nil].
    cbn [lookup list_lookup]. unfold ensure_start, ensure_lookup.
    destruct (ii_topics (tr_inner r) !! id); [by intros ?%not_elem_of_nil |].
    destruct (topic_id id); [| by intros ?%not_elem_of_nil ..]. intros Hx. right. by eapply without_bootstrap.
  - destruct (tr_calls r !! k') as [[id [tid b|?|?]]|] eqn:Ek; try by left.
    pose proof (ensure_insert_spec id a (tr_inner r)) as H.
    destruct (ensure_insert id a (tr_inner r)) as [res i']. destruct H as (_ & Hp & Hr). cbn [tr_calls].
    destruct (decide (k' = k)) as [<-|Hne]; [| rewrite list_lookup_insert_ne by done; by left].
    rewrite list_lookup_insert_eq by (by eapply lookup_lt_Some).
    destruct res as [[q [|y ps]]|?|]; cbn [ensure_resume]; try by intros ?%not_elem_of_nil.
    destruct (Hr q (y :: ps) eq_refl) as [_ ->]. intros Hx. right. eapply without_bootstrap; [| exact Hx].
    unfold without. by rewrite Hp.
  - destruct (tr_calls r !! k') as [[id [?|topic ps|?]]|] eqn:Ek; try by left. cbn [tr_calls].
    destruct (decide (k' = k)) as [<-|Hne]; [| rewrite list_lookup_insert_ne by done; by left].
    rewrite list_lookup_insert_eq by (by eapply lookup_lt_Some). by intros ?%not_elem_of_nil.
Qed.

(** Calls made after a drop ask for no dropped endpoint. *)
Lemma table_forgets e (r : table_run) mid :
  without e (tr_inner r) → Forall (λ op, added_peer op ≠ Some e) mid →
  let r' := foldl table_step r mid in
  without e (tr_inner r')
  ∧ ∀ k x, length (tr_calls r) ≤ k → x ∈ call_peers r' k → EndpointId_as_bytes x ≠ e.
Proof.
  intros Hw Hm. cbv zeta. induction mid as [|op mid IH] using rev_ind.
  - split; [done |]. intros k x Hk. unfold call_peers. cbn [foldl].
    rewrite lookup_ge_None_2 by done. by intros ?%not_elem_of_nil.
  - apply Forall_app in Hm as [Hm Hop]. inversion_clear Hop as [|? ? Hop1 _]. destruct (IH Hm) as [IH1 IH2]. rewrite foldl_app. cbn [foldl].
    split; [apply table_step_without; [exact Hop1 | exact IH1] |]. intros k x Hk Hx.
    destruct (table_step_peers e _ _ _ _ IH1 Hx); [by eapply IH2 | done].
Qed.

Lemma dropped_without op (r : table_run) e :
  dropped_peer op (tr_inner r) = Some e →
  without e (tr_inner (table_step r op)) ∧ ii_topics (tr_inner (table_step r op)) = ∅
  ∧ length (ii_heap (tr_inner (table_step r op))) = length (ii_heap (tr_inner r))
  ∧ tr_calls (table_step r op) = tr_calls r.
Proof.
  intros Hd. destruct (table_step_spec r op) as [Hch _]. unfold table_change in Hch. rewrite Hd in Hch.
  destruct Hch as [-> ->]. split; [| split_and!; try done; destruct op; (discriminate Hd || reflexivity)].
  unfold without. destruct op as [| | | | |id| |id]; cbn [dropped_peer table_step on_inner tr_inner] in *; try done.
  - destruct (existsb _ _); [| done]. injection Hd as ->. destruct (remove_peer_topics e (tr_inner r)) as (_ & _ & ->).
    by intros p [? _]%list_elem_of_filter.
  - injection Hd as ->. destruct (revoke_peer_topics e (tr_inner r)) as (_ & _ & ->).
    by intros p [? _]%list_elem_of_filter.
Qed.
End Table.

(** ** Claims *)

Section Claims.
Context `{PR : Primitives} `{UL : UrlLib} `{IL : IrohLib}.

(** C29: the queue of a gossip topic accounts for every message.  Take any
    interleaving of gossip events, sends and the tasks that hand messages to
    the gossip sender, whose calls succeed or fail.  The accepted messages, in
    the order of acceptance, are those given to the tasks, in the order the
    tasks were started, followed by those still queued; each task hands over
    its own messages in their order and each once, and the rest of them are
    still to come.  So between acceptance and the gossip sender a message is
    neither lost, duplicated nor moved inside its batch; the order between
    tasks is not kept ([iroh_broadcast_overtaken]), and a drained message
    whose broadcast fails is not tried again.  Messages are queued only while
    there is no neighbour, at most 64 of them, and a send is refused exactly
    when there is no neighbour and 64 are waiting. *)
Theorem iroh_broadcasts_accounted (ns : gset EndpointId) (ops : list neighbor_op) (m : bytes) :
  let r := foldl neighbor_step (neighbor_start ns) ops in
  let s := ts_neighbors (nr_topic r) in
  nr_accepted r = concat (nr_tasks r).*1 ++ pending_broadcasts s
  ∧ (∀ k given rest, nr_tasks r !! k = Some (given, rest) → attempts k (nr_log r) ++ rest = given)
  ∧ (∀ k m ok, (k, m, ok) ∈ nr_log r → k < length (nr_tasks r))
  ∧ length (pending_broadcasts s) ≤ MAX_PENDING_BROADCASTS
  ∧ (neighbors s ≠ ∅ → pending_broadcasts s = [])
  ∧ ((∃ e, (queue_or_send m s).1 = Err e)
     ↔ neighbors s = ∅ ∧ length (pending_broadcasts s) = MAX_PENDING_BROADCASTS).
Proof.
  cbv zeta. destruct (neighbor_reach_inv ns ops) as [Ho Ht Hl Hb Hi]. split_and!; [done .. |]. unfold queue_or_send.
  set (s := ts_neighbors _) in *.
  case_bool_decide as Hn; cbn [negb]; [| split; [by intros [? ?] | naive_solver]].
  destruct (Nat.leb_spec MAX_PENDING_BROADCASTS (length (pending_broadcasts s))); cbn [fst].
  - split; [intros _; split; [done | lia] | eauto].
  - split; [by intros [? ?] | intros [_ ?]; lia].
Qed.

(** A later message can overtake a queued one: the queue is drained into a
    task of its own, and a send that finds the neighbour hands its message
    over at once. *)
Lemma iroh_broadcast_overtaken (peer : EndpointId) (m1 m2 : bytes) :
  let r := foldl neighbor_step (neighbor_start ∅)
             [NeighborSend m1; NeighborEvent (Ok (Event_NeighborUp peer)); NeighborSend m2;
              NeighborRun 1 true; NeighborRun 0 true] in
  nr_accepted r = [m1; m2] ∧ nr_log r = [(1, m2, true); (0, m1, true)].
Proof.
  assert (neighbor_step (neighbor_start ∅) (NeighborSend m1)
    = MkNeighborRun (MkTopicState [] None [] (MkNeighborState ∅ [m1])) [] [] [m1]) as H1.
  { cbn [neighbor_step]. unfold queue_or_send. cbn. by rewrite bool_decide_eq_true_2. }
  assert (neighbor_step (MkNeighborRun (MkTopicState [] None [] (MkNeighborState ∅ [m1])) [] [] [m1])
      (NeighborEvent (Ok (Event_NeighborUp peer)))
    = MkNeighborRun (MkTopicState [] None [] (MkNeighborState ({[peer]} ∪ ∅) [])) [([m1], [m1])] [] [m1]) as H2.
  { cbn [neighbor_step topic_event]. unfold mark_neighbor_up, mark_up. cbn. by rewrite bool_decide_eq_true_2. }
  cbv zeta. cbn [foldl]. rewrite H1, H2. cbn [neighbor_step]. unfold queue_or_send. cbn [neighbors ts_neighbors nr_topic].
  by rewrite bool_decide_eq_false_2 by set_solver.
Qed.

(** C28: replicas converge.  The slot of a topic is the newest pair among the
    frames it received, so two topics that received the same messages, in
    any order and any number of times, agree on the slot; the mailbox of the
    topic holds every message received, slot frames included, in order. *)
Theorem iroh_topic_converges (evs evs' : list (result Event TransportError)) (ns ns' : gset EndpointId) :
  let t := topic_run evs (TopicState_new ns) in
  let t' := topic_run evs' (TopicState_new ns') in
  (∀ c, c ∈ received evs ↔ c ∈ received evs') →
  ts_slot t = ts_slot t'
  ∧ is_newest (filter_map decode_slot_frame (received evs)) (ts_slot t)
  ∧ ts_mailbox t = received evs
  ∧ ∀ v sealed, (v < 2 ^ 64)%N → encode_slot_frame v sealed ∈ received evs →
      ∃ p, ts_slot t' = Some p ∧ pair_le (v, sealed) p.
Proof.
  cbv zeta. intros Hsame. destruct (topic_run_spec evs ns) as [Hm Hs], (topic_run_spec evs' ns') as [_ Hs'].
  assert (ts_slot (topic_run evs (TopicState_new ns)) = ts_slot (topic_run evs' (TopicState_new ns'))) as Heq.
  { eapply is_newest_unique; [| exact Hs | exact Hs']. intros p. rewrite !elem_of_filter_map.
    split; intros (c & Hc & Hd); exists c; (split; [by apply Hsame | done]). }
  split_and!; [done .. |]. intros v sealed Hv Hin. rewrite <- Heq.
  assert ((v, sealed) ∈ filter_map decode_slot_frame (received evs)) as Hp.
  { apply elem_of_filter_map. exists (encode_slot_frame v sealed). split; [done |]. by apply decode_encode_slot_frame. }
  destruct (ts_slot (topic_run evs (TopicState_new ns))) as [p|]; cbn in Hs.
  - exists p. split; [done |]. by apply Hs.
  - rewrite Hs in Hp. by apply not_elem_of_nil in Hp.
Qed.

(** C30: the connection gate keeps its promise: on an endpoint that was bound
    with a configuration, after any sequence of handshakes and closed
    connections the counter of every peer is the number of its accepted
    connections that are still open, which never exceeds the configured
    limit, and the next handshake is accepted exactly when the peer is
    allowed at that moment and below the limit; the endpoint listens on the
    configured addresses and no others. *)
Theorem conn_limit_sound (lib : endpoint_lib) (config : IrohConfig) (secret : bytes) (lookup : list EndpointAddr)
    (b : EndpointBuilder) (h : ConnLimitHook) (open : list EndpointId) (allowed : option (gset EndpointId))
    (peer : EndpointId) :
  bind_endpoint lib config secret lookup = Ok b → conn_reach (eb_hook b) h open →
  default 0%N (active h !! peer) = conns peer open
  ∧ (conns peer open ≤ max_conns_per_peer config)%N
  ∧ ((after_handshake allowed peer h).1 = Accept ↔
     permitted allowed peer ∧ (conns peer open < max_conns_per_peer config)%N)
  ∧ (∀ addrs, bind_addrs config = addrs → addrs ≠ [] → eb_ips b = Some addrs).
Proof.
  intros [Hh Hips]%bind_endpoint_Ok. rewrite Hh. intros [Hm Hc]%conn_reach_inv. destruct (Hc peer) as [Hp Hle].
  split_and!; [done .. | |].
  - by rewrite after_handshake_accepts, Hp, Hm.
  - intros addrs Ha Hne. rewrite Hips, Ha. by destruct addrs.
Qed.

(** Under every schedule a watch sends versions above [since], strictly
    increasing, each of a pair the topic held at the start or recorded later,
    with at most 64 values buffered. *)
Lemma iroh_watch_increasing (t : TopicState) (since : N) (w : iroh_watch) :
  iroh_watch_reach t since w →
  StronglySorted N.lt (iw_sent w).*1 ∧ Forall (λ v, since < v)%N (iw_sent w).*1
  ∧ (∀ p, p ∈ iw_sent w → p ∈ option_list (ts_slot t) ++ ts_updates (iw_topic w))
  ∧ length (iw_queue w) ≤ IROH_WATCH_BUFFER.
Proof.
  intros [Hs Ha _ Hh _ Hb]%iroh_watch_reach_inv. rewrite fmap_app in *.
  split_and!; [by eapply StronglySorted_app_1_l | | | done].
  - apply Forall_app in Ha as [Ha _]. eapply Forall_impl; [exact Ha | cbn; lia].
  - intros p Hp. apply Hh. set_solver.
Qed.

(** A watch can miss an update.  It reads the current value before it
    subscribes to updates; a value recorded in between is neither the current
    value it read nor an update it receives, so the task waits for a further
    update with the newer value in the slot and nothing sent. *)
Lemma iroh_watch_misses_update (since version : N) (sealed : bytes) :
  (since < version)%N →
  ∃ w, iroh_watch_reach (TopicState_new ∅) since w
    ∧ current_slot (iw_topic w) = Some (version, sealed)
    ∧ iw_sent w = [] ∧ iw_rx_open w = true ∧ watch_run w = None.
Proof.
  intros Hlt.
  exists (MkIrohWatch (MkTopicState [] (Some (version, sealed)) [(version, sealed)] (NeighborState_new ∅))
            (WatchRecv 1) since [] true []).
  split_and!; try done.
  pose (w0 := iroh_watch_start (TopicState_new ∅) since). pose (w1 := set_pc WatchSubscribe w0).
  apply (iwr_step _ _ WatchRun (set_topic (record_slot version sealed (TopicState_new ∅)) w1)); [| reflexivity].
  apply (iwr_step _ _ (WatchPut version sealed) w1); [| reflexivity].
  apply (iwr_step _ _ WatchRun w0); [apply iwr_start | reflexivity].
Qed.

(** C31: a channel has one topic at a time, and dropping a peer renews it.
    Take any interleaving of calls of [ensure_topic], the answers they await,
    work on the topics and changes of the peers, and cut it in two.  Calls
    for different channels never get the same topic.  As long as no peer is
    dropped after the cut, a channel that had a topic keeps it, and every call
    for the channel that gets a topic after the cut gets that one, also when
    several calls subscribed at the same time.  When the first operation after
    the cut revokes a peer, or removes one that was known, every call that
    gets a topic later gets one made after the cut, and unless the peer is
    added again no call made later names it to the gossip engine, neither as a
    bootstrap peer nor to be joined. *)
Theorem iroh_topic_per_channel (eid : bytes) (lookup : list EndpointAddr) (ps : list IrohEndpointAddr)
    (allowed : option (gset EndpointId)) (pre mid : list table_op) :
  let r := foldl table_step (table_start eid lookup ps allowed) pre in
  let r' := foldl table_step r mid in
  (∀ k k' id id' q, call_topic r' k = Some (id, q) → call_topic r' k' = Some (id', q) → id = id')
  ∧ (∀ id p, (∀ m1 op m2, mid = m1 ++ op :: m2 → dropped_peer op (tr_inner (foldl table_step r m1)) = None) →
       ii_topics (tr_inner r) !! id = Some p →
       ii_topics (tr_inner r') !! id = Some p
       ∧ ∀ k q, call_topic r k = None → call_topic r' k = Some (id, q) → q = p)
  ∧ (∀ op mid' e, mid = op :: mid' → dropped_peer op (tr_inner r) = Some e →
       (∀ k id q, call_topic r k = None → call_topic r' k = Some (id, q) → length (ii_heap (tr_inner r)) ≤ q)
       ∧ (Forall (λ op, added_peer op ≠ Some e) mid' →
          ∀ k x, length (tr_calls r) ≤ k → x ∈ call_peers r' k → EndpointId_as_bytes x ≠ e)).
Proof.
  cbv zeta. set (r := foldl table_step _ pre). split_and!.
  - intros k k' id id' q H H'. destruct (table_reach_inv eid lookup ps allowed (pre ++ mid)) as [o [_ _ Hc]].
    rewrite foldl_app in Hc. apply Hc in H, H'. congruence.
  - intros id p Hq Hp. by apply table_stable.
  - intros op mid' e -> Hd. cbn [foldl]. destruct (dropped_without op r e Hd) as (Hw & Ht & Hh & Hc). split.
    + intros k id q Hk. apply (table_renewed (table_step r op) _ mid'); [by rewrite Hh | intros id' p; by rewrite Ht |].
      unfold call_topic in *. by rewrite Hc.
    + intros Hm k x Hk. apply (table_forgets e (table_step r op) mid' Hw Hm). by rewrite Hc.
Qed.

(** After a put on a channel whose topic could be joined, the local node
    reads back that value or a newer one; revoking any peer resets every
    topic, after which a rejoined channel is empty until it is told the value
    again. *)
Lemma iroh_put_get_revoke (env env' : topic_env) (broadcast : bytes → result unit TransportError)
    (id peer : bytes) (version : N) (sealed : bytes) (i : IrohInner) (p p' : nat) :
  topics_wf i → env_ok env → (ensure_topic env id i).1 = Ok p →
  let i1 := (iroh_put env broadcast id version sealed i).2 in
  (∃ q, (iroh_get env' id i1).1 = Ok (Some q) ∧ pair_le (version, sealed) q)
  ∧ ((∀ j, te_others env' j = j) → (ensure_topic env' id (revoke_peer peer i1)).1 = Ok p' →
     (iroh_get env' id (revoke_peer peer i1)).1 = Ok None).
Proof.
  intros Hw He Hp. cbv zeta. unfold iroh_put, iroh_with_topic.
  destruct (ensure_topic env id i) as [r i0] eqn:E. cbn [fst] in Hp. subst r.
  destruct (ensure_topic_lookup _ _ _ _ _ Hw He E) as [Ht [t Hh]].
  unfold on_topic. rewrite Hh. destruct (broadcast_or_buffer _ _ _) as [r t'] eqn:Eb.
  assert (ts_slot t' = ts_slot (record_slot version sealed t)) as Hslot.
  { revert Eb. unfold broadcast_or_buffer. destruct (queue_or_send _ _). by intros [= _ <-]. }
  split.
  - unfold iroh_get, iroh_with_topic, ensure_topic, ensure_lookup. cbn. rewrite Ht. unfold on_topic. cbn.
    rewrite list_lookup_insert_eq by (by eapply lookup_lt_Some). cbn. unfold current_slot. rewrite Hslot.
    destruct (record_slot_ge version sealed t) as (q & -> & Hq). eauto.
  - intros Ho Hp'. apply iroh_get_fresh; [done | | by eexists]. apply lookup_empty.
Qed.
End Claims.

(** ** Witnesses *)

Module IrohWitness.
Import Toy.
#[local] Existing Instance ToyUrl.toy_url.

(** Endpoint ids are one byte, repeated 32 times on the wire. *)
Definition toy_from_bytes (b : bytes) : option Byte.byte :=
  match b with
  | c :: _ => if bool_decide (b = replicate 32 c) then Some c else None
  | [] => None
  end.

#[local] Instance toy_iroh : IrohLib.
Proof.
  refine {| EndpointId := Byte.byte; EndpointId_from_bytes := toy_from_bytes;
            EndpointId_as_bytes := replicate 32; iroh_public := λ b, default x00 (head b) |}.
  - intros [|c b] e; cbn; [done |]. case_bool_decide as H; [| done]. intros [= <-]. by rewrite H.
  - intros e. unfold toy_from_bytes. cbn [replicate]. by rewrite bool_decide_eq_true_2.
Defined.

Definition e5 : EndpointId := x05.

Definition frame3 : bytes := encode_slot_frame 3 (lit "old").
Definition frame7 : bytes := encode_slot_frame 7 (lit "new").

Lemma iroh_topic_converges_witness :
  ts_slot (topic_run [Ok (Event_Received frame3); Ok (Event_Received frame7)] (TopicState_new ∅))
  = ts_slot (topic_run [Ok (Event_Received frame7); Ok Event_Lagged; Ok (Event_Received frame3);
                        Ok (Event_Received frame3)] (TopicState_new ∅)).
Proof.
  refine (proj1 (iroh_topic_converges _ _ ∅ ∅ _)). intros c.
  cbn [received filter_map]. rewrite !elem_of_cons, !elem_of_nil. tauto.
Defined.

Definition one_conn : IrohConfig :=
  MkIrohConfig IrohRelayMode_Disabled [V4 (Ipv4 x7f x00 x00 x01) 4433] [] 4096 8 1.
Definition easy_lib : endpoint_lib := MkEndpointLib (λ _, Ok tt) (λ _, Ok tt).
Definition hook0 : ConnLimitHook := MkConnLimitHook 1 ∅.

Lemma conn_limit_sound_witness :
  (after_handshake (Some {[e5]}) e5 (after_handshake None e5 hook0).2).1 ≠ Accept.
Proof.
  assert (conn_reach hook0 (after_handshake None e5 hook0).2 [e5]) as Hr.
  { apply (cr_handshake hook0 None e5 hook0 [] Accept); [apply cr_start | reflexivity]. }
  destruct (conn_limit_sound easy_lib one_conn [] [] _ _ _ (Some {[e5]}) e5 eq_refl Hr) as (_ & _ & H & _).
  intros [_ Hlt]%H. vm_compute in Hlt. discriminate.
Defined.

Definition w1 : iroh_watch :=
  set_since (WatchFirst 7 (lit "new")) 7
    (iroh_watch_start (record_slot 7 (lit "new") (TopicState_new ∅)) 3).

Definition toy_env : topic_env := MkTopicEnv (λ _ _, Ok ∅) (λ i, i) (λ _ _, Ok tt).
Definition topic9 : bytes := replicate 32 x09.
Definition start : IrohInner := MkIrohInner (replicate 32 x01) [] [] None ∅ [].

Definition peer5 : IrohEndpointAddr := MkIrohEndpointAddr (replicate 32 x05) [] [].

(** A call for a channel races with the revocation of the only peer. *)
Definition raced : table_run :=
  foldl table_step (table_start (replicate 32 x01) [] [peer5] None)
    [TableEnsure topic9; TableRevoke (replicate 32 x05); TableSubscribed 0 (Ok {[e5]})].

Lemma iroh_topic_per_channel_witness :
  call_topic (foldl table_step raced [TableEnsure topic9]) 1 = Some (topic9, 0)
  ∧ ∀ q, call_topic (foldl table_step raced [TableRevoke (replicate 32 x05); TableEnsure topic9;
                                             TableSubscribed 1 (Ok ∅)]) 1 = Some (topic9, q) → 1 ≤ q.
Proof.
  split; [vm_refl |]. intros q.
  destruct (iroh_topic_per_channel (replicate 32 x01) [] [peer5] None
    [TableEnsure topic9; TableRevoke (replicate 32 x05); TableSubscribed 0 (Ok {[e5]})]
    [TableRevoke (replicate 32 x05); TableEnsure topic9; TableSubscribed 1 (Ok ∅)]) as (_ & _ & H).
  destruct (H (TableRevoke (replicate 32 x05)) _ (replicate 32 x05) eq_refl eq_refl) as [Hq _].
  apply (Hq 1 topic9 q). reflexivity.
Defined.

(** In that race the topic that enters the table after the revocation was
    subscribed with the revoked peer as bootstrap and keeps it as neighbour. *)
Lemma iroh_revoked_peer_stays :
  call_peers (foldl table_step (table_start (replicate 32 x01) [] [peer5] None)
    [TableEnsure topic9; TableRevoke (replicate 32 x05)]) 0 = [e5]
  ∧ ii_topics (tr_inner raced) !! topic9 = Some 0
  ∧ (λ t, neighbors (ts_neighbors t)) <$> ii_heap (tr_inner raced) !! 0 = Some {[e5]}.
Proof. split; [vm_refl |]. split; vm_refl. Qed.

End IrohWitness.
