(* ===== verification/Runtime.v ===== *)
(** * runtime.rs: timers, and the receive of an iroh topic in time

    [sleep] and [timeout_at] of both targets.  The timer is the operating
    system's: it fires [late] after the instant asked for, and a future is the
    instant at which it is ready.  The receive of an iroh topic waits with
    [timeout_at]; here it runs against a timeline of notifications. *)

From S2P Require Import Prelude Bytes Crypto Net Errors Config State Iroh.

(** ** Timers *)

Definition NANOS_PER_MILLI : N := 1000000.

(** The milliseconds the browser's timer is given: [u32::try_from(as_millis)],
    or the largest value. *)
Definition sleep_millis (duration : N) : N :=
  let ms := (duration / NANOS_PER_MILLI)%N in
  if (ms <=? u32_max)%N then ms else u32_max.

Inductive target : Type := Native | Wasm.

(** How long [sleep] asks to wait. *)
Definition sleep (tg : target) (duration : N) : N :=
  match tg with
  | Native => duration
  | Wasm => (sleep_millis duration * NANOS_PER_MILLI)%N
  end.

Inductive Elapsed : Type := MkElapsed.

Definition Elapsed_display (_ : Elapsed) : bytes := lit "operation timed out".

(** [timeout_at] at the instant [now]: the outcome and when it is there.
    [ready] is when the future completes, if it does.  Both targets poll the
    future before the timer. *)
Definition timeout_at (tg : target) (late now deadline : N) (ready : option N) : result unit Elapsed * N :=
  let remaining := if (deadline <? now)%N then 0%N else (deadline - now)%N in
  let fires := (now + match tg with Native => remaining | Wasm => sleep Wasm remaining end + late)%N in
  match ready with
  | Some r => if (r <=? fires)%N then (Ok tt, N.max now r) else (Err MkElapsed, fires)
  | None => (Err MkElapsed, fires)
  end.

(** ** Receiving from a topic *)

Section Recv.
Context `{IL : IrohLib}.

(** The notifications of the topic, in time, with the frames the mailbox holds
    when this receiver runs after it: none when another receiver was faster. *)
Definition timeline : Type := list (N * list bytes).

Definition hold (frames : list bytes) (t : TopicState) : TopicState :=
  MkTopicState (ts_mailbox t ++ frames) (ts_slot t) (ts_updates t) (ts_neighbors t).

(** [recv_mailbox] with its deadline; the last component is when it returns. *)
Fixpoint recv_timed (tg : target) (late deadline : N) (wait_is_zero : bool) (now : N) (tl : timeline) (t : TopicState)
    : result (option bytes) TransportError * TopicState * N :=
  match ts_mailbox t with
  | sealed :: rest => (Ok (Some sealed), MkTopicState rest (ts_slot t) (ts_updates t) (ts_neighbors t), now)
  | [] =>
      if wait_is_zero then (Ok None, t, now)
      else
        match tl with
        | [] => (Ok None, t, (timeout_at tg late now deadline None).2)
        | (at_, frames) :: tl =>
            match timeout_at tg late now deadline (Some at_) with
            | (Ok _, now) => recv_timed tg late deadline wait_is_zero now tl (hold frames t)
            | (_, now) => (Ok None, t, now)
            end
        end
  end.

(** [iroh]'s [recv]: the deadline is taken at the start. *)
Definition recv_mailbox_within (tg : target) (late start wait : N) (tl : timeline) (t : TopicState)
    : result (option bytes) TransportError * TopicState * N :=
  recv_timed tg late (start + wait) (wait =? 0)%N start tl t.
End Recv.

(** ** Lemmas *)

(** A future that is ready wins, also against a deadline that has passed. *)
Lemma timeout_at_ready tg late now deadline r : (r ≤ now)%N → timeout_at tg late now deadline (Some r) = (Ok tt, now).
Proof.
  intros H. unfold timeout_at. rewrite (proj2 (N.leb_le _ _)) by lia. by rewrite N.max_l.
Qed.

Lemma timeout_at_in_time late now deadline r :
  (r ≤ deadline)%N → timeout_at Native late now deadline (Some r) = (Ok tt, N.max now r).
Proof.
  intros H. unfold timeout_at. destruct (N.ltb_spec deadline now); rewrite (proj2 (N.leb_le _ _)) by lia; done.
Qed.

(** Without a future the deadline is waited for; the browser's timer counts
    whole milliseconds and may stop up to one early. *)
Lemma timeout_at_waits tg late now deadline :
  (deadline ≤ now + u32_max * NANOS_PER_MILLI)%N →
  (deadline < (timeout_at tg late now deadline None).2 + NANOS_PER_MILLI)%N
  ∧ (tg = Native → deadline ≤ (timeout_at tg late now deadline None).2)%N.
Proof.
  intros H. unfold timeout_at. cbn [snd]. destruct (N.ltb_spec deadline now) as [Hl|Hl], tg.
  - split; [unfold NANOS_PER_MILLI |]; lia.
  - split; [| done]. unfold NANOS_PER_MILLI. lia.
  - split; [unfold NANOS_PER_MILLI |]; lia.
  - split; [| done]. unfold sleep, sleep_millis.
    pose proof (N.div_mod (deadline - now) NANOS_PER_MILLI ltac:(done)) as Hd.
    pose proof (N.mod_lt (deadline - now) NANOS_PER_MILLI ltac:(done)) as Hm.
    rewrite (proj2 (N.leb_le _ _)); [unfold NANOS_PER_MILLI in *; lia |].
    apply N.Div0.div_le_upper_bound. unfold NANOS_PER_MILLI in *. lia.
Qed.

Section RecvLemmas.
Context `{IL : IrohLib}.

(** The wake-ups of a timeline, for the untimed model of Iroh. *)
Fixpoint wakes (tg : target) (late deadline now : N) (tl : timeline) (n : nat) : option (TopicState → TopicState) :=
  match tl with
  | [] => None
  | (at_, frames) :: tl =>
      match timeout_at tg late now deadline (Some at_), n with
      | (Ok _, _), O => Some (hold frames)
      | (Ok _, now), S n => wakes tg late deadline now tl n
      | _, _ => None
      end
  end.

Lemma recv_mailbox_shift fuel n zero (wake : nat → option (TopicState → TopicState)) t :
  recv_mailbox fuel (S n) zero wake t = recv_mailbox fuel n zero (λ k, wake (S k)) t.
Proof.
  revert n t. induction fuel as [|fuel IH]; intros n t; cbn [recv_mailbox]; [done |].
  destruct (ts_mailbox t); [| done]. destruct zero; [done |]. destruct (wake (S n)); [apply IH | done].
Qed.

(** The timed receive is the untimed one with the wake-ups of the timeline; as
    many rounds as there are notifications are enough. *)
Lemma recv_timed_untimed tg late deadline zero now tl t :
  let '(r, t', _) := recv_timed tg late deadline zero now tl t in
  recv_mailbox (length tl) 0 zero (wakes tg late deadline now tl) t = (Some r, t').
Proof.
  revert now t. induction tl as [|[at_ frames] tl IH]; intros now t; cbn [recv_timed recv_mailbox length].
  - destruct (ts_mailbox t); [by destruct zero | done].
  - destruct (ts_mailbox t); [| done]. destruct zero; [done |]. cbn [wakes].
    destruct (timeout_at tg late now deadline (Some at_)) as [[[]|?|] now'] eqn:E; [| done ..].
    specialize (IH now' (hold frames t)). destruct (recv_timed _ _ _ _ _ _ _) as [[r t'] ?].
    rewrite recv_mailbox_shift. etransitivity; [| exact IH]. done.
Qed.

Lemma recv_timed_skips late deadline now tl pre t :
  ts_mailbox t = [] → Forall (λ x, x.2 = [] ∧ (x.1 ≤ deadline)%N) pre →
  recv_timed Native late deadline false now (pre ++ tl) t
  = recv_timed Native late deadline false (foldl N.max now pre.*1) tl t.
Proof.
  intros Ht H. revert now. induction H as [|[at_ frames] pre [Hf Hat] _ IH]; intros now; [done |]. cbn in Hf, Hat. subst frames.
  cbn [app recv_timed]. rewrite Ht, timeout_at_in_time by done. cbn [fmap list_fmap foldl].
  replace (hold [] t) with t by (destruct t; unfold hold; cbn in *; by rewrite app_nil_r). apply IH.
Qed.

Lemma foldl_max_sorted now l x : StronglySorted N.le (now :: l ++ [x]) → (foldl N.max now l ≤ x)%N.
Proof.
  revert now. induction l as [|y l IH]; intros now H; cbn [foldl app] in *.
  - inversion_clear H as [|? ? _ Hf]. by inversion_clear Hf.
  - inversion_clear H as [|? ? Hs Hf]. inversion_clear Hf. rewrite N.max_r by done. by apply IH.
Qed.

(** Without frames the receive gives up, and not before its deadline. *)
Lemma recv_timed_none late deadline now tl t :
  ts_mailbox t = [] → Forall (λ x, x.2 = []) tl →
  ∃ tm, recv_timed Native late deadline false now tl t = (Ok None, t, tm) ∧ (deadline ≤ tm)%N.
Proof.
  intros Ht H. revert now. induction H as [|[at_ frames] tl Hf _ IH]; intros now; cbn [recv_timed]; rewrite Ht.
  - eexists. split; [done |]. unfold timeout_at. cbn [snd]. destruct (N.ltb_spec deadline now); lia.
  - cbn in Hf. subst frames. unfold timeout_at at 1. destruct (N.leb_spec at_ (now + (if (deadline <? now)%N then 0%N else (deadline - now)%N) + late)%N).
    + replace (hold [] t) with t by (destruct t; unfold hold; cbn in *; by rewrite app_nil_r). apply IH.
    + eexists. split; [done |]. destruct (N.ltb_spec deadline now); lia.
Qed.

(** A receive with a wait returns the first frame that is there for it by the
    deadline, at the instant of its notification, and leaves the others; it
    gives up only when there is none, not before the deadline, and leaves
    the topic as it was. *)
Lemma iroh_recv_timely (late start wait : N) (tl pre post : timeline) (at_ : N) (frame : bytes) (frames : list bytes)
    (t : TopicState) :
  (0 < wait)%N → ts_mailbox t = [] →
  (tl = pre ++ (at_, frame :: frames) :: post → Forall (λ x, x.2 = []) pre →
     StronglySorted N.le (start :: pre.*1 ++ [at_]) → (at_ ≤ start + wait)%N →
     recv_mailbox_within Native late start wait tl t = (Ok (Some frame), hold frames t, at_))
  ∧ (Forall (λ x, x.2 = []) tl →
     ∃ tm, recv_mailbox_within Native late start wait tl t = (Ok None, t, tm) ∧ (start + wait ≤ tm)%N).
Proof.
  intros Hw Ht. unfold recv_mailbox_within. rewrite (proj2 (N.eqb_neq _ _)) by lia. split; [| by apply recv_timed_none].
  intros -> Hpre Hs Hat. rewrite recv_timed_skips; [| done |].
  - cbn [recv_timed]. rewrite Ht, timeout_at_in_time by done. apply foldl_max_sorted in Hs.
    unfold hold. cbn [ts_mailbox]. rewrite Ht. cbn [app].
    destruct post as [|[b l] post]; cbn [recv_timed ts_mailbox]; by rewrite N.max_r.
  - clear - Hpre Hs Hat. rewrite Forall_forall in *. intros x Hx. split; [by apply Hpre |].
    enough (x.1 ≤ at_)%N by lia. inversion_clear Hs as [|? ? Hs' _]. revert Hs'. revert Hx. clear.
    induction pre as [|y pre IH]; [by intros ?%elem_of_nil |]. cbn [fmap list_fmap app]. intros [->|Hx]%elem_of_cons Hs;
      inversion_clear Hs as [|? ? Hs' Hf].
    + rewrite Forall_app in Hf. destruct Hf as [_ Hf]. by inversion_clear Hf.
    + by apply IH.
Qed.
End RecvLemmas.
