(* ===== verification/Namespace.v ===== *)
(** * namespace.rs, mailbox.rs, slot.rs: opening a namespace and its handles

    A namespace validates its seed and configuration, initializes the built-in
    transports in a fixed order, appends the configured ones and hands all of
    them to the coordinator with a health tracker.  Mailbox and slot handles
    validate their name and forward to the coordinator; the clones of a
    mailbox share one duplicate buffer.  The constructors of the transports
    are arguments. *)

From S2P Require Import Prelude Bytes Crypto Kdf Net Guard Errors Dedup Config Health PeerCard Msgpack State Coordinator SlotWatch Iroh.

Definition validate_seed (sd : bytes) : result unit OpenError :=
  guard_err (all_zero sd) OpenError_InvalidSeed.

Section Namespace.
Context `{PR : Primitives} `{UL : UrlLib} {LC : LruCache bytes} {MP : Msgpack SignedInner}.
Context {S : Type} {ST : StateStore S} {T : Type}.

(** The constructors of the built-in transports; the iroh transport loads or
    creates its key in the state store. *)
Record Builders : Type := MkBuilders {
  new_http : HttpConfig → result T TransportError;
  new_pkarr : bytes → PkarrConfig → result T TransportError;
  new_iroh : IrohConfig → S → result T IrohInitError * S
}.

Definition validate_config (c : Config S T) : result unit OpenError :=
  guard_err (transport_count c =? 0) OpenError_NoTransport.

(** The transport, or nothing when it is not configured. *)
Definition open_builtin {C E} (init : C → result T E) (f : E → OpenError) (c : option C)
    : result (option T) OpenError :=
  match c with
  | None => Ok None
  | Some c => let! t := map_err f (init c) in Ok (Some t)
  end.

Definition init_failed (kind : TransportKind) (e : TransportError) : OpenError :=
  OpenError_TransportInit kind (TransportError_display e).

Definition iroh_init_failed (e : IrohInitError) : OpenError :=
  match e with
  | IrohInitError_State e => OpenError_State e
  | IrohInitError_Transport e => init_failed Iroh e
  end.

Definition open_iroh_transport (b : Builders) (c : Config S T) (st : S)
    : result (option T) OpenError * S :=
  match cfg_iroh c with
  | None => (Ok None, st)
  | Some iroh =>
      let '(r, st) := new_iroh b iroh st in
      (let! t := map_err iroh_init_failed r in Ok (Some t), st)
  end.

(** The coordinator and the handles of the built-in transports. *)
Record Namespace : Type := MkNamespace {
  ns_coordinator : Coordinator (T:=T);
  ns_http : option T;
  ns_pkarr : option T;
  ns_iroh : option T
}.

(** [transports.push] of a built-in transport. *)
Definition endpoint_of (kind : TransportKind) (t : option T) : list (TransportEndpoint (T:=T)) :=
  match t with Some t => [MkTransportEndpoint kind t] | None => [] end.

(** The namespace with the shared state it starts from, and the state store
    as the attempt leaves it. *)
Definition Namespace_open (b : Builders) (sd : bytes) (c : Config S T)
    : result (Namespace * world (S:=S)) OpenError * S :=
  let st := cfg_state c in
  match
    let! _ := validate_seed sd in
    let! _ := validate_config c in
    let! http := open_builtin (new_http b) (init_failed Http) (cfg_http c) in
    let! pkarr := open_builtin (new_pkarr b sd) (init_failed Pkarr) (cfg_pkarr c) in
    Ok (http, pkarr)
  with
  | Err e => (Err e, st)
  | Panic => (Panic, st)
  | Ok (http, pkarr) =>
      let '(iroh, st) := open_iroh_transport b c st in
      (let! iroh := iroh in
       let transports := endpoint_of Http http ++ endpoint_of Pkarr pkarr ++ endpoint_of Iroh iroh
         ++ map (λ ct, MkTransportEndpoint (ct_kind ct) (ct_transport ct)) (cfg_transports c) in
       Ok (MkNamespace (Coordinator_new sd transports c) http pkarr iroh, MkWorld st (from_config c)), st)
  end.

Definition Namespace_health (now : N) (w : world (S:=S)) : HealthReport := snapshot now (w_health w).

(** ** Handles *)

(** The duplicate buffer is shared by the clones of a mailbox. *)
Record Mailbox : Type := MkMailbox { mb_name : bytes; mb_dedup : Dedup }.

Definition Mailbox_new (c : Coordinator (T:=T)) (name : bytes) : result Mailbox NameError :=
  let! _ := validate_name name in Ok (MkMailbox name (Dedup_new (co_dedup_buffer c))).

Definition Mailbox_send (nonce : bytes) (clock : nat → N * N)
    (run : list (task (T:=T)) → bytes → list (TransportKind * result unit TransportError))
    (c : Coordinator) (m : Mailbox) (payload : bytes) (w : world (S:=S)) : result SendReport SendError * world (S:=S) :=
  mailbox_send nonce clock run c (mb_name m) payload w.

(** [recv] waits 25 seconds per round, which is not zero. *)
Definition Mailbox_recv (rounds : nat) (clock : nat → nat → N * N)
    (run : nat → list (task (T:=T)) → list (TransportKind * result (option bytes) TransportError))
    (c : Coordinator) (m : Mailbox) (h : HealthTracker)
    : option (result RecvMessage RecvError) * Mailbox * HealthTracker :=
  let '(r, d, h) := mailbox_recv rounds 0 clock run c (mb_name m) (from_secs DEFAULT_LONG_POLL_SECS =? 0)%N
                      (mb_dedup m) h in
  (r, MkMailbox (mb_name m) d, h).

Definition Mailbox_subscribe (clock : nat → N * N)
    (run : list (task (T:=T)) → list (TransportKind * result unit TransportError))
    (c : Coordinator) (m : Mailbox) (h : HealthTracker) : result unit RecvError * HealthTracker :=
  mailbox_subscribe clock run c (mb_name m) h.

Definition Mailbox_try_recv (m : Mailbox) : result (option RecvMessage) RecvError := Ok None.

Record Slot : Type := MkSlot { sl_name : bytes }.

Definition Slot_new (name : bytes) : result Slot NameError :=
  let! _ := validate_name name in Ok (MkSlot name).

Definition Slot_put (nonce : bytes) (clock : nat → N * N)
    (run : list (task (T:=T)) → N → bytes → list (TransportKind * result unit TransportError))
    (c : Coordinator) (s : Slot) (payload : bytes) (w : world (S:=S)) : result PutReport SlotError * world (S:=S) :=
  slot_put nonce clock run c (sl_name s) payload w.

Definition Slot_get (clock : nat → N * N)
    (run : list (task (T:=T)) → list (TransportKind * result (option (N * bytes)) TransportError))
    (c : Coordinator) (s : Slot) (w : world (S:=S)) : result (option SlotValue) SlotError * world (S:=S) :=
  slot_get clock run c (sl_name s) w.

Definition Slot_watch (c : Coordinator (T:=T)) (s : Slot) (w : world (S:=S)) : watch :=
  slot_watch c (sl_name s) w.
End Namespace.

(** ** Lemmas *)

Section NamespaceLemmas.
Context `{PR : Primitives} `{PL : !PrimitivesLaws} `{UL : UrlLib}.
Context {LC : LruCache bytes}.
Context {MP : Msgpack SignedInner} {MPL : MsgpackLaws SignedInner}.
Context {S : Type} {ST : StateStore S} {T : Type}.
Notation recv_result := (TransportKind * result (option bytes) TransportError)%type.

(** The transports of a successful open. *)
Definition transports_of (c : Config S T) (http pkarr iroh : option T) : list (TransportEndpoint (T:=T)) :=
  endpoint_of Http http ++ endpoint_of Pkarr pkarr ++ endpoint_of Iroh iroh
  ++ map (λ ct, MkTransportEndpoint (ct_kind ct) (ct_transport ct)) (cfg_transports c).

(** A built-in transport is there exactly when it is configured. *)
Definition built {C E} (init : C → result T E) (c : option C) (t : option T) : Prop :=
  match c, t with
  | None, None => True
  | Some c, Some t => init c = Ok t
  | _, _ => False
  end.

Lemma open_builtin_Ok {C E} (init : C → result T E) f c t :
  open_builtin init f c = Ok t ↔ built init c t.
Proof.
  unfold open_builtin, built. destruct c as [c|], t as [t|]; try naive_solver;
    destruct (init c); naive_solver.
Qed.

Lemma Namespace_open_Ok (b : Builders) sd (c : Config S T) ns w st :
  Namespace_open b sd c = (Ok (ns, w), st) ↔
  all_zero sd = false ∧ transport_count c ≠ 0
  ∧ ns_coordinator ns = Coordinator_new sd (transports_of c (ns_http ns) (ns_pkarr ns) (ns_iroh ns)) c
  ∧ built (new_http b) (cfg_http c) (ns_http ns) ∧ built (new_pkarr b sd) (cfg_pkarr c) (ns_pkarr ns)
  ∧ open_iroh_transport b c (cfg_state c) = (Ok (ns_iroh ns), st)
  ∧ w = MkWorld st (from_config c).
Proof.
  rewrite <- (open_builtin_Ok (new_http b) (init_failed Http)), <- (open_builtin_Ok (new_pkarr b sd) (init_failed Pkarr)).
  unfold Namespace_open, validate_seed, validate_config, guard_err, transports_of.
  destruct (all_zero sd); cbn [rbind]; [naive_solver |].
  destruct (Nat.eqb_spec (transport_count c) 0); cbn [rbind]; [naive_solver |].
  destruct (open_builtin (new_http b) _ _) as [http|e|]; cbn [rbind]; [| naive_solver ..].
  destruct (open_builtin (new_pkarr b sd) _ _) as [pkarr|e|]; cbn [rbind]; [| naive_solver ..].
  destruct (open_iroh_transport b c (cfg_state c)) as [[iroh|e|] st']; cbn [rbind]; [| naive_solver ..].
  split.
  - intros [= <- <- <-]. by split_and!.
  - destruct ns as [co h p i]. cbn. intros (_ & _ & -> & [= ->] & [= ->] & [= -> ->] & ->). done.
Qed.

Lemma built_endpoints {C E} (init : C → result T E) kind c t :
  built init c t → te_kind <$> endpoint_of kind t = match c with Some _ => [kind] | None => [] end.
Proof. by destruct c, t. Qed.

Lemma open_iroh_endpoints b (c : Config S T) st t st' :
  open_iroh_transport b c st = (Ok t, st') →
  te_kind <$> endpoint_of Iroh t = match cfg_iroh c with Some _ => [Iroh] | None => [] end.
Proof.
  unfold open_iroh_transport. destruct (cfg_iroh c) as [i|]; [| by intros [= <- _]].
  destruct (new_iroh b i st) as [[?|?|] ?]; cbn; [by intros [= <- _] | done ..].
Qed.

Lemma transports_of_kinds b sd (c : Config S T) http pkarr iroh st st' :
  built (new_http b) (cfg_http c) http → built (new_pkarr b sd) (cfg_pkarr c) pkarr →
  open_iroh_transport b c st = (Ok iroh, st') →
  te_kind <$> transports_of c http pkarr iroh = (λ t, th_kind (health t)) <$> inner (from_config c).
Proof.
  intros Hh Hp Hi. unfold transports_of, from_config. cbn [inner]. rewrite !fmap_app.
  rewrite (built_endpoints _ Http _ _ Hh), (built_endpoints _ Pkarr _ _ Hp), (open_iroh_endpoints _ _ _ _ _ Hi).
  f_equal; [by destruct (cfg_http c) |]. f_equal; [by destruct (cfg_pkarr c) |].
  f_equal; [by destruct (cfg_iroh c) |]. rewrite <- !list_fmap_compose. by apply list_fmap_ext.
Qed.

(** The first check that fails, with its error and the state it leaves. *)
Definition open_failed (b : Builders (T:=T)) (sd : bytes) (c : Config S T) (e : OpenError) (st : S) : Prop :=
      (all_zero sd = true ∧ e = OpenError_InvalidSeed ∧ st = cfg_state c)
      ∨ (all_zero sd = false ∧ transport_count c = 0 ∧ e = OpenError_NoTransport ∧ st = cfg_state c)
      ∨ (all_zero sd = false ∧ transport_count c ≠ 0
         ∧ ((∃ h err, cfg_http c = Some h ∧ new_http b h = Err err ∧ e = init_failed Http err
                      ∧ st = cfg_state c)
            ∨ ∃ http, built (new_http b) (cfg_http c) http
              ∧ ((∃ p err, cfg_pkarr c = Some p ∧ new_pkarr b sd p = Err err ∧ e = init_failed Pkarr err
                           ∧ st = cfg_state c)
                 ∨ ∃ pkarr, built (new_pkarr b sd) (cfg_pkarr c) pkarr
                   ∧ ∃ i err, cfg_iroh c = Some i ∧ new_iroh b i (cfg_state c) = (Err err, st)
                              ∧ e = iroh_init_failed err))).

Definition open_panicked (b : Builders (T:=T)) (sd : bytes) (c : Config S T) : Prop :=
      (∃ h, cfg_http c = Some h ∧ new_http b h = Panic) ∨ (∃ p, cfg_pkarr c = Some p ∧ new_pkarr b sd p = Panic)
      ∨ (∃ i, cfg_iroh c = Some i ∧ (new_iroh b i (cfg_state c)).1 = Panic).

Lemma open_builtin_Err {C E} (init : C → result T E) f c e :
  open_builtin init f c = Err e → ∃ cfg err, c = Some cfg ∧ init cfg = Err err ∧ e = f err.
Proof.
  unfold open_builtin. destruct c as [c|]; [| done].
  destruct (init c) as [?|err|] eqn:?; cbn; [done | intros [= <-]; eauto | done].
Qed.

Lemma Namespace_open_Err (b : Builders (T:=T)) sd (c : Config S T) e st :
  Namespace_open b sd c = (Err e, st) → open_failed b sd c e st.
Proof.
  unfold Namespace_open, validate_seed, validate_config, guard_err, open_failed.
  destruct (all_zero sd); cbn [rbind]; [intros [= <- <-]; by left |]. intros E. right.
  destruct (Nat.eqb_spec (transport_count c) 0); cbn [rbind] in E; [left; by injection E as <- <- |].
  right. split_and!; [done .. |].
  destruct (open_builtin (new_http b) _ _) as [http|e'|] eqn:Hh; cbn [rbind] in E; [| | done].
  2: { apply open_builtin_Err in Hh as (h & err & ? & ? & ->). injection E as <- <-. left. by exists h, err. }
  right. apply open_builtin_Ok in Hh. exists http. split; [done |].
  destruct (open_builtin (new_pkarr b sd) _ _) as [pkarr|e'|] eqn:Hp; cbn [rbind] in E; [| | done].
  2: { apply open_builtin_Err in Hp as (p & err & ? & ? & ->). injection E as <- <-. left. by exists p, err. }
  right. apply open_builtin_Ok in Hp. exists pkarr. split; [done |].
  unfold open_iroh_transport in E. destruct (cfg_iroh c) as [i|]; [| done].
  destruct (new_iroh b i (cfg_state c)) as [[?|err|] ?] eqn:Hi; cbn in E; [done | | done].
  injection E as <- <-. by exists i, err.
Qed.

Lemma open_builtin_Panic {C E} (init : C → result T E) f c :
  open_builtin init f c = Panic → ∃ cfg, c = Some cfg ∧ init cfg = Panic.
Proof.
  unfold open_builtin. destruct c as [c|]; [| done]. destruct (init c) eqn:?; cbn; [done .. | eauto].
Qed.

Lemma Namespace_open_Panic (b : Builders (T:=T)) sd (c : Config S T) st :
  Namespace_open b sd c = (Panic, st) → open_panicked b sd c.
Proof.
  unfold Namespace_open, validate_seed, validate_config, guard_err, open_panicked.
  destruct (all_zero sd); cbn [rbind]; [done |]. destruct (_ =? 0); cbn [rbind]; [done |].
  destruct (open_builtin (new_http b) _ _) as [http|e'|] eqn:Hh; cbn [rbind]; [| done |].
  2: { intros _. left. by apply open_builtin_Panic in Hh. }
  destruct (open_builtin (new_pkarr b sd) _ _) as [pkarr|e'|] eqn:Hp; cbn [rbind]; [| done |].
  2: { intros _. right. left. by apply open_builtin_Panic in Hp. }
  unfold open_iroh_transport. destruct (cfg_iroh c) as [i|]; [| done].
  destruct (new_iroh b i (cfg_state c)) as [[?|err|] ?] eqn:Hi; cbn; [done .. |].
  intros _. right. right. exists i. by rewrite Hi.
Qed.

(** The encoded record is within the reader's plaintext limit. *)
Definition fits_at (c reader : Coordinator (T:=T)) (kind : ChannelKind) (name payload : bytes)
    (version : option N) : Prop :=
  ∀ pt, to_vec_named (inner_of c kind name payload version) = inl pt → (len pt ≤ co_max_plaintext_bytes reader)%N.

Definition fits (c reader : Coordinator (T:=T)) (name payload : bytes) : Prop :=
  fits_at c reader ChMailbox name payload None.

Lemma Coordinator_open_seal_at nonce (c reader : Coordinator (T:=T)) kind name payload version s :
  length nonce = NONCE_LEN → seed reader = seed c → signer_accepted c reader →
  fits_at c reader kind name payload version → Coordinator_seal nonce c kind name payload version = Ok s →
  Coordinator_open reader kind name s = Ok (MkOpenedEnvelope payload version (verifying_key <$> co_signing c)).
Proof.
  intros Hn Hseed Hacc Hfit (pt & key & Hpt & Hkey & Hs)%Coordinator_seal_Ok.
  rewrite (Coordinator_open_unfold reader kind name s key) by (by rewrite Hseed).
  rewrite (unseal_seal _ _ _ _ _ Hn Hs). cbn [map_err rbind]. unfold guard_err.
  destruct (N.ltb_spec (co_max_plaintext_bytes reader) (len pt)) as [Hl|_].
  { specialize (Hfit pt Hpt). exfalso. apply (N.lt_irrefl (len pt)). by eapply N.le_lt_trans. }
  cbn [rbind]. rewrite (from_slice_to_vec_named _ _ Hpt). cbn [of_sum rbind]. by rewrite verify_inner_of.
Qed.

Lemma spawn_all_error {E F} (e : E) (f : F) (c : Coordinator (T:=T)) kind name tasks :
  spawn_all e c kind name = Ok tasks → spawn_all f c kind name = Ok tasks.
Proof.
  unfold spawn_all. rewrite !map_result_Ok_Forall2. intros H. eapply Forall2_impl; [exact H |].
  intros ep t. cbv beta. destruct (transport_channel_id _ _ _ _); cbn; [by intros [= ->] | done ..].
Qed.

(** Results without a payload leave the duplicate buffer alone. *)
Lemma recv_round_prefix clock i (c : Coordinator (T:=T)) name pre rest a d h :
  payloads pre = [] →
  ∃ i' a' h', recv_round clock i c name (pre ++ rest) a d h = recv_round clock i' c name rest a' d h'.
Proof.
  revert i a h. induction pre as [|[kind r] pre IH]; intros i a h Hp; [by eauto |].
  destruct r as [[sealed|]|e|]; cbn [payloads filter_map snd] in Hp; [done |..];
    cbn [app recv_round]; by apply IH.
Qed.

Lemma mailbox_send_sealed nonce clock run (c : Coordinator (T:=T)) name payload (w w1 : world (S:=S)) report :
  mailbox_send nonce clock run c name payload w = (Ok report, w1) →
  ∃ sealed tasks, Coordinator_seal nonce c ChMailbox name payload None = Ok sealed
    ∧ spawn_all SealError_MsgpackFailed c ChMailbox name = Ok tasks
    ∧ split_results (run tasks sealed) = (sr_delivered report, sr_failed report).
Proof.
  unfold mailbox_send, lift. destruct (Coordinator_seal _ _ _ _ _ _) as [sealed|?|]; cbn [map_err rbind]; [| done ..].
  destruct (spawn_all _ _ _ _) as [tasks|?|]; cbn [map_err rbind]; [| done ..].
  destruct (split_results _) as [[|k l] failed] eqn:E; [done |]. intros [= <- _]. by exists sealed, tasks.
Qed.

(** A frame that is the first to arrive, is new and opens is delivered. *)
Lemma mailbox_recv_first j : ∀ rounds n clock run (c : Coordinator (T:=T)) name tasks cap history h
    pre kind sealed post m,
  j < rounds → spawn_all RecvError_Closed c ChMailbox name = Ok tasks →
  rounds_payloads run tasks n j = [] → run (n + j) tasks = pre ++ (kind, Ok (Some sealed)) :: post →
  payloads pre = [] → open_mail c name kind sealed = Some m → digest sealed ∉ window cap history →
  ∃ h', mailbox_recv rounds n clock run c name false (observe_all (Dedup_new cap) history) h
        = (Some (Ok m), observe_all (Dedup_new cap) (history ++ [sealed]), h').
Proof.
  induction j as [|j IH]; intros rounds n clock run c name tasks cap history h pre kind sealed post m
    Hj Htasks Hrp Hrun Hpre Hopen Hnew; destruct rounds as [|rounds]; try lia;
    cbn [mailbox_recv]; rewrite Htasks.
  - rewrite Nat.add_0_r in Hrun. rewrite Hrun.
    destruct (recv_round_prefix (clock n) 0 c name pre ((kind, Ok (Some sealed)) :: post) false
      (observe_all (Dedup_new cap) history) h Hpre) as (i & a & h' & ->).
    rewrite recv_round_cons, observe_new, Hopen. cbv zeta.
    rewrite bool_decide_eq_false_2 by done. rewrite <- observe_all_snoc. eauto.
  - cbn [rounds_payloads] in Hrp. apply app_eq_nil in Hrp as [Hp Hrp].
    destruct (recv_round_prefix (clock n) 0 c name (run n tasks) [] false
      (observe_all (Dedup_new cap) history) h Hp) as (i & a & h' & E).
    rewrite app_nil_r in E. rewrite E. cbn [recv_round].
    eapply (IH rounds (Datatypes.S n)); try done; [lia | by rewrite Nat.add_succ_l, <- Nat.add_succ_r].
Qed.

(** ** Results *)

(** Opening a namespace performs its checks in order and stops at the
    first failure: the zero seed, no transport, then the http, pkarr and iroh
    transports; only the iroh constructor can have changed the state store.
    On success there is one endpoint per configured transport, in the order
    in which the health tracker lists them and at least one; the handles are
    those endpoints, and the coordinator carries the seed and the settings. *)
Lemma namespace_open_spec (b : Builders (T:=T)) (sd : bytes) (c : Config S T) :
  match Namespace_open b sd c with
  | (Ok (ns, w), st) =>
      all_zero sd = false ∧ w = MkWorld st (from_config c)
      ∧ (let co := ns_coordinator ns in
         te_kind <$> co_transports co = (λ t, th_kind (health t)) <$> inner (w_health w)
         ∧ length (co_transports co) = transport_count c ∧ co_transports co ≠ []
         ∧ (∀ t, ns_http ns = Some t → MkTransportEndpoint Http t ∈ co_transports co)
         ∧ (∀ t, ns_pkarr ns = Some t → MkTransportEndpoint Pkarr t ∈ co_transports co)
         ∧ (∀ t, ns_iroh ns = Some t → MkTransportEndpoint Iroh t ∈ co_transports co)
         ∧ seed co = sd ∧ co_signing co = cfg_signing c ∧ co_trusted co = cfg_trusted c)
  | (Err e, st) =>
      open_failed b sd c e st
  | (Panic, _) =>
      open_panicked b sd c
  end.
Proof.
  destruct (Namespace_open b sd c) as [[[ns w]|e|] st] eqn:E.
  - apply Namespace_open_Ok in E as (Hz & Hn & Hco & Hh & Hp & Hi & ->).
    pose proof (transports_of_kinds _ _ _ _ _ _ _ _ Hh Hp Hi) as Hk. rewrite Hco. cbn.
    assert (length (transports_of c (ns_http ns) (ns_pkarr ns) (ns_iroh ns)) = transport_count c) as Hlen.
    { rewrite <- from_config_length, <- (length_fmap te_kind), Hk. apply length_fmap. }
    split_and!; try done.
    + intros Hnil. rewrite Hnil in Hlen. by apply Hn.
    + intros t Ht. rewrite Ht. set_solver.
    + intros t Ht. rewrite Ht. set_solver.
    + intros t Ht. rewrite Ht. set_solver.
  - by apply Namespace_open_Err.
  - by apply Namespace_open_Panic in E.
Qed.

(** A mailbox connects two namespaces.  When one namespace has sent a
    payload, every one of its transports was given the same sealed frame;
    when that frame is the first one a namespace opened with the same seed
    receives, in any round and over any transport, and it has not seen it
    recently, [recv] returns the payload and the sender's verified key, and
    remembers the frame, so that a copy over another transport is dropped. *)
Lemma namespace_mailbox_delivers (b b' : Builders (T:=T)) (sd : bytes) (c c' : Config S T)
    (ns ns' : Namespace) (w w' w1 : world (S:=S)) (st st' : S) (name payload nonce : bytes) (m m' : Mailbox)
    (clock : nat → N * N) (clock' : nat → nat → N * N)
    (run : list (task (T:=T)) → bytes → list (TransportKind * result unit TransportError))
    (run' : nat → list (task (T:=T)) → list recv_result)
    (report : SendReport) (history : list bytes) (h : HealthTracker) :
  Namespace_open b sd c = (Ok (ns, w), st) → Namespace_open b' sd c' = (Ok (ns', w'), st') →
  Mailbox_new (ns_coordinator ns) name = Ok m → Mailbox_new (ns_coordinator ns') name = Ok m' →
  signer_accepted (ns_coordinator ns) (ns_coordinator ns') → length nonce = NONCE_LEN →
  fits (ns_coordinator ns) (ns_coordinator ns') name payload →
  Mailbox_send nonce clock run (ns_coordinator ns) m payload w = (Ok report, w1) →
  ∃ sealed tasks tasks',
    Coordinator_seal nonce (ns_coordinator ns) ChMailbox name payload None = Ok sealed
    ∧ spawn_all RecvError_Closed (ns_coordinator ns) ChMailbox name = Ok tasks
    ∧ spawn_all RecvError_Closed (ns_coordinator ns') ChMailbox name = Ok tasks'
    ∧ split_results (run tasks sealed) = (sr_delivered report, sr_failed report)
    ∧ ∀ j rounds pre kind post,
        j < rounds → rounds_payloads run' tasks' 0 j = [] →
        run' j tasks' = pre ++ (kind, Ok (Some sealed)) :: post → payloads pre = [] →
        digest sealed ∉ window (cfg_dedup_buffer c') history →
        ∃ h', Mailbox_recv rounds clock' run' (ns_coordinator ns')
                (MkMailbox name (observe_all (mb_dedup m') history)) h
              = (Some (Ok (MkRecvMessage payload kind (verifying_key <$> cfg_signing c))),
                 MkMailbox name (observe_all (mb_dedup m') (history ++ [sealed])), h').
Proof.
  intros Ho Ho' Hm Hm' Hacc Hnonce Hfit Hsend.
  apply Namespace_open_Ok in Ho as (_ & _ & Hco & _), Ho' as (_ & _ & Hco' & _).
  assert (seed (ns_coordinator ns') = seed (ns_coordinator ns)) as Hseed by (by rewrite Hco, Hco').
  assert (co_signing (ns_coordinator ns) = cfg_signing c) as Hsk by (by rewrite Hco).
  unfold Mailbox_new in Hm, Hm'.
  apply rbind_Ok in Hm as ([] & Hn & Hm). apply rbind_Ok in Hm' as (_ & _ & Hm').
  injection Hm as <-. injection Hm' as <-.
  assert (co_dedup_buffer (ns_coordinator ns') = cfg_dedup_buffer c') as -> by (by rewrite Hco').
  apply mailbox_send_sealed in Hsend as (sealed & tasks & Hs & Ht & Hsplit).
  apply validate_name_Ok in Hn.
  destruct (spawn_all_Ok RecvError_Closed (ns_coordinator ns') ChMailbox name Hn) as (tasks' & Ht' & _).
  exists sealed, tasks, tasks'. split_and!; [done | by eapply spawn_all_error | done | done |].
  intros j rounds pre kind post Hj Hrp Hrun Hpre Hnew. unfold Mailbox_recv. cbn [mb_name mb_dedup].
  pose proof (Coordinator_open_seal_at _ _ _ _ _ _ _ _ Hnonce Hseed Hacc Hfit Hs) as Hopen.
  rewrite Hsk in Hopen.
  assert (open_mail (ns_coordinator ns') name kind sealed
          = Some (MkRecvMessage payload kind (verifying_key <$> cfg_signing c))) as Hmail
    by (unfold open_mail; by rewrite Hopen).
  destruct (mailbox_recv_first j rounds 0 clock' run' _ name tasks' (cfg_dedup_buffer c') history h pre kind
    sealed post _ Hj Ht' Hrp Hrun Hpre Hmail Hnew) as (h' & E).
  replace (from_secs DEFAULT_LONG_POLL_SECS =? 0)%N with false by done.
  exists h'. by rewrite E.
Qed.
End NamespaceLemmas.

(** ** Witnesses *)

Module NamespaceWitness.
Import Toy ListLru CoordinatorWitness.
#[local] Existing Instance ToyUrl.toy_url.
#[local] Existing Instance inner_msgpack.
#[local] Existing Instance inner_msgpack_laws.

Definition toy_builders : Builders (S:=InMemoryInner) (T:=unit) :=
  MkBuilders (λ _, Ok tt) (λ _ _, Ok tt) (λ _ st, (Ok tt, st)).

Definition toy_config : Config InMemoryInner unit :=
  MkConfig InMemoryInner unit None None None (Some sk5) [vk5] 4 4096 Inner_default
    [MkConfiguredTransport Http tt; MkConfiguredTransport Iroh tt].

Definition toy_namespace : Namespace (T:=unit) :=
  MkNamespace (Coordinator_new toy_seed (transports_of toy_config None None None) toy_config) None None None.

Definition toy_start : world (S:=InMemoryInner) := MkWorld Inner_default (from_config toy_config).

Definition toy_send (tasks : list (task (T:=unit))) (_ : bytes)
    : list (TransportKind * result unit TransportError) := [(Http, Ok tt)].

Definition toy_arrival (n : nat) (_ : list (task (T:=unit)))
    : list (TransportKind * result (option bytes) TransportError) :=
  [(Iroh, Err TransportError_Timeout); (Http, Ok (Some mail))].

Lemma namespace_mailbox_delivers_witness :
  ∃ h, Mailbox_recv 1 (λ _, toy_clock) toy_arrival (ns_coordinator toy_namespace)
         (MkMailbox (lit "a/b") (Dedup_new 4)) (MkHealthTracker [])
       = (Some (Ok (MkRecvMessage (lit "hi") Http (Some vk5))),
          MkMailbox (lit "a/b") (observe_all (Dedup_new 4) [mail]), h).
Proof.
  destruct (namespace_mailbox_delivers toy_builders toy_builders toy_seed toy_config toy_config
    toy_namespace toy_namespace toy_start toy_start
    (Mailbox_send toy_nonce toy_clock toy_send (ns_coordinator toy_namespace)
       (MkMailbox (lit "a/b") (Dedup_new 4)) (lit "hi") toy_start).2
    Inner_default Inner_default (lit "a/b") (lit "hi") toy_nonce
    (MkMailbox (lit "a/b") (Dedup_new 4)) (MkMailbox (lit "a/b") (Dedup_new 4))
    toy_clock (λ _, toy_clock) toy_send toy_arrival (MkSendReport [Http] []) [] (MkHealthTracker []))
    as (sealed & tasks & tasks' & Hs & _ & _ & _ & H).
  - vm_refl.
  - vm_refl.
  - vm_refl.
  - vm_refl.
  - right. apply list_elem_of_here.
  - reflexivity.
  - intros pt Hpt. vm_compute in Hpt. injection Hpt as <-. vm_compute. discriminate.
  - vm_refl.
  - assert (Coordinator_seal toy_nonce (ns_coordinator toy_namespace) ChMailbox (lit "a/b") (lit "hi") None
            = Ok mail) as Hm by vm_refl.
    rewrite Hm in Hs. injection Hs as <-.
    refine (H 0 1 [(Iroh, Err TransportError_Timeout)] Http [] _ _ _ _ _);
      [lia | reflexivity | reflexivity | reflexivity |].
    apply (bool_decide_eq_true_1 (Dedup.digest mail ∉ window 4 [])). vm_refl.
Defined.
End NamespaceWitness.
