(* ===== verification/PeerNamespace.v ===== *)
(** * peer.rs: the public-key namespace

    A namespace holds the identity, the trusted peers and the group keys; it
    writes every change of trust or of group keys to the state store and, for
    trusted peers with an iroh endpoint, to the gate of the iroh transport.
    The maps behind the read-write locks are finite maps; iterating over one
    of them yields its values in some order, here the order of
    [map_to_list]. *)

From S2P Require Import Prelude Bytes Crypto Kdf Net Guard Errors Dedup Config Health PeerCard Msgpack State PeerEnvelope GroupEnvelope Coordinator Iroh Namespace.

(** ** Addresses *)

Inductive PeerAddress : Type :=
| PeerAddress_Pairwise (p : PeerId)
| PeerAddress_Publisher (p : PeerId)
| PeerAddress_Group (g : GroupId).

Definition address_domain (a : PeerAddress) : bytes :=
  match a with
  | PeerAddress_Pairwise _ => lit "enlace/v1/pkey/addr/pairwise"
  | PeerAddress_Publisher _ => lit "enlace/v1/pkey/addr/publisher"
  | PeerAddress_Group _ => lit "enlace/v1/pkey/addr/group"
  end.

Definition address_key (a : PeerAddress) : bytes :=
  match a with
  | PeerAddress_Pairwise p | PeerAddress_Publisher p => PeerId_to_bytes p
  | PeerAddress_Group g => GroupId_to_bytes g
  end.

Definition address_info (a : PeerAddress) (kind : ChannelKind) (name : bytes) : bytes :=
  address_domain a ++ ChannelKind_as_bytes kind ++ name.

(** ** Slot versions in the state store *)

Inductive PeerSlotScopeKey : Type :=
| PeerSlotScopeKey_Pairwise
| PeerSlotScopeKey_Publisher (p : PeerId)
| PeerSlotScopeKey_Group (g : GroupId).

Definition peer_slot_state_key (name : bytes) (scope : PeerSlotScopeKey) : bytes :=
  match scope with
  | PeerSlotScopeKey_Pairwise => lit "peer-slot" ++ [x00] ++ lit "pairwise" ++ [x00] ++ name
  | PeerSlotScopeKey_Publisher p =>
      lit "peer-slot" ++ [x00] ++ lit "publisher" ++ [x00] ++ PeerId_display p ++ [x00] ++ name
  | PeerSlotScopeKey_Group g =>
      lit "peer-slot" ++ [x00] ++ lit "group" ++ [x00] ++ GroupId_display g ++ [x00] ++ name
  end.

(** [sort_unstable] on distinct keys. *)
Definition bytes_le (a b : bytes) : Prop := bytes_ltb b a = false.
#[export] Instance bytes_le_dec a b : Decision (bytes_le a b).
Proof. unfold bytes_le. apply _. Defined.

Definition sort_by {A} (key : A → bytes) (l : list A) : list A :=
  merge_sort (λ a b, bytes_le (key a) (key b)) l.

(** [Vec::dedup]: of equal neighbours the first stays. *)
Fixpoint dedup_vec {A} `{EqDecision A} (l : list A) : list A :=
  match l with
  | [] => []
  | a :: l' =>
      match l' with
      | b :: _ => if decide (a = b) then dedup_vec l' else a :: dedup_vec l'
      | [] => [a]
      end
  end.

Section PeerNamespace.
Context `{PR : Primitives} `{UL : UrlLib} `{IL : IrohLib}.
Context {MPE : Msgpack PeerEnvelopeWire} {MPG : Msgpack GroupEnvelopeWire}.
Context {S : Type} {ST : StateStore S} {T : Type}.

Definition peer_address_id {E} (a : PeerAddress) (kind : ChannelKind) (name : bytes) : result bytes E :=
  hkdf_sha256 (address_key a) [] (address_info a kind name) 32.

Definition peer_transport_id {E} (transport : TransportKind) (a : PeerAddress) (kind : ChannelKind)
    (name : bytes) : result bytes E :=
  let! full := peer_address_id a kind name in
  Ok (match transport with
      | Iroh | Dht | Pkarr => full
      | _ => take CHANNEL_ID_LEN full
      end).

Record PeerConfig : Type := MkPeerConfig {
  pc_state : S;
  pc_trusted_peers : list TrustedPeer;
  pc_group_keys : list (GroupId * GroupKey);
  pc_http : option HttpConfig;
  pc_pkarr : option PkarrConfig;
  pc_iroh : option IrohConfig;
  pc_transports : list (ConfiguredTransport T)
}.

(** [pn_iroh] is the state behind the iroh handle, which is also one of the
    transports. *)
Record PeerNamespace : Type := MkPeerNamespace {
  pn_identity : PeerIdentity;
  pn_state : S;
  pn_trusted_peers : gmap PeerId TrustedPeer;
  pn_group_keys : gmap (GroupId * GroupKeyId) GroupKey;
  pn_transports : list (TransportEndpoint (T:=T));
  pn_iroh : option IrohInner
}.

(** The constructors of the transports: the handle of the iroh transport, the
    key it would draw and the answers of its endpoint builder. *)
Record PeerBuilders : Type := MkPeerBuilders {
  pb_http : HttpConfig → result T TransportError;
  pb_pkarr : bytes → PkarrConfig → result T TransportError;
  pb_iroh : T;
  pb_generated : bytes;
  pb_bind : endpoint_lib
}.

Definition trusted_iroh_endpoints (trusted : list TrustedPeer) : list IrohEndpointAddr :=
  filter_map (λ p, iroh_endpoint (card p)) trusted.

Definition upsert_iroh_peer (ps : list IrohEndpointAddr) (peer : IrohEndpointAddr) : list IrohEndpointAddr :=
  upsert_peer peer ps.

Definition with_peers (c : IrohConfig) (ps : list IrohEndpointAddr) : IrohConfig :=
  MkIrohConfig (relay_mode c) (bind_addrs c) ps (max_message_bytes c) (max_streams_per_peer c)
    (max_conns_per_peer c).

Definition open_peer_iroh_transport (b : PeerBuilders) (config : PeerConfig) (st : S)
    : result (option IrohInner) OpenError * S :=
  match pc_iroh config with
  | None => (Ok None, st)
  | Some iroh_config =>
      let trusted_endpoints := trusted_iroh_endpoints (pc_trusted_peers config) in
      let iroh_config := with_peers iroh_config (foldl upsert_iroh_peer (peers iroh_config) trusted_endpoints) in
      let allowed := match trusted_endpoints with
                     | [] => None
                     | es => Some (map endpoint_id es)
                     end in
      let '(r, st) := new_with_allowed_endpoints (pb_generated b) (pb_bind b) iroh_config allowed st in
      (let! i := map_err iroh_init_failed r in Ok (Some i), st)
  end.

(** ** Trust and group keys *)

Definition set_state (st : S) (n : PeerNamespace) : PeerNamespace :=
  MkPeerNamespace (pn_identity n) st (pn_trusted_peers n) (pn_group_keys n) (pn_transports n) (pn_iroh n).

Definition set_group_table (m : gmap (GroupId * GroupKeyId) GroupKey) (n : PeerNamespace) : PeerNamespace :=
  MkPeerNamespace (pn_identity n) (pn_state n) (pn_trusted_peers n) m (pn_transports n) (pn_iroh n).

Definition set_trust (m : gmap PeerId TrustedPeer) (i : option IrohInner) (n : PeerNamespace) : PeerNamespace :=
  MkPeerNamespace (pn_identity n) (pn_state n) m (pn_group_keys n) (pn_transports n) i.

Definition add_group_key (group : GroupId) (key : GroupKey) (n : PeerNamespace)
    : result unit GroupKeyError * PeerNamespace :=
  let '(r, st) := store_group_key group key (pn_state n) in
  let n := set_state st n in
  match r with
  | Ok _ => (Ok tt, set_group_table (<[(group, gk_id key) := key]> (pn_group_keys n)) n)
  | Err e => (Err (GroupKeyError_State e), n)
  | Panic => (Panic, n)
  end.

Definition remove_group_key_live (group : GroupId) (key_id : GroupKeyId) (n : PeerNamespace)
    : result unit GroupKeyError * PeerNamespace :=
  let '(r, st) := remove_group_key group key_id (pn_state n) in
  let n := set_state st n in
  match r with
  | Ok _ => (Ok tt, set_group_table (delete (group, key_id) (pn_group_keys n)) n)
  | Err e => (Err (GroupKeyError_State e), n)
  | Panic => (Panic, n)
  end.

Definition list_group_keys (group : GroupId) (n : PeerNamespace) : list GroupKeyId :=
  sort_by GroupKeyId_to_bytes
    (filter_map (λ e : GroupId * GroupKeyId * GroupKey, if decide (e.1.1 = group) then Some e.1.2 else None)
       (map_to_list (pn_group_keys n))).

Definition update_iroh_trusted_endpoint (old : option bytes) (endpoint : option IrohEndpointAddr)
    (iroh : option IrohInner) : option IrohInner :=
  match iroh with
  | None => None
  | Some i =>
      let i := match old with
               | Some o =>
                   if match endpoint with Some e => bool_decide (endpoint_id e ≠ o) | None => true end
                   then revoke_peer o i else i
               | None => i
               end in
      Some (match endpoint with Some e => (allow_peer e i).1 | None => i end)
  end.

(** The endpoint a replaced or removed entry had. *)
Definition old_endpoint (t : option TrustedPeer) : option bytes :=
  endpoint_id <$> (t ≫= λ p, iroh_endpoint (card p)).

Definition trust_peer (peer : TrustedPeer) (n : PeerNamespace) : result unit TrustError * PeerNamespace :=
  match PeerCard_validate (card peer) with
  | Err e => (Err (TrustError_InvalidPeerCard e), n)
  | Panic => (Panic, n)
  | Ok _ =>
      let '(r, st) := store_trusted_peer peer (pn_state n) in
      let n := set_state st n in
      match r with
      | Err e => (Err (TrustError_State e), n)
      | Panic => (Panic, n)
      | Ok _ =>
          let id := TrustedPeer_peer_id peer in
          let replaced := pn_trusted_peers n !! id in
          (Ok tt, set_trust (<[id := peer]> (pn_trusted_peers n))
                    (update_iroh_trusted_endpoint (old_endpoint replaced) (iroh_endpoint (card peer)) (pn_iroh n)) n)
      end
  end.

Definition remove_trusted_peer_live (peer : PeerId) (n : PeerNamespace)
    : result unit TrustError * PeerNamespace :=
  let '(r, st) := remove_trusted_peer peer (pn_state n) in
  let n := set_state st n in
  match r with
  | Err e => (Err (TrustError_State e), n)
  | Panic => (Panic, n)
  | Ok _ =>
      let removed := pn_trusted_peers n !! peer in
      (Ok tt, set_trust (delete peer (pn_trusted_peers n))
                (update_iroh_trusted_endpoint (old_endpoint removed) None (pn_iroh n)) n)
  end.

Definition trusted_cards (n : PeerNamespace) : list PeerCard :=
  sort_by (λ c, PeerId_to_bytes (peer_id c)) (map (λ e, card e.2) (map_to_list (pn_trusted_peers n))).

Definition trusted_snapshot (n : PeerNamespace) : list TrustedPeer := (map_to_list (pn_trusted_peers n)).*2.

Definition group_ids (n : PeerNamespace) : list GroupId :=
  dedup_vec (sort_by GroupId_to_bytes (map (λ e, e.1.1) (map_to_list (pn_group_keys n)))).

(** ** Opening *)

Fixpoint insert_trusted (l : list TrustedPeer) (m : gmap PeerId TrustedPeer)
    : result (gmap PeerId TrustedPeer) OpenError :=
  match l with
  | [] => Ok m
  | t :: l =>
      let! _ := map_err (λ e, OpenError_State (StateError_Corrupted (PeerCardError_display e)))
                  (PeerCard_validate (card t)) in
      insert_trusted l (<[TrustedPeer_peer_id t := t]> m)
  end.

Fixpoint insert_keys (l : list (GroupId * GroupKey)) (n : PeerNamespace)
    : result unit OpenError * PeerNamespace :=
  match l with
  | [] => (Ok tt, n)
  | (group, key) :: l =>
      match add_group_key group key n with
      | (Ok _, n) => insert_keys l n
      | (Err (GroupKeyError_State e), n) => (Err (OpenError_State e), n)
      | (Panic, n) => (Panic, n)
      end
  end.

(** The namespace, or the error and the state store it leaves behind. *)
Definition PeerNamespace_open (b : PeerBuilders) (identity : PeerIdentity) (config : PeerConfig)
    : result PeerNamespace OpenError * S :=
  let st := pc_state config in
  match
    let! http := open_builtin (pb_http b) (init_failed Http) (pc_http config) in
    let! pkarr := open_builtin (pb_pkarr b (PeerId_to_bytes (PeerIdentity_peer_id identity)))
                    (init_failed Pkarr) (pc_pkarr config) in
    Ok (http, pkarr)
  with
  | Err e => (Err e, st)
  | Panic => (Panic, st)
  | Ok (http, pkarr) =>
      let '(iroh, st) := open_peer_iroh_transport b config st in
      match let! iroh := iroh in
            let! m := insert_trusted (pc_trusted_peers config) ∅ in
            Ok (iroh, m) with
      | Err e => (Err e, st)
      | Panic => (Panic, st)
      | Ok (iroh, m) =>
          let transports := endpoint_of Http http ++ endpoint_of Pkarr pkarr
            ++ endpoint_of Iroh ((λ _, pb_iroh b) <$> iroh)
            ++ map (λ ct, MkTransportEndpoint (ct_kind ct) (ct_transport ct)) (pc_transports config) in
          let '(r, n) := insert_keys (pc_group_keys config) (MkPeerNamespace identity st m ∅ transports iroh) in
          (let! _ := r in Ok n, pn_state n)
      end
  end.

(** ** Group envelopes through the key table *)

Definition resolve_group_keys (requested : list (GroupId * GroupKeyId)) (n : PeerNamespace)
    : result (list (GroupId * GroupKey)) GroupEnvelopeError :=
  match requested with
  | [] => Err GroupEnvelopeError_NoGroupKeys
  | _ => map_result (λ r, match pn_group_keys n !! r with
                          | Some key => Ok (r.1, key)
                          | None => Err GroupEnvelopeError_MissingGroupKey
                          end) requested
  end.

Definition group_keys_for_envelope (e : GroupEnvelope) (n : PeerNamespace) : list (GroupId * GroupKey) :=
  filter_map (λ x, (λ key, (ge_group x, key)) <$> pn_group_keys n !! (ge_group x, ge_key_id x)) (gr_entries e).

Definition seal_group_envelope (nonces : nat → bytes) (kind : ChannelKind) (name payload : bytes)
    (requested : list (GroupId * GroupKeyId)) (n : PeerNamespace) : result GroupEnvelope GroupEnvelopeError :=
  let! keys := resolve_group_keys requested n in
  GroupEnvelope_seal nonces (pn_identity n) kind name payload keys.

Definition open_group_envelope (e : GroupEnvelope) (kind : ChannelKind) (name : bytes)
    (trusted : list TrustedPeer) (n : PeerNamespace) : result GroupEnvelopeMessage GroupEnvelopeError :=
  GroupEnvelope_open e kind name trusted (group_keys_for_envelope e n).

Definition open_group_envelope_or_drop (b : bytes) (kind : ChannelKind) (name : bytes)
    (trusted : list TrustedPeer) (n : PeerNamespace) : option GroupEnvelopeMessage :=
  match ok (GroupEnvelope_from_bytes b) with
  | Some e => ok (open_group_envelope e kind name trusted n)
  | None => None
  end.
End PeerNamespace.

(** ** Lemmas: addresses and state keys *)

Lemma address_info_inj a b kind kind' name name' :
  address_info a kind name = address_info b kind' name' →
  address_domain a = address_domain b ∧ kind = kind' ∧ name = name'.
Proof.
  unfold address_info. intros H. destruct a, b; cbn [address_domain] in *;
    try (apply app_inv_head in H; by apply ChannelKind_prefix_code in H as [-> ->]);
    exfalso; destruct kind, kind'; cbn in H; discriminate.
Qed.

Lemma app_sep_inj (x : byte) a b c d :
  length a = length b → a ++ [x] ++ c = b ++ [x] ++ d → a = b ∧ c = d.
Proof. intros Hl [-> [= ->]]%app_inj_length; done. Qed.

(** The record of a scope is at its own key. *)
Lemma peer_slot_state_key_inj name name' s s' :
  (∀ p, s = PeerSlotScopeKey_Publisher p → length (PeerId_to_bytes p) = PEER_ID_LEN) →
  (∀ p, s' = PeerSlotScopeKey_Publisher p → length (PeerId_to_bytes p) = PEER_ID_LEN) →
  (∀ g, s = PeerSlotScopeKey_Group g → length (GroupId_to_bytes g) = 32) →
  (∀ g, s' = PeerSlotScopeKey_Group g → length (GroupId_to_bytes g) = 32) →
  peer_slot_state_key name s = peer_slot_state_key name' s' → name = name' ∧ s = s'.
Proof.
  intros Hp Hp' Hg Hg'. destruct s as [|[p]|[g]], s' as [|[p']|[g']]; cbn [peer_slot_state_key];
    try (intros H; exfalso; cbn in H; discriminate).
  - intros H. do 4 apply app_inv_head in H. done.
  - intros H. do 4 apply app_inv_head in H. unfold PeerId_display in H. apply app_sep_inj in H as [Ha ->].
    + apply hex_bytes_inj in Ha. cbn in Ha. by subst.
    + by rewrite !length_hex_bytes, (Hp _ eq_refl), (Hp' _ eq_refl).
  - intros H. do 4 apply app_inv_head in H. unfold GroupId_display in H. apply app_sep_inj in H as [Ha ->].
    + apply hex_bytes_inj in Ha. cbn in Ha. by subst.
    + by rewrite !length_hex_bytes, (Hg _ eq_refl), (Hg' _ eq_refl).
Qed.

(** No channel name is such a key: the keys contain a zero byte. *)
Lemma peer_slot_state_key_not_name name scope : ~ name_ok (peer_slot_state_key name scope).
Proof.
  intros [_ H]. rewrite Forall_forall in H.
  assert (name_byte_ok x00 = true) as Hx; [| by vm_compute in Hx].
  apply H. destruct scope; cbn [peer_slot_state_key]; apply elem_of_app; right; apply list_elem_of_here.
Qed.

(** ** Lemmas: the gate of the iroh transport *)

Section Gate.
Context `{PR : Primitives} `{UL : UrlLib} `{IL : IrohLib}.
Context {MPE : Msgpack PeerEnvelopeWire} {MPG : Msgpack GroupEnvelopeWire}.
Context {S : Type} {ST : StateStore S} {T : Type}.
Notation PeerNamespace := (PeerNamespace (S:=S) (T:=T)).

Definition endpoint_of_peer (t : TrustedPeer) : option EndpointId :=
  iroh_endpoint (card t) ≫= λ e, EndpointId_from_bytes (endpoint_id e).

(** Some trusted peer's card names the endpoint [x]. *)
Definition trusts_endpoint (m : gmap PeerId TrustedPeer) (x : EndpointId) : Prop :=
  ∃ p t, m !! p = Some t ∧ endpoint_of_peer t = Some x.

Lemma EndpointId_from_bytes_inj b b' x :
  EndpointId_from_bytes b = Some x → EndpointId_from_bytes b' = Some x → b = b'.
Proof. intros H%EndpointId_as_from H'%EndpointId_as_from. congruence. Qed.

Lemma allow_peer_allowed e i :
  ii_allowed_endpoints (allow_peer e i).1
  = match EndpointId_from_bytes (endpoint_id e) with
    | Some x => (λ a, {[x]} ∪ a) <$> ii_allowed_endpoints i
    | None => ii_allowed_endpoints i
    end.
Proof.
  unfold allow_peer, endpoint_id_from_bytes, add_peer_addr. cbn.
  by destruct (ii_allowed_endpoints i) eqn:E, (EndpointId_from_bytes (endpoint_id e)); cbn; rewrite ?E.
Qed.

Lemma revoke_peer_allowed o i :
  ii_allowed_endpoints (revoke_peer o i)
  = match EndpointId_from_bytes o with
    | Some x => (λ a, a ∖ {[x]}) <$> ii_allowed_endpoints i
    | None => ii_allowed_endpoints i
    end.
Proof.
  unfold revoke_peer, endpoint_id_from_bytes, remove_peer. cbn.
  destruct (ii_allowed_endpoints i) eqn:E, (EndpointId_from_bytes o); cbn; rewrite ?E;
    destruct (negb _); cbn; rewrite ?E; done.
Qed.

(** Every endpoint has one owner, and the table is keyed by the peers' ids. *)
Variable owner : bytes → PeerId.

Definition owned (t : TrustedPeer) : Prop :=
  ∀ e, iroh_endpoint (card t) = Some e → TrustedPeer_peer_id t = owner (endpoint_id e).

Definition table_ok (m : gmap PeerId TrustedPeer) : Prop :=
  map_Forall (λ p t, TrustedPeer_peer_id t = p ∧ owned t) m.

(** A table entry's endpoint belongs to its peer alone. *)
Lemma endpoint_key m p t x :
  table_ok m → m !! p = Some t → endpoint_of_peer t = Some x →
  ∃ e, iroh_endpoint (card t) = Some e ∧ EndpointId_from_bytes (endpoint_id e) = Some x
     ∧ p = owner (endpoint_id e).
Proof.
  intros Hm Hp Hx. destruct (Hm p t Hp) as [Hid Ho]. unfold endpoint_of_peer in Hx.
  destruct (iroh_endpoint (card t)) as [e|] eqn:E; [| done]. exists e. split_and!; [done | done |].
  rewrite <- Hid. by apply Ho.
Qed.

Lemma trusts_endpoint_insert m p t x :
  trusts_endpoint (<[p := t]> m) x ↔ endpoint_of_peer t = Some x ∨ trusts_endpoint (delete p m) x.
Proof.
  split.
  - intros (q & u & [[<- <-]|[Hne Hq]]%lookup_insert_Some & Hx); [by left |].
    right. exists q, u. by rewrite lookup_delete_ne.
  - intros [Hx|(q & u & [Hne Hq]%lookup_delete_Some & Hx)].
    + exists p, t. by rewrite lookup_insert_eq.
    + exists q, u. by rewrite lookup_insert_ne.
Qed.

(** What stays trusted when an entry is dropped: every endpoint but its own,
    and its own too unless the endpoints have one owner each. *)
Lemma trusts_endpoint_delete_2 m p x :
  trusts_endpoint m x → (∀ o, old_endpoint (m !! p) = Some o → EndpointId_from_bytes o ≠ Some x) →
  trusts_endpoint (delete p m) x.
Proof.
  intros (q & u & Hq & Hx) Hno. exists q, u. split; [| done].
  apply lookup_delete_Some. split; [| done]. intros <-. unfold endpoint_of_peer in Hx.
  destruct (iroh_endpoint (card u)) as [e|] eqn:He; [| done].
  eapply (Hno (endpoint_id e)); [| done]. unfold old_endpoint. rewrite Hq. cbn. by rewrite He.
Qed.

Lemma trusts_endpoint_delete_1 m p x :
  table_ok m → trusts_endpoint (delete p m) x →
  trusts_endpoint m x ∧ (∀ o, old_endpoint (m !! p) = Some o → EndpointId_from_bytes o ≠ Some x).
Proof.
  intros Hm (q & u & [Hne Hq]%lookup_delete_Some & Hx). split; [by exists q, u |].
  intros o Ho Hfo. destruct (m !! p) as [t|] eqn:Hp; [| done].
  destruct (endpoint_key m q u x Hm Hq Hx) as (e & He & Hex & Hqo).
  unfold old_endpoint in Ho. cbn in Ho. destruct (iroh_endpoint (card t)) as [e'|] eqn:E; [| done].
  cbn in Ho. injection Ho as <-. destruct (Hm p t Hp) as [Hid Hown].
  assert (endpoint_id e = endpoint_id e') as Heq by (by eapply EndpointId_from_bytes_inj).
  specialize (Hown e' E). apply Hne. rewrite <- Hid, Hown, <- Heq. done.
Qed.

Lemma table_ok_delete m p : table_ok m → table_ok (delete p m).
Proof. intros Hm q t [_ Hq]%lookup_delete_Some. by apply Hm. Qed.

Lemma table_ok_insert m t : table_ok m → owned t → table_ok (<[TrustedPeer_peer_id t := t]> m).
Proof. intros Hm Ho. by apply map_Forall_insert_2. Qed.

(** The endpoint bytes of [e] as a key. *)
Definition endpoint_key_of (e : option IrohEndpointAddr) : option EndpointId :=
  e ≫= λ e, EndpointId_from_bytes (endpoint_id e).

Lemma update_allowed old e i :
  ∃ i', update_iroh_trusted_endpoint old e (Some i) = Some i'
  ∧ match ii_allowed_endpoints i, ii_allowed_endpoints i' with
    | None, None => True
    | Some a, Some a' =>
        ∀ x, x ∈ a' ↔ endpoint_key_of e = Some x ∨ (x ∈ a ∧ ∀ o, old = Some o → EndpointId_from_bytes o ≠ Some x)
    | _, _ => False
    end.
Proof.
  unfold update_iroh_trusted_endpoint.
  pose (i1 := match old with
              | Some o => if match e with Some e => bool_decide (endpoint_id e ≠ o) | None => true end
                          then revoke_peer o i else i
              | None => i end).
  assert (match ii_allowed_endpoints i, ii_allowed_endpoints i1 with
    | None, None => True
    | Some a, Some a' =>
        ∀ x, x ∈ a' ↔ x ∈ a ∧ ((∀ o, old = Some o → EndpointId_from_bytes o ≠ Some x)
                               ∨ endpoint_key_of e = Some x)
    | _, _ => False
    end) as H1.
  { unfold i1. destruct old as [o|]; [| destruct (ii_allowed_endpoints i); naive_solver].
    destruct (match e with Some _ => _ | None => _ end) eqn:Hne.
    - rewrite revoke_peer_allowed. destruct (ii_allowed_endpoints i) as [a|]; [| by destruct (EndpointId_from_bytes o)].
      assert (∀ x, endpoint_key_of e = Some x → EndpointId_from_bytes o ≠ Some x) as Hdiff.
      { intros x Hx Ho. destruct e as [e|]; [| done]. apply bool_decide_eq_true in Hne. apply Hne.
        by eapply EndpointId_from_bytes_inj. }
      destruct (EndpointId_from_bytes o) as [y|] eqn:Ey; cbn; intros x; [| naive_solver].
      rewrite elem_of_difference, elem_of_singleton. split.
      + intros [Ha Hxy]. split; [done |]. left. intros o' [= <-]. rewrite Ey. congruence.
      + intros [Ha Hor]. split; [done |]. intros ->.
        destruct Hor as [Hor|Hk]; [by apply (Hor o) | by apply (Hdiff y)].
    - destruct (ii_allowed_endpoints i) as [a|]; [| done]. intros x. split; [| naive_solver].
      intros Ha. split; [done |]. destruct e as [e|]; [| done].
      apply bool_decide_eq_false, dec_stable in Hne. subst o. cbn.
      destruct (decide (EndpointId_from_bytes (endpoint_id e) = Some x)); [by right | left; naive_solver]. }
  destruct e as [e|]; fold i1; (eexists; split; [reflexivity |]).
  - rewrite allow_peer_allowed. cbn [endpoint_key_of option_bind mbind].
    destruct (ii_allowed_endpoints i) as [a|], (ii_allowed_endpoints i1) as [a1|]; try done;
      [| by destruct (EndpointId_from_bytes (endpoint_id e))].
    cbn [endpoint_key_of mbind option_bind] in H1.
    destruct (EndpointId_from_bytes (endpoint_id e)) as [y|]; cbn; intros x; [| naive_solver].
    rewrite elem_of_union, elem_of_singleton, H1. naive_solver.
  - destruct (ii_allowed_endpoints i) as [a|], (ii_allowed_endpoints i1) as [a1|]; try done.
    intros x. rewrite H1. cbn. naive_solver.
Qed.

(** ** Histories of trust and key changes *)

Inductive peer_op : Type :=
| PeerTrust (t : TrustedPeer)
| PeerRemove (p : PeerId)
| PeerAddKey (g : GroupId) (k : GroupKey)
| PeerRemoveKey (g : GroupId) (k : GroupKeyId).

Definition peer_apply (n : PeerNamespace) (op : peer_op) : PeerNamespace :=
  match op with
  | PeerTrust t => (trust_peer t n).2
  | PeerRemove p => (remove_trusted_peer_live p n).2
  | PeerAddKey g k => (add_group_key g k n).2
  | PeerRemoveKey g k => (remove_group_key_live g k n).2
  end.

Definition op_owned (op : peer_op) : Prop := match op with PeerTrust t => owned t | _ => True end.

(** The gate is restricted exactly when [restricted] holds, and then it lets
    through only trusted endpoints, and under [exact], when the endpoints have
    one owner each, all of them. *)
Definition gate_inv (exact restricted : Prop) (n : PeerNamespace) : Prop :=
  (exact → table_ok (pn_trusted_peers n))
  ∧ match pn_iroh n with
    | None => True
    | Some i =>
        match ii_allowed_endpoints i with
        | None => ~ restricted
        | Some a => restricted ∧ (∀ x, x ∈ a → trusts_endpoint (pn_trusted_peers n) x)
                    ∧ (exact → ∀ x, trusts_endpoint (pn_trusted_peers n) x → x ∈ a)
        end
    end.

Lemma gate_inv_update exact restricted n st m' e old :
  let kept x := endpoint_key_of e = Some x
    ∨ (trusts_endpoint (pn_trusted_peers n) x ∧ ∀ o, old = Some o → EndpointId_from_bytes o ≠ Some x) in
  gate_inv exact restricted n → (exact → table_ok m') → (∀ x, kept x → trusts_endpoint m' x) →
  (exact → ∀ x, trusts_endpoint m' x → kept x) →
  gate_inv exact restricted (set_trust m' (update_iroh_trusted_endpoint old e (pn_iroh n)) (set_state st n)).
Proof.
  intros kept [Hm Hg] Hm' H2 H1. split; [done |]. cbn. destruct (pn_iroh n) as [i|]; [| done].
  destruct (update_allowed old e i) as (i' & -> & H).
  destruct (ii_allowed_endpoints i) as [a|], (ii_allowed_endpoints i') as [a'|]; try done.
  destruct Hg as (Hr & Hs & Hc). split_and!; [done | |].
  - intros x [Hx|[Hx Ho]]%H; apply H2; [by left |]. right. split; [by apply Hs | done].
  - intros He x Hx%(H1 He). apply H. destruct Hx as [Hx|[Hx Ho]]; [by left |]. right. split; [by apply Hc | done].
Qed.

Lemma peer_apply_gate (exact restricted : Prop) n op :
  (exact → op_owned op) → gate_inv exact restricted n → gate_inv exact restricted (peer_apply n op).
Proof.
  intros Ho Hg. destruct op as [t|p|g k|g k]; cbn [peer_apply op_owned] in *.
  - unfold trust_peer. destruct (PeerCard_validate (card t)); [| done ..].
    destruct (store_trusted_peer t (pn_state n)) as [[?|?|] st]; [| done ..].
    apply (gate_inv_update exact restricted n st (<[TrustedPeer_peer_id t := t]> (pn_trusted_peers n))
             (iroh_endpoint (card t))); [done | | |].
    + intros He. apply table_ok_insert; [by apply Hg | by apply Ho].
    + intros x Hx. apply trusts_endpoint_insert. destruct Hx as [Hx|[Hx Hn]]; [by left |].
      right. by apply trusts_endpoint_delete_2.
    + intros He x [Hx|Hx]%trusts_endpoint_insert; [by left |]. right.
      apply trusts_endpoint_delete_1 in Hx; [done | by apply Hg].
  - unfold remove_trusted_peer_live. destruct (remove_trusted_peer p (pn_state n)) as [[?|?|] st]; [| done ..].
    apply (gate_inv_update exact restricted n st (delete p (pn_trusted_peers n)) None); [done | | |].
    + intros He. apply table_ok_delete. by apply Hg.
    + intros x [Hx|[Hx Hn]]; [done | by apply trusts_endpoint_delete_2].
    + intros He x Hx. right. apply trusts_endpoint_delete_1 in Hx; [done | by apply Hg].
  - unfold add_group_key. by destruct (store_group_key g k (pn_state n)) as [[?|?|] st].
  - unfold remove_group_key_live. by destruct (remove_group_key g k (pn_state n)) as [[?|?|] st].
Qed.

(** Dropping an entry closes the gate to its endpoint even when another
    trusted peer's card names the same endpoint. *)
Lemma shared_endpoint_revoked (n n' : PeerNamespace) p t x i :
  pn_trusted_peers n !! p = Some t → endpoint_of_peer t = Some x →
  remove_trusted_peer_live p n = (Ok tt, n') → pn_iroh n' = Some i → ii_allowed_endpoints i ≠ None →
  ¬ permitted (ii_allowed_endpoints i) x.
Proof.
  unfold remove_trusted_peer_live. destruct (remove_trusted_peer p (pn_state n)) as [[?|?|] st]; [| done ..].
  cbn [pn_trusted_peers pn_iroh set_state]. intros Ht Hx [= <-]. cbn [pn_iroh set_trust]. rewrite Ht.
  destruct (pn_iroh n) as [i0|]; [| done].
  destruct (update_allowed (old_endpoint (Some t)) None i0) as (i' & -> & H). intros [= <-] Ha.
  destruct (ii_allowed_endpoints i0) as [a|], (ii_allowed_endpoints i') as [a'|]; try done.
  cbn [permitted]. rewrite H. intros [|[_ Hn]]; [done |]. unfold endpoint_of_peer in Hx.
  destruct (iroh_endpoint (card t)) as [e|] eqn:He; [| done].
  eapply (Hn (endpoint_id e)); [| done]. unfold old_endpoint. cbn. by rewrite He.
Qed.

(** ** The gate at the start *)

Lemma insert_trusted_Ok l m m' :
  insert_trusted l m = Ok m' →
  NoDup (TrustedPeer_peer_id <$> l) →
  ∀ p t, m' !! p = Some t ↔
    (t ∈ l ∧ TrustedPeer_peer_id t = p) ∨ (m !! p = Some t ∧ p ∉ TrustedPeer_peer_id <$> l).
Proof.
  revert m. induction l as [|u l IH]; intros m; cbn [insert_trusted].
  - intros [= <-] _ p t. set_solver.
  - destruct (PeerCard_validate (card u)); cbn [map_err rbind]; [| done ..].
    rewrite fmap_cons. intros H [Hu Hl]%NoDup_cons p v.
    rewrite (IH _ H Hl), lookup_insert_Some, elem_of_cons, not_elem_of_cons.
    split.
    + intros [[Ht Hp]|[[[<- <-]|[Hne Hm]] Hn]]; [left; by split; [right |] | left; by split; [left |] |].
      right. split_and!; [done | | done]. congruence.
    + intros [[[->|Ht] Hp]|[Hm [Hne Hn]]]; [| by left |].
      * right. split; [by left |]. by subst p.
      * right. split; [right; split; [congruence | done] | done].
Qed.

Lemma allowed_of_Ok ids a x :
  allowed_of ids = Ok a → (x ∈ a ↔ ∃ b, b ∈ ids ∧ EndpointId_from_bytes b = Some x).
Proof.
  unfold allowed_of. intros (es & Hes%map_result_Ok_Forall2 & [= <-])%rbind_Ok.
  rewrite elem_of_list_to_set. induction Hes as [|b e ids es Hb _ IH].
  - split; [by intros ?%not_elem_of_nil | intros (b & ?%not_elem_of_nil & _); done].
  - rewrite elem_of_cons, IH. unfold endpoint_id_from_bytes in Hb.
    destruct (EndpointId_from_bytes b) as [y|] eqn:Ey; [| done]. injection Hb as ->.
    setoid_rewrite elem_of_cons. split.
    + intros [->|(b' & ? & ?)]; [exists b; by split; [left |] | exists b'; by split; [right |]].
    + intros (b' & [->|?] & ?); [left; congruence | right; by exists b'].
Qed.

Lemma new_with_allowed_Ok generated bind config allowed (st : S) i st' :
  new_with_allowed_endpoints generated bind config allowed st = (Ok i, st') →
  match allowed with
  | None => ii_allowed_endpoints i = None
  | Some ids => ∃ a, allowed_of ids = Ok a ∧ ii_allowed_endpoints i = Some a
  end.
Proof.
  unfold new_with_allowed_endpoints.
  destruct (match iroh_keypair st with Ok _ => _ | Err _ => _ | Panic => _ end) as [secret st0].
  intros [= H _]. apply rbind_Ok in H as (sec & _ & H). apply rbind_Ok in H as (lookup & _ & H).
  apply rbind_Ok in H as (al & Hal%map_err_Ok & H). apply rbind_Ok in H as (u & _ & H).
  injection H as <-. cbn. destruct allowed as [ids|]; [| by injection Hal as <-].
  apply rbind_Ok in Hal as (a & Ha & [= <-]). by exists a.
Qed.

Lemma trusted_iroh_endpoints_elem l x :
  (∃ b, b ∈ map endpoint_id (trusted_iroh_endpoints l) ∧ EndpointId_from_bytes b = Some x)
  ↔ ∃ t, t ∈ l ∧ endpoint_of_peer t = Some x.
Proof.
  unfold endpoint_of_peer. split.
  - intros (b & (e & -> & (t & Ht & He)%elem_of_filter_map)%list_elem_of_fmap & Hx).
    exists t. split; [done |]. by rewrite He.
  - intros (t & Ht & Hx). destruct (iroh_endpoint (card t)) as [e|] eqn:He; [| done].
    exists (endpoint_id e). split; [| done]. apply list_elem_of_fmap. exists e. split; [done |].
    apply elem_of_filter_map. by exists t.
Qed.

Lemma insert_keys_gate exact restricted l n r n' :
  gate_inv exact restricted n → insert_keys l n = (r, n') → gate_inv exact restricted n'.
Proof.
  revert n. induction l as [|[g k] l IH]; intros n Hg; cbn [insert_keys]; [by intros [= _ <-] |].
  pose proof (peer_apply_gate exact restricted n (PeerAddKey g k) (λ _, I) Hg) as Hn. cbn [peer_apply] in Hn.
  destruct (add_group_key g k n) as [[?|[e]|] n1]; [by apply IH | by intros [= _ <-] ..].
Qed.

Lemma PeerNamespace_open_gate (exact : Prop) b identity config n st :
  (exact → Forall owned (pc_trusted_peers config)) → NoDup (TrustedPeer_peer_id <$> pc_trusted_peers config) →
  PeerNamespace_open b identity config = (Ok n, st) →
  gate_inv exact (trusted_iroh_endpoints (pc_trusted_peers config) ≠ []) n.
Proof.
  intros Hown Hnd. unfold PeerNamespace_open.
  destruct (let! http := _ in _) as [[http pkarr]|?|]; [| done ..].
  destruct (open_peer_iroh_transport b config (pc_state config)) as [iroh st0] eqn:Hiroh.
  destruct (let! iroh := _ in _) as [[iroh' m]|?|] eqn:Hm; [| done ..].
  apply rbind_Ok in Hm as (iroh0 & -> & Hm). apply rbind_Ok in Hm as (m0 & Hm & [= -> ->]).
  destruct (insert_keys _ _) as [r n'] eqn:Hk. intros [= Hr _].
  apply rbind_Ok in Hr as (u & -> & [= <-]). revert Hk. apply insert_keys_gate.
  pose proof (insert_trusted_Ok _ _ _ Hm Hnd) as Hlook.
  split; cbn.
  - intros He%Hown p t [[Ht <-]|[Hp _]]%Hlook; [split; [done | by eapply Forall_forall in He] |]. by rewrite lookup_empty in Hp.
  - revert Hiroh. unfold open_peer_iroh_transport.
    destruct (pc_iroh config) as [ic|]; [| by intros [= <- _]].
    destruct (new_with_allowed_endpoints _ _ _ _ _) as [[i|?|] st1] eqn:Hnew; cbn; [| done ..].
    intros [= <- _]. apply new_with_allowed_Ok in Hnew.
    assert (∀ x, trusts_endpoint m x ↔ ∃ t, t ∈ pc_trusted_peers config ∧ endpoint_of_peer t = Some x) as Htr.
    { intros x. unfold trusts_endpoint. setoid_rewrite Hlook. split.
      - intros (p & t & [[Ht _]|[Hp _]] & Hx); [by exists t | by rewrite lookup_empty in Hp].
      - intros (t & Ht & Hx). exists (TrustedPeer_peer_id t), t. split; [by left | done]. }
    destruct (trusted_iroh_endpoints (pc_trusted_peers config)) as [|e0 es] eqn:He; cbn in Hnew.
    + rewrite Hnew. by intros Hc.
    + destruct Hnew as (a & Ha & ->).
      assert (∀ x, x ∈ a ↔ trusts_endpoint m x) as Hx
        by (intros x; rewrite (allowed_of_Ok _ _ _ Ha), Htr, <- trusted_iroh_endpoints_elem, He; done).
      split_and!; [done | intros x; by apply Hx | intros _ x; by apply Hx].
Qed.

(** ** Claims *)

(** C27: the connection gate follows trust.  Take a namespace opened with
    iroh whose configured peers have distinct ids, and any changes of trust
    and of group keys.  The gate is sound: a connection from an endpoint
    passes only when a trusted peer's card names that endpoint, or when no
    configured peer named one at the start, such a namespace accepting every
    endpoint whatever is trusted later.  When moreover no two peers ever
    configured or trusted share an endpoint (each endpoint has one [owner]),
    the gate is exact: every endpoint that a trusted card names passes.
    Neither hypothesis can be dropped: [shared_endpoint_revoked] and
    [repeated_peer_stays] show what the code does without it. *)
Theorem peer_gate_follows_trust (b : PeerBuilders) (identity : PeerIdentity) (config : PeerConfig)
    (n : PeerNamespace) (st : S) (ops : list peer_op) (i : IrohInner) (x : EndpointId) :
  NoDup (TrustedPeer_peer_id <$> pc_trusted_peers config) → PeerNamespace_open b identity config = (Ok n, st) →
  let n' := foldl peer_apply n ops in
  let reachable := trusted_iroh_endpoints (pc_trusted_peers config) = [] ∨ trusts_endpoint (pn_trusted_peers n') x in
  pn_iroh n' = Some i →
  (permitted (ii_allowed_endpoints i) x → reachable)
  ∧ (Forall owned (pc_trusted_peers config) → Forall op_owned ops → reachable → permitted (ii_allowed_endpoints i) x).
Proof.
  intros Hnd Hopen. cbv zeta.
  set (exact := Forall owned (pc_trusted_peers config) ∧ Forall op_owned ops).
  assert (∀ ops', (exact → Forall op_owned ops') →
    gate_inv exact (trusted_iroh_endpoints (pc_trusted_peers config) ≠ []) (foldl peer_apply n ops')) as Hinv.
  { induction ops' as [|op ops' IH] using rev_ind; intros Hops.
    - by eapply PeerNamespace_open_gate; [intros [? _] |..].
    - rewrite foldl_app. apply peer_apply_gate.
      + intros He. specialize (Hops He). apply Forall_app in Hops as [_ Hop]. by inversion Hop.
      + apply IH. intros He. specialize (Hops He). by apply Forall_app in Hops as [? _]. }
  destruct (Hinv ops) as [_ Hg]; [by intros [_ ?] |]. intros Hi. rewrite Hi in Hg.
  unfold permitted. destruct (ii_allowed_endpoints i) as [a|].
  - destruct Hg as (Hr & Hs & Hc). split; [intros Hx; right; by apply Hs |].
    intros Ho Hops [?|Hx]; [done | by apply Hc].
  - split; [| done]. intros _. left. destruct (trusted_iroh_endpoints (pc_trusted_peers config)); [done |].
    by destruct Hg.
Qed.
End Gate.

(** ** Witnesses *)

Module PeerNamespaceWitness.
Import Toy PeerEnvelopeWitness GroupEnvelopeWitness IrohWitness.
#[local] Existing Instance ToyUrl.toy_url.
#[local] Existing Instance toy_iroh.

Definition e6 : EndpointId := x06.
Definition addr (b : byte) : IrohEndpointAddr := MkIrohEndpointAddr (replicate 32 b) [] [].
Definition bob_at (b : byte) : TrustedPeer := TrustedPeer_new (card_with_iroh_endpoint bob (addr b)).

Definition toy_peer_config : PeerConfig (S:=InMemoryInner) (T:=unit) :=
  MkPeerConfig Inner_default [bob_at x05] [(team, team_key)] None None (Some IrohConfig_default) [].

Definition toy_peer_builders : PeerBuilders (T:=unit) :=
  MkPeerBuilders (λ _, Ok tt) (λ _ _, Ok tt) tt (replicate 32 x07) easy_lib.

Definition toy_peer_ns : PeerNamespace (S:=InMemoryInner) (T:=unit) :=
  match (PeerNamespace_open toy_peer_builders alice toy_peer_config).1 with
  | Ok n => n
  | _ => MkPeerNamespace alice Inner_default ∅ ∅ [] None
  end.

Lemma toy_open : PeerNamespace_open toy_peer_builders alice toy_peer_config = (Ok toy_peer_ns, pn_state toy_peer_ns).
Proof. vm_refl. Qed.

Definition moved : PeerNamespace (S:=InMemoryInner) (T:=unit) := foldl peer_apply toy_peer_ns [PeerTrust (bob_at x06)].

Definition moved_iroh : IrohInner :=
  match pn_iroh moved with Some i => i | None => MkIrohInner [] [] [] None ∅ [] end.

(** A peer configured twice, with two endpoints: the table keeps the second
    entry and the gate lets both endpoints through. *)
Definition repeated_config : PeerConfig (S:=InMemoryInner) (T:=unit) :=
  MkPeerConfig Inner_default [bob_at x05; bob_at x06] [] None None (Some IrohConfig_default) [].

Definition repeated_ns : PeerNamespace (S:=InMemoryInner) (T:=unit) :=
  match (PeerNamespace_open toy_peer_builders alice repeated_config).1 with
  | Ok n => n
  | _ => toy_peer_ns
  end.

Lemma repeated_peer_stays :
  PeerNamespace_open toy_peer_builders alice repeated_config = (Ok repeated_ns, pn_state repeated_ns)
  ∧ (λ i, bool_decide (permitted (ii_allowed_endpoints i) e5)) <$> pn_iroh repeated_ns = Some true
  ∧ ¬ trusts_endpoint (pn_trusted_peers repeated_ns) e5.
Proof.
  split; [vm_refl |]. split; [vm_refl |].
  assert (pn_trusted_peers repeated_ns = {[ PeerIdentity_peer_id bob := bob_at x06 ]}) as -> by vm_refl.
  intros (p & t & [_ <-]%lookup_singleton_Some & Hx). vm_compute in Hx. discriminate Hx.
Qed.

(** Bob moves from one endpoint to another: the gate follows. *)
Lemma peer_gate_follows_trust_witness :
  ~ permitted (ii_allowed_endpoints moved_iroh) e5 ∧ permitted (ii_allowed_endpoints moved_iroh) e6.
Proof.
  assert (pn_iroh (foldl peer_apply toy_peer_ns [PeerTrust (bob_at x06)]) = Some moved_iroh) as Hi by vm_refl.
  assert (Forall (owned (λ _, PeerIdentity_peer_id bob)) (pc_trusted_peers toy_peer_config)) as Hown.
  { apply Forall_forall. intros t Ht%list_elem_of_singleton e _. rewrite Ht. reflexivity. }
  assert (NoDup (TrustedPeer_peer_id <$> pc_trusted_peers toy_peer_config)) as Hnd by apply NoDup_singleton.
  assert (Forall (op_owned (λ _, PeerIdentity_peer_id bob)) [PeerTrust (bob_at x06)]) as Hops.
  { apply Forall_forall. intros op Hop%list_elem_of_singleton. rewrite Hop. intros e _. reflexivity. }
  assert (pn_trusted_peers (foldl peer_apply toy_peer_ns [PeerTrust (bob_at x06)])
          = {[ PeerIdentity_peer_id bob := bob_at x06 ]}) as Hm by vm_refl.
  pose proof (peer_gate_follows_trust (λ _, PeerIdentity_peer_id bob) toy_peer_builders alice toy_peer_config
    toy_peer_ns (pn_state toy_peer_ns) [PeerTrust (bob_at x06)] moved_iroh) as Hgate.
  split.
  - intros Hp. destruct (Hgate e5 Hnd toy_open Hi) as [Hf _].
    destruct (Hf Hp) as [Hnil|(p & t & Hl & Hx)]; [discriminate Hnil |].
    rewrite Hm in Hl. apply lookup_singleton_Some in Hl as [_ <-]. vm_compute in Hx. discriminate Hx.
  - destruct (Hgate e6 Hnd toy_open Hi) as [_ Hb]. apply (Hb Hown Hops). right.
    exists (PeerIdentity_peer_id bob), (bob_at x06). rewrite Hm. split; [apply lookup_singleton_eq | vm_refl].
Defined.
End PeerNamespaceWitness.
