(* ===== verification/PeerChannels.v ===== *)
(** * peer.rs: public-key mailboxes and slots

    A peer mailbox sends one envelope to the address of every recipient, or
    of a group, over every transport, and receives on its own address and on
    those of its groups; a peer slot adds a version inside the encrypted
    payload.  As for the coordinator, [run] completes the tasks of a fan-out
    in the order of its choice.  The trust and key tables are shared: [view]
    is the namespace as an operation finds it at each of its reads. *)

From S2P Require Import Prelude Bytes Crypto Kdf Net Guard Errors Dedup Config Health PeerCard Msgpack State PeerEnvelope GroupEnvelope Coordinator Iroh Namespace PeerNamespace.

Definition PEER_SLOT_INNER_VERSION : byte := x01.
Definition PEER_SLOT_WATCH_BUFFER : nat := 64.

Record PeerSlotInner : Type := MkPeerSlotInner {
  psi_version : byte;
  psi_slot_version : N;
  psi_payload : bytes
}.

Record PeerSendReport : Type := MkPeerSendReport {
  psr_delivered : list TransportKind;
  psr_failed : failures
}.

Record PeerSlotPutReport : Type := MkPeerSlotPutReport {
  ppr_version : N;
  ppr_stored : list TransportKind;
  ppr_failed : failures
}.

Inductive PeerSlotScope : Type :=
| PeerSlotScope_Pairwise
| PeerSlotScope_Publisher (publisher : PeerId)
| PeerSlotScope_Group (group : GroupId).

Definition peer_slot_pair_is_newer (version : N) (b : bytes) (best_version : N) (best : bytes) : bool :=
  pair_ltb (best_version, best) (version, b).

Section PeerChannels.
Context `{PR : Primitives} `{UL : UrlLib} `{IL : IrohLib} {LC : LruCache bytes}.
Context {MPE : Msgpack PeerEnvelopeWire} {MPG : Msgpack GroupEnvelopeWire} {MPS : Msgpack PeerSlotInner}.
Context {S : Type} {ST : StateStore S} {T : Type}.
Notation PeerNamespace := (PeerNamespace (S:=S) (T:=T)).

Record PeerMailboxMessage : Type := MkPeerMailboxMessage {
  pmm_sender : PeerId;
  pmm_signed_by : VerifyingKey;
  pmm_payload : bytes;
  pmm_via : TransportKind;
  pmm_group : option GroupId;
  pmm_key_id : option GroupKeyId
}.

Record PeerSlotValue : Type := MkPeerSlotValue {
  psv_version : N;
  psv_sender : PeerId;
  psv_signed_by : VerifyingKey;
  psv_payload : bytes;
  psv_via : TransportKind;
  psv_scope : PeerSlotScope;
  psv_key_id : option GroupKeyId
}.

(** ** Fan-out *)

(** A spawned task: the endpoint, the address and the channel id. *)
Record peer_task : Type := MkPeerTask {
  pt_endpoint : TransportEndpoint (T:=T);
  pt_address : PeerAddress;
  pt_id : bytes
}.

(** One task per endpoint and address, endpoints outermost. *)
Definition peer_tasks {E} (addrs : list PeerAddress) (kind : ChannelKind) (name : bytes) (n : PeerNamespace)
    : result (list peer_task) E :=
  map_result (λ ea : TransportEndpoint * PeerAddress,
      let! id := peer_transport_id (te_kind ea.1) ea.2 kind name in Ok (MkPeerTask ea.1 ea.2 id))
    (concat (map (λ ep, map (pair ep) addrs) (pn_transports n))).

(** ** Mailboxes *)

Definition PeerNamespace_mailbox (name : bytes) : result Mailbox NameError :=
  let! _ := validate_name name in Ok (MkMailbox name (Dedup_new DEFAULT_CAPACITY)).

Definition send_bytes (run : list peer_task → bytes → list (TransportKind * result unit TransportError))
    (name : bytes) (addrs : list PeerAddress) (b : bytes) (n : PeerNamespace)
    : result PeerSendReport PeerSendError :=
  let! tasks := peer_tasks addrs ChMailbox name n in
  let '(delivered, failed) := split_results (run tasks b) in
  match delivered with
  | [] => Err (PeerSendError_AllTransportsFailed failed)
  | _ => Ok (MkPeerSendReport delivered failed)
  end.

Definition send_to_peers (nonces : nat → bytes)
    (run : list peer_task → bytes → list (TransportKind * result unit TransportError))
    (name : bytes) (recipients : list PeerCard) (payload : bytes) (n : PeerNamespace)
    : result PeerSendReport PeerSendError :=
  let! envelope := map_err PeerSendError_PeerEnvelope
                     (PeerEnvelope_seal nonces (pn_identity n) ChMailbox name payload recipients) in
  let! b := map_err PeerSendError_PeerEnvelope (PeerEnvelope_to_bytes envelope) in
  send_bytes run name (map (λ c, PeerAddress_Pairwise (peer_id c)) recipients) b n.

Definition send_to_group (nonces : nat → bytes)
    (run : list peer_task → bytes → list (TransportKind * result unit TransportError))
    (name : bytes) (group : GroupId) (key_ids : list GroupKeyId) (payload : bytes) (n : PeerNamespace)
    : result PeerSendReport PeerSendError :=
  let! envelope := map_err PeerSendError_GroupEnvelope
                     (seal_group_envelope nonces ChMailbox name payload (map (pair group) key_ids) n) in
  let! b := map_err PeerSendError_GroupEnvelope (GroupEnvelope_to_bytes envelope) in
  send_bytes run name [PeerAddress_Group group] b n.

Definition recv_addresses (n : PeerNamespace) : list PeerAddress :=
  PeerAddress_Pairwise (PeerIdentity_peer_id (pn_identity n)) :: map PeerAddress_Group (group_ids n).

Definition open_message (name : bytes) (via : TransportKind) (a : PeerAddress) (b : bytes) (n : PeerNamespace)
    : option PeerMailboxMessage :=
  let trusted := trusted_snapshot n in
  match a with
  | PeerAddress_Pairwise _ | PeerAddress_Publisher _ =>
      (λ m, MkPeerMailboxMessage (pm_sender m) (pm_signed_by m) (pm_payload m) via None None)
        <$> PeerEnvelope_open_bytes_or_drop b (pn_identity n) ChMailbox name trusted
  | PeerAddress_Group _ =>
      (λ m, MkPeerMailboxMessage (gm_sender m) (gm_signed_by m) (gm_payload m) via (Some (gm_group m))
              (Some (gm_key_id m)))
        <$> open_group_envelope_or_drop b ChMailbox name trusted n
  end.

Notation peer_recv_result := (TransportKind * PeerAddress * result (option bytes) TransportError)%type.

(** One round: [view i] is the namespace when the [i]-th result is opened. *)
Fixpoint peer_recv_round (view : nat → PeerNamespace) (i : nat) (name : bytes)
    (done : list peer_recv_result) (answered : bool) (d : Dedup)
    : (PeerMailboxMessage + bool) * Dedup :=
  match done with
  | [] => (inr answered, d)
  | (kind, a, r) :: rest =>
      match r with
      | Ok (Some b) =>
          let '(dup, d) := observe d b in
          if dup then peer_recv_round view (Datatypes.S i) name rest true d
          else match open_message name kind a b (view i) with
               | Some m => (inl m, d)
               | None => peer_recv_round view (Datatypes.S i) name rest true d
               end
      | Ok None => peer_recv_round view (Datatypes.S i) name rest true d
      | _ => peer_recv_round view (Datatypes.S i) name rest answered d
      end
  end.

(** [recv_timeout]: the addresses are read anew in every round; [None] is a
    call that has not returned after [rounds] rounds. *)
Fixpoint recv_timeout (rounds r : nat) (start : nat → PeerNamespace) (view : nat → nat → PeerNamespace)
    (run : nat → list peer_task → list peer_recv_result) (name : bytes) (wait_is_zero : bool) (d : Dedup)
    : option (result PeerMailboxMessage RecvError) * Dedup :=
  match rounds with
  | O => (None, d)
  | Datatypes.S rounds =>
      match peer_tasks (recv_addresses (start r)) ChMailbox name (start r) with
      | Err e => (Some (Err e), d)
      | Panic => (Some Panic, d)
      | Ok tasks =>
          match peer_recv_round (view r) 0 name (run r tasks) false d with
          | (inl m, d) => (Some (Ok m), d)
          | (inr _, d) =>
              if wait_is_zero then (Some (Err RecvError_Closed), d)
              else recv_timeout rounds (Datatypes.S r) start view run name wait_is_zero d
          end
      end
  end.

(** [recv] waits 25 seconds per round, which is not zero. *)
Definition peer_recv (rounds : nat) (start : nat → PeerNamespace) (view : nat → nat → PeerNamespace)
    (run : nat → list peer_task → list peer_recv_result) (name : bytes) (d : Dedup)
    : option (result PeerMailboxMessage RecvError) * Dedup :=
  recv_timeout rounds 0 start view run name (from_secs DEFAULT_LONG_POLL_SECS =? 0)%N d.

(** ** Slots *)

Definition PeerNamespace_slot (name : bytes) : result Slot NameError :=
  let! _ := validate_name name in Ok (MkSlot name).

Definition encode_peer_slot_payload (version : N) (payload : bytes) : result bytes PeerSlotError :=
  of_sum (λ _, PeerSlotError_MsgpackFailed) (to_vec_named (MkPeerSlotInner PEER_SLOT_INNER_VERSION version payload)).

Definition decode_peer_slot_payload (b : bytes) : result (N * bytes) PeerSlotError :=
  let! inner := of_sum (λ _, PeerSlotError_MsgpackFailed) (from_slice b) in
  let! _ := guard_err (negb (bool_decide (psi_version inner = PEER_SLOT_INNER_VERSION)))
              PeerSlotError_MsgpackFailed in
  Ok (psi_slot_version inner, psi_payload inner).

Definition next_version (name : bytes) (scope : PeerSlotScopeKey) (n : PeerNamespace)
    : result N PeerSlotError * PeerNamespace :=
  let '(r, st) := next_local_slot_version (peer_slot_state_key name scope) (pn_state n) in
  (map_err PeerSlotError_State r, set_state st n).

Definition put_bytes (run : list peer_task → N → bytes → list (TransportKind * result unit TransportError))
    (name : bytes) (addrs : list PeerAddress) (version : N) (b : bytes) (n : PeerNamespace)
    : result PeerSlotPutReport PeerSlotError :=
  let! tasks := peer_tasks addrs ChSlot name n in
  let '(stored, failed) := split_results (run tasks version b) in
  match stored with
  | [] => Err (PeerSlotError_AllTransportsFailed failed)
  | _ => Ok (MkPeerSlotPutReport version stored failed)
  end.

(** The three puts: a version is drawn first and stays drawn on an error. *)
Definition put_with (scope : PeerSlotScopeKey) (name payload : bytes)
    (seal : bytes → PeerNamespace → result bytes PeerSlotError)
    (run : list peer_task → N → bytes → list (TransportKind * result unit TransportError))
    (addrs : list PeerAddress) (n : PeerNamespace) : result PeerSlotPutReport PeerSlotError * PeerNamespace :=
  let '(v, n) := next_version name scope n in
  (let! version := v in
   let! inner := encode_peer_slot_payload version payload in
   let! b := seal inner n in
   put_bytes run name addrs version b n, n).

Definition seal_for_peers (nonces : nat → bytes) (name : bytes) (recipients : list PeerCard) (inner : bytes)
    (n : PeerNamespace) : result bytes PeerSlotError :=
  let! envelope := map_err PeerSlotError_PeerEnvelope
                     (PeerEnvelope_seal nonces (pn_identity n) ChSlot name inner recipients) in
  map_err PeerSlotError_PeerEnvelope (PeerEnvelope_to_bytes envelope).

Definition seal_for_group (nonces : nat → bytes) (name : bytes) (group : GroupId) (key_ids : list GroupKeyId)
    (inner : bytes) (n : PeerNamespace) : result bytes PeerSlotError :=
  let! envelope := map_err PeerSlotError_GroupEnvelope
                     (seal_group_envelope nonces ChSlot name inner (map (pair group) key_ids) n) in
  map_err PeerSlotError_GroupEnvelope (GroupEnvelope_to_bytes envelope).

Definition put_for_peers (nonces : nat → bytes)
    (run : list peer_task → N → bytes → list (TransportKind * result unit TransportError))
    (name : bytes) (recipients : list PeerCard) (payload : bytes) (n : PeerNamespace)
    : result PeerSlotPutReport PeerSlotError * PeerNamespace :=
  put_with PeerSlotScopeKey_Pairwise name payload (seal_for_peers nonces name recipients) run
    (map (λ c, PeerAddress_Pairwise (peer_id c)) recipients) n.

Definition put_publisher_for_peers (nonces : nat → bytes)
    (run : list peer_task → N → bytes → list (TransportKind * result unit TransportError))
    (name : bytes) (recipients : list PeerCard) (payload : bytes) (n : PeerNamespace)
    : result PeerSlotPutReport PeerSlotError * PeerNamespace :=
  let publisher := PeerIdentity_peer_id (pn_identity n) in
  put_with (PeerSlotScopeKey_Publisher publisher) name payload (seal_for_peers nonces name recipients) run
    [PeerAddress_Publisher publisher] n.

Definition put_group (nonces : nat → bytes)
    (run : list peer_task → N → bytes → list (TransportKind * result unit TransportError))
    (name : bytes) (group : GroupId) (key_ids : list GroupKeyId) (payload : bytes) (n : PeerNamespace)
    : result PeerSlotPutReport PeerSlotError * PeerNamespace :=
  put_with (PeerSlotScopeKey_Group group) name payload (seal_for_group nonces name group key_ids) run
    [PeerAddress_Group group] n.

Definition open_slot_value (name : bytes) (via : TransportKind) (a : PeerAddress) (scope : PeerSlotScope)
    (b : bytes) (n : PeerNamespace) : option PeerSlotValue :=
  let trusted := trusted_snapshot n in
  match a with
  | PeerAddress_Pairwise _ | PeerAddress_Publisher _ =>
      match PeerEnvelope_open_bytes_or_drop b (pn_identity n) ChSlot name trusted with
      | None => None
      | Some m =>
          (λ i : N * bytes, MkPeerSlotValue i.1 (pm_sender m) (pm_signed_by m) i.2 via scope None)
            <$> ok (decode_peer_slot_payload (pm_payload m))
      end
  | PeerAddress_Group _ =>
      match ok (GroupEnvelope_from_bytes b) with
      | None => None
      | Some e =>
          match ok (GroupEnvelope_open e ChSlot name trusted (group_keys_for_envelope e n)) with
          | None => None
          | Some m =>
              (λ i : N * bytes, MkPeerSlotValue i.1 (gm_sender m) (gm_signed_by m) i.2 via scope (Some (gm_key_id m)))
                <$> ok (decode_peer_slot_payload (gm_payload m))
          end
      end
  end.

Notation peer_get_result := (TransportKind * result (option (N * bytes)) TransportError)%type.

Record peer_selection : Type := MkPeerSelection {
  ps_ok_count : nat;
  ps_failures : failures;
  ps_best : option (N * bytes * PeerSlotValue)
}.

Definition peer_select_one (name : bytes) (a : PeerAddress) (scope : PeerSlotScope) (n : PeerNamespace)
    (s : peer_selection) (r : peer_get_result) : peer_selection :=
  let '(kind, r) := r in
  match r with
  | Ok None => MkPeerSelection (Datatypes.S (ps_ok_count s)) (ps_failures s) (ps_best s)
  | Ok (Some (_, b)) =>
      let s := MkPeerSelection (Datatypes.S (ps_ok_count s)) (ps_failures s) (ps_best s) in
      match open_slot_value name kind a scope b n with
      | None => s
      | Some value =>
          if match ps_best s with
             | None => true
             | Some (bv, bb, _) => peer_slot_pair_is_newer (psv_version value) b bv bb
             end
          then MkPeerSelection (ps_ok_count s) (ps_failures s) (Some (psv_version value, b, value))
          else s
      end
  | Err e => MkPeerSelection (ps_ok_count s) (ps_failures s ++ [(kind, e)]) (ps_best s)
  | Panic => s
  end.

(** [view i] is the namespace when the [i]-th answer is opened. *)
Fixpoint peer_select (view : nat → PeerNamespace) (i : nat) (name : bytes) (a : PeerAddress)
    (scope : PeerSlotScope) (done : list peer_get_result) (s : peer_selection) : peer_selection :=
  match done with
  | [] => s
  | r :: done => peer_select view (Datatypes.S i) name a scope done (peer_select_one name a scope (view i) s r)
  end.

(** The state store is not touched. *)
Definition get_address (view : nat → PeerNamespace) (run : list peer_task → list peer_get_result)
    (name : bytes) (a : PeerAddress) (scope : PeerSlotScope) (n : PeerNamespace)
    : result (option PeerSlotValue) PeerSlotError :=
  let! tasks := peer_tasks [a] ChSlot name n in
  let s := peer_select view 0 name a scope (run tasks) (MkPeerSelection 0 [] None) in
  if (ps_ok_count s =? 0) && negb (match ps_failures s with [] => true | _ => false end)
  then Err (PeerSlotError_AllTransportsFailed (ps_failures s))
  else Ok ((λ b : N * bytes * PeerSlotValue, b.2) <$> ps_best s).

Definition get_pairwise (view : nat → PeerNamespace) (run : list peer_task → list peer_get_result)
    (name : bytes) (n : PeerNamespace) : result (option PeerSlotValue) PeerSlotError :=
  get_address view run name (PeerAddress_Pairwise (PeerIdentity_peer_id (pn_identity n)))
    PeerSlotScope_Pairwise n.

Definition get_publisher (view : nat → PeerNamespace) (run : list peer_task → list peer_get_result)
    (name : bytes) (publisher : PeerId) (n : PeerNamespace) : result (option PeerSlotValue) PeerSlotError :=
  get_address view run name (PeerAddress_Publisher publisher) (PeerSlotScope_Publisher publisher) n.

Definition get_group (view : nat → PeerNamespace) (run : list peer_task → list peer_get_result)
    (name : bytes) (group : GroupId) (n : PeerNamespace) : result (option PeerSlotValue) PeerSlotError :=
  get_address view run name (PeerAddress_Group group) (PeerSlotScope_Group group) n.
End PeerChannels.

(** ** Lemmas: fan-out *)

Section Fanout.
Context `{PR : Primitives} `{PL : !PrimitivesLaws} `{UL : UrlLib} `{IL : IrohLib}.
Context {MPE : Msgpack PeerEnvelopeWire} {MPG : Msgpack GroupEnvelopeWire}.
Context {S : Type} {ST : StateStore S} {T : Type}.
Notation PeerNamespace := (PeerNamespace (S:=S) (T:=T)).

(** The channel id, which every party derives alike. *)
Definition address_id (transport : TransportKind) (a : PeerAddress) (kind : ChannelKind) (name : bytes) : bytes :=
  match peer_transport_id (E:=unit) transport a kind name with Ok id => id | _ => [] end.

Lemma peer_transport_id_eq {E} transport a kind name :
  peer_transport_id (E:=E) transport a kind name = Ok (address_id transport a kind name).
Proof.
  unfold address_id, peer_transport_id, peer_address_id.
  destruct (hkdf_sha256_Ok (E:=unit) (address_key a) [] (address_info a kind name) 32) as (out & Ho & _); [lia |].
  rewrite Ho. unfold hkdf_sha256 in *. destruct (hkdf_expand _ _ _ _); [by injection Ho as -> | done].
Qed.

Definition tasks_for (addrs : list PeerAddress) (kind : ChannelKind) (name : bytes) (n : PeerNamespace)
    : list (peer_task (T:=T)) :=
  concat (map (λ ep, map (λ a, MkPeerTask ep a (address_id (te_kind ep) a kind name)) addrs) (pn_transports n)).

Lemma peer_tasks_eq {E} addrs kind name (n : PeerNamespace) :
  peer_tasks (E:=E) addrs kind name n = Ok (tasks_for addrs kind name n).
Proof.
  unfold peer_tasks, tasks_for.
  assert (∀ eas : list (TransportEndpoint (T:=T) * PeerAddress),
    map_result (E:=E) (λ ea : TransportEndpoint (T:=T) * PeerAddress,
      let! id := peer_transport_id (te_kind ea.1) ea.2 kind name in Ok (MkPeerTask ea.1 ea.2 id)) eas
    = Ok (map (λ ea : TransportEndpoint (T:=T) * PeerAddress,
            MkPeerTask ea.1 ea.2 (address_id (te_kind ea.1) ea.2 kind name)) eas)) as H.
  { induction eas as [|[ep a] eas IH]; [done |]. cbn [map_result map fst snd].
    rewrite peer_transport_id_eq. cbn [rbind]. by rewrite IH. }
  rewrite H. f_equal. rewrite concat_map, map_map. f_equal. apply map_ext. intros ep. by rewrite map_map.
Qed.

Lemma elem_of_tasks_for addrs kind name (n : PeerNamespace) ep a :
  ep ∈ pn_transports n → a ∈ addrs →
  MkPeerTask ep a (address_id (te_kind ep) a kind name) ∈ tasks_for addrs kind name n.
Proof.
  intros Hep Ha. unfold tasks_for. apply list_elem_of_In, in_concat.
  eexists. split; [apply in_map; by apply list_elem_of_In |].
  apply (in_map (λ a, MkPeerTask ep a (address_id (te_kind ep) a kind name))). by apply list_elem_of_In.
Qed.
End Fanout.

(** ** Lemmas: receiving *)

Section PeerReceiving.
Context `{PR : Primitives} `{PL : !PrimitivesLaws} `{UL : UrlLib} `{IL : IrohLib} {LC : LruCache bytes}.
Context {MPE : Msgpack PeerEnvelopeWire} {MPEL : MsgpackLaws PeerEnvelopeWire}.
Context {MPG : Msgpack GroupEnvelopeWire} {MPGL : MsgpackLaws GroupEnvelopeWire}.
Context {S : Type} {ST : StateStore S} {T : Type}.
Notation PeerNamespace := (PeerNamespace (S:=S) (T:=T)).
Notation peer_recv_result := (TransportKind * PeerAddress * result (option bytes) TransportError)%type.

Definition peer_payloads (done : list peer_recv_result) : list bytes :=
  filter_map (λ r : peer_recv_result, match r.2 with Ok (Some b) => Some b | _ => None end) done.

(** What round [r] of a receive on [name] waits for. *)
Definition round_tasks (name : bytes) (n : PeerNamespace) : list (peer_task (T:=T)) :=
  tasks_for (recv_addresses n) ChMailbox name n.

Lemma peer_recv_round_prefix view i name pre rest a d :
  peer_payloads pre = [] →
  ∃ a', peer_recv_round (S:=S) (T:=T) view i name (pre ++ rest) a d
        = peer_recv_round view (i + length pre) name rest a' d.
Proof.
  revert i a. induction pre as [|[[kind ad] r] pre IH]; intros i a Hp.
  { exists a. cbn. by rewrite Nat.add_0_r. }
  destruct r as [[b|]|e|]; cbn [peer_payloads filter_map snd] in Hp; [done |..];
    cbn [app peer_recv_round length];
    (match goal with |- ∃ a', peer_recv_round _ _ _ _ ?a0 _ = _ =>
       destruct (IH (Datatypes.S i) a0 Hp) as [a' ->] end);
    exists a'; by rewrite Nat.add_succ_l, Nat.add_succ_r.
Qed.

(** A frame that is the first to arrive, is new and opens is delivered. *)
Lemma peer_recv_first j : ∀ rounds r start view run name cap history pre kind a b post m,
  j < rounds →
  (∀ k, k < j → peer_payloads (run (r + k) (round_tasks name (start (r + k)))) = []) →
  run (r + j) (round_tasks name (start (r + j))) = pre ++ (kind, a, Ok (Some b)) :: post →
  peer_payloads pre = [] → open_message name kind a b (view (r + j) (length pre)) = Some m →
  digest b ∉ window cap history →
  recv_timeout (S:=S) (T:=T) rounds r start view run name false (observe_all (Dedup_new cap) history)
  = (Some (Ok m), observe_all (Dedup_new cap) (history ++ [b])).
Proof.
  induction j as [|j IH]; intros rounds r start view run name cap history pre kind a b post m
    Hj Hempty Hrun Hpre Hopen Hnew; destruct rounds as [|rounds]; try lia;
    cbn [recv_timeout]; rewrite peer_tasks_eq; fold (round_tasks name (start r)).
  - rewrite Nat.add_0_r in *. rewrite Hrun.
    destruct (peer_recv_round_prefix (view r) 0 name pre ((kind, a, Ok (Some b)) :: post) false
      (observe_all (Dedup_new cap) history) Hpre) as [a' ->]. cbn [peer_recv_round Nat.add].
    pose proof (observe_new cap history b) as Hdup. rewrite bool_decide_eq_false_2 in Hdup by done.
    rewrite (surjective_pairing (observe _ b)), Hdup, Hopen, observe_all_snoc. done.
  - pose proof (Hempty 0 ltac:(lia)) as H0. rewrite Nat.add_0_r in H0.
    destruct (peer_recv_round_prefix (view r) 0 name (run r (round_tasks name (start r))) [] false
      (observe_all (Dedup_new cap) history) H0) as [a' E].
    rewrite app_nil_r in E. rewrite E. cbn [peer_recv_round].
    rewrite <- Nat.add_succ_comm in Hrun, Hopen. eapply IH; try done; [lia |].
    intros k Hk. specialize (Hempty (Datatypes.S k) ltac:(lia)). by rewrite <- Nat.add_succ_comm in Hempty.
Qed.

Lemma send_bytes_Ok run name addrs b (n : PeerNamespace) report :
  send_bytes run name addrs b n = Ok report →
  split_results (run (tasks_for addrs ChMailbox name n) b) = (psr_delivered report, psr_failed report).
Proof.
  unfold send_bytes. rewrite peer_tasks_eq. cbn [rbind].
  destruct (split_results _) as [[|k l] failed]; [done |]. by intros [= <-].
Qed.

(** The message a pairwise envelope delivers. *)
Lemma open_message_pairwise nonces (n n' : PeerNamespace) name payload cards e b via p :
  PeerEnvelope_seal nonces (pn_identity n) ChMailbox name payload cards = Ok e →
  PeerEnvelope_to_bytes e = Ok b → addresses cards (pn_identity n') →
  trusts (trusted_snapshot n') (pn_identity n) →
  open_message name via (PeerAddress_Pairwise p) b n'
  = Some (MkPeerMailboxMessage (PeerIdentity_peer_id (pn_identity n))
            (verifying_key (signing (pn_identity n))) payload via None None).
Proof.
  intros Hs Hb Ha Ht. unfold open_message, PeerEnvelope_open_bytes_or_drop.
  by rewrite (open_bytes_seal_aux _ _ _ _ _ _ _ _ _ _ Hs Ha Ht Hb).
Qed.

(** ** Claims: mailboxes *)

(** A peer mailbox delivers.  When a namespace has sent a payload to a
    list of cards, every transport of the sender was given one and the same
    envelope under the addresses of all recipients; a recipient listens on
    its own address on every transport of the same kind under the same
    channel id; and when the envelope is the first frame it receives, in any
    round, it has not seen it recently and it trusts the sender when it opens
    it, [recv] returns the payload with the sender's id and key, and the
    envelope is remembered. *)
Lemma peer_mailbox_delivers (nonces : nat → bytes)
    (run : list peer_task → bytes → list (TransportKind * result unit TransportError))
    (name payload : bytes) (cards : list PeerCard) (n : PeerNamespace) (me : PeerIdentity)
    (report : PeerSendReport) :
  send_to_peers nonces run name cards payload n = Ok report → addresses cards me →
  let addrs := map (λ c, PeerAddress_Pairwise (peer_id c)) cards in
  let mine := PeerAddress_Pairwise (PeerIdentity_peer_id me) in
  ∃ b, split_results (run (tasks_for addrs ChMailbox name n) b) = (psr_delivered report, psr_failed report)
  ∧ (∀ ep n' ep', ep ∈ pn_transports n → ep' ∈ pn_transports n' → te_kind ep = te_kind ep' →
       pn_identity n' = me →
       ∃ id, MkPeerTask ep mine id ∈ tasks_for addrs ChMailbox name n
           ∧ MkPeerTask ep' mine id ∈ round_tasks name n')
  ∧ ∀ rounds j start view run' cap history kind pre post,
      j < rounds → (∀ k, k < j → peer_payloads (run' k (round_tasks name (start k))) = []) →
      run' j (round_tasks name (start j)) = pre ++ (kind, mine, Ok (Some b)) :: post →
      peer_payloads pre = [] → digest b ∉ window cap history →
      pn_identity (view j (length pre)) = me → trusts (trusted_snapshot (view j (length pre))) (pn_identity n) →
      recv_timeout (S:=S) (T:=T) rounds 0 start view run' name false (observe_all (Dedup_new cap) history)
      = (Some (Ok (MkPeerMailboxMessage (PeerIdentity_peer_id (pn_identity n))
                     (verifying_key (signing (pn_identity n))) payload kind None None)),
         observe_all (Dedup_new cap) (history ++ [b])).
Proof.
  intros Hsend Haddr. cbv zeta. unfold send_to_peers in Hsend.
  apply rbind_Ok in Hsend as (e & He%map_err_Ok & Hsend).
  apply rbind_Ok in Hsend as (b & Hb%map_err_Ok & Hsend%send_bytes_Ok).
  exists b. split; [done |]. split.
  - intros ep n' ep' Hep Hep' Hk Hid. exists (address_id (te_kind ep) (PeerAddress_Pairwise (PeerIdentity_peer_id me)) ChMailbox name).
    split; [apply elem_of_tasks_for; [done |] | rewrite Hk; apply elem_of_tasks_for; [done |]].
    + destruct Haddr as [(c & Hc & <-) _]. by apply (list_elem_of_fmap_2 (λ c, PeerAddress_Pairwise (peer_id c))).
    + unfold recv_addresses. rewrite Hid. apply list_elem_of_here.
  - intros rounds j start view run' cap history kind pre post Hj Hempty Hrun Hpre Hnew Hme Htr.
    subst me. eapply (peer_recv_first j rounds 0); try done. by eapply open_message_pairwise.
Qed.
End PeerReceiving.

(** ** Lemmas: slots *)

Section PeerSlots.
Context `{PR : Primitives} `{PL : !PrimitivesLaws} `{UL : UrlLib} `{IL : IrohLib}.
Context {MPE : Msgpack PeerEnvelopeWire} {MPEL : MsgpackLaws PeerEnvelopeWire}.
Context {MPG : Msgpack GroupEnvelopeWire} {MPGL : MsgpackLaws GroupEnvelopeWire}.
Context {MPS : Msgpack PeerSlotInner} {MPSL : MsgpackLaws PeerSlotInner}.
Context {S : Type} {ST : StateStore S} {T : Type}.
Notation PeerNamespace := (PeerNamespace (S:=S) (T:=T)).
Notation peer_get_result := (TransportKind * result (option (N * bytes)) TransportError)%type.

(** The answers that open, each under the view of its moment. *)
Fixpoint peer_candidates (view : nat → PeerNamespace) (i : nat) (name : bytes) (a : PeerAddress)
    (scope : PeerSlotScope) (done : list peer_get_result) : list (N * bytes * PeerSlotValue) :=
  match done with
  | [] => []
  | (kind, r) :: done =>
      match r with
      | Ok (Some (_, b)) =>
          match open_slot_value name kind a scope b (view i) with
          | Some v => [(psv_version v, b, v)]
          | None => []
          end
      | _ => []
      end ++ peer_candidates view (Datatypes.S i) name a scope done
  end.

Lemma peer_select_spec view name a scope done : ∀ i s l,
  newest l (ps_best s) →
  let s' := peer_select view i name a scope done s in
  newest (l ++ peer_candidates view i name a scope done) (ps_best s')
  ∧ ps_ok_count s' = ps_ok_count s + answered done ∧ ps_failures s' = ps_failures s ++ failures_of done.
Proof.
  induction done as [|[kind r] done IH]; intros i s l Hl; cbn [peer_select peer_candidates].
  { cbn. rewrite !app_nil_r. split_and!; [done | lia | done]. }
  set (s1 := peer_select_one name a scope (view i) s (kind, r)).
  pose (c := match r with
    | Ok (Some (_, b)) => match open_slot_value name kind a scope b (view i) with
                          | Some v => [(psv_version v, b, v)] | None => [] end
    | _ => [] end). fold c. rewrite app_assoc.
  assert (newest (l ++ c) (ps_best s1)
    ∧ ps_ok_count s1 = ps_ok_count s + answered [(kind, r)]
    ∧ ps_failures s1 = ps_failures s ++ failures_of [(kind, r)]) as (H1 & H2 & H3).
  { unfold s1, c, peer_select_one. destruct r as [[[sv b]|]|e|]; cbn; rewrite ?app_nil_r;
      try (split_and!; (done || lia)).
    destruct (open_slot_value name kind a scope b (view i)) as [v|]; [| cbn; rewrite app_nil_r; split_and!; (done || lia)].
    pose proof (newest_snoc l (psv_version v, b, v) (ps_best s) Hl) as Hn.
    destruct (ps_best s) as [[[bv bb] bx]|] eqn:Eb; cbn [fst snd] in Hn.
    - unfold peer_slot_pair_is_newer. destruct (pair_ltb (bv, bb) (psv_version v, b)); cbn; rewrite ?Eb;
        (split; [exact Hn |]); (split; [lia | done]).
    - cbn. split; [exact Hn |]. split; [lia | done]. }
  specialize (IH (Datatypes.S i) s1 (l ++ c) H1). cbv zeta in IH. destruct IH as (I1 & I2 & I3).
  split_and!; [done | |].
  - rewrite I2, H2. unfold answered. change ((kind, r) :: done) with ([(kind, r)] ++ done).
    rewrite filter_map_app, length_app. lia.
  - rewrite I3, H3. unfold failures_of. change ((kind, r) :: done) with ([(kind, r)] ++ done).
    by rewrite filter_map_app, app_assoc.
Qed.

(** A read in closed form. *)
Lemma get_address_eq view run name a scope (n : PeerNamespace) :
  let done := run (tasks_for [a] ChSlot name n) in
  ∃ best, newest (peer_candidates view 0 name a scope done) best
  ∧ get_address view run name a scope n
    = if (answered done =? 0) && negb (match failures_of done with [] => true | _ => false end)
      then Err (PeerSlotError_AllTransportsFailed (failures_of done))
      else Ok ((λ b : N * bytes * PeerSlotValue, b.2) <$> best).
Proof.
  cbv zeta. unfold get_address. rewrite peer_tasks_eq. cbn [rbind].
  destruct (peer_select_spec view name a scope (run (tasks_for [a] ChSlot name n)) 0 (MkPeerSelection 0 [] None) [])
    as (H1 & H2 & H3); [done |].
  exists (ps_best (peer_select view 0 name a scope (run (tasks_for [a] ChSlot name n)) (MkPeerSelection 0 [] None))).
  split; [done |]. cbn in H2, H3. by rewrite H2, H3.
Qed.

Lemma peer_candidates_elem view i name a scope done x :
  x ∈ peer_candidates view i name a scope done ↔
  ∃ j kind sv, done !! j = Some (kind, Ok (Some (sv, x.1.2)))
    ∧ open_slot_value name kind a scope x.1.2 (view (i + j)) = Some x.2 ∧ x.1.1 = psv_version x.2.
Proof.
  revert i. induction done as [|[kind r] done IH]; intros i; cbn [peer_candidates].
  { split; [by intros ?%not_elem_of_nil | by intros ([|j] & ? & ? & ? & _)]. }
  rewrite elem_of_app, IH. split.
  - intros [H|(j & k & sv & H1 & H2 & H3)].
    + destruct r as [[[sv b]|]|e|]; try (by apply not_elem_of_nil in H).
      destruct (open_slot_value name kind a scope b (view i)) as [v|] eqn:E; [| by apply not_elem_of_nil in H].
      apply list_elem_of_singleton in H as ->. exists 0, kind, sv. by rewrite Nat.add_0_r.
    + exists (Datatypes.S j), k, sv. by rewrite Nat.add_succ_r.
  - intros ([|j] & k & sv & H1 & H2 & H3).
    + left. cbn in H1. injection H1 as -> ->. rewrite Nat.add_0_r in H2. rewrite H2.
      apply list_elem_of_singleton. destruct x as [[? ?] ?]. cbn in *. by subst.
    + right. exists j, k, sv. by rewrite Nat.add_succ_r in H2.
Qed.

(** A read returns the newest answer that opens. *)
Lemma get_address_newest view run name a scope (n : PeerNamespace) j kind sv b v :
  run (tasks_for [a] ChSlot name n) !! j = Some (kind, Ok (Some (sv, b))) →
  open_slot_value name kind a scope b (view j) = Some v →
  ∃ x, x ∈ peer_candidates view 0 name a scope (run (tasks_for [a] ChSlot name n))
    ∧ get_address view run name a scope n = Ok (Some x.2)
    ∧ ∀ y, y ∈ peer_candidates view 0 name a scope (run (tasks_for [a] ChSlot name n)) → pair_le y.1 x.1.
Proof.
  intros Hj Hv. destruct (get_address_eq view run name a scope n) as (best & Hbest & ->).
  assert ((psv_version v, b, v) ∈ peer_candidates view 0 name a scope (run (tasks_for [a] ChSlot name n))) as Hin.
  { apply peer_candidates_elem. by exists j, kind, sv. }
  assert (answered (run (tasks_for [a] ChSlot name n)) ≠ 0) as Ha.
  { unfold answered. intros H0%length_zero_iff_nil.
    assert ((kind, Ok (Some (sv, b))) ∈ @nil peer_get_result) as Hx; [| by apply not_elem_of_nil in Hx].
    rewrite <- H0. apply elem_of_filter_map. exists (kind, Ok (Some (sv, b))).
    split; [by eapply list_elem_of_lookup_2 | done]. }
  apply Nat.eqb_neq in Ha. rewrite Ha. cbn [andb].
  destruct best as [x|]; [| cbn in Hbest; rewrite Hbest in Hin; by apply not_elem_of_nil in Hin].
  destruct Hbest as [Hx Hmax]. by exists x.
Qed.

(** An answer that opens bounds the result from below. *)
Lemma get_address_at_least view run name a scope (n : PeerNamespace) j kind sv b v :
  run (tasks_for [a] ChSlot name n) !! j = Some (kind, Ok (Some (sv, b))) →
  open_slot_value name kind a scope b (view j) = Some v →
  ∃ x, x ∈ peer_candidates view 0 name a scope (run (tasks_for [a] ChSlot name n))
    ∧ get_address view run name a scope n = Ok (Some x.2) ∧ x.1.1 = psv_version x.2
    ∧ pair_le (psv_version v, b) x.1.
Proof.
  intros Hj Hv. destruct (get_address_newest view run name a scope n j kind sv b v Hj Hv) as (x & Hx & Hget & Hmax).
  exists x. split_and!; [done | done | by apply peer_candidates_elem in Hx as (? & ? & ? & _ & _ & ?) |].
  apply (Hmax (psv_version v, b, v)), peer_candidates_elem. by exists j, kind, sv.
Qed.

Lemma decode_encode_peer_slot_payload version payload b :
  encode_peer_slot_payload version payload = Ok b → decode_peer_slot_payload b = Ok (version, payload).
Proof.
  intros H%of_sum_Ok%from_slice_to_vec_named. unfold decode_peer_slot_payload. by rewrite H.
Qed.

Lemma put_with_Ok scope name payload seal run addrs (n n1 : PeerNamespace) report :
  put_with scope name payload seal run addrs n = (Ok report, n1) →
  ∃ version inner b,
    next_version name scope n = (Ok version, n1) ∧ encode_peer_slot_payload version payload = Ok inner
    ∧ seal inner n1 = Ok b ∧ ppr_version report = version
    ∧ split_results (run (tasks_for addrs ChSlot name n1) version b) = (ppr_stored report, ppr_failed report).
Proof.
  unfold put_with. destruct (next_version name scope n) as [v n'] eqn:Ev. intros [= H <-].
  apply rbind_Ok in H as (version & -> & H). apply rbind_Ok in H as (inner & Hi & H).
  apply rbind_Ok in H as (b & Hb & H). exists version, inner, b. split_and!; try done;
    revert H; unfold put_bytes; rewrite peer_tasks_eq; cbn [rbind];
    destruct (split_results _) as [[|k l] failed]; try done; by intros [= <-].
Qed.

Lemma next_version_keeps name scope (n n1 : PeerNamespace) r :
  next_version name scope n = (r, n1) →
  pn_identity n1 = pn_identity n ∧ pn_transports n1 = pn_transports n
  ∧ pn_trusted_peers n1 = pn_trusted_peers n ∧ pn_group_keys n1 = pn_group_keys n.
Proof. unfold next_version. destruct (next_local_slot_version _ _). by intros [= _ <-]. Qed.

Lemma open_slot_value_pairwise nonces (n n' : PeerNamespace) name inner version payload cards b via a scope :
  seal_for_peers nonces name cards inner n = Ok b → encode_peer_slot_payload version payload = Ok inner →
  addresses cards (pn_identity n') → trusts (trusted_snapshot n') (pn_identity n) →
  match a with PeerAddress_Group _ => False | _ => True end →
  open_slot_value name via a scope b n'
  = Some (MkPeerSlotValue version (PeerIdentity_peer_id (pn_identity n))
            (verifying_key (signing (pn_identity n))) payload via scope None).
Proof.
  unfold seal_for_peers. intros (e & He%map_err_Ok & Hb%map_err_Ok)%rbind_Ok Henc Ha Ht Hadr.
  unfold open_slot_value, PeerEnvelope_open_bytes_or_drop.
  rewrite (open_bytes_seal_aux _ _ _ _ _ _ _ _ _ _ He Ha Ht Hb). cbn [ok pm_payload pm_sender pm_signed_by].
  rewrite (decode_encode_peer_slot_payload _ _ _ Henc). by destruct a.
Qed.

(** ** Claims: slots *)

(** C25: what a peer puts, its recipients read.  A put for a list of cards
    hands one envelope to every transport under the version it drew.  A
    recipient that trusts the sender and finds that envelope among the answers
    reads the newest answer that opens: the value returned is what opening one
    of the answers gives, no answer that opens is newer by version and then by
    envelope, and in particular it is at least as new as the put.  When no
    other answer opens to a newer value, it is the put itself, with exactly
    its payload, version, sender and key. *)
Theorem peer_slot_put_get (nonces : nat → bytes)
    (run : list peer_task → N → bytes → list (TransportKind * result unit TransportError))
    (name payload : bytes) (cards : list PeerCard) (n n1 n' : PeerNamespace) (report : PeerSlotPutReport) :
  put_for_peers nonces run name cards payload n = (Ok report, n1) → addresses cards (pn_identity n') →
  let sender := pn_identity n in
  let mine := PeerAddress_Pairwise (PeerIdentity_peer_id (pn_identity n')) in
  ∃ b, split_results (run (tasks_for (map (λ c, PeerAddress_Pairwise (peer_id c)) cards) ChSlot name n)
                        (ppr_version report) b) = (ppr_stored report, ppr_failed report)
  ∧ ∀ view run' j kind sv,
      (∀ i, pn_identity (view i) = pn_identity n' ∧ trusts (trusted_snapshot (view i)) sender) →
      let answers := run' (tasks_for [mine] ChSlot name n') in
      let opens i b' v := ∃ kind' sv', answers !! i = Some (kind', Ok (Some (sv', b')))
                          ∧ open_slot_value name kind' mine PeerSlotScope_Pairwise b' (view i) = Some v in
      answers !! j = Some (kind, Ok (Some (sv, b))) →
      ∃ v i b', get_pairwise view run' name n' = Ok (Some v) ∧ opens i b' v
        ∧ (∀ i' b'' u, opens i' b'' u → pair_le (psv_version u, b'') (psv_version v, b'))
        ∧ pair_le (ppr_version report, b) (psv_version v, b')
        ∧ ((∀ i' b'' u, opens i' b'' u → (psv_version u < ppr_version report)%N ∨ b'' = b) →
           ∃ via, v = MkPeerSlotValue (ppr_version report) (PeerIdentity_peer_id sender)
                        (verifying_key (signing sender)) payload via PeerSlotScope_Pairwise None).
Proof.
  intros (version & inner & b & Hnv & Henc & Hb & Hrep & Hsplit)%put_with_Ok Haddr. cbv zeta.
  apply next_version_keeps in Hnv as (Hid & Htr & _). exists b. rewrite Hrep. split.
  { unfold tasks_for in *. by rewrite Htr in Hsplit. }
  intros view run' j kind sv Hview Hj. rewrite <- Hid in *.
  set (mine := PeerAddress_Pairwise (PeerIdentity_peer_id (pn_identity n'))) in *.
  assert (∀ i via, open_slot_value name via mine PeerSlotScope_Pairwise b (view i)
    = Some (MkPeerSlotValue version (PeerIdentity_peer_id (pn_identity n1))
            (verifying_key (signing (pn_identity n1))) payload via PeerSlotScope_Pairwise None)) as Hopen.
  { intros i via. destruct (Hview i) as [Hvi Hti]. eapply open_slot_value_pairwise; try done. by rewrite Hvi. }
  destruct (get_address_newest view run' name mine PeerSlotScope_Pairwise n' j kind sv b _ Hj (Hopen j kind))
    as (x & (i & via & sv' & Hi & Hox & Hv)%peer_candidates_elem & Hget & Hmax).
  assert (∀ i' b'' u, (∃ kind' sv'', run' (tasks_for [mine] ChSlot name n') !! i' = Some (kind', Ok (Some (sv'', b'')))
      ∧ open_slot_value name kind' mine PeerSlotScope_Pairwise b'' (view i') = Some u) →
    pair_le (psv_version u, b'') (psv_version x.2, x.1.2)) as Hle.
  { intros i' b'' u (kind' & sv'' & Hi' & Hu).
    assert ((psv_version u, b'', u) ∈ peer_candidates view 0 name mine PeerSlotScope_Pairwise
      (run' (tasks_for [mine] ChSlot name n'))) as Hin by (apply peer_candidates_elem; by exists i', kind', sv'').
    specialize (Hmax _ Hin). cbn [fst] in Hmax. rewrite <- Hv. by destruct x as [[? ?] ?]. }
  pose proof (Hle j b _ (ex_intro _ kind (ex_intro _ sv (conj Hj (Hopen j kind))))) as Hp. cbn [psv_version] in Hp.
  exists x.2, i, x.1.2. split_and!; [done | by exists via, sv' | done | done |].
  - intros Honly.
    destruct (Honly i x.1.2 x.2) as [Hlt|Heq]; [by exists via, sv' | |].
    + apply pair_le_version in Hp. cbn [fst] in Hp. lia.
    + rewrite Heq, Hopen in Hox. injection Hox as <-. by exists via.
Qed.

End PeerSlots.

(** ** Claims: several writers *)

Section Writers.
Context `{PR : Primitives} `{PL : !PrimitivesLaws} `{UL : UrlLib} `{IL : IrohLib}.
Context {MPE : Msgpack PeerEnvelopeWire} {MPG : Msgpack GroupEnvelopeWire} {MPS : Msgpack PeerSlotInner}.
Context {T : Type}.
Notation PeerNamespace := (PeerNamespace (S:=InMemoryInner) (T:=T)).

(** A group slot with several writers hides updates.  Reading a peer slot
    does not record the version that was read, unlike reading a seeded slot.
    A member whose store has no counter for the slot publishes version 1
    whatever it has read, and every reader that still finds a newer value
    among the answers goes on reading a newer one than that update. *)
Lemma peer_group_put_hidden (nonces : nat → bytes)
    (run : list peer_task → N → bytes → list (TransportKind * result unit TransportError))
    (name payload : bytes) (group : GroupId) (key_ids : list GroupKeyId) (n n1 : PeerNamespace)
    (report : PeerSlotPutReport) :
  let key := peer_slot_state_key name (PeerSlotScopeKey_Group group) in
  in_local (pn_state n) !! key = None → in_last_seen (pn_state n) !! key = None →
  put_group nonces run name group key_ids payload n = (Ok report, n1) →
  ppr_version report = 1%N
  ∧ ∀ view run' (n' : PeerNamespace) j kind sv b v,
      run' (tasks_for [PeerAddress_Group group] ChSlot name n') !! j = Some (kind, Ok (Some (sv, b))) →
      open_slot_value name kind (PeerAddress_Group group) (PeerSlotScope_Group group) b (view j) = Some v →
      (1 < psv_version v)%N →
      ∃ w, get_group view run' name group n' = Ok (Some w) ∧ (ppr_version report < psv_version w)%N.
Proof.
  cbv zeta. intros Hl Hs (version & inner & b & Hnv & _ & _ & -> & _)%put_with_Ok.
  assert (version = 1%N) as ->.
  { unfold next_version in Hnv. cbn [next_local_slot_version InMemoryStateStore] in Hnv.
    unfold Inner_next_local_slot_version in Hnv. rewrite Hl, Hs in Hnv. by injection Hnv as <- _. }
  split; [done |]. intros view run' n' j kind sv b' v Hj Hv Hgt.
  destruct (get_address_at_least view run' name _ (PeerSlotScope_Group group) n' j kind sv b' v Hj Hv)
    as (x & _ & Hget & Hx & Hle%pair_le_version).
  exists x.2. split; [done |]. rewrite <- Hx. cbn [fst] in Hle. lia.
Qed.
End Writers.

(** ** Codes for the witnesses *)

#[export] Instance PeerSlotInner_eq_dec : EqDecision PeerSlotInner.
Proof. solve_decision. Defined.

#[export] Instance PeerSlotInner_countable : Countable PeerSlotInner.
Proof.
  refine (inj_countable' (λ i, (psi_version i, psi_slot_version i, psi_payload i))
    (λ t, MkPeerSlotInner t.1.1 t.1.2 t.2) _). by intros [].
Defined.

(** ** Witnesses *)

Module PeerChannelsWitness.
Import Toy ListLru PeerEnvelopeWitness GroupEnvelopeWitness IrohWitness.
#[local] Existing Instance ToyUrl.toy_url.
#[local] Existing Instance toy_iroh.
#[local] Existing Instance peer_msgpack.
#[local] Existing Instance peer_msgpack_laws.
#[local] Existing Instance group_msgpack.
#[local] Existing Instance group_msgpack_laws.
#[local] Instance slot_msgpack : Msgpack PeerSlotInner := toy_msgpack.
#[local] Instance slot_msgpack_laws : MsgpackLaws PeerSlotInner := toy_msgpack_laws.

Definition trust_table (t : TrustedPeer) : gmap PeerId TrustedPeer := {[ TrustedPeer_peer_id t := t ]}.

(** Alice and Bob share the group and one transport; Bob trusts Alice. *)
Definition alice_ns : PeerNamespace (S:=InMemoryInner) (T:=unit) :=
  MkPeerNamespace alice Inner_default ∅ {[ (team, gk_id team_key) := team_key ]} [MkTransportEndpoint Http tt] None.
Definition bob_ns : PeerNamespace (S:=InMemoryInner) (T:=unit) :=
  MkPeerNamespace bob Inner_default (trust_table (TrustedPeer_new (PeerIdentity_card alice))) ∅
    [MkTransportEndpoint Http tt] None.

Lemma bob_trusts : trusts (trusted_snapshot bob_ns) alice.
Proof.
  assert (trusted_snapshot bob_ns = [TrustedPeer_new (PeerIdentity_card alice)]) as ->.
  { unfold trusted_snapshot. cbn [pn_trusted_peers bob_ns]. unfold trust_table. by rewrite map_to_list_singleton. }
  exact toy_trusts.
Qed.

Definition accept_all (tasks : list (peer_task (T:=unit))) (_ : bytes)
    : list (TransportKind * result unit TransportError) := [(Http, Ok tt)].

Definition sent : bytes :=
  match PeerEnvelope_to_bytes toy_opened with Ok b => b | _ => [] end.

Lemma peer_mailbox_delivers_witness :
  ∃ b, recv_timeout 1 0 (λ _, bob_ns) (λ _ _, bob_ns)
         (λ _ _, [(Http, PeerAddress_Pairwise (PeerIdentity_peer_id bob), Ok (Some b))]) (lit "a/b") false
         (observe_all (Dedup_new 4) [])
       = (Some (Ok (MkPeerMailboxMessage (PeerIdentity_peer_id alice) (verifying_key (signing alice))
                      (lit "hi") Http None None)), observe_all (Dedup_new 4) [b]).
Proof.
  destruct (peer_mailbox_delivers toy_nonces accept_all (lit "a/b") (lit "hi") [PeerIdentity_card bob]
    alice_ns bob (MkPeerSendReport [Http] [])) as (b & _ & _ & H).
  - vm_refl.
  - exact toy_addresses.
  - exists b. apply (H 1 0 (λ _, bob_ns) (λ _ _, bob_ns) _ 4 [] Http [] []).
    + lia.
    + intros k Hk. lia.
    + reflexivity.
    + reflexivity.
    + apply not_elem_of_nil.
    + reflexivity.
    + exact bob_trusts.
Defined.

Definition store_all (tasks : list (peer_task (T:=unit))) (_ : N) (_ : bytes)
    : list (TransportKind * result unit TransportError) := [(Http, Ok tt)].

Lemma peer_slot_put_get_witness :
  ∃ b via, get_pairwise (λ _, bob_ns) (λ _, [(Http, Ok (Some (1%N, b)))]) (lit "a/b") bob_ns
    = Ok (Some (MkPeerSlotValue 1 (PeerIdentity_peer_id alice) (verifying_key (signing alice)) (lit "hi") via
                  PeerSlotScope_Pairwise None)).
Proof.
  destruct (peer_slot_put_get toy_nonces store_all (lit "a/b") (lit "hi") [PeerIdentity_card bob] alice_ns
    (next_version (lit "a/b") PeerSlotScopeKey_Pairwise alice_ns).2 bob_ns (MkPeerSlotPutReport 1 [Http] []))
    as (b & _ & H).
  - vm_refl.
  - exact toy_addresses.
  - destruct (H (λ _, bob_ns) (λ _, [(Http, Ok (Some (1%N, b)))]) 0 Http 1%N) as (v & i & b' & Hg & _ & _ & _ & Hv).
    + intros k. split; [reflexivity | exact bob_trusts].
    + reflexivity.
    + destruct Hv as [via ->]; [| exists b, via; exact Hg].
      intros [|k] b'' u (kind' & sv' & Hk & _); [| discriminate Hk]. right. injection Hk as _ _ <-. reflexivity.
Defined.

End PeerChannelsWitness.
