(* ===== verification/PeerWatch.v ===== *)
(** * peer.rs: watching a public-key slot

    [watch_address] spawns one task per transport.  The tasks share the
    duplicate buffer, the best pair, the channel to the consumer, the state
    store and the trust and key tables of the namespace, which other callers
    may change between two moves.  An event names the task that moves, so a
    schedule of the runtime is a sequence of events. *)

From S2P Require Import Prelude Bytes Crypto Kdf Net Guard Errors Dedup Config Health PeerCard Msgpack State PeerEnvelope GroupEnvelope Coordinator SlotWatch Iroh Namespace PeerNamespace PeerChannels.

Section PeerWatch.
Context `{PR : Primitives} `{UL : UrlLib} `{IL : IrohLib} {LC : LruCache bytes}.
Context {MPE : Msgpack PeerEnvelopeWire} {MPG : Msgpack GroupEnvelopeWire} {MPS : Msgpack PeerSlotInner}.
Context {S : Type} {ST : StateStore S} {T : Type}.
Notation PeerNamespace := (PeerNamespace (S:=S) (T:=T)).

Inductive peer_pc : Type :=
| PwWaiting                                        (** [stream.next().await] *)
| PwReceived (b : bytes)                           (** [dedup.lock().await] *)
| PwOpened (b : bytes) (v : PeerSlotValue)         (** [best.lock().await] *)
| PwAccepted (b : bytes) (v : PeerSlotValue)       (** after [drop(best)] *)
| PwSending (b : bytes) (v : PeerSlotValue)        (** [tx.send(..).await] *)
| PwStopped.

Record peer_watcher : Type := MkPeerWatcher { pw_kind : TransportKind; pw_pc : peer_pc }.

(** The last four fields record history only: the namespaces the watch has
    lived through, the pairs stored in [best], the values that entered the
    channel and those the consumer took. *)
Record peer_watch : Type := MkPeerWatch {
  pw_tasks : list peer_watcher;
  pw_best : option (N * bytes);
  pw_dedup : Dedup;
  pw_ns : PeerNamespace;
  pw_queue : list PeerSlotValue;
  pw_rx_open : bool;
  pw_views : list PeerNamespace;
  pw_accepted : list (N * bytes * PeerSlotValue);
  pw_sent : list (N * bytes * PeerSlotValue);
  pw_taken : list PeerSlotValue
}.

(** The watch and the version the transports are asked to start from. *)
Definition watch_address (name : bytes) (key : PeerSlotScopeKey) (n : PeerNamespace)
    : result (peer_watch * N) PeerSlotError :=
  let! since := map_err PeerSlotError_State
                  (last_seen_slot_version (peer_slot_state_key name key) (pn_state n)) in
  Ok (MkPeerWatch (map (λ ep, MkPeerWatcher (te_kind ep) PwWaiting) (pn_transports n)) None
        (Dedup_new DEFAULT_CAPACITY) n [] true [n] [] [] [], default 0%N since).

Definition watch_pairwise (name : bytes) (n : PeerNamespace) : result (peer_watch * N) PeerSlotError :=
  watch_address name PeerSlotScopeKey_Pairwise n.

Definition watch_publisher (name : bytes) (publisher : PeerId) (n : PeerNamespace)
    : result (peer_watch * N) PeerSlotError :=
  watch_address name (PeerSlotScopeKey_Publisher publisher) n.

Definition watch_group (name : bytes) (group : GroupId) (n : PeerNamespace)
    : result (peer_watch * N) PeerSlotError :=
  watch_address name (PeerSlotScopeKey_Group group) n.

Definition pw_move (i : nat) (kind : TransportKind) (p : peer_pc) (a : peer_watch) : peer_watch :=
  MkPeerWatch (<[i := MkPeerWatcher kind p]> (pw_tasks a)) (pw_best a) (pw_dedup a) (pw_ns a) (pw_queue a)
    (pw_rx_open a) (pw_views a) (pw_accepted a) (pw_sent a) (pw_taken a).

(** Another caller has changed the shared tables or the store. *)
Definition pw_see (n : PeerNamespace) (a : peer_watch) : peer_watch :=
  MkPeerWatch (pw_tasks a) (pw_best a) (pw_dedup a) n (pw_queue a) (pw_rx_open a) (pw_views a ++ [n])
    (pw_accepted a) (pw_sent a) (pw_taken a).

(** [stream.next()]: an error item is skipped, the end stops the task. *)
Definition pw_item (i : nat) (kind : TransportKind) (item : option (result (N * bytes) TransportError))
    (a : peer_watch) : peer_watch :=
  match item with
  | None => pw_move i kind PwStopped a
  | Some (Ok (_, b)) => pw_move i kind (PwReceived b) a
  | Some _ => a
  end.

Definition pw_observe (name : bytes) (address : PeerAddress) (scope : PeerSlotScope) (i : nat)
    (kind : TransportKind) (b : bytes) (a : peer_watch) : peer_watch :=
  let '(dup, d) := observe (pw_dedup a) b in
  let next :=
    if dup then PwWaiting
    else match open_slot_value name kind address scope b (pw_ns a) with
         | Some v => PwOpened b v
         | None => PwWaiting
         end in
  pw_move i kind next
    (MkPeerWatch (pw_tasks a) (pw_best a) d (pw_ns a) (pw_queue a) (pw_rx_open a) (pw_views a)
       (pw_accepted a) (pw_sent a) (pw_taken a)).

Definition pw_compare (i : nat) (kind : TransportKind) (b : bytes) (v : PeerSlotValue) (a : peer_watch)
    : peer_watch :=
  let version := psv_version v in
  if match pw_best a with
     | Some (bv, bb) => negb (peer_slot_pair_is_newer version b bv bb)
     | None => false
     end
  then pw_move i kind PwWaiting a
  else pw_move i kind (PwAccepted b v)
         (MkPeerWatch (pw_tasks a) (Some (version, b)) (pw_dedup a) (pw_ns a) (pw_queue a) (pw_rx_open a)
            (pw_views a) (pw_accepted a ++ [(version, b, v)]) (pw_sent a) (pw_taken a)).

Definition pw_record (name : bytes) (key : PeerSlotScopeKey) (i : nat) (kind : TransportKind) (b : bytes)
    (v : PeerSlotValue) (a : peer_watch) : peer_watch :=
  let n := pw_ns a in
  pw_move i kind (PwSending b v)
    (pw_see (set_state (record_seen_slot_version (peer_slot_state_key name key) (psv_version v) (pn_state n)).2 n) a).

Definition pw_send (i : nat) (kind : TransportKind) (b : bytes) (v : PeerSlotValue) (a : peer_watch)
    : option peer_watch :=
  if pw_rx_open a then
    if length (pw_queue a) <? PEER_SLOT_WATCH_BUFFER then
      Some (pw_move i kind PwWaiting
        (MkPeerWatch (pw_tasks a) (pw_best a) (pw_dedup a) (pw_ns a) (pw_queue a ++ [v]) (pw_rx_open a)
           (pw_views a) (pw_accepted a) (pw_sent a ++ [(psv_version v, b, v)]) (pw_taken a)))
    else None
  else Some (pw_move i kind PwStopped a).

Definition pw_run (name : bytes) (address : PeerAddress) (scope : PeerSlotScope) (key : PeerSlotScopeKey)
    (i : nat) (a : peer_watch) : option peer_watch :=
  match pw_tasks a !! i with
  | Some (MkPeerWatcher kind p) =>
      match p with
      | PwReceived b => Some (pw_observe name address scope i kind b a)
      | PwOpened b v => Some (pw_compare i kind b v a)
      | PwAccepted b v => Some (pw_record name key i kind b v a)
      | PwSending b v => pw_send i kind b v a
      | PwWaiting | PwStopped => None
      end
  | None => None
  end.

(** [PeerSlotWatch::recv]. *)
Definition peer_watch_recv (a : peer_watch) : option (result PeerSlotValue RecvError * peer_watch) :=
  match pw_queue a with
  | v :: q =>
      Some (Ok v, MkPeerWatch (pw_tasks a) (pw_best a) (pw_dedup a) (pw_ns a) q (pw_rx_open a) (pw_views a)
                    (pw_accepted a) (pw_sent a) (pw_taken a ++ [v]))
  | [] =>
      if forallb (λ t, match pw_pc t with PwStopped => true | _ => false end) (pw_tasks a)
      then Some (Err RecvError_Closed, a) else None
  end.

Inductive peer_event : Type :=
| PwItem (i : nat) (item : option (result (N * bytes) TransportError))
| PwRun (i : nat)
| PwOp (op : peer_op)
| PwVersions (op : version_op)
| PwRecv
| PwDrop.

Definition peer_watch_step (name : bytes) (address : PeerAddress) (scope : PeerSlotScope)
    (key : PeerSlotScopeKey) (ev : peer_event) (a : peer_watch) : option peer_watch :=
  match ev with
  | PwItem i item =>
      match pw_tasks a !! i with
      | Some (MkPeerWatcher kind PwWaiting) => Some (pw_item i kind item a)
      | _ => None
      end
  | PwRun i => pw_run name address scope key i a
  | PwOp op => Some (pw_see (peer_apply (pw_ns a) op) a)
  | PwVersions op => Some (pw_see (set_state (store_op op (pn_state (pw_ns a))) (pw_ns a)) a)
  | PwRecv => if pw_rx_open a then snd <$> peer_watch_recv a else None
  | PwDrop =>
      Some (MkPeerWatch (pw_tasks a) (pw_best a) (pw_dedup a) (pw_ns a) [] false (pw_views a) (pw_accepted a)
              (pw_sent a) (pw_taken a))
  end.

Fixpoint peer_watch_run (name : bytes) (address : PeerAddress) (scope : PeerSlotScope)
    (key : PeerSlotScopeKey) (evs : list peer_event) (a : peer_watch) : option peer_watch :=
  match evs with
  | [] => Some a
  | ev :: evs =>
      match peer_watch_step name address scope key ev a with
      | Some a => peer_watch_run name address scope key evs a
      | None => None
      end
  end.
End PeerWatch.

(** ** Invariants *)

Section Invariants.
Context `{PR : Primitives} `{UL : UrlLib} `{IL : IrohLib} {LC : LruCache bytes}.
Context {MPE : Msgpack PeerEnvelopeWire} {MPG : Msgpack GroupEnvelopeWire} {MPS : Msgpack PeerSlotInner}.
Context {S : Type} {ST : StateStore S} {T : Type}.
Notation PeerNamespace := (PeerNamespace (S:=S) (T:=T)).
Notation peer_watch := (peer_watch (S:=S) (T:=T)).
Variables (name : bytes) (address : PeerAddress) (scope : PeerSlotScope) (key : PeerSlotScopeKey).

(** The value a task has accepted but not yet sent. *)
Definition pw_flight (t : peer_watcher) : option (N * bytes * PeerSlotValue) :=
  match pw_pc t with
  | PwAccepted b v | PwSending b v => Some (psv_version v, b, v)
  | _ => None
  end.

Definition pw_inflight (tasks : list peer_watcher) : list (N * bytes * PeerSlotValue) :=
  filter_map pw_flight tasks.

(** [v] is what [b] opens to under one of the namespaces [views]. *)
Definition opened_under (views : list PeerNamespace) (b : bytes) (v : PeerSlotValue) : Prop :=
  ∃ kind n, n ∈ views ∧ open_slot_value name kind address scope b n = Some v.

Record pw_inv (a : peer_watch) : Prop := {
  pwi_sorted : StronglySorted older (pw_accepted a);
  pwi_best : pw_best a = fst <$> last (pw_accepted a);
  pwi_flow : pw_sent a ++ pw_inflight (pw_tasks a) ⊆+ pw_accepted a;
  pwi_current : pw_ns a ∈ pw_views a;
  pwi_auth : ∀ x, x ∈ pw_accepted a → x.1.1 = psv_version x.2 ∧ opened_under (pw_views a) x.1.2 x.2;
  pwi_opened : ∀ t b v, t ∈ pw_tasks a → pw_pc t = PwOpened b v → opened_under (pw_views a) b v;
  pwi_taken : pw_taken a `prefix_of` (snd <$> pw_sent a);
  pwi_fifo : pw_rx_open a = true → pw_taken a ++ pw_queue a = snd <$> pw_sent a;
  pwi_bound : length (pw_queue a) ≤ PEER_SLOT_WATCH_BUFFER
}.

Ltac pw_cbn :=
  cbn [pw_move pw_see pw_tasks pw_best pw_dedup pw_ns pw_queue pw_rx_open pw_views pw_accepted pw_sent pw_taken].

(** The effect of one task's move on the values in flight. *)
Lemma pw_inflight_insert tasks i t t' :
  tasks !! i = Some t →
  ∃ l1 l2, pw_inflight tasks = l1 ++ option_list (pw_flight t) ++ l2
    ∧ pw_inflight (<[i := t']> tasks) = l1 ++ option_list (pw_flight t') ++ l2.
Proof.
  intros (l1 & l2 & -> & Hi)%task_split. exists (pw_inflight l1), (pw_inflight l2). unfold pw_inflight.
  rewrite Hi, !filter_map_app. cbn [filter_map].
  destruct (pw_flight t), (pw_flight t'); done.
Qed.

Lemma pw_task_insert (tasks : list peer_watcher) i t t' : t ∈ <[i := t']> tasks → t = t' ∨ t ∈ tasks.
Proof.
  intros (j & Hj)%list_elem_of_lookup. destruct (decide (i = j)) as [<-|Hne].
  - left. apply list_lookup_insert_Some in Hj. naive_solver.
  - rewrite list_lookup_insert_ne in Hj by done. right. by eapply list_elem_of_lookup_2.
Qed.

Lemma opened_under_mono views n b v : opened_under views b v → opened_under (views ++ [n]) b v.
Proof. intros (kind & m & Hm & Hv). exists kind, m. split; [apply elem_of_app; by left | done]. Qed.

(** A move that neither accepts nor sends. *)
Lemma pw_inv_move i kind p p' d a :
  pw_inv a → pw_tasks a !! i = Some (MkPeerWatcher kind p) →
  pw_flight (MkPeerWatcher kind p') = pw_flight (MkPeerWatcher kind p)
  ∨ pw_flight (MkPeerWatcher kind p') = None →
  (∀ b v, p' = PwOpened b v → opened_under (pw_views a) b v) →
  pw_inv (pw_move i kind p'
            (MkPeerWatch (pw_tasks a) (pw_best a) d (pw_ns a) (pw_queue a) (pw_rx_open a) (pw_views a)
               (pw_accepted a) (pw_sent a) (pw_taken a))).
Proof.
  intros [] Hi Hf Ho. split; pw_cbn; try done.
  - destruct (pw_inflight_insert _ _ _ (MkPeerWatcher kind p') Hi) as (l1 & l2 & E1 & E2).
    rewrite E1 in pwi_flow0. rewrite E2. destruct Hf as [->| ->]; [done |]. cbn.
    etransitivity; [| exact pwi_flow0]. apply submseteq_app; [done |]. apply submseteq_app; [done |].
    by apply submseteq_inserts_l.
  - intros t b v [->|Ht]%pw_task_insert; [apply Ho | by apply (pwi_opened0 t)].
Qed.

Lemma pw_inv_see n a : pw_inv a → pw_inv (pw_see n a).
Proof.
  intros []. split; pw_cbn; try done.
  - apply elem_of_app. right. apply list_elem_of_here.
  - intros x Hx. destruct (pwi_auth0 x Hx). split; [done | by apply opened_under_mono].
  - intros t b v Ht Hp. by eapply opened_under_mono, pwi_opened0.
Qed.

(** Storing a newer best pair. *)
Lemma pw_inv_accept i kind b v a :
  pw_inv a → pw_tasks a !! i = Some (MkPeerWatcher kind (PwOpened b v)) →
  match pw_best a with Some p => pair_ltb p (psv_version v, b) = true | None => True end →
  pw_inv (pw_move i kind (PwAccepted b v)
            (MkPeerWatch (pw_tasks a) (Some (psv_version v, b)) (pw_dedup a) (pw_ns a) (pw_queue a)
               (pw_rx_open a) (pw_views a) (pw_accepted a ++ [(psv_version v, b, v)]) (pw_sent a) (pw_taken a))).
Proof.
  intros [] Hi Hnew. split; pw_cbn; try done.
  - apply StronglySorted_snoc; [done |]. apply Forall_forall. intros x Hx. rewrite pwi_best0 in Hnew.
    destruct (last (pw_accepted a)) as [y|] eqn:Hy.
    + destruct (StronglySorted_last_max _ x y pwi_sorted0 Hy Hx) as [->|Ho]; [done |].
      eapply older_trans; [exact Ho | done].
    + apply last_None in Hy. rewrite Hy in Hx. by apply not_elem_of_nil in Hx.
  - by rewrite last_snoc.
  - destruct (pw_inflight_insert _ _ _ (MkPeerWatcher kind (PwAccepted b v)) Hi) as (l1 & l2 & E1 & E2).
    rewrite E1 in pwi_flow0. rewrite E2. cbn in *.
    assert (pw_sent a ++ l1 ++ (psv_version v, b, v) :: l2 ≡ₚ (pw_sent a ++ l1 ++ l2) ++ [(psv_version v, b, v)])
      as ->
      by (by rewrite app_assoc, <- Permutation_middle, <- app_assoc, <- Permutation_cons_append).
    by apply submseteq_app.
  - intros x [Hx| ->%list_elem_of_singleton]%elem_of_app; [by apply pwi_auth0 |]. split; [done |].
    apply (pwi_opened0 (MkPeerWatcher kind (PwOpened b v))); [by eapply list_elem_of_lookup_2 | done].
  - intros t b' v' [->|Ht]%pw_task_insert; [done | by apply (pwi_opened0 t)].
Qed.

Lemma pw_inv_send i kind b v a a' :
  pw_inv a → pw_tasks a !! i = Some (MkPeerWatcher kind (PwSending b v)) →
  pw_send i kind b v a = Some a' → pw_inv a'.
Proof.
  intros Ha Hi. unfold pw_send. destruct (pw_rx_open a) eqn:Ho.
  - destruct (Nat.ltb_spec (length (pw_queue a)) PEER_SLOT_WATCH_BUFFER); [| done]. intros [= <-].
    destruct Ha. split; pw_cbn; try done.
    + destruct (pw_inflight_insert _ _ _ (MkPeerWatcher kind PwWaiting) Hi) as (l1 & l2 & E1 & E2).
      rewrite E1 in pwi_flow0. rewrite E2. cbn in *.
      assert ((pw_sent a ++ [(psv_version v, b, v)]) ++ l1 ++ l2 ≡ₚ pw_sent a ++ l1 ++ (psv_version v, b, v) :: l2)
        as ->
        by (rewrite <- app_assoc; cbn [app]; by rewrite (Permutation_middle l1 l2)).
      done.
    + intros t b' v' [->|Ht]%pw_task_insert; [done | by apply (pwi_opened0 t)].
    + rewrite fmap_app. by apply prefix_app_r.
    + intros _. by rewrite fmap_app, app_assoc, pwi_fifo0.
    + rewrite length_app. cbn. lia.
  - intros [= <-]. eapply (pw_inv_move i kind _ PwStopped (pw_dedup a)); [done | exact Hi | by right | done].
Qed.

Lemma pw_inv_step ev a a' :
  pw_inv a → peer_watch_step name address scope key ev a = Some a' → pw_inv a'.
Proof.
  intros Ha. destruct ev as [i item|i|op|op| |]; cbn [peer_watch_step].
  - destruct (pw_tasks a !! i) as [[kind []]|] eqn:Hi; try done. intros [= <-]. unfold pw_item.
    destruct item as [[[sv b]|e|]|]; try done;
      by eapply (pw_inv_move i kind _ _ (pw_dedup a)); [| exact Hi | left |].
  - unfold pw_run. destruct (pw_tasks a !! i) as [[kind p]|] eqn:Hi; [| done].
    destruct p as [|b|b v|b v|b v|]; try done.
    + intros [= <-]. unfold pw_observe. destruct (observe (pw_dedup a) b) as [dup d].
      eapply (pw_inv_move i kind _ _ d); [done | exact Hi | |].
      * left. destruct dup; [done |]. by destruct (open_slot_value _ _ _ _ _ _).
      * intros b' v'. destruct dup; [done |].
        destruct (open_slot_value name kind address scope b (pw_ns a)) as [v|] eqn:E; [| done].
        intros [= <- <-]. exists kind, (pw_ns a). split; [apply Ha | done].
    + intros [= <-]. unfold pw_compare, peer_slot_pair_is_newer. destruct (pw_best a) as [[bv bb]|] eqn:Hb.
      * destruct (pair_ltb (bv, bb) (psv_version v, b)) eqn:Hlt; cbn [negb].
        -- eapply pw_inv_accept; [done | exact Hi | by rewrite Hb].
        -- by eapply (pw_inv_move i kind _ PwWaiting (pw_dedup a)); [| exact Hi | right |].
      * eapply pw_inv_accept; [done | exact Hi | by rewrite Hb].
    + intros [= <-]. unfold pw_record.
      by eapply (pw_inv_move i kind (PwAccepted b v) (PwSending b v) (pw_dedup a) (pw_see _ a));
        [apply pw_inv_see | exact Hi | left |].
    + by eapply pw_inv_send.
  - intros [= <-]. by apply pw_inv_see.
  - intros [= <-]. by apply pw_inv_see.
  - destruct (pw_rx_open a) eqn:Ho; [| done]. unfold peer_watch_recv.
    destruct (pw_queue a) as [|v q] eqn:Hq.
    + destruct (forallb _ _); [| done]. by intros [= <-].
    + intros [= <-]. destruct Ha. specialize (pwi_fifo0 Ho). rewrite Hq in *.
      split; pw_cbn; try done.
      * rewrite <- pwi_fifo0. exists q. by rewrite <- app_assoc.
      * intros _. by rewrite <- app_assoc.
      * cbn in pwi_bound0. lia.
  - intros [= <-]. destruct Ha. split; pw_cbn; try done. cbn. lia.
Qed.

Lemma pw_inv_run evs a a' :
  pw_inv a → peer_watch_run name address scope key evs a = Some a' → pw_inv a'.
Proof.
  revert a. induction evs as [|ev evs IH]; intros a Ha; cbn [peer_watch_run]; [by intros [= <-] |].
  destruct (peer_watch_step name address scope key ev a) eqn:E; [| done]. apply IH. by eapply pw_inv_step.
Qed.

Lemma pw_inv_start n a since : watch_address name key n = Ok (a, since) → pw_inv a.
Proof.
  unfold watch_address. intros (s & _ & [= <- _])%rbind_Ok. split; pw_cbn; try done.
  - apply SSorted_nil.
  - assert (pw_inflight (map (λ ep : TransportEndpoint, MkPeerWatcher (te_kind ep) PwWaiting) (pn_transports n)) = [])
      as -> by (induction (pn_transports n) as [|ep eps IH]; [done | exact IH]). done.
  - apply list_elem_of_here.
  - intros x Hx. by apply not_elem_of_nil in Hx.
  - intros t b v (ep & -> & _)%list_elem_of_fmap. done.
  - cbn. lia.
Qed.

(** A fresh watch hands the first value that opens to the consumer, even when
    another caller changes the trust or the keys once it has been opened. *)
Lemma pw_first_value (n : PeerNamespace) (a0 : peer_watch) since i kind sv b v op :
  watch_address name key n = Ok (a0, since) →
  pw_tasks a0 !! i = Some (MkPeerWatcher kind PwWaiting) →
  open_slot_value name kind address scope b n = Some v →
  ∃ a : peer_watch, peer_watch_run name address scope key
         [PwItem i (Some (Ok (sv, b))); PwRun i; PwOp op; PwRun i; PwRun i; PwRun i; PwRecv] a0 = Some a
     ∧ pw_taken a = [v].
Proof.
  unfold watch_address. intros (s & _ & [= <- _])%rbind_Ok Hi Hv. cbn [pw_tasks] in Hi.
  pose proof (lookup_lt_Some _ _ _ Hi) as Hl.
  cbn [peer_watch_run peer_watch_step pw_tasks]. rewrite Hi. cbn [pw_item]. unfold pw_run. pw_cbn.
  rewrite list_lookup_insert_eq by done. unfold pw_observe. pw_cbn.
  destruct (observe (Dedup_new DEFAULT_CAPACITY) b) as [dup d] eqn:Ho.
  pose proof (observe_result (Dedup_new DEFAULT_CAPACITY) b) as Hd. rewrite Ho, Dedup_new_keys in Hd.
  rewrite bool_decide_eq_false_2 in Hd by apply not_elem_of_nil. cbn in Hd. subst dup.
  rewrite Hv. pw_cbn. rewrite !list_lookup_insert_eq by by rewrite ?length_insert.
  unfold pw_compare. pw_cbn. rewrite !list_lookup_insert_eq by by rewrite ?length_insert.
  unfold pw_record. pw_cbn. rewrite !list_lookup_insert_eq by by rewrite ?length_insert.
  unfold pw_send. pw_cbn. cbn [length Nat.ltb Nat.leb PEER_SLOT_WATCH_BUFFER]. pw_cbn.
  by eexists.
Qed.

(** ** Claims *)

(** C26: whatever the schedule of the tasks, the items the transports yield
    and the changes of trust, keys and versions in between, a watch of a peer
    slot sends each value at most once, the accepted pairs strictly increase,
    the consumer takes the values in order, at most 64 are buffered, and
    every value sent is what its envelope opened to, on this slot, under the
    trust and keys of one of the moments the watch lived through. *)
Theorem peer_watch_safety (n : PeerNamespace) (a0 a : peer_watch) (since : N) (evs : list peer_event) :
  watch_address name key n = Ok (a0, since) →
  peer_watch_run name address scope key evs a0 = Some a →
  StronglySorted older (pw_accepted a) ∧ NoDup (pw_sent a)
  ∧ (∀ x, x ∈ pw_sent a → x ∈ pw_accepted a ∧ x.1.1 = psv_version x.2 ∧ opened_under (pw_views a) x.1.2 x.2)
  ∧ pw_taken a `prefix_of` (snd <$> pw_sent a) ∧ length (pw_queue a) ≤ PEER_SLOT_WATCH_BUFFER
  ∧ (pw_rx_open a = true → pw_taken a ++ pw_queue a = snd <$> pw_sent a).
Proof.
  intros Hs Hr. destruct (pw_inv_run _ _ _ (pw_inv_start _ _ _ Hs) Hr) as [H1 _ Hflow _ Hau _ Ht Hf Hb].
  assert (pw_sent a ⊆+ pw_accepted a) as Hsub
    by (etransitivity; [apply submseteq_inserts_r | exact Hflow]; done).
  split_and!; try done.
  - apply submseteq_Permutation in Hsub as [k Hk]. apply sorted_NoDup in H1.
    rewrite Hk in H1. by apply NoDup_app in H1 as [? _].
  - intros x Hx. assert (x ∈ pw_accepted a) as Hacc by by eapply elem_of_submseteq.
    split; [done |]. by apply Hau.
Qed.
End Invariants.

(** ** Witnesses *)

Module PeerWatchWitness.
Import Toy ListLru PeerEnvelopeWitness GroupEnvelopeWitness IrohWitness PeerChannelsWitness.
#[local] Existing Instance ToyUrl.toy_url.
#[local] Existing Instance toy_iroh.
#[local] Existing Instance peer_msgpack.
#[local] Existing Instance group_msgpack.
#[local] Existing Instance slot_msgpack.
#[local] Existing Instance peer_msgpack_laws.
#[local] Existing Instance group_msgpack_laws.
#[local] Existing Instance slot_msgpack_laws.

Definition me : PeerAddress := PeerAddress_Pairwise (PeerIdentity_peer_id bob).

Definition start_watch : peer_watch (S:=InMemoryInner) (T:=unit) :=
  MkPeerWatch [MkPeerWatcher Http PwWaiting] None (Dedup_new DEFAULT_CAPACITY) bob_ns [] true [bob_ns] [] [] [].

(** One value, up to the consumer, while Alice loses Bob's trust. *)
Definition schedule (b : bytes) : list peer_event :=
  [PwItem 0 (Some (Ok (1%N, b))); PwRun 0; PwOp (PeerRemove (PeerIdentity_peer_id alice));
   PwRun 0; PwRun 0; PwRun 0; PwRecv].

Definition is_ok {A E} (r : result A E) : bool := match r with Ok _ => true | _ => false end.

Lemma is_ok_Ok {A E} (r : result A E) : is_ok r = true → ∃ x, r = Ok x.
Proof. destruct r as [x|e|]; [by exists x | done..]. Qed.

Definition sealed_with (r : result bytes PeerSlotError) : result bytes PeerSlotError :=
  rbind r (λ inner, seal_for_peers toy_nonces (lit "a/b") [PeerIdentity_card bob] inner alice_ns).

(** The envelope Alice stores. *)
Lemma alice_writes :
  ∃ inner b, encode_peer_slot_payload 1 (lit "hi") = Ok inner
    ∧ seal_for_peers toy_nonces (lit "a/b") [PeerIdentity_card bob] inner alice_ns = Ok b.
Proof.
  assert (is_ok (sealed_with (encode_peer_slot_payload 1 (lit "hi"))) = true) as Ho by vm_refl.
  destruct (is_ok_Ok _ Ho) as [b Hb]. unfold sealed_with in Hb.
  destruct (proj1 (rbind_Ok _ _ _) Hb) as (inner & Hi & Hs). exists inner, b. exact (conj Hi Hs).
Qed.

Lemma peer_watch_safety_witness :
  ∃ b a v, peer_watch_run (lit "a/b") me PeerSlotScope_Pairwise PeerSlotScopeKey_Pairwise (schedule b) start_watch
           = Some a
    ∧ pw_taken a = [v] ∧ psv_payload v = lit "hi" ∧ NoDup (pw_sent a).
Proof.
  destruct alice_writes as (inner & b & Hi & Hb).
  pose proof (open_slot_value_pairwise toy_nonces alice_ns bob_ns (lit "a/b") inner 1 (lit "hi")
    [PeerIdentity_card bob] b Http me PeerSlotScope_Pairwise Hb Hi toy_addresses bob_trusts I) as Hv.
  assert (watch_address (lit "a/b") PeerSlotScopeKey_Pairwise bob_ns = Ok (start_watch, 0%N)) as Hs by vm_refl.
  destruct (pw_first_value (lit "a/b") me PeerSlotScope_Pairwise PeerSlotScopeKey_Pairwise bob_ns start_watch 0 0
    Http 1 b _ (PeerRemove (PeerIdentity_peer_id alice)) Hs eq_refl Hv) as (a & Hr & Ht).
  exists b, a, (MkPeerSlotValue 1 (PeerIdentity_peer_id alice) (verifying_key (signing alice)) (lit "hi") Http
    PeerSlotScope_Pairwise None).
  split; [exact Hr |]. split; [exact Ht |]. split; [reflexivity |].
  exact (proj1 (proj2 (peer_watch_safety (lit "a/b") me PeerSlotScope_Pairwise PeerSlotScopeKey_Pairwise bob_ns
    start_watch a 0 (schedule b) Hs Hr))).
Defined.
End PeerWatchWitness.
