(* ===== verification/AgentConfig.v ===== *)
(** * enlace-agent: options, secrets and identity

    [Cli::load] merges the command line with the configuration file, reads
    the secrets and validates the result; [derive_identity] turns the seed
    into the peer identity and [configure_transports] the options into the
    configuration of the peer namespace.  Clap and the TOML parser are
    third-party: a parsed [Cli] and the function [toml_parse] are arguments.
    The file system is the pair of functions [exists_path] and [read_path],
    and the cargo features of the build are a record.  An [anyhow] error is
    the list of its messages, the outermost context first. *)

From S2P Require Import Prelude Bytes Crypto Kdf Net Guard Errors Dedup Config Health PeerCard Msgpack State PeerEnvelope GroupEnvelope Coordinator Iroh Namespace PeerNamespace.

Notation anyhow := (list bytes).

Definition context {T} (c : bytes) (r : result T anyhow) : result T anyhow := map_err (cons c) r.

(** ** Text *)

(** The characters with the property White_Space, in UTF-8. *)
Definition white_space : list bytes :=
  [[x09]; [x0a]; [x0b]; [x0c]; [x0d]; [x20]; [xc2; x85]; [xc2; xa0]; [xe1; x9a; x80]]
  ++ map (λ b, [xe2; x80; b]) [x80; x81; x82; x83; x84; x85; x86; x87; x88; x89; x8a; xa8; xa9; xaf]
  ++ [[xe2; x81; x9f]; [xe3; x80; x80]].

(** Strips strings of [pats] from the front, as long as there are any. *)
Fixpoint strip_front (fuel : nat) (pats : list bytes) (s : bytes) : bytes :=
  match fuel with
  | O => s
  | S fuel =>
      match find_first (λ p, bool_decide (is_Some (strip_prefix p s))) pats with
      | Some p => strip_front fuel pats (drop (length p) s)
      | None => s
      end
  end.

Definition strip_back (pats : list bytes) (s : bytes) : bytes :=
  reverse (strip_front (length s) (map reverse pats) (reverse s)).

(** [str::trim]; every round strips at least one byte. *)
Definition trim (s : bytes) : bytes :=
  strip_back white_space (strip_front (length s) white_space s).

(** [trim_end_matches(['\r', '\n'])]. *)
Definition trim_newlines (s : bytes) : bytes := strip_back [[x0d]; [x0a]] s.

(** [is_ascii_digit] or [(b'a'..=b'f').contains]. *)
Definition lower_hex (b : byte) : bool := in_range 48 57 b || in_range 97 102 b.

(** [chunks_exact(2)] through [u8::from_str_radix(.., 16)]; a chunk of
    lowercase hex is UTF-8. *)
Fixpoint decode_pairs (s : bytes) : option bytes :=
  match s with
  | a :: b :: s' =>
      match from_str_radix 16 255 [a; b], decode_pairs s' with
      | Some n, Some l => Some (byte_of_N n :: l)
      | _, _ => None
      end
  | _ => Some []
  end.

(** The shared part of the two parsers; [what] names the value. *)
Definition parse_hex32 (what value : bytes) : result bytes anyhow :=
  let! _ := guard_err (negb (length value =? 64)) [what ++ lit " must be 32 bytes encoded as 64 hex characters"] in
  let! _ := guard_err (negb (forallb lower_hex value)) [what ++ lit " must be lowercase hex"] in
  ok_or (decode_pairs value) [what ++ lit " must be lowercase hex"].

Definition parse_hex_seed (value : bytes) : result bytes anyhow :=
  let! seed := parse_hex32 (lit "seed") value in
  let! _ := guard_err (forallb (λ b, bool_decide (b = x00)) seed) [lit "seed must not be all zero"] in
  Ok seed.

Definition parse_peer_id (value : bytes) : result PeerId anyhow :=
  let! b := parse_hex32 (lit "peer id") value in Ok (PeerId_from_bytes b).

(** ** Options *)

Inductive TransportFlag : Type := TransportFlag_Http | TransportFlag_Pkarr | TransportFlag_Iroh.

Definition TransportFlag_as_str (f : TransportFlag) : bytes :=
  match f with
  | TransportFlag_Http => lit "http"
  | TransportFlag_Pkarr => lit "pkarr"
  | TransportFlag_Iroh => lit "iroh"
  end.

Inductive PkarrNetworkArg : Type := PkarrNetworkArg_Relays | PkarrNetworkArg_Dht | PkarrNetworkArg_Both.

Definition requires_dht (n : PkarrNetworkArg) : bool :=
  match n with PkarrNetworkArg_Relays => false | _ => true end.

(** The cargo features of the build; [ft_unix] is unix-socket on unix. *)
Record features : Type := MkFeatures {
  ft_http : bool;
  ft_pkarr : bool;
  ft_iroh : bool;
  ft_pkarr_dht : bool;
  ft_unix : bool
}.

Definition TransportFlag_enabled (ft : features) (f : TransportFlag) : bool :=
  match f with
  | TransportFlag_Http => ft_http ft
  | TransportFlag_Pkarr => ft_pkarr ft
  | TransportFlag_Iroh => ft_iroh ft
  end.

Definition validate_pkarr_network (ft : features) (n : PkarrNetworkArg) : result unit anyhow :=
  guard_err (requires_dht n && negb (ft_pkarr_dht ft)) [lit "pkarr DHT mode requires the 'pkarr-dht' feature"].

Fixpoint validate_transport_flags (ft : features) (flags : list TransportFlag) : result unit anyhow :=
  match flags with
  | [] => Ok tt
  | f :: flags =>
      let! _ := guard_err (negb (TransportFlag_enabled ft f))
                  [TransportFlag_as_str f ++ lit " transport feature is not enabled"] in
      validate_transport_flags ft flags
  end.

Definition all_flags : list TransportFlag := [TransportFlag_Http; TransportFlag_Pkarr; TransportFlag_Iroh].

Definition enabled_transports (ft : features) (flags : list TransportFlag) : list bytes :=
  map TransportFlag_as_str
    (List.filter (TransportFlag_enabled ft) (match flags with [] => all_flags | _ => flags end)).

Record FileConfig : Type := MkFileConfig {
  fc_seed : option bytes;
  fc_seed_file : option bytes;
  fc_token : option bytes;
  fc_token_file : option bytes;
  fc_listen_ws : option SocketAddr;
  fc_listen_unix : option bytes;
  fc_peers : option (list bytes);
  fc_transports : option (list TransportFlag);
  fc_relay : option bytes;
  fc_pkarr_network : option PkarrNetworkArg;
  fc_pkarr_relays : option (list bytes);
  fc_pkarr_bootstrap : option (list SocketAddr);
  fc_data_dir : option bytes;
  fc_log : option bytes
}.

Definition FileConfig_default : FileConfig :=
  MkFileConfig None None None None None None None None None None None None None None.

Record Cli : Type := MkCli {
  cli_config : option bytes;
  cli_seed : option bytes;
  cli_token : option bytes;
  cli_listen_ws : option SocketAddr;
  cli_listen_unix : option bytes;
  cli_peer : list bytes;
  cli_transport : list TransportFlag;
  cli_relay : option bytes;
  cli_pkarr_network : option PkarrNetworkArg;
  cli_pkarr_relay : list bytes;
  cli_pkarr_bootstrap : list SocketAddr;
  cli_data_dir : option bytes;
  cli_log : option bytes
}.

(** [Option::or]. *)
Definition opt_or {A} (a b : option A) : option A := match a with Some x => Some x | None => b end.

(** [if cli.is_empty() { file.unwrap_or_default() } else { cli }]. *)
Definition list_or {A} (cli : list A) (file : option (list A)) : list A :=
  match cli with [] => default [] file | _ => cli end.

Definition is_loopback (a : SocketAddr) : bool :=
  match a with V4 ip _ => v4_is_loopback ip | V6 ip _ _ _ => v6_is_loopback ip end.

Section AgentConfig.
Context `{PR : Primitives} `{UL : UrlLib} {B64 : Base64}.
Variable exists_path : bytes → bool.
Variable read_path : bytes → result bytes bytes.
Variable toml_parse : bytes → result FileConfig bytes.
Variable ft : features.

Record AgentConfig : Type := MkAgentConfig {
  ag_seed : bytes;
  ag_token : option bytes;
  ag_listen_ws : option SocketAddr;
  ag_listen_unix : option bytes;
  ag_peers : list PeerCard;
  ag_transports : list bytes;
  ag_relay : option bytes;
  ag_pkarr_network : PkarrNetworkArg;
  ag_pkarr_relays : list bytes;
  ag_pkarr_bootstrap : list SocketAddr;
  ag_data_dir : option bytes;
  ag_log : bytes
}.

(** An external error as the innermost message. *)
Definition wrap {T} (r : result T bytes) : result T anyhow := map_err (λ e, [e]) r.

Definition load_file_config (path : bytes) : result FileConfig anyhow :=
  let! value := context (lit "failed to read " ++ path) (wrap (read_path path)) in
  context (lit "failed to parse " ++ path) (wrap (toml_parse value)).

Definition load_secret_file (path : bytes) : result bytes anyhow :=
  rmap trim_newlines (context (lit "failed to read " ++ path) (wrap (read_path path))).

Definition load_secret (arg : bytes) : result bytes anyhow :=
  if exists_path arg then load_secret_file arg else Ok arg.

Definition load_seed (arg : bytes) : result bytes anyhow :=
  let! value := load_secret arg in parse_hex_seed (trim value).

Definition load_peer_card (arg : bytes) : result PeerCard anyhow :=
  let! value := load_secret arg in
  context (lit "invalid peer card") (wrap (map_err PeerCardError_display (import_string (trim value)))).

Definition load_config_seed (arg : option bytes) (file : FileConfig) : result bytes anyhow :=
  match arg with
  | Some arg => load_seed arg
  | None =>
      match fc_seed file, fc_seed_file file with
      | Some _, Some _ => Err [lit "seed and seed_file are mutually exclusive"]
      | Some seed, None => parse_hex_seed (trim seed)
      | None, Some path => let! value := load_secret_file path in parse_hex_seed (trim value)
      | None, None => Err [lit "seed is required"]
      end
  end.

Definition load_config_token (arg : option bytes) (file : FileConfig) : result (option bytes) anyhow :=
  match arg with
  | Some arg => rmap Some (load_secret arg)
  | None =>
      match fc_token file, fc_token_file file with
      | Some _, Some _ => Err [lit "token and token_file are mutually exclusive"]
      | Some token, None => Ok (Some token)
      | None, Some path => rmap Some (load_secret_file path)
      | None, None => Ok None
      end
  end.

Definition load_config_peers (cli : list bytes) (file : FileConfig) : result (list PeerCard) anyhow :=
  map_result load_peer_card (list_or cli (fc_peers file)).

Definition Cli_load (cli : Cli) : result AgentConfig anyhow :=
  let! file := match cli_config cli with
               | Some path => load_file_config path
               | None => Ok FileConfig_default
               end in
  let! seed := load_config_seed (cli_seed cli) file in
  let! token := load_config_token (cli_token cli) file in
  let! peers := load_config_peers (cli_peer cli) file in
  let listen_ws := opt_or (cli_listen_ws cli) (fc_listen_ws file) in
  let listen_unix := opt_or (cli_listen_unix cli) (fc_listen_unix file) in
  let flags := list_or (cli_transport cli) (fc_transports file) in
  let pkarr_network := default PkarrNetworkArg_Relays (opt_or (cli_pkarr_network cli) (fc_pkarr_network file)) in
  let pkarr_relays := list_or (cli_pkarr_relay cli) (fc_pkarr_relays file) in
  let pkarr_bootstrap := list_or (cli_pkarr_bootstrap cli) (fc_pkarr_bootstrap file) in
  let! _ := guard_err (match listen_ws, listen_unix with None, None => true | _, _ => false end)
              [lit "at least one listener is required"] in
  let! _ := validate_transport_flags ft flags in
  let transports := enabled_transports ft flags in
  let! _ := if bool_decide (lit "pkarr" ∈ transports) then validate_pkarr_network ft pkarr_network else Ok tt in
  let! _ := guard_err (negb (ft_unix ft) && bool_decide (is_Some listen_unix))
              [lit "unix socket listener requires unix-socket feature on unix platforms"] in
  let! _ := match listen_ws, token with
            | Some addr, None =>
                if is_loopback addr then Err [lit "websocket listener requires --token"]
                else Err [lit "non-loopback WebSocket listener requires --token"]
            | _, _ => Ok tt
            end in
  Ok (MkAgentConfig seed token listen_ws listen_unix peers transports (opt_or (cli_relay cli) (fc_relay file))
        pkarr_network pkarr_relays pkarr_bootstrap (opt_or (cli_data_dir cli) (fc_data_dir file))
        (default (lit "info") (opt_or (cli_log cli) (fc_log file)))).

(** ** Identity *)

Definition derive_identity (seed : bytes) : result PeerIdentity anyhow :=
  let salt := Some (lit "enlace-agent/v1/identity") in
  let! s := ok_or (hkdf_expand salt seed (lit "signing") 32) [lit "failed to derive signing key"] in
  let! x := ok_or (hkdf_expand salt seed (lit "exchange") 32) [lit "failed to derive exchange key"] in
  Ok (PeerIdentity_from_parts (sk_from_bytes s) (secret_from_bytes x) None).

(** ** The configuration of the namespace *)

Definition build_pkarr_config (c : AgentConfig) : PkarrConfig :=
  let network := match ag_pkarr_network c with
                 | PkarrNetworkArg_Relays => PkarrNetworkMode_Relays
                 | PkarrNetworkArg_Dht => PkarrNetworkMode_Dht
                 | PkarrNetworkArg_Both => PkarrNetworkMode_Both
                 end in
  let d := PkarrConfig_default in
  MkPkarrConfig network (match ag_pkarr_relays c with [] => resolvers d | rs => rs end) (ag_pkarr_bootstrap c)
    (request_timeout d) (republish_interval d).

Context {S T : Type}.

(** The text of the URL parser's own error is not kept. *)
Definition configure_transports (c : AgentConfig) (p : PeerConfig (S:=S) (T:=T))
    : result (PeerConfig (S:=S) (T:=T)) anyhow :=
  let! http :=
    if ft_http ft && bool_decide (lit "http" ∈ ag_transports c) then
      match ag_relay c with
      | Some relay =>
          let! u := ok_or (url_parse relay) [lit "relay URL is invalid"] in Ok (Some (HttpConfig_new u))
      | None => Ok (pc_http p)
      end
    else Ok (pc_http p) in
  let pkarr := if ft_pkarr ft && bool_decide (lit "pkarr" ∈ ag_transports c)
               then Some (build_pkarr_config c) else pc_pkarr p in
  let iroh := if ft_iroh ft && bool_decide (lit "iroh" ∈ ag_transports c)
              then Some IrohConfig_default else pc_iroh p in
  Ok (MkPeerConfig (pc_state p) (pc_trusted_peers p) (pc_group_keys p) http pkarr iroh (pc_transports p)).
End AgentConfig.
Arguments MkAgentConfig {PR UL} _ _ _ _ _ _ _ _ _ _ _ _.

(** ** Lemmas *)

Lemma lower_hex_digit n : (n < 16)%N → lower_hex (hex_digit n) = true.
Proof.
  intros Hn. unfold lower_hex, in_range. rewrite to_N_hex_digit by done.
  destruct (N.ltb_spec n 10); rewrite orb_true_iff, !andb_true_iff, !N.leb_le; lia.
Qed.

Lemma lower_hex_bytes l : forallb lower_hex (hex_bytes l) = true.
Proof.
  induction l as [|b l IH]; [done |]. unfold hex_bytes. cbn [map concat hex_byte app forallb].
  destruct (nibbles_lt b). fold (hex_bytes l). by rewrite !lower_hex_digit, IH.
Qed.

Lemma from_str_radix_hex_byte b : from_str_radix 16 255 (hex_byte b) = Some (Byte.to_N b).
Proof.
  pose proof (to_N_lt_256 b). pose proof (foldl_radix_hex 255 [b] 0) as Hr. unfold from_be_bytes in Hr.
  cbn [foldl length N.of_nat] in Hr. specialize (Hr ltac:(lia)).
  unfold from_str_radix, hex_byte. rewrite decide_False.
  - unfold hex_bytes in Hr. cbn [map concat app hex_byte] in Hr. rewrite Hr. f_equal.
  - intros Hx. pose proof (nibbles_lt b) as [Hn _]. apply (f_equal lower_hex) in Hx.
    by rewrite lower_hex_digit in Hx.
Qed.

Lemma decode_pairs_hex l : decode_pairs (hex_bytes l) = Some l.
Proof.
  induction l as [|b l IH]; [done |]. unfold hex_bytes. cbn [map concat hex_byte app decode_pairs].
  fold (hex_byte b) (hex_bytes l). rewrite from_str_radix_hex_byte, IH. by rewrite byte_of_N_to_N.
Qed.

Lemma parse_hex32_hex what l : length l = 32 → parse_hex32 what (hex_bytes l) = Ok l.
Proof.
  intros Hl. unfold parse_hex32. rewrite length_hex_bytes, Hl, lower_hex_bytes. cbn [Nat.mul Nat.eqb negb guard_err rbind].
  by rewrite decode_pairs_hex.
Qed.

(** Printing and parsing a peer id. *)
Lemma parse_peer_id_display p : length (PeerId_to_bytes p) = 32 → parse_peer_id (PeerId_display p) = Ok p.
Proof.
  intros Hl. unfold parse_peer_id, PeerId_display. rewrite (parse_hex32_hex _ _ Hl). by destruct p.
Qed.

Lemma parse_hex_seed_hex seed :
  length seed = 32 → forallb (λ b, bool_decide (b = x00)) seed = false → parse_hex_seed (hex_bytes seed) = Ok seed.
Proof.
  intros Hl Hz. unfold parse_hex_seed. rewrite (parse_hex32_hex _ _ Hl). cbn [rbind]. by rewrite Hz.
Qed.
