(* ===== verification/Agent.v ===== *)
(** * enlace-agent: requests, connections and subscriptions

    The agent serves a peer namespace to local clients over a WebSocket and a
    Unix socket.  [handle_text] answers one request; a connection runs the
    requests of its client one by one and writes, between them, the messages
    its subscriptions put into a bounded queue.  JSON is third-party: class
    [AgentJson] turns a text into the request as it is written, and a
    response is the value that is serialized.  The answers of the transports
    to one request are the record [agent_env].

    A connection is a transition system: an event names the part that moves
    (the client, the writer, a subscription, another connection that changed
    the namespace), so a schedule of the runtime is a sequence of events. *)

From S2P Require Import Prelude Bytes Crypto Kdf Net Guard Errors Dedup Config Health PeerCard Msgpack State PeerEnvelope GroupEnvelope Coordinator Iroh Namespace PeerNamespace PeerChannels AgentConfig.

Definition DEFAULT_CHANNEL : bytes := lit "default".
Definition SESSION_BUFFER : nat := 64.

(** The STANDARD base64 engine, next to the URL-safe one of the cards. *)
Class StandardBase64 := { std_engine : Base64 }.

(** ** Requests and responses *)

Inductive AgentRequest : Type :=
| AgentRequest_Send (id to channel payload : bytes)
| AgentRequest_Subscribe (id channel : bytes)
| AgentRequest_PutSlot (id channel payload : bytes)
| AgentRequest_GetSlot (id channel : bytes)
| AgentRequest_ListPeers (id : bytes)
| AgentRequest_AddPeer (id card : bytes)
| AgentRequest_RemovePeer (id peer_id : bytes)
| AgentRequest_ExportCard (id : bytes)
| AgentRequest_Health (id : option bytes).

(** A request as it is written: the channel may be left out. *)
Inductive RawRequest : Type :=
| RawSend (id to : bytes) (channel : option bytes) (payload : bytes)
| RawSubscribe (id : bytes) (channel : option bytes)
| RawPutSlot (id : bytes) (channel : option bytes) (payload : bytes)
| RawGetSlot (id : bytes) (channel : option bytes)
| RawListPeers (id : bytes)
| RawAddPeer (id card : bytes)
| RawRemovePeer (id peer_id : bytes)
| RawExportCard (id : bytes)
| RawHealth (id : option bytes).

(** [#[serde(default = "default_channel")]]. *)
Definition default_channel (c : option bytes) : bytes := default DEFAULT_CHANNEL c.

Definition request_of (r : RawRequest) : AgentRequest :=
  match r with
  | RawSend id to channel payload => AgentRequest_Send id to (default_channel channel) payload
  | RawSubscribe id channel => AgentRequest_Subscribe id (default_channel channel)
  | RawPutSlot id channel payload => AgentRequest_PutSlot id (default_channel channel) payload
  | RawGetSlot id channel => AgentRequest_GetSlot id (default_channel channel)
  | RawListPeers id => AgentRequest_ListPeers id
  | RawAddPeer id card => AgentRequest_AddPeer id card
  | RawRemovePeer id peer_id => AgentRequest_RemovePeer id peer_id
  | RawExportCard id => AgentRequest_ExportCard id
  | RawHealth id => AgentRequest_Health id
  end.

Class AgentJson := { parse_request : bytes → option RawRequest }.

Inductive ErrorCode : Type := ErrorCode_InvalidRequest | ErrorCode_TransportFailed.

Definition ErrorCode_display (c : ErrorCode) : bytes :=
  match c with
  | ErrorCode_InvalidRequest => lit "invalid request"
  | ErrorCode_TransportFailed => lit "transport failed"
  end.

Record HealthResponse : Type := MkHealthResponse {
  hr_id : option bytes;
  hr_status : bytes;
  hr_peer_id : bytes;
  hr_transports : list bytes;
  hr_relay : option bytes;
  hr_data_dir : option bytes;
  hr_log : bytes
}.

Record MessageResponse : Type := MkMessageResponse {
  mr_from : bytes;
  mr_channel : bytes;
  mr_payload : bytes;
  mr_received_at : N
}.

Record PeerResponse : Type := MkPeerResponse { pr_peer_id : bytes; pr_card : bytes }.

Record SlotValueResponse : Type := MkSlotValueResponse {
  sv_from : bytes;
  sv_version : N;
  sv_payload : bytes;
  sv_via : bytes
}.

Inductive AgentResponse : Type :=
| AgentResponse_Ok (id : bytes)
| AgentResponse_Health (r : HealthResponse)
| AgentResponse_Message (r : MessageResponse)
| AgentResponse_Peers (id : bytes) (peers : list PeerResponse)
| AgentResponse_PeerCard (id peer_id card : bytes)
| AgentResponse_Slot (id channel : bytes) (value : option SlotValueResponse)
| AgentResponse_Error (id : option bytes) (code : ErrorCode) (message : bytes).

Definition AgentResponse_error (id : option bytes) (code : ErrorCode) : AgentResponse :=
  AgentResponse_Error id code (ErrorCode_display code).

Definition invalid (id : bytes) : AgentResponse := AgentResponse_error (Some id) ErrorCode_InvalidRequest.
Definition transport_failed (id : bytes) : AgentResponse := AgentResponse_error (Some id) ErrorCode_TransportFailed.

Definition invalid_name (value : bytes) : bool :=
  match validate_channel_name value with Ok _ => false | _ => true end.

(** ** What a frame makes the loop of a connection do *)

Inductive conn_input : Type :=
| InText (text : bytes)
| InReject
| InSkip
| InStop.

Inductive ws_frame : Type := WsText (text : bytes) | WsBinary | WsPing | WsPong | WsClose | WsError | WsEnd.

Definition ws_input (f : ws_frame) : conn_input :=
  match f with
  | WsText text => InText text
  | WsClose | WsError | WsEnd => InStop
  | WsPing | WsPong => InSkip
  | WsBinary => InReject
  end.

(** [lines.next_line()]: a line, the end or an error. *)
Definition unix_input (line : result (option bytes) bytes) : conn_input :=
  match line with Ok (Some line) => InText line | _ => InStop end.

Section Agent.
Context `{PR : Primitives} `{UL : UrlLib} `{IL : IrohLib} {LC : LruCache bytes} {B64 : Base64}.
Context {STD : StandardBase64} {AJ : AgentJson}.
Context {MPE : Msgpack PeerEnvelopeWire} {MPG : Msgpack GroupEnvelopeWire} {MPS : Msgpack PeerSlotInner}.
Context {S : Type} {ST : StateStore S} {T : Type}.
Notation PeerNamespace := (PeerNamespace (S:=S) (T:=T)).

Definition payload_bytes (value : bytes) : option bytes := b64_decode (Base64:=std_engine) value.
Definition encode_payload (value : bytes) : bytes := b64_encode (Base64:=std_engine) value.

Record AgentState : Type := MkAgentState { as_config : AgentConfig; as_namespace : PeerNamespace }.

Definition with_namespace (n : PeerNamespace) (s : AgentState) : AgentState := MkAgentState (as_config s) n.

(** ** Opening *)

(** [open_state] is [State::file] on the data directory or [State::memory],
    with the text of the error. *)
Definition open_namespace (ft : features) (open_state : option bytes → result S bytes) (b : PeerBuilders (T:=T))
    (c : AgentConfig) : result PeerNamespace anyhow :=
  let! st := context (lit "failed to open agent state at " ++ default [] (ag_data_dir c)) (wrap (open_state (ag_data_dir c))) in
  let! trusted := context (lit "invalid peer card")
                    (wrap (map_err PeerCardError_display (map_result TrustedPeer_try_from_card (ag_peers c)))) in
  let! config := configure_transports ft c (MkPeerConfig st trusted [] None None None []) in
  let! identity := derive_identity (ag_seed c) in
  context (lit "failed to open peer namespace")
    (wrap (map_err OpenError_display (PeerNamespace_open b identity config).1)).

Definition AgentState_open (ft : features) (open_state : option bytes → result S bytes) (b : PeerBuilders (T:=T))
    (c : AgentConfig) : result AgentState anyhow :=
  let! n := open_namespace ft open_state b c in Ok (MkAgentState c n).

(** ** Authorization *)

Definition UNAUTHORIZED : N := 401.

(** The text of the header [Authorization], when present and visible ASCII. *)
Definition bearer_token (authorization : option bytes) : option bytes :=
  authorization ≫= strip_prefix (lit "Bearer ").

Definition authorize (s : AgentState) (authorization : option bytes) : result unit (N * bytes) :=
  match ag_token (as_config s) with
  | None => Ok tt
  | Some expected =>
      match bearer_token authorization with
      | None => Err (UNAUTHORIZED, lit "unauthorized")
      | Some actual => if slice_ct_eq actual expected then Ok tt else Err (UNAUTHORIZED, lit "unauthorized")
      end
  end.

(** [require_bearer_token] around a handler of [ws_router]. *)
Definition require_bearer_token {R} (s : AgentState) (authorization : option bytes) (next : R) : result R (N * bytes) :=
  let! _ := authorize s authorization in Ok next.

(** ** Listeners *)

Inductive listener : Type := ListenWs (addr : SocketAddr) | ListenUnix (path : bytes).

(** The listeners [run_until] starts. *)
Definition run_until (ft : features) (s : AgentState) : result (list listener) anyhow :=
  let needs_unix := [lit "unix socket listener requires unix-socket feature on unix platforms"] in
  match ag_listen_ws (as_config s), ag_listen_unix (as_config s) with
  | Some addr, Some path => if ft_unix ft then Ok [ListenWs addr; ListenUnix path] else Err needs_unix
  | Some addr, None => Ok [ListenWs addr]
  | None, Some path => if ft_unix ft then Ok [ListenUnix path] else Err needs_unix
  | None, None => Ok []
  end.

(** [wait_for_shutdown]: the value of the channel, then its changes, where
    [None] is the end of the channel; it returns or is still waiting. *)
Fixpoint wait_for_shutdown (value : bool) (changes : list (option bool)) : option unit :=
  if value then Some tt
  else
    match changes with
    | [] => None
    | Some value :: changes => wait_for_shutdown value changes
    | None :: _ => Some tt
    end.

(** ** Handlers *)

(** What the transports and the clock answer during one request; [ae_addr]
    is the address of the iroh endpoint, [ae_view i] the namespace when the
    [i]-th answer of a get is opened. *)
Record agent_env : Type := MkAgentEnv {
  ae_nonces : nat → bytes;
  ae_send : list (peer_task (T:=T)) → bytes → list (TransportKind * result unit TransportError);
  ae_put : list (peer_task (T:=T)) → N → bytes → list (TransportKind * result unit TransportError);
  ae_get : list (peer_task (T:=T)) → list (TransportKind * result (option (N * bytes)) TransportError);
  ae_view : nat → PeerNamespace;
  ae_addr : EndpointAddr
}.

(** A handler answers or panics. *)
Notation answer := (result AgentResponse Empty_set).

Definition health (s : AgentState) (id : option bytes) : HealthResponse :=
  let c := as_config s in
  MkHealthResponse id (lit "ok") (PeerId_display (PeerIdentity_peer_id (pn_identity (as_namespace s))))
    (ag_transports c) (ag_relay c) (ag_data_dir c) (ag_log c).

Definition iroh_endpoint_addr (e : agent_env) (n : PeerNamespace) : option IrohEndpointAddr :=
  (λ _, endpoint_addr_to_config (ae_addr e)) <$> pn_iroh n.

Definition export_card (e : agent_env) (s : AgentState) : result bytes Empty_set :=
  let n := as_namespace s in
  let c := PeerIdentity_card (pn_identity n) in
  export_string (match iroh_endpoint_addr e n with
                 | Some endpoint => MkPeerCard (peer_id c) (signing_key c) (exchange_key c) (Some endpoint)
                 | None => c
                 end).

Definition list_peers (s : AgentState) : result (list PeerResponse) Empty_set :=
  map_result (λ c, let! text := export_string c in Ok (MkPeerResponse (PeerId_display (peer_id c)) text))
    (trusted_cards (as_namespace s)).

Definition add_peer (card_text : bytes) (s : AgentState) : result PeerCard anyhow * AgentState :=
  match let! c := context (lit "invalid peer card") (wrap (map_err PeerCardError_display (import_string (trim card_text)))) in
        let! t := context (lit "invalid peer card") (wrap (map_err PeerCardError_display (TrustedPeer_try_from_card c))) in
        Ok (c, t) with
  | Ok (c, t) =>
      let '(r, n) := trust_peer t (as_namespace s) in
      (let! _ := context (lit "failed to trust peer") (wrap (map_err TrustError_display r)) in Ok c, with_namespace n s)
  | Err e => (Err e, s)
  | Panic => (Panic, s)
  end.

Definition find_peer (peer : bytes) (s : AgentState) : option PeerCard :=
  match parse_peer_id peer with
  | Ok id => find_first (λ c, bool_decide (peer_id c = id)) (trusted_cards (as_namespace s))
  | _ => None
  end.

Definition handle_add_peer (id card_text : bytes) (s : AgentState) : answer * AgentState :=
  match add_peer card_text s with
  | (Ok c, s) => (let! text := export_string c in Ok (AgentResponse_PeerCard id (PeerId_display (peer_id c)) text), s)
  | (Err _, s) => (Ok (invalid id), s)
  | (Panic, s) => (Panic, s)
  end.

Definition handle_remove_peer (id peer : bytes) (s : AgentState) : answer * AgentState :=
  match parse_peer_id peer with
  | Ok peer =>
      let '(r, n) := remove_trusted_peer_live peer (as_namespace s) in
      (match r with Ok _ => Ok (AgentResponse_Ok id) | Err _ => Ok (invalid id) | Panic => Panic end, with_namespace n s)
  | Err _ => (Ok (invalid id), s)
  | Panic => (Panic, s)
  end.

Definition handle_send (e : agent_env) (id to channel payload : bytes) (s : AgentState) : answer :=
  match payload_bytes payload with
  | None => Ok (invalid id)
  | Some payload =>
      if invalid_name to || invalid_name channel then Ok (invalid id)
      else
        match find_peer to s with
        | None => Ok (invalid id)
        | Some peer =>
            match PeerNamespace_mailbox channel with
            | Ok mailbox =>
                match send_to_peers (ae_nonces e) (ae_send e) channel [peer] payload (as_namespace s) with
                | Ok _ => Ok (AgentResponse_Ok id)
                | Err _ => Ok (transport_failed id)
                | Panic => Panic
                end
            | Err _ => Ok (invalid id)
            | Panic => Panic
            end
        end
  end.

Definition slot_value_response (v : PeerSlotValue) : SlotValueResponse :=
  MkSlotValueResponse (PeerId_display (psv_sender v)) (psv_version v) (encode_payload (psv_payload v))
    (TransportKind_display (psv_via v)).

Definition handle_get_slot (e : agent_env) (id channel : bytes) (s : AgentState) : answer :=
  if invalid_name channel then Ok (invalid id)
  else
    match PeerNamespace_slot channel with
    | Ok slot =>
        match get_pairwise (ae_view e) (ae_get e) channel (as_namespace s) with
        | Ok value => Ok (AgentResponse_Slot id channel (slot_value_response <$> value))
        | Err _ => Ok (transport_failed id)
        | Panic => Panic
        end
    | Err _ => Ok (invalid id)
    | Panic => Panic
    end.

Definition handle_put_slot (e : agent_env) (id channel payload : bytes) (s : AgentState) : answer * AgentState :=
  match payload_bytes payload with
  | None => (Ok (invalid id), s)
  | Some payload =>
      let recipients := trusted_cards (as_namespace s) in
      if invalid_name channel || (match recipients with [] => true | _ => false end) then (Ok (invalid id), s)
      else
        match PeerNamespace_slot channel with
        | Ok slot =>
            let '(r, n) := put_for_peers (ae_nonces e) (ae_put e) channel recipients payload (as_namespace s) in
            (match r with Ok _ => Ok (AgentResponse_Ok id) | Err _ => Ok (transport_failed id) | Panic => Panic end,
             with_namespace n s)
        | Err _ => (Ok (invalid id), s)
        | Panic => (Panic, s)
        end
  end.

(** The answer, the channel of a subscription to spawn and the state. *)
Definition handle_text (e : agent_env) (text : bytes) (s : AgentState) : answer * option bytes * AgentState :=
  match request_of <$> parse_request text with
  | None => (Ok (AgentResponse_error None ErrorCode_InvalidRequest), None, s)
  | Some (AgentRequest_Health id) => (Ok (AgentResponse_Health (health s id)), None, s)
  | Some (AgentRequest_ExportCard id) =>
      (let! text := export_card e s in
       Ok (AgentResponse_PeerCard id (PeerId_display (PeerIdentity_peer_id (pn_identity (as_namespace s)))) text), None, s)
  | Some (AgentRequest_ListPeers id) => (let! ps := list_peers s in Ok (AgentResponse_Peers id ps), None, s)
  | Some (AgentRequest_AddPeer id card_text) =>
      let '(r, s) := handle_add_peer id card_text s in (r, None, s)
  | Some (AgentRequest_RemovePeer id peer) =>
      let '(r, s) := handle_remove_peer id peer s in (r, None, s)
  | Some (AgentRequest_Send id to channel payload) => (handle_send e id to channel payload s, None, s)
  | Some (AgentRequest_Subscribe id channel) =>
      if invalid_name channel then (Ok (invalid id), None, s)
      else (Ok (AgentResponse_Ok id), Some channel, s)
  | Some (AgentRequest_GetSlot id channel) => (handle_get_slot e id channel s, None, s)
  | Some (AgentRequest_PutSlot id channel payload) =>
      let '(r, s) := handle_put_slot e id channel payload s in (r, None, s)
  end.

(** ** The WebSocket router *)

(** The answer to a GET, which on the first route carries the headers of a
    WebSocket upgrade: the start of a connection, a body or a status. *)
Inductive ws_reply : Type :=
| WsUpgrade
| WsBody (r : AgentResponse)
| WsStatus (status : N).

Definition NOT_FOUND : N := 404.

(** The layer guards the two routes; other paths are not found. *)
Definition ws_router (s : AgentState) (path : bytes) (authorization : option bytes) : ws_reply :=
  let guarded reply :=
    match require_bearer_token s authorization reply with
    | Ok reply => reply
    | Err (status, _) => WsStatus status
    | Panic => WsStatus UNAUTHORIZED
    end in
  if decide (path = lit "/") then guarded WsUpgrade
  else if decide (path = lit "/health") then guarded (WsBody (AgentResponse_Health (health s None)))
  else WsStatus NOT_FOUND.

(** ** Connections *)

(** [unix_time_secs] at the moment [now], in seconds. *)
Definition message_response (channel : bytes) (now : N) (m : PeerMailboxMessage) : AgentResponse :=
  AgentResponse_Message
    (MkMessageResponse (PeerId_display (pmm_sender m)) channel (encode_payload (pmm_payload m)) now).

Inductive sub_pc : Type :=
| SubRecv                                   (** [mailbox.recv().await] *)
| SubSend (r : AgentResponse)               (** [session.send(response).await] *)
| SubEnded.

(** [sb_received] records what [recv] has returned. *)
Record subscription : Type := MkSubscription {
  sb_channel : bytes;
  sb_pc : sub_pc;
  sb_received : list AgentResponse
}.

(** The queue holds responses with the subscription they come from.  The
    last two fields record history: what was written to the client (a
    reply, or a message of a subscription) and the replies computed. *)
Record connection : Type := MkConnection {
  cn_open : bool;
  cn_state : AgentState;
  cn_queue : list (nat * AgentResponse);
  cn_subs : list subscription;
  cn_written : list (option nat * AgentResponse);
  cn_replies : list AgentResponse
}.

Definition connection_new (s : AgentState) : connection := MkConnection true s [] [] [] [].

(** The loop ends: the receiving end of the queue is dropped. *)
Definition conn_close (c : connection) : connection :=
  MkConnection false (cn_state c) [] (cn_subs c) (cn_written c) (cn_replies c).

Definition set_sub (i : nat) (b : subscription) (c : connection) : connection :=
  MkConnection (cn_open c) (cn_state c) (cn_queue c) (<[i := b]> (cn_subs c)) (cn_written c) (cn_replies c).

(** Writes a reply; a failed write ends the loop. *)
Definition conn_reply (r : AgentResponse) (sent : bool) (c : connection) : connection :=
  let c := MkConnection (cn_open c) (cn_state c) (cn_queue c) (cn_subs c)
             (if sent then cn_written c ++ [(None, r)] else cn_written c) (cn_replies c ++ [r]) in
  if sent then c else conn_close c.

Definition conn_input_step (x : conn_input) (e : agent_env) (sent : bool) (c : connection) : connection :=
  match x with
  | InStop => conn_close c
  | InSkip => c
  | InReject => conn_reply (AgentResponse_error None ErrorCode_InvalidRequest) sent c
  | InText text =>
      let '(r, sub, s) := handle_text e text (cn_state c) in
      let subs := match sub with
                  | Some channel => cn_subs c ++ [MkSubscription channel SubRecv []]
                  | None => cn_subs c
                  end in
      let c := MkConnection (cn_open c) s (cn_queue c) subs (cn_written c) (cn_replies c) in
      match r with
      | Ok r => conn_reply r sent c
      | _ => conn_close c
      end
  end.

Inductive conn_event : Type :=
| CnInput (x : conn_input) (e : agent_env) (sent : bool)
| CnOutbound (sent : bool)
| CnMessage (i : nat) (m : option PeerMailboxMessage) (now : N)
| CnEnqueue (i : nat)
| CnNamespace (n : PeerNamespace).

Definition conn_step (ev : conn_event) (c : connection) : option connection :=
  match ev with
  | CnInput x e sent => if cn_open c then Some (conn_input_step x e sent c) else None
  | CnOutbound sent =>
      match cn_open c, cn_queue c with
      | true, (i, r) :: q =>
          Some (if sent then MkConnection true (cn_state c) q (cn_subs c) (cn_written c ++ [(Some i, r)]) (cn_replies c)
                else conn_close c)
      | _, _ => None
      end
  | CnMessage i m now =>
      match cn_subs c !! i with
      | Some (MkSubscription channel SubRecv received) =>
          Some (match m with
                | Some m =>
                    let r := message_response channel now m in
                    set_sub i (MkSubscription channel (SubSend r) (received ++ [r])) c
                | None => set_sub i (MkSubscription channel SubEnded received) c
                end)
      | _ => None
      end
  | CnEnqueue i =>
      match cn_subs c !! i with
      | Some (MkSubscription channel (SubSend r) received) =>
          if cn_open c then
            if length (cn_queue c) <? SESSION_BUFFER then
              Some (set_sub i (MkSubscription channel SubRecv received)
                      (MkConnection true (cn_state c) (cn_queue c ++ [(i, r)]) (cn_subs c) (cn_written c) (cn_replies c)))
            else None
          else Some (set_sub i (MkSubscription channel SubEnded received) c)
      | _ => None
      end
  | CnNamespace n =>
      Some (MkConnection (cn_open c) (with_namespace n (cn_state c)) (cn_queue c) (cn_subs c) (cn_written c) (cn_replies c))
  end.

Fixpoint conn_run (evs : list conn_event) (c : connection) : option connection :=
  match evs with
  | [] => Some c
  | ev :: evs => match conn_step ev c with Some c => conn_run evs c | None => None end
  end.
End Agent.

(** ** Lemmas: the trust table behind the requests *)

Section Lemmas.
Context `{PR : Primitives} `{PL : !PrimitivesLaws} `{UL : UrlLib} `{IL : IrohLib} {LC : LruCache bytes} {B64 : Base64}.
Context {STD : StandardBase64} {AJ : AgentJson}.
Context {MPE : Msgpack PeerEnvelopeWire} {MPEL : MsgpackLaws PeerEnvelopeWire}.
Context {MPG : Msgpack GroupEnvelopeWire} {MPGL : MsgpackLaws GroupEnvelopeWire}.
Context {MPS : Msgpack PeerSlotInner}.
Context {S : Type} {ST : StateStore S} {T : Type}.
Notation PeerNamespace := (PeerNamespace (S:=S) (T:=T)).
Notation AgentState := (AgentState (S:=S) (T:=T)).
Notation agent_env := (agent_env (S:=S) (T:=T)).
Notation connection := (connection (S:=S) (T:=T)).
Notation conn_event := (conn_event (S:=S) (T:=T)).

(** Every entry of the trust table is stored under the id of its card. *)
Definition table_keyed (m : gmap PeerId TrustedPeer) : Prop := map_Forall (λ p t, TrustedPeer_peer_id t = p) m.

Lemma elem_of_trusted_cards c (n : PeerNamespace) :
  c ∈ trusted_cards n ↔ ∃ p t, pn_trusted_peers n !! p = Some t ∧ c = card t.
Proof.
  unfold trusted_cards, sort_by. rewrite merge_sort_Permutation, list_elem_of_fmap. split.
  - intros ([p t] & -> & Hin%elem_of_map_to_list). by exists p, t.
  - intros (p & t & Hm & ->). exists (p, t). split; [done | by apply elem_of_map_to_list].
Qed.

(** [find_peer] is a lookup in the trust table. *)
Lemma find_peer_lookup p (s : AgentState) :
  table_keyed (pn_trusted_peers (as_namespace s)) → length (PeerId_to_bytes p) = 32 →
  find_peer (PeerId_display p) s = card <$> pn_trusted_peers (as_namespace s) !! p.
Proof.
  intros Hk Hl. unfold find_peer. rewrite (parse_peer_id_display _ Hl).
  destruct (pn_trusted_peers (as_namespace s) !! p) as [t|] eqn:Hp; cbn [fmap option_fmap option_map].
  - apply find_first_unique.
    + apply elem_of_trusted_cards. by exists p, t.
    + apply bool_decide_eq_true. exact (Hk _ _ Hp).
    + intros c (q & u & Hq & ->)%elem_of_trusted_cards Hc%bool_decide_eq_true.
      pose proof (Hk _ _ Hq) as Hqu. unfold TrustedPeer_peer_id in Hqu. rewrite Hc in Hqu. subst q. congruence.
  - apply find_first_None. intros c (q & u & Hq & ->)%elem_of_trusted_cards. apply bool_decide_eq_false.
    intros Hc. pose proof (Hk _ _ Hq) as Hqu. unfold TrustedPeer_peer_id in Hqu. rewrite Hc in Hqu. congruence.
Qed.

Lemma add_peer_Ok text (s s' : AgentState) c :
  add_peer text s = (Ok c, s') →
  import_string (trim text) = Ok c ∧ PeerCard_validate c = Ok tt ∧ as_config s' = as_config s
  ∧ pn_trusted_peers (as_namespace s') = <[peer_id c := TrustedPeer_new c]> (pn_trusted_peers (as_namespace s))
  ∧ pn_identity (as_namespace s') = pn_identity (as_namespace s)
  ∧ pn_transports (as_namespace s') = pn_transports (as_namespace s).
Proof.
  unfold add_peer. destruct (import_string (trim text)) as [c'|e|] eqn:Hi; cbn; [| done..].
  unfold TrustedPeer_try_from_card. destruct (PeerCard_validate c') as [[]|e|] eqn:Hv; cbn; [| done..].
  unfold trust_peer. cbn [card]. rewrite Hv.
  destruct (store_trusted_peer (TrustedPeer_new c') (pn_state (as_namespace s))) as [[[]|e|] st] eqn:Hst; cbn; [| done..].
  intros [= <- <-]. by rewrite Hv.
Qed.

Lemma remove_peer_Ok p (n n' : PeerNamespace) :
  remove_trusted_peer_live p n = (Ok tt, n') → pn_trusted_peers n' = delete p (pn_trusted_peers n).
Proof.
  unfold remove_trusted_peer_live. destruct (remove_trusted_peer p (pn_state n)) as [[[]|e|] st]; cbn; [| done..].
  by intros [= <-].
Qed.

Lemma validated_id_length c : PeerCard_validate c = Ok tt → length (PeerId_to_bytes (peer_id c)) = 32.
Proof.
  unfold PeerCard_validate, is_consistent. destruct (bool_decide_reflect (peer_id c = PeerId_from_signing_key (signing_key c)))
    as [->|]; [| done]. intros _. apply PeerId_from_signing_key_length.
Qed.

Lemma table_keyed_insert m c : table_keyed m → table_keyed (<[peer_id c := TrustedPeer_new c]> m).
Proof. intros Hm. by apply map_Forall_insert_2. Qed.

Lemma table_keyed_delete m p : table_keyed m → table_keyed (delete p m).
Proof. apply map_Forall_delete. Qed.

(** The table of a freshly opened agent is keyed. *)
Lemma insert_trusted_keyed l m m' : table_keyed m → insert_trusted l m = Ok m' → table_keyed m'.
Proof.
  revert m. induction l as [|t l IH]; intros m Hm; cbn [insert_trusted]; [by intros [= <-] |].
  intros ([] & _ & Hl)%rbind_Ok. apply (IH _ ltac:(by apply map_Forall_insert_2) Hl).
Qed.

(** ** Lemmas: connections *)

Definition queued_by (i : nat) (q : list (nat * AgentResponse)) : list AgentResponse :=
  filter_map (λ x : nat * AgentResponse, if decide (x.1 = i) then Some x.2 else None) q.

Definition written_by (i : nat) (w : list (option nat * AgentResponse)) : list AgentResponse :=
  filter_map (λ x : option nat * AgentResponse, if decide (x.1 = Some i) then Some x.2 else None) w.

Definition written_replies (w : list (option nat * AgentResponse)) : list AgentResponse :=
  filter_map (λ x : option nat * AgentResponse, if decide (x.1 = None) then Some x.2 else None) w.

Definition held (b : subscription) : list AgentResponse :=
  match sb_pc b with SubSend r => [r] | _ => [] end.

Record conn_inv (c : connection) : Prop := {
  ci_bound : length (cn_queue c) ≤ SESSION_BUFFER;
  ci_tags : ∀ i r, (i, r) ∈ cn_queue c ∨ (Some i, r) ∈ cn_written c → i < length (cn_subs c);
  ci_prefix : ∀ i b, cn_subs c !! i = Some b → written_by i (cn_written c) `prefix_of` sb_received b;
  ci_flow : cn_open c = true → ∀ i b, cn_subs c !! i = Some b →
    written_by i (cn_written c) ++ queued_by i (cn_queue c) ++ held b = sb_received b;
  ci_replies : written_replies (cn_written c) `prefix_of` cn_replies c;
  ci_replied : cn_open c = true → written_replies (cn_written c) = cn_replies c
}.

Ltac cn_cbn :=
  cbn [connection_new conn_close set_sub cn_open cn_state cn_queue cn_subs cn_written cn_replies].

Lemma conn_inv_new s : conn_inv (connection_new s).
Proof.
  split; cn_cbn; try done; [cbn; lia |]. intros i r [H|H]; by apply not_elem_of_nil in H.
Qed.

Lemma conn_inv_close c : conn_inv c → conn_inv (conn_close c).
Proof.
  intros []. split; cn_cbn; try done; [cbn; lia |]. intros i r [H|H]; [by apply not_elem_of_nil in H |].
  apply (ci_tags0 i r). by right.
Qed.

Lemma conn_inv_reply r sent c : cn_open c = true → conn_inv c → conn_inv (conn_reply r sent c).
Proof.
  intros Ho []. unfold conn_reply. destruct sent.
  - split; cn_cbn; try done.
    + intros i r' [H|[H|H%list_elem_of_singleton]%elem_of_app]; [apply (ci_tags0 i r'); by left | apply (ci_tags0 i r'); by right | done].
    + intros i b Hb. unfold written_by. rewrite filter_map_app. cbn [filter_map fst]. rewrite decide_False by done.
      rewrite app_nil_r. by apply ci_prefix0.
    + intros _ i b Hb. unfold written_by. rewrite filter_map_app. cbn [filter_map fst]. rewrite decide_False by done.
      rewrite app_nil_r. by apply ci_flow0.
    + unfold written_replies. rewrite filter_map_app. cbn [filter_map fst snd]. rewrite decide_True by done.
      fold (written_replies (cn_written c)). by rewrite ci_replied0.
    + intros _. unfold written_replies. rewrite filter_map_app. cbn [filter_map fst snd]. rewrite decide_True by done.
      fold (written_replies (cn_written c)). by rewrite ci_replied0.
  - split; cn_cbn; try done; [cbn; lia | | ].
    + intros i r' [H|H]; [by apply not_elem_of_nil in H |]. apply (ci_tags0 i r'). by right.
    + by apply prefix_app_r.
Qed.

(** A subscription changes without changing what it holds and received. *)
Lemma conn_inv_set_sub i b b' c :
  conn_inv c → cn_subs c !! i = Some b → sb_received b `prefix_of` sb_received b' →
  (cn_open c = true → sb_received b' = sb_received b ++ held b' ∧ held b = []
                    ∨ sb_received b' = sb_received b ∧ held b' = held b) →
  conn_inv (set_sub i b' c).
Proof.
  intros [] Hb Hpre Hop. split; cn_cbn; try done.
  - intros j r H. rewrite length_insert. by eapply ci_tags0.
  - intros j x Hj. apply list_lookup_insert_Some in Hj as [(-> & <- & _)|[_ Hj]]; [| by apply ci_prefix0].
    etransitivity; [by apply ci_prefix0 | done].
  - intros Ho j x Hj. apply list_lookup_insert_Some in Hj as [(-> & <- & _)|[_ Hj]]; [| by apply ci_flow0].
    pose proof (ci_flow0 Ho _ _ Hb) as Hf. destruct (Hop Ho) as [[-> H0]|[-> ->]]; [| done].
    rewrite <- Hf, H0, app_nil_r. by rewrite <- !app_assoc.
Qed.

Lemma conn_inv_new_sub channel c :
  conn_inv c →
  conn_inv (MkConnection (cn_open c) (cn_state c) (cn_queue c) (cn_subs c ++ [MkSubscription channel SubRecv []])
              (cn_written c) (cn_replies c)).
Proof.
  intros []. assert (∀ i, length (cn_subs c) ≤ i → queued_by i (cn_queue c) = [] ∧ written_by i (cn_written c) = []) as Hfresh.
  { intros i Hi. split.
    - unfold queued_by. assert (∀ x, x ∈ cn_queue c → x.1 ≠ i) as Hx.
      { intros [j r] Hin E. cbn in E. subst j. specialize (ci_tags0 i r (or_introl Hin)). lia. }
      clear -Hx. induction (cn_queue c) as [|x q IH]; [done |]. cbn [filter_map].
      rewrite decide_False by (apply Hx, list_elem_of_here). apply IH. intros y Hy. by apply Hx, list_elem_of_further.
    - unfold written_by. assert (∀ x, x ∈ cn_written c → x.1 ≠ Some i) as Hx.
      { intros [o r] Hin E. cbn in E. subst o. specialize (ci_tags0 i r (or_intror Hin)). lia. }
      clear -Hx. induction (cn_written c) as [|x q IH]; [done |]. cbn [filter_map].
      rewrite decide_False by (apply Hx, list_elem_of_here). apply IH. intros y Hy. by apply Hx, list_elem_of_further. }
  split; cn_cbn; try done.
  - intros i r H. rewrite length_app. specialize (ci_tags0 i r H). lia.
  - intros i b [Hb|(Hge & Hb)]%lookup_app_Some; [by apply ci_prefix0 |].
    destruct (Hfresh i Hge) as [_ ->]. apply prefix_nil.
  - intros Ho i b [Hb|(Hge & Hb)]%lookup_app_Some; [by apply ci_flow0 |].
    destruct (Hfresh i Hge) as [-> ->]. apply list_lookup_singleton_Some in Hb as [_ <-]. done.
Qed.

Lemma conn_inv_state s c :
  conn_inv c → conn_inv (MkConnection (cn_open c) s (cn_queue c) (cn_subs c) (cn_written c) (cn_replies c)).
Proof. intros []. by split. Qed.

Lemma conn_inv_input x e sent c : cn_open c = true → conn_inv c → conn_inv (conn_input_step x e sent c).
Proof.
  intros Ho Hc. destruct x as [text| | |]; cbn [conn_input_step]; [| by apply conn_inv_reply | done | by apply conn_inv_close].
  destruct (handle_text e text (cn_state c)) as [[r sub] s].
  assert (conn_inv (MkConnection (cn_open c) s (cn_queue c)
            (match sub with Some channel => cn_subs c ++ [MkSubscription channel SubRecv []] | None => cn_subs c end)
            (cn_written c) (cn_replies c))) as Hc'.
  { destruct sub as [channel|]; [| by apply conn_inv_state]. exact (conn_inv_state s _ (conn_inv_new_sub channel c Hc)). }
  destruct r as [r|e'|]; [by apply conn_inv_reply | by apply conn_inv_close | by apply conn_inv_close].
Qed.

Lemma conn_inv_step ev c c' : conn_inv c → conn_step ev c = Some c' → conn_inv c'.
Proof.
  intros Hc. destruct ev as [x e sent|sent|i m now|i|n]; cbn [conn_step].
  - destruct (cn_open c) eqn:Ho; [| done]. intros [= <-]. by apply conn_inv_input.
  - destruct (cn_open c) eqn:Ho; [| done]. destruct (cn_queue c) as [|[i r] q] eqn:Hq; [done |].
    destruct sent; intros [= <-]; [| by apply conn_inv_close]. destruct Hc. rewrite Hq in *.
    split; cn_cbn; try done.
    + cbn in ci_bound0. lia.
    + intros j r' [H|[H|H%list_elem_of_singleton]%elem_of_app].
      * apply (ci_tags0 j r'). left. by apply list_elem_of_further.
      * apply (ci_tags0 j r'). by right.
      * injection H as -> ->. apply (ci_tags0 i r). left. apply list_elem_of_here.
    + intros j b Hb. specialize (ci_flow0 Ho j b Hb). rewrite <- ci_flow0. unfold written_by, queued_by.
      rewrite filter_map_app. cbn [filter_map fst snd]. destruct (decide (Some i = Some j)), (decide (i = j)); try congruence;
        cbn [app]; [exists (queued_by j q ++ held b); by rewrite <- !app_assoc |].
      rewrite app_nil_r. by apply prefix_app_r.
    + intros _ j b Hb. specialize (ci_flow0 Ho j b Hb). rewrite <- ci_flow0. unfold written_by, queued_by.
      rewrite filter_map_app. cbn [filter_map fst snd]. destruct (decide (Some i = Some j)), (decide (i = j)); try congruence;
        cbn [app]; by rewrite <- ?app_assoc, ?app_nil_r.
    + unfold written_replies. rewrite filter_map_app. cbn [filter_map fst snd]. rewrite decide_False by done. by rewrite app_nil_r.
    + intros _. unfold written_replies. rewrite filter_map_app. cbn [filter_map fst snd]. rewrite decide_False by done.
      rewrite app_nil_r. by apply ci_replied0.
  - destruct (cn_subs c !! i) as [[channel [|r|] received]|] eqn:Hi; try done. intros [= <-].
    destruct m as [m|]; (eapply conn_inv_set_sub; [done | exact Hi | |]); cbn; try done; [by apply prefix_app_r | |].
    + intros _. left. done.
    + intros _. by right.
  - destruct (cn_subs c !! i) as [[channel [|r|] received]|] eqn:Hi; try done.
    destruct (cn_open c) eqn:Ho.
    + destruct (Nat.ltb_spec (length (cn_queue c)) SESSION_BUFFER) as [Hlt|]; [| done]. intros [= <-].
      pose proof (lookup_lt_Some _ _ _ Hi) as Hil. destruct Hc. split; cn_cbn; try done.
      * rewrite length_app. cbn. lia.
      * intros j r' H. rewrite length_insert. destruct H as [[H|H%list_elem_of_singleton]%elem_of_app|H].
        -- by eapply ci_tags0; left.
        -- by injection H as -> ->.
        -- by eapply ci_tags0; right.
      * intros j b Hj. apply list_lookup_insert_Some in Hj as [(-> & <- & _)|[_ Hj]]; [| by apply ci_prefix0].
        exact (ci_prefix0 _ _ Hi).
      * intros _ j b Hj. unfold queued_by. rewrite filter_map_app. cbn [filter_map fst snd].
        apply list_lookup_insert_Some in Hj as [(-> & <- & _)|[Hne Hj]].
        -- rewrite decide_True by done. cbn [held sb_pc]. rewrite app_nil_r. exact (ci_flow0 Ho _ _ Hi).
        -- rewrite decide_False by done. rewrite app_nil_r. exact (ci_flow0 Ho _ _ Hj).
      * intros _. exact (ci_replied0 Ho).
    + intros [= <-]. eapply conn_inv_set_sub; [done | exact Hi | done | by rewrite Ho].
  - intros [= <-]. by apply conn_inv_state.
Qed.

Lemma conn_inv_run evs c c' : conn_inv c → conn_run evs c = Some c' → conn_inv c'.
Proof.
  revert c. induction evs as [|ev evs IH]; intros c Hc; cbn [conn_run]; [by intros [= <-] |].
  destruct (conn_step ev c) eqn:E; [| done]. apply IH. by eapply conn_inv_step.
Qed.

(** A closed connection stays closed and writes nothing more. *)
Lemma conn_closed_run evs (c c' : connection) :
  cn_open c = false → conn_run evs c = Some c' → cn_open c' = false ∧ cn_written c' = cn_written c.
Proof.
  revert c. induction evs as [|ev evs IH]; intros c Ho; cbn [conn_run]; [by intros [= <-] |].
  destruct (conn_step ev c) as [c1|] eqn:E; [| done]. intros Hr.
  assert (cn_open c1 = false ∧ cn_written c1 = cn_written c) as [Ho1 Hw].
  { destruct ev as [x e sent|sent|i m now|i|n]; cbn [conn_step] in E; rewrite ?Ho in E; try done.
    - destruct (cn_subs c !! i) as [[channel [|r|] received]|]; try done. destruct m; by injection E as <-.
    - destruct (cn_subs c !! i) as [[channel [|r|] received]|]; try done. by injection E as <-.
    - by injection E as <-. }
  destruct (IH c1 Ho1 Hr) as [? ->]. done.
Qed.
(** ** Claims *)

Lemma wait_for_shutdown_returns value changes :
  wait_for_shutdown value changes = Some tt ↔ value = true ∨ Some true ∈ changes ∨ None ∈ changes.
Proof.
  revert value. induction changes as [|[v|] changes IH]; intros [|]; cbn [wait_for_shutdown];
    rewrite ?elem_of_cons, ?elem_of_nil, ?IH; naive_solver.
Qed.

(** The guard lets a request through exactly with the token. *)
Lemma authorize_Ok (s : AgentState) token authorization :
  ag_token (as_config s) = Some token →
  authorize s authorization = Ok tt ↔ authorization = Some (lit "Bearer " ++ token).
Proof.
  intros Ht. unfold authorize. rewrite Ht. unfold bearer_token. split.
  - destruct authorization as [a|]; cbn [mbind option_bind]; [| done].
    unfold strip_prefix. destruct (decide _) as [Hp|]; [| done]. rewrite slice_ct_eq_spec.
    destruct (bool_decide_reflect (drop (length (lit "Bearer ")) a = token)) as [Hd|]; [| done]. intros _.
    f_equal. by rewrite <- Hp, <- Hd, take_drop.
  - intros ->. cbn [mbind option_bind]. unfold strip_prefix.
    rewrite take_app_length, drop_app_length, decide_True by done. rewrite slice_ct_eq_spec.
    by rewrite bool_decide_eq_true_2.
Qed.

Lemma authorize_not_panic (s : AgentState) authorization : authorize s authorization ≠ Panic.
Proof.
  unfold authorize. destruct (ag_token _); [| done]. destruct (bearer_token _); [| done]. by destruct (slice_ct_eq _ _).
Qed.

(** A configuration that loads has a listener, and a token for a WebSocket. *)
Lemma Cli_load_guarded exists_path read_path toml_parse ft cli c :
  Cli_load exists_path read_path toml_parse ft cli = Ok c →
  (ag_listen_ws c ≠ None ∨ ag_listen_unix c ≠ None) ∧ (ag_listen_ws c ≠ None → ag_token c ≠ None).
Proof.
  intros Hl. unfold Cli_load in Hl. repeat apply rbind_Ok in Hl as (? & ? & Hl). injection Hl as <-.
  cbn [ag_listen_ws ag_listen_unix ag_token]. split.
  - destruct (opt_or (cli_listen_ws cli) _); [by left |]. destruct (opt_or (cli_listen_unix cli) _); [by right | done].
  - intros Hws. destruct (opt_or (cli_listen_ws cli) _) as [addr|]; [| done]. intros ->.
    by destruct (is_loopback addr).
Qed.

(** C37: a WebSocket listener is always guarded.  Whatever the command line,
    the configuration file and the files they name say, a configuration that
    loads has a listener; when it has a WebSocket listener it has a token,
    and a request opens a connection or gets a body exactly when it names one
    of the two routes and its Authorization header is the word Bearer, a
    space and the token. *)
Theorem agent_ws_authenticated (exists_path : bytes → bool) (read_path : bytes → result bytes bytes)
    (toml_parse : bytes → result FileConfig bytes) (ft : features) (cli : Cli) (c : AgentConfig) (n : PeerNamespace) :
  Cli_load exists_path read_path toml_parse ft cli = Ok c →
  (ag_listen_ws c ≠ None ∨ ag_listen_unix c ≠ None)
  ∧ (ag_listen_ws c ≠ None →
     ∃ token, ag_token c = Some token
       ∧ ∀ path authorization,
           (∀ status, ws_router (MkAgentState c n) path authorization ≠ WsStatus status) ↔
           path ∈ [lit "/"; lit "/health"] ∧ authorization = Some (lit "Bearer " ++ token)).
Proof.
  intros [Hl Ht]%Cli_load_guarded. split; [done |]. intros Hws. specialize (Ht Hws).
  destruct (ag_token c) as [token|] eqn:Htk; [| done]. exists token. split; [done |].
  intros path authorization. rewrite <- (authorize_Ok (MkAgentState c n) token authorization Htk).
  unfold ws_router, require_bearer_token. pose proof (authorize_not_panic (MkAgentState c n) authorization) as Hp.
  rewrite !elem_of_cons, elem_of_nil.
  destruct (decide (path = lit "/")) as [->|H1]; [| destruct (decide (path = lit "/health")) as [->|H2]].
  - destruct (authorize _ _) as [[]|[st m]|]; cbn [rbind]; naive_solver.
  - destruct (authorize _ _) as [[]|[st m]|]; cbn [rbind]; naive_solver.
  - naive_solver.
Qed.

(** C36: whatever the schedule of a connection, its subscriptions and the
    other connections, every subscription's messages are written in the order
    in which they were received and each at most once, every reply is written
    in the order of the requests, and at most 64 messages are queued; and
    while the connection is open nothing is lost: what a subscription has
    received is what was written, what is queued and what it holds, in this
    order, and every computed reply has been written. *)
Theorem agent_session_delivers (s : AgentState) (evs : list conn_event) (c : connection) :
  conn_run evs (connection_new s) = Some c →
  length (cn_queue c) ≤ SESSION_BUFFER
  ∧ written_replies (cn_written c) `prefix_of` cn_replies c
  ∧ (∀ i b, cn_subs c !! i = Some b → written_by i (cn_written c) `prefix_of` sb_received b)
  ∧ (cn_open c = true →
     written_replies (cn_written c) = cn_replies c
     ∧ ∀ i b, cn_subs c !! i = Some b →
         sb_received b = written_by i (cn_written c) ++ queued_by i (cn_queue c) ++ held b).
Proof.
  intros Hr. destruct (conn_inv_run _ _ _ (conn_inv_new s) Hr). split_and!; try done.
  intros Ho. split; [by apply ci_replied0 |]. intros i b Hb. by rewrite ci_flow0.
Qed.

(** Trust changes take effect at once: after AddPeer answers with a card,
    Send finds exactly the imported card under the answered id and every
    other peer as before; after RemovePeer of that id answers ok, it is not
    found any more, and the others still are. *)
Lemma agent_peers_live (e e' : agent_env) (t1 t2 id id' card_text peer text : bytes) (s s1 s2 : AgentState)
    (sub1 sub2 : option bytes) :
  table_keyed (pn_trusted_peers (as_namespace s)) →
  parse_request t1 = Some (RawAddPeer id card_text) →
  handle_text e t1 s = (Ok (AgentResponse_PeerCard id peer text), sub1, s1) →
  parse_request t2 = Some (RawRemovePeer id' peer) →
  handle_text e' t2 s1 = (Ok (AgentResponse_Ok id'), sub2, s2) →
  ∃ c, import_string (trim card_text) = Ok c ∧ peer = PeerId_display (peer_id c)
    ∧ find_peer peer s1 = Some c ∧ find_peer peer s2 = None
    ∧ ∀ q, length (PeerId_to_bytes q) = 32 → q ≠ peer_id c →
        find_peer (PeerId_display q) s1 = find_peer (PeerId_display q) s
        ∧ find_peer (PeerId_display q) s2 = find_peer (PeerId_display q) s.
Proof.
  intros Hk Hp1 H1 Hp2 H2. unfold handle_text in H1, H2. rewrite Hp1 in H1. rewrite Hp2 in H2.
  cbn [fmap option_fmap option_map request_of] in H1, H2.
  unfold handle_add_peer in H1. destruct (add_peer card_text s) as [[c|er|] s1'] eqn:Hadd; [| done..].
  destruct (export_string c) as [text'|[]|] eqn:Hx; [| done]. cbn [rbind] in H1. injection H1 as <- _ _ <-.
  destruct (add_peer_Ok _ _ _ _ Hadd) as (Hi & Hv & _ & Hm & _ & _).
  pose proof (validated_id_length _ Hv) as Hlen. rename s1' into s1.
  unfold handle_remove_peer in H2. rewrite (parse_peer_id_display _ Hlen) in H2.
  destruct (remove_trusted_peer_live (peer_id c) (as_namespace s1)) as [[[]|er|] n2] eqn:Hrm; [| done..].
  injection H2 as _ <-. apply remove_peer_Ok in Hrm.
  assert (table_keyed (pn_trusted_peers (as_namespace s1))) as Hk1 by (rewrite Hm; by apply table_keyed_insert).
  assert (table_keyed (pn_trusted_peers (as_namespace (with_namespace n2 s1)))) as Hk2
    by (cbn [as_namespace with_namespace]; rewrite Hrm; by apply table_keyed_delete).
  exists c. split; [done |]. split; [done |].
  rewrite !find_peer_lookup by done. cbn [as_namespace with_namespace]. rewrite Hrm, Hm.
  rewrite lookup_insert_eq, lookup_delete_eq. split_and!; try done.
  intros q Hq Hne. rewrite !find_peer_lookup by done. cbn [as_namespace with_namespace]. rewrite Hrm, Hm.
  by rewrite lookup_delete_ne, lookup_insert_ne by done.
Qed.

(** C35: an agent's Send reaches the subscribers of the addressed peer's
    agent.  When Send answers ok, the named peer is trusted, the payload is
    base64, and one envelope was handed to the transports under the peer's
    address; and when that envelope is the first new frame the receiving
    namespace gets, in any round, and it trusts the sender, its subscription
    turns it into a message with the sender's id, the channel and the
    payload. *)
Theorem agent_send_reaches_subscriber (e : agent_env) (t id to payload : bytes) (channel : option bytes)
    (s s' : AgentState) (sub : option bytes) :
  parse_request t = Some (RawSend id to channel payload) →
  handle_text e t s = (Ok (AgentResponse_Ok id), sub, s') →
  s' = s ∧ sub = None ∧
  ∃ c p b delivered failed, find_peer to s = Some c ∧ payload_bytes payload = Some p
  ∧ split_results (ae_send e (tasks_for [PeerAddress_Pairwise (peer_id c)] ChMailbox (default_channel channel)
                                (as_namespace s)) b) = (delivered, failed)
  ∧ delivered ≠ []
  ∧ ∀ me rounds j start view run cap history kind pre post now,
      addresses [c] me → j < rounds →
      (∀ k, k < j → peer_payloads (run k (round_tasks (default_channel channel) (start k))) = []) →
      run j (round_tasks (default_channel channel) (start j))
        = pre ++ (kind, PeerAddress_Pairwise (PeerIdentity_peer_id me), Ok (Some b)) :: post →
      peer_payloads pre = [] → digest b ∉ window cap history →
      pn_identity (view j (length pre)) = me →
      trusts (trusted_snapshot (view j (length pre))) (pn_identity (as_namespace s)) →
      ∃ m, (recv_timeout (S:=S) (T:=T) rounds 0 start view run (default_channel channel) false
              (observe_all (Dedup_new cap) history)).1 = Some (Ok m)
        ∧ message_response (default_channel channel) now m
          = AgentResponse_Message (MkMessageResponse
              (PeerId_display (PeerIdentity_peer_id (pn_identity (as_namespace s)))) (default_channel channel)
              (encode_payload p) now).
Proof.
  intros Hp Ht. unfold handle_text in Ht. rewrite Hp in Ht. cbn [fmap option_fmap option_map request_of] in Ht.
  injection Ht as Hs <- <-. split; [done |]. split; [done |]. unfold handle_send in Hs.
  destruct (payload_bytes payload) as [p|]; [| done]. destruct (_ || _); [done |].
  destruct (find_peer to s) as [c|]; [| done]. destruct (PeerNamespace_mailbox _); [| done..].
  destruct (send_to_peers _ _ _ _ _ _) as [report|err|] eqn:Hsend; [| done..]. unfold send_to_peers in Hsend.
  apply rbind_Ok in Hsend as (env & He%map_err_Ok & Hsend). apply rbind_Ok in Hsend as (b & Hb%map_err_Ok & Hsend).
  exists c, p, b, (psr_delivered report), (psr_failed report). split; [done |]. split; [done |]. split; [| split].
  - by apply send_bytes_Ok in Hsend.
  - unfold send_bytes in Hsend. apply rbind_Ok in Hsend as (tasks & _ & Hsend).
    destruct (split_results _) as [[|k l] f]; [done |]. by injection Hsend as <-.
  - intros me rounds j start view run cap history kind pre post now Ha Hj Hempty Hrun Hpre Hnew Hme Htr. subst me.
    eexists. split; [erewrite (peer_recv_first j rounds 0); try done; by eapply open_message_pairwise |]. done.
Qed.

(** A subscription learns that its connection is gone only when it forwards
    a message, which [recv] has by then taken out of the mailbox: the message
    is never written, however the run goes on. *)
Lemma agent_closed_drops (c : connection) (i : nat) (channel : bytes) (received : list AgentResponse)
    (m : PeerMailboxMessage) (now : N) (evs : list conn_event) (c' : connection) :
  cn_open c = false → cn_subs c !! i = Some (MkSubscription channel SubRecv received) →
  conn_run (CnMessage i (Some m) now :: CnEnqueue i :: evs) c = Some c' →
  cn_written c' = cn_written c
  ∧ ∃ c1, conn_run [CnMessage i (Some m) now; CnEnqueue i] c = Some c1
      ∧ cn_subs c1 !! i = Some (MkSubscription channel SubEnded (received ++ [message_response channel now m])).
Proof.
  intros Ho Hi Hr. split; [by eapply conn_closed_run |]. pose proof (lookup_lt_Some _ _ _ Hi) as Hl.
  cbn [conn_run conn_step]. rewrite Hi. cn_cbn. rewrite list_lookup_insert_eq by done. rewrite Ho.
  eexists. split; [done |]. cn_cbn. by rewrite list_lookup_insert_eq by by rewrite length_insert.
Qed.
End Lemmas.

(** ** Witnesses *)

Module AgentWitness.
Import Toy ListLru PeerEnvelopeWitness GroupEnvelopeWitness IrohWitness PeerChannelsWitness.
#[local] Existing Instance ToyUrl.toy_url.
#[local] Existing Instance toy_iroh.
#[local] Existing Instance toy_base64.
#[local] Existing Instance peer_msgpack.
#[local] Existing Instance peer_msgpack_laws.
#[local] Existing Instance group_msgpack.
#[local] Existing Instance group_msgpack_laws.
#[local] Existing Instance slot_msgpack.
#[local] Instance toy_standard : StandardBase64 := {| std_engine := toy_base64 |}.

Definition bob_name : bytes := PeerId_display (PeerIdentity_peer_id bob).

(** Two requests are known by their first letter. *)
#[local] Instance toy_json : AgentJson := {|
  parse_request t :=
    match t with
    | x73 :: _ => Some (RawSend (lit "1") bob_name (Some (lit "a/b")) (lit "hi"))
    | x75 :: _ => Some (RawSubscribe (lit "2") None)
    | _ => None
    end
|}.

Definition seed_text : bytes := hex_bytes (replicate 32 x07).
Definition cli : Cli :=
  MkCli None (Some seed_text) (Some (lit "secret")) (Some (V4 (Ipv4 x7f x00 x00 x01) 8080)) None [] [] None None
    [] [] None None.
Definition all_features : features := MkFeatures true true true false true.
Definition loaded : AgentConfig :=
  MkAgentConfig (replicate 32 x07) (Some (lit "secret")) (Some (V4 (Ipv4 x7f x00 x00 x01) 8080)) None []
    [lit "http"; lit "pkarr"; lit "iroh"] None PkarrNetworkArg_Relays [] [] None (lit "info").

Lemma agent_ws_authenticated_witness :
  ws_router (MkAgentState loaded bob_ns) (lit "/") (Some (lit "Bearer secret")) = WsUpgrade
  ∧ ¬ (∀ status, ws_router (MkAgentState loaded bob_ns) (lit "/") None ≠ WsStatus status).
Proof.
  assert (Cli_load (λ _, false) (λ _, Err []) (λ _, Err []) all_features cli = Ok loaded) as Hl by vm_refl.
  split; [reflexivity |].
  destruct (agent_ws_authenticated (λ _, false) (λ _, Err []) (λ _, Err []) all_features cli loaded bob_ns Hl)
    as [_ H].
  destruct H as (token & _ & H); [discriminate |]. intros Hs. apply H in Hs as [_ Hs]. discriminate Hs.
Defined.

(** Bob's agent: a subscription, one message from Alice, and its delivery. *)
Definition bob_agent : AgentState (S:=InMemoryInner) (T:=unit) := MkAgentState loaded bob_ns.
Definition alice_agent : AgentState (S:=InMemoryInner) (T:=unit) :=
  MkAgentState loaded (set_trust (trust_table (TrustedPeer_new (PeerIdentity_card bob))) None alice_ns).

Definition quiet : agent_env (S:=InMemoryInner) (T:=unit) :=
  MkAgentEnv toy_nonces accept_all store_all (λ _, []) (λ _, bob_ns) (MkEndpointAddr (iroh_public []) []).

Definition from_alice : PeerMailboxMessage :=
  MkPeerMailboxMessage (PeerIdentity_peer_id alice) (verifying_key (signing alice)) (lit "hi") Http None None.

Definition talk : list (conn_event (S:=InMemoryInner) (T:=unit)) :=
  [CnInput (ws_input (WsText (lit "u"))) quiet true; CnMessage 0 (Some from_alice) 5; CnEnqueue 0; CnOutbound true].

Lemma agent_session_delivers_witness :
  ∃ c b, conn_run talk (connection_new bob_agent) = Some c ∧ cn_subs c !! 0 = Some b
    ∧ written_by 0 (cn_written c) = [message_response (lit "default") 5 from_alice]
    ∧ written_by 0 (cn_written c) `prefix_of` sb_received b.
Proof.
  assert (∃ c, conn_run talk (connection_new bob_agent) = Some c
    ∧ cn_subs c !! 0 = Some (MkSubscription (lit "default") SubRecv [message_response (lit "default") 5 from_alice])
    ∧ written_by 0 (cn_written c) = [message_response (lit "default") 5 from_alice]) as (c & Hr & Hb & Hw)
    by (eexists; split; [reflexivity |]; split; reflexivity).
  exists c. eexists. split; [exact Hr |]. split; [exact Hb |]. split; [exact Hw |].
  exact (proj1 (proj2 (proj2 (agent_session_delivers bob_agent talk c Hr))) 0 _ Hb).
Defined.

(** Alice's agent sends to Bob's. *)
Lemma agent_send_reaches_subscriber_witness :
  ∃ b m, (recv_timeout 1 0 (λ _, bob_ns) (λ _ _, bob_ns)
            (λ _ _, [(Http, PeerAddress_Pairwise (PeerIdentity_peer_id bob), Ok (Some b))]) (lit "a/b") false
            (observe_all (Dedup_new 4) [])).1 = Some (Ok m)
    ∧ message_response (lit "a/b") 5 m
      = AgentResponse_Message (MkMessageResponse (PeerId_display (PeerIdentity_peer_id alice)) (lit "a/b") (lit "hi") 5).
Proof.
  assert (handle_send quiet (lit "1") bob_name (lit "a/b") (lit "hi") alice_agent = Ok (AgentResponse_Ok (lit "1"))) as Hs
    by vm_refl.
  assert (find_peer bob_name alice_agent = Some (PeerIdentity_card bob)) as Hf by vm_refl.
  assert (handle_text quiet (lit "s") alice_agent = (Ok (AgentResponse_Ok (lit "1")), None, alice_agent)) as Ht.
  { change (handle_text quiet (lit "s") alice_agent)
      with (handle_send quiet (lit "1") bob_name (lit "a/b") (lit "hi") alice_agent, @None bytes, alice_agent).
    rewrite Hs. reflexivity. }
  assert (parse_request (lit "s") = Some (RawSend (lit "1") bob_name (Some (lit "a/b")) (lit "hi"))) as Hq by vm_refl.
  destruct (agent_send_reaches_subscriber quiet (lit "s") (lit "1") bob_name (lit "hi") (Some (lit "a/b"))
    alice_agent alice_agent None Hq Ht) as (_ & _ & c & p & b & dl & fl & Hc & Hp & _ & _ & H).
  rewrite Hf in Hc. injection Hc as <-. injection Hp as <-. exists b.
  apply (H bob 1 0 (λ _, bob_ns) (λ _ _, bob_ns)
    (λ _ _, [(Http, PeerAddress_Pairwise (PeerIdentity_peer_id bob), Ok (Some b))]) 4 [] Http [] [] 5%N).
  - exact toy_addresses.
  - lia.
  - intros k Hk. lia.
  - reflexivity.
  - reflexivity.
  - apply not_elem_of_nil.
  - reflexivity.
  - exact bob_trusts.
Defined.
End AgentWitness.
