(* ===== verification/AgentServe.v ===== *)
(** * enlace-agent: the listeners from start to shutdown

    [run_with_shutdown] opens the agent, starts its listeners and waits: for
    the first listener that fails, or for every listener to end because the
    shutdown future completed.  The Unix listener first clears its path and
    binds it; a line of its protocol is the JSON text of a response and a
    line feed.  The file system is a class; the web server and the sockets
    are the events of the run.  Of the web server ([axum_server]) the run
    uses what its documentation says of [graceful_shutdown(None)]: it stops
    accepting and waits for its connections without a deadline. *)

From S2P Require Import Prelude Bytes Crypto Kdf Net Guard Errors Dedup Config Health PeerCard Msgpack State PeerEnvelope GroupEnvelope Coordinator Iroh Namespace PeerNamespace PeerChannels AgentConfig Agent.

(** ** Lines *)

(** [write_json_line], on the bytes written so far: [render] is
    [serde_json::to_string] and [write_all] the stream. *)
Definition write_json_line {R : Type} (render : R → result bytes bytes) (write_all : bytes → result unit bytes)
    (response : R) (written : bytes) : result unit anyhow * bytes :=
  match wrap (render response) with
  | Ok text =>
      match write_all text with
      | Ok _ =>
          match write_all [x0a] with
          | Ok _ => (Ok tt, written ++ text ++ [x0a])
          | r => (context (lit "unix socket send failed") (wrap r), written ++ text)
          end
      | r => (context (lit "unix socket send failed") (wrap r), written)
      end
  | Err e => (Err e, written)
  | Panic => (Panic, written)
  end.

(** [BufReader::lines] of the other side: the text up to a line feed, without
    a carriage return before it; what follows the last line feed is a line
    when it is not empty. *)
Definition strip_cr (l : bytes) : bytes :=
  match reverse l with x0d :: r => reverse r | _ => l end.

Fixpoint read_lines (acc s : bytes) : list bytes :=
  match s with
  | [] => match acc with [] => [] | _ => [acc] end
  | b :: s => if decide (b = x0a) then strip_cr acc :: read_lines [] s else read_lines (acc ++ [b]) s
  end.

(** ** The path of the socket *)

(** A [Path] as its components: repeated separators and [.] components, except
    a leading one, are not seen. *)
Record path : Type := MkPath { p_root : bool; p_comps : list bytes }.

#[export] Instance path_eq_dec : EqDecision path.
Proof. solve_decision. Defined.

Fixpoint split_slash (acc s : bytes) : list bytes :=
  match s with
  | [] => [acc]
  | b :: s => if decide (b = x2f) then acc :: split_slash [] s else split_slash (acc ++ [b]) s
  end.

Definition components (text : bytes) : path :=
  let root := bool_decide (head text = Some x2f) in
  let seen c := negb (bool_decide (c = [])) && negb (bool_decide (c = lit ".")) in
  let cs := split_slash [] text in
  MkPath root (match cs with
               | c :: cs => (if bool_decide (c = lit ".") then [c] else List.filter seen [c]) ++ List.filter seen cs
               | [] => []
               end).

Definition parent (p : path) : option path :=
  match p_comps p with
  | [] => None
  | cs => Some (MkPath (p_root p) (removelast cs))
  end.

(** The text of a path, with single separators. *)
Fixpoint join_slash (cs : list bytes) : bytes :=
  match cs with
  | [] => []
  | [c] => c
  | c :: cs => c ++ [x2f] ++ join_slash cs
  end.

Definition path_display (p : path) : bytes := (if p_root p then [x2f] else []) ++ join_slash (p_comps p).

(** [as_os_str().is_empty()]. *)
Definition path_is_empty (p : path) : bool := negb (p_root p) && bool_decide (p_comps p = []).

Inductive file_kind : Type := Directory | RegularFile | Socket.

#[export] Instance file_kind_eq_dec : EqDecision file_kind.
Proof. solve_decision. Defined.

Inductive io_error : Type := NotFound | OtherIo (text : bytes).

(** The calls of [std::fs] and of [UnixListener::bind] on a file system. *)
Class FileSystem (F : Type) := {
  entry : path → F → option file_kind;
  create_dir_all : path → F → result unit bytes * F;
  remove_file : path → F → result unit io_error * F;
  bind_unix : path → F → result unit bytes * F
}.

(** What their documentation says: [create_dir_all] adds directories and
    nothing else; [remove_file] removes the entry, which is not a directory,
    and only it, and [NotFound] means there is none; binding fails on an
    existing entry and otherwise adds a socket, when it succeeds. *)
Class FileSystemLaws (F : Type) `{FS : FileSystem F} := {
  create_dir_all_keeps : ∀ d f r f' p k, create_dir_all d f = (r, f') → entry p f = Some k → entry p f' = Some k;
  create_dir_all_adds : ∀ d f r f' p k,
    create_dir_all d f = (r, f') → entry p f = None → entry p f' = Some k → k = Directory;
  remove_file_Ok : ∀ p f f', remove_file p f = (Ok tt, f') →
    entry p f ≠ Some Directory ∧ entry p f' = None ∧ ∀ q, q ≠ p → entry q f' = entry q f;
  remove_file_NotFound : ∀ p f f', remove_file p f = (Err NotFound, f') → f' = f ∧ entry p f = None;
  remove_file_fails : ∀ p f t f', remove_file p f = (Err (OtherIo t), f') → f' = f;
  bind_existing : ∀ p f k, entry p f = Some k → (bind_unix p f).2 = f ∧ ∃ t, (bind_unix p f).1 = Err t;
  bind_Ok : ∀ p f f', bind_unix p f = (Ok tt, f') →
    entry p f' = Some Socket ∧ ∀ q, q ≠ p → entry q f' = entry q f
}.

Section Unix.
Context {F : Type} `{FS : FileSystem F}.

(** The closure of [prepare_unix_socket_path]; the task it runs on does not
    fail. *)
Definition prepare_unix_socket_path (text : bytes) (f : F) : result unit anyhow * F :=
  let p := components text in
  let '(r, f) :=
    match parent p with
    | Some d =>
        if path_is_empty d then (Ok tt, f)
        else let '(r, f) := create_dir_all d f in (context (lit "failed to create " ++ path_display d) (wrap r), f)
    | None => (Ok tt, f)
    end in
  match r with
  | Ok _ =>
      match remove_file p f with
      | (Ok _, f) => (Ok tt, f)
      | (Err NotFound, f) => (Ok tt, f)
      | (Err (OtherIo t), f) => (Err [lit "failed to remove " ++ text; t], f)
      | (Panic, f) => (Panic, f)
      end
  | Err e => (Err e, f)
  | Panic => (Panic, f)
  end.

(** [run_unix_until] up to the loop. *)
Definition start_unix (text : bytes) (f : F) : result unit anyhow * F :=
  match prepare_unix_socket_path text f with
  | (Ok _, f) =>
      let '(r, f) := bind_unix (components text) f in
      (context (lit "failed to bind " ++ text) (wrap r), f)
  | (r, f) => (r, f)
  end.
End Unix.

(** ** The run *)

(** A listener serves until it ends with a result. *)
Inductive task : Type := Serving | Ended (r : result unit anyhow).

(** [sv_shutdown] is the value of the watch channel, whose sender lives as
    long as the run; [sv_graceful] says that [graceful_shutdown] was called on
    the handle of the web server, and [sv_open] are the connections the web
    server has accepted and is not done with; [sv_accepted] are the Unix
    connections handed to [handle_unix_stream].  The result is that of
    [run_with_shutdown]: when it is there, the futures of the listeners are
    dropped. *)
Record serving : Type := MkServing {
  sv_shutdown : bool;
  sv_graceful : bool;
  sv_ws : option task;
  sv_open : list nat;
  sv_unix : option task;
  sv_accepted : list nat;
  sv_result : option (result unit anyhow)
}.

(** [try_join!] of the listeners there are: the first failure, or all of them
    ended. *)
Definition try_join (ws unix : option task) : option (result unit anyhow) :=
  match ws, unix with
  | Some (Ended (Err e)), _ | _, Some (Ended (Err e)) => Some (Err e)
  | Some (Ended Panic), _ | _, Some (Ended Panic) => Some Panic
  | Some Serving, _ | _, Some Serving => None
  | _, _ => Some (Ok tt)
  end.

Definition joined (s : serving) : serving :=
  MkServing (sv_shutdown s) (sv_graceful s) (sv_ws s) (sv_open s) (sv_unix s) (sv_accepted s)
    (try_join (sv_ws s) (sv_unix s)).

Inductive serve_event : Type :=
| ShutdownCompletes                       (** the shutdown future; its task sends [true] *)
| WsConnected (c : nat)                   (** the web server accepts a connection *)
| WsEnded (c : nat)                       (** the web server is done with a connection *)
| WsShutdown                              (** the task of [run_ws_until] calls [graceful_shutdown] *)
| WsServed (r : result unit bytes)        (** [serve] of the web server returns *)
| UnixAccepted (r : result nat bytes)     (** the [accept] branch of the loop *)
| UnixShutdown.                           (** the [wait_for_shutdown] branch *)

Definition set_open (open : list nat) (s : serving) : serving :=
  MkServing (sv_shutdown s) (sv_graceful s) (sv_ws s) open (sv_unix s) (sv_accepted s) None.

(** The connections of the web server, which takes new ones until it is asked
    to shut down. *)
Definition ws_connected (c : nat) (s : serving) : option serving :=
  match sv_ws s, sv_graceful s with
  | Some Serving, false => Some (set_open (sv_open s ++ [c]) s)
  | _, _ => None
  end.

Definition ws_ended (c : nat) (s : serving) : option serving :=
  match sv_ws s with
  | Some Serving =>
      if decide (c ∈ sv_open s)
      then Some (set_open (List.filter (λ d, negb (bool_decide (d = c))) (sv_open s)) s) else None
  | _ => None
  end.

(** The task that waits for the channel. *)
Definition ws_shutdown (s : serving) : option serving :=
  match sv_ws s, sv_graceful s, wait_for_shutdown (sv_shutdown s) [] with
  | Some Serving, false, Some _ =>
      Some (MkServing (sv_shutdown s) true (sv_ws s) (sv_open s) (sv_unix s) (sv_accepted s) None)
  | _, _, _ => None
  end.

(** [serve] returns an error, or without one after [graceful_shutdown(None)],
    once it is done with every connection, however long that takes. *)
Definition ws_served (r : result unit bytes) (s : serving) : option serving :=
  let returns := match r with Ok _ => sv_graceful s && bool_decide (sv_open s = []) | _ => true end in
  match sv_ws s, returns with
  | Some Serving, true =>
      Some (joined (MkServing (sv_shutdown s) (sv_graceful s)
                      (Some (Ended (context (lit "websocket listener failed") (wrap r))))
                      (sv_open s) (sv_unix s) (sv_accepted s) None))
  | _, _ => None
  end.

(** The branches of the loop of [run_unix_until]; [text] is the path in the
    messages. *)
Definition end_unix (r : result unit anyhow) (s : serving) : serving :=
  joined (MkServing (sv_shutdown s) (sv_graceful s) (sv_ws s) (sv_open s) (Some (Ended r)) (sv_accepted s) None).

Definition unix_accepted (text : bytes) (r : result nat bytes) (s : serving) : option serving :=
  match sv_unix s, context (lit "failed to accept on " ++ text) (wrap r) with
  | Some Serving, Ok c =>
      Some (MkServing (sv_shutdown s) (sv_graceful s) (sv_ws s) (sv_open s) (sv_unix s) (sv_accepted s ++ [c]) None)
  | Some Serving, Err e => Some (end_unix (Err e) s)
  | Some Serving, Panic => Some (end_unix Panic s)
  | _, _ => None
  end.

Definition unix_shutdown (s : serving) : option serving :=
  match sv_unix s, wait_for_shutdown (sv_shutdown s) [] with
  | Some Serving, Some _ => Some (end_unix (Ok tt) s)
  | _, _ => None
  end.

Definition serve_step (text : bytes) (ev : serve_event) (s : serving) : option serving :=
  match sv_result s with
  | Some _ => None
  | None =>
      match ev with
      | ShutdownCompletes =>
          Some (MkServing true (sv_graceful s) (sv_ws s) (sv_open s) (sv_unix s) (sv_accepted s) None)
      | WsConnected c => ws_connected c s
      | WsEnded c => ws_ended c s
      | WsShutdown => ws_shutdown s
      | WsServed r => ws_served r s
      | UnixAccepted r => unix_accepted text r s
      | UnixShutdown => unix_shutdown s
      end
  end.

Fixpoint serve_run (text : bytes) (evs : list serve_event) (s : serving) : option serving :=
  match evs with
  | [] => Some s
  | ev :: evs => match serve_step text ev s with Some s => serve_run text evs s | None => None end
  end.

Section Serve.
Context {F : Type} `{FS : FileSystem F}.

(** The listeners of [run_until] as they start; the web server binds inside
    [serve]. *)
Definition serve_start (ls : list listener) (f : F) : serving * F :=
  let ws := if existsb (λ l, match l with ListenWs _ => true | _ => false end) ls then Some Serving else None in
  match filter_map (λ l, match l with ListenUnix t => Some t | _ => None end) ls with
  | text :: _ =>
      let '(r, f) := start_unix text f in
      (joined (MkServing false false ws [] (Some (match r with Ok _ => Serving | r => Ended r end)) [] None), f)
  | [] => (joined (MkServing false false ws [] None [] None), f)
  end.
End Serve.

(** ** Lemmas *)

Lemma read_lines_line acc text s :
  x0a ∉ text → read_lines acc (text ++ x0a :: s) = strip_cr (acc ++ text) :: read_lines [] s.
Proof.
  revert acc. induction text as [|b text IH]; intros acc Hn; cbn [app read_lines].
  - by rewrite app_nil_r.
  - apply not_elem_of_cons in Hn as [Hb Hn]. rewrite decide_False by congruence. rewrite IH by done.
    by rewrite <- app_assoc.
Qed.

Definition no_cr (text : bytes) : Prop := last text ≠ Some x0d.

Lemma strip_cr_id text : no_cr text → strip_cr text = text.
Proof.
  unfold no_cr, strip_cr. intros H. destruct (reverse text) as [|b r] eqn:E; [done |].
  assert (text = reverse r ++ [b]) as -> by (rewrite <- (reverse_involutive text), E; apply reverse_cons).
  rewrite last_snoc in H. destruct b; done.
Qed.

(** What a session writes while its stream accepts everything. *)
Fixpoint write_lines {R} (render : R → result bytes bytes) (rs : list R) (written : bytes) : result unit anyhow * bytes :=
  match rs with
  | [] => (Ok tt, written)
  | r :: rs =>
      match write_json_line render (λ _, Ok tt) r written with
      | (Ok _, written) => write_lines render rs written
      | out => out
      end
  end.

Lemma write_lines_spec {R} (render : R → result bytes bytes) rs texts written :
  Forall2 (λ r t, render r = Ok t) rs texts →
  write_lines render rs written = (Ok tt, written ++ concat (map (λ t, t ++ [x0a]) texts)).
Proof.
  intros H. revert written. induction H as [|r t rs texts Hr _ IH]; intros written; cbn [write_lines map concat].
  - by rewrite app_nil_r.
  - unfold write_json_line. rewrite Hr. cbn [wrap map_err]. rewrite IH. by rewrite <- !app_assoc.
Qed.

Lemma read_lines_texts texts :
  Forall (λ t, x0a ∉ t ∧ no_cr t) texts → read_lines [] (concat (map (λ t, t ++ [x0a]) texts)) = texts.
Proof.
  induction 1 as [|t texts [Hn Hc] _ IH]; [done |]. cbn [map concat]. rewrite <- app_assoc. cbn [app].
  by rewrite read_lines_line, IH, strip_cr_id.
Qed.

Section UnixLemmas.
Context {F : Type} `{FS : FileSystem F} `{FSL : !FileSystemLaws F}.

(** What stays and what may appear, other than at [p]. *)
Definition only_at (p : path) (f f' : F) : Prop :=
  (∀ q k, q ≠ p → entry q f = Some k → entry q f' = Some k)
  ∧ (∀ q k, q ≠ p → entry q f = None → entry q f' = Some k → k = Directory).

Lemma only_at_same p f : only_at p f f.
Proof. split; [done |]. intros q k _ H1 H2. by rewrite H1 in H2. Qed.

Lemma only_at_trans p f g h : only_at p f g → only_at p g h → only_at p f h.
Proof.
  intros [K1 A1] [K2 A2]. split; [intros q k Hq H; by apply K2, K1 |].
  intros q k Hq Hf Hh. destruct (entry q g) as [k'|] eqn:Hg; [| by eapply A2].
  assert (k' = Directory) as -> by by eapply A1. by rewrite (K2 _ _ Hq Hg) in Hh; injection Hh as <-.
Qed.

Lemma create_dir_all_only p d f r f' : create_dir_all d f = (r, f') → only_at p f f'.
Proof.
  intros H. split.
  - intros q k _ Hq. by eapply create_dir_all_keeps.
  - intros q k _. by eapply create_dir_all_adds.
Qed.

Lemma same_elsewhere p f f' : (∀ q, q ≠ p → entry q f' = entry q f) → only_at p f f'.
Proof. intros H. split; intros q k Hq; rewrite (H q Hq); [done |]. intros ->. done. Qed.

(** Making the parent directories. *)
Lemma prepare_parent text f :
  ∃ (r : result unit anyhow) f1, only_at (components text) f f1 ∧ (∀ k, entry (components text) f = Some k → entry (components text) f1 = Some k)
    ∧ prepare_unix_socket_path text f
      = match r with
        | Ok _ =>
            match remove_file (components text) f1 with
            | (Ok _, f) => (Ok tt, f)
            | (Err NotFound, f) => (Ok tt, f)
            | (Err (OtherIo t), f) => (Err [lit "failed to remove " ++ text; t], f)
            | (Panic, f) => (Panic, f)
            end
        | Err e => (Err e, f1)
        | Panic => (Panic, f1)
        end.
Proof.
  unfold prepare_unix_socket_path. destruct (parent (components text)) as [d|];
    [destruct (path_is_empty d); [| destruct (create_dir_all d f) as [r f1] eqn:E] |].
  - exists (Ok tt), f. split; [apply only_at_same | by split].
  - exists (context (lit "failed to create " ++ path_display d) (wrap r)), f1.
    split; [by eapply create_dir_all_only | split; [| done]]. intros k Hk. by eapply create_dir_all_keeps.
  - exists (Ok tt), f. split; [apply only_at_same | by split].
Qed.

Lemma prepare_unix_socket_path_Ok text f f' :
  prepare_unix_socket_path text f = (Ok tt, f') →
  entry (components text) f' = None ∧ entry (components text) f ≠ Some Directory ∧ only_at (components text) f f'.
Proof.
  destruct (prepare_parent text f) as (r & f1 & Ho & Hk & ->). destruct r as [?|?|]; [| done ..].
  destruct (remove_file (components text) f1) as [[[]|[|msg]|] f2] eqn:E; try done; intros [= <-].
  - apply remove_file_Ok in E as (Hd & Hn & He). split; [done |]. split; [by intros Hx%Hk |].
    eapply only_at_trans; [done |]. by apply same_elsewhere.
  - apply remove_file_NotFound in E as [-> Hn]. split; [done |]. split; [| done]. intros Hx%Hk. by rewrite Hn in Hx.
Qed.

Lemma start_unix_Ok text f f' :
  start_unix text f = (Ok tt, f') →
  entry (components text) f' = Some Socket ∧ entry (components text) f ≠ Some Directory ∧ only_at (components text) f f'.
Proof.
  unfold start_unix. destruct (prepare_unix_socket_path text f) as [[[]|?|] f1] eqn:E; [| done ..].
  apply prepare_unix_socket_path_Ok in E as (Hn & Hd & Ho).
  destruct (bind_unix (components text) f1) as [r f2] eqn:Eb. intros [= Hr <-].
  destruct r as [[]|?|]; try done. apply bind_Ok in Eb as [Hs He]. split; [done |]. split; [done |].
  eapply only_at_trans; [done |]. by apply same_elsewhere.
Qed.
End UnixLemmas.

(** ** The invariant of a run *)

Definition accepted (evs : list serve_event) : list nat :=
  filter_map (λ ev, match ev with UnixAccepted (Ok c) => Some c | _ => None end) evs.

(** An event that makes a listener fail with [e]. *)
Definition fails (text : bytes) (ev : serve_event) (e : anyhow) : Prop :=
  match ev with
  | WsServed (Err t) => e = [lit "websocket listener failed"; t]
  | UnixAccepted (Err t) => e = [lit "failed to accept on " ++ text; t]
  | _ => False
  end.

(** A listener failed with [e]: [start] is how the Unix listener started. *)
Definition failure (text : bytes) (start : result unit anyhow) (evs : list serve_event) (e : anyhow) : Prop :=
  start = Err e ∨ ∃ ev, ev ∈ evs ∧ fails text ev e.

Lemma failure_snoc text start evs ev e :
  failure text start (evs ++ [ev]) e ↔ failure text start evs e ∨ fails text ev e.
Proof. unfold failure. setoid_rewrite elem_of_app. setoid_rewrite list_elem_of_singleton. naive_solver. Qed.

Record serve_inv (text : bytes) (start : result unit anyhow) (evs : list serve_event) (s : serving) : Prop := {
  si_result : sv_result s = try_join (sv_ws s) (sv_unix s);
  si_failed : ∀ e, sv_result s = Some (Err e) ↔ failure text start evs e;
  si_shutdown : sv_shutdown s = true ↔ ShutdownCompletes ∈ evs;
  si_graceful : sv_graceful s = true → sv_shutdown s = true;
  si_accepted : sv_accepted s = accepted evs;
  si_ws : ∀ u, sv_ws s = Some (Ended (Ok u)) → sv_shutdown s = true ∧ sv_open s = [];
  si_unix : ∀ u, sv_unix s = Some (Ended (Ok u)) → sv_shutdown s = true
}.

Lemma accepted_app evs more : accepted (evs ++ more) = accepted evs ++ accepted more.
Proof. apply filter_map_app. Qed.

Lemma shutdown_snoc evs ev : ShutdownCompletes ∈ evs ++ [ev] ↔ ShutdownCompletes ∈ evs ∨ ev = ShutdownCompletes.
Proof. rewrite elem_of_app, list_elem_of_singleton. naive_solver. Qed.

Lemma waits_for_shutdown b : wait_for_shutdown b [] = if b then Some tt else None.
Proof. by destruct b. Qed.

(** The result after a listener ended. *)
Lemma try_join_ws r ws unix e :
  try_join ws unix = None → ws = Some Serving → try_join (Some (Ended r)) unix = Some (Err e) ↔ r = Err e.
Proof. intros H ->. destruct r as [?|?|], unix as [[|[?|?|]]|]; cbn in *; try done; split; congruence. Qed.

Lemma try_join_unix r ws unix e :
  try_join ws unix = None → unix = Some Serving → try_join ws (Some (Ended r)) = Some (Err e) ↔ r = Err e.
Proof. intros H ->. destruct r as [?|?|], ws as [[|[?|?|]]|]; cbn in *; try done; split; congruence. Qed.

#[local] Arguments try_join _ _ : simpl never.

(** A step, from the parts of the invariant that it changes. *)
Lemma serve_step_failed text start evs ev s s' :
  serve_inv text start evs s → sv_result s = None → (∀ e, sv_result s' = Some (Err e) ↔ fails text ev e) →
  ∀ e, sv_result s' = Some (Err e) ↔ failure text start (evs ++ [ev]) e.
Proof. intros [_ Hf _ _ _ _ _] Hn H e. rewrite failure_snoc, <- Hf, H, Hn. naive_solver. Qed.

Lemma serve_step_inv text start evs ev s s' :
  serve_inv text start evs s → serve_step text ev s = Some s' → serve_inv text start (evs ++ [ev]) s'.
Proof.
  intros Hinv. pose proof Hinv as [Hr Hf Hs Hg Ha Hw Hu]. unfold serve_step.
  destruct (sv_result s) eqn:Eres; [done |]. symmetry in Hr. intros Hstep.
  assert ((∀ e, sv_result s' = Some (Err e) ↔ fails text ev e)
    ∧ sv_result s' = try_join (sv_ws s') (sv_unix s')
    ∧ (sv_shutdown s' = true ↔ sv_shutdown s = true ∨ ev = ShutdownCompletes)
    ∧ (sv_graceful s' = true → sv_shutdown s' = true)
    ∧ sv_accepted s' = sv_accepted s ++ accepted [ev]
    ∧ (∀ u, sv_ws s' = Some (Ended (Ok u)) → sv_shutdown s' = true ∧ sv_open s' = [])
    ∧ (∀ u, sv_unix s' = Some (Ended (Ok u)) → sv_shutdown s' = true)) as (H1 & H2 & H3 & H4 & H5 & H6 & H7).
  { destruct ev as [|c|c| |r|r|]; cbn [fails accepted filter_map].
    - injection Hstep as <-. cbn. rewrite app_nil_r. naive_solver.
    - unfold ws_connected in Hstep. destruct (sv_ws s) as [[]|] eqn:Ew; try done. destruct (sv_graceful s) eqn:Eg; [done |].
      injection Hstep as <-. cbn. rewrite app_nil_r, ?Ew, ?Eg. naive_solver.
    - unfold ws_ended in Hstep. destruct (sv_ws s) as [[]|] eqn:Ew; try done. destruct (decide _); [| done].
      injection Hstep as <-. cbn. rewrite app_nil_r, ?Ew. naive_solver.
    - unfold ws_shutdown in Hstep. rewrite waits_for_shutdown in Hstep.
      destruct (sv_ws s) as [[]|] eqn:Ew; try done. destruct (sv_graceful s); [done |].
      destruct (sv_shutdown s); [| done]. injection Hstep as <-. cbn. rewrite app_nil_r, ?Ew. naive_solver.
    - unfold ws_served in Hstep. destruct (sv_ws s) as [[]|] eqn:Ew; try done.
      destruct (match r with Ok _ => _ | _ => _ end) eqn:Er; [| done]. injection Hstep as <-. cbn.
      rewrite app_nil_r. split_and!; try done; [| by split; [left | intros [?|?]] |].
      + intros e. rewrite (try_join_ws _ _ _ _ Hr eq_refl).
        destruct r; cbn; [done | split; [by intros [= <-] | by intros ->] | done].
      + intros u. destruct r; cbn; try done. intros _. apply andb_true_iff in Er as [Er1 Er2%bool_decide_eq_true]. auto.
    - unfold unix_accepted in Hstep. destruct (sv_unix s) as [[]|] eqn:Eu; try done.
      destruct r as [c|t|]; injection Hstep as <-; cbn; rewrite ?app_nil_r, ?Eu;
        (split_and!; try done; try by split; [left | intros [?|?]]);
        intros e; rewrite (try_join_unix _ _ _ _ Hr eq_refl); first [done | split; [by intros [= <-] | by intros ->]].
    - unfold unix_shutdown in Hstep. rewrite waits_for_shutdown in Hstep.
      destruct (sv_unix s) as [[]|] eqn:Eu; try done. destruct (sv_shutdown s) eqn:Es; [| done].
      injection Hstep as <-. cbn. rewrite app_nil_r, ?Es. split_and!; try done; try by split; [left | intros [?|?]].
      intros e. by rewrite (try_join_unix _ _ _ _ Hr eq_refl). }
  split; try done.
  - by eapply serve_step_failed.
  - rewrite H3, shutdown_snoc, Hs. done.
  - by rewrite H5, accepted_app, Ha.
Qed.

Lemma serve_run_inv text start evs pre s s' :
  serve_inv text start pre s → serve_run text evs s = Some s' → serve_inv text start (pre ++ evs) s'.
Proof.
  revert pre s. induction evs as [|ev evs IH]; intros pre s Hi; cbn [serve_run].
  - intros [= <-]. by rewrite app_nil_r.
  - destruct (serve_step text ev s) as [s1|] eqn:E; [| done]. intros H. rewrite cons_middle, app_assoc.
    eapply IH; [by eapply serve_step_inv | done].
Qed.

(** Listeners neither appear nor disappear. *)
Lemma serve_step_tasks text ev s s' :
  serve_step text ev s = Some s' → (sv_ws s' = None ↔ sv_ws s = None) ∧ (sv_unix s' = None ↔ sv_unix s = None).
Proof.
  unfold serve_step. destruct (sv_result s); [done |]. destruct ev as [|c|c| |r|r|].
  - by intros [= <-].
  - unfold ws_connected. destruct (sv_ws s) as [[]|] eqn:E, (sv_graceful s); intros [= <-]; cbn; by rewrite E.
  - unfold ws_ended. destruct (sv_ws s) as [[]|] eqn:E; try done. destruct (decide _); intros [= <-]; cbn; by rewrite E.
  - unfold ws_shutdown. rewrite waits_for_shutdown.
    destruct (sv_ws s) as [[]|] eqn:E, (sv_graceful s), (sv_shutdown s); intros [= <-]; cbn; by rewrite ?E.
  - unfold ws_served. destruct (sv_ws s) as [[]|]; try done.
    destruct (match r with Ok _ => _ | _ => _ end); intros [= <-]; by split.
  - unfold unix_accepted. destruct (sv_unix s) as [[]|] eqn:E; destruct r; intros [= <-]; cbn; rewrite ?E; by split.
  - unfold unix_shutdown. rewrite waits_for_shutdown.
    destruct (sv_unix s) as [[]|], (sv_shutdown s); intros [= <-]; by split.
Qed.

Lemma serve_run_tasks text evs s s' :
  serve_run text evs s = Some s' → (sv_ws s' = None ↔ sv_ws s = None) ∧ (sv_unix s' = None ↔ sv_unix s = None).
Proof.
  revert s. induction evs as [|ev evs IH]; intros s; cbn [serve_run]; [by intros [= <-] |].
  destruct (serve_step text ev s) as [s1|] eqn:E; [| done]. intros H%IH. apply serve_step_tasks in E. tauto.
Qed.

Lemma try_join_Ok ws unix :
  try_join ws unix = Some (Ok tt) →
  (ws = None ∨ ∃ u, ws = Some (Ended (Ok u))) ∧ (unix = None ∨ ∃ u, unix = Some (Ended (Ok u))).
Proof. destruct ws as [[|[?|?|]]|], unix as [[|[?|?|]]|]; try done; intros _; split; eauto. Qed.

Lemma try_join_None ws unix :
  try_join ws unix = None →
  (ws = Some Serving ∧ (unix = None ∨ unix = Some Serving ∨ ∃ u, unix = Some (Ended (Ok u))))
  ∨ (unix = Some Serving ∧ (ws = None ∨ ∃ u, ws = Some (Ended (Ok u)))).
Proof. destruct ws as [[|[?|?|]]|], unix as [[|[?|?|]]|]; try done; intros _; eauto 8. Qed.

(** Winding down: the listeners' own steps after the shutdown, and the web
    server getting done with connections. *)
Definition winds_down (ev : serve_event) : Prop :=
  match ev with WsEnded _ | WsShutdown | WsServed (Ok _) | UnixShutdown => True | _ => False end.

(** What is left to do. *)
Definition work (s : serving) : nat :=
  match sv_ws s with Some Serving => (if sv_graceful s then 1 else 2) + length (sv_open s) | _ => 0 end
  + match sv_unix s with Some Serving => 1 | _ => 0 end.

Lemma filter_out_shorter (c : nat) l :
  c ∈ l → length (List.filter (λ d, negb (bool_decide (d = c))) l) < length l.
Proof.
  assert (∀ k, length (List.filter (λ d, negb (bool_decide (d = c))) k) ≤ length k) as Hle.
  { intros k. induction k as [|d ds IH]; cbn; [lia |]. destruct (negb _); cbn; lia. }
  induction l as [|d l IH]; [by intros ?%not_elem_of_nil |]. intros [->|H]%elem_of_cons; cbn.
  - rewrite bool_decide_eq_true_2 by done. cbn. specialize (Hle l). lia.
  - specialize (IH H). destruct (negb _); cbn; lia.
Qed.

Lemma serve_step_work text ev s s' :
  winds_down ev → serve_step text ev s = Some s' → work s' < work s ∧ sv_shutdown s' = sv_shutdown s.
Proof.
  unfold serve_step. destruct (sv_result s); [done |]. destruct ev as [|c|c| |[?|?|]|r|]; try done; intros _.
  - unfold ws_ended, work. destruct (sv_ws s) as [[]|] eqn:E; try done. destruct (decide _) as [Hc|]; [| done].
    intros [= <-]. cbn. rewrite ?E. pose proof (filter_out_shorter c (sv_open s) Hc). split; [| done].
    destruct (sv_graceful s); lia.
  - unfold ws_shutdown, work. rewrite waits_for_shutdown.
    destruct (sv_ws s) as [[]|] eqn:E; try done. destruct (sv_graceful s); [done |].
    destruct (sv_shutdown s) eqn:Es; [| done]. intros [= <-]. cbn. rewrite ?E. split; [lia | done].
  - unfold ws_served, work. destruct (sv_ws s) as [[]|] eqn:E; try done.
    destruct (sv_graceful s); [| done]. destruct (bool_decide _); [| done]. intros [= <-]. cbn. split; [lia | done].
  - unfold unix_shutdown, work. rewrite waits_for_shutdown. destruct (sv_unix s) as [[]|]; try done.
    destruct (sv_shutdown s) eqn:Es; [| done]. intros [= <-]. cbn. split; [lia | done].
Qed.

Lemma serve_run_work text evs s s' :
  Forall winds_down evs → serve_run text evs s = Some s' →
  length evs + work s' ≤ work s ∧ sv_shutdown s' = sv_shutdown s.
Proof.
  intros Hev. revert s. induction Hev as [|ev evs Hd _ IH]; intros s; cbn [serve_run length].
  - intros [= <-]. split; [lia | done].
  - destruct (serve_step text ev s) as [s1|] eqn:E; [| done]. intros [H1 H2]%IH.
    destruct (serve_step_work _ _ _ _ Hd E) as [Hlt Hs]. split; [lia | congruence].
Qed.

(** After the shutdown some step winds down further until the run has ended. *)
Lemma serve_progress text s :
  sv_result s = None → sv_result s = try_join (sv_ws s) (sv_unix s) → sv_shutdown s = true →
  ∃ ev s', winds_down ev ∧ serve_step text ev s = Some s'.
Proof.
  intros Hn Hr Hs. rewrite Hn in Hr. symmetry in Hr.
  assert (sv_unix s = Some Serving ∨ sv_ws s = Some Serving) as [E|E] by (apply try_join_None in Hr; tauto).
  - exists UnixShutdown. unfold serve_step, unix_shutdown. rewrite Hn, E, waits_for_shutdown, Hs. by eexists.
  - destruct (sv_graceful s) eqn:Eg.
    + destruct (sv_open s) as [|c open] eqn:Eo.
      * exists (WsServed (Ok tt)). unfold serve_step, ws_served. rewrite Hn, E, Eg, Eo. by eexists.
      * exists (WsEnded c). unfold serve_step, ws_ended. rewrite Hn, E, Eo, decide_True by left. by eexists.
    + exists WsShutdown. unfold serve_step, ws_shutdown. rewrite Hn, E, Eg, waits_for_shutdown, Hs. by eexists.
Qed.

(** Winding down does not make a listener fail or panic. *)
Lemma winds_down_ok text ev s s' :
  winds_down ev → serve_step text ev s = Some s' → sv_result s = try_join (sv_ws s) (sv_unix s) →
  sv_result s' = try_join (sv_ws s') (sv_unix s') ∧ ∀ r, sv_result s' = Some r → r = Ok tt.
Proof.
  unfold serve_step. destruct (sv_result s) eqn:En; [done |]. intros Hd Hstep Hr. symmetry in Hr.
  destruct ev as [|c|c| |[?|?|]|r|]; try done.
  - unfold ws_ended in Hstep. destruct (sv_ws s) as [[]|] eqn:E; try done. destruct (decide _); [| done].
    injection Hstep as <-. cbn. rewrite ?E. by split.
  - unfold ws_shutdown in Hstep. destruct (sv_ws s) as [[]|] eqn:E; try done. destruct (sv_graceful s); [done |].
    destruct (wait_for_shutdown _ _); [| done]. injection Hstep as <-. cbn. rewrite ?E. by split.
  - unfold ws_served in Hstep. destruct (sv_ws s) as [[]|] eqn:E; try done.
    destruct (_ && _); [| done]. injection Hstep as <-. cbn. split; [done |]. intros r.
    destruct (sv_unix s) as [[|[?|?|]]|]; cbn in *; try done; by intros [= <-].
  - unfold unix_shutdown in Hstep. destruct (sv_unix s) as [[]|] eqn:E; try done.
    destruct (wait_for_shutdown _ _); [| done]. injection Hstep as <-. cbn. split; [done |]. intros r.
    destruct (sv_ws s) as [[|[?|?|]]|]; cbn in *; try done; by intros [= <-].
Qed.

Lemma serve_run_winds text evs s s' :
  Forall winds_down evs → serve_run text evs s = Some s' → sv_result s = None →
  sv_result s = try_join (sv_ws s) (sv_unix s) →
  sv_result s' = try_join (sv_ws s') (sv_unix s') ∧ ∀ r, sv_result s' = Some r → r = Ok tt.
Proof.
  intros Hev. revert s. induction Hev as [|ev evs Hd _ IH]; intros s; cbn [serve_run].
  - intros [= <-] -> ?. by split.
  - destruct (serve_step text ev s) as [s1|] eqn:E; [| done]. intros Hrun Hn Hr.
    destruct (winds_down_ok _ _ _ _ Hd E Hr) as [Hr1 Hok]. destruct (sv_result s1) as [r|] eqn:E1.
    + destruct evs; [| cbn in Hrun; unfold serve_step in Hrun; by rewrite E1 in Hrun].
      injection Hrun as <-. rewrite E1. by split.
    + apply (IH s1); [done | done | by rewrite E1].
Qed.

Section Lifecycle.
Context {F : Type} `{FS : FileSystem F} `{FSL : !FileSystemLaws F}.

Definition unix_paths (ls : list listener) : list bytes :=
  filter_map (λ l, match l with ListenUnix t => Some t | _ => None end) ls.

Definition unix_path (ls : list listener) : bytes := default [] (head (unix_paths ls)).

(** How the Unix listener starts, when there is one. *)
Definition unix_start (ls : list listener) (f : F) : result unit anyhow :=
  match unix_paths ls with
  | text :: _ => (start_unix text f).1
  | [] => Ok tt
  end.

Lemma serve_start_inv ls (f f0 : F) s0 :
  serve_start ls f = (s0, f0) →
  serve_inv (unix_path ls) (unix_start ls f) [] s0 ∧ (sv_ws s0 = None → sv_unix s0 = None → ls = []).
Proof.
  unfold serve_start, unix_start, unix_path. fold (unix_paths ls).
  set (ws := existsb _ ls). assert (ws = false → unix_paths ls = [] → ls = []) as Hnone.
  { subst ws. unfold unix_paths. destruct ls as [|[a|t] ls]; [done | done | done]. }
  destruct (unix_paths ls) as [|text l] eqn:E.
  - intros [= <- _]. split; [split | by destruct ws; cbn; auto]; cbn; try done.
    + intros e. unfold failure. setoid_rewrite elem_of_nil. destruct ws; naive_solver.
    + by rewrite elem_of_nil.
    + by destruct ws.
  - destruct (start_unix text f) as [r f1]. intros [= <- _]. cbn [fst].
    split; [split | done]; cbn; try done.
    + intros e. unfold failure. setoid_rewrite elem_of_nil. destruct ws, r; unfold try_join; naive_solver.
    + by rewrite elem_of_nil.
    + by destruct ws.
    + by destruct r.
Qed.

(** C38: the life of the listeners.  The run ends well only after the shutdown
    was asked for (or with nothing to serve), and then both listeners have
    ended and the web server is done with every connection.  It ends with an
    error exactly when a listener failed: the Unix listener could not start,
    one of its accepts failed, or the web server returned an error; and the
    error is that one, with its context.  From any point of a run that has
    not ended, once the shutdown is asked for, every schedule of the
    listeners' own steps and of connections ending is finite (at most three
    steps more than there are open connections) and, when it cannot be
    continued, the run has ended well; as long as a connection of the web
    server stays open the run can wait, for there is no deadline.  The Unix
    connections served are those accepted, in order. *)
Theorem agent_run_lifecycle (ls : list listener) (f f0 : F) (s0 s : serving) (evs : list serve_event) :
  serve_start ls f = (s0, f0) → serve_run (unix_path ls) evs s0 = Some s →
  (sv_result s = Some (Ok tt) →
     (ls = [] ∨ ShutdownCompletes ∈ evs) ∧ sv_ws s ≠ Some Serving ∧ sv_unix s ≠ Some Serving
     ∧ (sv_ws s ≠ None → sv_open s = []))
  ∧ (∀ e, sv_result s = Some (Err e) ↔ failure (unix_path ls) (unix_start ls f) evs e)
  ∧ (∀ more s', sv_result s = None → Forall winds_down more →
       serve_run (unix_path ls) (ShutdownCompletes :: more) s = Some s' →
       length more ≤ 3 + length (sv_open s)
       ∧ (sv_result s' = Some (Ok tt) ∨ ∃ ev s'', winds_down ev ∧ serve_step (unix_path ls) ev s' = Some s''))
  ∧ sv_accepted s = accepted evs.
Proof.
  intros [Hi Hnone]%serve_start_inv Hrun. pose proof (serve_run_tasks _ _ _ _ Hrun) as [Hw Hu].
  apply (serve_run_inv _ _ _ [] _ _ Hi) in Hrun as [Hr Hf Hs Hg Ha Htw Htu]. split_and!; [| done | | done].
  - intros Hok. rewrite Hr in Hok. apply try_join_Ok in Hok as [[Ew|[u Ew]] [Eu|[v Eu]]].
    + split_and!; [left; apply Hnone; tauto | by rewrite Ew | by rewrite Eu | by rewrite Ew].
    + split_and!; [right; by apply Hs, (Htu v) | by rewrite Ew | by rewrite Eu | by rewrite Ew].
    + split_and!; [right; apply Hs, (Htw u Ew) | by rewrite Ew | by rewrite Eu | intros _; apply (Htw u Ew)].
    + split_and!; [right; apply Hs, (Htw u Ew) | by rewrite Ew | by rewrite Eu | intros _; apply (Htw u Ew)].
  - intros more s' Hn Hd Hmore. cbn [serve_run] in Hmore. unfold serve_step at 1 in Hmore. rewrite Hn in Hmore.
    set (s1 := MkServing _ _ _ _ _ _ _) in Hmore. rewrite Hn in Hr.
    destruct (serve_run_work _ _ _ _ Hd Hmore) as [Hlen Hsh].
    destruct (serve_run_winds _ _ _ _ Hd Hmore eq_refl Hr) as [Hr' Hok]. split.
    + assert (work s1 ≤ 3 + length (sv_open s)); [| lia]. unfold work, s1. cbn [sv_ws sv_graceful sv_open sv_unix].
      destruct (sv_ws s) as [[]|], (sv_graceful s), (sv_unix s) as [[]|]; lia.
    + destruct (sv_result s') as [r|] eqn:E; [left; by rewrite (Hok r eq_refl) |]. right.
      apply serve_progress; [done | by rewrite E | by rewrite Hsh].
Qed.

(** The socket of the agent.  Starting the Unix listener touches one
    entry of the file system and adds directories at most: whatever file was
    at its path is gone, a directory there is kept and stops the start, and
    binding is never refused because of an entry that was left behind.  The
    lines a session writes are read back as the texts of its responses when
    they hold no line break. *)
Lemma agent_unix_socket {R : Type} (text : bytes) (f f1 f2 : F) (r1 r2 : result unit anyhow)
    (render : R → result bytes bytes) (rs : list R) (texts : list bytes) :
  prepare_unix_socket_path text f = (r1, f1) → start_unix text f = (r2, f2) →
  Forall2 (λ r t, render r = Ok t) rs texts → Forall (λ t, x0a ∉ t ∧ no_cr t) texts →
  (r1 = Ok tt → entry (components text) f1 = None ∧ only_at (components text) f f1)
  ∧ (entry (components text) f = Some Directory → r1 ≠ Ok tt)
  ∧ (r2 = Ok tt → entry (components text) f2 = Some Socket ∧ only_at (components text) f f2)
  ∧ ∃ written, write_lines render rs [] = (Ok tt, written) ∧ read_lines [] written = texts.
Proof.
  intros H1 H2 Hrs Ht. split_and!.
  - intros ->. apply prepare_unix_socket_path_Ok in H1. tauto.
  - intros Hd ->. apply prepare_unix_socket_path_Ok in H1. tauto.
  - intros ->. apply start_unix_Ok in H2. tauto.
  - eexists. split; [by apply write_lines_spec |]. cbn [app]. by apply read_lines_texts.
Qed.
End Lifecycle.

(** ** Witnesses *)

Module ServeWitness.
(** A file system as the function of its entries. *)
Definition files : Type := path → option file_kind.

Definition put (p : path) (k : option file_kind) (f : files) : files := λ q, if decide (q = p) then k else f q.

#[local] Instance toy_fs : FileSystem files := {|
  entry p f := f p;
  create_dir_all d f :=
    match f d with
    | None => (Ok tt, put d (Some Directory) f)
    | Some Directory => (Ok tt, f)
    | Some _ => (Err (lit "File exists"), f)
    end;
  remove_file p f :=
    match f p with
    | None => (Err NotFound, f)
    | Some Directory => (Err (OtherIo (lit "Is a directory")), f)
    | Some _ => (Ok tt, put p None f)
    end;
  bind_unix p f :=
    match f p with
    | None => (Ok tt, put p (Some Socket) f)
    | Some _ => (Err (lit "Address already in use"), f)
    end
|}.

Lemma put_same p k f : put p k f p = k.
Proof. unfold put. by rewrite decide_True. Qed.

Lemma put_other p q k f : q ≠ p → put p k f q = f q.
Proof. intros H. unfold put. by rewrite decide_False. Qed.

#[local] Instance toy_fs_laws : FileSystemLaws files.
Proof.
  split; cbn [entry create_dir_all remove_file bind_unix toy_fs].
  - intros d f r f' p k H Hp. destruct (f d) as [[]|] eqn:Ed; injection H as <- <-; try done.
    rewrite put_other; [done | congruence].
  - intros d f r f' p k H Hp. destruct (f d) as [[]|] eqn:Ed; injection H as <- <-; try by rewrite Hp.
    unfold put. case_decide; [by intros [= <-] | by rewrite Hp].
  - intros p f f' H. destruct (f p) as [[]|] eqn:Ep; try done; injection H as <-;
      (split; [done |]); (split; [apply put_same | intros q; apply put_other]).
  - intros p f f' H. destruct (f p) as [[]|] eqn:Ep; try done. by injection H as <-.
  - intros p f t f' H. destruct (f p) as [[]|] eqn:Ep; try done. by injection H as _ <-.
  - intros p f k ->. split; [done | by eexists].
  - intros p f f' H. destruct (f p) as [[]|] eqn:Ep; try done. injection H as <-.
    split; [apply put_same | intros q; apply put_other].
Qed.

Definition sock : bytes := lit "/run//enlace/./agent.sock".

(** A file was left at the path of the socket. *)
Definition left_over : files := put (components (lit "/run/enlace/agent.sock")) (Some RegularFile) (λ _, None).

Lemma agent_unix_socket_witness :
  entry (components sock) (start_unix sock left_over).2 = Some Socket
  ∧ read_lines [] (write_lines (λ n : bytes, Ok n) [lit "{}"; lit "[1]"] []).2 = [lit "{}"; lit "[1]"].
Proof.
  destruct (agent_unix_socket sock left_over _ _ _ _ (λ n : bytes, Ok n) [lit "{}"; lit "[1]"] [lit "{}"; lit "[1]"]
              (surjective_pairing _) (surjective_pairing _)) as (_ & _ & H & w & Hw & Hr).
  - repeat constructor.
  - repeat constructor; try (intros Hx; vm_compute in Hx; discriminate Hx);
      repeat (apply not_elem_of_cons; split; [discriminate |]); apply not_elem_of_nil.
  - assert ((start_unix sock left_over).1 = Ok tt) as Hs by vm_refl. destruct (H Hs) as [Hsock _].
    split; [exact Hsock |]. rewrite Hw. exact Hr.
Defined.

Definition both : list listener := [ListenWs (V4 (Ipv4 x7f x00 x00 x01) 8080); ListenUnix sock].

Definition refused : anyhow := [lit "failed to accept on " ++ sock; lit "EMFILE"].

(** An accept fails, with a connection of the web server open. *)
Definition stopped : serving :=
  MkServing false false (Some Serving) [7] (Some (Ended (Err refused))) [4] (Some (Err refused)).

Lemma agent_run_lifecycle_witness :
  failure (unix_path both) (unix_start both left_over)
    [UnixAccepted (Ok 4); WsConnected 7; UnixAccepted (Err (lit "EMFILE"))] refused
  ∧ (∃ ev s', winds_down ev ∧ serve_step (unix_path both) ev
       (MkServing true true (Some Serving) [7] (Some (Ended (Ok tt))) [4] None) = Some s').
Proof.
  split.
  - refine (proj1 (proj1 (proj2 (agent_run_lifecycle both left_over (serve_start both left_over).2
      (serve_start both left_over).1 stopped
      [UnixAccepted (Ok 4); WsConnected 7; UnixAccepted (Err (lit "EMFILE"))] _ _)) refused) _).
    + apply surjective_pairing.
    + vm_refl.
    + reflexivity.
  - destruct (agent_run_lifecycle both left_over (serve_start both left_over).2 (serve_start both left_over).1
      (MkServing false false (Some Serving) [7] (Some Serving) [4] None) [UnixAccepted (Ok 4); WsConnected 7])
      as (_ & _ & H & _).
    + apply surjective_pairing.
    + vm_refl.
    + destruct (H [UnixShutdown; WsShutdown]
        (MkServing true true (Some Serving) [7] (Some (Ended (Ok tt))) [4] None) eq_refl) as [_ [Hr|Hp]].
      * repeat constructor.
      * vm_refl.
      * discriminate Hr.
      * exact Hp.
Defined.
End ServeWitness.
