(* ===== verification/IrohEcho.v ===== *)
(** * packages/iroh-lite/native/iroh-echo: the native peer of the gossip tests

    The harness runs the native side of the TypeScript tests: an echo server
    and client, gossip peers, and [gossip-vectors], which drives the states
    of the gossip protocol by hand and prints the frames the other side must
    produce and understand.  [iroh], [iroh_gossip] and [postcard] are
    third-party: the protocol state, its [handle] and the encodings are
    parameters, and so is the world the commands run in.  The clock is read
    before every [handle]; the model counts the readings. *)

From S2P Require Import Prelude Bytes Crypto Kdf Net Guard Errors Config PeerCard State Pkarr Iroh AgentConfig.

(** ** Hexadecimal text *)

Definition HEX : bytes := lit "0123456789abcdef".

Definition hex (b : bytes) : bytes :=
  concat (map (λ x, let n := Byte.to_N x in
    [nth (N.to_nat (N.shiftr n 4)) HEX x00; nth (N.to_nat (N.land n 15)) HEX x00]) b).

(** [str::is_char_boundary]: not before a continuation byte. *)
Definition is_char_boundary (s : bytes) (i : nat) : bool :=
  match drop i s with
  | [] => i =? length s
  | b :: _ => negb (in_range 128 191 b)
  end.

(** [&s[from..to]] of a string slice, which panics off a boundary. *)
Definition str_slice {E} (s : bytes) (from to : nat) : result bytes E :=
  if (is_char_boundary s from && is_char_boundary s to && (from <=? to))%bool then Ok (take (to - from) (drop from s))
  else Panic.

Inductive echo_error : Type :=
| OddHex
| NotSixtyFour
| HexDigit (digits : bytes)
| InvalidEndpointId
| VarNotPresent (var : bytes)
| VarNotUnicode (var : bytes)
| RelayUrlParse
| EchoMismatch
| ReadTooLong
| TopicClosed
| UnexpectedPayload
| Elapsed
| LibraryError (text : bytes).

Definition parse_hex_byte (digits : bytes) : result Byte.byte echo_error :=
  let! n := ok_or (from_str_radix 16 255 digits) (HexDigit digits) in Ok (byte_of_N n).

(** The loop over the offsets [offset], [offset + 2], ... of [n] pairs. *)
Fixpoint parse_hex_pairs (s : bytes) (offset n : nat) : result bytes echo_error :=
  match n with
  | O => Ok []
  | S n =>
      let! digits := str_slice s offset (offset + 2) in
      let! b := parse_hex_byte digits in
      let! bs := parse_hex_pairs s (offset + 2) n in
      Ok (b :: bs)
  end.

Definition parse_hex (s : bytes) : result bytes echo_error :=
  let! _ := guard_err (negb (Nat.even (length s))) OddHex in
  parse_hex_pairs s 0 (length s / 2).

Definition parse_32_byte_hex (s : bytes) : result bytes echo_error :=
  let! _ := guard_err (negb (length s =? 64)) NotSixtyFour in
  parse_hex_pairs s 0 32.

(** ** The gossip protocol *)

(** [Command], [Scope], [InEvent] and [OutEvent] of [iroh_gossip::proto], with
    the constructors the harness uses. *)
Inductive Scope : Type := Scope_Swarm | Scope_Neighbors.

Inductive Command (peer : Type) : Type :=
| Command_Join (peers : list peer)
| Command_Broadcast (payload : bytes) (scope : Scope)
| Command_Quit.
Arguments Command_Join {_} _.
Arguments Command_Broadcast {_} _ _.
Arguments Command_Quit {_}.

Inductive InEvent (peer message timer data : Type) : Type :=
| RecvMessage (from : peer) (m : message)
| InCommand (topic : bytes) (c : Command peer)
| TimerExpired (t : timer)
| UpdatePeerData (d : data).
Arguments RecvMessage {_ _ _ _} _ _.
Arguments InCommand {_ _ _ _} _ _.
Arguments TimerExpired {_ _ _ _} _.
Arguments UpdatePeerData {_ _ _ _} _.

Inductive OutEvent (peer message timer other : Type) : Type :=
| SendMessage (to : peer) (m : message)
| ScheduleTimer (delay : N) (t : timer)
| OutOther (o : other).
Arguments SendMessage {_ _ _ _} _ _.
Arguments ScheduleTimer {_ _ _ _} _ _.
Arguments OutOther {_ _ _ _} _.

Record AddrInfo {url : Type} : Type := MkAddrInfo { ai_relay_url : option url; ai_direct : list SocketAddr }.
Arguments AddrInfo : clear implicits.
Arguments MkAddrInfo {_} _ _.

Class GossipLib `{UL : UrlLib} `{IL : IrohLib} := {
  GState : Type;
  Message : Type;
  Timer : Type;
  OtherOut : Type;
  Instant : Type;
  PeerData : Type;
  peer_data_default : PeerData;
  peer_data_new : bytes → PeerData;
  peer_data_bytes : PeerData → bytes;
  (** [State::new] with the default configuration and a seeded generator. *)
  proto_state_new : EndpointId → PeerData → N → GState;
  proto_me : GState → EndpointId;
  (** [State::handle]: the next state and the events it drains. *)
  proto_handle : GState → InEvent EndpointId Message Timer PeerData → Instant →
                 GState * list (OutEvent EndpointId Message Timer OtherOut);
  (** [format!("{:?}")]. *)
  message_debug : Message → bytes;
  timer_debug : Timer → bytes;
  (** [postcard::to_stdvec]. *)
  postcard_topic : bytes → result bytes bytes;
  postcard_message : Message → result bytes bytes;
  postcard_addr_info : AddrInfo Url → result bytes bytes;
  GOSSIP_ALPN : bytes
}.

Section GossipVectors.
Context `{UL : UrlLib} `{IL : IrohLib} `{GL : !GossipLib}.
Context (instants : nat → Instant).

Notation out_event := (OutEvent EndpointId Message Timer OtherOut).
Notation in_event := (InEvent EndpointId Message Timer PeerData).

Inductive gossip_error : Type :=
| MissingMessage (label : bytes) (events : list out_event)
| MissingFirst (label : bytes)
| MissingTimer (label : bytes) (events : list out_event)
| NoTopicPrefix
| FrameTooLong
| PostcardError (text : bytes)
| ParseFailed (text : bytes).

(** The clock readings so far and the lines printed so far. *)
Record world : Type := MkWorld { ticks : nat; printed : list bytes }.

Definition G (A : Type) : Type := world → result A gossip_error * world.

Definition gret {A} (r : result A gossip_error) : G A := λ w, (r, w).

Definition gbind {A B} (c : G A) (k : A → G B) : G B := λ w,
  match c w with
  | (Ok a, w) => k a w
  | (Err e, w) => (Err e, w)
  | (Panic, w) => (Panic, w)
  end.

Notation "'let*' x ':=' c 'in' k" := (gbind c (λ x, k))
  (at level 200, x pattern, c at level 200, k at level 200).

Definition println (line : bytes) : G unit := λ w, (Ok tt, MkWorld (ticks w) (printed w ++ [line])).

(** [state.handle(event, Instant::now(), None)]. *)
Definition handle (s : GState) (e : in_event) : G (GState * list out_event) := λ w,
  (Ok (proto_handle s e (instants (ticks w))), MkWorld (Datatypes.S (ticks w)) (printed w)).

Definition TOPIC_ID : bytes := map byte_of_N (map N.of_nat (seq 16 32)).
Definition GOSSIP_VECTORS_ALPN : bytes := lit "/iroh-gossip/1".
Definition PAYLOAD : bytes := lit "hello gossip".
Definition REPAIR_PAYLOAD : bytes := lit "repair gossip".
Definition RELAY_URL : bytes := lit "https://relay.example.com/".

Definition peer_from_seed (seed : Byte.byte) : EndpointId := iroh_public (replicate 32 seed).

(** [str::contains]. *)
Fixpoint contains (needle s : bytes) : bool :=
  bool_decide (take (length needle) s = needle) || match s with [] => false | _ :: s => contains needle s end.

(** The loop of the [require_*] functions: the first event [f] accepts, and
    the events passed over. *)
Fixpoint first_event {A} (f : out_event → option A) (events out : list out_event) : result A (list out_event) :=
  match out with
  | [] => Err events
  | ev :: out => match f ev with Some a => Ok a | None => first_event f (events ++ [ev]) out end
  end.

Definition require_send_message (out : list out_event) (peer : EndpointId) (label : bytes)
    : result Message gossip_error :=
  map_err (MissingMessage label)
    (first_event (λ ev, match ev with
       | SendMessage to m => if decide (to = peer) then Some m else None
       | _ => None
       end) [] out).

Definition require_send_message_named (out : list out_event) (peer : EndpointId) (label name : bytes)
    : result Message gossip_error :=
  map_err (MissingMessage label)
    (first_event (λ ev, match ev with
       | SendMessage to m => if bool_decide (to = peer) && contains name (message_debug m) then Some m else None
       | _ => None
       end) [] out).

Definition require_first_send_message (out : list out_event) (label : bytes) : result Message gossip_error :=
  map_err (λ _, MissingFirst label)
    (first_event (λ ev, match ev with SendMessage _ m => Some m | _ => None end) [] out).

Definition require_schedule_timer_named (out : list out_event) (label name : bytes) : result Timer gossip_error :=
  map_err (MissingTimer label)
    (first_event (λ ev, match ev with
       | ScheduleTimer _ t => if contains name (timer_debug t) then Some t else None
       | _ => None
       end) [] out).

(** [full.starts_with(topic)] and the rest. *)
Definition topic_message_payload (m : Message) (topic : bytes) : result bytes gossip_error :=
  let! full := map_err PostcardError (postcard_message m) in
  ok_or (strip_prefix topic full) NoTopicPrefix.

Definition length_prefixed (payload : bytes) : result bytes gossip_error :=
  let! _ := guard_err (4294967295 <? N.of_nat (length payload))%N FrameTooLong in
  Ok (to_be_bytes 4 (N.of_nat (length payload)) ++ payload).

(** ** States *)

Definition state_with_peer_data (peer : EndpointId) (d : PeerData) (seed : N) : GState :=
  proto_state_new peer d seed.

Definition state (peer : EndpointId) (seed : N) : GState := state_with_peer_data peer peer_data_default seed.

Definition initialized_state (peer : EndpointId) (seed : N) (topic : bytes) : G GState :=
  let* (s, _) := handle (state peer seed) (InCommand topic (Command_Join [])) in gret (Ok s).

Definition receive (s : GState) (from : EndpointId) (m : Message) (label : bytes) : G (GState * Message) :=
  let* (s, out) := handle s (RecvMessage from m) in
  let* m := gret (require_first_send_message out label) in
  gret (Ok (s, m)).

(** ** Messages *)

Definition join_message_with_peer_data (joiner bootstrap : EndpointId) (topic : bytes) (d : PeerData) : G Message :=
  let* (_, out) := handle (state_with_peer_data joiner d 1) (InCommand topic (Command_Join [bootstrap])) in
  gret (require_send_message out bootstrap (lit "join")).

Definition join_message (joiner bootstrap : EndpointId) (topic : bytes) : G Message :=
  let* (_, out) := handle (state joiner 1) (InCommand topic (Command_Join [bootstrap])) in
  gret (require_send_message out bootstrap (lit "join")).

Definition neighbor_message (receiver joiner : EndpointId) (topic : bytes) : G Message :=
  let* s := initialized_state receiver 60 topic in
  let* join := join_message joiner receiver topic in
  let* (_, m) := receive s joiner join (lit "neighbor") in
  gret (Ok m).

Definition forward_join_message (receiver active_peer joiner : EndpointId) (topic : bytes) : G Message :=
  let* s := initialized_state receiver 70 topic in
  let* active_join := join_message active_peer receiver topic in
  let* (s, _) := receive s active_peer active_join (lit "active neighbor") in
  let* join := join_message joiner receiver topic in
  let* (_, out) := handle s (RecvMessage joiner join) in
  gret (require_send_message_named out active_peer (lit "forward join") (lit "ForwardJoin")).

Definition shuffle_message (sender receiver : EndpointId) (topic : bytes) : G Message :=
  let* (s, _) := handle (state sender 80) (InCommand topic (Command_Join [])) in
  let* (s, out) := handle s (UpdatePeerData peer_data_default) in
  let* timer := gret (require_schedule_timer_named out (lit "shuffle timer") (lit "DoShuffle")) in
  let* join := join_message receiver sender topic in
  let* (s, _) := receive s receiver join (lit "shuffle neighbor") in
  let* (_, out) := handle s (TimerExpired timer) in
  gret (require_send_message_named out receiver (lit "shuffle") (lit "Shuffle")).

Definition shuffle_reply_message (sender receiver : EndpointId) (topic : bytes) : G Message :=
  let* shuffle := shuffle_message sender receiver topic in
  let* s := initialized_state receiver 90 topic in
  let* (_, out) := handle s (RecvMessage sender shuffle) in
  gret (require_send_message_named out sender (lit "shuffle reply") (lit "ShuffleReply")).

Definition disconnect_message (sender receiver : EndpointId) (topic : bytes) : G Message :=
  let* s := initialized_state sender 100 topic in
  let* join := join_message receiver sender topic in
  let* (s, _) := receive s receiver join (lit "disconnect neighbor") in
  let* (_, out) := handle s (InCommand topic Command_Quit) in
  gret (require_send_message_named out receiver (lit "disconnect") (lit "Disconnect")).

Definition broadcast_message (peer_a peer_b : EndpointId) (topic payload : bytes) : G Message :=
  let* (state_a, _) := handle (state peer_a 10) (InCommand topic (Command_Join [])) in
  let* (state_b, out) := handle (state peer_b 20) (InCommand topic (Command_Join [peer_a])) in
  let* join := gret (require_send_message out peer_a (lit "join")) in
  let* (_, neighbor) := receive state_a peer_b join (lit "neighbor") in
  let* (state_b, _) := receive state_b peer_a neighbor (lit "neighbor reply") in
  let* (_, out) := handle state_b (InCommand topic (Command_Broadcast payload Scope_Swarm)) in
  gret (require_send_message out peer_a (lit "broadcast")).

Definition prune_message (sender receiver other : EndpointId) (topic : bytes) : G Message :=
  let* gossip := broadcast_message sender receiver topic PAYLOAD in
  let* s := initialized_state other 30 topic in
  let* (s, _) := handle s (RecvMessage sender gossip) in
  let* (_, out) := handle s (RecvMessage sender gossip) in
  gret (require_send_message out sender (lit "prune")).

Definition make_lazy_peer (s : GState) (lazy_peer other : EndpointId) (topic : bytes) : G GState :=
  let* prune := prune_message lazy_peer other (proto_me s) topic in
  let* (s, _) := handle s (RecvMessage lazy_peer prune) in
  gret (Ok s).

Definition ihave_message (lazy_peer receiver other : EndpointId) (topic : bytes) : G Message :=
  let* s := initialized_state receiver 40 topic in
  let* s := make_lazy_peer s lazy_peer other topic in
  let* (s, events) := handle s (InCommand topic (Command_Broadcast REPAIR_PAYLOAD Scope_Swarm)) in
  let* timer := gret (require_schedule_timer_named events (lit "ihave dispatch") (lit "DispatchLazyPush")) in
  let* (_, out) := handle s (TimerExpired timer) in
  gret (require_send_message out lazy_peer (lit "ihave")).

Definition graft_message (ihave_sender receiver other : EndpointId) (topic : bytes) : G Message :=
  let* ihave := ihave_message ihave_sender receiver other topic in
  let* s := initialized_state other 50 topic in
  let* (s, out) := handle s (RecvMessage ihave_sender ihave) in
  let* timer := gret (require_schedule_timer_named out (lit "graft send") (lit "SendGraft")) in
  let* (_, events) := handle s (TimerExpired timer) in
  gret (require_send_message events ihave_sender (lit "graft")).

(** ** Frames and peer data *)

Record BroadcastFrames : Type := MkBroadcastFrames {
  bf_topic_id : bytes;
  stream_header_frame : bytes;
  broadcast_message_frame : bytes;
  bf_payload : bytes
}.

Definition broadcast_frames : G BroadcastFrames :=
  let peer_a := peer_from_seed x01 in
  let peer_b := peer_from_seed x02 in
  let topic := TOPIC_ID in
  let* broadcast := broadcast_message peer_a peer_b topic PAYLOAD in
  let* stream_header := gret (map_err PostcardError (postcard_topic topic)) in
  let* header := gret (length_prefixed stream_header) in
  let* body := gret (topic_message_payload broadcast topic) in
  let* frame := gret (length_prefixed body) in
  gret (Ok (MkBroadcastFrames topic header frame PAYLOAD)).

Definition relay_peer_data : result PeerData gossip_error :=
  let! relay_url := ok_or (url_parse RELAY_URL) (ParseFailed RELAY_URL) in
  rmap peer_data_new (map_err PostcardError (postcard_addr_info (MkAddrInfo (Some relay_url) []))).

Definition direct_peer_data : result PeerData gossip_error :=
  let! addr := ok_or (parse_SocketAddr (lit "127.0.0.1:12345")) (ParseFailed (lit "127.0.0.1:12345")) in
  rmap peer_data_new (map_err PostcardError (postcard_addr_info (MkAddrInfo None [addr]))).

(** ** The vectors *)

Definition vector_line (key value : bytes) : bytes := lit "IROH_GOSSIP_VECTOR " ++ key ++ lit "=" ++ value.

Definition print_frame (key : bytes) (m : Message) (topic : bytes) : G unit :=
  let* body := gret (topic_message_payload m topic) in
  let* frame := gret (length_prefixed body) in
  println (vector_line key (hex frame)).

(** What the first half of [run] collects. *)
Record VectorMessages : Type := MkVectorMessages {
  vm_frames : BroadcastFrames;
  vm_join : Message;
  vm_neighbor : Message;
  vm_forward_join : Message;
  vm_shuffle : Message;
  vm_shuffle_reply : Message;
  vm_disconnect : Message;
  vm_prune : Message;
  vm_ihave : Message;
  vm_graft : Message;
  vm_empty_addr_info : bytes;
  vm_relay_peer_data : PeerData;
  vm_direct_peer_data : PeerData;
  vm_relay_join : Message
}.

Definition vector_messages : G VectorMessages :=
  let* frames := broadcast_frames in
  let peer_a := peer_from_seed x01 in
  let peer_b := peer_from_seed x02 in
  let peer_c := peer_from_seed x03 in
  let peer_d := peer_from_seed x04 in
  let topic := bf_topic_id frames in
  let* join := join_message peer_b peer_a topic in
  let* neighbor := neighbor_message peer_a peer_b topic in
  let* forward_join := forward_join_message peer_a peer_b peer_c topic in
  let* shuffle := shuffle_message peer_a peer_b topic in
  let* shuffle_reply := shuffle_reply_message peer_a peer_b topic in
  let* disconnect := disconnect_message peer_a peer_d topic in
  let* prune := prune_message peer_a peer_b peer_c topic in
  let* ihave := ihave_message peer_a peer_b peer_c topic in
  let* graft := graft_message peer_a peer_b peer_c topic in
  let* empty_addr_info := gret (map_err PostcardError (postcard_addr_info (MkAddrInfo None []))) in
  let* relay_data := gret relay_peer_data in
  let* direct_data := gret direct_peer_data in
  let* relay_join := join_message_with_peer_data peer_b peer_a topic relay_data in
  gret (Ok (MkVectorMessages frames join neighbor forward_join shuffle shuffle_reply disconnect prune ihave graft
              empty_addr_info relay_data direct_data relay_join)).

(** The second half: the lines, one after the other. *)
Definition print_vectors (v : VectorMessages) : G unit :=
  let frames := vm_frames v in
  let topic := bf_topic_id frames in
  let* _ := println (vector_line (lit "alpn_hex") (hex GOSSIP_VECTORS_ALPN)) in
  let* _ := println (vector_line (lit "topic_id_hex") (hex topic)) in
  let* _ := println (vector_line (lit "peer_a_hex") (hex (EndpointId_as_bytes (peer_from_seed x01)))) in
  let* _ := println (vector_line (lit "peer_b_hex") (hex (EndpointId_as_bytes (peer_from_seed x02)))) in
  let* _ := println (vector_line (lit "stream_header_frame_hex") (hex (stream_header_frame frames))) in
  let* _ := print_frame (lit "join_message_frame_hex") (vm_join v) topic in
  let* _ := print_frame (lit "relay_join_message_frame_hex") (vm_relay_join v) topic in
  let* _ := print_frame (lit "neighbor_message_frame_hex") (vm_neighbor v) topic in
  let* _ := print_frame (lit "forward_join_message_frame_hex") (vm_forward_join v) topic in
  let* _ := print_frame (lit "shuffle_message_frame_hex") (vm_shuffle v) topic in
  let* _ := print_frame (lit "shuffle_reply_message_frame_hex") (vm_shuffle_reply v) topic in
  let* _ := print_frame (lit "disconnect_message_frame_hex") (vm_disconnect v) topic in
  let* _ := println (vector_line (lit "broadcast_message_frame_hex") (hex (broadcast_message_frame frames))) in
  let* _ := print_frame (lit "prune_message_frame_hex") (vm_prune v) topic in
  let* _ := print_frame (lit "ihave_message_frame_hex") (vm_ihave v) topic in
  let* _ := print_frame (lit "graft_message_frame_hex") (vm_graft v) topic in
  let* _ := println (vector_line (lit "broadcast_payload_hex") (hex (bf_payload frames))) in
  let* _ := println (vector_line (lit "repair_payload_hex") (hex REPAIR_PAYLOAD)) in
  let* _ := println (vector_line (lit "peer_data_empty_hex") (hex (peer_data_bytes peer_data_default))) in
  let* _ := println (vector_line (lit "addr_info_empty_hex") (hex (vm_empty_addr_info v))) in
  let* _ := println (vector_line (lit "relay_url") RELAY_URL) in
  let* _ := println (vector_line (lit "relay_peer_data_hex") (hex (peer_data_bytes (vm_relay_peer_data v)))) in
  let* _ := println (vector_line (lit "direct_addr") (lit "127.0.0.1:12345")) in
  println (vector_line (lit "direct_peer_data_hex") (hex (peer_data_bytes (vm_direct_peer_data v)))).

Definition gossip_vectors_run : G unit :=
  let* v := vector_messages in print_vectors v.
End GossipVectors.

(** ** The commands *)

Definition ECHO_ALPN : bytes := lit "/iroh/echo/1".
Definition DEFAULT_GOSSIP_PAYLOAD : bytes := lit "hello gossip".
Definition DEFAULT_GOSSIP_TOPIC_ID : bytes := map byte_of_N (map N.of_nat (seq 16 32)).

Inductive VarError : Type := NotPresent | NotUnicode.

(** How a command ends, when it does not fail: it returns, or it waits for
    ever. *)
Inductive ending : Type := Returned | Pending.

Section Harness.
Context `{UL : UrlLib} `{IL : IrohLib} `{GL : !GossipLib}.

Inductive GossipEvent : Type :=
| GossipEvent_NeighborUp (peer : EndpointId)
| GossipEvent_NeighborDown (peer : EndpointId)
| GossipEvent_Received (delivered_from : EndpointId) (content : bytes)
| GossipEvent_Lagged.

(** What a command does to the outside world. *)
Inductive action : Type :=
| Printed (line : bytes)
| Flush
| Bind (relay : Url) (alpns : list bytes)
| Online
| Connect (addr : EndpointAddr) (alpn : bytes)
| OpenBi
| OpenUni
| WriteAll (b : bytes)
| Finish
| ReadToEnd (limit : nat)
| Stopped
| CloseConnection
| CloseEndpoint
| SpawnGossip
| AddLookup (addr : EndpointAddr)
| SpawnRouter (alpn : bytes)
| Subscribe (topic : bytes) (peers : list EndpointId)
| SubscribeAndJoin (topic : bytes) (peers : list EndpointId)
| SpawnPrinter
| Broadcast (b : bytes)
| ReadByte
| ShutdownRouter.

Inductive harness_failure : Type :=
| EchoFailed (e : echo_error)
| VectorsFailed (e : gossip_error).

(** The outside world: the environment, whether a library call succeeds, the
    id of the endpoint, what the other side of a stream sends back for what
    was written, the events of the topic within the ten seconds a command
    waits for them, the lines of standard input, and the clock. *)
Record Host : Type := MkHost {
  h_var : bytes → result bytes VarError;
  h_call : action → result unit bytes;
  h_id : EndpointId;
  h_response : bytes → bytes;
  h_events : list (result (option GossipEvent) bytes);
  h_lines : list (result bytes bytes);
  h_instants : nat → Instant
}.

Definition H (A : Type) : Type := list action → result A harness_failure * list action.

Definition hret {A} (r : result A harness_failure) : H A := λ log, (r, log).

Definition hbind {A B} (c : H A) (k : A → H B) : H B := λ log,
  match c log with
  | (Ok a, log) => k a log
  | (Err e, log) => (Err e, log)
  | (Panic, log) => (Panic, log)
  end.

Notation "'let*' x ':=' c 'in' k" := (hbind c (λ x, k))
  (at level 200, x pattern, c at level 200, k at level 200).

Definition echo {A} (r : result A echo_error) : H A := hret (map_err EchoFailed r).

Definition tell (a : action) : H unit := λ log, (Ok tt, log ++ [a]).

Section WithHost.
Context (h : Host).

(** A library call that may fail. *)
Definition call (a : action) : H unit := λ log,
  (map_err (λ t, EchoFailed (LibraryError t)) (h_call h a), log ++ [a]).

Definition env_var (var : bytes) : result bytes echo_error :=
  match h_var h var with
  | Ok v => Ok v
  | Err NotPresent => Err (VarNotPresent var)
  | Err NotUnicode => Err (VarNotUnicode var)
  | Panic => Panic
  end.

(** A variable with a default. *)
Definition optional_var {A} (var : bytes) (present : bytes → result A echo_error) (absent : A)
    : result A echo_error :=
  match h_var h var with
  | Ok v => present v
  | Err NotPresent => Ok absent
  | Err NotUnicode => Err (VarNotUnicode var)
  | Panic => Panic
  end.

Definition parse_endpoint_id_hex (s : bytes) : result EndpointId echo_error :=
  let! b := parse_32_byte_hex s in ok_or (EndpointId_from_bytes b) InvalidEndpointId.

Definition gossip_topic_id : result bytes echo_error :=
  optional_var (lit "IROH_GOSSIP_TOPIC_ID_HEX") parse_32_byte_hex DEFAULT_GOSSIP_TOPIC_ID.

Definition gossip_payload : result bytes echo_error :=
  optional_var (lit "IROH_GOSSIP_PAYLOAD_HEX") parse_hex DEFAULT_GOSSIP_PAYLOAD.

Definition expected_gossip_payload : result (option bytes) echo_error :=
  optional_var (lit "IROH_GOSSIP_EXPECT_PAYLOAD_HEX") (λ s, rmap Some (parse_hex s)) None.

Definition relay_url : result Url echo_error :=
  let! v := env_var (lit "IROH_RELAY_URL") in ok_or (url_parse v) RelayUrlParse.

Definition server_endpoint_id : result EndpointId echo_error :=
  let! v := env_var (lit "IROH_SERVER_ENDPOINT_ID_HEX") in parse_endpoint_id_hex v.

Definition bootstrap_addr (id : EndpointId) (relay : Url) : EndpointAddr :=
  MkEndpointAddr id [TransportAddr_Relay relay].

Definition ready_line (prefix : bytes) (fields : list (bytes * bytes)) : bytes :=
  prefix ++ concat (map (λ '(k, v), lit " " ++ k ++ lit "=" ++ v) fields).

Definition id_field : bytes * bytes := (lit "endpoint_id_hex", hex (EndpointId_as_bytes (h_id h))).

Definition run_server : H ending :=
  let* relay := echo relay_url in
  let* _ := call (Bind relay [ECHO_ALPN]) in
  let* _ := tell Online in
  let* _ := tell (SpawnRouter ECHO_ALPN) in
  let* _ := tell (Printed (ready_line (lit "IROH_NATIVE_ECHO_READY") [id_field])) in
  hret (Ok Pending).

(** [Echo::accept]: what it sends back for what it reads. *)
Definition Echo_accept (request : bytes) : bytes := request.

(** [read_to_end(limit)]. *)
Definition read_to_end (limit : nat) (request : bytes) : H bytes :=
  let* _ := call (ReadToEnd limit) in
  let r := h_response h request in
  echo (if limit <? length r then Err ReadTooLong else Ok r).

Definition run_client : H ending :=
  let* relay := echo relay_url in
  let* server := echo server_endpoint_id in
  let* payload := echo (let! v := env_var (lit "IROH_ECHO_PAYLOAD_HEX") in parse_hex v) in
  let* _ := call (Bind relay []) in
  let* _ := tell Online in
  let* _ := call (Connect (bootstrap_addr server relay) ECHO_ALPN) in
  let* _ := call OpenBi in
  let* _ := call (WriteAll payload) in
  let* _ := call Finish in
  let* received := read_to_end (length payload) payload in
  let* _ := echo (guard_err (negb (bool_decide (received = payload))) EchoMismatch) in
  let* _ := tell CloseConnection in
  let* _ := tell CloseEndpoint in
  let* _ := tell (Printed (ready_line (lit "IROH_NATIVE_ECHO_CLIENT_OK") [(lit "payload_hex", hex received)])) in
  hret (Ok Returned).

(** ** Gossip *)

Definition gossip_endpoint (relay : Url) : H unit :=
  let* _ := call (Bind relay [GOSSIP_ALPN]) in tell Online.

Definition spawn_gossip_router (bootstrap : option EndpointAddr) : H unit :=
  let* _ := tell SpawnGossip in
  let* _ := match bootstrap with Some a => call (AddLookup a) | None => hret (Ok tt) end in
  tell (SpawnRouter GOSSIP_ALPN).

Definition gossip_event_line (prefix : bytes) (ev : GossipEvent) : bytes :=
  match ev with
  | GossipEvent_NeighborUp p =>
      ready_line prefix [(lit "type", lit "neighbor-up"); (lit "peer_hex", hex (EndpointId_as_bytes p))]
  | GossipEvent_NeighborDown p =>
      ready_line prefix [(lit "type", lit "neighbor-down"); (lit "peer_hex", hex (EndpointId_as_bytes p))]
  | GossipEvent_Received from content =>
      ready_line prefix [(lit "type", lit "message"); (lit "from_endpoint_id_hex", hex (EndpointId_as_bytes from));
                         (lit "payload_hex", hex content)]
  | GossipEvent_Lagged => ready_line prefix [(lit "type", lit "lagged")]
  end.

Definition print_gossip_event (prefix : bytes) (ev : GossipEvent) : H unit :=
  tell (Printed (gossip_event_line prefix ev)).

(** The task that prints the events of a topic, until they end or fail. *)
Fixpoint print_gossip_events (events : list (result (option GossipEvent) bytes)) : H unit :=
  match events with
  | Ok (Some ev) :: events =>
      let* _ := print_gossip_event (lit "IROH_NATIVE_GOSSIP_EVENT") ev in print_gossip_events events
  | _ => hret (Ok tt)
  end.

Fixpoint wait_for_events (expected : option bytes) (events : list (result (option GossipEvent) bytes))
    : H (EndpointId * bytes) :=
  match events with
  | [] => echo (Err Elapsed)
  | Ok None :: _ => echo (Err TopicClosed)
  | Err t :: _ => echo (Err (LibraryError t))
  | Panic :: _ => hret Panic
  | Ok (Some ev) :: events =>
      let* _ := print_gossip_event (lit "IROH_NATIVE_GOSSIP_EVENT") ev in
      match ev with
      | GossipEvent_Received from content =>
          let* _ := match expected with
                    | Some e => echo (guard_err (negb (bool_decide (content = e))) UnexpectedPayload)
                    | None => hret (Ok tt)
                    end in
          hret (Ok (from, content))
      | _ => wait_for_events expected events
      end
  end.

Definition wait_for_gossip_payload (expected : option bytes) : H (EndpointId * bytes) :=
  wait_for_events expected (h_events h).

Definition verify_optional_gossip_payload : H unit :=
  let* e := echo expected_gossip_payload in
  match e with
  | Some e => let* _ := wait_for_gossip_payload (Some e) in hret (Ok tt)
  | None => hret (Ok tt)
  end.

(** The payload a line of standard input asks to broadcast, if any. *)
Definition command_payload (line : bytes) : result (option bytes) echo_error :=
  match split_once x20 (trim line) with
  | Some (word, payload_hex) =>
      if bool_decide (word = lit "broadcast") then rmap Some (parse_hex payload_hex) else Ok None
  | None => if bool_decide (trim line = lit "broadcast") then rmap Some gossip_payload else Ok None
  end.

Fixpoint read_gossip_server_commands (lines : list (result bytes bytes)) : H unit :=
  match lines with
  | [] => hret (Ok tt)
  | line :: lines =>
      let* line := echo (map_err LibraryError line) in
      let* payload := echo (command_payload line) in
      match payload with
      | None => read_gossip_server_commands lines
      | Some payload =>
          let* _ := call (Broadcast payload) in
          let* _ := tell (Printed (ready_line (lit "IROH_NATIVE_GOSSIP_SERVER_BROADCAST_OK")
                                     [(lit "payload_hex", hex payload)])) in
          read_gossip_server_commands lines
      end
  end.

Definition var_is_one (var : bytes) : bool :=
  match h_var h var with Ok v => bool_decide (v = lit "1") | _ => false end.

Definition run_gossip_server : H ending :=
  let* relay := echo relay_url in
  let* topic := echo gossip_topic_id in
  let* _ := gossip_endpoint relay in
  let* _ := tell Online in
  let* _ := tell SpawnGossip in
  let* _ := tell (SpawnRouter GOSSIP_ALPN) in
  let* _ := call (Subscribe topic []) in
  let* _ := tell SpawnPrinter in
  let* _ := tell (Printed (ready_line (lit "IROH_NATIVE_GOSSIP_SERVER_READY")
                             [id_field; (lit "topic_id_hex", hex topic)])) in
  if var_is_one (lit "IROH_GOSSIP_STDIN_COMMANDS") then
    let* _ := read_gossip_server_commands (h_lines h) in
    let* _ := call ShutdownRouter in
    hret (Ok Returned)
  else hret (Ok Pending).

Definition run_gossip_client_send : H ending :=
  let* relay := echo relay_url in
  let* bootstrap := echo server_endpoint_id in
  let* topic := echo gossip_topic_id in
  let* payload := echo gossip_payload in
  let* _ := gossip_endpoint relay in
  let* _ := spawn_gossip_router (Some (bootstrap_addr bootstrap relay)) in
  let* _ := tell (Printed (ready_line (lit "IROH_NATIVE_GOSSIP_CLIENT_SEND_STARTED")
                             [id_field; (lit "topic_id_hex", hex topic)])) in
  let* _ := call Flush in
  let* _ := call (SubscribeAndJoin topic [bootstrap]) in
  let* _ := call (Broadcast payload) in
  let* _ := verify_optional_gossip_payload in
  let* _ := tell (Printed (ready_line (lit "IROH_NATIVE_GOSSIP_CLIENT_SEND_OK")
                             [id_field; (lit "topic_id_hex", hex topic); (lit "payload_hex", hex payload)])) in
  let* _ := if var_is_one (lit "IROH_GOSSIP_STAY_OPEN") then tell ReadByte else hret (Ok tt) in
  let* _ := call ShutdownRouter in
  hret (Ok Returned).

Definition run_gossip_client_recv : H ending :=
  let* relay := echo relay_url in
  let* bootstrap := echo server_endpoint_id in
  let* topic := echo gossip_topic_id in
  let* _ := gossip_endpoint relay in
  let* _ := spawn_gossip_router (Some (bootstrap_addr bootstrap relay)) in
  let* _ := tell (Printed (ready_line (lit "IROH_NATIVE_GOSSIP_CLIENT_RECV_STARTED")
                             [id_field; (lit "topic_id_hex", hex topic)])) in
  let* _ := call Flush in
  let* _ := call (SubscribeAndJoin topic [bootstrap]) in
  let* _ := tell (Printed (ready_line (lit "IROH_NATIVE_GOSSIP_CLIENT_RECV_READY")
                             [id_field; (lit "topic_id_hex", hex topic)])) in
  let* expected := echo expected_gossip_payload in
  let* (from, content) := wait_for_gossip_payload expected in
  let* _ := tell (Printed (ready_line (lit "IROH_NATIVE_GOSSIP_CLIENT_RECV_OK")
                             [id_field; (lit "topic_id_hex", hex topic);
                              (lit "from_endpoint_id_hex", hex (EndpointId_as_bytes from));
                              (lit "payload_hex", hex content)])) in
  let* _ := call ShutdownRouter in
  hret (Ok Returned).

(** Runs the protocol states of [gossip_vectors]; what they print is printed. *)
Definition vectors {A} (g : G A) : H A := λ log,
  let '(r, w) := g (MkWorld 0 []) in (map_err VectorsFailed r, log ++ map Printed (printed w)).

Definition run_gossip_sender : H ending :=
  let* relay := echo relay_url in
  let* server := echo server_endpoint_id in
  let* frames := vectors (broadcast_frames (h_instants h)) in
  let* _ := call (Bind relay []) in
  let* _ := tell Online in
  let* _ := call (Connect (bootstrap_addr server relay) GOSSIP_VECTORS_ALPN) in
  let* _ := call OpenUni in
  let* _ := call (WriteAll (stream_header_frame frames)) in
  let* _ := call (WriteAll (broadcast_message_frame frames)) in
  let* _ := call Finish in
  let* _ := call Stopped in
  let* _ := tell CloseConnection in
  let* _ := tell CloseEndpoint in
  let* _ := tell (Printed (ready_line (lit "IROH_NATIVE_GOSSIP_SEND_OK")
                             [(lit "topic_id_hex", hex (bf_topic_id frames)); (lit "payload_hex", hex (bf_payload frames))])) in
  hret (Ok Returned).

(** The arguments, the program's name first. *)
Definition run_from_args (args : list bytes) : H ending :=
  let is_command c := bool_decide (args !! 1 = Some c) in
  if is_command (lit "client") then run_client
  else if is_command (lit "gossip-send") then run_gossip_sender
  else if is_command (lit "gossip-server") then run_gossip_server
  else if is_command (lit "gossip-client-send") then run_gossip_client_send
  else if is_command (lit "gossip-client-recv") then run_gossip_client_recv
  else if is_command (lit "gossip-vectors") then
    let* _ := vectors (gossip_vectors_run (h_instants h)) in hret (Ok Returned)
  else run_server.
End WithHost.
End Harness.

(** ** Lemmas *)

Lemma hex_hex_bytes b : hex b = hex_bytes b.
Proof. unfold hex, hex_bytes. f_equal. apply map_ext. by intros []. Qed.

Definition ascii (b : Byte.byte) : Prop := (Byte.to_N b < 128)%N.

Lemma ascii_boundary s i : Forall ascii s → i ≤ length s → is_char_boundary s i = true.
Proof.
  intros Hs Hi. unfold is_char_boundary. destruct (drop i s) as [|b t] eqn:E.
  - apply (f_equal length) in E. rewrite length_drop in E. cbn in E. apply Nat.eqb_eq. lia.
  - assert (ascii b) as Hb by (rewrite <- (take_drop i s), E in Hs; apply Forall_app in Hs as [_ Hs]; by inversion Hs).
    unfold in_range. unfold ascii in Hb. apply negb_true_iff, andb_false_iff. left. by apply N.leb_gt.
Qed.

(** On ASCII text the loop over slices is the loop over pairs. *)
Lemma parse_hex_pairs_spec s offset n b :
  Forall ascii s → offset + 2 * n = length s →
  parse_hex_pairs s offset n ≠ Panic ∧ (parse_hex_pairs s offset n = Ok b ↔ decode_pairs (drop offset s) = Some b).
Proof.
  intros Hs. revert offset b. induction n as [|n IH]; intros offset b Hn; cbn [parse_hex_pairs].
  - rewrite drop_ge by lia. naive_solver.
  - unfold str_slice. rewrite !ascii_boundary by (done || lia).
    rewrite (proj2 (Nat.leb_le _ _)) by lia. cbn [andb rbind].
    replace (offset + 2 - offset) with 2 by lia.
    destruct (drop offset s) as [|x [|y t]] eqn:E;
      try (apply (f_equal length) in E; rewrite length_drop in E; cbn in E; lia).
    assert (drop (offset + 2) s = t) as Ht by (rewrite <- drop_drop, E; done).
    rewrite firstn_cons, firstn_cons, firstn_O. cbn [decode_pairs]. unfold parse_hex_byte.
    destruct (from_str_radix 16 255 [x; y]) as [v|]; cbn [ok_or rbind].
    2: { split; [discriminate |]. split; intros Hx; discriminate Hx. }
    destruct (IH (offset + 2) b ltac:(lia)) as [Hp _].
    assert (∀ c, parse_hex_pairs s (offset + 2) n = Ok c ↔ decode_pairs t = Some c) as Hc
      by (intros c; rewrite <- Ht; apply IH; lia).
    destruct (parse_hex_pairs s (offset + 2) n) as [c|e|] eqn:Ep; cbn [rbind]; [| | done].
    + rewrite (proj1 (Hc c) eq_refl). split; [done | naive_solver].
    + destruct (decode_pairs t) as [c|]; [by discriminate (proj2 (Hc c) eq_refl) | split; [done | split; done]].
Qed.

Lemma hex_ascii b : Forall ascii (hex b).
Proof. induction b as [|[] b IH]; [constructor | ..]; cbn; repeat (constructor; [done |]); exact IH. Qed.

Lemma parse_hex_spec s b :
  Forall ascii s →
  parse_hex s ≠ Panic ∧ (parse_hex s = Ok b ↔ Nat.even (length s) = true ∧ decode_pairs s = Some b).
Proof.
  intros Hs. unfold parse_hex. destruct (Nat.even (length s)) eqn:E; cbn [negb guard_err rbind]; [| naive_solver].
  apply Nat.even_spec in E as [k Hk]. replace (length s / 2) with k by (rewrite Hk, Nat.mul_comm, Nat.div_mul; lia).
  destruct (parse_hex_pairs_spec s 0 k b Hs ltac:(lia)) as [Hp Hok]. split; [done |]. rewrite Hok, drop_0. naive_solver.
Qed.

Lemma parse_hex_hex b : parse_hex (hex b) = Ok b.
Proof.
  apply (parse_hex_spec _ _ (hex_ascii b)). rewrite hex_hex_bytes, decode_pairs_hex, length_hex_bytes.
  split; [| done]. rewrite Nat.even_mul. done.
Qed.

Lemma parse_32_byte_hex_hex b : length b = 32 → parse_32_byte_hex (hex b) = Ok b.
Proof.
  intros Hb. unfold parse_32_byte_hex. rewrite hex_hex_bytes, length_hex_bytes, Hb. cbn [Nat.mul Nat.eqb Nat.add negb guard_err rbind].
  rewrite <- hex_hex_bytes. apply (parse_hex_pairs_spec (hex b) 0 32 b (hex_ascii b)).
  - by rewrite hex_hex_bytes, length_hex_bytes, Hb.
  - by rewrite drop_0, hex_hex_bytes, decode_pairs_hex.
Qed.

(** The message of [parse_32_byte_hex] asks for lowercase digits; the parser
    also takes uppercase ones and a sign, and panics off a boundary. *)
Lemma parse_hex_is_lenient :
  parse_hex (lit "AF+f") = Ok [xaf; x0f] ∧ parse_hex [x41; xc3; xa9; x41] = Panic.
Proof. by split; vm_compute. Qed.

(** ** Frames *)

Definition frame_of (payload : bytes) : bytes := to_be_bytes 4 (len payload) ++ payload.

(** The reader of the other side: a length of four bytes and as many bytes. *)
Fixpoint read_frames (fuel : nat) (b : bytes) : option (list bytes) :=
  match b, fuel with
  | [], _ => Some []
  | _, O => None
  | _, S fuel =>
      if length b <? 4 then None
      else
        let n := N.to_nat (from_be_bytes (take 4 b)) in
        let rest := drop 4 b in
        if length rest <? n then None
        else match read_frames fuel (drop n rest) with
             | Some l => Some (take n rest :: l)
             | None => None
             end
  end.

Definition u32_len (b : bytes) : Prop := (len b ≤ 4294967295)%N.

Lemma read_frames_app payload b l fuel :
  u32_len payload → read_frames fuel b = Some l → read_frames (S fuel) (frame_of payload ++ b) = Some (payload :: l).
Proof.
  intros Hp Hb. unfold frame_of. pose proof (length_to_be_bytes 4 (len payload)) as Hl.
  destruct (to_be_bytes 4 (len payload)) as [|x h] eqn:E; [done |]. rewrite <- E in *. clear x h E.
  assert (∀ c, c = (to_be_bytes 4 (len payload) ++ payload) ++ b → read_frames (S fuel) c = Some (payload :: l)) as Hc;
    [| by apply Hc].
  intros c Hcc. assert (length c = 4 + length payload + length b) as Hlen by (rewrite Hcc, !length_app, Hl; lia).
  destruct c as [|x c']; [cbn in Hlen; lia |]. cbn [read_frames]. rewrite Hcc in *. clear Hcc.
  rewrite (proj2 (Nat.ltb_ge _ _)) by lia. rewrite <- app_assoc, take_app_length', drop_app_length' by lia.
  rewrite from_to_be_bytes by (unfold u32_len in Hp; cbn; lia). unfold len. rewrite Nat2N.id.
  rewrite (proj2 (Nat.ltb_ge _ _)) by (rewrite length_app; lia). by rewrite drop_app_length, take_app_length, Hb.
Qed.

Section VectorLemmas.
Context `{UL : UrlLib} `{IL : IrohLib} `{GL : !GossipLib}.
Context (instants : nat → Instant).

Lemma gbind_Ok {A B} (c : G A) (k : A → G B) w b w' :
  gbind c k w = (Ok b, w') ↔ ∃ a w1, c w = (Ok a, w1) ∧ k a w1 = (Ok b, w').
Proof. unfold gbind. destruct (c w) as [[a|e|] w1]; naive_solver. Qed.

(** Computations that print nothing. *)
Definition silent {A} (c : G A) : Prop := ∀ w, printed (c w).2 = printed w.

Lemma silent_gret {A} (r : result A gossip_error) : silent (gret r).
Proof. done. Qed.

Lemma silent_handle s e : silent (handle instants s e).
Proof. done. Qed.

Lemma silent_gbind {A B} (c : G A) (k : A → G B) : silent c → (∀ a, silent (k a)) → silent (gbind c k).
Proof. intros Hc Hk w. unfold gbind. specialize (Hc w). destruct (c w) as [[a|e|] w1]; cbn in *; [by rewrite Hk | done ..]. Qed.

Lemma silent_pair {A B C} (p : A * B) (f : A → B → G C) : (∀ a b, silent (f a b)) → silent (let '(a, b) := p in f a b).
Proof. destruct p. auto. Qed.

Hint Resolve silent_gret silent_handle : silent.

Ltac silent := repeat (first [solve [auto with silent] | apply silent_gbind | intros ? | apply silent_pair]).

Lemma silent_join_message a b t : silent (join_message instants a b t).
Proof. unfold join_message. silent. Qed.

Lemma silent_join_message_with_peer_data a b t d : silent (join_message_with_peer_data instants a b t d).
Proof. unfold join_message_with_peer_data. silent. Qed.

Lemma silent_initialized_state p n t : silent (initialized_state instants p n t).
Proof. unfold initialized_state. silent. Qed.

Lemma silent_receive s p m l : silent (receive instants s p m l).
Proof. unfold receive. silent. Qed.

Lemma silent_broadcast_message a b t p : silent (broadcast_message instants a b t p).
Proof. pose proof silent_receive. unfold broadcast_message. silent. Qed.

Hint Resolve silent_join_message silent_join_message_with_peer_data silent_initialized_state silent_receive
  silent_broadcast_message : silent.

Lemma silent_shuffle_message a b t : silent (shuffle_message instants a b t).
Proof. unfold shuffle_message. silent. Qed.

Lemma silent_prune_message a b c t : silent (prune_message instants a b c t).
Proof. unfold prune_message. silent. Qed.

Hint Resolve silent_shuffle_message silent_prune_message : silent.

Lemma silent_ihave_message a b c t : silent (ihave_message instants a b c t).
Proof. unfold ihave_message, make_lazy_peer. silent. Qed.

Lemma silent_broadcast_frames : silent (broadcast_frames instants).
Proof. unfold broadcast_frames. cbv zeta. silent. Qed.

Hint Resolve silent_ihave_message silent_broadcast_frames : silent.

Lemma silent_vector_messages : silent (vector_messages instants).
Proof.
  unfold vector_messages, neighbor_message, forward_join_message, shuffle_reply_message, disconnect_message,
    graft_message. silent.
Qed.

Lemma length_prefixed_Ok p f : length_prefixed p = Ok f ↔ u32_len p ∧ f = frame_of p.
Proof.
  unfold length_prefixed, u32_len, frame_of, len, guard_err. destruct (N.ltb_spec 4294967295 (N.of_nat (length p))); cbn [rbind].
  - split; [done |]. intros [H1 _]. lia.
  - naive_solver.
Qed.

Lemma strip_prefix_app p s : strip_prefix p (p ++ s) = Some s.
Proof. unfold strip_prefix. rewrite take_app_length, decide_True by done. by rewrite drop_app_length. Qed.

Lemma strip_prefix_Some p s r : strip_prefix p s = Some r ↔ s = p ++ r.
Proof.
  split; [| intros ->; apply strip_prefix_app]. unfold strip_prefix. case_decide as H; [| done]. intros [= <-].
  rewrite <- H at 1. by rewrite take_drop.
Qed.

Lemma topic_message_payload_Ok m t b : topic_message_payload m t = Ok b ↔ postcard_message m = Ok (t ++ b).
Proof.
  unfold topic_message_payload. rewrite rbind_Ok. setoid_rewrite map_err_Ok. setoid_rewrite ok_or_Ok.
  setoid_rewrite strip_prefix_Some. naive_solver.
Qed.

(** What the stream of a broadcast is made of. *)
Lemma broadcast_frames_Ok w f w' :
  broadcast_frames instants w = (Ok f, w') →
  ∃ m header body, f = MkBroadcastFrames TOPIC_ID (frame_of header) (frame_of body) PAYLOAD
    ∧ postcard_topic TOPIC_ID = Ok header ∧ postcard_message m = Ok (TOPIC_ID ++ body)
    ∧ u32_len header ∧ u32_len body.
Proof.
  unfold broadcast_frames. cbv zeta. intros H. repeat (apply gbind_Ok in H as (? & ? & ? & H)).
  repeat match goal with
  | H : gret _ _ = (Ok _, _) |- _ => unfold gret in H; injection H as H _
  | H : map_err _ _ = Ok _ |- _ => apply map_err_Ok in H
  | H : length_prefixed _ = Ok _ |- _ => apply length_prefixed_Ok in H as [? ->]
  | H : topic_message_payload _ _ = Ok _ |- _ => apply topic_message_payload_Ok in H
  end.
  subst. eexists _, _, _. split; [reflexivity |]. by split_and!.
Qed.

Lemma println_bind l (k : unit → G unit) w : gbind (println l) k w = k tt (MkWorld (ticks w) (printed w ++ [l])).
Proof. done. Qed.

Lemma print_frame_bind key m t body (k : unit → G unit) w :
  postcard_message m = Ok (t ++ body) → u32_len body →
  gbind (print_frame key m t) k w
  = k tt (MkWorld (ticks w) (printed w ++ [vector_line key (hex (frame_of body))])).
Proof.
  intros Hm Hb. unfold print_frame, gbind, gret. rewrite (proj2 (topic_message_payload_Ok m t body) Hm).
  by rewrite (proj2 (length_prefixed_Ok body (frame_of body)) (conj Hb eq_refl)).
Qed.

(** The messages the lines carry, by the key of the line. *)
Definition message_keys (v : VectorMessages) : list (bytes * Message) :=
  [(lit "join_message_frame_hex", vm_join v); (lit "relay_join_message_frame_hex", vm_relay_join v);
   (lit "neighbor_message_frame_hex", vm_neighbor v); (lit "forward_join_message_frame_hex", vm_forward_join v);
   (lit "shuffle_message_frame_hex", vm_shuffle v); (lit "shuffle_reply_message_frame_hex", vm_shuffle_reply v);
   (lit "disconnect_message_frame_hex", vm_disconnect v); (lit "prune_message_frame_hex", vm_prune v);
   (lit "ihave_message_frame_hex", vm_ihave v); (lit "graft_message_frame_hex", vm_graft v)].

Definition vector_table (body : Message → bytes) (v : VectorMessages) : list (bytes * bytes) :=
  let frame m := hex (frame_of (body m)) in
  [(lit "alpn_hex", hex GOSSIP_VECTORS_ALPN); (lit "topic_id_hex", hex TOPIC_ID);
   (lit "peer_a_hex", hex (EndpointId_as_bytes (peer_from_seed x01)));
   (lit "peer_b_hex", hex (EndpointId_as_bytes (peer_from_seed x02)));
   (lit "stream_header_frame_hex", hex (stream_header_frame (vm_frames v)))]
  ++ map (λ '(k, m), (k, frame m)) (take 7 (message_keys v))
  ++ [(lit "broadcast_message_frame_hex", hex (broadcast_message_frame (vm_frames v)))]
  ++ map (λ '(k, m), (k, frame m)) (drop 7 (message_keys v))
  ++ [(lit "broadcast_payload_hex", hex PAYLOAD); (lit "repair_payload_hex", hex REPAIR_PAYLOAD);
      (lit "peer_data_empty_hex", hex (peer_data_bytes peer_data_default));
      (lit "addr_info_empty_hex", hex (vm_empty_addr_info v)); (lit "relay_url", RELAY_URL);
      (lit "relay_peer_data_hex", hex (peer_data_bytes (vm_relay_peer_data v)));
      (lit "direct_addr", lit "127.0.0.1:12345");
      (lit "direct_peer_data_hex", hex (peer_data_bytes (vm_direct_peer_data v)))].

(** The messages are encoded as the topic followed by a body that fits in a
    frame. *)
Definition encodes (body : Message → bytes) (v : VectorMessages) : Prop :=
  Forall (λ m, postcard_message m = Ok (TOPIC_ID ++ body m) ∧ u32_len (body m)) (message_keys v).*2.

Lemma vector_messages_frames w v w1 :
  vector_messages instants w = (Ok v, w1) → ∃ w0 w0', broadcast_frames instants w0 = (Ok (vm_frames v), w0').
Proof.
  unfold vector_messages. cbv zeta. intros H. apply gbind_Ok in H as (f & w' & Hf & H).
  repeat (apply gbind_Ok in H as (? & ? & _ & H)). unfold gret in H. injection H as <- _. cbn [vm_frames]. by exists w, w'.
Qed.

Lemma print_vectors_table body v w :
  bf_topic_id (vm_frames v) = TOPIC_ID → bf_payload (vm_frames v) = PAYLOAD → encodes body v →
  print_vectors v w = (Ok tt, MkWorld (ticks w) (printed w ++ map (λ '(k, x), vector_line k x) (vector_table body v))).
Proof.
  intros Ht Hp He. unfold print_vectors. cbv zeta. rewrite Ht, Hp.
  unfold encodes, message_keys in He. cbn [fmap list_fmap snd] in He. rewrite !Forall_cons in He.
  destruct He as ((?&?)&(?&?)&(?&?)&(?&?)&(?&?)&(?&?)&(?&?)&(?&?)&(?&?)&(?&?)&_).
  repeat first [rewrite println_bind | erewrite print_frame_bind by eassumption; cbn [ticks printed]].
  unfold println. cbn [ticks printed]. rewrite <- !app_assoc. reflexivity.
Qed.

Lemma message_key_in body v k m :
  (k, m) ∈ message_keys v → (k, hex (frame_of (body m))) ∈ vector_table body v.
Proof.
  intros H. unfold vector_table. cbv zeta. rewrite <- (take_drop 7 (message_keys v)) in H. rewrite !elem_of_app.
  apply elem_of_app in H as [H|H]; [right; left | right; right; right; left];
    apply list_elem_of_fmap; by exists (k, m).
Qed.

Lemma read_one_frame p : u32_len p → ∃ fuel, read_frames fuel (frame_of p) = Some [p].
Proof. intros Hp. exists 1. rewrite <- (app_nil_r (frame_of p)). by apply read_frames_app. Qed.

(** ** Results *)

(** The vectors can be read back.  When the protocol states yield the
    messages the vectors are made of, and each is encoded as its topic and a
    body, the command prints one line per key, no key twice; the line of
    every message parses to one frame that holds the body of that message,
    and the two lines of the broadcast stream parse to two frames: the
    encoded topic, and the body of a message of that topic. *)
Lemma gossip_vectors_readable (body : Message → bytes) (v : VectorMessages) (w w1 : world) :
  vector_messages instants w = (Ok v, w1) → encodes body v →
  ∃ w2 table,
    gossip_vectors_run instants w = (Ok tt, w2)
    ∧ printed w2 = printed w ++ map (λ '(k, x), vector_line k x) table
    ∧ NoDup table.*1
    ∧ (∀ k m, (k, m) ∈ message_keys v →
         ∃ x frame fuel, (k, x) ∈ table ∧ parse_hex x = Ok frame ∧ read_frames fuel frame = Some [body m])
    ∧ (∃ x y f g header rest m fuel,
         (lit "stream_header_frame_hex", x) ∈ table ∧ (lit "broadcast_message_frame_hex", y) ∈ table
         ∧ parse_hex x = Ok f ∧ parse_hex y = Ok g ∧ read_frames fuel (f ++ g) = Some [header; rest]
         ∧ postcard_topic TOPIC_ID = Ok header ∧ postcard_message m = Ok (TOPIC_ID ++ rest)).
Proof.
  intros Hv He. pose proof (vector_messages_frames _ _ _ Hv) as (w0 & w0' & Hf).
  apply broadcast_frames_Ok in Hf as (m & header & rest & Hf & Hh & Hm & Hlh & Hlr).
  pose proof (silent_vector_messages w) as Hs. rewrite Hv in Hs. cbn [snd] in Hs.
  eexists _, (vector_table body v). split.
  { unfold gossip_vectors_run, gbind. rewrite Hv. apply print_vectors_table; [by rewrite Hf .. | done]. }
  cbn [printed]. rewrite Hs. split; [done |]. split; [apply (bool_decide_unpack _); by vm_compute |]. split.
  - intros k m' Hk. destruct (read_one_frame (body m')) as [fuel Hr].
    { unfold encodes in He. rewrite Forall_forall in He. apply He. apply list_elem_of_fmap. by exists (k, m'). }
    exists (hex (frame_of (body m'))), (frame_of (body m')), fuel. split_and!; [by apply message_key_in | apply parse_hex_hex | done].
  - exists (hex (frame_of header)), (hex (frame_of rest)), (frame_of header), (frame_of rest), header, rest, m, 2.
    split_and!; try apply parse_hex_hex; try done.
    + unfold vector_table. cbv zeta. rewrite Hf. cbn [stream_header_frame]. rewrite elem_of_app. left.
      rewrite !elem_of_cons. tauto.
    + unfold vector_table. cbv zeta. rewrite Hf. cbn [broadcast_message_frame]. rewrite !elem_of_app. right. right. left.
      rewrite list_elem_of_singleton. done.
    + apply read_frames_app; [done |]. rewrite <- (app_nil_r (frame_of rest)). by apply read_frames_app.
Qed.
End VectorLemmas.

Section HarnessLemmas.
Context `{UL : UrlLib} `{IL : IrohLib} `{GL : !GossipLib}.

Lemma hbind_call h a (k : unit → H ending) log :
  h_call h a = Ok tt → hbind (call h a) k log = k tt (log ++ [a]).
Proof. intros Hc. unfold hbind, call. by rewrite Hc. Qed.

Lemma hbind_tell {A} a (k : unit → H A) log : hbind (tell a) k log = k tt (log ++ [a]).
Proof. done. Qed.

Lemma hbind_echo {A B} (r : result A echo_error) (k : A → H B) a log : r = Ok a → hbind (echo r) k log = k a log.
Proof. intros ->. done. Qed.

Lemma hbind_hret {A B} (a : A) (k : A → H B) log : hbind (hret (Ok a)) k log = k a log.
Proof. done. Qed.

Lemma hbind_assoc {A B C} (c : H A) (k : A → H B) (l : B → H C) log :
  hbind (hbind c k) l log = hbind c (λ a, hbind (k a) l) log.
Proof. unfold hbind. by destruct (c log) as [[]]. Qed.

Lemma hbind_run {A B} (c : H A) (k : A → H B) a log log' : c log = (Ok a, log') → hbind c k log = k a log'.
Proof. intros Hc. unfold hbind. by rewrite Hc. Qed.

Definition is_received (ev : GossipEvent) : bool :=
  match ev with GossipEvent_Received _ _ => true | _ => false end.

Definition event_lines (evs : list GossipEvent) : list action :=
  map (λ ev, Printed (gossip_event_line (lit "IROH_NATIVE_GOSSIP_EVENT") ev)) evs.

(** The first message decides; everything before it is printed and skipped. *)
Lemma wait_for_events_spec expected pre from content rest log :
  forallb (λ ev, negb (is_received ev)) pre = true →
  wait_for_events expected (map (λ ev, Ok (Some ev)) (pre ++ GossipEvent_Received from content :: rest)) log
  = (match expected with
     | Some e => if decide (content = e) then Ok (from, content) else Err (EchoFailed UnexpectedPayload)
     | None => Ok (from, content)
     end, log ++ event_lines (pre ++ [GossipEvent_Received from content])).
Proof.
  revert log. induction pre as [|ev pre IH]; intros log Hpre; cbn [app map wait_for_events].
  - unfold print_gossip_event. rewrite hbind_tell. destruct expected as [e|]; [| done].
    destruct (decide (content = e)) as [Hc|Hc].
    + rewrite (bool_decide_eq_true_2 _ Hc). done.
    + rewrite (bool_decide_eq_false_2 _ Hc). done.
  - cbn [forallb] in Hpre. apply andb_true_iff in Hpre as [Hev Hpre]. unfold print_gossip_event. rewrite hbind_tell.
    destruct ev; try discriminate Hev; rewrite IH by done; unfold event_lines; by rewrite <- app_assoc.
Qed.

(** What standard input makes the server broadcast. *)
Definition broadcasts (log : list action) : list bytes :=
  filter_map (λ a, match a with Broadcast b => Some b | _ => None end) log.

Definition command_actions (ps : list (option bytes)) : list action :=
  concat (map (λ o, match o with
    | Some p => [Broadcast p; Printed (ready_line (lit "IROH_NATIVE_GOSSIP_SERVER_BROADCAST_OK") [(lit "payload_hex", hex p)])]
    | None => []
    end) ps).

Lemma read_gossip_server_commands_spec h lines ps log :
  (∀ b, h_call h (Broadcast b) = Ok tt) → map_result (command_payload h) lines = Ok ps →
  read_gossip_server_commands h (map Ok lines) log = (Ok tt, log ++ command_actions ps).
Proof.
  intros Hb. revert ps log. induction lines as [|l lines IH]; intros ps log; cbn [map_result map read_gossip_server_commands].
  - intros [= <-]. unfold hret. cbn. by rewrite app_nil_r.
  - intros (o & Ho & H)%rbind_Ok. apply rbind_Ok in H as (ps' & Hps & [= <-]).
    rewrite (hbind_echo _ _ l) by done. rewrite (hbind_echo _ _ o) by done. destruct o as [p|]; [| exact (IH ps' log Hps)].
    rewrite (hbind_run (call h (Broadcast p)) _ tt _ (log ++ [Broadcast p])) by (unfold call; by rewrite Hb).
    rewrite hbind_tell, (IH ps') by done. unfold command_actions. cbn [map concat]. by rewrite <- !app_assoc.
Qed.

Lemma broadcasts_command_actions ps : broadcasts (command_actions ps) = filter_map id ps.
Proof.
  unfold broadcasts, command_actions. induction ps as [|[p|] ps IH]; [done | ..]; cbn [map concat filter_map id].
  - rewrite filter_map_app, IH. done.
  - exact IH.
Qed.

(** ** Results *)

Definition all_calls (h : Host) : Prop := ∀ a, h_call h a = Ok tt.

Definition echo_ok_line (payload : bytes) : bytes :=
  ready_line (lit "IROH_NATIVE_ECHO_CLIENT_OK") [(lit "payload_hex", hex payload)].

(** The client with its peer, whatever the peer answers. *)
Lemma run_client_spec h relay server payload log :
  relay_url h = Ok relay → server_endpoint_id h = Ok server →
  h_var h (lit "IROH_ECHO_PAYLOAD_HEX") = Ok (hex payload) → all_calls h →
  run_client h log
  = if decide (h_response h payload = payload) then
      (Ok Returned, log ++ [Bind relay []; Online; Connect (bootstrap_addr server relay) ECHO_ALPN; OpenBi;
         WriteAll payload; Finish; ReadToEnd (length payload); CloseConnection; CloseEndpoint; Printed (echo_ok_line payload)])
    else
      (Err (EchoFailed (if length payload <? length (h_response h payload) then ReadTooLong else EchoMismatch)),
       log ++ [Bind relay []; Online; Connect (bootstrap_addr server relay) ECHO_ALPN; OpenBi;
         WriteAll payload; Finish; ReadToEnd (length payload)]).
Proof.
  intros Hr Hs Hp Hc. unfold run_client.
  rewrite (hbind_echo _ _ relay _ Hr), (hbind_echo _ _ server _ Hs).
  rewrite (hbind_echo _ _ payload) by (unfold env_var; rewrite Hp; apply parse_hex_hex).
  repeat first [rewrite hbind_call by apply Hc | rewrite hbind_tell]. unfold read_to_end. rewrite hbind_assoc.
  rewrite (hbind_run (call h (ReadToEnd (length payload))) _ tt _ _ (f_equal (λ r, (map_err _ r, _)) (Hc _))).
  destruct (Nat.ltb_spec (length payload) (length (h_response h payload))) as [Hl|Hl].
  - rewrite decide_False by (intros E; rewrite E in Hl; lia). unfold hbind, echo, hret. cbn [map_err]. by rewrite <- !app_assoc.
  - rewrite (hbind_echo _ _ (h_response h payload)) by done. case_decide as E.
    + rewrite E, bool_decide_eq_true_2 by done. cbn [negb guard_err]. rewrite (hbind_echo _ _ tt) by done.
      rewrite !hbind_tell. unfold hret. by rewrite <- !app_assoc.
    + rewrite bool_decide_eq_false_2 by done. cbn [negb guard_err]. unfold hbind, echo, hret. cbn [map_err].
      by rewrite <- !app_assoc.
Qed.

Definition recv_ok_line (h : Host) (topic : bytes) (from : EndpointId) (content : bytes) : bytes :=
  ready_line (lit "IROH_NATIVE_GOSSIP_CLIENT_RECV_OK")
    [id_field h; (lit "topic_id_hex", hex topic); (lit "from_endpoint_id_hex", hex (EndpointId_as_bytes from));
     (lit "payload_hex", hex content)].

(** The two sides of the tests meet.  An echo client whose peer runs the
    echo handler reports success, and with any other answer fails without
    reporting.  A gossip server broadcasts what the lines of its standard
    input ask for, in their order, and returns; a client whose topic
    delivers these broadcasts after any neighbour events reports the first
    one, with the server as its sender. *)
Lemma native_peers_meet (h hs hc : Host) (relay : Url) (server : EndpointId) (payload : bytes)
    (stopic topic : bytes) (lines : list bytes) (ps : list (option bytes)) (pre : list GossipEvent)
    (first : bytes) (more : list bytes) (expected : option bytes) :
  relay_url h = Ok relay → server_endpoint_id h = Ok server →
  h_var h (lit "IROH_ECHO_PAYLOAD_HEX") = Ok (hex payload) → all_calls h →
  relay_url hs = Ok relay → gossip_topic_id hs = Ok stopic → all_calls hs →
  var_is_one hs (lit "IROH_GOSSIP_STDIN_COMMANDS") = true →
  h_lines hs = map Ok lines → map_result (command_payload hs) lines = Ok ps →
  relay_url hc = Ok relay → server_endpoint_id hc = Ok (h_id hs) → gossip_topic_id hc = Ok topic → all_calls hc →
  expected_gossip_payload hc = Ok expected → (∀ e, expected = Some e → e = first) →
  filter_map id ps = first :: more → forallb (λ ev, negb (is_received ev)) pre = true →
  h_events hc = map (λ ev, Ok (Some ev)) (pre ++ map (GossipEvent_Received (h_id hs)) (first :: more)) →
  (h_response h payload = Echo_accept payload →
     ∃ log, run_from_args h [lit "iroh-echo"; lit "client"] [] = (Ok Returned, log ++ [Printed (echo_ok_line payload)]))
  ∧ (h_response h payload ≠ payload →
       ∃ e log, run_from_args h [lit "iroh-echo"; lit "client"] [] = (Err e, log) ∧ Printed (echo_ok_line payload) ∉ log)
  ∧ (∃ log, run_from_args hs [lit "iroh-echo"; lit "gossip-server"] [] = (Ok Returned, log)
            ∧ broadcasts log = first :: more)
  ∧ ∃ log, run_from_args hc [lit "iroh-echo"; lit "gossip-client-recv"] [] = (Ok Returned, log)
           ∧ Printed (recv_ok_line hc topic (h_id hs) first) ∈ log.
Proof.
  intros Hr Hs Hp Hc Hrs Hts Hcs Hone Hlines Hps Hrc Hsc Htc Hcc Hexp Hexp' Hfirst Hpre Hev.
  pose proof (run_client_spec h relay server payload [] Hr Hs Hp Hc) as Hclient.
  change (run_from_args h [lit "iroh-echo"; lit "client"] []) with (run_client h []).
  change (run_from_args hs [lit "iroh-echo"; lit "gossip-server"] []) with (run_gossip_server hs []).
  change (run_from_args hc [lit "iroh-echo"; lit "gossip-client-recv"] []) with (run_gossip_client_recv hc []).
  split_and!.
  - intros E. rewrite decide_True in Hclient by done. rewrite Hclient. eexists (_ :: _ :: _ :: _ :: _ :: _ :: _ :: _ :: [_]). reflexivity.
  - intros E. rewrite decide_False in Hclient by done. rewrite Hclient. eexists _, _. split; [done |].
    cbn [app]. rewrite !not_elem_of_cons. split_and!; try discriminate. apply not_elem_of_nil.
  - unfold run_gossip_server. rewrite (hbind_echo _ _ relay _ Hrs), (hbind_echo _ _ stopic _ Hts). unfold gossip_endpoint.
    rewrite hbind_assoc. repeat first [rewrite hbind_call by apply Hcs | rewrite hbind_tell]. rewrite Hone, Hlines.
    rewrite (hbind_run _ _ tt _ _ (read_gossip_server_commands_spec hs lines ps _ (λ b, Hcs _) Hps)).
    rewrite hbind_call by apply Hcs. eexists. split; [done |].
    rewrite <- Hfirst, <- broadcasts_command_actions. unfold broadcasts. rewrite !filter_map_app. cbn [app filter_map].
    by rewrite app_nil_r.
  - unfold run_gossip_client_recv. rewrite (hbind_echo _ _ relay _ Hrc), (hbind_echo _ _ _ _ Hsc), (hbind_echo _ _ _ _ Htc).
    unfold gossip_endpoint, spawn_gossip_router. rewrite !hbind_assoc.
    repeat first [rewrite hbind_call by apply Hcc | rewrite hbind_tell | rewrite hbind_assoc].
    rewrite (hbind_echo _ _ _ _ Hexp). unfold wait_for_gossip_payload. rewrite Hev. cbn [map].
    erewrite hbind_run; [| rewrite wait_for_events_spec by done;
      destruct expected as [e|]; [rewrite (Hexp' e eq_refl), decide_True by done |]; reflexivity].
    cbv beta iota. rewrite hbind_tell, hbind_call by apply Hcc. eexists. split; [done |].
    rewrite !elem_of_app. left. right. apply list_elem_of_singleton. reflexivity.
Qed.
End HarnessLemmas.

(** ** Witnesses *)

(** A protocol that answers every event with one message to each of the first
    peers and one timer, and writes a message as the topic and its text. *)
Module EchoWitness.
#[local] Existing Instance ToyUrl.toy_url.
#[local] Existing Instance IrohWitness.toy_iroh.

Definition toy_text (e : InEvent Byte.byte bytes unit bytes) : bytes :=
  match e with
  | RecvMessage _ m => x00 :: take 4 m
  | InCommand _ (Command_Join _) => lit "join"
  | InCommand _ (Command_Broadcast p _) => p
  | InCommand _ Command_Quit => lit "quit"
  | TimerExpired _ => lit "timer"
  | UpdatePeerData d => d
  end.

#[local] Instance toy_gossip : GossipLib := {|
  GState := Byte.byte;
  Message := bytes;
  Timer := unit;
  OtherOut := Empty_set;
  Instant := nat;
  PeerData := bytes;
  peer_data_default := [];
  peer_data_new b := b;
  peer_data_bytes b := b;
  proto_state_new p _ _ := p;
  proto_me p := p;
  proto_handle s e _ := (s, map (λ p, SendMessage p (toy_text e)) [x01; x02; x03; x04] ++ [ScheduleTimer 0 tt]);
  message_debug _ := lit "ForwardJoin ShuffleReply Disconnect";
  timer_debug _ := lit "DoShuffle DispatchLazyPush SendGraft";
  postcard_topic t := Ok t;
  postcard_message m := Ok (TOPIC_ID ++ m);
  postcard_addr_info _ := Ok [];
  GOSSIP_ALPN := lit "/iroh-gossip/1"
|}.

Definition clock : nat → Instant := λ n : nat, n.

Lemma gossip_vectors_readable_witness :
  ∃ w2, gossip_vectors_run clock (MkWorld 0 []) = (Ok tt, w2).
Proof.
  destruct (vector_messages clock (MkWorld 0 [])) as [r w1] eqn:E.
  assert (match r with Ok v => forallb (λ m : bytes, (len m <? 100)%N) (message_keys v).*2 | _ => false end = true) as Hr.
  { change r with (r, w1).1. rewrite <- E. vm_refl. }
  destruct r as [v|?|]; [| discriminate Hr ..].
  destruct (gossip_vectors_readable clock (λ m : bytes, m) v _ w1 E) as (w2 & _ & H & _).
  - apply List.Forall_forall. intros m Hm. split; [reflexivity |].
    rewrite forallb_forall in Hr. specialize (Hr m Hm). apply N.ltb_lt in Hr. unfold u32_len. lia.
  - exists w2. exact H.
Defined.

Definition vars (l : list (bytes * bytes)) (var : bytes) : result bytes VarError :=
  ok_or (snd <$> find_first (λ p, bool_decide (p.1 = var)) l) NotPresent.

Definition base_vars : list (bytes * bytes) :=
  [(lit "IROH_RELAY_URL", lit "https://relay"); (lit "IROH_SERVER_ENDPOINT_ID_HEX", hex (replicate 32 x05));
   (lit "IROH_ECHO_PAYLOAD_HEX", hex (lit "ping")); (lit "IROH_GOSSIP_STDIN_COMMANDS", lit "1");
   (lit "IROH_GOSSIP_EXPECT_PAYLOAD_HEX", hex (lit "hello gossip"))].

Definition host (id : Byte.byte) (events : list (result (option GossipEvent) bytes)) (lines : list bytes) : Host :=
  MkHost (vars base_vars) (λ _, Ok tt) id (λ b, b) events (map Ok lines) clock.

Definition stdin : list bytes := [lit "broadcast"; lit "noise"; lit " broadcast 0aFF "].
Definition sent : list bytes := [lit "hello gossip"; [x0a; xff]].

Definition the_server : Host := host x05 [] stdin.
Definition the_client : Host :=
  host x06 (map (λ ev, Ok (Some ev)) ([GossipEvent_NeighborUp IrohWitness.e5; GossipEvent_Lagged]
                                       ++ map (GossipEvent_Received IrohWitness.e5) sent)) [].

Lemma native_peers_meet_witness :
  ∃ log, run_from_args the_client [lit "iroh-echo"; lit "gossip-client-recv"] [] = (Ok Returned, log).
Proof.
  destruct (url_parse (lit "https://relay")) as [relay|] eqn:Hurl; [| discriminate Hurl].
  assert (∀ id evs ls, relay_url (host id evs ls) = Ok relay) as Hrelay.
  { intros id evs ls. unfold relay_url. change (env_var (host id evs ls) (lit "IROH_RELAY_URL")) with (Ok (E:=echo_error) (lit "https://relay")).
    cbn [rbind]. rewrite Hurl. reflexivity. }
  destruct (native_peers_meet the_server the_server the_client relay IrohWitness.e5 (lit "ping")
              DEFAULT_GOSSIP_TOPIC_ID DEFAULT_GOSSIP_TOPIC_ID stdin [Some (lit "hello gossip"); None; Some [x0a; xff]]
              [GossipEvent_NeighborUp IrohWitness.e5; GossipEvent_Lagged] (lit "hello gossip") [[x0a; xff]]
              (Some (lit "hello gossip"))) as (_ & _ & _ & log & Hlog & _).
  all: try apply Hrelay.
  all: try (intros a; reflexivity).
  all: try vm_refl.
  - intros e [= <-]. reflexivity.
  - exists log. exact Hlog.
Defined.
End EchoWitness.
