(* ===== verification/Relay.v ===== *)
(** * crates/enlace-relay/src/lib.rs: the relay server

    The tables behind one mutex, the handlers, the long-poll loops and the
    persisted slots.  axum (request extraction, body limits, the headers it
    sets itself) and sled (an embedded key/value store) are third-party: the
    former is the class [Axum], the latter a byte map whose operations may
    fail.  Times are nanoseconds since the Unix epoch; every reading of the
    clock is an argument. *)

From S2P Require Import Prelude Bytes Net Config PeerCard.

Definition DEFAULT_LISTEN : SocketAddr := V4 (Ipv4 x7f x00 x00 x01) 7777.
Definition DEFAULT_MAX_BODY_BYTES : N := 65536.
Definition DEFAULT_MAX_WAIT_SECONDS : N := 30.
Definition DEFAULT_MAILBOX_CAPACITY : nat := 128.
Definition DEFAULT_MAILBOX_TTL_SECONDS : N := 3600.
Definition DEFAULT_SLOT_TTL_SECONDS : N := 86400.
Definition VERSION_HEADER : bytes := lit "x-enlace-version".
Definition CONTENT_TYPE : bytes := lit "content-type".
Definition OCTET_STREAM : bytes := lit "application/octet-stream".
Definition TEXT_PLAIN : bytes := lit "text/plain; charset=utf-8".
Definition CORS_METHODS : bytes := lit "GET, POST, PUT, OPTIONS".
Definition CORS_HEADERS : bytes := lit "Content-Type, Authorization, X-Enlace-Version".

(** [SystemTime + Duration] and [UNIX_EPOCH + Duration] panic past the last
    second a signed 64-bit count can hold. *)
Definition i64_max : N := 9223372036854775807.
Definition system_time_max : N := (i64_max * NANOS_PER_SEC + 999999999)%N.

Definition time_add {E} (t d : N) : result N E :=
  if (t + d <=? system_time_max)%N then Ok (t + d)%N else Panic.

(** ** Identifiers *)

Record RelayId : Type := MkRelayId { relay_id : bytes }.

#[export] Instance RelayId_eq_dec : EqDecision RelayId.
Proof. solve_decision. Defined.

#[export] Instance RelayId_countable : Countable RelayId.
Proof. refine (inj_countable' relay_id MkRelayId _). by intros []. Defined.

Definition relay_id_byte (b : byte) : bool := in_range 48 57 b || in_range 97 102 b.

Definition RelayId_valid (raw : bytes) : option RelayId :=
  if (length raw =? 32) && forallb relay_id_byte raw then Some (MkRelayId raw) else None.

Definition RelayId_parse (raw : bytes) : result RelayId unit := ok_or (RelayId_valid raw) tt.

(** ** Configuration *)

Record Cli : Type := MkCli {
  cli_listen : SocketAddr;
  cli_auth : option bytes;
  cli_cert : option bytes;
  cli_key : option bytes;
  cli_persist : option bytes;
  cli_max_body_bytes : N;
  cli_max_wait_seconds : N;
  cli_mailbox_capacity : nat;
  cli_mailbox_ttl_seconds : N;
  cli_slot_ttl_seconds : N
}.

Record RelayConfig : Type := MkRelayConfig {
  rc_listen : SocketAddr;
  rc_auth : option bytes;
  rc_cert : option bytes;
  rc_key : option bytes;
  rc_persist : option bytes;
  rc_max_body_bytes : N;
  rc_max_wait : N;
  rc_mailbox_capacity : nat;
  rc_mailbox_ttl : N;
  rc_slot_ttl : N
}.

Definition RelayConfig_new (listen : SocketAddr) : RelayConfig :=
  MkRelayConfig listen None None None None DEFAULT_MAX_BODY_BYTES (from_secs DEFAULT_MAX_WAIT_SECONDS)
    DEFAULT_MAILBOX_CAPACITY (from_secs DEFAULT_MAILBOX_TTL_SECONDS) (from_secs DEFAULT_SLOT_TTL_SECONDS).

Section Relay.
(** The STANDARD base64 engine. *)
Context {B64 : Base64}.

Definition auth_header (raw : bytes) : result bytes bytes :=
  if existsb (λ b, bool_decide (b = x3a)) raw then Ok (lit "Basic " ++ b64_encode raw)
  else Err (lit "auth must be formatted as user:pass").

(** [env_auth] is the environment variable [ENLACE_RELAY_AUTH]. *)
Definition from_cli (env_auth : option bytes) (cli : Cli) : result RelayConfig bytes :=
  let! auth :=
    match (match cli_auth cli with Some a => Some a | None => env_auth end) with
    | Some raw => rmap Some (auth_header raw)
    | None => Ok None
    end in
  let! _ := guard_err (negb (bool_decide (is_Some (cli_cert cli) ↔ is_Some (cli_key cli))))
              (lit "--cert and --key must be provided together") in
  Ok (MkRelayConfig (cli_listen cli) auth (cli_cert cli) (cli_key cli) (cli_persist cli) (cli_max_body_bytes cli)
        (from_secs (cli_max_wait_seconds cli)) (Nat.max (cli_mailbox_capacity cli) 1)
        (from_secs (cli_mailbox_ttl_seconds cli)) (from_secs (cli_slot_ttl_seconds cli))).

Definition with_auth (auth : bytes) (c : RelayConfig) : result RelayConfig bytes :=
  let! a := auth_header auth in
  Ok (MkRelayConfig (rc_listen c) (Some a) (rc_cert c) (rc_key c) (rc_persist c) (rc_max_body_bytes c) (rc_max_wait c)
        (rc_mailbox_capacity c) (rc_mailbox_ttl c) (rc_slot_ttl c)).

Definition with_max_body_bytes (n : N) (c : RelayConfig) : RelayConfig :=
  MkRelayConfig (rc_listen c) (rc_auth c) (rc_cert c) (rc_key c) (rc_persist c) n (rc_max_wait c)
    (rc_mailbox_capacity c) (rc_mailbox_ttl c) (rc_slot_ttl c).

Definition with_max_wait (n : N) (c : RelayConfig) : RelayConfig :=
  MkRelayConfig (rc_listen c) (rc_auth c) (rc_cert c) (rc_key c) (rc_persist c) (rc_max_body_bytes c) n
    (rc_mailbox_capacity c) (rc_mailbox_ttl c) (rc_slot_ttl c).

Definition with_mailbox_capacity (n : nat) (c : RelayConfig) : RelayConfig :=
  MkRelayConfig (rc_listen c) (rc_auth c) (rc_cert c) (rc_key c) (rc_persist c) (rc_max_body_bytes c) (rc_max_wait c)
    (Nat.max n 1) (rc_mailbox_ttl c) (rc_slot_ttl c).

Definition with_mailbox_ttl (n : N) (c : RelayConfig) : RelayConfig :=
  MkRelayConfig (rc_listen c) (rc_auth c) (rc_cert c) (rc_key c) (rc_persist c) (rc_max_body_bytes c) (rc_max_wait c)
    (rc_mailbox_capacity c) n (rc_slot_ttl c).

Definition with_slot_ttl (n : N) (c : RelayConfig) : RelayConfig :=
  MkRelayConfig (rc_listen c) (rc_auth c) (rc_cert c) (rc_key c) (rc_persist c) (rc_max_body_bytes c) (rc_max_wait c)
    (rc_mailbox_capacity c) (rc_mailbox_ttl c) n.
End Relay.

(** ** The tables *)

Record MailboxEntry : Type := MkMailboxEntry { me_body : bytes; me_expires_at : N }.

Record SlotEntry : Type := MkSlotEntry { se_version : N; se_body : bytes; se_expires_at : N }.

Definition MailboxEntry_expired (now : N) (e : MailboxEntry) : bool := (me_expires_at e <=? now)%N.

Definition SlotEntry_expired (now : N) (e : SlotEntry) : bool := (se_expires_at e <=? now)%N.

(** [poisoned]: a thread has panicked while it held the lock. *)
Record Tables : Type := MkTables {
  mailboxes : gmap RelayId (list MailboxEntry);
  slots : gmap RelayId SlotEntry;
  poisoned : bool
}.

Definition set_mailboxes (m : gmap RelayId (list MailboxEntry)) (t : Tables) : Tables :=
  MkTables m (slots t) (poisoned t).

Definition set_slots (s : gmap RelayId SlotEntry) (t : Tables) : Tables :=
  MkTables (mailboxes t) s (poisoned t).

(** [while queue.len() >= capacity { queue.pop_front(); }]; [None] when the
    loop has not ended after [fuel] tests. *)
Fixpoint evict (fuel : nat) (capacity : nat) (queue : list MailboxEntry) : option (list MailboxEntry) :=
  match fuel with
  | O => None
  | S fuel => if capacity <=? length queue then evict fuel capacity (tail queue) else Some queue
  end.

(** [None]: the call does not return, with the lock held.  The expiry is
    computed after the queue was trimmed, so a panic there poisons the
    tables. *)
Definition push_mailbox (c : RelayConfig) (now : N) (id : RelayId) (body : bytes) (t : Tables)
    : option (result unit unit * Tables) :=
  if poisoned t then Some (Err tt, t) else
  let queue := default [] (mailboxes t !! id) in
  match evict (S (S (length queue))) (rc_mailbox_capacity c) queue with
  | None => None
  | Some queue =>
      match time_add (E:=unit) now (rc_mailbox_ttl c) with
      | Ok expires_at =>
          Some (Ok tt, set_mailboxes (<[id := queue ++ [MkMailboxEntry body expires_at]]> (mailboxes t)) t)
      | _ => Some (Panic, MkTables (<[id := queue]> (mailboxes t)) (slots t) true)
      end
  end.

(** The loop of [pop_mailbox]; [clock i] is the reading for the [i]-th entry. *)
Fixpoint pop_live (clock : nat → N) (i : nat) (queue : list MailboxEntry)
    : option bytes * list MailboxEntry :=
  match queue with
  | [] => (None, [])
  | e :: rest => if MailboxEntry_expired (clock i) e then pop_live clock (S i) rest
                 else (Some (me_body e), rest)
  end.

Definition pop_mailbox (clock : nat → N) (id : RelayId) (t : Tables)
    : result (option bytes) unit * Tables :=
  if poisoned t then (Err tt, t) else
  match mailboxes t !! id with
  | None => (Ok None, t)
  | Some queue =>
      let '(body, queue) := pop_live clock 0 queue in
      let m := match queue with
               | [] => delete id (mailboxes t)
               | _ => <[id := queue]> (mailboxes t)
               end in
      (Ok body, set_mailboxes m t)
  end.

Inductive PutOutcome : Type := PutOutcome_Stored | PutOutcome_Stale.

Definition put_slot (now : N) (id : RelayId) (slot : SlotEntry) (t : Tables)
    : result PutOutcome unit * Tables :=
  if poisoned t then (Err tt, t) else
  if match slots t !! id with
     | Some current => negb (SlotEntry_expired now current) && (se_version slot <=? se_version current)%N
     | None => false
     end
  then (Ok PutOutcome_Stale, t)
  else (Ok PutOutcome_Stored, set_slots (<[id := slot]> (slots t)) t).

Definition get_slot_newer (now : N) (id : RelayId) (since : N) (t : Tables)
    : result (option SlotEntry) unit * Tables :=
  if poisoned t then (Err tt, t) else
  match slots t !! id with
  | None => (Ok None, t)
  | Some slot =>
      if SlotEntry_expired now slot then (Ok None, set_slots (delete id (slots t)) t)
      else (Ok (if (since <? se_version slot)%N then Some slot else None), t)
  end.

(** ** Persisted slots *)

Definition unix_secs (time : N) : N := (time / NANOS_PER_SEC)%N.

Definition encode_slot (slot : SlotEntry) : bytes :=
  to_be_bytes 8 (se_version slot) ++ to_be_bytes 8 (unix_secs (se_expires_at slot)) ++ se_body slot.

(** [raw.get(..8)?], [raw.get(8..16)?] and [raw.get(16..)?] all succeed when
    there are 16 bytes. *)
Definition decode_slot (raw : bytes) : option (result SlotEntry unit) :=
  if length raw <? 16 then None else
  let version := from_be_bytes (take 8 raw) in
  let expires_at := from_be_bytes (take 8 (drop 8 raw)) in
  Some (let! e := time_add 0 (from_secs expires_at) in Ok (MkSlotEntry version (drop 16 raw) e)).

(** The loop over the stored records, [clock i] read for the [i]-th one: the
    live slots and the keys of the expired ones. *)
Fixpoint open_items (clock : nat → N) (i : nat) (items : list (bytes * bytes))
    (acc : gmap RelayId SlotEntry) (expired : list bytes)
    : result (gmap RelayId SlotEntry * list bytes) unit :=
  match items with
  | [] => Ok (acc, expired)
  | (key, value) :: rest =>
      match (if utf8_valid key then RelayId_valid key else None) with
      | None => open_items clock (S i) rest acc expired
      | Some id =>
          match decode_slot value with
          | None => open_items clock (S i) rest acc expired
          | Some r =>
              let! slot := r in
              if SlotEntry_expired (clock i) slot
              then open_items clock (S i) rest acc (expired ++ [key])
              else open_items clock (S i) rest (<[id := slot]> acc) expired
          end
      end
  end.

(** A panic of the blocking task is an error of the join. *)
Definition PersistentSlots_open (clock : nat → N) (db : gmap bytes bytes)
    : result (gmap RelayId SlotEntry) unit * gmap bytes bytes :=
  match open_items clock 0 (map_to_list db) ∅ [] with
  | Ok (live, expired) => (Ok live, foldr delete db expired)
  | _ => (Err tt, db)
  end.

(** The outcomes of sled's [insert] and [flush]. *)
Record SledIo : Type := MkSledIo { sled_insert_ok : bool; sled_flush_ok : bool }.

Definition PersistentSlots_insert (io : SledIo) (id : RelayId) (slot : SlotEntry) (db : gmap bytes bytes)
    : result unit unit * gmap bytes bytes :=
  if sled_insert_ok io then
    let db := <[relay_id id := encode_slot slot]> db in
    (if sled_flush_ok io then Ok tt else Err tt, db)
  else (Err tt, db).

(** ** Requests and responses *)

(** [str_headers] are the headers axum gives a [(StatusCode, &str)] response. *)
Class Axum := {
  Body : Type;
  to_bytes : Body → N → option bytes;
  str_headers : gmap bytes bytes
}.

Class AxumLaws `{AX : Axum} := {
  to_bytes_limit b n x : to_bytes b n = Some x → (len x ≤ n)%N
}.

Definition Duration : Type := N.

Section Handlers.
Context `{AX : Axum}.

(** What the extractors hand to a handler.  A header is [None] when it is
    absent or not visible ASCII. *)
Record Request : Type := MkRequest {
  rq_id : bytes;
  rq_query : gmap bytes bytes;
  rq_authorization : option bytes;
  rq_version : option bytes;
  rq_body : Body
}.

Record Response : Type := MkResponse {
  rs_status : N;
  rs_headers : gmap bytes bytes;
  rs_body : bytes
}.

Definition finish (r : Response) : Response :=
  MkResponse (rs_status r)
    (<[lit "access-control-allow-headers" := CORS_HEADERS]>
       (<[lit "access-control-allow-methods" := CORS_METHODS]>
          (<[lit "access-control-allow-origin" := lit "*"]> (rs_headers r))))
    (rs_body r).

Definition text_response (status : N) (body : bytes) : Response :=
  finish (MkResponse status (<[CONTENT_TYPE := TEXT_PLAIN]> str_headers) body).

Definition server_error : Response := finish (MkResponse 500 str_headers (lit "internal error")).

Definition empty_response (status : N) : Response := finish (MkResponse status ∅ []).

Definition octet_response (status : N) (body : bytes) (version : option N) : Response :=
  let headers := {[CONTENT_TYPE := OCTET_STREAM]} in
  finish (MkResponse status
            (match version with
             | Some v => <[VERSION_HEADER := u64_to_string v]> headers
             | None => headers
             end) body).

Definition check_auth (c : RelayConfig) (rq : Request) : bool :=
  match rc_auth c with
  | None => true
  | Some expected => bool_decide (rq_authorization rq = Some expected)
  end.

Definition bounded_body (body : Body) (max_body_bytes : N) : result bytes unit :=
  ok_or (to_bytes body max_body_bytes) tt.

Definition parse_query_u64 (query : gmap bytes bytes) (key : bytes) : result N unit :=
  match query !! key with
  | None => Ok 0%N
  | Some value => ok_or (parse_u64 value) tt
  end.

Definition parse_wait (query : gmap bytes bytes) (max_wait : Duration) : result Duration unit :=
  rmap (λ seconds, N.min (from_secs seconds) max_wait) (parse_query_u64 query (lit "wait")).

Definition parse_since (query : gmap bytes bytes) : result N unit := parse_query_u64 query (lit "since").

Definition parse_version (rq : Request) : result N unit := ok_or (rq_version rq ≫= parse_u64) tt.

(** [None] when the call returns at once or the deadline has passed. *)
Definition remaining (wait : Duration) (deadline now : N) : option Duration :=
  if (wait =? 0)%N then None
  else if (now <=? deadline)%N then Some (deadline - now)%N else None.

(** The guards all four handlers share. *)
Definition admit_request {A} (c : RelayConfig) (rq : Request) (k : RelayId → A) (reject : Response → A) : A :=
  if negb (check_auth c rq) then reject (text_response 401 (lit "unauthorized")) else
  match RelayId_parse (rq_id rq) with
  | Ok id => k id
  | _ => reject (text_response 400 (lit "malformed id"))
  end.

Definition reply : Type := result Response Empty_set.

(** [None]: the handler does not return. *)
Definition mailbox_enqueue (c : RelayConfig) (now : N) (rq : Request) (t : Tables) : option (reply * Tables) :=
  admit_request c rq
    (λ id,
      match bounded_body (rq_body rq) (rc_max_body_bytes c) with
      | Ok body =>
          match push_mailbox c now id body t with
          | None => None
          | Some (Ok _, t) => Some (Ok (empty_response 204), t)
          | Some (Err _, t) => Some (Ok server_error, t)
          | Some (Panic, t) => Some (Panic, t)
          end
      | _ => Some (Ok (text_response 413 (lit "payload too large")), t)
      end)
    (λ r, Some (Ok r, t)).

(** One round of a long-poll loop: what other requests did to the tables
    since the last attempt, the clock readings of the attempt and of
    [remaining], and whether the wait ended by a notification. *)
Record round : Type := MkRound {
  rd_others : Tables → Tables;
  rd_clock : nat → N;
  rd_instant : N;
  rd_notified : bool
}.

(** The loop shared by the two readers.  [None]: still waiting after [fuel]
    rounds. *)
Fixpoint long_poll {A} (attempt : round → Tables → result (option A) unit * Tables) (respond : A → Response)
    (wait : Duration) (deadline : N) (fuel : nat) (n : nat) (rounds : nat → round) (t : Tables)
    : option (reply * Tables) :=
  match fuel with
  | O => None
  | S fuel =>
      let rd := rounds n in
      match attempt rd (rd_others rd t) with
      | (Ok (Some a), t) => Some (Ok (respond a), t)
      | (Err _, t) => Some (Ok server_error, t)
      | (Panic, t) => Some (Panic, t)
      | (Ok None, t) =>
          match remaining wait deadline (rd_instant rd) with
          | None => Some (Ok (empty_response 204), t)
          | Some _ =>
              if rd_notified rd then long_poll attempt respond wait deadline fuel (S n) rounds t
              else Some (Ok (empty_response 204), t)
          end
      end
  end.

(** [start] is the reading of [Instant::now()] before the loop. *)
Definition mailbox_dequeue (c : RelayConfig) (start : N) (fuel : nat) (rounds : nat → round) (rq : Request)
    (t : Tables) : option (reply * Tables) :=
  admit_request c rq
    (λ id,
      match parse_wait (rq_query rq) (rc_max_wait c) with
      | Ok wait =>
          match time_add (E:=unit) start wait with
          | Ok deadline =>
              long_poll (λ rd, pop_mailbox (rd_clock rd) id) (λ body, octet_response 200 body None)
                wait deadline fuel 0 rounds t
          | _ => Some (Panic, t)
          end
      | _ => Some (Ok (text_response 400 (lit "malformed wait")), t)
      end)
    (λ r, Some (Ok r, t)).

Definition slot_read (c : RelayConfig) (start : N) (fuel : nat) (rounds : nat → round) (rq : Request)
    (t : Tables) : option (reply * Tables) :=
  admit_request c rq
    (λ id,
      match parse_since (rq_query rq) with
      | Ok since =>
          match parse_wait (rq_query rq) (rc_max_wait c) with
          | Ok wait =>
              match time_add (E:=unit) start wait with
              | Ok deadline =>
                  long_poll (λ rd, get_slot_newer (rd_clock rd 0) id since)
                    (λ slot, octet_response 200 (se_body slot) (Some (se_version slot)))
                    wait deadline fuel 0 rounds t
              | _ => Some (Panic, t)
              end
          | _ => Some (Ok (text_response 400 (lit "malformed wait")), t)
          end
      | _ => Some (Ok (text_response 400 (lit "malformed since")), t)
      end)
    (λ r, Some (Ok r, t)).

(** What a request that passed the guards writes. *)
Definition slot_of_request (c : RelayConfig) (now : N) (version : N) (body : bytes) : result SlotEntry unit :=
  let! expires_at := time_add now (rc_slot_ttl c) in Ok (MkSlotEntry version body expires_at).

(** [db] is [None] when persistence is off; [now] and [now'] are the
    readings for the expiry and inside [put_slot].  The notification is sent
    exactly with the 204 response. *)
Definition slot_write (c : RelayConfig) (now now' : N) (io : SledIo) (rq : Request) (t : Tables)
    (db : option (gmap bytes bytes)) : reply * Tables * option (gmap bytes bytes) :=
  admit_request c rq
    (λ id,
      match parse_version rq with
      | Ok version =>
          match bounded_body (rq_body rq) (rc_max_body_bytes c) with
          | Ok body =>
              match slot_of_request c now version body with
              | Ok slot =>
                  match put_slot now' id slot t with
                  | (Ok PutOutcome_Stored, t) =>
                      match db with
                      | None => (Ok (empty_response 204), t, None)
                      | Some db =>
                          match PersistentSlots_insert io id slot db with
                          | (Ok _, db) => (Ok (empty_response 204), t, Some db)
                          | (_, db) => (Ok server_error, t, Some db)
                          end
                      end
                  | (Ok PutOutcome_Stale, t) => (Ok (text_response 409 (lit "stale version")), t, db)
                  | (_, t) => (Ok server_error, t, db)
                  end
              | _ => (Panic, t, db)
              end
          | _ => (Ok (text_response 413 (lit "payload too large")), t, db)
          end
      | _ => (Ok (text_response 400 (lit "malformed version")), t, db)
      end)
    (λ r, (Ok r, t, db)).

Definition preflight : Response := empty_response 204.

(** The tables a router starts from, or the error of opening the store. *)
Definition build_router (c : RelayConfig) (clock : nat → N) (db : gmap bytes bytes)
    : result (Tables * option (gmap bytes bytes)) unit :=
  match rc_persist c with
  | Some _ =>
      let '(r, db) := PersistentSlots_open clock db in
      let! live := r in Ok (MkTables ∅ live false, Some db)
  | None => Ok (MkTables ∅ ∅ false, None)
  end.
End Handlers.

(** ** Lemmas: eviction and expiry *)

Lemma evict_ends fuel capacity queue :
  1 ≤ capacity → length queue < fuel →
  evict fuel capacity queue = Some (drop (S (length queue) - capacity) queue).
Proof.
  intros Hc. revert queue. induction fuel as [|fuel IH]; intros queue Hf; [lia |]. cbn [evict].
  destruct (Nat.leb_spec capacity (length queue)) as [Hle|Hlt].
  - destruct queue as [|e queue]; cbn [length tail] in *; [lia |]. rewrite IH by lia.
    f_equal. by replace (S (S (length queue)) - capacity) with (S (S (length queue) - capacity)) by lia.
  - by replace (S (length queue) - capacity) with 0 by lia.
Qed.

(** Every configuration the public constructors produce has room for one
    message, so that the eviction loop ends. *)
Lemma from_cli_capacity {B64 : Base64} env cli c : from_cli env cli = Ok c → 1 ≤ rc_mailbox_capacity c.
Proof.
  unfold from_cli. intros (a & _ & H)%rbind_Ok. apply rbind_Ok in H as (u & _ & [= <-]).
  cbn [rc_mailbox_capacity]. lia.
Qed.

Lemma with_mailbox_capacity_pos n c : 1 ≤ rc_mailbox_capacity (with_mailbox_capacity n c).
Proof. cbn. lia. Qed.

(** The expired entries [pop_live] discards, with the reading of the clock. *)
Fixpoint dead_prefix (clock : nat → N) (i : nat) (queue : list MailboxEntry) : list (MailboxEntry * N) :=
  match queue with
  | [] => []
  | e :: rest => if MailboxEntry_expired (clock i) e then (e, clock i) :: dead_prefix clock (S i) rest else []
  end.

Lemma pop_live_spec clock i queue :
  ∃ rest, queue = (fst <$> dead_prefix clock i queue) ++ rest
    ∧ Forall (λ x, MailboxEntry_expired x.2 x.1 = true) (dead_prefix clock i queue)
    ∧ match rest with
      | [] => pop_live clock i queue = (None, [])
      | e :: q => pop_live clock i queue = (Some (me_body e), q)
                  ∧ MailboxEntry_expired (clock (i + length (dead_prefix clock i queue))) e = false
      end.
Proof.
  revert i. induction queue as [|e queue IH]; intros i; [by exists [] |]. cbn [dead_prefix pop_live].
  destruct (MailboxEntry_expired (clock i) e) eqn:He.
  - destruct (IH (S i)) as (rest & Hq & Hd & Hr). exists rest. cbn [fmap list_fmap fst app].
    split; [by f_equal |]. split; [by constructor |].
    destruct rest as [|e' q]; [done |]. destruct Hr as [-> Hlive]. split; [done |].
    cbn [length]. by rewrite <- plus_n_Sm.
  - exists (e :: queue). cbn [fmap list_fmap app length]. rewrite Nat.add_0_r. by split_and!.
Qed.

(** ** Histories of one relay *)

Inductive mailbox_op : Type :=
| MPush (now : N) (id : RelayId) (body : bytes)
| MPop (clock : nat → N) (id : RelayId).

(** Why an entry left a queue without being delivered. *)
Inductive loss : Type := Expired (now : N) | Evicted.

Definition queue_of (t : Tables) (id : RelayId) : list MailboxEntry := default [] (mailboxes t !! id).

(** The tables with everything that was pushed, popped and lost, oldest
    first. *)
Record mailbox_log : Type := MkMailboxLog {
  ml_tables : Tables;
  ml_pushed : list (RelayId * MailboxEntry);
  ml_popped : list (RelayId * bytes);
  ml_lost : list (RelayId * (MailboxEntry * loss))
}.

(** [None]: the operation panicked or did not return. *)
Definition run_mailbox_op (c : RelayConfig) (l : mailbox_log) (op : mailbox_op) : option mailbox_log :=
  match op with
  | MPush now id body =>
      let q := queue_of (ml_tables l) id in
      match push_mailbox c now id body (ml_tables l) with
      | Some (Ok _, t) =>
          let evicted := take (S (length q) - rc_mailbox_capacity c) q in
          Some (MkMailboxLog t
                  (ml_pushed l ++ [(id, MkMailboxEntry body (now + rc_mailbox_ttl c)%N)]) (ml_popped l)
                  (ml_lost l ++ ((λ e, (id, (e, Evicted))) <$> evicted)))
      | _ => None
      end
  | MPop clock id =>
      let q := queue_of (ml_tables l) id in
      match pop_mailbox clock id (ml_tables l) with
      | (Ok body, t) =>
          let dead := dead_prefix clock 0 q in
          let popped := match body with Some b => [(id, b)] | None => [] end in
          Some (MkMailboxLog t (ml_pushed l) (ml_popped l ++ popped)
                  (ml_lost l ++ ((λ x : MailboxEntry * N, (id, (x.1, Expired x.2))) <$> dead)))
      | _ => None
      end
  end.

Fixpoint run_mailbox_ops (c : RelayConfig) (l : mailbox_log) (ops : list mailbox_op) : option mailbox_log :=
  match ops with
  | [] => Some l
  | op :: ops => match run_mailbox_op c l op with
                 | Some l => run_mailbox_ops c l ops
                 | None => None
                 end
  end.

Definition empty_log : mailbox_log := MkMailboxLog (MkTables ∅ ∅ false) [] [] [].

(** The part of a history that concerns one mailbox. *)
Definition at_id {A} (id : RelayId) (l : list (RelayId * A)) : list A :=
  filter_map (λ x : RelayId * A, if decide (x.1 = id) then Some x.2 else None) l.

Lemma at_id_app {A} id (l k : list (RelayId * A)) : at_id id (l ++ k) = at_id id l ++ at_id id k.
Proof. apply filter_map_app. Qed.

Lemma at_id_here {A} id (a : A) : at_id id [(id, a)] = [a].
Proof. unfold at_id. cbn. by rewrite decide_True. Qed.

Lemma at_id_fmap {A B} id (f : B → A) l : at_id id ((λ x, (id, f x)) <$> l) = f <$> l.
Proof.
  unfold at_id. induction l as [|x l IH]; [done |]. cbn. rewrite decide_True by done. by f_equal.
Qed.

Lemma at_id_other {A B} id id' (f : B → A) l : id' ≠ id → at_id id ((λ x, (id', f x)) <$> l) = [].
Proof.
  intros Hne. unfold at_id. induction l as [|x l IH]; [done |]. cbn. by rewrite decide_False.
Qed.

Lemma at_id_other_one {A} id id' (a : A) : id' ≠ id → at_id id [(id', a)] = [].
Proof. intros Hne. unfold at_id. cbn. by rewrite decide_False. Qed.

(** The accounting of one mailbox: everything ever pushed is either gone or
    still queued, in order; what is gone was delivered, in order, or lost for
    a reason. *)
Record mailbox_inv (capacity : nat) (pushed queue : list MailboxEntry) (popped : list bytes)
    (lost : list (MailboxEntry * loss)) : Prop := {
  mi_bound : length queue ≤ capacity;
  mi_account : ∃ gone, pushed = gone ++ queue
    ∧ popped `sublist_of` (me_body <$> gone)
    ∧ me_body <$> gone ≡ₚ popped ++ (me_body ∘ fst <$> lost);
  mi_reason : Forall (λ x : MailboxEntry * loss,
    match x.2 with
    | Expired now => MailboxEntry_expired now x.1 = true
    | Evicted => ∃ pre post, pushed = pre ++ x.1 :: post ∧ capacity ≤ length post
    end) lost
}.

Lemma mailbox_inv_push capacity pushed queue popped lost e :
  1 ≤ capacity → mailbox_inv capacity pushed queue popped lost →
  mailbox_inv capacity (pushed ++ [e]) (drop (S (length queue) - capacity) queue ++ [e]) popped
    (lost ++ ((λ x, (x, Evicted)) <$> take (S (length queue) - capacity) queue)).
Proof.
  intros Hc [Hb (gone & Hp & Hsub & Hperm) Hr]. set (k := S (length queue) - capacity).
  split.
  - rewrite length_app, length_drop. cbn. lia.
  - exists (gone ++ take k queue). rewrite Hp. split; [by rewrite <- !app_assoc, (app_assoc (take k queue)), take_drop |].
    rewrite !fmap_app. split; [by apply sublist_inserts_r |].
    rewrite Hperm, <- app_assoc. by rewrite <- list_fmap_compose.
  - apply Forall_app. split.
    + eapply Forall_impl; [exact Hr |]. intros [x [now|]]; [done |]. cbn.
      intros (pre & post & -> & Hl). exists pre, (post ++ [e]). rewrite <- app_assoc, length_app. cbn.
      split; [done | lia].
    + apply Forall_fmap, Forall_forall. cbn. intros x (j & Hj & Hlt)%elem_of_take.
      exists (gone ++ take j queue), (drop (S j) queue ++ [e]). split.
      * rewrite Hp, <- app_assoc. rewrite <- (take_drop_middle _ _ _ Hj) at 1. by rewrite <- !app_assoc.
      * rewrite length_app, length_drop. cbn. lia.
Qed.

Lemma mailbox_inv_pop capacity pushed queue popped lost clock :
  mailbox_inv capacity pushed queue popped lost →
  let '(body, queue') := pop_live clock 0 queue in
  mailbox_inv capacity pushed queue' (popped ++ match body with Some b => [b] | None => [] end)
    (lost ++ ((λ x : MailboxEntry * N, (x.1, Expired x.2)) <$> dead_prefix clock 0 queue)).
Proof.
  intros [Hb (gone & Hp & Hsub & Hperm) Hr].
  destruct (pop_live_spec clock 0 queue) as (rest & Hq & Hd & Hrest).
  set (dead := dead_prefix clock 0 queue) in *.
  assert (Forall (λ x : MailboxEntry * loss,
    match x.2 with
    | Expired now => MailboxEntry_expired now x.1 = true
    | Evicted => ∃ pre post, pushed = pre ++ x.1 :: post ∧ capacity ≤ length post
    end) (lost ++ ((λ x : MailboxEntry * N, (x.1, Expired x.2)) <$> dead))) as Hr'.
  { apply Forall_app. split; [done |]. apply Forall_fmap. eapply Forall_impl; [exact Hd |]. done. }
  assert (length rest ≤ capacity) as Hlen.
  { rewrite Hq, length_app in Hb. lia. }
  assert (me_body <$> gone ++ (fst <$> dead)
    ≡ₚ popped ++ (me_body ∘ fst <$> lost ++ ((λ x : MailboxEntry * N, (x.1, Expired x.2)) <$> dead))) as Hacc.
  { rewrite !fmap_app, Hperm, <- app_assoc. by rewrite <- !list_fmap_compose. }
  assert (popped `sublist_of` (me_body <$> gone ++ (fst <$> dead))) as Hsub'.
  { rewrite fmap_app. by apply sublist_inserts_r. }
  destruct rest as [|e q].
  - rewrite Hrest, app_nil_r. split; [cbn; lia | | done].
    exists (gone ++ (fst <$> dead)). rewrite Hp, Hq at 1. by rewrite !app_nil_r.
  - destruct Hrest as [-> _]. split; [cbn in Hlen; lia | | done].
    exists (gone ++ (fst <$> dead) ++ [e]). split; [rewrite Hp, Hq at 1; by rewrite <- !app_assoc |].
    rewrite app_assoc, fmap_app. cbn [fmap list_fmap]. split.
    + by apply sublist_app.
    + rewrite Hacc, <- !app_assoc. apply Permutation_app_head. apply Permutation_app_comm.
Qed.

Definition log_inv (c : RelayConfig) (l : mailbox_log) : Prop :=
  poisoned (ml_tables l) = false
  ∧ ∀ id, mailbox_inv (rc_mailbox_capacity c) (at_id id (ml_pushed l)) (queue_of (ml_tables l) id)
            (at_id id (ml_popped l)) (at_id id (ml_lost l)).

(** The expiry of every push can be represented. *)
Definition op_fits (c : RelayConfig) (op : mailbox_op) : Prop :=
  match op with
  | MPush now _ _ => (now + rc_mailbox_ttl c ≤ system_time_max)%N
  | MPop _ _ => True
  end.

Lemma push_mailbox_Ok c now id body t :
  1 ≤ rc_mailbox_capacity c → poisoned t = false → (now + rc_mailbox_ttl c ≤ system_time_max)%N →
  push_mailbox c now id body t
  = Some (Ok tt, set_mailboxes
      (<[id := drop (S (length (queue_of t id)) - rc_mailbox_capacity c) (queue_of t id)
               ++ [MkMailboxEntry body (now + rc_mailbox_ttl c)%N]]> (mailboxes t)) t).
Proof.
  intros Hc Hp Ht. unfold push_mailbox. rewrite Hp. fold (queue_of t id).
  rewrite evict_ends by lia. unfold time_add. by rewrite (proj2 (N.leb_le _ _) Ht).
Qed.

Lemma pop_mailbox_Ok clock id t :
  poisoned t = false →
  ∃ t', pop_mailbox clock id t = (Ok (pop_live clock 0 (queue_of t id)).1, t')
    ∧ poisoned t' = false ∧ queue_of t' id = (pop_live clock 0 (queue_of t id)).2
    ∧ ∀ id', id' ≠ id → queue_of t' id' = queue_of t id'.
Proof.
  intros Hp. unfold pop_mailbox, queue_of. rewrite Hp.
  destruct (mailboxes t !! id) as [q|] eqn:Hq.
  - change (default [] (Some q)) with q. destruct (pop_live clock 0 q) as [body q'].
    eexists. split; [reflexivity |]. cbn [poisoned set_mailboxes mailboxes fst snd].
    destruct q' as [|e q']; (split; [done |]); (split; [by rewrite ?lookup_delete_eq, ?lookup_insert_eq |]);
      intros id' Hne; by rewrite ?lookup_delete_ne, ?lookup_insert_ne.
  - exists t. by rewrite Hq.
Qed.

Lemma run_mailbox_op_inv c l op :
  1 ≤ rc_mailbox_capacity c → op_fits c op → log_inv c l →
  ∃ l', run_mailbox_op c l op = Some l' ∧ log_inv c l'.
Proof.
  intros Hc Hfit [Hp Hinv]. destruct op as [now id body|clock id]; cbn [run_mailbox_op].
  - rewrite push_mailbox_Ok by done. eexists. split; [reflexivity |]. split; [done |]. intros id'.
    cbn [ml_tables ml_pushed ml_popped ml_lost]. rewrite !at_id_app. unfold queue_of at 1.
    cbn [mailboxes set_mailboxes]. destruct (decide (id = id')) as [<-|Hne].
    + rewrite lookup_insert_eq, at_id_here, (at_id_fmap id (λ e, (e, Evicted))). by apply mailbox_inv_push.
    + rewrite lookup_insert_ne by done.
      rewrite at_id_other_one, (at_id_other _ _ (λ e, (e, Evicted))), !app_nil_r by done. apply Hinv.
  - destruct (pop_mailbox_Ok clock id (ml_tables l) Hp) as (t' & -> & Hp' & Hq & Hother).
    eexists. split; [reflexivity |]. split; [done |]. intros id'.
    cbn [ml_tables ml_pushed ml_popped ml_lost]. rewrite !at_id_app.
    destruct (decide (id = id')) as [<-|Hne].
    + rewrite Hq, (at_id_fmap id (λ x : MailboxEntry * N, (x.1, Expired x.2))).
      pose proof (mailbox_inv_pop _ _ _ _ _ clock (Hinv id)) as Hpop.
      destruct (pop_live clock 0 (queue_of (ml_tables l) id)) as [[b|] q']; cbn [fst snd];
        by rewrite ?at_id_here.
    + rewrite Hother by done.
      rewrite (at_id_other _ _ (λ x : MailboxEntry * N, (x.1, Expired x.2))), !app_nil_r by done.
      destruct (pop_live _ _ _).1; rewrite ?at_id_other_one, ?app_nil_r by done; apply Hinv.
Qed.

(** ** Claims: mailboxes *)

(** C14: a relay mailbox is a bounded FIFO.  Any sequence of enqueues and
    dequeues on any mailboxes runs to completion, and for every mailbox what
    was enqueued is what has left it followed by what is still queued, in
    order; the bodies delivered are a subsequence of those that left, in the
    order in which they were enqueued, each at most once; every other one
    that left had expired when it was discarded or was followed by at least
    [capacity] newer ones; and no more than [capacity] are queued. *)
Theorem relay_mailbox_fifo (c : RelayConfig) (ops : list mailbox_op) :
  1 ≤ rc_mailbox_capacity c → Forall (op_fits c) ops →
  ∃ l, run_mailbox_ops c empty_log ops = Some l
  ∧ ∀ id,
    length (queue_of (ml_tables l) id) ≤ rc_mailbox_capacity c
    ∧ (∃ gone, at_id id (ml_pushed l) = gone ++ queue_of (ml_tables l) id
        ∧ at_id id (ml_popped l) `sublist_of` (me_body <$> gone)
        ∧ me_body <$> gone ≡ₚ at_id id (ml_popped l) ++ (me_body ∘ fst <$> at_id id (ml_lost l)))
    ∧ Forall (λ x : MailboxEntry * loss,
        match x.2 with
        | Expired now => MailboxEntry_expired now x.1 = true
        | Evicted => ∃ pre post, at_id id (ml_pushed l) = pre ++ x.1 :: post
                       ∧ rc_mailbox_capacity c ≤ length post
        end) (at_id id (ml_lost l)).
Proof.
  intros Hc Hfit.
  assert (∀ l, log_inv c l → ∃ l', run_mailbox_ops c l ops = Some l' ∧ log_inv c l') as Hrun.
  { induction Hfit as [|op ops Hop Hops IH]; intros l Hl; cbn [run_mailbox_ops]; [by exists l |].
    destruct (run_mailbox_op_inv c l op Hc Hop Hl) as (l' & -> & Hl'). by apply IH. }
  destruct (Hrun empty_log) as (l & Hl & _ & Hinv).
  - split; [done |]. intros id.
    assert (queue_of (ml_tables empty_log) id = []) as ->
      by (unfold queue_of; cbn [ml_tables empty_log mailboxes]; by rewrite lookup_empty).
    split; [cbn; lia | by exists [] | constructor].
  - exists l. split; [done |]. intros id. by destruct (Hinv id).
Qed.

(** ** Slots: a versioned register with expiry *)

(** [now] is read for the expiry and [now'] inside [put_slot]. *)
Inductive slot_op : Type :=
| SPut (now now' : N) (id : RelayId) (version : N) (body : bytes)
| SGet (now : N) (id : RelayId) (since : N).

Inductive slot_out : Type := OPut (o : PutOutcome) | OGet (r : option SlotEntry) | OFail.

Definition run_slot_op (c : RelayConfig) (t : Tables) (op : slot_op) : slot_out * Tables :=
  match op with
  | SPut now now' id version body =>
      match put_slot now' id (MkSlotEntry version body (now + rc_slot_ttl c)%N) t with
      | (Ok o, t) => (OPut o, t)
      | (_, t) => (OFail, t)
      end
  | SGet now id since =>
      match get_slot_newer now id since t with
      | (Ok r, t) => (OGet r, t)
      | (_, t) => (OFail, t)
      end
  end.

(** The abstract register: the last accepted value of every slot, never
    removed. *)
Definition register_op (c : RelayConfig) (m : gmap RelayId SlotEntry) (op : slot_op)
    : slot_out * gmap RelayId SlotEntry :=
  match op with
  | SPut now now' id version body =>
      let slot := MkSlotEntry version body (now + rc_slot_ttl c)%N in
      match m !! id with
      | Some s => if decide ((now' < se_expires_at s)%N ∧ (version ≤ se_version s)%N)
                  then (OPut PutOutcome_Stale, m) else (OPut PutOutcome_Stored, <[id := slot]> m)
      | None => (OPut PutOutcome_Stored, <[id := slot]> m)
      end
  | SGet now id since =>
      (OGet (match m !! id with
             | Some s => if decide ((now < se_expires_at s)%N ∧ (since < se_version s)%N)
                         then Some s else None
             | None => None
             end), m)
  end.

Fixpoint run_ops {St} (step : St → slot_op → slot_out * St) (s : St) (ops : list slot_op)
    : list slot_out * St :=
  match ops with
  | [] => ([], s)
  | op :: ops =>
      let '(o, s) := step s op in
      let '(os, s) := run_ops step s ops in (o :: os, s)
  end.

Definition op_begin (op : slot_op) : N := match op with SPut now _ _ _ _ => now | SGet now _ _ => now end.
Definition op_end (op : slot_op) : N := match op with SPut _ now' _ _ _ => now' | SGet now _ _ => now end.

(** The clock does not run backwards. *)
Fixpoint chronological (t : N) (ops : list slot_op) : Prop :=
  match ops with
  | [] => True
  | op :: ops => (t ≤ op_begin op ≤ op_end op)%N ∧ chronological (op_end op) ops
  end.

(** The tables agree with the register, up to values that have expired. *)
Definition slot_sim (now : N) (t : Tables) (m : gmap RelayId SlotEntry) : Prop :=
  poisoned t = false
  ∧ ∀ id, slots t !! id = m !! id
        ∨ slots t !! id = None ∧ ∃ s, m !! id = Some s ∧ (se_expires_at s ≤ now)%N.

Lemma slot_sim_later now now' t m : (now ≤ now')%N → slot_sim now t m → slot_sim now' t m.
Proof.
  intros Hle [Hp H]. split; [done |]. intros id. destruct (H id) as [?|(? & s & ? & ?)]; [by left |].
  right. split; [done |]. exists s. split; [done | lia].
Qed.

Lemma slot_sim_insert now t m id s :
  slot_sim now t m → slot_sim now (set_slots (<[id := s]> (slots t)) t) (<[id := s]> m).
Proof.
  intros [Hp H]. split; [done |]. intros id'. cbn [set_slots slots].
  destruct (decide (id = id')) as [<-|Hne]; [left; by rewrite !lookup_insert_eq |].
  rewrite !lookup_insert_ne by done. apply H.
Qed.

Lemma slot_sim_step c now t m op :
  (now ≤ op_begin op ≤ op_end op)%N → slot_sim now t m →
  (run_slot_op c t op).1 = (register_op c m op).1
  ∧ slot_sim (op_end op) (run_slot_op c t op).2 (register_op c m op).2.
Proof.
  intros Hnow Hsim. apply (slot_sim_later now (op_end op)) in Hsim; [| lia].
  destruct op as [now0 now' id version body|now0 id since]; cbn [run_slot_op register_op op_begin op_end] in *.
  - unfold put_slot. destruct (Hsim) as [-> H]. unfold SlotEntry_expired.
    destruct (H id) as [->|(-> & s & -> & Hexp)].
    + destruct (m !! id) as [s|]; [| split; [done | by apply slot_sim_insert]].
      cbn [se_version]. case_decide as Hd.
      * rewrite (proj2 (N.leb_gt _ _)), (proj2 (N.leb_le _ _)) by lia. by split.
      * assert (negb (se_expires_at s <=? now')%N && (version <=? se_version s)%N = false) as ->.
        { destruct (N.leb_spec (se_expires_at s) now'), (N.leb_spec version (se_version s)); cbn;
            try reflexivity; exfalso; apply Hd; lia. }
        split; [done | by apply slot_sim_insert].
    + rewrite decide_False by lia. split; [done | by apply slot_sim_insert].
  - unfold get_slot_newer. destruct (Hsim) as [-> H]. unfold SlotEntry_expired.
    destruct (H id) as [Heq|(-> & s & -> & Hexp)].
    + rewrite Heq. destruct (m !! id) as [s|] eqn:Hm; [| by split].
      destruct (N.leb_spec (se_expires_at s) now0) as [Hle|Hgt].
      * rewrite decide_False by lia. split; [done |]. split; [apply Hsim |]. intros id'. cbn [snd set_slots slots].
        destruct (decide (id = id')) as [<-|Hne].
        -- right. rewrite lookup_delete_eq. split; [done |]. exists s. by split.
        -- rewrite lookup_delete_ne by done. apply H.
      * split; [| done]. cbn [fst]. do 2 f_equal.
        destruct (N.ltb_spec since (se_version s)); [rewrite decide_True by lia | rewrite decide_False by lia]; done.
    + rewrite decide_False by lia. by split.
Qed.

Lemma run_ops_sim c now t m ops :
  chronological now ops → slot_sim now t m →
  (run_ops (run_slot_op c) t ops).1 = (run_ops (register_op c) m ops).1.
Proof.
  revert now t m. induction ops as [|op ops IH]; intros now t m Hc Hsim; [done |].
  destruct Hc as [Hop Hc]. destruct (slot_sim_step c now t m op Hop Hsim) as [Ho Hs].
  cbn [run_ops]. destruct (run_slot_op c t op) as [o t'], (register_op c m op) as [o' m']. cbn [fst snd] in *.
  specialize (IH (op_end op) t' m' Hc Hs).
  destruct (run_ops (run_slot_op c) t' ops), (run_ops (register_op c) m' ops). cbn [fst] in *. by subst.
Qed.

(** C15: the slot table implements a versioned register.  For every sequence
    of writes and reads under a clock that does not run backwards, the
    answers are those of a register that keeps the last accepted value of
    each slot for ever: a write is refused exactly when an unexpired value of
    at least its version is held, and a read returns the last accepted value
    when it is unexpired and newer than [since].  Dropping expired values on
    reads is invisible. *)
Theorem relay_slot_refines_register (c : RelayConfig) (t0 : N) (ops : list slot_op) :
  chronological t0 ops →
  (run_ops (run_slot_op c) (MkTables ∅ ∅ false) ops).1 = (run_ops (register_op c) ∅ ops).1.
Proof.
  intros Hc. apply (run_ops_sim c t0); [done |]. split; [done |]. intros id. left. by rewrite !lookup_empty.
Qed.

(** *** Reads do not go back *)

(** Nothing in the register expires later than a value written now would. *)
Definition expiry_bounded (c : RelayConfig) (now : N) (m : gmap RelayId SlotEntry) : Prop :=
  ∀ id s, m !! id = Some s → (se_expires_at s ≤ now + rc_slot_ttl c)%N.

(** The register holds [a] or something newer that lives at least as long. *)
Definition at_least (id : RelayId) (a : SlotEntry) (m : gmap RelayId SlotEntry) : Prop :=
  ∃ s, m !! id = Some s ∧ (se_expires_at a ≤ se_expires_at s)%N ∧ (s = a ∨ (se_version a < se_version s)%N).

Lemma register_step c now m op :
  (now ≤ op_begin op ≤ op_end op)%N → expiry_bounded c now m →
  expiry_bounded c (op_end op) (register_op c m op).2
  ∧ ∀ id a, (op_end op < se_expires_at a)%N → at_least id a m → at_least id a (register_op c m op).2.
Proof.
  intros Hop Hb. destruct op as [now0 now' i version body|now0 i since]; cbn [register_op op_begin op_end] in *.
  2:{ split; [| done]. intros id s Hs%Hb. cbn in *. lia. }
  set (new := MkSlotEntry version body (now0 + rc_slot_ttl c)%N).
  assert (expiry_bounded c now' m) as Hb' by (intros id s Hs%Hb; lia).
  assert (expiry_bounded c now' (<[i := new]> m)) as Hbi.
  { intros id s. destruct (decide (i = id)) as [<-|Hne].
    - rewrite lookup_insert_eq. intros [= <-]. cbn. lia.
    - rewrite lookup_insert_ne by done. apply Hb'. }
  assert (∀ id a, (m !! i = None ∨ ∃ s, m !! i = Some s ∧ ~ ((now' < se_expires_at s)%N ∧ (version ≤ se_version s)%N)) →
    (now' < se_expires_at a)%N → at_least id a m → at_least id a (<[i := new]> m)) as Hins.
  { intros id a Hacc Hlive (s & Hs & Hexp & Hv). destruct (decide (i = id)) as [<-|Hne].
    - destruct Hacc as [Hnone|(s' & Hs' & Hn)]; [congruence |]. assert (s' = s) as -> by congruence.
      exists new. rewrite lookup_insert_eq. apply Hb in Hs. cbn. split; [done |]. split; [lia |].
      right. destruct Hv as [->|Hv]; lia.
    - exists s. by rewrite lookup_insert_ne. }
  destruct (m !! i) as [s|] eqn:Hi; cbn [snd].
  - case_decide as Hd; cbn [snd]; (split; [done |]); [done |]. intros id a. apply Hins. right. by exists s.
  - split; [done |]. intros id a. apply Hins. by left.
Qed.

Lemma register_run c now m ops t2 :
  chronological now ops → expiry_bounded c now m →
  (match last ops with Some op => op_end op | None => now end ≤ t2)%N →
  ∀ id a, (t2 < se_expires_at a)%N → at_least id a m → at_least id a (run_ops (register_op c) m ops).2.
Proof.
  revert now m. induction ops as [|op ops IH]; intros now m Hc Hb Ht id a Ha Hl; [done |].
  destruct Hc as [Hop Hc]. destruct (register_step c now m op Hop Hb) as [Hb' Hl'].
  assert (op_end op ≤ match last ops with Some op => op_end op | None => op_end op end)%N as Hmid.
  { clear -Hc. revert Hc. generalize (op_end op) as u. induction ops as [|o ops IH]; intros u Hc; [cbn; lia |].
    destruct Hc as [Ho Hc]. specialize (IH _ Hc). rewrite last_cons. destruct (last ops); lia. }
  rewrite last_cons in Ht.
  assert (op_end op ≤ t2)%N as Hle by (destruct (last ops); lia).
  cbn [run_ops]. specialize (Hl' id a ltac:(lia) Hl).
  destruct (register_op c m op) as [o m']. cbn [snd] in *.
  assert (match last ops with Some op0 => op_end op0 | None => op_end op end ≤ t2)%N as Ht'
    by (destruct (last ops); lia).
  specialize (IH (op_end op) m' Hc Hb' Ht' id a Ha Hl').
  by destruct (run_ops (register_op c) m' ops).
Qed.

Lemma run_ops_app {St} (step : St → slot_op → slot_out * St) s l k :
  run_ops step s (l ++ k)
  = ((run_ops step s l).1 ++ (run_ops step (run_ops step s l).2 k).1,
     (run_ops step (run_ops step s l).2 k).2).
Proof.
  revert s. induction l as [|op l IH]; intros s; cbn [app run_ops fst snd]; [by destruct (run_ops step s k) |].
  destruct (step s op) as [o s']. rewrite IH. by destruct (run_ops step s' l).
Qed.

Lemma run_ops_length {St} (step : St → slot_op → slot_out * St) s l : length (run_ops step s l).1 = length l.
Proof.
  revert s. induction l as [|op l IH]; intros s; cbn [run_ops]; [done |].
  destruct (step s op) as [o s']. specialize (IH s'). destruct (run_ops step s' l). cbn [fst length] in *.
  by rewrite IH.
Qed.

Lemma chronological_app now l k :
  chronological now (l ++ k) ↔
  chronological now l ∧ chronological (match last l with Some op => op_end op | None => now end) k.
Proof.
  revert now. induction l as [|op l IH]; intros now; cbn [app chronological]; [naive_solver |].
  rewrite IH, last_cons. destruct (last l); naive_solver.
Qed.

Lemma register_bounded c now m ops :
  chronological now ops → expiry_bounded c now m →
  expiry_bounded c (match last ops with Some op => op_end op | None => now end)
    (run_ops (register_op c) m ops).2.
Proof.
  revert now m. induction ops as [|op ops IH]; intros now m Hc Hb; [done |].
  destruct Hc as [Hop Hc]. destruct (register_step c now m op Hop Hb) as [Hb' _].
  rewrite last_cons. cbn [run_ops]. destruct (register_op c m op) as [o m'].
  specialize (IH (op_end op) m' Hc Hb'). destruct (run_ops (register_op c) m' ops) as [os m'']. cbn [snd] in *.
  by destruct (last ops).
Qed.

(** Reads of a slot do not go back.  If one read returns a value that is
    still unexpired when a later read of the same slot returns something,
    the later one returns the same value or a strictly newer version,
    whatever was written to any slot in between. *)
Lemma relay_slot_reads_monotone (c : RelayConfig) (t0 t1 t2 since1 since2 : N) (id : RelayId)
    (before between : list slot_op) (a b : SlotEntry) :
  chronological t0 (before ++ SGet t1 id since1 :: between ++ [SGet t2 id since2]) →
  let outs := (run_ops (run_slot_op c) (MkTables ∅ ∅ false)
                 (before ++ SGet t1 id since1 :: between ++ [SGet t2 id since2])).1 in
  outs !! length before = Some (OGet (Some a)) →
  last outs = Some (OGet (Some b)) →
  (t2 < se_expires_at a)%N →
  b = a ∨ (se_version a < se_version b)%N.
Proof.
  intros Hc outs Ha Hb Hlive.
  assert (outs = (run_ops (register_op c) ∅ (before ++ SGet t1 id since1 :: between ++ [SGet t2 id since2])).1)
    as Hreg.
  { apply (run_ops_sim c t0); [done |]. split; [done |]. intros i. left. by rewrite !lookup_empty. }
  rewrite run_ops_app in Hreg. cbn [fst] in Hreg.
  apply chronological_app in Hc as [Hc1 Hc2]. cbn [chronological op_begin op_end] in Hc2.
  destruct Hc2 as [Ht1 Hc2]. apply chronological_app in Hc2 as [Hc2 Hc3].
  cbn [chronological op_begin op_end] in Hc3. destruct Hc3 as [Ht2 _].
  assert (expiry_bounded c t0 ∅) as Hb0 by (intros i s Hs; by rewrite lookup_empty in Hs).
  pose proof (register_bounded c t0 ∅ before Hc1 Hb0) as Hb1.
  set (m1 := (run_ops (register_op c) ∅ before).2) in *.
  cbn [run_ops register_op] in Hreg. rewrite run_ops_app in Hreg.
  set (m2 := (run_ops (register_op c) m1 between).2) in *. cbn [run_ops register_op fst] in Hreg.
  rewrite Hreg, lookup_app_r in Ha by (by rewrite run_ops_length).
  rewrite run_ops_length, Nat.sub_diag in Ha. cbn in Ha.
  rewrite Hreg in Hb. rewrite app_comm_cons, app_assoc, last_snoc in Hb.
  destruct (m1 !! id) as [s|] eqn:Hm1; [| done]. case_decide as Hd1; [| done]. injection Ha as ->.
  assert (at_least id a m2) as (s & Hm2 & _ & Hs).
  { eapply (register_run c t1 m1 between t2 Hc2); [| | done |].
    - intros i x Hx%Hb1. lia.
    - lia.
    - exists a. split; [done |]. split; [lia | by left]. }
  rewrite Hm2 in Hb. case_decide; [| done]. injection Hb as ->. done.
Qed.

(** ** Authentication and persistence *)

Section HandlerClaims.
Context `{AX : Axum}.

(** With a credential configured, a request whose [Authorization] text is
    not exactly that credential gets 401 from every handler and changes
    neither the tables nor the store. *)
Lemma relay_rejects_unauthorized (c : RelayConfig) (cred : bytes) (rq : Request) (t : Tables)
    (db : option (gmap bytes bytes)) (now now' : N) (io : SledIo) (fuel : nat) (rounds : nat → round) :
  rc_auth c = Some cred → rq_authorization rq ≠ Some cred →
  let denied := text_response 401 (lit "unauthorized") in
  mailbox_enqueue c now rq t = Some (Ok denied, t)
  ∧ mailbox_dequeue c now fuel rounds rq t = Some (Ok denied, t)
  ∧ slot_read c now fuel rounds rq t = Some (Ok denied, t)
  ∧ slot_write c now now' io rq t db = (Ok denied, t, db).
Proof.
  intros Hc Hrq denied. unfold mailbox_enqueue, mailbox_dequeue, slot_read, slot_write, admit_request, check_auth.
  rewrite Hc, bool_decide_eq_false_2 by done. done.
Qed.
End HandlerClaims.

(** Storing truncates the expiry to whole seconds. *)
Definition truncate_slot (s : SlotEntry) : SlotEntry :=
  MkSlotEntry (se_version s) (se_body s) (from_secs (unix_secs (se_expires_at s))).

Lemma unix_secs_bound t : (t ≤ system_time_max)%N → (unix_secs t ≤ i64_max)%N.
Proof.
  intros Ht. unfold unix_secs. apply N.lt_succ_r. apply N.Div0.div_lt_upper_bound.
  unfold system_time_max, NANOS_PER_SEC in *. lia.
Qed.

Lemma decode_encode_slot s :
  (se_version s ≤ u64_max)%N → (se_expires_at s ≤ system_time_max)%N →
  decode_slot (encode_slot s) = Some (Ok (truncate_slot s)).
Proof.
  intros Hv He. pose proof (unix_secs_bound _ He) as Hs. unfold decode_slot, encode_slot.
  set (v := to_be_bytes 8 (se_version s)). set (e := to_be_bytes 8 (unix_secs (se_expires_at s))).
  assert (length v = 8) as Hlv by apply length_to_be_bytes.
  assert (length e = 8) as Hle by apply length_to_be_bytes.
  assert (length (v ++ e ++ se_body s) <? 16 = false) as ->.
  { apply Nat.ltb_ge. rewrite !length_app. lia. }
  rewrite (take_app_length' v) by done. rewrite (drop_app_length' v) by done.
  rewrite (take_app_length' e) by done. rewrite app_assoc, (drop_app_length' (v ++ e)) by (rewrite length_app; lia).
  unfold v, e. rewrite !from_to_be_bytes by (apply u64_bound; unfold u64_max, i64_max in *; lia).
  unfold time_add. rewrite N.add_0_l.
  assert (from_secs (unix_secs (se_expires_at s)) <=? system_time_max = true)%N as ->; [| done].
  apply N.leb_le. unfold from_secs, system_time_max. nia.
Qed.

Lemma RelayId_valid_Some raw id :
  RelayId_valid raw = Some id → id = MkRelayId raw ∧ length raw = 32 ∧ Forall (λ b, relay_id_byte b = true) raw.
Proof.
  unfold RelayId_valid. destruct (Nat.eqb_spec (length raw) 32); [| done].
  destruct (forallb relay_id_byte raw) eqn:Hf; [| done]. intros [= <-]. split_and!; [done | done |].
  apply Forall_forall. intros b Hb. rewrite forallb_forall in Hf. apply Hf. by apply list_elem_of_In.
Qed.

Lemma RelayId_valid_utf8 raw id : RelayId_valid raw = Some id → utf8_valid raw = true.
Proof.
  intros (_ & _ & Hf)%RelayId_valid_Some. apply ascii_utf8_valid. eapply Forall_impl; [exact Hf |].
  cbn. unfold relay_id_byte, in_range. intros b Hb.
  apply orb_true_iff in Hb as [Hb|Hb]; apply andb_true_iff in Hb as [_ Hb%N.leb_le]; lia.
Qed.

(** A stored record: a legal key and an encoded slot within bounds. *)
Definition stored_slot (id : RelayId) (s : SlotEntry) (key value : bytes) : Prop :=
  key = relay_id id ∧ RelayId_valid key = Some id ∧ value = encode_slot s
  ∧ (se_version s ≤ u64_max)%N ∧ (se_expires_at s ≤ system_time_max)%N.

(** What opening a list of well-formed records finds: every record becomes
    its truncated slot, unless a reading of the clock is past its expiry. *)
Lemma open_items_spec clock i items acc expired :
  NoDup (items.*1) → (∀ key value, (key, value) ∈ items → ∃ id s, stored_slot id s key value) →
  ∃ live dead, open_items clock i items acc expired = Ok (live, dead)
    ∧ ∀ id,
      match list_to_map (M:=gmap bytes bytes) items !! relay_id id with
      | None => live !! id = acc !! id
      | Some v => ∃ s, stored_slot id s (relay_id id) v
          ∧ ∃ j, if SlotEntry_expired (clock j) (truncate_slot s) then live !! id = acc !! id
                 else live !! id = Some (truncate_slot s)
      end.
Proof.
  revert i acc expired. induction items as [|[key value] items IH]; intros i acc expired Hnd Hst;
    cbn [open_items]; [exists acc, expired; by split |].
  cbn [fmap list_fmap fst] in Hnd. apply NoDup_cons in Hnd as [Hnew Hnd].
  assert (∀ key value, (key, value) ∈ items → ∃ id s, stored_slot id s key value) as Hst'.
  { intros k v Hkv. apply Hst. by apply list_elem_of_further. }
  destruct (Hst key value (list_elem_of_here _ _)) as (id0 & s & Hs).
  destruct (Hs) as (Hk & Hvalid & Hv & Hver & Hexp).
  rewrite (RelayId_valid_utf8 _ _ Hvalid), Hvalid, Hv, decode_encode_slot by done. cbn [rbind].
  assert (list_to_map (M:=gmap bytes bytes) items !! relay_id id0 = None) as Hnone.
  { apply not_elem_of_list_to_map. by rewrite <- Hk. }
  assert (∀ id, id ≠ id0 → list_to_map (M:=gmap bytes bytes) ((key, value) :: items) !! relay_id id
                = list_to_map (M:=gmap bytes bytes) items !! relay_id id) as Hother.
  { intros [id] Hne. rewrite list_to_map_cons, lookup_insert_ne; [done |]. rewrite Hk. cbn.
    destruct id0. cbn. congruence. }
  rewrite <- Hv.
  destruct (SlotEntry_expired (clock i) (truncate_slot s)) eqn:He.
  - destruct (IH (S i) acc (expired ++ [key]) Hnd Hst') as (live & dead & -> & Hlive).
    exists live, dead. split; [done |]. intros id. destruct (decide (id = id0)) as [->|Hne].
    + rewrite list_to_map_cons, Hk, lookup_insert_eq. exists s. split; [by rewrite <- Hk |].
      exists i. rewrite He. specialize (Hlive id0). by rewrite Hnone in Hlive.
    + rewrite Hother by done. apply Hlive.
  - destruct (IH (S i) (<[id0 := truncate_slot s]> acc) expired Hnd Hst') as (live & dead & -> & Hlive).
    exists live, dead. split; [done |]. intros id. destruct (decide (id = id0)) as [->|Hne].
    + rewrite list_to_map_cons, Hk, lookup_insert_eq. exists s. split; [by rewrite <- Hk |].
      exists i. rewrite He. specialize (Hlive id0). by rewrite Hnone, lookup_insert_eq in Hlive.
    + rewrite Hother by done. specialize (Hlive id). by rewrite lookup_insert_ne in Hlive by done.
Qed.

(** ** Restart *)

(** Every live value of the tables is on disk, and every record on disk is a
    well-formed one that the tables hold or have dropped. *)
Definition persisted (t : Tables) (db : gmap bytes bytes) : Prop :=
  (∀ id s, slots t !! id = Some s → stored_slot id s (relay_id id) (encode_slot s)
                                   ∧ db !! relay_id id = Some (encode_slot s))
  ∧ (∀ key value, db !! key = Some value → ∃ id s, stored_slot id s key value
      ∧ (slots t !! id = Some s ∨ slots t !! id = None)).

Section Restart.
Context `{AX : Axum}.

(** One request at a time: a write with a working store, or the table access
    of a read. *)
Inductive served : Type :=
| ServeWrite (now now' : N) (rq : Request)
| ServeRead (now : N) (id : RelayId) (since : N).

Definition serve (c : RelayConfig) (st : Tables * gmap bytes bytes) (r : served) : Tables * gmap bytes bytes :=
  let '(t, db) := st in
  match r with
  | ServeWrite now now' rq =>
      match slot_write c now now' (MkSledIo true true) rq t (Some db) with
      | (_, t, Some db) => (t, db)
      | (_, t, None) => (t, db)
      end
  | ServeRead now id since => ((get_slot_newer now id since t).2, db)
  end.

Lemma persisted_insert t db id s :
  persisted t db → stored_slot id s (relay_id id) (encode_slot s) →
  persisted (set_slots (<[id := s]> (slots t)) t) (<[relay_id id := encode_slot s]> db).
Proof.
  intros [H1 H2] Hs. split.
  - intros id' s'. cbn [set_slots slots]. destruct (decide (id = id')) as [<-|Hne].
    + rewrite lookup_insert_eq. intros [= <-]. by rewrite lookup_insert_eq.
    + rewrite lookup_insert_ne by done. intros Hs'. rewrite lookup_insert_ne by (destruct id, id'; cbn; congruence).
      by apply H1.
  - intros key value. cbn [set_slots slots]. destruct (decide (key = relay_id id)) as [->|Hne].
    + rewrite lookup_insert_eq. intros [= <-]. exists id, s. split; [done |]. left. by rewrite lookup_insert_eq.
    + rewrite lookup_insert_ne by done. intros (id' & s' & Hst & Hor)%H2. exists id', s'. split; [done |].
      rewrite lookup_insert_ne; [done |]. intros ->. by destruct Hst.
Qed.

Lemma persisted_delete t db id : persisted t db → persisted (set_slots (delete id (slots t)) t) db.
Proof.
  intros [H1 H2]. split.
  - intros id' s'. cbn [set_slots slots]. intros [_ Hs]%lookup_delete_Some. by apply H1.
  - intros key value (id' & s' & Hst & Hor)%H2. exists id', s'. split; [done |]. cbn [set_slots slots].
    destruct (decide (id = id')) as [<-|Hne]; [right; by rewrite lookup_delete_eq |].
    by rewrite lookup_delete_ne.
Qed.

Lemma serve_persisted c st r : persisted st.1 st.2 → persisted (serve c st r).1 (serve c st r).2.
Proof.
  destruct st as [t db]. cbn [fst snd]. intros Hp. destruct r as [now now' rq|now id since]; cbn [serve].
  - unfold slot_write, admit_request. destruct (negb (check_auth c rq)); [done |].
    unfold RelayId_parse. destruct (RelayId_valid (rq_id rq)) as [id|] eqn:Hid; [| done]. cbn [ok_or].
    unfold parse_version. destruct (rq_version rq ≫= parse_u64) as [version|] eqn:Hv; [| done]. cbn [ok_or].
    destruct (bounded_body _ _) as [body|?|]; [| done | done].
    unfold slot_of_request, time_add. destruct (N.leb_spec (now + rc_slot_ttl c) system_time_max) as [Hle|]; [| done].
    cbn [rbind]. unfold put_slot. destruct (poisoned t); [done |].
    destruct (match slots t !! id with Some _ => _ | None => _ end); [done |].
    cbn [PersistentSlots_insert sled_insert_ok sled_flush_ok fst snd]. apply persisted_insert; [done |].
    apply RelayId_valid_Some in Hid as Hid'. destruct Hid' as [-> _]. unfold stored_slot. cbn [relay_id].
    split_and!; [done | done | done | | done]. cbn [se_version].
    destruct (rq_version rq) as [x|]; [| done]. by eapply parse_u64_bound.
  - unfold get_slot_newer. destruct (poisoned t); [done |]. destruct (slots t !! id) as [s|]; [| done].
    destruct (SlotEntry_expired now s); [by apply persisted_delete | done].
Qed.

(** C18: a relay that handles slot writes one after the other loses nothing
    at a restart.  After any such sequence of requests, malformed and stale
    ones included, opening the store succeeds, every value the tables held is
    served again with its version and body, its expiry truncated to whole
    seconds, unless that expiry has passed; and nothing is served that was
    not accepted for that slot. *)
Theorem relay_restart_recovers (c : RelayConfig) (rs : list served) (clock : nat → N) :
  let '(t, db) := foldl (serve c) (MkTables ∅ ∅ false, ∅) rs in
  ∃ live db', PersistentSlots_open clock db = (Ok live, db')
    ∧ ∀ id,
      match slots t !! id with
      | Some s => ∃ j, live !! id = if SlotEntry_expired (clock j) (truncate_slot s) then None
                                    else Some (truncate_slot s)
      | None => ∀ x, live !! id = Some x →
          ∃ s, x = truncate_slot s ∧ db !! relay_id id = Some (encode_slot s)
      end.
Proof.
  assert (persisted (foldl (serve c) (MkTables ∅ ∅ false, ∅) rs).1
            (foldl (serve c) (MkTables ∅ ∅ false, ∅) rs).2) as Hp.
  { induction rs as [|r rs IH] using rev_ind.
    - split; cbn [foldl fst snd slots]; intros ? ? Hl; by rewrite lookup_empty in Hl.
    - rewrite foldl_app. by apply serve_persisted. }
  destruct (foldl _ _ _) as [t db]. cbn [fst snd] in Hp. destruct Hp as [H1 H2].
  destruct (open_items_spec clock 0 (map_to_list db) ∅ []) as (live & dead & Ho & Hlive).
  - apply NoDup_fst_map_to_list.
  - intros key value Hin%elem_of_map_to_list. apply H2 in Hin as (id & s & Hs & _). by exists id, s.
  - unfold PersistentSlots_open. rewrite Ho. exists live, (foldr delete db dead). split; [done |].
    intros id. specialize (Hlive id). rewrite list_to_map_to_list in Hlive.
    destruct (slots t !! id) as [s|] eqn:Hs.
    + destruct (H1 id s Hs) as [Hst Hdb]. rewrite Hdb in Hlive. destruct Hlive as (s' & Hst' & j & Hl).
      exists j. destruct Hst as (_ & _ & _ & Hv & He), Hst' as (_ & _ & Heq & Hv' & He').
      assert (truncate_slot s = truncate_slot s') as ->.
      { pose proof (decode_encode_slot s Hv He) as Hd. rewrite Heq, decode_encode_slot in Hd by done. congruence. }
      destruct (SlotEntry_expired _ _); by rewrite Hl, ?lookup_empty.
    + intros x Hx. destruct (db !! relay_id id) as [v|]; [| by rewrite Hlive, lookup_empty in Hx].
      destruct Hlive as (s & (_ & _ & -> & _) & j & Hl). exists s. split; [| done].
      destruct (SlotEntry_expired _ _); rewrite Hl in Hx; [by rewrite lookup_empty in Hx | congruence].
Qed.
End Restart.

(** ** A poisoned relay *)

Section Poison.
Context `{AX : Axum}.

(** The expiry of a message is computed while the tables are locked, and
    the command line accepts any lifetime.  If the lifetime is so long that
    the expiry cannot be represented, the first accepted enqueue panics and
    poisons the lock: from then on no enqueue, dequeue, slot write or slot
    read is served, only internal errors. *)
Lemma relay_poisoned_by_ttl (c : RelayConfig) (now : N) (rq : Request) (id : RelayId) (body : bytes)
    (t : Tables) :
  1 ≤ rc_mailbox_capacity c → poisoned t = false → check_auth c rq = true →
  RelayId_parse (rq_id rq) = Ok id → to_bytes (rq_body rq) (rc_max_body_bytes c) = Some body →
  (system_time_max < now + rc_mailbox_ttl c)%N →
  ∃ t', mailbox_enqueue c now rq t = Some (Panic, t')
  ∧ (∀ now' id' body', push_mailbox c now' id' body' t' = Some (Err tt, t'))
  ∧ (∀ clock id', pop_mailbox clock id' t' = (Err tt, t'))
  ∧ (∀ now' id' slot, put_slot now' id' slot t' = (Err tt, t'))
  ∧ (∀ now' id' since, get_slot_newer now' id' since t' = (Err tt, t'))
  ∧ mailbox_enqueue c now rq t' = Some (Ok server_error, t').
Proof.
  intros Hc Hp Ha Hid Hb Ht.
  set (t' := MkTables (<[id := drop (S (length (queue_of t id)) - rc_mailbox_capacity c) (queue_of t id)]>
                         (mailboxes t)) (slots t) true).
  assert (push_mailbox c now id body t = Some (Panic, t')) as Hpush.
  { unfold push_mailbox. rewrite Hp. fold (queue_of t id). rewrite evict_ends by lia.
    unfold time_add. by rewrite (proj2 (N.leb_gt _ _) Ht). }
  exists t'. unfold mailbox_enqueue, admit_request. rewrite Ha, Hid. cbn [negb].
  unfold bounded_body. rewrite Hb. cbn [ok_or]. rewrite Hpush. by split_and!.
Qed.
End Poison.

(** ** Witnesses *)

Module RelayWitness.

(** Bodies are byte strings; a longer one than the limit is refused. *)
#[export] Instance toy_axum : Axum := {|
  Body := bytes;
  to_bytes b n := if (len b <=? n)%N then Some b else None;
  str_headers := {[CONTENT_TYPE := TEXT_PLAIN]}
|}.

Definition toy_id : RelayId := MkRelayId (lit "00112233445566778899aabbccddeeff").
Definition other_id : RelayId := MkRelayId (lit "ffffffffffffffffffffffffffffffff").

Definition small : RelayConfig := with_mailbox_capacity 2 (RelayConfig_new DEFAULT_LISTEN).

Definition toy_ops : list mailbox_op :=
  [MPush 10 toy_id (lit "a"); MPush 11 toy_id (lit "b"); MPush 12 toy_id (lit "c");
   MPop (λ _, 13%N) toy_id; MPush 14 other_id (lit "d")].

Lemma relay_mailbox_fifo_witness :
  ∃ l, run_mailbox_ops small empty_log toy_ops = Some l
    ∧ length (queue_of (ml_tables l) toy_id) ≤ 2 ∧ at_id toy_id (ml_popped l) = [lit "b"].
Proof.
  destruct (relay_mailbox_fifo small toy_ops) as (l & Hl & H).
  - cbn. lia.
  - repeat constructor; cbn; discriminate.
  - exists l. split; [exact Hl |]. split; [apply (H toy_id) |].
    assert ((λ l, at_id toy_id (ml_popped l)) <$> run_mailbox_ops small empty_log toy_ops = Some [lit "b"])
      as Hp by vm_refl.
    rewrite Hl in Hp. injection Hp as Hp. exact Hp.
Defined.

Definition toy_slot_ops : list slot_op :=
  [SPut 10 11 toy_id 5 (lit "five"); SGet 12 toy_id 0; SPut 13 13 toy_id 4 (lit "four");
   SPut 14 14 toy_id 6 (lit "six"); SGet 15 toy_id 5].

Lemma relay_slot_refines_register_witness :
  (run_ops (run_slot_op small) (MkTables ∅ ∅ false) toy_slot_ops).1
  = (run_ops (register_op small) ∅ toy_slot_ops).1.
Proof.
  apply (relay_slot_refines_register small 0). vm_compute. repeat split; discriminate.
Defined.

Definition five : SlotEntry := MkSlotEntry 5 (lit "five") (10 + rc_slot_ttl small).
Definition six : SlotEntry := MkSlotEntry 6 (lit "six") (14 + rc_slot_ttl small).

Definition toy_request : Request :=
  MkRequest (relay_id toy_id) ∅ None (Some (lit "7")) (lit "payload").

End RelayWitness.
