(* ===== verification/RelaySched.v ===== *)
(** * crates/enlace-relay/src/lib.rs: requests that overlap

    The handlers of the relay run concurrently: they meet at the lock of the
    tables, at the store and at the two [tokio::sync::Notify] objects.  The
    model is a transition system of request threads; each step is one access
    to shared state.  A [Notify] counts the calls of [notify_waiters]; a
    [Notified] future remembers the count at its creation and is ready once
    the count has moved on, whether or not it was polled in between. *)

From S2P Require Import Prelude Bytes Config PeerCard Relay.

Section Sched.
Context `{AX : Axum}.

(** A request between two accesses to shared state. *)
Inductive thread : Type :=
| EnqueuePush (id : RelayId) (body : bytes)
| EnqueueNotify
| DequeueStart (id : RelayId)                        (** [notified()] comes next *)
| DequeuePop (id : RelayId) (seen : nat)
| DequeueParked (id : RelayId) (seen : nat)          (** in [timeout(.., notified)] *)
| WritePut (id : RelayId) (slot : SlotEntry)
| WritePersist (id : RelayId) (slot : SlotEntry)
| WriteNotify
| ReadStart (id : RelayId) (since : N)
| ReadGet (id : RelayId) (since : N) (seen : nat)
| ReadParked (id : RelayId) (since : N) (seen : nat)
| Finished (r : Response)
| Crashed.

Record server : Type := MkServer {
  sv_tables : Tables;
  sv_db : option (gmap bytes bytes);
  sv_mailbox_calls : nat;
  sv_slot_calls : nat;
  sv_threads : list thread
}.

(** What the environment decides in a step: the clock, the store, and
    whether the wait of a long poll is over. *)
Record choice : Type := MkChoice {
  ch_clock : nat → N;
  ch_io : SledIo;
  ch_timeout : bool
}.

Definition set_tables (t : Tables) (s : server) : server :=
  MkServer t (sv_db s) (sv_mailbox_calls s) (sv_slot_calls s) (sv_threads s).

(** The next access of one thread: [None] when it cannot move. *)
Definition thread_step (c : RelayConfig) (ch : choice) (th : thread) (s : server)
    : option (thread * server) :=
  let t := sv_tables s in
  match th with
  | EnqueuePush id body =>
      match push_mailbox c (ch_clock ch 0) id body t with
      | Some (Ok _, t) => Some (EnqueueNotify, set_tables t s)
      | Some (Err _, t) => Some (Finished server_error, set_tables t s)
      | Some (Panic, t) => Some (Crashed, set_tables t s)
      | None => None
      end
  | EnqueueNotify =>
      Some (Finished (empty_response 204),
            MkServer t (sv_db s) (S (sv_mailbox_calls s)) (sv_slot_calls s) (sv_threads s))
  | DequeueStart id => Some (DequeuePop id (sv_mailbox_calls s), s)
  | DequeuePop id seen =>
      match pop_mailbox (ch_clock ch) id t with
      | (Ok (Some body), t) => Some (Finished (octet_response 200 body None), set_tables t s)
      | (Ok None, t) =>
          Some (if ch_timeout ch then Finished (empty_response 204) else DequeueParked id seen, set_tables t s)
      | (Err _, t) => Some (Finished server_error, set_tables t s)
      | (Panic, t) => Some (Crashed, set_tables t s)
      end
  | DequeueParked id seen =>
      if ch_timeout ch then Some (Finished (empty_response 204), s)
      else if seen <? sv_mailbox_calls s then Some (DequeueStart id, s) else None
  | WritePut id slot =>
      match put_slot (ch_clock ch 0) id slot t with
      | (Ok PutOutcome_Stored, t) =>
          Some (match sv_db s with Some _ => WritePersist id slot | None => WriteNotify end, set_tables t s)
      | (Ok PutOutcome_Stale, t) => Some (Finished (text_response 409 (lit "stale version")), set_tables t s)
      | (Err _, t) => Some (Finished server_error, set_tables t s)
      | (Panic, t) => Some (Crashed, set_tables t s)
      end
  | WritePersist id slot =>
      match sv_db s with
      | None => Some (WriteNotify, s)
      | Some db =>
          let '(r, db) := PersistentSlots_insert (ch_io ch) id slot db in
          Some (match r with Ok _ => WriteNotify | _ => Finished server_error end,
                MkServer t (Some db) (sv_mailbox_calls s) (sv_slot_calls s) (sv_threads s))
      end
  | WriteNotify =>
      Some (Finished (empty_response 204),
            MkServer t (sv_db s) (sv_mailbox_calls s) (S (sv_slot_calls s)) (sv_threads s))
  | ReadStart id since => Some (ReadGet id since (sv_slot_calls s), s)
  | ReadGet id since seen =>
      match get_slot_newer (ch_clock ch 0) id since t with
      | (Ok (Some slot), t) =>
          Some (Finished (octet_response 200 (se_body slot) (Some (se_version slot))), set_tables t s)
      | (Ok None, t) =>
          Some (if ch_timeout ch then Finished (empty_response 204) else ReadParked id since seen, set_tables t s)
      | (Err _, t) => Some (Finished server_error, set_tables t s)
      | (Panic, t) => Some (Crashed, set_tables t s)
      end
  | ReadParked id since seen =>
      if ch_timeout ch then Some (Finished (empty_response 204), s)
      else if seen <? sv_slot_calls s then Some (ReadStart id since, s) else None
  | Finished _ | Crashed => None
  end.

(** A step of the server: a thread moves, or a request arrives. *)
Inductive server_event : Type :=
| Run (i : nat) (ch : choice)
| Arrive (th : thread).

(** The entry points of the four handlers, after their guards. *)
Definition arrival (th : thread) : bool :=
  match th with
  | EnqueuePush _ _ | DequeueStart _ | WritePut _ _ | ReadStart _ _ => true
  | _ => false
  end.

Definition set_thread (i : nat) (th : thread) (s : server) : server :=
  MkServer (sv_tables s) (sv_db s) (sv_mailbox_calls s) (sv_slot_calls s) (<[i := th]> (sv_threads s)).

Definition server_step (c : RelayConfig) (ev : server_event) (s : server) : option server :=
  match ev with
  | Run i ch =>
      match sv_threads s !! i with
      | Some th => match thread_step c ch th s with
                   | Some (th, s) => Some (set_thread i th s)
                   | None => None
                   end
      | None => None
      end
  | Arrive th =>
      if arrival th then
        Some (MkServer (sv_tables s) (sv_db s) (sv_mailbox_calls s) (sv_slot_calls s) (sv_threads s ++ [th]))
      else None
  end.

(** The states that schedules made of [allowed] events lead to. *)
Inductive reachable (allowed : server_event → Prop) (c : RelayConfig) (s0 : server) : server → Prop :=
| reach_start : reachable allowed c s0 s0
| reach_step ev s s' :
    reachable allowed c s0 s → allowed ev → server_step c ev s = Some s' → reachable allowed c s0 s'.

Fixpoint run_server (c : RelayConfig) (evs : list server_event) (s : server) : option server :=
  match evs with
  | [] => Some s
  | ev :: evs => match server_step c ev s with Some s => run_server c evs s | None => None end
  end.

(** A server as [build_router] leaves it. *)
Definition start_server (live : gmap RelayId SlotEntry) (db : option (gmap bytes bytes)) : server :=
  MkServer (MkTables ∅ live false) db 0 0 [].
Definition any_event (_ : server_event) : Prop := True.

(** The store never fails. *)
Definition store_works (ev : server_event) : Prop :=
  match ev with
  | Run _ ch => sled_insert_ok (ch_io ch) = true ∧ sled_flush_ok (ch_io ch) = true
  | Arrive _ => True
  end.
End Sched.

(** ** Lemmas: what one step does *)

Section Steps.
Context `{AX : Axum}.

Lemma queue_of_mailboxes t t' id : mailboxes t' = mailboxes t → queue_of t' id = queue_of t id.
Proof. unfold queue_of. by intros ->. Qed.

Lemma put_slot_mailboxes now id slot t : mailboxes (put_slot now id slot t).2 = mailboxes t.
Proof.
  unfold put_slot. destruct (poisoned t); [done |].
  by destruct (match slots t !! id with Some _ => _ | None => _ end).
Qed.

Lemma get_slot_mailboxes now id since t : mailboxes (get_slot_newer now id since t).2 = mailboxes t.
Proof.
  unfold get_slot_newer. destruct (poisoned t); [done |]. destruct (slots t !! id) as [e|]; [| done].
  by destruct (SlotEntry_expired now e).
Qed.

Lemma push_slots c now id body t r t' : push_mailbox c now id body t = Some (r, t') → slots t' = slots t.
Proof.
  unfold push_mailbox. destruct (poisoned t); [by intros [= <- <-] |].
  destruct (evict _ _ _); [| done]. by destruct (time_add _ _); intros [= <- <-].
Qed.

Lemma pop_slots clock id t : slots (pop_mailbox clock id t).2 = slots t.
Proof.
  unfold pop_mailbox. destruct (poisoned t); [done |]. destruct (mailboxes t !! id) as [q|]; [| done].
  by destruct (pop_live clock 0 q).
Qed.

(** An empty mailbox stays empty unless a push succeeds. *)
Lemma push_keeps_empty c now id body t r t' id' :
  push_mailbox c now id body t = Some (r, t') → r ≠ Ok tt → queue_of t id' = [] → queue_of t' id' = [].
Proof.
  unfold push_mailbox. destruct (poisoned t); [by intros [= <- <-] |]. fold (queue_of t id).
  destruct (evict _ _ _) as [q|] eqn:He; [| done].
  assert (queue_of t id = [] → q = []) as Hempty.
  { intros Hq. rewrite Hq in He. destruct (rc_mailbox_capacity c); cbn in He; congruence. }
  destruct (time_add _ _); intros [= <- <-] Hr Hq; [done | |]; unfold queue_of at 1; cbn [mailboxes];
    (destruct (decide (id = id')) as [<-|Hne]; [rewrite lookup_insert_eq; by apply Hempty |
     by rewrite lookup_insert_ne]).
Qed.

(** A pop that finds nothing leaves the mailbox empty. *)
Lemma pop_queue clock id t r t' :
  pop_mailbox clock id t = (Ok r, t') →
  (r = None → queue_of t' id = []) ∧ ∀ id', queue_of t id' = [] → queue_of t' id' = [].
Proof.
  intros H. destruct (poisoned t) eqn:Hp; [unfold pop_mailbox in H; by rewrite Hp in H |].
  destruct (pop_mailbox_Ok clock id t Hp) as (t'' & Heq & _ & Hq & Hother). rewrite Heq in H.
  injection H as <- <-. destruct (pop_live_spec clock 0 (queue_of t id)) as (rest & Hdq & _ & Hr). split.
  - rewrite Hq. destruct rest as [|e q]; [by rewrite Hr |]. by destruct Hr as [-> _].
  - intros id' He. destruct (decide (id' = id)) as [->|Hne]; [| by rewrite Hother].
    rewrite Hq, He. done.
Qed.

(** The mailbox side of one step. *)
Lemma thread_step_mailbox c ch th s th' s' :
  thread_step c ch th s = Some (th', s') →
  sv_threads s' = sv_threads s
  ∧ sv_mailbox_calls s ≤ sv_mailbox_calls s'
  ∧ (th = EnqueueNotify → sv_mailbox_calls s < sv_mailbox_calls s')
  ∧ (th' = EnqueueNotify ∨ ∀ id, queue_of (sv_tables s) id = [] → queue_of (sv_tables s') id = [])
  ∧ (∀ id seen, th' = DequeuePop id seen → seen = sv_mailbox_calls s')
  ∧ (∀ id seen, th' = DequeueParked id seen → th = DequeuePop id seen ∧ queue_of (sv_tables s') id = []).
Proof.
  destruct th as [id body| |id|id seen|id seen|id slot|id slot| |id since|id since seen|id since seen|r|];
    cbn [thread_step]; try done.
  - destruct (push_mailbox _ _ _ _ _) as [[[[]|[]|] t']|] eqn:Hp; try done; intros [= <- <-];
      split_and!; try done; [by left | |]; right; intros id' He; by eapply push_keeps_empty.
  - intros [= <- <-]. split_and!; try done; [cbn; lia | cbn; lia | by right].
  - intros [= <- <-]. split_and!; try done; [by right | by intros id' seen [= <- <-]].
  - destruct (pop_mailbox _ _ _) as [[[body|]|e|] t'] eqn:Hp; intros [= <- <-]; split_and!; try done.
    + right. apply (proj2 (pop_queue _ _ _ _ _ Hp)).
    + right. apply (proj2 (pop_queue _ _ _ _ _ Hp)).
    + by destruct (ch_timeout ch).
    + intros id' seen'. destruct (ch_timeout ch); [done |]. intros [= <- <-]. split; [done |].
      by apply (proj1 (pop_queue _ _ _ _ _ Hp)).
    + right. intros id' He. unfold pop_mailbox in Hp. destruct (poisoned _); [by injection Hp as <- <- |].
      destruct (mailboxes _ !! _); [by destruct (pop_live _ _ _) | done].
    + right. intros id' He. unfold pop_mailbox in Hp. destruct (poisoned _); [done |].
      destruct (mailboxes _ !! _); [by destruct (pop_live _ _ _) | done].
  - destruct (ch_timeout ch); [| destruct (_ <? _); [| done]]; intros [= <- <-];
      split_and!; try done; by right.
  - pose proof (put_slot_mailboxes (ch_clock ch 0) id slot (sv_tables s)) as Hm.
    destruct (put_slot _ _ _ _) as [[[]|e|] t']; intros [= <- <-]; cbn [snd] in Hm; split_and!; try done;
      try (right; intros id' He; by rewrite (queue_of_mailboxes (sv_tables s))); by destruct (sv_db s).
  - destruct (sv_db s) as [db|]; [| intros [= <- <-]; split_and!; try done; by right].
    destruct (PersistentSlots_insert _ _ _ _) as [r db']. intros [= <- <-].
    split_and!; try done; [by right | by destruct r | by destruct r].
  - intros [= <- <-]. split_and!; try done; by right.
  - intros [= <- <-]. split_and!; try done; by right.
  - pose proof (get_slot_mailboxes (ch_clock ch 0) id since (sv_tables s)) as Hm.
    destruct (get_slot_newer _ _ _ _) as [[[e|]|e|] t']; intros [= <- <-]; cbn [snd] in Hm; split_and!; try done;
      try (right; intros id' He; by rewrite (queue_of_mailboxes (sv_tables s))); by destruct (ch_timeout ch).
  - destruct (ch_timeout ch); [| destruct (_ <? _); [| done]]; intros [= <- <-];
      split_and!; try done; by right.
Qed.

Definition mailbox_wake_inv (s : server) : Prop :=
  ∀ th, th ∈ sv_threads s →
  match th with
  | DequeuePop _ seen => seen ≤ sv_mailbox_calls s
  | DequeueParked id seen =>
      seen ≤ sv_mailbox_calls s
      ∧ (queue_of (sv_tables s) id = [] ∨ seen < sv_mailbox_calls s ∨ EnqueueNotify ∈ sv_threads s)
  | _ => True
  end.

Lemma elem_of_insert_thread (l : list thread) i x y : x ∈ <[i := y]> l → x = y ∨ x ∈ l.
Proof.
  intros (j & Hj)%list_elem_of_lookup. destruct (decide (i = j)) as [<-|Hne].
  - left. apply list_lookup_insert_Some in Hj. naive_solver.
  - rewrite list_lookup_insert_ne in Hj by done. right. by eapply list_elem_of_lookup_2.
Qed.

(** Another thread keeps its place; the thread that moved is gone. *)
Lemma elem_of_other_thread (l : list thread) i x y z :
  l !! i = Some x → z ∈ l → z = x ∨ z ∈ <[i := y]> l.
Proof.
  intros Hi (j & Hj)%list_elem_of_lookup. destruct (decide (i = j)) as [<-|Hne]; [left; congruence |].
  right. apply (list_elem_of_lookup_2 _ j). by rewrite list_lookup_insert_ne.
Qed.

Lemma elem_of_moved_thread (l : list thread) i x y : l !! i = Some x → y ∈ <[i := y]> l.
Proof.
  intros Hi. apply (list_elem_of_lookup_2 _ i). apply list_lookup_insert_eq. by eapply lookup_lt_Some.
Qed.

Lemma mailbox_wake_step c ev s s' : mailbox_wake_inv s → server_step c ev s = Some s' → mailbox_wake_inv s'.
Proof.
  intros Hinv. destruct ev as [i ch|th0]; cbn [server_step].
  - destruct (sv_threads s !! i) as [th|] eqn:Hi; [| done].
    destruct (thread_step c ch th s) as [[th' s1]|] eqn:Hs; [| done]. intros [= <-].
    destruct (thread_step_mailbox c ch th s th' s1 Hs) as (Hth & Hmono & Hnot & Hq & Hpop & Hpark).
    assert (∀ id seen, seen ≤ sv_mailbox_calls s →
      (queue_of (sv_tables s) id = [] ∨ seen < sv_mailbox_calls s ∨ EnqueueNotify ∈ sv_threads s) →
      queue_of (sv_tables s1) id = [] ∨ seen < sv_mailbox_calls s1
      ∨ EnqueueNotify ∈ <[i := th']> (sv_threads s)) as Hkeep.
    { intros id seen Hle [He|[Hlt|Hin]].
      - destruct Hq as [->|Hq]; [right; right; by eapply elem_of_moved_thread | left; by apply Hq].
      - right. left. lia.
      - destruct (elem_of_other_thread _ i th th' _ Hi Hin) as [<-|Hin']; [| by right; right].
        right. left. specialize (Hnot eq_refl). lia. }
    intros x Hx. cbn [set_thread sv_threads sv_tables sv_mailbox_calls] in *. rewrite Hth in *.
    destruct (elem_of_insert_thread _ _ _ _ Hx) as [->|Hx'].
    + destruct th'; try done.
      * by rewrite (Hpop _ _ eq_refl).
      * destruct (Hpark _ _ eq_refl) as [-> He].
        pose proof (Hinv _ (list_elem_of_lookup_2 _ _ _ Hi)) as Hle. cbn in Hle. split; [lia | by left].
    + specialize (Hinv x Hx'). destruct x; try done; [lia |].
      destruct Hinv as [Hle Hor]. split; [lia | by apply Hkeep].
  - destruct (arrival th0) eqn:Ha; [| done]. intros [= <-] x Hx. cbn in *.
    apply elem_of_app in Hx as [Hx|Hx].
    + specialize (Hinv x Hx). destruct x; try done. destruct Hinv as [Hle Hor]. split; [done |].
      destruct Hor as [?|[?|?]]; [by left | by right; left |]. right. right. apply elem_of_app. by left.
    + apply list_elem_of_singleton in Hx as ->. by destruct th0.
Qed.

(** *** The slot side *)

Definition slot_quiet (t : Tables) (id : RelayId) (since : N) : Prop :=
  ∀ e, slots t !! id = Some e → (se_version e ≤ since)%N.

(** A write that has reached the tables and has not notified yet. *)
Definition pending_write (th : thread) : bool :=
  match th with
  | WritePersist _ _ | WriteNotify => true
  | _ => false
  end.

Lemma get_slot_quiet now id since t r t' :
  get_slot_newer now id since t = (r, t') →
  (r = Ok None → slot_quiet t' id since) ∧ ∀ id' since', slot_quiet t id' since' → slot_quiet t' id' since'.
Proof.
  unfold get_slot_newer. destruct (poisoned t); [by intros [= <- <-] |].
  destruct (slots t !! id) as [e|] eqn:He; [| intros [= <- <-]; split; [| done]; intros _ e He'; congruence].
  destruct (SlotEntry_expired now e); intros [= <- <-].
  - split; [intros _ e' He' | intros id' since' Hq e' He']; cbn [slots set_slots] in He';
      apply lookup_delete_Some in He' as [Hne He']; [done | by apply Hq].
  - split; [| done]. intros Hnone e' He'. assert (e' = e) as -> by congruence.
    destruct (N.ltb_spec since (se_version e)); [done | lia].
Qed.

Lemma thread_step_slot c ch th s th' s' :
  thread_step c ch th s = Some (th', s') →
  sled_insert_ok (ch_io ch) = true → sled_flush_ok (ch_io ch) = true →
  sv_slot_calls s ≤ sv_slot_calls s'
  ∧ (pending_write th = true → pending_write th' = true ∨ sv_slot_calls s < sv_slot_calls s')
  ∧ (pending_write th' = true
     ∨ ∀ id since, slot_quiet (sv_tables s) id since → slot_quiet (sv_tables s') id since)
  ∧ (∀ id since seen, th' = ReadGet id since seen → seen = sv_slot_calls s')
  ∧ (∀ id since seen, th' = ReadParked id since seen →
       th = ReadGet id since seen ∧ slot_quiet (sv_tables s') id since).
Proof.
  intros Hs Hi Hf. revert Hs.
  destruct th as [id body| |id|id seen|id seen|id slot|id slot| |id since|id since seen|id since seen|r|];
    cbn [thread_step]; try done.
  - destruct (push_mailbox _ _ _ _ _) as [[[[]|[]|] t']|] eqn:Hp; try done; intros [= <- <-];
      split_and!; try done; right; unfold slot_quiet; cbn [set_tables sv_tables];
      by rewrite (push_slots _ _ _ _ _ _ _ Hp).
  - intros [= <- <-]. split_and!; try done. by right.
  - intros [= <- <-]. split_and!; try done. by right.
  - pose proof (pop_slots (ch_clock ch) id (sv_tables s)) as Hp.
    destruct (pop_mailbox _ _ _) as [[[body|]|e|] t']; cbn [snd] in Hp; intros [= <- <-]; split_and!; try done;
      try (right; unfold slot_quiet; cbn [set_tables sv_tables]; by rewrite Hp);
      intros id' since' seen'; by destruct (ch_timeout ch).
  - destruct (ch_timeout ch); [| destruct (_ <? _); [| done]]; intros [= <- <-];
      split_and!; try done; by right.
  - unfold put_slot. destruct (poisoned _); [intros [= <- <-]; split_and!; try done; by right |].
    destruct (match slots (sv_tables s) !! id with Some _ => _ | None => _ end); intros [= <- <-];
      split_and!; try done; [by right | left | |]; by destruct (sv_db s).
  - destruct (sv_db s) as [db|]; [| intros [= <- <-]; split_and!; try done; by left].
    unfold PersistentSlots_insert. rewrite Hi, Hf. intros [= <- <-]. split_and!; try done; by left.
  - intros [= <- <-]. split_and!; try done; cbn; [lia | right; lia | by right].
  - intros [= <- <-]. split_and!; try done; [by right |]. by intros id' since' seen [= <- <- <-].
  - destruct (get_slot_newer _ _ _ _) as [r t'] eqn:Hg. destruct (get_slot_quiet _ _ _ _ _ _ Hg) as [Hn Hk].
    destruct r as [[e|]|e|]; intros [= <- <-]; split_and!; try done; try (by right);
      intros id' since' seen'; destruct (ch_timeout ch); try done. intros [= <- <- <-]. split; [done | by apply Hn].
  - destruct (ch_timeout ch); [| destruct (_ <? _); [| done]]; intros [= <- <-];
      split_and!; try done; by right.
Qed.

Definition slot_wake_inv (s : server) : Prop :=
  ∀ th, th ∈ sv_threads s →
  match th with
  | ReadGet _ _ seen => seen ≤ sv_slot_calls s
  | ReadParked id since seen =>
      seen ≤ sv_slot_calls s
      ∧ (slot_quiet (sv_tables s) id since ∨ seen < sv_slot_calls s
         ∨ ∃ w, w ∈ sv_threads s ∧ pending_write w = true)
  | _ => True
  end.

Lemma slot_wake_step c ev s s' :
  store_works ev → slot_wake_inv s → server_step c ev s = Some s' → slot_wake_inv s'.
Proof.
  intros Hok Hinv. destruct ev as [i ch|th0]; cbn [server_step].
  - destruct Hok as [Hio Hfl]. destruct (sv_threads s !! i) as [th|] eqn:Hi; [| done].
    destruct (thread_step c ch th s) as [[th' s1]|] eqn:Hs; [| done]. intros [= <-].
    destruct (thread_step_mailbox c ch th s th' s1 Hs) as (Hth & _).
    destruct (thread_step_slot c ch th s th' s1 Hs Hio Hfl) as (Hmono & Hpend & Hq & Hget & Hpark).
    assert (∀ id since seen, seen ≤ sv_slot_calls s →
      (slot_quiet (sv_tables s) id since ∨ seen < sv_slot_calls s
       ∨ ∃ w, w ∈ sv_threads s ∧ pending_write w = true) →
      slot_quiet (sv_tables s1) id since ∨ seen < sv_slot_calls s1
      ∨ ∃ w, w ∈ <[i := th']> (sv_threads s) ∧ pending_write w = true) as Hkeep.
    { intros id since seen Hle [He|[Hlt|(w & Hin & Hw)]].
      - destruct Hq as [Hp|Hq]; [| left; by apply Hq].
        right. right. exists th'. split; [by eapply elem_of_moved_thread | done].
      - right. left. lia.
      - destruct (elem_of_other_thread _ i th th' _ Hi Hin) as [->|Hin']; [| right; right; by exists w].
        right. destruct (Hpend Hw) as [Hp|Hlt]; [| left; lia].
        right. exists th'. split; [by eapply elem_of_moved_thread | done]. }
    intros x Hx. cbn [set_thread sv_threads sv_tables sv_slot_calls] in *. rewrite Hth in *.
    destruct (elem_of_insert_thread _ _ _ _ Hx) as [->|Hx'].
    + destruct th'; try done.
      * by rewrite (Hget _ _ _ eq_refl).
      * destruct (Hpark _ _ _ eq_refl) as [-> He].
        pose proof (Hinv _ (list_elem_of_lookup_2 _ _ _ Hi)) as Hle. cbn in Hle. split; [lia | by left].
    + specialize (Hinv x Hx'). destruct x; try done; [lia |].
      destruct Hinv as [Hle Hor]. split; [lia | by apply Hkeep].
  - destruct (arrival th0) eqn:Ha; [| done]. intros [= <-] x Hx. cbn in *.
    apply elem_of_app in Hx as [Hx|Hx].
    + specialize (Hinv x Hx). destruct x; try done. destruct Hinv as [Hle Hor]. split; [done |].
      destruct Hor as [?|[?|(w & Hin & Hw)]]; [by left | by right; left |].
      right. right. exists w. split; [| done]. apply elem_of_app. by left.
    + apply list_elem_of_singleton in Hx as ->. by destruct th0.
Qed.
End Steps.

(** ** Claims *)

Section Claims.
Context `{AX : Axum}.

Lemma reachable_invariant (allowed : server_event → Prop) c s0 (P : server → Prop) :
  P s0 → (∀ ev s s', allowed ev → P s → server_step c ev s = Some s' → P s') →
  ∀ s, reachable allowed c s0 s → P s.
Proof. intros H0 Hs s. induction 1; [done |]. by eapply Hs. Qed.

Lemma run_server_reachable c s0 evs s s' :
  reachable any_event c s0 s → run_server c evs s = Some s' → reachable any_event c s0 s'.
Proof.
  revert s. induction evs as [|ev evs IH]; intros s Hs; cbn [run_server]; [by intros [= <-] |].
  destruct (server_step c ev s) as [s1|] eqn:E; [| done]. apply IH. by eapply reach_step.
Qed.

(** C17: a long poll on a mailbox is never left asleep.  In every state of the
    server, under any schedule, a dequeue that is parked while its mailbox
    holds an entry is already woken (it can run its loop again at once), or an
    enqueue is between its push and its notification. *)
Theorem relay_mailbox_no_lost_wakeup (c : RelayConfig) (live : gmap RelayId SlotEntry)
    (db : option (gmap bytes bytes)) (s : server) (i : nat) (id : RelayId) (seen : nat) :
  reachable any_event c (start_server live db) s →
  sv_threads s !! i = Some (DequeueParked id seen) → queue_of (sv_tables s) id ≠ [] →
  (∀ ch, ch_timeout ch = false → server_step c (Run i ch) s = Some (set_thread i (DequeueStart id) s))
  ∨ EnqueueNotify ∈ sv_threads s.
Proof.
  intros Hr Hi Hq.
  assert (mailbox_wake_inv s) as Hinv.
  { revert s Hr Hi Hq. intros s Hr _ _. revert s Hr. apply reachable_invariant.
    - intros th Hth. by apply not_elem_of_nil in Hth.
    - intros ev s s' _. apply mailbox_wake_step. }
  destruct (Hinv _ (list_elem_of_lookup_2 _ _ _ Hi)) as [_ [?|[Hlt|?]]]; [done | | by right].
  left. intros ch Hch. cbn [server_step]. rewrite Hi. cbn [thread_step]. rewrite Hch.
  by rewrite (proj2 (Nat.ltb_lt _ _) Hlt).
Qed.

(** The same for slots, as long as the store works: a parked read whose
    slot holds a version newer than it asked for is woken, or a write is
    between the tables and its notification. *)
Lemma relay_slot_no_lost_wakeup (c : RelayConfig) (live : gmap RelayId SlotEntry)
    (db : option (gmap bytes bytes)) (s : server) (i : nat) (id : RelayId) (since : N) (seen : nat)
    (e : SlotEntry) :
  reachable store_works c (start_server live db) s →
  sv_threads s !! i = Some (ReadParked id since seen) →
  slots (sv_tables s) !! id = Some e → (since < se_version e)%N →
  (∀ ch, ch_timeout ch = false → server_step c (Run i ch) s = Some (set_thread i (ReadStart id since) s))
  ∨ ∃ w, w ∈ sv_threads s ∧ pending_write w = true.
Proof.
  intros Hr Hi He Hv.
  assert (slot_wake_inv s) as Hinv.
  { clear Hi He. revert s Hr. apply reachable_invariant.
    - intros th Hth. by apply not_elem_of_nil in Hth.
    - intros ev s s'. apply slot_wake_step. }
  destruct (Hinv _ (list_elem_of_lookup_2 _ _ _ Hi)) as [_ [Hq|[Hlt|?]]]; [| | by right].
  - apply Hq in He. lia.
  - left. intros ch Hch. cbn [server_step]. rewrite Hi. cbn [thread_step]. rewrite Hch.
    by rewrite (proj2 (Nat.ltb_lt _ _) Hlt).
Qed.

Definition good_io : SledIo := MkSledIo true true.
Definition at_time (now : N) : choice := MkChoice (λ _, now) good_io false.

(** Two overlapping writes whose store accesses happen in the other order. *)
Definition overlapping_writes (id : RelayId) (now : N) (s1 s2 : SlotEntry) : list server_event :=
  [Arrive (WritePut id s1); Arrive (WritePut id s2);
   Run 0 (at_time now); Run 1 (at_time now); Run 1 (at_time now); Run 0 (at_time now);
   Run 0 (at_time now); Run 1 (at_time now)].

Lemma overlapping_writes_run c id now s1 s2 :
  (se_version s1 < se_version s2)%N →
  ∃ s, run_server c (overlapping_writes id now s1 s2) (start_server ∅ (Some ∅)) = Some s
    ∧ sv_threads s = [Finished (empty_response 204); Finished (empty_response 204)]
    ∧ slots (sv_tables s) !! id = Some s2
    ∧ sv_db s = Some {[relay_id id := encode_slot s1]}.
Proof.
  intros Hv.
  assert (negb (SlotEntry_expired now s1) && (se_version s2 <=? se_version s1)%N = false) as Hput.
  { rewrite (proj2 (N.leb_gt _ _) Hv). apply andb_false_r. }
  unfold overlapping_writes, start_server. cbn. unfold put_slot. cbn [poisoned slots].
  rewrite lookup_empty. cbn. unfold put_slot. cbn [poisoned slots]. rewrite lookup_insert_eq. cbn.
  rewrite Hput. cbn. eexists. split; [reflexivity |]. cbn.
  split; [done |]. rewrite lookup_insert_eq. split; [done |]. by rewrite insert_insert_eq.
Qed.

(** The table and the store are updated separately, and the store does
    not compare versions.  For any slot and any two versions written by
    overlapping requests that both succeed, some schedule leaves the newer
    version in memory and the older one on disk: a restart before the older
    one expires serves it again. *)
Lemma relay_persists_older_version (c : RelayConfig) (id : RelayId) (now : N) (s1 s2 : SlotEntry)
    (clock : nat → N) :
  RelayId_valid (relay_id id) = Some id → (se_version s1 < se_version s2 ≤ u64_max)%N →
  (se_expires_at s1 ≤ system_time_max)%N → (∀ i, (clock i < se_expires_at (truncate_slot s1))%N) →
  ∃ s db live db', reachable any_event c (start_server ∅ (Some ∅)) s
    ∧ sv_threads s = [Finished (empty_response 204); Finished (empty_response 204)]
    ∧ slots (sv_tables s) !! id = Some s2
    ∧ sv_db s = Some db ∧ PersistentSlots_open clock db = (Ok live, db')
    ∧ live !! id = Some (truncate_slot s1).
Proof.
  intros Hid [Hv Hv2] He Hclock. destruct (overlapping_writes_run c id now s1 s2 Hv) as (s & Hrun & Hth & Hsl & Hdb).
  assert (stored_slot id s1 (relay_id id) (encode_slot s1)) as Hst by (split_and!; (done || lia)).
  destruct (open_items_spec clock 0 [(relay_id id, encode_slot s1)] ∅ []) as (live & dead & Ho & Hlive).
  - apply NoDup_singleton.
  - intros key value Hin%list_elem_of_singleton. injection Hin as -> ->. by exists id, s1.
  - exists s, {[relay_id id := encode_slot s1]}, live, (foldr delete {[relay_id id := encode_slot s1]} dead).
    split_and!; [| done | done | done | |].
    + eapply run_server_reachable; [apply reach_start | exact Hrun].
    + unfold PersistentSlots_open. by rewrite map_to_list_singleton, Ho.
    + specialize (Hlive id). cbn [list_to_map foldr] in Hlive. rewrite lookup_insert_eq in Hlive.
      destruct Hlive as (s' & (_ & _ & Heq & Hv' & He') & j & Hl).
      cbn [fst snd] in Heq. assert (truncate_slot s1 = truncate_slot s') as Ht.
      { assert (se_version s1 ≤ u64_max)%N as Hv1 by lia.
        pose proof (decode_encode_slot s1 Hv1 He) as Hd. rewrite Heq, decode_encode_slot in Hd by done. congruence. }
      rewrite <- Ht in Hl. assert (SlotEntry_expired (clock j) (truncate_slot s1) = false) as Hex.
      { apply N.leb_gt. apply Hclock. }
      by rewrite Hex in Hl.
Qed.

(** A read parks, then a write reaches the tables and its store access fails. *)
Definition failing_write (id : RelayId) (since now : N) (e : SlotEntry) : list server_event :=
  [Arrive (ReadStart id since); Run 0 (at_time now); Run 0 (at_time now);
   Arrive (WritePut id e); Run 1 (at_time now); Run 1 (MkChoice (λ _, now) (MkSledIo false false) false)].

(** When the store fails, the write is answered with an internal error
    and nobody is notified, although the value is in the tables and served:
    a read that was waiting for it stays parked, and only its time limit ends
    the wait. *)
Lemma relay_store_failure_loses_wakeup (c : RelayConfig) (id : RelayId) (since now : N) (e : SlotEntry) :
  (since < se_version e)%N →
  ∃ s seen, reachable any_event c (start_server ∅ (Some ∅)) s
    ∧ sv_threads s = [ReadParked id since seen; Finished server_error]
    ∧ slots (sv_tables s) !! id = Some e
    ∧ ∀ ch, ch_timeout ch = false → server_step c (Run 0 ch) s = None.
Proof.
  intros Hv.
  assert (∃ s, run_server c (failing_write id since now e) (start_server ∅ (Some ∅)) = Some s
    ∧ sv_threads s = [ReadParked id since 0; Finished server_error] ∧ sv_slot_calls s = 0
    ∧ slots (sv_tables s) !! id = Some e) as (s & Hrun & Hth & Hc & Hsl).
  { unfold failing_write, start_server. cbn. unfold get_slot_newer. cbn [poisoned slots].
    rewrite lookup_empty. cbn. unfold put_slot. cbn [poisoned slots]. rewrite lookup_empty. cbn.
    eexists. split; [reflexivity |]. cbn. by rewrite lookup_insert_eq. }
  exists s, 0. split_and!; [| done | done |].
  - eapply run_server_reachable; [apply reach_start | exact Hrun].
  - intros ch Hch. cbn [server_step]. rewrite Hth. cbn [lookup list_lookup thread_step]. by rewrite Hch, Hc.
Qed.
End Claims.

(** ** Witnesses *)

Module RelaySchedWitness.
Import RelayWitness.

Definition get_server (o : option server) : server :=
  match o with Some s => s | None => start_server ∅ None end.

(** A dequeue parks, then an enqueue reaches the tables. *)
Definition parked_then_pushed : list server_event :=
  [Arrive (DequeueStart toy_id); Run 0 (at_time 5); Run 0 (at_time 5);
   Arrive (EnqueuePush toy_id (lit "m")); Run 1 (at_time 6)].

Lemma relay_mailbox_no_lost_wakeup_witness :
  let s := get_server (run_server small parked_then_pushed (start_server ∅ None)) in
  (∀ ch, ch_timeout ch = false → server_step small (Run 0 ch) s = Some (set_thread 0 (DequeueStart toy_id) s))
  ∨ EnqueueNotify ∈ sv_threads s.
Proof.
  intros s. apply (relay_mailbox_no_lost_wakeup small ∅ None s 0 toy_id 0).
  - eapply (run_server_reachable small _ parked_then_pushed); [apply reach_start | vm_refl].
  - vm_refl.
  - assert (length (queue_of (sv_tables s) toy_id) = 1) as H by vm_refl. intros Hn. rewrite Hn in H. discriminate H.
Defined.

Definition read_then_put : list server_event :=
  [Arrive (ReadStart toy_id 0); Run 0 (at_time 5); Run 0 (at_time 5);
   Arrive (WritePut toy_id five); Run 1 (at_time 6)].

Lemma run_server_store_works c s0 evs s s' :
  Forall store_works evs → reachable store_works c s0 s → run_server c evs s = Some s' →
  reachable store_works c s0 s'.
Proof.
  intros Hf. revert s. induction Hf as [|ev evs Hev Hevs IH]; intros s Hs; cbn [run_server]; [by intros [= <-] |].
  destruct (server_step c ev s) as [s1|] eqn:E; [| done]. apply IH. by eapply reach_step.
Qed.

Lemma relay_slot_no_lost_wakeup_witness :
  let s := get_server (run_server small read_then_put (start_server ∅ None)) in
  (∀ ch, ch_timeout ch = false → server_step small (Run 0 ch) s = Some (set_thread 0 (ReadStart toy_id 0) s))
  ∨ ∃ w, w ∈ sv_threads s ∧ pending_write w = true.
Proof.
  intros s. apply (relay_slot_no_lost_wakeup small ∅ None s 0 toy_id 0 0 five).
  - eapply (run_server_store_works small _ read_then_put); [repeat constructor | apply reach_start | vm_refl].
  - vm_refl.
  - vm_refl.
  - reflexivity.
Defined.

End RelaySchedWitness.
