(* ===== verification/Http.v ===== *)
(** * transports/http.rs: the HTTP transport

    The client side of the relay protocol.  reqwest is third-party: a request
    is a record, and the network is a function from requests to responses or
    transport failures.  The URL a request goes to is its base with the path
    and the query pairs the code sets; [url_path] of the [url] crate is a
    parameter. *)

From S2P Require Import Prelude Bytes Crypto Kdf Net Errors Dedup Config.

Inductive Method : Type := GET | POST | PUT.

(** The text [Display] gives a status code, and the path of a URL. *)
Class HttpLib `{UL : UrlLib} := {
  url_path : Url → bytes;
  status_text : N → bytes
}.

Record ReqwestError : Type := MkReqwestError { re_is_timeout : bool; re_text : bytes }.

Record HttpResponse : Type := MkHttpResponse {
  hp_status : N;
  (** [x-enlace-version], when present and visible ASCII. *)
  hp_version : option bytes;
  hp_body : bytes
}.

Section Http.
Context `{UL : UrlLib} `{HL : !HttpLib}.

Record HttpRequest : Type := MkHttpRequest {
  hr_method : Method;
  hr_base : Url;
  hr_path : bytes;
  hr_query : list (bytes * bytes);
  hr_auth : option BasicAuth;
  hr_content_type : option bytes;
  hr_version : option bytes;
  hr_body : bytes
}.

Record HttpTransport : Type := MkHttpTransport {
  base_url : Url;
  ht_auth : option BasicAuth;
  ht_long_poll : N
}.

Definition map_reqwest_error (err : ReqwestError) : TransportError :=
  if re_is_timeout err then TransportError_Timeout else TransportError_Network (re_text err).

(** [build] is the outcome of reqwest's client builder. *)
Definition HttpTransport_new (build : result unit ReqwestError) (config : HttpConfig)
    : result HttpTransport TransportError :=
  let! _ := map_err map_reqwest_error build in
  Ok (MkHttpTransport (url config) (auth config) (from_secs (long_poll_secs config))).

(** [str::trim_end_matches('/')]. *)
Fixpoint trim_end_slashes (s : bytes) : bytes :=
  match s with
  | [] => []
  | b :: s' =>
      match trim_end_slashes s' with
      | [] => if decide (b = x2f) then [] else [b]
      | t => b :: t
      end
  end.

Definition hex_id (id : bytes) : bytes := hex_bytes id.

Definition channel_path (t : HttpTransport) (prefix id : bytes) : bytes :=
  let base_path := trim_end_slashes (url_path (base_url t)) in
  let id := hex_id id in
  match base_path with
  | [] => x2f :: prefix ++ x2f :: id
  | _ => base_path ++ x2f :: prefix ++ x2f :: id
  end.

Definition http_channel_id (id : bytes) : result bytes TransportError :=
  ok_or (array_from_slice 16 id) (TransportError_Network (lit "HTTP channel id must be 16 bytes")).

Definition map_status (status : N) : TransportError :=
  if (status =? 401)%N then TransportError_Auth
  else if (status =? 409)%N then TransportError_Stale
  else if (status =? 413)%N then TransportError_BodyTooLarge
  else if (status =? 408)%N || (status =? 504)%N then TransportError_Timeout
  else TransportError_Network (lit "relay returned status " ++ status_text status).

Definition decode_empty_response (status : N) : result unit TransportError :=
  if (status =? 204)%N then Ok tt else Err (map_status status).

Definition decode_mailbox_recv_response (status : N) (body : bytes) : result (option bytes) TransportError :=
  if (status =? 200)%N then Ok (Some body)
  else if (status =? 204)%N then Ok None
  else Err (map_status status).

Definition http_parse_version (header : option bytes) : result N TransportError :=
  ok_or (header ≫= parse_u64) (TransportError_Network (lit "relay omitted slot version")).

Definition decode_slot_get_response (status : N) (header : option bytes) (body : bytes)
    : result (option (N * bytes)) TransportError :=
  if (status =? 200)%N then
    let! version := http_parse_version header in Ok (Some (version, body))
  else if (status =? 204)%N then Ok None
  else Err (map_status status).

Definition octet_stream : bytes := lit "application/octet-stream".

(** [Duration::as_secs]. *)
Definition as_secs (d : N) : N := (d / NANOS_PER_SEC)%N.

(** ** The requests *)

Definition send_request (t : HttpTransport) (id sealed : bytes) : HttpRequest :=
  MkHttpRequest POST (base_url t) (channel_path t (lit "m") id) [] (ht_auth t) (Some octet_stream) None sealed.

Definition recv_request (t : HttpTransport) (id : bytes) (wait : N) : HttpRequest :=
  MkHttpRequest GET (base_url t) (channel_path t (lit "m") id)
    [(lit "wait", u64_to_string (as_secs wait))] (ht_auth t) None None [].

Definition put_request (t : HttpTransport) (id : bytes) (version : N) (sealed : bytes) : HttpRequest :=
  MkHttpRequest PUT (base_url t) (channel_path t (lit "s") id) [] (ht_auth t) (Some octet_stream)
    (Some (u64_to_string version)) sealed.

Definition get_request (t : HttpTransport) (id : bytes) (since wait : N) : HttpRequest :=
  MkHttpRequest GET (base_url t) (channel_path t (lit "s") id)
    [(lit "since", u64_to_string since); (lit "wait", u64_to_string (as_secs wait))] (ht_auth t) None None [].

(** ** The operations

    [net] answers a request; the body of a response other than 200 is not
    read. *)

Definition network : Type := HttpRequest → result HttpResponse ReqwestError.

Definition read_body (r : HttpResponse) : bytes := if (hp_status r =? 200)%N then hp_body r else [].

Definition http_send (net : network) (t : HttpTransport) (id sealed : bytes) : result unit TransportError :=
  let! id := http_channel_id id in
  let! r := map_err map_reqwest_error (net (send_request t id sealed)) in
  decode_empty_response (hp_status r).

Definition http_recv (net : network) (t : HttpTransport) (id : bytes) (wait : N)
    : result (option bytes) TransportError :=
  let! id := http_channel_id id in
  let! r := map_err map_reqwest_error (net (recv_request t id wait)) in
  decode_mailbox_recv_response (hp_status r) (read_body r).

Definition http_put (net : network) (t : HttpTransport) (id : bytes) (version : N) (sealed : bytes)
    : result unit TransportError :=
  let! id := http_channel_id id in
  let! r := map_err map_reqwest_error (net (put_request t id version sealed)) in
  decode_empty_response (hp_status r).

Definition slot_get_since (net : network) (t : HttpTransport) (id : bytes) (since wait : N)
    : result (option (N * bytes)) TransportError :=
  let! r := map_err map_reqwest_error (net (get_request t id since wait)) in
  decode_slot_get_response (hp_status r) (hp_version r) (read_body r).

Definition http_get (net : network) (t : HttpTransport) (id : bytes) : result (option (N * bytes)) TransportError :=
  let! id := http_channel_id id in slot_get_since net t id 0 0.

(** The task of [watch]: poll [n] is answered by [net n], and [alive n] says
    whether the consumer still exists when the item of poll [n] is sent.  The
    result is the items of the stream after at most [fuel] polls. *)
Fixpoint watch_loop (fuel n : nat) (net : nat → network)
    (alive : nat → bool) (t : HttpTransport) (id : bytes) (since : N)
    : list (result (N * bytes) TransportError) :=
  match fuel with
  | O => []
  | S fuel =>
      match slot_get_since (net n) t id since (ht_long_poll t) with
      | Ok (Some (version, body)) =>
          if alive n then Ok (version, body) :: watch_loop fuel (S n) net alive t id version else []
      | Ok None => watch_loop fuel (S n) net alive t id since
      | Err err => if alive n then Err err :: watch_loop fuel (S n) net alive t id since else []
      | Panic => []
      end
  end.

Definition http_watch (fuel : nat) (net : nat → network)
    (alive : nat → bool) (t : HttpTransport) (id : bytes) (since : N)
    : list (result (N * bytes) TransportError) :=
  match http_channel_id id with
  | Ok id => watch_loop fuel 0 net alive t id since
  | _ => [Err (TransportError_Network (lit "HTTP channel id must be 16 bytes"))]
  end.
End Http.

(** ** Lemmas *)

Lemma trim_end_slashes_nil : trim_end_slashes (lit "/") = [].
Proof. reflexivity. Qed.

Lemma http_channel_id_Ok id id' : http_channel_id id = Ok id' ↔ id' = id ∧ length id = 16.
Proof. unfold http_channel_id. rewrite ok_or_Ok. apply array_from_slice_Some. Qed.

Lemma hex_id_length id : length id = 16 → length (hex_id id) = 32.
Proof. unfold hex_id. rewrite length_hex_bytes. lia. Qed.
