(* ===== verification/HttpRelay.v ===== *)
(** * The HTTP transport against the relay

    The client of transports/http.rs and the server of enlace-relay meet in
    the HTTP protocol.  What the two HTTP stacks do in between (reqwest,
    hyper, axum's routing and extraction) is the class [Wire]: a request for
    a routed path with an alphanumeric identifier reaches the handler of that
    route with the identifier, the query pairs, the header texts and the body
    the client set. *)

From S2P Require Import Prelude Bytes Crypto Kdf Net Guard Errors Dedup Config PeerCard Relay Http.

Inductive handler : Type := HEnqueue | HDequeue | HWrite | HRead.

(** The routes of [build_router]. *)
Definition relay_route (m : Method) (prefix : bytes) : option handler :=
  match m with
  | POST => if decide (prefix = lit "m") then Some HEnqueue else None
  | PUT => if decide (prefix = lit "s") then Some HWrite else None
  | GET => if decide (prefix = lit "m") then Some HDequeue
           else if decide (prefix = lit "s") then Some HRead else None
  end.

Section HttpRelay.
Context `{UL : UrlLib} `{HL : !HttpLib} `{AX : Axum} {B64 : Base64}.

(** The text of HTTP basic authentication. *)
Definition basic_auth_text (a : BasicAuth) : bytes :=
  lit "Basic " ++ b64_encode (username a ++ x3a :: password a).

Class Wire := {
  deliver : HttpRequest → option (handler * Request);
  body_of : bytes → Body
}.

Class WireLaws `{WR : Wire} := {
  deliver_route m prefix h id base query a ct v body :
    relay_route m prefix = Some h → id ≠ [] → Forall (λ b, relay_id_byte b = true) id → NoDup query.*1 →
    deliver (MkHttpRequest m base (x2f :: prefix ++ x2f :: id) query a ct v body)
    = Some (h, MkRequest id (list_to_map query) (basic_auth_text <$> a) v (body_of body));
  to_bytes_body_of b n : to_bytes (body_of b) n = if (len b <=? n)%N then Some b else None
}.

Context `{WR : !Wire}.

(** What a served request depends on besides the tables. *)
Record moment : Type := MkMoment {
  mo_now : N;
  mo_now' : N;
  mo_fuel : nat;
  mo_rounds : nat → round;
  mo_io : SledIo
}.

(** The relay behind a request: [None] when the request is not routed to a
    handler or the handler does not return. *)
Definition relay_serve (c : RelayConfig) (mo : moment) (rq : HttpRequest) (t : Tables)
    (db : option (gmap bytes bytes)) : option (reply * Tables * option (gmap bytes bytes)) :=
  match deliver rq with
  | None => None
  | Some (HEnqueue, r) => (λ x, (x, db)) <$> mailbox_enqueue c (mo_now mo) r t
  | Some (HDequeue, r) => (λ x, (x, db)) <$> mailbox_dequeue c (mo_now mo) (mo_fuel mo) (mo_rounds mo) r t
  | Some (HWrite, r) => Some (slot_write c (mo_now mo) (mo_now' mo) (mo_io mo) r t db)
  | Some (HRead, r) => (λ x, (x, db)) <$> slot_read c (mo_now mo) (mo_fuel mo) (mo_rounds mo) r t
  end.

Definition response_of (r : Response) : HttpResponse :=
  MkHttpResponse (rs_status r) (rs_headers r !! VERSION_HEADER) (rs_body r).

(** The relay as the network of a client; a handler that panicked or did not
    return is a closed connection. *)
Definition relay_net (c : RelayConfig) (mo : moment) (t : Tables) (db : option (gmap bytes bytes)) : network := λ rq,
  match relay_serve c mo rq t db with
  | Some (Ok r, _, _) => Ok (response_of r)
  | _ => Err (MkReqwestError false (lit "connection closed"))
  end.

(** The state of the relay after a request. *)
Definition relay_after (c : RelayConfig) (mo : moment) (rq : HttpRequest) (t : Tables)
    (db : option (gmap bytes bytes)) : Tables * option (gmap bytes bytes) :=
  match relay_serve c mo rq t db with
  | Some (_, t, db) => (t, db)
  | None => (t, db)
  end.
End HttpRelay.

(** ** Lemmas: a request reaches its handler *)

Lemma relay_id_hex_digit n : (n < 16)%N → relay_id_byte (hex_digit n) = true.
Proof.
  intros Hn. unfold relay_id_byte, in_range. rewrite to_N_hex_digit by done.
  destruct (N.ltb_spec n 10); apply orb_true_iff; [left | right]; apply andb_true_iff;
    rewrite !N.leb_le; lia.
Qed.

Lemma relay_id_hex_bytes l : Forall (λ b, relay_id_byte b = true) (hex_bytes l).
Proof.
  unfold hex_bytes. induction l as [|b l IH]; [constructor |]. cbn [map concat].
  destruct (nibbles_lt b). apply Forall_app. split; [| done].
  repeat constructor; by apply relay_id_hex_digit.
Qed.

(** The identifier a client puts into the path is one the relay accepts. *)
Lemma RelayId_parse_hex id : length id = 16 → RelayId_parse (hex_id id) = Ok (MkRelayId (hex_id id)).
Proof.
  intros Hl. unfold RelayId_parse, RelayId_valid. rewrite (hex_id_length _ Hl), Nat.eqb_refl. cbn [andb].
  assert (forallb relay_id_byte (hex_id id) = true) as ->; [| done].
  apply forallb_forall. intros b Hb%list_elem_of_In.
  pose proof (relay_id_hex_bytes id) as Hf. rewrite Forall_forall in Hf. by apply Hf.
Qed.

Lemma as_secs_bound d : (d ≤ duration_max)%N → (as_secs d ≤ u64_max)%N.
Proof.
  intros Hd. unfold as_secs. apply N.lt_succ_r. apply N.Div0.div_lt_upper_bound.
  unfold duration_max, NANOS_PER_SEC, u64_max in *. lia.
Qed.

Section Served.
Context `{UL : UrlLib} `{HL : !HttpLib} `{AX : Axum} {B64 : Base64} `{WR : !Wire} `{WL : !WireLaws}.

(** The client talks to this relay: its base URL has no path of its own and
    it presents the credential the relay expects, if any. *)
Definition relay_client (c : RelayConfig) (t : HttpTransport) : Prop :=
  trim_end_slashes (url_path (base_url t)) = []
  ∧ (rc_auth c = None ∨ rc_auth c = basic_auth_text <$> ht_auth t).

Lemma check_auth_client c t id query v body :
  relay_client c t → check_auth c (MkRequest id query (basic_auth_text <$> ht_auth t) v body) = true.
Proof.
  intros [_ Ha]. unfold check_auth. cbn [rq_authorization].
  destruct (rc_auth c) as [cred|]; [| done]. destruct Ha as [?|Ha]; [done |].
  apply bool_decide_eq_true. by rewrite <- Ha.
Qed.

Lemma admit_client {A} c t id query v body (k : RelayId → A) rej :
  relay_client c t → length id = 16 →
  admit_request c (MkRequest (hex_id id) query (basic_auth_text <$> ht_auth t) v body) k rej
  = k (MkRelayId (hex_id id)).
Proof.
  intros Hc Hl. unfold admit_request. rewrite check_auth_client by done. cbn [negb rq_id].
  by rewrite RelayId_parse_hex.
Qed.

Lemma deliver_client c t m prefix h id query ct v body :
  relay_client c t → length id = 16 → relay_route m prefix = Some h → NoDup query.*1 →
  deliver (MkHttpRequest m (base_url t) (channel_path t prefix id) query (ht_auth t) ct v body)
  = Some (h, MkRequest (hex_id id) (list_to_map query) (basic_auth_text <$> ht_auth t) v (body_of body)).
Proof.
  intros [Hp _] Hl Hr Hq. unfold channel_path. rewrite Hp. apply deliver_route; [done | | | done].
  - intros Hn. pose proof (hex_id_length id Hl) as H32. rewrite Hn in H32. done.
  - apply relay_id_hex_bytes.
Qed.

(** *** The mailbox requests *)

Lemma serve_send c mo t id sealed tb db :
  relay_client c t → length id = 16 → (len sealed ≤ rc_max_body_bytes c)%N →
  1 ≤ rc_mailbox_capacity c → poisoned tb = false → (mo_now mo + rc_mailbox_ttl c ≤ system_time_max)%N →
  relay_serve c mo (send_request t id sealed) tb db
  = let q := queue_of tb (MkRelayId (hex_id id)) in
    Some (Ok (empty_response 204),
          set_mailboxes (<[MkRelayId (hex_id id) :=
             drop (S (length q) - rc_mailbox_capacity c) q
             ++ [MkMailboxEntry sealed (mo_now mo + rc_mailbox_ttl c)%N]]> (mailboxes tb)) tb, db).
Proof.
  intros Hc Hl Hb Hcap Hp Ht. unfold relay_serve, send_request.
  rewrite (deliver_client c t POST (lit "m") HEnqueue) by (done || constructor).
  unfold mailbox_enqueue. rewrite admit_client by done. unfold bounded_body. cbn [rq_body].
  rewrite to_bytes_body_of, (proj2 (N.leb_le _ _) Hb). cbn [ok_or]. by rewrite push_mailbox_Ok.
Qed.

Lemma parse_query_here query key n :
  query !! key = Some (u64_to_string n) → (n ≤ u64_max)%N → parse_query_u64 query key = Ok n.
Proof. intros Hq Hn. unfold parse_query_u64. by rewrite Hq, parse_u64_to_string. Qed.

Lemma serve_recv c mo t id wait tb db :
  relay_client c t → length id = 16 → (wait ≤ duration_max)%N →
  (mo_now mo + rc_max_wait c ≤ system_time_max)%N →
  let wait' := N.min (from_secs (as_secs wait)) (rc_max_wait c) in
  relay_serve c mo (recv_request t id wait) tb db
  = (λ x, (x, db)) <$>
    long_poll (λ rd, pop_mailbox (rd_clock rd) (MkRelayId (hex_id id))) (λ body, octet_response 200 body None)
      wait' (mo_now mo + wait')%N (mo_fuel mo) 0 (mo_rounds mo) tb.
Proof.
  intros Hc Hl Hw Ht wait'. unfold relay_serve, recv_request.
  rewrite (deliver_client c t GET (lit "m") HDequeue); [| done | done | done | apply NoDup_singleton].
  unfold mailbox_dequeue. rewrite admit_client by done. unfold parse_wait. cbn [rq_query].
  rewrite (parse_query_here _ _ (as_secs wait)).
  - cbn [rmap]. fold wait'. unfold time_add.
    assert (mo_now mo + wait' <=? system_time_max = true)%N as ->; [apply N.leb_le; lia | done].
  - cbn [list_to_map foldr]. by rewrite lookup_insert_eq.
  - exact (as_secs_bound _ Hw).
Qed.

(** *** The slot requests *)

Lemma serve_put c mo t id version sealed tb db :
  relay_client c t → length id = 16 → (len sealed ≤ rc_max_body_bytes c)%N → (version ≤ u64_max)%N →
  (mo_now mo + rc_slot_ttl c ≤ system_time_max)%N →
  let slot := MkSlotEntry version sealed (mo_now mo + rc_slot_ttl c)%N in
  let rid := MkRelayId (hex_id id) in
  relay_serve c mo (put_request t id version sealed) tb db
  = Some (match put_slot (mo_now' mo) rid slot tb with
          | (Ok PutOutcome_Stored, tb) =>
              match db with
              | None => (Ok (empty_response 204), tb, None)
              | Some db => match PersistentSlots_insert (mo_io mo) rid slot db with
                           | (Ok _, db) => (Ok (empty_response 204), tb, Some db)
                           | (_, db) => (Ok server_error, tb, Some db)
                           end
              end
          | (Ok PutOutcome_Stale, tb) => (Ok (text_response 409 (lit "stale version")), tb, db)
          | (_, tb) => (Ok server_error, tb, db)
          end).
Proof.
  intros Hc Hl Hb Hv Ht slot rid. unfold relay_serve, put_request.
  rewrite (deliver_client c t PUT (lit "s") HWrite) by (done || constructor).
  unfold slot_write. rewrite admit_client by done. unfold parse_version. cbn [rq_version mbind option_bind].
  rewrite parse_u64_to_string by done. cbn [ok_or]. unfold bounded_body. cbn [rq_body].
  rewrite to_bytes_body_of, (proj2 (N.leb_le _ _) Hb). cbn [ok_or].
  unfold slot_of_request, time_add. by rewrite (proj2 (N.leb_le _ _) Ht).
Qed.

Lemma serve_get c mo t id since wait tb db :
  relay_client c t → length id = 16 → (since ≤ u64_max)%N → (wait ≤ duration_max)%N →
  (mo_now mo + rc_max_wait c ≤ system_time_max)%N →
  let wait' := N.min (from_secs (as_secs wait)) (rc_max_wait c) in
  relay_serve c mo (get_request t id since wait) tb db
  = (λ x, (x, db)) <$>
    long_poll (λ rd, get_slot_newer (rd_clock rd 0) (MkRelayId (hex_id id)) since)
      (λ slot, octet_response 200 (se_body slot) (Some (se_version slot)))
      wait' (mo_now mo + wait')%N (mo_fuel mo) 0 (mo_rounds mo) tb.
Proof.
  intros Hc Hl Hs Hw Ht wait'. unfold relay_serve, get_request.
  rewrite (deliver_client c t GET (lit "s") HRead); [| done | done | done |].
  2:{ apply NoDup_cons. split; [intros Hx%list_elem_of_singleton; done | apply NoDup_singleton]. }
  unfold slot_read. rewrite admit_client by done. unfold parse_since, parse_wait. cbn [rq_query].
  rewrite (parse_query_here _ (lit "since") since), (parse_query_here _ (lit "wait") (as_secs wait)).
  - cbn [rmap]. fold wait'. unfold time_add.
    assert (mo_now mo + wait' <=? system_time_max = true)%N as ->; [apply N.leb_le; lia | done].
  - cbn [list_to_map foldr]. rewrite lookup_insert_ne by done. by rewrite lookup_insert_eq.
  - exact (as_secs_bound _ Hw).
  - cbn [list_to_map foldr]. by rewrite lookup_insert_eq.
  - done.
Qed.
End Served.

(** ** Results *)

Section Claims.
Context `{UL : UrlLib} `{HL : !HttpLib} `{AX : Axum} {B64 : Base64} `{WR : !Wire} `{WL : !WireLaws}.

Lemma long_poll_first {A} (attempt : round → Tables → result (option A) unit * Tables) respond wait deadline
    fuel rounds tb a tb' :
  0 < fuel → attempt (rounds 0) (rd_others (rounds 0) tb) = (Ok (Some a), tb') →
  long_poll attempt respond wait deadline fuel 0 rounds tb = Some (Ok (respond a), tb').
Proof. intros Hf Ha. destruct fuel; [lia |]. cbn [long_poll]. by rewrite Ha. Qed.

(** A reader that finds the tables as they are and can represent its deadline. *)
Definition quiet_reader (c : RelayConfig) (mo : moment) (tb : Tables) : Prop :=
  0 < mo_fuel mo ∧ rd_others (mo_rounds mo 0) tb = tb ∧ (mo_now mo + rc_max_wait c ≤ system_time_max)%N.

Lemma http_recv_relay c mo t id wait tb db body rest :
  relay_client c t → length id = 16 → (wait ≤ duration_max)%N → poisoned tb = false → quiet_reader c mo tb →
  pop_live (rd_clock (mo_rounds mo 0)) 0 (queue_of tb (MkRelayId (hex_id id))) = (Some body, rest) →
  http_recv (relay_net c mo tb db) t id wait = Ok (Some body)
  ∧ queue_of (relay_after c mo (recv_request t id wait) tb db).1 (MkRelayId (hex_id id)) = rest.
Proof.
  intros Hc Hl Hw Hp (Hf & Ho & Ht) Hpop.
  destruct (pop_mailbox_Ok (rd_clock (mo_rounds mo 0)) (MkRelayId (hex_id id)) tb Hp) as (tb' & Hm & _ & Hq & _).
  rewrite Hpop in Hm, Hq. cbn [fst snd] in Hm, Hq.
  pose proof (serve_recv c mo t id wait tb db Hc Hl Hw Ht) as Hs. cbv zeta in Hs.
  rewrite (long_poll_first _ _ _ _ _ _ _ body tb') in Hs; [| done | by rewrite Ho].
  unfold http_recv, relay_net, relay_after. rewrite (proj2 (http_channel_id_Ok id id)) by done. cbn [rbind].
  rewrite Hs. by split.
Qed.

Lemma pop_live_one clock e : (clock 0%nat < me_expires_at e)%N → pop_live clock 0 [e] = (Some (me_body e), []).
Proof. intros He. cbn [pop_live]. unfold MailboxEntry_expired. by rewrite (proj2 (N.leb_gt _ _) He). Qed.

(** A client and the relay together are a mailbox.  A client with the
    right credential that sends a frame of admissible size succeeds, and the
    frame is then the last of the relay's queue for that channel.  A later
    receive of any such client returns the oldest unexpired frame of the
    queue and removes it; in particular, when the mailbox was empty, it
    returns exactly the bytes that were sent, until they expire. *)
Lemma http_relay_mailbox (c : RelayConfig) (mo mo' : moment) (t t' : HttpTransport) (id sealed : bytes)
    (wait : N) (tb : Tables) (db : option (gmap bytes bytes)) :
  relay_client c t → relay_client c t' → length id = 16 → (len sealed ≤ rc_max_body_bytes c)%N →
  1 ≤ rc_mailbox_capacity c → poisoned tb = false → (mo_now mo + rc_mailbox_ttl c ≤ system_time_max)%N →
  (wait ≤ duration_max)%N →
  let rid := MkRelayId (hex_id id) in
  let q := queue_of tb rid in
  let tb1 := (relay_after c mo (send_request t id sealed) tb db).1 in
  quiet_reader c mo' tb1 →
  http_send (relay_net c mo tb db) t id sealed = Ok tt
  ∧ queue_of tb1 rid = drop (S (length q) - rc_mailbox_capacity c) q
                       ++ [MkMailboxEntry sealed (mo_now mo + rc_mailbox_ttl c)%N]
  ∧ (∀ body rest, pop_live (rd_clock (mo_rounds mo' 0)) 0 (queue_of tb1 rid) = (Some body, rest) →
      http_recv (relay_net c mo' tb1 db) t' id wait = Ok (Some body)
      ∧ queue_of (relay_after c mo' (recv_request t' id wait) tb1 db).1 rid = rest)
  ∧ (q = [] → (rd_clock (mo_rounds mo' 0) 0%nat < mo_now mo + rc_mailbox_ttl c)%N →
      http_recv (relay_net c mo' tb1 db) t' id wait = Ok (Some sealed)).
Proof.
  intros Hc Hc' Hl Hb Hcap Hp Ht Hw rid q tb1 Hquiet.
  pose proof (serve_send c mo t id sealed tb db Hc Hl Hb Hcap Hp Ht) as Hs. cbv zeta in Hs.
  assert (poisoned tb1 = false ∧ queue_of tb1 rid = drop (S (length q) - rc_mailbox_capacity c) q
    ++ [MkMailboxEntry sealed (mo_now mo + rc_mailbox_ttl c)%N]) as [Hp1 Hq1].
  { unfold tb1, relay_after. rewrite Hs. split; [done |]. unfold queue_of at 1.
    cbn [fst mailboxes set_mailboxes]. by rewrite lookup_insert_eq. }
  assert (∀ body rest, pop_live (rd_clock (mo_rounds mo' 0)) 0 (queue_of tb1 rid) = (Some body, rest) →
      http_recv (relay_net c mo' tb1 db) t' id wait = Ok (Some body)
      ∧ queue_of (relay_after c mo' (recv_request t' id wait) tb1 db).1 rid = rest) as Hrecv.
  { intros body rest Hpop. by eapply http_recv_relay. }
  split_and!; [| done | done |].
  - unfold http_send, relay_net. rewrite (proj2 (http_channel_id_Ok id id)) by done. cbn [rbind]. by rewrite Hs.
  - intros Hq Hlive. eapply Hrecv. rewrite Hq1, Hq, drop_nil. cbn [app]. by apply pop_live_one.
Qed.

(** The store of the relay, if there is one, accepts writes. *)
Definition store_ok (mo : moment) (db : option (gmap bytes bytes)) : Prop :=
  db = None ∨ mo_io mo = MkSledIo true true.

(** A client and the relay together are a versioned register.  A put is
    accepted unless the relay holds an unexpired value of at least that
    version, in which case the client gets a stale error and the tables do
    not change; after an accepted put of a positive version, a get of any
    such client returns exactly that version and those bytes, until they
    expire. *)
Lemma http_relay_slot (c : RelayConfig) (mo mo' : moment) (t t' : HttpTransport) (id sealed : bytes)
    (version : N) (tb : Tables) (db : option (gmap bytes bytes)) :
  relay_client c t → relay_client c t' → length id = 16 → (len sealed ≤ rc_max_body_bytes c)%N →
  (version ≤ u64_max)%N → poisoned tb = false → (mo_now mo + rc_slot_ttl c ≤ system_time_max)%N →
  store_ok mo db →
  let rid := MkRelayId (hex_id id) in
  let '(tb1, db1) := relay_after c mo (put_request t id version sealed) tb db in
  if match slots tb !! rid with
     | Some cur => negb (SlotEntry_expired (mo_now' mo) cur) && (version <=? se_version cur)%N
     | None => false
     end
  then http_put (relay_net c mo tb db) t id version sealed = Err TransportError_Stale ∧ tb1 = tb
  else http_put (relay_net c mo tb db) t id version sealed = Ok tt
       ∧ (quiet_reader c mo' tb1 → (0 < version)%N →
          (rd_clock (mo_rounds mo' 0) 0%nat < mo_now mo + rc_slot_ttl c)%N →
          http_get (relay_net c mo' tb1 db1) t' id = Ok (Some (version, sealed))).
Proof.
  intros Hc Hc' Hl Hb Hv Hp Ht Hdb rid.
  pose proof (serve_put c mo t id version sealed tb db Hc Hl Hb Hv Ht) as Hs. cbv zeta in Hs. fold rid in Hs.
  unfold relay_after, http_put, relay_net. rewrite (proj2 (http_channel_id_Ok id id)) by done. cbn [rbind].
  rewrite Hs. unfold put_slot. rewrite Hp. cbn [se_version].
  destruct (match slots tb !! rid with Some _ => _ | None => _ end); [by split |].
  set (slot := MkSlotEntry version sealed (mo_now mo + rc_slot_ttl c)%N).
  set (tb1 := set_slots (<[rid := slot]> (slots tb)) tb).
  assert (∀ db1, quiet_reader c mo' tb1 → (0 < version)%N →
      (rd_clock (mo_rounds mo' 0) 0%nat < mo_now mo + rc_slot_ttl c)%N →
      http_get (relay_net c mo' tb1 db1) t' id = Ok (Some (version, sealed))) as Hget.
  { intros db1 (Hf & Ho & Hd) Hpos Hlive.
    pose proof (serve_get c mo' t' id 0 0 tb1 db1 Hc' Hl ltac:(lia) ltac:(lia) Hd) as Hg. cbv zeta in Hg.
    rewrite (long_poll_first _ _ _ _ _ _ _ slot tb1) in Hg; [| done |].
    2:{ rewrite Ho. unfold get_slot_newer. cbn [tb1 set_slots poisoned slots]. rewrite Hp, lookup_insert_eq.
        unfold SlotEntry_expired. cbn [slot se_expires_at se_version].
        by rewrite (proj2 (N.leb_gt _ _) Hlive), (proj2 (N.ltb_lt _ _) Hpos). }
    unfold http_get, slot_get_since, relay_net. rewrite (proj2 (http_channel_id_Ok id id)) by done. cbn [rbind].
    rewrite Hg. cbn [fmap option_fmap option_map map_err rbind].
    unfold decode_slot_get_response, http_parse_version, read_body.
    cbn [response_of octet_response finish hp_status hp_version hp_body rs_status rs_headers rs_body N.eqb Pos.eqb].
    rewrite !lookup_insert_ne by done. rewrite lookup_insert_eq. cbn [mbind option_bind slot se_version se_body].
    by rewrite parse_u64_to_string. }
  destruct db as [db|]; [| by split; [| intros; apply Hget]].
  destruct Hdb as [?|Hio]; [done |]. unfold PersistentSlots_insert. rewrite Hio. cbn [sled_insert_ok sled_flush_ok].
  by split; [| intros; apply Hget].
Qed.

(** *** Watching a slot of the relay *)

(** Versions fit 64 bits, as those every write handler parses do. *)
Definition slots_bounded (tb : Tables) : Prop :=
  ∀ id s, slots tb !! id = Some s → (se_version s ≤ u64_max)%N.

Lemma long_poll_answers {A} (I : Tables → Prop) (Q : A → Prop)
    (attempt : round → Tables → result (option A) unit * Tables) respond wait deadline rounds :
  (∀ n tb, I tb → I (rd_others (rounds n) tb)) →
  (∀ rd tb r tb', I tb → attempt rd tb = (r, tb') → I tb' ∧ ∀ a, r = Ok (Some a) → Q a) →
  ∀ fuel n tb r tb', I tb →
  long_poll attempt respond wait deadline fuel n rounds tb = Some (Ok r, tb') →
  (∃ a, Q a ∧ r = respond a) ∨ r = empty_response 204 ∨ r = server_error.
Proof.
  intros Ho Ha. induction fuel as [|fuel IH]; intros n tb r tb' Hi; [done |]. cbn [long_poll].
  destruct (attempt (rounds n) (rd_others (rounds n) tb)) as [o tb1] eqn:E.
  destruct (Ha _ _ _ _ (Ho n tb Hi) E) as [Hi1 Hq]. destruct o as [[a|]|e|]; [| | | done].
  - intros [= <- <-]. left. exists a. by split; [apply Hq |].
  - destruct (remaining _ _ _); [| intros [= <- <-]; by right; left].
    destruct (rd_notified _); [by apply IH | intros [= <- <-]; by right; left].
  - intros [= <- <-]. by right; right.
Qed.

Lemma get_slot_newer_since now id since tb r tb' :
  slots_bounded tb → get_slot_newer now id since tb = (r, tb') →
  slots_bounded tb' ∧ ∀ s, r = Ok (Some s) → (since < se_version s ≤ u64_max)%N.
Proof.
  intros Hb. unfold get_slot_newer. destruct (poisoned tb); [by intros [= <- <-] |].
  destruct (slots tb !! id) as [s|] eqn:Hs; [| by intros [= <- <-]].
  destruct (SlotEntry_expired now s); intros [= <- <-].
  - split; [| done]. intros i x Hx. cbn [slots set_slots] in Hx. apply lookup_delete_Some in Hx as [_ Hx]. by eapply Hb.
  - split; [done |]. intros s'. destruct (N.ltb_spec since (se_version s)) as [Hlt|]; [| done].
    intros [= <-]. split; [done |]. by eapply Hb.
Qed.

(** The relay behind poll [n] of a watch. *)
Record poll : Type := MkPoll { po_moment : moment; po_tables : Tables; po_db : option (gmap bytes bytes) }.

Definition poll_ok (c : RelayConfig) (p : poll) : Prop :=
  slots_bounded (po_tables p)
  ∧ (∀ n tb, slots_bounded tb → slots_bounded (rd_others (mo_rounds (po_moment p) n) tb))
  ∧ (mo_now (po_moment p) + rc_max_wait c ≤ system_time_max)%N.

Definition poll_net (c : RelayConfig) (p : poll) : network := relay_net c (po_moment p) (po_tables p) (po_db p).

Lemma poll_newer c p t id since wait v b :
  relay_client c t → length id = 16 → (since ≤ u64_max)%N → (wait ≤ duration_max)%N → poll_ok c p →
  slot_get_since (poll_net c p) t id since wait = Ok (Some (v, b)) → (since < v ≤ u64_max)%N.
Proof.
  intros Hc Hl Hs Hw (Hb & Ho & Ht) H. unfold slot_get_since, poll_net, relay_net in H.
  rewrite (serve_get c (po_moment p) t id since wait (po_tables p) (po_db p) Hc Hl Hs Hw Ht) in H.
  destruct (long_poll _ _ _ _ _ _ _ _) as [[[r|?|] tb']|] eqn:E; try done.
  apply (long_poll_answers slots_bounded (λ s, since < se_version s ≤ u64_max)%N) in E;
    [| done | intros rd tb r0 tb0; apply get_slot_newer_since | done].
  cbn [fmap option_fmap option_map map_err rbind] in H.
  destruct E as [(s & Hv & ->)|[->| ->]]; [| done | done].
  unfold decode_slot_get_response, http_parse_version in H.
  cbn [response_of octet_response finish hp_status hp_version rs_status rs_headers N.eqb Pos.eqb] in H.
  rewrite !lookup_insert_ne in H by done. rewrite lookup_insert_eq in H. cbn [mbind option_bind] in H.
  rewrite parse_u64_to_string in H by lia. cbn [ok_or rbind] in H. injection H as <- _. done.
Qed.

Lemma watch_loop_increasing c t id (polls : nat → poll) alive fuel : ∀ n since,
  relay_client c t → length id = 16 → (ht_long_poll t ≤ duration_max)%N → (since ≤ u64_max)%N →
  (∀ n, poll_ok c (polls n)) →
  StronglySorted N.lt (since :: item_versions (watch_loop fuel n (λ n, poll_net c (polls n)) alive t id since)).
Proof.
  induction fuel as [|fuel IH]; intros n since Hc Hl Hw Hs Hp; cbn [watch_loop]; [by repeat constructor |].
  assert (StronglySorted N.lt [since]) as Hone by by repeat constructor.
  destruct (slot_get_since _ _ _ _ _) as [[[v b]|]|e|] eqn:E; [| by apply IH | | done].
  - destruct (alive n); [| done]. apply poll_newer in E; try done. cbn [item_versions filter_map].
    specialize (IH (S n) v Hc Hl Hw ltac:(lia) Hp). constructor; [done |].
    apply StronglySorted_inv in IH as [_ Hf]. constructor; [lia |].
    eapply Forall_impl; [exact Hf |]. cbn. lia.
  - destruct (alive n); [| done]. cbn [item_versions filter_map]. by apply IH.
Qed.

(** A watch over a relay yields strictly increasing versions, all above
    the one it started from, whatever other clients do to the relay between
    and during its polls, and however often polls fail. *)
Lemma http_watch_increasing (c : RelayConfig) (t : HttpTransport) (id : bytes) (since : N)
    (polls : nat → poll) (alive : nat → bool) (fuel : nat) :
  relay_client c t → length id = 16 → (ht_long_poll t ≤ duration_max)%N → (since ≤ u64_max)%N →
  (∀ n, poll_ok c (polls n)) →
  StronglySorted N.lt (since :: item_versions (http_watch fuel (λ n, poll_net c (polls n)) alive t id since)).
Proof.
  intros Hc Hl Hw Hs Hp. unfold http_watch. rewrite (proj2 (http_channel_id_Ok id id)) by done.
  by apply watch_loop_increasing.
Qed.
End Claims.

(** ** Witnesses *)

Module HttpRelayWitness.
Import RelayWitness.
#[local] Existing Instance ToyUrl.toy_url.
#[local] Existing Instance toy_base64.

#[local] Instance toy_http : HttpLib := {| url_path _ := lit "/"; status_text := u64_to_string |}.

(** A wire that splits the path and passes everything on. *)
#[local] Instance toy_wire : Wire := {|
  deliver rq :=
    match hr_path rq with
    | x2f :: p :: x2f :: id =>
        (λ h, (h, MkRequest id (list_to_map (hr_query rq)) (basic_auth_text <$> hr_auth rq) (hr_version rq)
                    (hr_body rq : Body)))
        <$> relay_route (hr_method rq) [p]
    | _ => None
    end;
  body_of b := b
|}.

#[local] Instance toy_wire_laws : WireLaws.
Proof.
  split; [| done]. intros m prefix h id base query a ct v body Hr _ _ _.
  assert (∃ p, prefix = [p]) as [p ->].
  { unfold relay_route in Hr. destruct m; repeat case_decide; try done; subst; by eexists. }
  cbn [deliver toy_wire hr_path hr_method hr_query hr_auth hr_version hr_body app]. by rewrite Hr.
Qed.

Definition toy_auth : BasicAuth := MkBasicAuth (lit "me") (lit "secret").
Definition toy_base : Url := dexist (P:=λ s : bytes, utf8_valid s = true) (lit "https://relay") eq_refl.

Definition client : HttpTransport := MkHttpTransport toy_base (Some toy_auth) (from_secs 25).
Definition relay : RelayConfig :=
  MkRelayConfig DEFAULT_LISTEN (Some (basic_auth_text toy_auth)) None None None 100 (from_secs 30) 2 1000 1000.

Definition toy_channel : bytes := replicate 16 xab.
Definition empty_tables : Tables := MkTables ∅ ∅ false.
Definition at_moment (now : N) : moment :=
  MkMoment now now 3 (λ _, MkRound (λ t, t) (λ _, now) now false) (MkSledIo true true).

Lemma toy_client : relay_client relay client.
Proof. split; [reflexivity | right; reflexivity]. Qed.

Lemma http_relay_mailbox_witness :
  http_recv (relay_net relay (at_moment 20)
    (relay_after relay (at_moment 10) (send_request client toy_channel (lit "frame")) empty_tables None).1 None)
    client toy_channel 0 = Ok (Some (lit "frame")).
Proof.
  apply (http_relay_mailbox relay (at_moment 10) (at_moment 20) client client toy_channel (lit "frame") 0
    empty_tables None toy_client toy_client).
  - reflexivity.
  - discriminate.
  - cbn. lia.
  - reflexivity.
  - discriminate.
  - discriminate.
  - split; [cbn; lia | split; [reflexivity | discriminate]].
  - reflexivity.
  - reflexivity.
Defined.

Lemma http_relay_slot_witness :
  http_put (relay_net relay (at_moment 10) empty_tables None) client toy_channel 7 (lit "value") = Ok tt.
Proof.
  pose proof (http_relay_slot relay (at_moment 10) (at_moment 20) client client toy_channel (lit "value") 7
    empty_tables None toy_client toy_client eq_refl ltac:(discriminate) ltac:(discriminate) eq_refl
    ltac:(discriminate) (or_introl eq_refl)) as H. cbv zeta in H.
  destruct (relay_after relay (at_moment 10) (put_request client toy_channel 7 (lit "value")) empty_tables None).
  exact (proj1 H).
Defined.

End HttpRelayWitness.
