(* ===== verification/RelayQueue.v ===== *)
(** * The relay as one side of a system

    The state of a relay between requests, the requests of a fan-out one
    after the other, and what sending and receiving through the HTTP
    transport does to one mailbox of the relay: [holds] relates the relay to
    the list of frames in that mailbox, and each request to a list
    operation.  The systems of namespaces and of peers build on it. *)

From S2P Require Import Prelude Bytes Crypto Kdf Net Guard Errors Dedup Config Health PeerCard Coordinator Namespace Relay Http HttpRelay.

Section RelaySide.
Context `{PR : Primitives} `{UL : UrlLib} `{HL : !HttpLib} `{AX : Axum} {B64 : Base64} `{WR : !Wire}.
Notation task := (task (T:=HttpTransport)).

Record relay_state : Type := MkRelayState {
  rs_tables : Tables;
  rs_db : option (gmap bytes bytes)
}.

(** The relay after the request a client made, if it made one. *)
Definition after_request {E} (rc : RelayConfig) (mo : moment) (rq : result HttpRequest E) (st : relay_state)
    : relay_state :=
  match rq with
  | Ok rq => let '(tb, db) := relay_after rc mo rq (rs_tables st) (rs_db st) in MkRelayState tb db
  | _ => st
  end.

Definition net_of (rc : RelayConfig) (mo : moment) (st : relay_state) : network :=
  relay_net rc mo (rs_tables st) (rs_db st).

(** The tasks of a fan-out, one request each, in completion order. *)
Fixpoint fan_out {A} (one : task → relay_state → A * relay_state) (tasks : list task) (st : relay_state)
    : list (TransportKind * A) * relay_state :=
  match tasks with
  | [] => ([], st)
  | t :: tasks =>
      let '(r, st) := one t st in
      let '(rs, st) := fan_out one tasks st in ((te_kind (tk_endpoint t), r) :: rs, st)
  end.

Definition send_task (rc : RelayConfig) (mo : moment) (sealed : bytes) (t : task) (st : relay_state)
    : result unit TransportError * relay_state :=
  let h := te_transport (tk_endpoint t) in
  (http_send (net_of rc mo st) h (tk_id t) sealed,
   after_request rc mo (rmap (λ id, send_request h id sealed) (http_channel_id (tk_id t))) st).

Definition recv_task (rc : RelayConfig) (mo : moment) (wait : N) (t : task) (st : relay_state)
    : result (option bytes) TransportError * relay_state :=
  let h := te_transport (tk_endpoint t) in
  (http_recv (net_of rc mo st) h (tk_id t) wait,
   after_request rc mo (rmap (λ id, recv_request h id wait) (http_channel_id (tk_id t))) st).

(** The relay after a fan-out, which happens when there are tasks. *)
Definition after_fan {A E} (one : task → relay_state → A * relay_state) (tasks : result (list task) E)
    (st : relay_state) : relay_state :=
  match tasks with Ok tasks => (fan_out one tasks st).2 | _ => st end.

(** How long [recv] lets a transport wait. *)
Definition recv_wait : N := from_secs DEFAULT_LONG_POLL_SECS.
End RelaySide.

(** ** One mailbox of the relay *)

Section OneMailbox.
Context `{PR : Primitives} `{UL : UrlLib} `{HL : !HttpLib} `{AX : Axum} {B64 : Base64} `{WR : !Wire} `{WL : !WireLaws}.
Context (rc : RelayConfig) (t0 : N) (chan : bytes).
Hypothesis Hcap : 1 ≤ rc_mailbox_capacity rc.
Hypothesis chan_length : length chan = 16.

(** A moment of a run that starts at [t0] and ends before a frame expires;
    while a request waits nothing else happens. *)
Definition moment_ok (mo : moment) : Prop :=
  0 < mo_fuel mo ∧ (∀ n tb, rd_others (mo_rounds mo n) tb = tb)
  ∧ (∀ n i, rd_clock (mo_rounds mo n) i < t0 + rc_mailbox_ttl rc)%N ∧ (t0 ≤ mo_now mo)%N
  ∧ (mo_now mo + rc_max_wait rc ≤ system_time_max)%N ∧ (mo_now mo + rc_mailbox_ttl rc ≤ system_time_max)%N.

Notation rid id := (MkRelayId (hex_id id)).

(** The relay with one more frame in a mailbox. *)
Definition pushed (mo : moment) (id frame : bytes) (st : relay_state) : relay_state :=
  MkRelayState
    (set_mailboxes (<[rid id :=
       drop (Datatypes.S (length (queue_of (rs_tables st) (rid id))) - rc_mailbox_capacity rc) (queue_of (rs_tables st) (rid id))
       ++ [MkMailboxEntry frame (mo_now mo + rc_mailbox_ttl rc)%N]]> (mailboxes (rs_tables st))) (rs_tables st))
    (rs_db st).

Lemma post_pushes mo t id frame st :
  relay_client rc t → length id = 16 → (len frame ≤ rc_max_body_bytes rc)%N → moment_ok mo →
  poisoned (rs_tables st) = false →
  http_send (net_of rc mo st) t id frame = Ok tt
  ∧ after_request rc mo (rmap (λ id, send_request t id frame) (http_channel_id id)) st = pushed mo id frame st.
Proof.
  intros Hc Hl Hb (_ & _ & _ & _ & _ & Ht) Hp.
  pose proof (serve_send rc mo t id frame (rs_tables st) (rs_db st) Hc Hl Hb Hcap Hp Ht) as Hs. cbv zeta in Hs.
  unfold http_send, net_of, relay_net, after_request, relay_after.
  rewrite (proj2 (http_channel_id_Ok id id)) by done. cbn [rbind rmap]. by rewrite Hs.
Qed.

(** *** Receiving one frame *)

Lemma recv_wait_bound : (recv_wait ≤ duration_max)%N.
Proof. intros H. vm_compute in H. discriminate H. Qed.

(** The frames of a queue, none of which expires during the run. *)
Definition live_queue (q : list MailboxEntry) : Prop :=
  Forall (λ e, t0 + rc_mailbox_ttl rc ≤ me_expires_at e)%N q.

Lemma pop_live_head mo e q :
  moment_ok mo → live_queue (e :: q) → pop_live (rd_clock (mo_rounds mo 0)) 0 (e :: q) = (Some (me_body e), q).
Proof.
  clear Hcap chan_length chan. intros (_ & _ & Hclock & _) [He _]%Forall_cons. cbn [pop_live]. unfold MailboxEntry_expired.
  specialize (Hclock 0 0). destruct (N.leb_spec (me_expires_at e) (rd_clock (mo_rounds mo 0) 0)); [lia | done].
Qed.

Lemma recv_pops mo t st e q :
  relay_client rc t → moment_ok mo → poisoned (rs_tables st) = false →
  queue_of (rs_tables st) (rid chan) = e :: q → live_queue (e :: q) →
  let '(r, st') := recv_task rc mo recv_wait (MkTask (MkTransportEndpoint Http t) chan) st in
  r = Ok (Some (me_body e)) ∧ queue_of (rs_tables st') (rid chan) = q ∧ poisoned (rs_tables st') = false.
Proof.
  intros Hc Hmo Hp Hq Hlive. pose proof chan_length as Hl. pose proof Hmo as (Hf & Ho & _ & _ & Hw & _).
  pose proof (pop_live_head mo e q Hmo Hlive) as Hpop. rewrite <- Hq in Hpop.
  destruct (pop_mailbox_Ok (rd_clock (mo_rounds mo 0)) (rid chan) (rs_tables st) Hp) as (tb' & Hm & Hp' & Hq' & _).
  rewrite Hpop in Hm, Hq'. cbn [fst snd] in Hm, Hq'.
  pose proof (serve_recv rc mo t chan recv_wait (rs_tables st) (rs_db st) Hc Hl recv_wait_bound Hw) as Hs. cbv zeta in Hs.
  rewrite (long_poll_first _ _ _ _ _ _ _ (me_body e) tb') in Hs; [| done | by rewrite Ho].
  unfold recv_task, http_recv, net_of, relay_net, after_request, relay_after.
  cbn [tk_id tk_endpoint te_transport]. rewrite (proj2 (http_channel_id_Ok chan chan)) by done. cbn [rbind rmap].
  rewrite Hs. by split_and!.
Qed.

Lemma long_poll_empty mo wait deadline n fuel tb :
  (∀ n tb, rd_others (mo_rounds mo n) tb = tb) → poisoned tb = false → queue_of tb (rid chan) = [] →
  match long_poll (λ rd, pop_mailbox (rd_clock rd) (rid chan)) (λ body, octet_response 200 body None)
          wait deadline fuel n (mo_rounds mo) tb with
  | None => True
  | Some (r, tb') => r = Ok (empty_response 204) ∧ poisoned tb' = false ∧ queue_of tb' (rid chan) = []
  end.
Proof.
  intros Ho. revert n tb. induction fuel as [|fuel IH]; intros n tb Hp Hq; [done |]. cbn [long_poll].
  rewrite Ho. destruct (pop_mailbox_Ok (rd_clock (mo_rounds mo n)) (rid chan) tb Hp) as (tb' & Hm & Hp' & Hq' & _).
  rewrite Hq in Hm, Hq'. cbn [pop_live fst snd] in Hm, Hq'. rewrite Hm.
  destruct (remaining _ _ _); [| done]. destruct (rd_notified _); [by apply IH | done].
Qed.

Lemma recv_empty mo t st :
  relay_client rc t → moment_ok mo → poisoned (rs_tables st) = false → queue_of (rs_tables st) (rid chan) = [] →
  let '(r, st') := recv_task rc mo recv_wait (MkTask (MkTransportEndpoint Http t) chan) st in
  (∀ b, r ≠ Ok (Some b)) ∧ queue_of (rs_tables st') (rid chan) = [] ∧ poisoned (rs_tables st') = false.
Proof.
  intros Hc (_ & Ho & _ & _ & Hw & _) Hp Hq. pose proof chan_length as Hl.
  pose proof (serve_recv rc mo t chan recv_wait (rs_tables st) (rs_db st) Hc Hl recv_wait_bound Hw) as Hs. cbv zeta in Hs.
  pose proof (long_poll_empty mo (N.min (from_secs (as_secs recv_wait)) (rc_max_wait rc))
    (mo_now mo + N.min (from_secs (as_secs recv_wait)) (rc_max_wait rc))%N 0 (mo_fuel mo) (rs_tables st) Ho Hp Hq) as Hlp.
  unfold recv_task, http_recv, net_of, relay_net, after_request, relay_after.
  cbn [tk_id tk_endpoint te_transport]. rewrite (proj2 (http_channel_id_Ok chan chan)) by done. cbn [rbind rmap].
  rewrite Hs. destruct (long_poll _ _ _ _ _ _ _ _) as [[r tb']|]; cbn [fmap option_fmap option_map].
  - destruct Hlp as (-> & Hp' & Hq'). by split_and!.
  - by split_and!.
Qed.

(** ** The frames of the mailbox *)

(** [q] are the frames in the mailbox, and none of them expires during the
    run. *)
Record holds (st : relay_state) (q : list bytes) : Prop := {
  holds_lock : poisoned (rs_tables st) = false;
  holds_queue : me_body <$> queue_of (rs_tables st) (rid chan) = q;
  holds_live : live_queue (queue_of (rs_tables st) (rid chan))
}.

Lemma fmap_drop_snoc {A B} (f : A → B) k l x : f <$> (drop k l ++ [x]) = drop k (f <$> l) ++ [f x].
Proof. by rewrite fmap_app, fmap_drop. Qed.

(** A frame for this mailbox goes to its end and may push out the oldest; one
    for another mailbox changes nothing here. *)
Lemma holds_push mo id frame st q :
  moment_ok mo → holds st q →
  holds (pushed mo id frame st)
    (if decide (id = chan) then drop (Datatypes.S (length q) - rc_mailbox_capacity rc) q ++ [frame] else q).
Proof.
  clear Hcap chan_length. intros (_ & _ & _ & Hnow & _) [Hp Hq Hl]. destruct (decide (id = chan)) as [->|Hne].
  - assert (length q = length (queue_of (rs_tables st) (rid chan))) as Hlen by (rewrite <- Hq; apply length_fmap).
    split; cbn [pushed rs_tables poisoned set_mailboxes]; [done | ..].
    + unfold queue_of at 1. cbn [mailboxes set_mailboxes]. rewrite lookup_insert_eq. cbn [default id]. unfold id.
      by rewrite fmap_drop_snoc, Hq, Hlen.
    + unfold queue_of at 1. cbn [mailboxes set_mailboxes]. rewrite lookup_insert_eq. cbn [default id]. unfold id.
      apply Forall_app. split; [by apply Forall_drop |]. constructor; [cbn; lia | constructor].
  - assert (rid id ≠ rid chan) as Hid by (by intros [=H%hex_bytes_inj]).
    split; cbn [pushed rs_tables poisoned set_mailboxes]; [done | ..];
      unfold queue_of at 1; cbn [mailboxes set_mailboxes]; by rewrite lookup_insert_ne.
Qed.

Lemma send_task_pushes mo t id frame st q :
  relay_client rc t → length id = 16 → (len frame ≤ rc_max_body_bytes rc)%N → moment_ok mo → holds st q →
  send_task rc mo frame (MkTask (MkTransportEndpoint Http t) id) st = (Ok tt, pushed mo id frame st).
Proof.
  intros Hc Hi Hb Hmo Hh. destruct (post_pushes mo t id frame st Hc Hi Hb Hmo (holds_lock _ _ Hh)) as [Hs Ha].
  unfold send_task. cbn [tk_endpoint te_transport te_kind tk_id]. by rewrite Hs, Ha.
Qed.

(** A receive takes the oldest frame, or finds none. *)
Lemma recv_task_takes mo t st q :
  relay_client rc t → moment_ok mo → holds st q →
  let '(r, st') := recv_task rc mo recv_wait (MkTask (MkTransportEndpoint Http t) chan) st in
  holds st' (tail q)
  ∧ match q with
    | [] => ∀ b, r ≠ Ok (Some b)
    | frame :: _ => r = Ok (Some frame)
    end.
Proof.
  intros Hc Hmo [Hp Hq Hl]. destruct (queue_of (rs_tables st) (rid chan)) as [|e es] eqn:E.
  - cbn in Hq. subst q. pose proof (recv_empty mo t st Hc Hmo Hp E) as Hr.
    destruct (recv_task _ _ _ _ _) as [r st']. destruct Hr as (Hr & Hq' & Hp').
    split; [| done]. split; [done | by rewrite Hq' | rewrite Hq'; constructor].
  - subst q. pose proof (recv_pops mo t st e es Hc Hmo Hp E Hl) as Hr.
    destruct (recv_task _ _ _ _ _) as [r st']. destruct Hr as (-> & Hq' & Hp').
    split; [| done]. apply Forall_cons in Hl as [_ Hl]. split; [done | by rewrite Hq' | by rewrite Hq'].
Qed.
End OneMailbox.
