(* ===== verification/System.v ===== *)
(** * The whole path: namespaces, the HTTP transport and a relay

    Every layer of a message in one definition: a mailbox handle of a
    namespace seals a payload, the coordinator hands the frame to the HTTP
    transport, the request reaches the handler of the relay, and the handle of
    another namespace takes the frame out, drops what it has seen and opens
    the rest.  The system is driven by a list of operations: sends of any
    number of namespaces, frames anybody with the credential posts, and rounds
    of the receiver.  It refines an abstract channel. *)

From S2P Require Import Prelude Bytes Crypto Kdf Net Guard Errors Dedup Config Health PeerCard Msgpack State Coordinator SlotWatch Iroh Namespace Relay Http HttpRelay RelayQueue.

(** ** The abstract channel

    A bounded queue of identified items; a pull hands out the oldest item
    unless its identity is among the ones pulled recently. *)

Section Channel.
Context `{PR : Primitives} {A : Type}.

Record channel : Type := MkChannel {
  ch_queue : list (bytes * option A);
  ch_seen : list bytes
}.

Inductive channel_op : Type :=
| ChPush (id : bytes) (content : option A)
| ChPull
| ChIdle.

(** [cap] items are kept, [win] identities are remembered. *)
Definition channel_step (cap win : nat) (op : channel_op) (s : channel) : option A * channel :=
  match op with
  | ChPush id x =>
      (None, MkChannel (drop (S (length (ch_queue s)) - cap) (ch_queue s) ++ [(id, x)]) (ch_seen s))
  | ChPull =>
      match ch_queue s with
      | [] => (None, s)
      | (id, x) :: q =>
          (if decide (digest id ∈ window win (ch_seen s)) then None else x,
           MkChannel q (ch_seen s ++ [id]))
      end
  | ChIdle => (None, s)
  end.

Fixpoint channel_run (cap win : nat) (ops : list channel_op) (s : channel) : list (option A) * channel :=
  match ops with
  | [] => ([], s)
  | op :: ops =>
      let '(x, s) := channel_step cap win op s in
      let '(xs, s) := channel_run cap win ops s in (x :: xs, s)
  end.
End Channel.
Arguments channel : clear implicits.
Arguments channel_op : clear implicits.

(** ** The system *)

Section System.
Context `{PR : Primitives} `{UL : UrlLib} `{HL : !HttpLib} `{AX : Axum} {B64 : Base64} `{WR : !Wire}.
Context {LC : LruCache bytes} {MP : Msgpack SignedInner} {S : Type} {ST : StateStore S}.
Notation Namespace := (Namespace (T:=HttpTransport)).
Notation Coordinator := (Coordinator (T:=HttpTransport)).
Notation task := (task (T:=HttpTransport)).

Record system : Type := MkSystem {
  sy_relay : relay_state;
  sy_mailbox : Mailbox;
  sy_health : HealthTracker
}.

(** A namespace sends on the channel; anybody posts a frame to a channel id;
    the receiver runs one round of its [recv] loop. *)
Inductive system_op : Type :=
| SysSend (n : Namespace) (nonce payload : bytes) (w : world (S:=S)) (clock : nat → N * N) (mo : moment)
| SysPost (t : HttpTransport) (id frame : bytes) (mo : moment)
| SysRecv (clock : nat → N * N) (mo : moment).

Inductive system_out : Type :=
| OutSent (r : result SendReport SendError)
| OutPosted (r : result unit TransportError)
| OutRecv (r : option (result RecvMessage RecvError)).

Definition system_step (rc : RelayConfig) (rcv : Namespace) (name : bytes) (op : system_op) (s : system)
    : system_out * system :=
  let relay := sy_relay s in
  match op with
  | SysSend n nonce payload w clock mo =>
      let c := ns_coordinator n in
      let run tasks sealed := (fan_out (send_task rc mo sealed) tasks relay).1 in
      let r := (Mailbox_send nonce clock run c (MkMailbox name (Dedup_new (co_dedup_buffer c))) payload w).1 in
      let relay :=
        match Coordinator_seal nonce c ChMailbox name payload None with
        | Ok sealed => after_fan (send_task rc mo sealed) (spawn_all SealError_MsgpackFailed c ChMailbox name) relay
        | _ => relay
        end in
      (OutSent r, MkSystem relay (sy_mailbox s) (sy_health s))
  | SysPost t id frame mo =>
      (OutPosted (http_send (net_of rc mo relay) t id frame),
       MkSystem (after_request rc mo (rmap (λ id, send_request t id frame) (http_channel_id id)) relay)
         (sy_mailbox s) (sy_health s))
  | SysRecv clock mo =>
      let c := ns_coordinator rcv in
      let run (_ : nat) tasks := (fan_out (recv_task rc mo recv_wait) tasks relay).1 in
      let '(r, m, h) := Mailbox_recv 1 (λ _, clock) run c (sy_mailbox s) (sy_health s) in
      (OutRecv r,
       MkSystem (after_fan (recv_task rc mo recv_wait) (spawn_all RecvError_Closed c ChMailbox name) relay) m h)
  end.

Fixpoint system_run (rc : RelayConfig) (rcv : Namespace) (name : bytes) (ops : list system_op) (s : system)
    : list system_out * system :=
  match ops with
  | [] => ([], s)
  | op :: ops =>
      let '(o, s) := system_step rc rcv name op s in
      let '(os, s) := system_run rc rcv name ops s in (o :: os, s)
  end.

(** *** Slots *)

Definition put_task (rc : RelayConfig) (mo : moment) (version : N) (sealed : bytes) (t : task) (st : relay_state)
    : result unit TransportError * relay_state :=
  let h := te_transport (tk_endpoint t) in
  (http_put (net_of rc mo st) h (tk_id t) version sealed,
   after_request rc mo (rmap (λ id, put_request h id version sealed) (http_channel_id (tk_id t))) st).

Definition get_task (rc : RelayConfig) (mo : moment) (t : task) (st : relay_state)
    : result (option (N * bytes)) TransportError * relay_state :=
  let h := te_transport (tk_endpoint t) in
  (http_get (net_of rc mo st) h (tk_id t),
   after_request rc mo (rmap (λ id, get_request h id 0 0) (http_channel_id (tk_id t))) st).

(** A namespace with its store and health, and the relay. *)
Definition system_get (rc : RelayConfig) (mo : moment) (clock : nat → N * N) (n : Namespace) (name : bytes)
    (w : world (S:=S)) (st : relay_state) : result (option SlotValue) SlotError * world (S:=S) * relay_state :=
  let c := ns_coordinator n in
  (Slot_get clock (λ tasks, (fan_out (get_task rc mo) tasks st).1) c (MkSlot name) w,
   after_fan (get_task rc mo) (spawn_all SealError_MsgpackFailed c ChSlot name) st).

Definition system_put (rc : RelayConfig) (mo : moment) (nonce : bytes) (clock : nat → N * N) (n : Namespace)
    (name payload : bytes) (w : world (S:=S)) (st : relay_state)
    : result PutReport SlotError * world (S:=S) * relay_state :=
  let c := ns_coordinator n in
  (Slot_put nonce clock (λ tasks version sealed, (fan_out (put_task rc mo version sealed) tasks st).1) c (MkSlot name)
     payload w,
   match (next_local_slot_version name (w_state w)).1 with
   | Ok version =>
       match Coordinator_seal nonce c ChSlot name payload (Some version) with
       | Ok sealed =>
           after_fan (put_task rc mo version sealed) (spawn_all SealError_MsgpackFailed c ChSlot name) st
       | _ => st
       end
   | _ => st
   end).

(** ** Opening *)

(** A namespace opened with the HTTP transport only, against this relay. *)
Definition http_only (c : Config S HttpTransport) (h : HttpConfig) : Prop :=
  cfg_http c = Some h ∧ cfg_pkarr c = None ∧ cfg_iroh c = None ∧ cfg_transports c = [].

(** The constructors with which such a namespace opens. *)
Definition http_builders (client : result unit ReqwestError) : Builders (S:=S) (T:=HttpTransport) :=
  MkBuilders (HttpTransport_new client) (λ _ _, Err TransportError_Unsupported)
    (λ _ st, (Err (IrohInitError_Transport TransportError_Unsupported), st)).

Definition opened (rc : RelayConfig) (sd : bytes) (n : Namespace) : Prop :=
  ∃ client c h w st, Namespace_open (http_builders client) sd c = (Ok (n, w), st) ∧ http_only c h
    ∧ trim_end_slashes (url_path (url h)) = []
    ∧ (rc_auth rc = None ∨ rc_auth rc = basic_auth_text <$> auth h).

(** What a frame is to the receiver. *)
Definition content (rcv : Namespace) (name frame : bytes) : option RecvMessage :=
  open_mail (ns_coordinator rcv) name Http frame.

Definition channel_op_of (rcv : Namespace) (chan name : bytes) (op : system_op) : channel_op RecvMessage :=
  match op with
  | SysSend n nonce payload _ _ _ =>
      match Coordinator_seal nonce (ns_coordinator n) ChMailbox name payload None with
      | Ok sealed =>
          ChPush sealed (Some (MkRecvMessage payload Http (verifying_key <$> co_signing (ns_coordinator n))))
      | _ => ChIdle
      end
  | SysPost _ id frame _ => if decide (id = chan) then ChPush frame (content rcv name frame) else ChIdle
  | SysRecv _ _ => ChPull
  end.

(** What the caller of an operation sees, given the item of the channel. *)
Definition expected (op : system_op) (x : option RecvMessage) : system_out :=
  match op with
  | SysSend _ _ _ _ _ _ => OutSent (Ok (MkSendReport [Http] []))
  | SysPost _ _ _ _ => OutPosted (Ok tt)
  | SysRecv _ _ => OutRecv (Ok <$> x)
  end.
End System.

(** ** Lemmas *)

Section SystemLemmas.
Context `{PR : Primitives} `{PL : !PrimitivesLaws} `{UL : UrlLib} `{HL : !HttpLib} `{AX : Axum} {B64 : Base64}.
Context `{WR : !Wire} `{WL : !WireLaws} {LC : LruCache bytes} {MP : Msgpack SignedInner}.
Context {MPL : MsgpackLaws SignedInner} {S : Type} {ST : StateStore S}.
Notation Namespace := (Namespace (T:=HttpTransport)).
Notation Coordinator := (Coordinator (T:=HttpTransport)).
Notation system_op := (system_op (S:=S)).

(** A coordinator with one transport, a client of the relay. *)
Definition http_node (rc : RelayConfig) (sd : bytes) (c : Coordinator) : Prop :=
  seed c = sd ∧ ∃ t, co_transports c = [MkTransportEndpoint Http t] ∧ relay_client rc t.

Lemma opened_node rc sd (n : Namespace) : opened (S:=S) rc sd n → http_node rc sd (ns_coordinator n).
Proof.
  intros (client & c & h & w & st & Ho & (Hh & Hp & Hi & Ht) & Hpath & Hauth).
  apply Namespace_open_Ok in Ho as (_ & _ & Hco & Hbh & Hbp & Hbi & _).
  rewrite Hh in Hbh. rewrite Hp in Hbp. unfold open_iroh_transport in Hbi. rewrite Hi in Hbi.
  destruct (ns_http n) as [t|]; [| done]. destruct (ns_pkarr n); [done |]. injection Hbi as Hn _.
  cbn [built http_builders new_http] in Hbh. unfold HttpTransport_new in Hbh.
  apply rbind_Ok in Hbh as (_ & _ & [= <-]).
  split; [by rewrite Hco |]. eexists. rewrite Hco. unfold transports_of. rewrite <- Hn, Ht. by split.
Qed.

Section Run.
Context (rc : RelayConfig) (sd name chan : bytes) (t0 : N).
Hypothesis Hname : name_ok name.
Hypothesis Hchan : channel_id sd Http ChMailbox name = Ok chan.
Hypothesis Hcap : 1 ≤ rc_mailbox_capacity rc.

Definition system_op_ok (rcv : Namespace) (op : system_op) : Prop :=
  match op with
  | SysSend n nonce payload w clock mo =>
      opened (S:=S) rc sd n ∧ signer_accepted (ns_coordinator n) (ns_coordinator rcv)
      ∧ fits (ns_coordinator n) (ns_coordinator rcv) name payload ∧ length nonce = NONCE_LEN ∧ moment_ok rc t0 mo
      ∧ ∃ sealed, Coordinator_seal nonce (ns_coordinator n) ChMailbox name payload None = Ok sealed
          ∧ (len sealed ≤ rc_max_body_bytes rc)%N
  | SysPost t id frame mo =>
      relay_client rc t ∧ length id = 16 ∧ (len frame ≤ rc_max_body_bytes rc)%N ∧ moment_ok rc t0 mo
  | SysRecv clock mo => moment_ok rc t0 mo
  end.

Lemma chan_length : length chan = 16.
Proof. destruct (channel_id_Ok sd Http ChMailbox name Hname) as (i & Hi & Hl). rewrite Hchan in Hi. by injection Hi as ->. Qed.

Lemma spawn_one {E} (e : E) (c : Coordinator) t :
  seed c = sd → co_transports c = [MkTransportEndpoint Http t] →
  spawn_all e c ChMailbox name = Ok [MkTask (MkTransportEndpoint Http t) chan].
Proof.
  intros Hs Ht. unfold spawn_all. rewrite Ht, Hs. cbn [map_result te_kind].
  unfold transport_channel_id. rewrite decide_False by done. by rewrite Hchan.
Qed.

Notation rid id := (MkRelayId (hex_id id)).

(** *** The simulation *)

Context (rcv : Namespace).
Hypothesis Hrcv : opened (S:=S) rc sd rcv.
Notation win := (co_dedup_buffer (ns_coordinator rcv)).

(** The relay's queue is the channel's, item by item, and the duplicate
    buffer of the handle remembers what was pulled. *)
Record simulates (s : system) (ch : channel RecvMessage) : Prop := {
  sim_queue : holds rc t0 chan (sy_relay s) (ch_queue ch).*1;
  sim_content : Forall (λ p, p.2 = content rcv name p.1) (ch_queue ch);
  sim_name : mb_name (sy_mailbox s) = name;
  sim_seen : mb_dedup (sy_mailbox s) = observe_all (Dedup_new win) (ch_seen ch)
}.

Lemma simulates_push mo id frame s ch :
  moment_ok rc t0 mo → simulates s ch →
  simulates (MkSystem (pushed rc mo id frame (sy_relay s)) (sy_mailbox s) (sy_health s))
    (channel_step (rc_mailbox_capacity rc) win
       (if decide (id = chan) then ChPush frame (content rcv name frame) else ChIdle) ch).2.
Proof.
  intros Hmo [Hq Hc Hn Hd]. pose proof (holds_push rc t0 chan mo id frame _ _ Hmo Hq) as Hh.
  destruct (decide (id = chan)) as [->|Hne]; cbn [channel_step snd]; [| by split].
  rewrite length_fmap in Hh. split; cbn [sy_relay sy_mailbox ch_queue ch_seen]; [| | done | done].
  - by rewrite fmap_drop_snoc.
  - apply Forall_app. split; [by apply Forall_drop |]. by repeat constructor.
Qed.

(** One operation, in the system and in the channel. *)
Definition step_simulates (op : system_op) : Prop := ∀ s ch,
  system_op_ok rcv op → simulates s ch →
  let '(o, s') := system_step rc rcv name op s in
  let '(x, ch') := channel_step (rc_mailbox_capacity rc) win (channel_op_of rcv chan name op) ch in
  o = expected op x ∧ simulates s' ch'.

Lemma send_simulates n nonce payload w clock mo : step_simulates (SysSend n nonce payload w clock mo).
Proof.
  intros s ch (Ho & Hacc & Hfit & Hnonce & Hmo & sealed & Hs & Hb) Hsim.
  destruct (opened_node _ _ _ Ho) as [Hseed (t & Ht & Hc)]. destruct (opened_node _ _ _ Hrcv) as [Hseed' _].
  pose proof (send_task_pushes rc t0 chan Hcap mo t chan sealed _ _ Hc chan_length Hb Hmo (sim_queue _ _ Hsim)) as Hfan.
  assert (content rcv name sealed
          = Some (MkRecvMessage payload Http (verifying_key <$> co_signing (ns_coordinator n)))) as Hcont.
  { unfold content, open_mail.
    by rewrite (Coordinator_open_seal_at _ _ _ _ _ _ _ _ Hnonce (eq_trans Hseed' (eq_sym Hseed)) Hacc Hfit Hs). }
  cbn [system_step channel_op_of]. unfold Mailbox_send, mailbox_send, lift, after_fan. cbn [mb_name].
  rewrite Hs, (spawn_one SealError_MsgpackFailed _ t Hseed Ht). cbn [map_err rbind fan_out tk_endpoint te_kind]. rewrite Hfan.
  pose proof (simulates_push mo chan sealed s ch Hmo Hsim) as Hpush.
  rewrite decide_True in Hpush by done. rewrite Hcont in Hpush. by split.
Qed.

Lemma post_simulates t id frame mo : step_simulates (SysPost t id frame mo).
Proof.
  intros s ch (Hc & Hl & Hb & Hmo) Hsim.
  destruct (post_pushes rc t0 Hcap mo t id frame _ Hc Hl Hb Hmo (holds_lock _ _ _ _ _ (sim_queue _ _ Hsim))) as [Hs Ha].
  cbn [system_step]. rewrite Hs, Ha. pose proof (simulates_push mo id frame s ch Hmo Hsim) as Hpush.
  cbn [channel_op_of]. by destruct (channel_step _ _ _ _) as [x ch'].
Qed.

Lemma recv_simulates clock mo : step_simulates (SysRecv clock mo).
Proof.
  intros s ch Hmo [Hq Hcs Hn Hd]. destruct (opened_node _ _ _ Hrcv) as [Hseed (t & Ht & Hc)].
  cbn [system_step channel_op_of channel_step]. unfold Mailbox_recv, after_fan.
  replace (from_secs DEFAULT_LONG_POLL_SECS =? 0)%N with false by done. cbn [mailbox_recv].
  rewrite Hn, (spawn_one RecvError_Closed _ t Hseed Ht), Hd. cbn [fan_out tk_endpoint te_kind].
  pose proof (recv_task_takes rc t0 chan chan_length mo t (sy_relay s) _ Hc Hmo Hq) as Hr.
  destruct (recv_task _ _ _ _ _) as [r st']. destruct Hr as [Hq' Hr]. cbn [fst snd].
  destruct (ch_queue ch) as [|[id x] q] eqn:Ec; cbn [fmap list_fmap fst tail] in Hr, Hq'.
  - assert (∃ h, recv_round clock 0 (ns_coordinator rcv) name [(Http, r)] false
              (observe_all (Dedup_new win) (ch_seen ch)) (sy_health s)
            = (inr (match r with Ok _ => true | _ => false end), observe_all (Dedup_new win) (ch_seen ch), h))
      as [h ->].
    { destruct r as [[b|]|er|]; [by destruct (Hr b) | by eexists ..]. }
    split; [done |]. split; cbn; rewrite ?Ec; done || constructor.
  - rewrite Hr. apply Forall_cons in Hcs as [Hx Hcs]. cbn [fst snd] in Hx.
    rewrite recv_round_cons, observe_new, <- observe_all_snoc.
    change (open_mail (ns_coordinator rcv) name Http id) with (content rcv name id). rewrite <- Hx.
    assert (simulates (MkSystem st' (MkMailbox name (observe_all (Dedup_new win) (ch_seen ch ++ [id]))) (sy_health s))
              (MkChannel q (ch_seen ch ++ [id]))) as [] by by split.
    cbv zeta. case_decide as Hw; [rewrite bool_decide_eq_true_2 by done | rewrite bool_decide_eq_false_2 by done].
    + by split.
    + by destruct x.
Qed.

Lemma system_simulates ops : ∀ s ch,
  Forall (system_op_ok rcv) ops → simulates s ch →
  let '(os, s') := system_run rc rcv name ops s in
  let '(xs, ch') := channel_run (rc_mailbox_capacity rc) win (channel_op_of rcv chan name <$> ops) ch in
  os = zip_with expected ops xs ∧ length xs = length ops ∧ simulates s' ch'.
Proof.
  induction ops as [|op ops IH]; intros s ch Hops Hsim; [done |]. apply Forall_cons in Hops as [Hop Hops].
  cbn [system_run channel_run fmap list_fmap].
  assert (step_simulates op) as Hstep
    by (destruct op; [apply send_simulates | apply post_simulates | apply recv_simulates]).
  specialize (Hstep s ch Hop Hsim).
  destruct (system_step _ _ _ _ _) as [o s']. destruct (channel_step _ _ _ _) as [x ch'].
  destruct Hstep as [-> Hsim']. specialize (IH s' ch' Hops Hsim').
  destruct (system_run _ _ _ _ _) as [os s'']. unfold fmap in IH. destruct (channel_run _ _ _ _) as [xs ch''].
  destruct IH as (-> & Hlen & Hfin). cbn [zip_with length]. by rewrite Hlen.
Qed.
End Run.
End SystemLemmas.

(** *** The channel delivers in order *)

Section ChannelLemmas.
Context `{PR : Primitives} {A : Type}.

Lemma channel_run_app cap win (ops ops' : list (channel_op A)) s :
  channel_run cap win (ops ++ ops') s
  = let '(xs, s) := channel_run cap win ops s in
    let '(ys, s) := channel_run cap win ops' s in (xs ++ ys, s).
Proof.
  revert s. induction ops as [|op ops IH]; intros s; cbn [app channel_run].
  - by destruct (channel_run _ _ _ _).
  - destruct (channel_step _ _ _ _) as [x s1]. rewrite IH.
    destruct (channel_run _ _ ops _) as [xs s2]. by destruct (channel_run _ _ ops' _).
Qed.

(** Pushes that fit keep everything. *)
Lemma channel_pushes cap win (items : list (bytes * option A)) q seen :
  length q + length items ≤ cap →
  channel_run cap win ((λ p, ChPush p.1 p.2) <$> items) (MkChannel q seen)
  = (replicate (length items) None, MkChannel (q ++ items) seen).
Proof.
  revert q. induction items as [|[id x] items IH]; intros q Hl; cbn [length] in Hl.
  - cbn. by rewrite app_nil_r.
  - cbn [fmap list_fmap channel_run channel_step fst snd ch_queue ch_seen].
    replace (S (length q) - cap) with 0 by lia. rewrite drop_0. unfold fmap in IH. rewrite IH.
    + cbn. by rewrite <- app_assoc.
    + rewrite length_app. cbn. lia.
Qed.

(** Pulls of items never pulled before hand all of them out. *)
Lemma channel_pulls cap win (items : list (bytes * option A)) seen :
  NoDup (digest <$> seen ++ items.*1) →
  channel_run cap win (replicate (length items) ChPull) (MkChannel items seen)
  = (items.*2, MkChannel [] (seen ++ items.*1)).
Proof.
  revert seen. induction items as [|[id x] items IH]; intros seen Hnd.
  - cbn. by rewrite app_nil_r.
  - cbn [length replicate channel_run channel_step ch_queue ch_seen fmap list_fmap fst snd].
    rewrite decide_False.
    + unfold fmap in IH. rewrite IH; rewrite <- app_assoc; done.
    + intros Hw%window_subset. rewrite fmap_app in Hnd. apply NoDup_app in Hnd as (_ & Hd & _).
      by eapply Hd, list_elem_of_here.
Qed.
End ChannelLemmas.

(** ** Claims *)

Section SystemClaims.
Context `{PR : Primitives} `{PL : !PrimitivesLaws} `{UL : UrlLib} `{HL : !HttpLib} `{AX : Axum} {B64 : Base64}.
Context `{WR : !Wire} `{WL : !WireLaws} {LC : LruCache bytes} {MP : Msgpack SignedInner}.
Context {MPL : MsgpackLaws SignedInner} {S : Type} {ST : StateStore S}.
Notation Namespace := (Namespace (T:=HttpTransport)).
Notation system_op := (system_op (S:=S)).

Lemma system_start rc name chan t0 (rcv : Namespace) m st h :
  Mailbox_new (ns_coordinator rcv) name = Ok m →
  poisoned (rs_tables st) = false → queue_of (rs_tables st) (MkRelayId (hex_id chan)) = [] →
  simulates rc name chan t0 rcv (MkSystem st m h) (MkChannel [] []) ∧ name_ok name.
Proof.
  unfold Mailbox_new. intros (? & Hn & [= <-])%rbind_Ok Hp Hq. destruct x. apply validate_name_Ok in Hn.
  split; [| done]. split; [split; [done | ..] | ..]; cbn; rewrite ?Hq; done || constructor.
Qed.

(** C3: from end to end, a mailbox over a relay is a bounded channel.  Take
    any number of namespaces opened with the same seed and the HTTP
    transport, anybody else who may post frames to any channel of the relay,
    and a receiving handle, and let them act in any order during one frame
    lifetime: every caller sees exactly what the abstract channel hands out.
    Sends succeed; the receiver gets the messages in the order in which the
    relay accepted them, with the payload and the verified signer, except
    those pushed out by more than the capacity of later frames and those it
    pulled recently; foreign frames cost a place in the queue and nothing
    else. *)
Theorem system_refines_channel (rc : RelayConfig) (sd name chan : bytes) (t0 : N) (rcv : Namespace) (m : Mailbox)
    (ops : list system_op) (st : relay_state) (h : HealthTracker) :
  opened (S:=S) rc sd rcv → Mailbox_new (ns_coordinator rcv) name = Ok m →
  channel_id sd Http ChMailbox name = Ok chan → 1 ≤ rc_mailbox_capacity rc →
  Forall (system_op_ok rc sd name t0 rcv) ops →
  poisoned (rs_tables st) = false → queue_of (rs_tables st) (MkRelayId (hex_id chan)) = [] →
  let '(outs, s) := system_run rc rcv name ops (MkSystem st m h) in
  let '(xs, ch) := channel_run (rc_mailbox_capacity rc) (co_dedup_buffer (ns_coordinator rcv))
                     (channel_op_of rcv chan name <$> ops) (MkChannel [] []) in
  outs = zip_with expected ops xs ∧ length xs = length ops
  ∧ me_body <$> queue_of (rs_tables (sy_relay s)) (MkRelayId (hex_id chan)) = (ch_queue ch).*1.
Proof.
  intros Ho Hm Hch Hcap Hops Hp Hq.
  destruct (system_start rc name chan t0 rcv m st h Hm Hp Hq) as [Hs Hn].
  pose proof (system_simulates rc sd name chan t0 Hn Hch Hcap rcv Ho ops _ _ Hops Hs) as H.
  destruct (system_run _ _ _ _ _) as [outs s]. destruct (channel_run _ _ _ _) as [xs ch].
  destruct H as (-> & Hlen & Hfin). split_and!; [done | done |]. apply Hfin.
Qed.

(** The frame and the message of a send. *)
Definition sent_item (name : bytes) (op : system_op) : option (bytes * option RecvMessage) :=
  match op with
  | SysSend n nonce payload _ _ _ =>
      match Coordinator_seal nonce (ns_coordinator n) ChMailbox name payload None with
      | Ok sealed =>
          Some (sealed, Some (MkRecvMessage payload Http (verifying_key <$> co_signing (ns_coordinator n))))
      | _ => None
      end
  | _ => None
  end.

Definition is_recv (op : system_op) : bool := match op with SysRecv _ _ => true | _ => false end.

Lemma channel_ops_of_sends rcv chan name (sends : list system_op) items :
  Forall2 (λ op i, sent_item name op = Some i) sends items →
  channel_op_of rcv chan name <$> sends = (λ p, ChPush p.1 p.2) <$> items.
Proof.
  induction 1 as [|op i sends items Hop _ IH]; [done |]. cbn [fmap list_fmap]. f_equal; [| exact IH].
  destruct op; try done. cbn [sent_item channel_op_of] in *. destruct (Coordinator_seal _ _ _ _ _ _); [| done ..].
  by injection Hop as <-.
Qed.

Lemma channel_ops_of_recvs rcv chan name (recvs : list system_op) :
  Forall (λ op, is_recv op = true) recvs → channel_op_of rcv chan name <$> recvs = replicate (length recvs) ChPull.
Proof.
  induction 1 as [|op recvs Hop _ IH]; [done |]. cbn [fmap list_fmap length replicate]. f_equal; [| exact IH].
  by destruct op.
Qed.

Lemma expected_sends name (sends : list system_op) items :
  Forall2 (λ op i, sent_item name op = Some i) sends items →
  zip_with expected sends (replicate (length items) None)
  = replicate (length sends) (OutSent (Ok (MkSendReport [Http] []))).
Proof.
  induction 1 as [|op i sends items Hop _ IH]; [done |]. cbn [length replicate zip_with]. f_equal; [| exact IH].
  by destruct op.
Qed.

Lemma expected_recvs (recvs : list system_op) (items : list (bytes * option RecvMessage)) :
  Forall (λ op, is_recv op = true) recvs → length recvs = length items →
  zip_with expected recvs items.*2 = (λ i, OutRecv (Ok <$> i.2)) <$> items.
Proof.
  intros Hr. revert items. induction Hr as [|op recvs Hop _ IH]; intros [|i items] Hl; try done.
  cbn [fmap list_fmap zip_with]. f_equal; [by destruct op | apply IH]. by injection Hl.
Qed.

(** C4: messages arrive.  When namespaces with the same seed send no more
    messages than the relay keeps, in frames with distinct digests, and the
    receiver then runs as many rounds, every send reports success and round
    [i] returns exactly message [i], with its payload and the key that signed
    it. *)
Theorem system_mailbox_in_order (rc : RelayConfig) (sd name chan : bytes) (t0 : N) (rcv : Namespace) (m : Mailbox)
    (sends recvs : list system_op) (items : list (bytes * option RecvMessage)) (st : relay_state) (h : HealthTracker) :
  opened (S:=S) rc sd rcv → Mailbox_new (ns_coordinator rcv) name = Ok m →
  channel_id sd Http ChMailbox name = Ok chan →
  Forall (system_op_ok rc sd name t0 rcv) (sends ++ recvs) →
  Forall2 (λ op i, sent_item name op = Some i) sends items → Forall (λ op, is_recv op = true) recvs →
  length recvs = length sends → 1 ≤ length sends ≤ rc_mailbox_capacity rc → NoDup (digest <$> items.*1) →
  poisoned (rs_tables st) = false → queue_of (rs_tables st) (MkRelayId (hex_id chan)) = [] →
  (system_run rc rcv name (sends ++ recvs) (MkSystem st m h)).1
  = replicate (length sends) (OutSent (Ok (MkSendReport [Http] [])))
    ++ ((λ i, OutRecv (Ok <$> i.2)) <$> items).
Proof.
  intros Ho Hm Hch Hops Hs Hr Hl Hcap Hnd Hp Hq.
  destruct (system_start rc name chan t0 rcv m st h Hm Hp Hq) as [Hsim Hn].
  pose proof (system_simulates rc sd name chan t0 Hn Hch ltac:(lia) rcv Ho _ _ _ Hops Hsim) as H.
  destruct (system_run _ _ _ _ _) as [outs s]. cbn [fst].
  pose proof (Forall2_length _ _ _ Hs) as Hli.
  rewrite fmap_app, (channel_ops_of_sends _ _ _ _ _ Hs), (channel_ops_of_recvs _ _ _ _ Hr), channel_run_app in H.
  rewrite channel_pushes in H by (cbn; lia). cbn [app] in H. rewrite Hl, Hli, channel_pulls in H by done.
  destruct H as (-> & _). rewrite zip_with_app by (rewrite length_replicate; lia).
  by rewrite (expected_sends _ _ _ Hs), expected_recvs by (done || lia).
Qed.

(** *** Slots *)

Section Slots.
Context (rc : RelayConfig) (sd name chan : bytes).
Hypothesis Hname : name_ok name.
Hypothesis Hchan : channel_id sd Http ChSlot name = Ok chan.
Notation rid := (MkRelayId (hex_id chan)).

(** A request that is not disturbed. *)
Definition slot_moment (mo : moment) : Prop :=
  0 < mo_fuel mo ∧ (∀ tb, rd_others (mo_rounds mo 0) tb = tb)
  ∧ (mo_now mo + rc_max_wait rc ≤ system_time_max)%N ∧ (mo_now mo + rc_slot_ttl rc ≤ system_time_max)%N.

Lemma slot_chan_length : length chan = 16.
Proof. destruct (channel_id_Ok sd Http ChSlot name Hname) as (i & Hi & Hl). rewrite Hchan in Hi. by injection Hi as ->. Qed.

Lemma spawn_slot {E} (e : E) (c : Coordinator (T:=HttpTransport)) t :
  seed c = sd → co_transports c = [MkTransportEndpoint Http t] →
  spawn_all e c ChSlot name = Ok [MkTask (MkTransportEndpoint Http t) chan].
Proof.
  intros Hs Ht. unfold spawn_all. rewrite Ht, Hs. cbn [map_result te_kind].
  unfold transport_channel_id. rewrite decide_False by done. by rewrite Hchan.
Qed.

(** The value of the slot a reader finds, and the tables it leaves. *)
Definition visible (mo : moment) (st : relay_state) : option SlotEntry :=
  match slots (rs_tables st) !! rid with
  | Some e => if SlotEntry_expired (rd_clock (mo_rounds mo 0) 0) e then None
              else if (0 <? se_version e)%N then Some e else None
  | None => None
  end.

Definition read_tables (mo : moment) (st : relay_state) : Tables :=
  match slots (rs_tables st) !! rid with
  | Some e => if SlotEntry_expired (rd_clock (mo_rounds mo 0) 0) e
              then set_slots (delete rid (slots (rs_tables st))) (rs_tables st) else rs_tables st
  | None => rs_tables st
  end.

Lemma get_slot_visible mo st :
  poisoned (rs_tables st) = false →
  get_slot_newer (rd_clock (mo_rounds mo 0) 0) rid 0 (rs_tables st) = (Ok (visible mo st), read_tables mo st).
Proof.
  intros Hp. unfold get_slot_newer, visible, read_tables. rewrite Hp.
  destruct (slots (rs_tables st) !! rid) as [e|]; [| done]. by destruct (SlotEntry_expired _ e).
Qed.

Lemma get_reads mo t st :
  relay_client rc t → slot_moment mo → poisoned (rs_tables st) = false →
  (∀ e, visible mo st = Some e → (se_version e ≤ u64_max)%N) →
  get_task rc mo (MkTask (MkTransportEndpoint Http t) chan) st
  = (Ok ((λ e, (se_version e, se_body e)) <$> visible mo st), MkRelayState (read_tables mo st) (rs_db st)).
Proof.
  intros Hc (Hf & Ho & Hw & _) Hp Hv. pose proof slot_chan_length as Hl.
  pose proof (serve_get rc mo t chan 0 0 (rs_tables st) (rs_db st) Hc Hl ltac:(lia) ltac:(lia) Hw) as Hg.
  cbv zeta in Hg. replace (N.min (from_secs (as_secs 0)) (rc_max_wait rc)) with 0%N in Hg
    by (change (from_secs (as_secs 0)) with 0%N; lia).
  unfold get_task, http_get, slot_get_since, net_of, relay_net, after_request, relay_after.
  cbn [tk_id tk_endpoint te_transport]. rewrite (proj2 (http_channel_id_Ok chan chan)) by done. cbn [rbind rmap].
  rewrite Hg. destruct (mo_fuel mo) as [|fuel]; [lia |]. cbn [long_poll]. rewrite Ho, (get_slot_visible mo st Hp).
  destruct (visible mo st) as [e|] eqn:E; cbn [fmap option_fmap option_map remaining N.eqb map_err rbind]; [| done].
  specialize (Hv e eq_refl). f_equal.
  unfold decode_slot_get_response, http_parse_version, read_body.
  cbn [response_of octet_response finish hp_status hp_version hp_body rs_status rs_headers rs_body N.eqb Pos.eqb].
  rewrite !lookup_insert_ne by done. rewrite lookup_insert_eq. cbn [mbind option_bind].
  by rewrite parse_u64_to_string.
Qed.

(** A put the relay accepts. *)
Lemma put_stores mo t st version sealed :
  relay_client rc t → slot_moment mo → poisoned (rs_tables st) = false → store_ok mo (rs_db st) →
  (len sealed ≤ rc_max_body_bytes rc)%N → (version ≤ u64_max)%N →
  (∀ e, slots (rs_tables st) !! rid = Some e → (se_version e < version)%N) →
  ∃ db, put_task rc mo version sealed (MkTask (MkTransportEndpoint Http t) chan) st
        = (Ok tt, MkRelayState (set_slots (<[rid := MkSlotEntry version sealed (mo_now mo + rc_slot_ttl rc)%N]>
                                  (slots (rs_tables st))) (rs_tables st)) db).
Proof.
  intros Hc (_ & _ & _ & Ht) Hp Hdb Hb Hv Hnew. pose proof slot_chan_length as Hl.
  pose proof (serve_put rc mo t chan version sealed (rs_tables st) (rs_db st) Hc Hl Hb Hv Ht) as Hs. cbv zeta in Hs.
  unfold put_task, http_put, net_of, relay_net, after_request, relay_after.
  cbn [tk_id tk_endpoint te_transport]. rewrite (proj2 (http_channel_id_Ok chan chan)) by done. cbn [rbind rmap].
  rewrite Hs. unfold put_slot. rewrite Hp. cbn [se_version].
  assert (match slots (rs_tables st) !! rid with
          | Some e => negb (SlotEntry_expired (mo_now' mo) e) && (version <=? se_version e)%N
          | None => false
          end = false) as ->.
  { destruct (slots (rs_tables st) !! rid) as [e|]; [| done]. specialize (Hnew e eq_refl).
    rewrite (proj2 (N.leb_gt _ _) Hnew). by rewrite andb_false_r. }
  destruct (rs_db st) as [db|]; [| by eexists].
  destruct Hdb as [?|Hio]; [done |]. unfold PersistentSlots_insert. rewrite Hio. cbn [sled_insert_ok sled_flush_ok].
  by eexists.
Qed.

(** A put the relay refuses. *)
Lemma put_refused mo t st version sealed e :
  relay_client rc t → slot_moment mo → poisoned (rs_tables st) = false →
  (len sealed ≤ rc_max_body_bytes rc)%N → (version ≤ u64_max)%N →
  slots (rs_tables st) !! rid = Some e → SlotEntry_expired (mo_now' mo) e = false → (version ≤ se_version e)%N →
  put_task rc mo version sealed (MkTask (MkTransportEndpoint Http t) chan) st = (Err TransportError_Stale, st).
Proof.
  intros Hc (_ & _ & _ & Ht) Hp Hb Hv He Hlive Hle. pose proof slot_chan_length as Hl.
  pose proof (serve_put rc mo t chan version sealed (rs_tables st) (rs_db st) Hc Hl Hb Hv Ht) as Hs. cbv zeta in Hs.
  unfold put_task, http_put, net_of, relay_net, after_request, relay_after.
  cbn [tk_id tk_endpoint te_transport]. rewrite (proj2 (http_channel_id_Ok chan chan)) by done. cbn [rbind rmap].
  rewrite Hs. unfold put_slot. rewrite Hp, He, Hlive. cbn [se_version negb andb].
  rewrite (proj2 (N.leb_le _ _) Hle). by destruct st.
Qed.

(** The relay holds nothing for the slot, or a value of which the namespace
    can open the frame and whose version is the one in the frame. *)
Definition honest_slot (n : Namespace) (st : relay_state) : Prop :=
  ∀ e, slots (rs_tables st) !! rid = Some e →
    (0 < se_version e ≤ u64_max)%N
    ∧ ∃ v, open_slot (ns_coordinator n) name Http (se_body e) = Some v ∧ sv_version v = se_version e.

Definition shown (n : Namespace) (e : option SlotEntry) : option SlotValue :=
  e ≫= λ e, open_slot (ns_coordinator n) name Http (se_body e).

Lemma visible_here mo st e : visible mo st = Some e → slots (rs_tables st) !! rid = Some e.
Proof.
  unfold visible. destruct (slots (rs_tables st) !! rid) as [x|]; [| done].
  destruct (SlotEntry_expired _ x); [done |]. destruct (0 <? se_version x)%N; [| done]. by intros [= ->].
Qed.

(** What a read leaves is what it showed. *)
Lemma read_tables_visible mo st (n : Namespace) e :
  honest_slot n st → slots (read_tables mo st) !! rid = Some e → visible mo st = Some e.
Proof.
  intros Hh. unfold read_tables, visible. destruct (slots (rs_tables st) !! rid) as [x|] eqn:E.
  - destruct (SlotEntry_expired _ x).
    + cbn [slots set_slots]. by rewrite lookup_delete_eq.
    + rewrite E. intros [= ->]. destruct (Hh e E) as [[Hpos _] _].
      by rewrite (proj2 (N.ltb_lt _ _) Hpos).
  - by rewrite E.
Qed.

Lemma read_tables_lock mo st : poisoned (rs_tables st) = false → poisoned (read_tables mo st) = false.
Proof. intros Hp. unfold read_tables. destruct (_ !! _) as [x|]; [| done]. by destruct (SlotEntry_expired _ x). Qed.

Lemma system_get_reads `{!SlotVersionLaws S} mo clock (n : Namespace) (w : world (S:=S)) st :
  opened (S:=S) rc sd n → slot_moment mo → poisoned (rs_tables st) = false → honest_slot n st →
  ∃ s h, system_get rc mo clock n name w st
         = (Ok (shown n (visible mo st)), MkWorld s h, MkRelayState (read_tables mo st) (rs_db st))
    ∧ ∀ e, visible mo st = Some e → (se_version e ≤ high_water name s)%N.
Proof.
  intros Ho Hmo Hp Hh. destruct (opened_node _ _ _ Ho) as [Hseed (t & Ht & Hc)].
  assert (∀ e, visible mo st = Some e → (se_version e ≤ u64_max)%N) as Hv
    by (intros e He%visible_here; by destruct (Hh e He) as [[_ ?] _]).
  unfold system_get, Slot_get, slot_get, lift, after_fan. cbn [sl_name].
  rewrite (spawn_slot SealError_MsgpackFailed _ t Hseed Ht). cbn [map_err rbind fan_out tk_endpoint te_kind].
  rewrite (get_reads mo t st Hc Hmo Hp Hv). cbn [fst snd foldl select_one].
  destruct (visible mo st) as [e|] eqn:E; cbn [fmap option_fmap option_map shown mbind option_bind].
  - destruct (Hh e (visible_here _ _ _ E)) as (_ & v & Hopen & Hver). unfold select_one. rewrite Hopen.
    cbn [sel_best sel_ok_count sel_failures Nat.eqb andb snd].
    eexists _, _. split; [reflexivity |]. intros e' [= <-]. rewrite seen_raises_high_water, Hver. lia.
  - cbn [sel_best sel_ok_count sel_failures Nat.eqb andb snd]. by eexists _, _.
Qed.

Lemma system_put_stores mo nonce clock (n : Namespace) payload (w : world (S:=S)) st version s sealed :
  opened (S:=S) rc sd n → slot_moment mo → poisoned (rs_tables st) = false → store_ok mo (rs_db st) →
  next_local_slot_version name (w_state w) = (Ok version, s) → (version ≤ u64_max)%N →
  Coordinator_seal nonce (ns_coordinator n) ChSlot name payload (Some version) = Ok sealed →
  (len sealed ≤ rc_max_body_bytes rc)%N →
  (∀ e, slots (rs_tables st) !! rid = Some e → (se_version e < version)%N) →
  ∃ h db, system_put rc mo nonce clock n name payload w st
    = (Ok (MkPutReport version [Http] []), MkWorld s h,
       MkRelayState (set_slots (<[rid := MkSlotEntry version sealed (mo_now mo + rc_slot_ttl rc)%N]>
                       (slots (rs_tables st))) (rs_tables st)) db).
Proof.
  intros Ho Hmo Hp Hdb Hv Hmax Hs Hb Hnew. destruct (opened_node _ _ _ Ho) as [Hseed (t & Ht & Hc)].
  destruct (put_stores mo t st version sealed Hc Hmo Hp Hdb Hb Hmax Hnew) as (db & Hput).
  unfold system_put, Slot_put, slot_put, lift, after_fan. cbn [sl_name]. rewrite Hv. cbn [fst w_state w_health].
  rewrite Hs, (spawn_slot SealError_MsgpackFailed _ t Hseed Ht). cbn [map_err rbind fan_out tk_endpoint te_kind].
  rewrite Hput. cbn [fst snd split_results]. by eexists _, db.
Qed.

(** A value the reader cannot open blocks it.  When the relay holds a live
    value that the namespace does not open, a read answers that there is no
    value and records no version; a put that draws a version no higher than
    the held one then fails, the relay refusing it as stale. *)
Lemma system_slot_blocked (mo mo' : moment) (nonce : bytes) (clock clock' : nat → N * N) (n : Namespace)
    (payload sealed : bytes) (w : world (S:=S)) (st : relay_state) (e : SlotEntry) (version : N) (s : S) :
  opened (S:=S) rc sd n → slot_moment mo → slot_moment mo' → poisoned (rs_tables st) = false →
  slots (rs_tables st) !! rid = Some e → (se_version e ≤ u64_max)%N →
  open_slot (ns_coordinator n) name Http (se_body e) = None →
  SlotEntry_expired (rd_clock (mo_rounds mo 0) 0) e = false → SlotEntry_expired (mo_now' mo') e = false →
  next_local_slot_version name (w_state w) = (Ok version, s) → (version ≤ se_version e)%N →
  Coordinator_seal nonce (ns_coordinator n) ChSlot name payload (Some version) = Ok sealed →
  (len sealed ≤ rc_max_body_bytes rc)%N →
  let '(g, w1, st1) := system_get rc mo clock n name w st in
  let '(p, w2, st2) := system_put rc mo' nonce clock' n name payload w1 st1 in
  g = Ok None ∧ w_state w1 = w_state w ∧ p = Err (SlotError_AllTransportsFailed [(Http, TransportError_Stale)])
  ∧ slots (rs_tables st2) !! rid = Some e.
Proof.
  intros Ho Hm1 Hm2 Hp He Hu Hopen Hlive Hlive' Hv Hle Hs Hb.
  destruct (opened_node _ _ _ Ho) as [Hseed (t & Ht & Hc)].
  assert (read_tables mo st = rs_tables st) as Hrt by (unfold read_tables; by rewrite He, Hlive).
  assert (∀ x, visible mo st = Some x → (se_version x ≤ u64_max)%N) as Hvis
    by (intros x Hx%visible_here; rewrite He in Hx; by injection Hx as <-).
  unfold system_get, Slot_get, slot_get, lift, after_fan. cbn [sl_name].
  rewrite (spawn_slot SealError_MsgpackFailed _ t Hseed Ht). cbn [map_err rbind fan_out tk_endpoint te_kind].
  rewrite (get_reads mo t st Hc Hm1 Hp Hvis), Hrt. cbn [fst snd foldl].
  assert (select_one (ns_coordinator n) name (MkSelection 0 [] None)
    (Http, Ok ((λ x, (se_version x, se_body x)) <$> visible mo st)) = MkSelection 1 [] None) as Hsel.
  { unfold visible. rewrite He, Hlive. destruct (0 <? se_version e)%N; cbn [fmap option_fmap option_map]; [| done].
    unfold select_one. by rewrite Hopen. }
  rewrite Hsel. cbn [sel_best sel_ok_count sel_failures Nat.eqb andb].
  unfold system_put, Slot_put, slot_put, lift, after_fan. cbn [sl_name w_state w_health]. rewrite Hv. cbn [fst].
  rewrite Hs, (spawn_slot SealError_MsgpackFailed _ t Hseed Ht). cbn [map_err rbind fan_out tk_endpoint te_kind].
  rewrite (put_refused mo' t (MkRelayState (rs_tables st) (rs_db st)) version sealed e) by (done || lia).
  cbn [fst snd split_results]. by split_and!.
Qed.

(** C5: from end to end, a slot over a relay supports read, modify and write.
    A namespace reads a slot and then puts a value.  Provided the relay held
    nothing for the slot, or a value that the namespace opens and that is
    stored under the version inside its frame ([honest_slot]), the put
    succeeds with a version above what was read, and until the value expires
    a namespace with the same seed that accepts the writer's signature
    ([signer_accepted]) reads exactly that version, payload and signer, and
    finds the slot honest in turn, so that it can write next.  The two
    namespaces use this relay as their only transport; the relay's lock is
    not poisoned, its store accepts the write, no other request runs during
    the three, and the frame fits the size limits.  Without [honest_slot] the
    put can fail: see [system_slot_blocked]. *)
Theorem system_slot_read_modify_write `{!SlotVersionLaws S} (mo mo' mo'' : moment) (nonce : bytes)
    (clock clock' clock'' : nat → N * N) (n n' : Namespace) (payload sealed : bytes) (w w' : world (S:=S))
    (st : relay_state) (version : N) (s : S) :
  opened (S:=S) rc sd n → opened (S:=S) rc sd n' → slot_moment mo → slot_moment mo' → slot_moment mo'' →
  poisoned (rs_tables st) = false → store_ok mo' (rs_db st) → honest_slot n st →
  signer_accepted (ns_coordinator n) (ns_coordinator n') →
  fits_at (ns_coordinator n) (ns_coordinator n') ChSlot name payload (Some version) → length nonce = NONCE_LEN →
  let '(g, w1, st1) := system_get rc mo clock n name w st in
  next_local_slot_version name (w_state w1) = (Ok version, s) →
  Coordinator_seal nonce (ns_coordinator n) ChSlot name payload (Some version) = Ok sealed →
  (len sealed ≤ rc_max_body_bytes rc)%N → (rd_clock (mo_rounds mo'' 0) 0 < mo_now mo' + rc_slot_ttl rc)%N →
  let '(p, w2, st2) := system_put rc mo' nonce clock' n name payload w1 st1 in
  let '(g', w3, st3) := system_get rc mo'' clock'' n' name w' st2 in
  (∃ v, g = Ok v ∧ ∀ x, v = Some x → (sv_version x < version)%N)
  ∧ p = Ok (MkPutReport version [Http] [])
  ∧ g' = Ok (Some (MkSlotValue version payload Http (verifying_key <$> co_signing (ns_coordinator n))))
  ∧ (version ≤ high_water name (w_state w3))%N ∧ honest_slot n' st3.
Proof.
  intros Ho Ho' Hm1 Hm2 Hm3 Hp Hdb Hh Hacc Hfit Hnonce.
  destruct (system_get_reads mo clock n w st Ho Hm1 Hp Hh) as (s1 & h1 & -> & Hseen). cbn [w_state].
  intros Hv Hs Hb Hlive. apply next_exceeds_high_water in Hv as Hv'. destruct Hv' as [Hlt _].
  assert (∀ e, slots (read_tables mo st) !! rid = Some e → (se_version e < version)%N) as Hnew.
  { intros e He%(read_tables_visible mo st n e Hh). specialize (Hseen e He). lia. }
  destruct (system_put_stores mo' nonce clock' n payload (MkWorld s1 h1) (MkRelayState (read_tables mo st) (rs_db st))
    version s sealed Ho Hm2 (read_tables_lock mo st Hp) Hdb Hv ltac:(lia) Hs Hb Hnew) as (h2 & db2 & ->).
  set (st2 := MkRelayState _ db2).
  assert (slots (rs_tables st2) !! rid = Some (MkSlotEntry version sealed (mo_now mo' + rc_slot_ttl rc)%N)) as Hslot
    by (cbn; apply lookup_insert_eq).
  destruct (opened_node _ _ _ Ho) as [Hseed _]. destruct (opened_node _ _ _ Ho') as [Hseed' _].
  assert (open_slot (ns_coordinator n') name Http sealed
          = Some (MkSlotValue version payload Http (verifying_key <$> co_signing (ns_coordinator n)))) as Hopen.
  { unfold open_slot.
    by rewrite (Coordinator_open_seal_at _ _ _ _ _ _ _ _ Hnonce (eq_trans Hseed' (eq_sym Hseed)) Hacc Hfit Hs). }
  assert (honest_slot n' st2) as Hh2.
  { intros e He. rewrite Hslot in He. injection He as <-. cbn. split; [lia |]. by eexists. }
  destruct (system_get_reads mo'' clock'' n' w' st2 Ho' Hm3 (read_tables_lock mo st Hp) Hh2) as (s3 & h3 & -> & Hs3).
  assert (visible mo'' st2 = Some (MkSlotEntry version sealed (mo_now mo' + rc_slot_ttl rc)%N)) as Hvis.
  { unfold visible. rewrite Hslot. unfold SlotEntry_expired. cbn [se_expires_at se_version].
    rewrite (proj2 (N.leb_gt _ _) Hlive). by rewrite (proj2 (N.ltb_lt 0 version)) by lia. }
  split_and!.
  - eexists. split; [reflexivity |]. intros x Hx. destruct (visible mo st) as [e|] eqn:E; [| done].
    cbn in Hx. destruct (Hh e (visible_here _ _ _ E)) as (_ & v & Hov & Hver). rewrite Hov in Hx. injection Hx as <-.
    rewrite Hver. specialize (Hseen e eq_refl). lia.
  - done.
  - rewrite Hvis. cbn. by rewrite Hopen.
  - exact (Hs3 _ Hvis).
  - intros e He%(read_tables_visible mo'' st2 n' e Hh2). by apply Hh2, visible_here with mo''.
Qed.
End Slots.
End SystemClaims.

(** ** Witnesses *)

Module SystemWitness.
Import Toy ListLru CoordinatorWitness RelayWitness HttpRelayWitness.
#[local] Existing Instance ToyUrl.toy_url.
#[local] Existing Instance inner_msgpack.
#[local] Existing Instance inner_msgpack_laws.
#[local] Existing Instance toy_base64.
#[local] Existing Instance toy_http.
#[local] Existing Instance toy_wire.
#[local] Existing Instance toy_wire_laws.

Definition http_config : HttpConfig := MkHttpConfig toy_base false (Some toy_auth) 25.

Definition config : Config InMemoryInner HttpTransport :=
  MkConfig InMemoryInner HttpTransport (Some http_config) None None (Some sk5) [vk5] 4 4096 Inner_default [].

Definition ns : Namespace (T:=HttpTransport) :=
  MkNamespace (Coordinator_new toy_seed [MkTransportEndpoint Http client] config) (Some client) None None.

(** A relay that keeps two frames per mailbox. *)
Definition server : RelayConfig :=
  MkRelayConfig DEFAULT_LISTEN (Some (basic_auth_text toy_auth)) None None None 4096 (from_secs 30) 2 1000 1000.

Definition start : relay_state := MkRelayState empty_tables None.
Definition start_world : world (S:=InMemoryInner) := MkWorld Inner_default (from_config config).
Definition inbox : Mailbox := MkMailbox (lit "a/b") (Dedup_new 4).
Definition chan_id (kind : ChannelKind) : bytes := get_ok [] (channel_id toy_seed Http kind (lit "a/b")).

Definition nonce1 : bytes := replicate NONCE_LEN x01.
Definition nonce2 : bytes := replicate NONCE_LEN x02.

Definition send1 : system_op (S:=InMemoryInner) :=
  SysSend ns nonce1 (lit "one") start_world toy_clock (at_moment 10).
Definition send2 : system_op (S:=InMemoryInner) :=
  SysSend ns nonce2 (lit "two") start_world toy_clock (at_moment 11).
Definition post : system_op (S:=InMemoryInner) := SysPost client (chan_id ChMailbox) (lit "noise") (at_moment 12).
Definition recv (now : N) : system_op (S:=InMemoryInner) := SysRecv toy_clock (at_moment now).

Lemma ns_opened : opened (S:=InMemoryInner) server toy_seed ns.
Proof.
  exists (Ok tt), config, http_config, start_world, Inner_default.
  split; [vm_refl |]. split; [by repeat split |]. split; [reflexivity | right; reflexivity].
Qed.

Lemma at_moment_ok now : (now < 1000)%N → moment_ok server 0 (at_moment now).
Proof.
  intros Hn. split_and!; cbn [mo_fuel at_moment mo_rounds mo_now rd_others rd_clock]; try done; try lia.
  - transitivity (1000 + rc_max_wait server)%N; [lia |]. intros H. vm_compute in H. discriminate H.
  - transitivity (1000 + rc_mailbox_ttl server)%N; [lia |]. intros H. vm_compute in H. discriminate H.
Qed.

Lemma send_ok nonce payload now :
  (now < 1000)%N → length nonce = NONCE_LEN →
  match Coordinator_seal nonce (ns_coordinator ns) ChMailbox (lit "a/b") payload None with
  | Ok sealed => (len sealed <=? 4096)%N
  | _ => false
  end = true →
  match to_vec_named (inner_of (ns_coordinator ns) ChMailbox (lit "a/b") payload None) with
  | inl pt => (len pt <=? 4096)%N
  | _ => true
  end = true →
  system_op_ok server toy_seed (lit "a/b") 0 ns (SysSend ns nonce payload start_world toy_clock (at_moment now)).
Proof.
  intros Hn Hl Hs Hf. split; [exact ns_opened |]. split; [right; apply list_elem_of_here |].
  split. { intros pt Hpt. rewrite Hpt in Hf. by apply N.leb_le. }
  split; [done |]. split; [by apply at_moment_ok |].
  destruct (Coordinator_seal _ _ _ _ _ _) as [sealed|?|]; [| done ..]. exists sealed. split; [done |]. by apply N.leb_le.
Qed.

Lemma send1_ok : system_op_ok server toy_seed (lit "a/b") 0 ns send1.
Proof. apply send_ok; [lia | reflexivity | vm_refl | vm_refl]. Qed.

Lemma send2_ok : system_op_ok server toy_seed (lit "a/b") 0 ns send2.
Proof. apply send_ok; [lia | reflexivity | vm_refl | vm_refl]. Qed.

Lemma recv_ok now : (now < 1000)%N → system_op_ok server toy_seed (lit "a/b") 0 ns (recv now).
Proof. apply at_moment_ok. Qed.

Lemma chan_id_Ok kind : channel_id toy_seed Http kind (lit "a/b") = Ok (chan_id kind).
Proof. destruct kind; vm_refl. Qed.

Lemma post_ok : system_op_ok server toy_seed (lit "a/b") 0 ns post.
Proof.
  split; [split; [reflexivity | right; reflexivity] |]. split; [vm_refl |].
  split; [intros H; vm_compute in H; discriminate H | by apply at_moment_ok].
Qed.

(** Three frames through a relay that keeps two: the first is pushed out, the
    foreign one is skipped. *)
Lemma system_refines_channel_witness :
  (system_run server ns (lit "a/b") [send1; send2; post; recv 20; recv 21] (MkSystem start inbox (MkHealthTracker []))).1
  = [OutSent (Ok (MkSendReport [Http] [])); OutSent (Ok (MkSendReport [Http] [])); OutPosted (Ok tt);
     OutRecv (Some (Ok (MkRecvMessage (lit "two") Http (Some vk5)))); OutRecv None].
Proof.
  pose proof (system_refines_channel server toy_seed (lit "a/b") (chan_id ChMailbox) 0 ns inbox
    [send1; send2; post; recv 20; recv 21] start (MkHealthTracker []) ns_opened ltac:(vm_refl) (chan_id_Ok ChMailbox)
    ltac:(cbn; lia)
    (Forall_cons_2 _ _ _ send1_ok (Forall_cons_2 _ _ _ send2_ok (Forall_cons_2 _ _ _ post_ok
      (Forall_cons_2 _ _ _ (recv_ok 20 ltac:(lia)) (Forall_cons_2 _ _ _ (recv_ok 21 ltac:(lia)) (Forall_nil_2 _))))))
    eq_refl eq_refl) as H. revert H.
  destruct (system_run _ _ _ _ _) as [outs s]. destruct (channel_run _ _ _ _) as [xs ch] eqn:E.
  assert (xs = [None; None; None; Some (MkRecvMessage (lit "two") Http (Some vk5)); None]) as ->.
  { change xs with (xs, ch).1. rewrite <- E. vm_refl. }
  intros H. exact (proj1 H).
Defined.

Definition item (nonce payload : bytes) : bytes * option RecvMessage :=
  (get_ok [] (Coordinator_seal nonce (ns_coordinator ns) ChMailbox (lit "a/b") payload None),
   Some (MkRecvMessage payload Http (Some vk5))).
Definition item1 : bytes * option RecvMessage := item nonce1 (lit "one").
Definition item2 : bytes * option RecvMessage := item nonce2 (lit "two").

Lemma item1_ok : sent_item (lit "a/b") send1 = Some item1.
Proof. vm_refl. Qed.

Lemma item2_ok : sent_item (lit "a/b") send2 = Some item2.
Proof. vm_refl. Qed.

Lemma items_ok : Forall2 (λ op i, sent_item (lit "a/b") op = Some i) [send1; send2] [item1; item2].
Proof. constructor; [exact item1_ok | constructor; [exact item2_ok | constructor]]. Qed.

Lemma recvs_ok : Forall (λ op, is_recv op = true) [recv 20; recv 21].
Proof. by repeat constructor. Qed.

Lemma items_distinct : NoDup (Dedup.digest <$> [item1; item2].*1).
Proof. apply (bool_decide_eq_true_1 _). vm_refl. Qed.

Lemma system_mailbox_in_order_witness :
  (system_run server ns (lit "a/b") ([send1; send2] ++ [recv 20; recv 21]) (MkSystem start inbox (MkHealthTracker []))).1
  = [OutSent (Ok (MkSendReport [Http] [])); OutSent (Ok (MkSendReport [Http] []));
     OutRecv (Some (Ok (MkRecvMessage (lit "one") Http (Some vk5))));
     OutRecv (Some (Ok (MkRecvMessage (lit "two") Http (Some vk5))))].
Proof.
  rewrite (system_mailbox_in_order server toy_seed (lit "a/b") (chan_id ChMailbox) 0 ns inbox [send1; send2]
    [recv 20; recv 21] [item1; item2] start (MkHealthTracker []) ns_opened ltac:(vm_refl) (chan_id_Ok ChMailbox)
    (Forall_cons_2 _ _ _ send1_ok (Forall_cons_2 _ _ _ send2_ok
      (Forall_cons_2 _ _ _ (recv_ok 20 ltac:(lia)) (Forall_cons_2 _ _ _ (recv_ok 21 ltac:(lia)) (Forall_nil_2 _)))))
    items_ok
    recvs_ok
    eq_refl ltac:(cbn; lia) items_distinct eq_refl eq_refl).
  reflexivity.
Defined.

(** A first writer, and a reader with a store of its own. *)
Definition after1 : InMemoryInner := (next_local_slot_version (lit "a/b") Inner_default).2.
Definition value1 : bytes :=
  get_ok [] (Coordinator_seal nonce1 (ns_coordinator ns) ChSlot (lit "a/b") (lit "v") (Some 1%N)).

Lemma at_slot_moment now : (now < 1000)%N → slot_moment server (at_moment now).
Proof.
  intros Hn. destruct (at_moment_ok now Hn) as (Hf & Ho & _ & _ & Hw & Ht). by split_and!.
Qed.

Lemma start_honest : honest_slot (lit "a/b") (chan_id ChSlot) ns start.
Proof. intros e He. cbn in He. by rewrite lookup_empty in He. Qed.

Lemma value1_fits : fits_at (ns_coordinator ns) (ns_coordinator ns) ChSlot (lit "a/b") (lit "v") (Some 1%N).
Proof. intros pt Hpt. vm_compute in Hpt. injection Hpt as <-. intros H. vm_compute in H. discriminate H. Qed.

Lemma name_ok_ab : name_ok (lit "a/b").
Proof. apply validate_name_Ok. vm_refl. Qed.

Lemma system_slot_read_modify_write_witness :
  let st1 := (system_get server (at_moment 10) toy_clock ns (lit "a/b") start_world start).2 in
  let w1 := (system_get server (at_moment 10) toy_clock ns (lit "a/b") start_world start).1.2 in
  let st2 := (system_put server (at_moment 11) nonce1 toy_clock ns (lit "a/b") (lit "v") w1 st1).2 in
  (system_get server (at_moment 12) toy_clock ns (lit "a/b") start_world st2).1.1
  = Ok (Some (MkSlotValue 1 (lit "v") Http (Some vk5))).
Proof.
  pose proof (system_slot_read_modify_write server toy_seed (lit "a/b") (chan_id ChSlot) name_ok_ab (chan_id_Ok ChSlot)
    (at_moment 10) (at_moment 11) (at_moment 12) nonce1 toy_clock toy_clock toy_clock ns ns (lit "v") value1
    start_world start_world start 1 after1 ns_opened ns_opened (at_slot_moment 10 ltac:(lia))
    (at_slot_moment 11 ltac:(lia)) (at_slot_moment 12 ltac:(lia)) eq_refl (or_introl eq_refl) start_honest
    (or_intror (list_elem_of_here _ _)) value1_fits eq_refl) as H.
  cbv zeta. revert H.
  destruct (system_get server (at_moment 10) toy_clock ns (lit "a/b") start_world start) as [[g w1] st1] eqn:E1.
  cbn [fst snd]. intros H.
  assert (next_local_slot_version (lit "a/b") (w_state w1) = (Ok 1%N, after1)) as Hv.
  { change w1 with (g, w1, st1).1.2. rewrite <- E1. vm_refl. }
  specialize (H Hv ltac:(vm_refl) ltac:(intros Hx; vm_compute in Hx; discriminate Hx) ltac:(cbn; lia)). revert H. clear E1 Hv.
  destruct (system_put _ _ _ _ _ _ _ _ _) as [[p w2] st2]. cbn [fst snd].
  destruct (system_get _ _ _ _ _ _ _) as [[g' w3] st3]. intros H.
  exact (proj1 (proj2 (proj2 H))).
Defined.
End SystemWitness.
