(* ===== verification/PeerSystem.v ===== *)
(** * The whole path: peers, the HTTP transport and a relay

    What [System] does for namespaces with a shared seed, for public-key
    namespaces: a peer mailbox seals one envelope for its recipients or for a
    group, the HTTP transport posts it once per address, the relay keeps it,
    and the receiver polls its own address and those of its groups, drops
    what it has seen and opens the rest under the trust and key tables it has
    at that moment.  Trust and keys change between the operations. *)

From S2P Require Import Prelude Bytes Crypto Kdf Net Guard Errors Dedup Config Health PeerCard Msgpack State PeerEnvelope GroupEnvelope Coordinator Iroh Namespace PeerNamespace PeerChannels Relay Http HttpRelay RelayQueue System.

Section PeerSystem.
Context `{PR : Primitives} `{UL : UrlLib} `{IL : IrohLib} `{HL : !HttpLib} `{AX : Axum} {B64 : Base64} `{WR : !Wire}.
Context {LC : LruCache bytes} {MPE : Msgpack PeerEnvelopeWire} {MPG : Msgpack GroupEnvelopeWire}.
Context {S : Type} {ST : StateStore S}.
Notation PeerNamespace := (PeerNamespace (S:=S) (T:=HttpTransport)).
Notation peer_task := (peer_task (T:=HttpTransport)).

(** The relay, the receiving namespace and the duplicate buffer of its
    mailbox handle. *)
Record peer_system : Type := MkPeerSystem {
  ps_relay : relay_state;
  ps_receiver : PeerNamespace;
  ps_dedup : Dedup
}.

(** To whom a message goes: [send_to_peers] or [send_to_group]. *)
Inductive destination : Type :=
| ToPeers (cards : list PeerCard)
| ToGroup (group : GroupId) (key_ids : list GroupKeyId).

Definition peer_send (nonces : nat → bytes)
    (run : list peer_task → bytes → list (TransportKind * result unit TransportError))
    (name : bytes) (dest : destination) (payload : bytes) (n : PeerNamespace)
    : result PeerSendReport PeerSendError :=
  match dest with
  | ToPeers cards => send_to_peers nonces run name cards payload n
  | ToGroup group key_ids => send_to_group nonces run name group key_ids payload n
  end.

(** The envelope a send posts, and the addresses it posts it to. *)
Definition message_bytes (nonces : nat → bytes) (name : bytes) (dest : destination) (payload : bytes)
    (n : PeerNamespace) : result bytes PeerSendError :=
  match dest with
  | ToPeers cards =>
      let! e := map_err PeerSendError_PeerEnvelope
                  (PeerEnvelope_seal nonces (pn_identity n) ChMailbox name payload cards) in
      map_err PeerSendError_PeerEnvelope (PeerEnvelope_to_bytes e)
  | ToGroup group key_ids =>
      let! e := map_err PeerSendError_GroupEnvelope
                  (seal_group_envelope nonces ChMailbox name payload (map (pair group) key_ids) n) in
      map_err PeerSendError_GroupEnvelope (GroupEnvelope_to_bytes e)
  end.

Definition message_addrs (dest : destination) : list PeerAddress :=
  match dest with
  | ToPeers cards => map (λ c, PeerAddress_Pairwise (peer_id c)) cards
  | ToGroup group _ => [PeerAddress_Group group]
  end.

(** A peer sends; anybody posts a frame to a channel id; the receiver changes
    its trust or its keys; the receiver runs one round of its [recv] loop. *)
Inductive peer_system_op : Type :=
| PsSend (n : PeerNamespace) (nonces : nat → bytes) (dest : destination) (payload : bytes) (mo : moment)
| PsPost (t : HttpTransport) (id frame : bytes) (mo : moment)
| PsChange (op : peer_op)
| PsRecv (mo : moment).

Inductive peer_system_out : Type :=
| PsSent (r : result PeerSendReport PeerSendError)
| PsPosted (r : result unit TransportError)
| PsChanged
| PsReceived (r : option (result PeerMailboxMessage RecvError)).

(** The request of a task, without the address it was spawned for. *)
Definition plain (t : peer_task) : task (T:=HttpTransport) := MkTask (pt_endpoint t) (pt_id t).

(** The requests of a fan-out one after the other, and the relay after it. *)
Definition peer_fan {A} (one : task → relay_state → A * relay_state) (tasks : list peer_task) (st : relay_state)
    : list (TransportKind * A) * relay_state :=
  fan_out one (map plain tasks) st.

Definition peer_answers {A} (tasks : list peer_task) (answers : list (TransportKind * A))
    : list (TransportKind * PeerAddress * A) :=
  zip_with (λ t r, (r.1, pt_address t, r.2)) tasks answers.

(** The relay serves every request of a round before the receiver looks at
    the first answer. *)
Definition peer_system_step (rc : RelayConfig) (name : bytes) (op : peer_system_op) (s : peer_system)
    : peer_system_out * peer_system :=
  let relay := ps_relay s in
  let rcv := ps_receiver s in
  match op with
  | PsSend n nonces dest payload mo =>
      let r := peer_send nonces (λ tasks b, (peer_fan (send_task rc mo b) tasks relay).1) name dest payload n in
      let relay :=
        match message_bytes nonces name dest payload n with
        | Ok b => after_fan (E:=PeerSendError) (send_task rc mo b)
                    (rmap (map plain) (peer_tasks (message_addrs dest) ChMailbox name n)) relay
        | _ => relay
        end in
      (PsSent r, MkPeerSystem relay rcv (ps_dedup s))
  | PsPost t id frame mo =>
      (PsPosted (http_send (net_of rc mo relay) t id frame),
       MkPeerSystem (after_request rc mo (rmap (λ id, send_request t id frame) (http_channel_id id)) relay)
         rcv (ps_dedup s))
  | PsChange op => (PsChanged, MkPeerSystem relay (peer_apply rcv op) (ps_dedup s))
  | PsRecv mo =>
      let run (_ : nat) tasks := peer_answers tasks (peer_fan (recv_task rc mo recv_wait) tasks relay).1 in
      let '(r, d) := peer_recv 1 (λ _, rcv) (λ _ _, rcv) run name (ps_dedup s) in
      (PsReceived r,
       MkPeerSystem (after_fan (E:=RecvError) (recv_task rc mo recv_wait)
                       (rmap (map plain) (peer_tasks (recv_addresses rcv) ChMailbox name rcv)) relay) rcv d)
  end.

Fixpoint peer_system_run (rc : RelayConfig) (name : bytes) (ops : list peer_system_op) (s : peer_system)
    : list peer_system_out * peer_system :=
  match ops with
  | [] => ([], s)
  | op :: ops =>
      let '(o, s) := peer_system_step rc name op s in
      let '(os, s) := peer_system_run rc name ops s in (o :: os, s)
  end.

(** ** The abstract system

    A channel of frames beside the receiver's tables: what a pull hands out
    is opened under the tables of that moment. *)

Definition mine (n : PeerNamespace) : PeerAddress := PeerAddress_Pairwise (PeerIdentity_peer_id (pn_identity n)).

(** The receiver's mailbox at the relay. *)
Definition inbox_id (n : PeerNamespace) (name : bytes) : bytes := address_id Http (mine n) ChMailbox name.

(** The frame goes to the receiver's mailbox once per address that leads
    there. *)
Definition frame_ops (chan name b : bytes) (addrs : list PeerAddress) : list (channel_op bytes) :=
  (λ a, if decide (address_id Http a ChMailbox name = chan) then ChPush b (Some b) else ChIdle) <$> addrs.

Definition peer_spec_step (cap : nat) (chan name : bytes) (op : peer_system_op)
    (s : channel bytes * PeerNamespace) : peer_system_out * (channel bytes * PeerNamespace) :=
  let '(ch, rcv) := s in
  match op with
  | PsSend n nonces dest payload _ =>
      match message_bytes nonces name dest payload n with
      | Ok b =>
          (PsSent (Ok (MkPeerSendReport (map (λ _, Http) (message_addrs dest)) [])),
           ((channel_run cap DEFAULT_CAPACITY (frame_ops chan name b (message_addrs dest)) ch).2, rcv))
      | Err e => (PsSent (Err e), s)
      | Panic => (PsSent Panic, s)
      end
  | PsPost _ id frame _ =>
      (PsPosted (Ok tt),
       ((channel_step cap DEFAULT_CAPACITY (if decide (id = chan) then ChPush frame (Some frame) else ChIdle) ch).2, rcv))
  | PsChange op => (PsChanged, (ch, peer_apply rcv op))
  | PsRecv _ =>
      let '(x, ch) := channel_step cap DEFAULT_CAPACITY ChPull ch in
      (PsReceived (Ok <$> (x ≫= λ b, open_message name Http (mine rcv) b rcv)), (ch, rcv))
  end.

Fixpoint peer_spec_run (cap : nat) (chan name : bytes) (ops : list peer_system_op)
    (s : channel bytes * PeerNamespace) : list peer_system_out * (channel bytes * PeerNamespace) :=
  match ops with
  | [] => ([], s)
  | op :: ops =>
      let '(o, s) := peer_spec_step cap chan name op s in
      let '(os, s) := peer_spec_run cap chan name ops s in (o :: os, s)
  end.

(** ** Opening *)

(** A peer namespace opened with the HTTP transport only, against this
    relay, after any changes of its trust and its keys. *)
Definition peer_opened (rc : RelayConfig) (n : PeerNamespace) : Prop :=
  ∃ b client c h st, PeerNamespace_open b (pn_identity n) c = (Ok n, st)
    ∧ pb_http b = HttpTransport_new client
    ∧ pc_http c = Some h ∧ pc_pkarr c = None ∧ pc_iroh c = None ∧ pc_transports c = []
    ∧ trim_end_slashes (url_path (url h)) = []
    ∧ (rc_auth rc = None ∨ rc_auth rc = basic_auth_text <$> auth h).

Definition peer_reached (rc : RelayConfig) (n : PeerNamespace) : Prop :=
  ∃ n0 ops, peer_opened rc n0 ∧ n = foldl peer_apply n0 ops.
End PeerSystem.

(** ** Lemmas: the parties *)

Section PeerParties.
Context `{PR : Primitives} `{PL : !PrimitivesLaws} `{UL : UrlLib} `{IL : IrohLib} `{HL : !HttpLib} `{AX : Axum}.
Context {B64 : Base64} `{WR : !Wire} {LC : LruCache bytes}.
Context {MPE : Msgpack PeerEnvelopeWire} {MPG : Msgpack GroupEnvelopeWire} {S : Type} {ST : StateStore S}.
Notation PeerNamespace := (PeerNamespace (S:=S) (T:=HttpTransport)).

(** One transport, a client of the relay; and every entry of the trust table
    is a valid card under its own id. *)
Definition peer_node (rc : RelayConfig) (n : PeerNamespace) : Prop :=
  ∃ t, pn_transports n = [MkTransportEndpoint Http t] ∧ relay_client rc t.

Definition table_keyed (n : PeerNamespace) : Prop :=
  map_Forall (λ p t, TrustedPeer_peer_id t = p ∧ PeerCard_validate (card t) = Ok tt) (pn_trusted_peers n).

Lemma peer_apply_keeps (n : PeerNamespace) op :
  pn_identity (peer_apply n op) = pn_identity n ∧ pn_transports (peer_apply n op) = pn_transports n.
Proof.
  destruct op; cbn [peer_apply]; unfold trust_peer, remove_trusted_peer_live, add_group_key, remove_group_key_live;
    [destruct (PeerCard_validate _); [destruct (store_trusted_peer _ _) as [[]] | ..]
    | destruct (remove_trusted_peer _ _) as [[]] | destruct (store_group_key _ _ _) as [[]]
    | destruct (remove_group_key _ _ _) as [[]]]; done.
Qed.

Lemma peer_apply_keyed (n : PeerNamespace) op : table_keyed n → table_keyed (peer_apply n op).
Proof.
  unfold table_keyed. intros Hn.
  destruct op as [t|p|g k|g k]; cbn [peer_apply]; unfold trust_peer, remove_trusted_peer_live, add_group_key, remove_group_key_live.
  - destruct (PeerCard_validate (card t)) as [[]|?|] eqn:E; [| done ..].
    destruct (store_trusted_peer _ _) as [[]]; [| done ..]. by apply map_Forall_insert_2.
  - destruct (remove_trusted_peer _ _) as [[]]; [| done ..]. by apply map_Forall_delete.
  - by destruct (store_group_key _ _ _) as [[]].
  - by destruct (remove_group_key _ _ _) as [[]].
Qed.

(** What holds of a namespace and is kept by every change holds ever after. *)
Lemma peer_reached_inv (P : PeerNamespace → Prop) rc n :
  (∀ n, peer_opened rc n → P n) → (∀ n op, P n → P (peer_apply n op)) → peer_reached rc n → P n.
Proof.
  intros Ho Ha (n0 & ops & H0 & ->). apply Ho in H0. revert n0 H0.
  induction ops as [|op ops IH]; intros n0 H0; [done |]. cbn [foldl]. by apply IH, Ha.
Qed.

Lemma insert_keys_keeps l (n n' : PeerNamespace) r :
  insert_keys l n = (r, n') → pn_transports n' = pn_transports n ∧ pn_trusted_peers n' = pn_trusted_peers n.
Proof.
  revert n. induction l as [|[g k] l IH]; intros n; cbn [insert_keys]; [by intros [= _ <-] |].
  unfold add_group_key. destruct (store_group_key _ _ _) as [[?|e|] st]; [| by intros [= _ <-] ..].
  intros H%IH. done.
Qed.

Lemma insert_trusted_table l : ∀ m m',
  insert_trusted l m = Ok m' → map_Forall (λ p t, TrustedPeer_peer_id t = p ∧ PeerCard_validate (card t) = Ok tt) m →
  map_Forall (λ p t, TrustedPeer_peer_id t = p ∧ PeerCard_validate (card t) = Ok tt) m'.
Proof.
  induction l as [|t l IH]; intros m m'; cbn [insert_trusted]; [by intros [= <-] |].
  intros ([] & Hv%map_err_Ok & H)%rbind_Ok Hm. eapply IH; [done |]. by apply map_Forall_insert_2.
Qed.

Lemma peer_opened_tables rc (n : PeerNamespace) : peer_opened rc n → peer_node rc n ∧ table_keyed n.
Proof.
  intros (b & client & c & h & st & Ho & Hb & Hh & Hp & Hi & Ht & Hpath & Hauth). revert Ho.
  unfold PeerNamespace_open. rewrite Hh, Hp. cbn [open_builtin]. rewrite Hb.
  destruct (let! http := _ in _) as [[http pkarr]|?|] eqn:Eh; [| done ..].
  apply rbind_Ok in Eh as (http' & Eh & Eq). cbn [open_builtin rbind] in Eq. injection Eq as -> <-.
  unfold open_peer_iroh_transport. rewrite Hi. cbn [rbind].
  destruct (insert_trusted _ _) as [m|?|] eqn:Em; cbn [rbind]; [| done ..].
  destruct (insert_keys _ _) as [r n'] eqn:Ek. intros [= Hr _]. apply rbind_Ok in Hr as (u & -> & [= ->]).
  apply insert_keys_keeps in Ek as [Ht' Hm']. split.
  - unfold open_builtin in Eh. apply rbind_Ok in Eh as (t & Et%map_err_Ok & [= <-]).
    unfold HttpTransport_new in Et. apply rbind_Ok in Et as (_ & _ & [= <-]).
    eexists. rewrite Ht', Ht. cbn [pn_transports fmap option_fmap option_map endpoint_of app map].
    split; [reflexivity | by split].
  - unfold table_keyed. rewrite Hm'. cbn. eapply insert_trusted_table; [done |]. apply map_Forall_empty.
Qed.

Lemma peer_reached_node rc (n : PeerNamespace) : peer_reached rc n → peer_node rc n.
Proof.
  apply peer_reached_inv; [by intros ? []%peer_opened_tables |].
  intros n' op Hn. unfold peer_node. by rewrite (proj2 (peer_apply_keeps n' op)).
Qed.

Lemma peer_reached_keyed rc (n : PeerNamespace) : peer_reached rc n → table_keyed n.
Proof. apply peer_reached_inv; [by intros ? []%peer_opened_tables | apply peer_apply_keyed]. Qed.

(** ** Lemmas: who is trusted *)

Lemma elem_of_snapshot (n : PeerNamespace) t : t ∈ trusted_snapshot n ↔ ∃ p, pn_trusted_peers n !! p = Some t.
Proof.
  unfold trusted_snapshot. rewrite list_elem_of_fmap. split.
  - intros ([p t'] & -> & H%elem_of_map_to_list). by exists p.
  - intros (p & H%elem_of_map_to_list). by exists (p, t).
Qed.

(** A message is from a peer of the trust table. *)
Lemma open_message_trusted name via a b (n : PeerNamespace) m :
  table_keyed n → open_message name via a b n = Some m → is_Some (pn_trusted_peers n !! pmm_sender m).
Proof.
  intros Hk. unfold open_message.
  assert (∀ p, (∃ t, t ∈ trusted_snapshot n ∧ TrustedPeer_peer_id t = p) → is_Some (pn_trusted_peers n !! p)) as Hin.
  { intros p (t & (q & Hq)%elem_of_snapshot & <-). destruct (Hk q t Hq) as [-> _]. by eexists. }
  assert (∀ r : result PeerEnvelopeMessage PeerEnvelopeError, ∀ pm, ok r = Some pm → r = Ok pm) as Hok
    by (intros [?|?|] ?; by intros [= ->]).
  assert ((λ m, MkPeerMailboxMessage (pm_sender m) (pm_signed_by m) (pm_payload m) via None None)
            <$> PeerEnvelope_open_bytes_or_drop b (pn_identity n) ChMailbox name (trusted_snapshot n) = Some m →
          is_Some (pn_trusted_peers n !! pmm_sender m)) as Hpair.
  { intros (pm & Hpm & ->)%fmap_Some. apply Hok in Hpm. unfold PeerEnvelope_open_bytes in Hpm.
    apply rbind_Ok in Hpm as (e & _ & (_ & _ & _ & en & t & key & _ & _ & Ht & Hid & _ & _ & _ & _ & _ & Hs & _)%PeerEnvelope_open_Ok).
    apply Hin. exists t. split; [done |]. by rewrite Hid. }
  destruct a; [exact Hpair | exact Hpair |]. clear Hpair Hok.
  intros (gm & Hgm & ->)%fmap_Some. unfold open_group_envelope_or_drop, open_group_envelope in Hgm.
  destruct (ok (GroupEnvelope_from_bytes b)) as [e|]; [| done].
  destruct (GroupEnvelope_open _ _ _ _ _) as [gm'|?|] eqn:E; [| done ..]. injection Hgm as ->.
  apply GroupEnvelope_open_sender in E as (t & Ht & Hid). apply Hin. by exists t.
Qed.
End PeerParties.

(** ** Lemmas: the simulation *)

Section PeerSimulation.
Context `{PR : Primitives} `{PL : !PrimitivesLaws} `{UL : UrlLib} `{IL : IrohLib} `{HL : !HttpLib} `{AX : Axum}.
Context {B64 : Base64} `{WR : !Wire} `{WL : !WireLaws} {LC : LruCache bytes}.
Context {MPE : Msgpack PeerEnvelopeWire} {MPEL : MsgpackLaws PeerEnvelopeWire}.
Context {MPG : Msgpack GroupEnvelopeWire} {S : Type} {ST : StateStore S}.
Notation PeerNamespace := (PeerNamespace (S:=S) (T:=HttpTransport)).
Notation peer_system := (peer_system (S:=S)).
Notation peer_system_op := (peer_system_op (S:=S)).

Lemma length_address_id a kind name : length (address_id Http a kind name) = 16.
Proof.
  unfold address_id, peer_transport_id, peer_address_id.
  destruct (hkdf_sha256_Ok (E:=unit) (address_key a) [] (address_info a kind name) 32) as (out & -> & Hl); [lia |].
  cbn [rbind]. rewrite length_take, Hl. reflexivity.
Qed.

Lemma peer_send_eq nonces run name dest payload (n : PeerNamespace) :
  peer_send nonces run name dest payload n
  = let! b := message_bytes nonces name dest payload n in send_bytes run name (message_addrs dest) b n.
Proof.
  destruct dest as [cards|group ks]; cbn [peer_send message_bytes message_addrs]; unfold send_to_peers, send_to_group.
  - by destruct (PeerEnvelope_seal _ _ _ _ _ _).
  - by destruct (seal_group_envelope _ _ _ _ _ _).
Qed.

Lemma message_addrs_some nonces name dest payload (n : PeerNamespace) b :
  message_bytes nonces name dest payload n = Ok b → message_addrs dest ≠ [].
Proof.
  destruct dest as [cards|group ks]; cbn [message_bytes message_addrs]; [| done].
  intros (e & (_ & Hc & _)%map_err_Ok%PeerEnvelope_seal_Ok & _)%rbind_Ok. by destruct cards.
Qed.

(** The tasks of a namespace with one transport. *)
Lemma plain_tasks t addrs kind name (n : PeerNamespace) :
  pn_transports n = [MkTransportEndpoint Http t] →
  map plain (tasks_for addrs kind name n)
  = (λ a, MkTask (MkTransportEndpoint Http t) (address_id Http a kind name)) <$> addrs.
Proof.
  intros Ht. unfold tasks_for. rewrite Ht. cbn [map concat te_kind]. by rewrite app_nil_r, map_map.
Qed.

Section Run.
Context (rc : RelayConfig) (t0 : N) (name chan : bytes).
Hypothesis Hcap : 1 ≤ rc_mailbox_capacity rc.
Hypothesis chan_length : length chan = 16.
Notation cap := (rc_mailbox_capacity rc).

(** The channel of frames is the receiver's mailbox at the relay. *)
Definition carries (st : relay_state) (ch : channel bytes) : Prop :=
  holds rc t0 chan st (ch_queue ch).*1 ∧ Forall (λ p, p.2 = Some p.1) (ch_queue ch).

Lemma carries_push mo id frame st ch :
  moment_ok rc t0 mo → carries st ch →
  carries (pushed rc mo id frame st)
    (channel_step cap DEFAULT_CAPACITY (if decide (id = chan) then ChPush frame (Some frame) else ChIdle) ch).2.
Proof.
  intros Hmo [Hq Hc]. pose proof (holds_push rc t0 chan mo id frame _ _ Hmo Hq) as Hh.
  destruct (decide (id = chan)) as [->|Hne]; cbn [channel_step snd]; [| by split].
  rewrite length_fmap in Hh. split; cbn [ch_queue].
  - by rewrite fmap_drop_snoc.
  - apply Forall_app. split; [by apply Forall_drop |]. by repeat constructor.
Qed.

(** Pushing forgets nothing that was pulled. *)
Lemma frame_ops_seen b addrs : ∀ ch,
  ch_seen (channel_run cap DEFAULT_CAPACITY (frame_ops chan name b addrs) ch).2 = ch_seen ch.
Proof.
  clear Hcap chan_length. induction addrs as [|a addrs IH]; intros ch; [done |]. unfold frame_ops. rewrite fmap_cons.
  cbn [channel_run]. fold (frame_ops chan name b addrs).
  destruct (decide _); cbn [channel_step];
    match goal with |- context [channel_run _ _ _ ?c] => specialize (IH c) end;
    destruct (channel_run _ _ _ _); exact IH.
Qed.

(** A fan-out of sends posts the frame once per address and every post
    succeeds. *)
Lemma fan_out_sends mo t b addrs : ∀ st ch,
  relay_client rc t → (len b ≤ rc_max_body_bytes rc)%N → moment_ok rc t0 mo → carries st ch →
  ∃ st', fan_out (send_task rc mo b)
           ((λ a, MkTask (MkTransportEndpoint Http t) (address_id Http a ChMailbox name)) <$> addrs) st
         = ((λ _, (Http, Ok tt)) <$> addrs, st')
    ∧ carries st' (channel_run cap DEFAULT_CAPACITY (frame_ops chan name b addrs) ch).2.
Proof.
  induction addrs as [|a addrs IH]; intros st ch Hc Hb Hmo Hcar; [by exists st |].
  set (id := address_id Http a ChMailbox name).
  pose proof (send_task_pushes rc t0 chan Hcap mo t id b st _ Hc (length_address_id _ _ _) Hb Hmo (proj1 Hcar)) as Hsend.
  pose proof (carries_push mo id b st ch Hmo Hcar) as Hcar'.
  unfold frame_ops. rewrite !fmap_cons. cbn [fan_out channel_run tk_endpoint te_kind]. fold id. rewrite Hsend.
  destruct (channel_step _ _ _ ch) as [x ch']. cbn [snd] in Hcar'.
  destruct (IH _ _ Hc Hb Hmo Hcar') as (st' & Hfan & Hcar2). rewrite Hfan.
  exists st'. split; [done |]. unfold frame_ops in Hcar2. by destruct (channel_run _ _ _ ch').
Qed.

Lemma split_results_all {A} (l : list A) :
  split_results ((λ _, (Http, Ok tt)) <$> l) = (map (λ _, Http) l, []).
Proof. induction l as [|x l IH]; [done |]. rewrite fmap_cons. cbn [split_results map]. by rewrite IH. Qed.

Record peer_simulates (s : peer_system) (a : channel bytes * PeerNamespace) : Prop := {
  psim_queue : carries (ps_relay s) a.1;
  psim_receiver : ps_receiver s = a.2;
  psim_seen : ps_dedup s = observe_all (Dedup_new DEFAULT_CAPACITY) (ch_seen a.1);
  psim_node : peer_node rc a.2;
  psim_inbox : inbox_id a.2 name = chan;
  psim_keys : pn_group_keys a.2 = ∅
}.

(** The messages fit the relay's limit, requests happen within one frame
    lifetime, and the receiver joins no group. *)
Definition peer_op_ok (op : peer_system_op) : Prop :=
  match op with
  | PsSend n nonces dest payload mo =>
      peer_reached rc n ∧ moment_ok rc t0 mo
      ∧ ∀ b, message_bytes nonces name dest payload n = Ok b → (len b ≤ rc_max_body_bytes rc)%N
  | PsPost t id frame mo =>
      relay_client rc t ∧ length id = 16 ∧ (len frame ≤ rc_max_body_bytes rc)%N ∧ moment_ok rc t0 mo
  | PsChange (PeerAddKey _ _) => False
  | PsChange _ => True
  | PsRecv mo => moment_ok rc t0 mo
  end.

Definition peer_step_simulates (op : peer_system_op) : Prop := ∀ s a,
  peer_op_ok op → peer_simulates s a →
  let '(o, s') := peer_system_step rc name op s in
  let '(o', a') := peer_spec_step cap chan name op a in
  o = o' ∧ peer_simulates s' a'.

Lemma peer_send_simulates n nonces dest payload mo : peer_step_simulates (PsSend n nonces dest payload mo).
Proof.
  intros s [ch rcv] (Hn & Hmo & Hb) [Hq Hr Hd Hnode Hin Hk]. cbn [fst snd] in *.
  apply peer_reached_node in Hn as (t & Ht & Hc). cbn [peer_system_step peer_spec_step].
  rewrite peer_send_eq. destruct (message_bytes nonces name dest payload n) as [b|e|] eqn:Eb; cbn [rbind];
    [| by split ..].
  destruct (fan_out_sends mo t b (message_addrs dest) _ _ Hc (Hb b eq_refl) Hmo Hq) as (st' & Hfan & Hcar).
  unfold send_bytes, after_fan, peer_fan. rewrite !peer_tasks_eq. cbn [rbind rmap].
  rewrite (plain_tasks t) by done. rewrite Hfan. cbn [fst snd]. rewrite split_results_all.
  destruct (message_addrs dest) as [|ad addrs] eqn:Ea; [by apply message_addrs_some in Eb |].
  split; [done |]. split; cbn [fst snd ps_relay ps_receiver ps_dedup]; try done. by rewrite frame_ops_seen.
Qed.

Lemma peer_post_simulates t id frame mo : peer_step_simulates (PsPost t id frame mo).
Proof.
  intros s [ch rcv] (Hc & Hl & Hb & Hmo) [Hq Hr Hd Hnode Hin Hk]. cbn [fst snd] in *.
  destruct (post_pushes rc t0 Hcap mo t id frame _ Hc Hl Hb Hmo (holds_lock _ _ _ _ _ (proj1 Hq))) as [Hs Ha].
  cbn [peer_system_step peer_spec_step]. rewrite Hs, Ha. split; [done |].
  pose proof (carries_push mo id frame _ _ Hmo Hq) as Hcar.
  split; cbn [fst snd ps_relay ps_receiver ps_dedup]; try done. rewrite Hd. by destruct (decide (id = chan)).
Qed.

Lemma peer_change_simulates op : peer_step_simulates (PsChange op).
Proof.
  intros s [ch rcv] Hok [Hq Hr Hd Hnode Hin Hk]. cbn [fst snd] in *. cbn [peer_system_step peer_spec_step].
  split; [done |]. destruct (peer_apply_keeps rcv op) as [Hid Htr].
  split; cbn [fst snd ps_relay ps_receiver ps_dedup]; try done.
  - by rewrite Hr.
  - unfold peer_node. by rewrite Htr.
  - unfold inbox_id, mine. by rewrite Hid.
  - destruct op as [t|p|g k|g k]; cbn [peer_apply]; unfold trust_peer, remove_trusted_peer_live, remove_group_key_live.
    + destruct (PeerCard_validate _); [destruct (store_trusted_peer _ _) as [[]] | ..]; done.
    + by destruct (remove_trusted_peer _ _) as [[]].
    + done.
    + destruct (remove_group_key _ _ _) as [[]]; try done. cbn. by rewrite Hk, delete_empty.
Qed.

(** Without group keys the receiver polls its own address alone. *)
Lemma recv_addresses_alone (n : PeerNamespace) : pn_group_keys n = ∅ → recv_addresses n = [mine n].
Proof. intros Hk. unfold recv_addresses, group_ids. by rewrite Hk, map_to_list_empty. Qed.

Lemma peer_recv_simulates mo : peer_step_simulates (PsRecv mo).
Proof.
  intros s [ch rcv] Hmo [[Hq Hc] Hr Hd (t & Ht & Hcl) Hin Hk]. cbn [fst snd] in *.
  cbn [peer_system_step peer_spec_step]. rewrite Hr, Hd. unfold peer_recv, after_fan.
  replace (from_secs DEFAULT_LONG_POLL_SECS =? 0)%N with false by done. cbn [recv_timeout].
  rewrite !peer_tasks_eq, (recv_addresses_alone _ Hk). cbn [rmap rbind]. unfold peer_fan, peer_answers.
  rewrite (plain_tasks t) by done. unfold tasks_for. rewrite Ht. cbn [map concat te_kind app fmap list_fmap fan_out].
  fold (inbox_id rcv name). rewrite Hin.
  pose proof (recv_task_takes rc t0 chan chan_length mo t _ _ Hcl Hmo Hq) as Htake.
  destruct (recv_task _ _ _ _ _) as [r st']. destruct Htake as [Hq' Hres].
  cbn [fst snd tk_endpoint te_kind zip_with pt_address].
  assert (∀ ch', holds rc t0 chan st' (ch_queue ch').*1 → Forall (λ p, p.2 = Some p.1) (ch_queue ch') →
    peer_simulates (MkPeerSystem st' rcv (observe_all (Dedup_new DEFAULT_CAPACITY) (ch_seen ch'))) (ch', rcv)) as Hfin
    by (intros ch' H1 H2; split; cbn [fst snd ps_relay ps_receiver ps_dedup]; try done; by exists t).
  destruct (ch_queue ch) as [|[frame x] q] eqn:Ec; cbn [channel_step]; rewrite Ec;
    cbn [fmap list_fmap fst tail] in Hres, Hq'.
  - assert (peer_recv_round (λ _, rcv) 0 name [(Http, mine rcv, r)] false
              (observe_all (Dedup_new DEFAULT_CAPACITY) (ch_seen ch))
            = (inr (match r with Ok _ => true | _ => false end), observe_all (Dedup_new DEFAULT_CAPACITY) (ch_seen ch)))
      as -> by (destruct r as [[b|]|er|]; [by destruct (Hres b) | done ..]).
    split; [done |]. apply Hfin; by rewrite Ec.
  - rewrite Hres. apply Forall_cons in Hc as [Hx Hc]. cbn [fst snd] in Hx. subst x. cbn [peer_recv_round].
    pose proof (observe_new DEFAULT_CAPACITY (ch_seen ch) frame) as Hdup.
    rewrite (surjective_pairing (observe _ frame)), Hdup, <- observe_all_snoc.
    specialize (Hfin (MkChannel q (ch_seen ch ++ [frame])) Hq' Hc). cbn [ch_seen] in Hfin.
    destruct (decide (digest frame ∈ window DEFAULT_CAPACITY (ch_seen ch))) as [Hw|Hw];
      [rewrite bool_decide_eq_true_2 by done | rewrite bool_decide_eq_false_2 by done].
    + by split.
    + cbn [mbind option_bind]. by destruct (open_message _ _ _ _ _).
Qed.

Lemma peer_system_simulates ops : ∀ s a,
  Forall peer_op_ok ops → peer_simulates s a →
  let '(os, s') := peer_system_run rc name ops s in
  let '(os', a') := peer_spec_run cap chan name ops a in
  os = os' ∧ peer_simulates s' a'.
Proof.
  induction ops as [|op ops IH]; intros s a Hops Hsim; [done |]. apply Forall_cons in Hops as [Hop Hops].
  assert (peer_step_simulates op) as Hstep
    by (destruct op; [apply peer_send_simulates | apply peer_post_simulates | apply peer_change_simulates
                     | apply peer_recv_simulates]).
  specialize (Hstep s a Hop Hsim). cbn [peer_system_run peer_spec_run].
  destruct (peer_system_step _ _ _ _) as [o s']. destruct (peer_spec_step _ _ _ _ _) as [o' a'].
  destruct Hstep as [-> Hsim']. specialize (IH s' a' Hops Hsim').
  destruct (peer_system_run _ _ _ _) as [os s'']. destruct (peer_spec_run _ _ _ _ _) as [os' a''].
  by destruct IH as [-> ?].
Qed.
End Run.
End PeerSimulation.

(** ** Lemmas: delivery *)

Section PeerDelivery.
Context `{PR : Primitives} `{PL : !PrimitivesLaws} `{UL : UrlLib} `{IL : IrohLib} `{HL : !HttpLib} `{AX : Axum}.
Context {B64 : Base64} `{WR : !Wire} `{WL : !WireLaws} {LC : LruCache bytes}.
Context {MPE : Msgpack PeerEnvelopeWire} {MPEL : MsgpackLaws PeerEnvelopeWire}.
Context {MPG : Msgpack GroupEnvelopeWire} {S : Type} {ST : StateStore S}.
Notation PeerNamespace := (PeerNamespace (S:=S) (T:=HttpTransport)).
Notation peer_system_op := (peer_system_op (S:=S)).
Notation peer_system_out := (peer_system_out).

(** A message on its way: the frame, who sealed it and what for. *)
Definition letter : Type := bytes * (PeerIdentity * bytes).

Definition letter_of (name : bytes) (op : peer_system_op) : option letter :=
  match op with
  | PsSend n nonces dest payload _ =>
      match message_bytes nonces name dest payload n with
      | Ok b => Some (b, (pn_identity n, payload))
      | _ => None
      end
  | _ => None
  end.

Definition change_of (op : peer_system_op) : option peer_op :=
  match op with PsChange op => Some op | _ => None end.

Definition is_peer_recv (op : peer_system_op) : bool := match op with PsRecv _ => true | _ => false end.

Definition leads (name chan : bytes) (a : PeerAddress) : Prop := address_id Http a ChMailbox name = chan.

#[export] Instance leads_dec name chan a : Decision (leads name chan a) := decide (_ = _).

(** A send to a list of cards of which exactly one leads to the receiver, or
    a change of the receiver's trust. *)
Definition for_me (name : bytes) (me : PeerIdentity) (chan : bytes) (op : peer_system_op) : Prop :=
  match op with
  | PsSend n nonces (ToPeers cards) payload _ =>
      addresses cards me ∧ (∃ b, message_bytes nonces name (ToPeers cards) payload n = Ok b)
      ∧ length (filter (leads name chan) (message_addrs (ToPeers cards))) = 1
  | PsChange _ => True
  | _ => False
  end.

(** What the receiver makes of a letter under its present trust. *)
Definition delivered (rcv : PeerNamespace) (l : letter) : peer_system_out :=
  PsReceived
    (if decide (is_Some (pn_trusted_peers rcv !! PeerIdentity_peer_id l.2.1))
     then Some (Ok (MkPeerMailboxMessage (PeerIdentity_peer_id l.2.1) (verifying_key (signing l.2.1)) l.2.2 Http None None))
     else None).

(** A trusted entry for a sender holds the sender's keys. *)
Definition genuine (rcv : PeerNamespace) (sender : PeerIdentity) : Prop :=
  ∀ t, pn_trusted_peers rcv !! PeerIdentity_peer_id sender = Some t →
    signing_key (card t) = verifying_key (signing sender) ∧ exchange_key (card t) = x25519_public (exchange sender).

Lemma frame_ops_none cap win chan name b addrs : ∀ ch,
  filter (leads name chan) addrs = [] → (channel_run cap win (frame_ops chan name b addrs) ch).2 = ch.
Proof.
  induction addrs as [|a addrs IH]; intros ch Hf; [done |]. rewrite filter_cons in Hf.
  destruct (decide (leads name chan a)) as [Hl|Hl]; [done |]. unfold frame_ops. rewrite fmap_cons, decide_False by done.
  cbn [channel_run channel_step]. specialize (IH ch Hf). fold (frame_ops chan name b addrs).
  by destruct (channel_run _ _ _ _).
Qed.

Lemma frame_ops_one cap win chan name b addrs : ∀ ch,
  length (filter (leads name chan) addrs) = 1 →
  (channel_run cap win (frame_ops chan name b addrs) ch).2 = (channel_step cap win (ChPush b (Some b)) ch).2.
Proof.
  induction addrs as [|a addrs IH]; intros ch Hf; [done |]. rewrite filter_cons in Hf.
  unfold frame_ops. rewrite fmap_cons. cbn [channel_run]. fold (frame_ops chan name b addrs).
  destruct (decide (leads name chan a)) as [Hl|Hl].
  - rewrite decide_True by done. injection Hf as Hf%length_zero_iff_nil. cbn [channel_step].
    pose proof (frame_ops_none cap win chan name b addrs
      (MkChannel (drop (Datatypes.S (length (ch_queue ch)) - cap) (ch_queue ch) ++ [(b, Some b)]) (ch_seen ch)) Hf) as Hn.
    by destruct (channel_run _ _ _ _).
  - rewrite decide_False by done. cbn [channel_step]. specialize (IH ch Hf). by destruct (channel_run _ _ _ _).
Qed.

(** Sends that fit fill the channel in order, whatever trust changes. *)
Lemma spec_sends cap name me chan (ops : list peer_system_op) : ∀ q seen rcv,
  Forall (for_me name me chan) ops → length q + length (omap (letter_of name) ops) ≤ cap →
  (peer_spec_run cap chan name ops (MkChannel q seen, rcv)).2
  = (MkChannel (q ++ ((λ l : letter, (l.1, Some l.1)) <$> omap (letter_of name) ops)) seen,
     foldl peer_apply rcv (omap change_of ops)).
Proof.
  induction ops as [|op ops IH]; intros q seen rcv Hops Hlen; [cbn; by rewrite app_nil_r |].
  apply Forall_cons in Hops as [Hop Hops]. cbn [peer_spec_run].
  destruct op as [n nonces [cards|g ks] payload mo| |op|]; try done; cbn [peer_spec_step].
  - destruct Hop as (_ & (b & Hb) & Hone). cbn [omap list_omap] in Hlen |- *. cbn [letter_of change_of] in Hlen |- *.
    rewrite Hb in Hlen |- *. rewrite frame_ops_one by done. cbn [channel_step snd ch_queue ch_seen].
    cbn [length] in Hlen. replace (Datatypes.S (length q) - cap) with 0 by lia. rewrite drop_0.
    specialize (IH (q ++ [(b, Some b)]) seen rcv Hops). rewrite length_app, <- app_assoc in IH. cbn [length] in IH.
    specialize (IH ltac:(lia)). destruct (peer_spec_run _ _ _ _ _). exact IH.
  - specialize (IH q seen (peer_apply rcv op) Hops). cbn [omap list_omap letter_of change_of foldl] in Hlen |- *.
    specialize (IH Hlen). destruct (peer_spec_run _ _ _ _ _). exact IH.
Qed.

(** Rounds hand the letters out in order. *)
Lemma spec_recvs cap name chan rcv (letters : list letter) : ∀ (recvs : list peer_system_op) seen,
  Forall (λ op, is_peer_recv op = true) recvs → length recvs = length letters →
  NoDup (digest <$> seen ++ letters.*1) →
  (peer_spec_run cap chan name recvs (MkChannel ((λ l : letter, (l.1, Some l.1)) <$> letters) seen, rcv)).1
  = (λ l : letter, PsReceived (Ok <$> open_message name Http (mine rcv) l.1 rcv)) <$> letters.
Proof.
  induction letters as [|[b x] letters IH]; intros [|op recvs] seen Hr Hl Hnd; try done.
  apply Forall_cons in Hr as [Hop Hr]. destruct op; try done. injection Hl as Hl.
  rewrite !fmap_cons. cbn [peer_spec_run peer_spec_step channel_step ch_queue ch_seen fst snd].
  rewrite fmap_cons in Hnd. cbn [fst] in Hnd. rewrite decide_False.
  - specialize (IH recvs (seen ++ [b]) Hr Hl). rewrite <- app_assoc in IH. specialize (IH Hnd).
    destruct (peer_spec_run _ _ _ _ _). cbn [fst] in IH |- *. by rewrite IH.
  - intros Hw%window_subset. rewrite fmap_app in Hnd. apply NoDup_app in Hnd as (_ & Hd & _).
    by eapply Hd, list_elem_of_here.
Qed.

(** The receiver opens a letter exactly when it trusts the sender. *)
Lemma open_letter nonces (n rcv : PeerNamespace) name payload cards b :
  message_bytes nonces name (ToPeers cards) payload n = Ok b → addresses cards (pn_identity rcv) →
  table_keyed rcv → genuine rcv (pn_identity n) →
  PsReceived (Ok <$> open_message name Http (mine rcv) b rcv) = delivered rcv (b, (pn_identity n, payload)).
Proof.
  cbn [message_bytes]. intros (e & He%map_err_Ok & Hb%map_err_Ok)%rbind_Ok Haddr Hk Hg.
  unfold delivered. cbn [fst snd]. f_equal. case_decide as Ht.
  - unfold mine. erewrite open_message_pairwise; [done | done | done | done |].
    destruct Ht as [t Ht]. split.
    + exists t. split; [apply elem_of_snapshot; by eexists | by apply (Hk _ _ Ht)].
    + intros u (p & Hp)%elem_of_snapshot Hu. destruct (Hk _ _ Hp) as [Hup Hv]. rewrite Hu in Hup. subst p.
      destruct (Hg u Hp). done.
  - destruct (open_message _ _ _ _ _) as [m|] eqn:Em; [| done]. exfalso. apply Ht.
    pose proof (open_message_trusted _ _ _ _ _ _ Hk Em) as Hm.
    assert (pmm_sender m = PeerIdentity_peer_id (pn_identity n)) as <-; [| done].
    unfold open_message, mine, PeerEnvelope_open_bytes_or_drop, PeerEnvelope_open_bytes in Em.
    rewrite (PeerEnvelope_from_to_bytes _ _ _ _ _ _ _ _ He Hb) in Em. cbn [rbind] in Em.
    destruct (PeerEnvelope_open _ _ _ _ _) as [pm|?|] eqn:Eo; [| done ..]. injection Em as <-.
    apply PeerEnvelope_open_Ok in Eo as (_ & _ & _ & ? & ? & ? & _ & _ & _ & _ & _ & _ & _ & _ & _ & Hs & _).
    apply PeerEnvelope_seal_Ok in He as (_ & _ & Hse & _). cbn. by rewrite Hs, Hse.
Qed.

Lemma letters_delivered name (rcv : PeerNamespace) me chan (ops : list peer_system_op) :
  Forall (for_me name me chan) ops → pn_identity rcv = me → table_keyed rcv →
  Forall (λ l : letter, genuine rcv l.2.1) (omap (letter_of name) ops) →
  (λ l : letter, PsReceived (Ok <$> open_message name Http (mine rcv) l.1 rcv)) <$> omap (letter_of name) ops
  = delivered rcv <$> omap (letter_of name) ops.
Proof.
  intros Hops <- Hk Hg. induction Hops as [|op ops Hop _ IH]; [done |]. cbn [omap list_omap] in Hg |- *.
  destruct op as [n nonces [cards|g ks] payload mo| |op|]; try done; cbn [letter_of] in Hg |- *; [| by apply IH].
  destruct Hop as (Haddr & (b & Hb) & _). rewrite Hb in Hg |- *. apply Forall_cons in Hg as [Hn Hg].
  rewrite !fmap_cons. f_equal; [by eapply open_letter | by apply IH].
Qed.

Lemma foldl_apply_identity ops : ∀ n : PeerNamespace, pn_identity (foldl peer_apply n ops) = pn_identity n.
Proof. induction ops as [|op ops IH]; intros n; [done |]. cbn [foldl]. rewrite IH. apply peer_apply_keeps. Qed.

Lemma peer_reached_apply rc (n : PeerNamespace) ops : peer_reached rc n → peer_reached rc (foldl peer_apply n ops).
Proof. intros (n0 & ops0 & H0 & ->). exists n0, (ops0 ++ ops). by rewrite foldl_app. Qed.

Lemma peer_spec_run_app cap chan name (ops ops' : list peer_system_op) : ∀ a,
  peer_spec_run cap chan name (ops ++ ops') a
  = let '(os, a) := peer_spec_run cap chan name ops a in
    let '(os', a) := peer_spec_run cap chan name ops' a in (os ++ os', a).
Proof.
  induction ops as [|op ops IH]; intros a; cbn [app peer_spec_run].
  - by destruct (peer_spec_run _ _ _ _ _).
  - destruct (peer_spec_step _ _ _ _ _) as [o a1]. rewrite IH.
    destruct (peer_spec_run _ _ _ ops _) as [os a2]. by destruct (peer_spec_run _ _ _ ops' _).
Qed.

Lemma peer_spec_run_length cap chan name (ops : list peer_system_op) : ∀ a,
  length (peer_spec_run cap chan name ops a).1 = length ops.
Proof.
  induction ops as [|op ops IH]; intros a; [done |]. cbn [peer_spec_run].
  destruct (peer_spec_step _ _ _ _ _) as [o a1]. specialize (IH a1). destruct (peer_spec_run _ _ _ _ _). cbn in *. lia.
Qed.

(** A round returns what opened under the receiver's tables. *)
Lemma peer_recv_round_opens (view : nat → PeerNamespace) name done : ∀ i answered d m d',
  peer_recv_round view i name done answered d = (inl m, d') →
  ∃ j via a b, open_message name via a b (view j) = Some m.
Proof.
  induction done as [|[[kind a] r] done IH]; intros i answered d m d'; cbn [peer_recv_round]; [done |].
  destruct r as [[b|]|e|]; [| by intros H%IH ..]. destruct (observe d b) as [[] d1]; [by intros H%IH |].
  destruct (open_message name kind a b (view i)) as [m'|] eqn:E; [| by intros H%IH].
  intros [= <- _]. by exists i, kind, a, b.
Qed.

Lemma peer_apply_without p (n : PeerNamespace) op :
  (∀ t, op = PeerTrust t → TrustedPeer_peer_id t ≠ p) → pn_trusted_peers n !! p = None →
  pn_trusted_peers (peer_apply n op) !! p = None.
Proof.
  intros Ht Hn. destruct op as [t|q|g k|g k]; cbn [peer_apply];
    unfold trust_peer, remove_trusted_peer_live, add_group_key, remove_group_key_live.
  - destruct (PeerCard_validate _); [| done ..]. destruct (store_trusted_peer _ _) as [[]]; [| done ..].
    cbn. rewrite lookup_insert_ne; [done | by apply Ht].
  - destruct (remove_trusted_peer _ _) as [[]]; [| done ..]. cbn. apply lookup_delete_None. by right.
  - by destruct (store_group_key _ _ _) as [[]].
  - by destruct (remove_group_key _ _ _) as [[]].
Qed.

(** Without a peer in the table, no round returns a message of that peer. *)
Lemma run_without rc p name (ops : list peer_system_op) : ∀ st n d,
  table_keyed n → pn_trusted_peers n !! p = None →
  Forall (λ op, ∀ t, op = PsChange (PeerTrust t) → TrustedPeer_peer_id t ≠ p) ops →
  Forall (λ o, ∀ m, o = PsReceived (Some (Ok m)) → pmm_sender m ≠ p)
    (peer_system_run rc name ops (MkPeerSystem st n d)).1.
Proof.
  induction ops as [|op ops IH]; intros st n d Hk Hn Hops; [constructor |]. apply Forall_cons in Hops as [Hop Hops].
  cbn [peer_system_run]. assert (∃ o st' n' d', peer_system_step rc name op (MkPeerSystem st n d) = (o, MkPeerSystem st' n' d')
    ∧ table_keyed n' ∧ pn_trusted_peers n' !! p = None ∧ ∀ m, o = PsReceived (Some (Ok m)) → pmm_sender m ≠ p)
    as (o & st' & n' & d' & -> & Hk' & Hn' & Ho).
  { destruct op as [| |op|mo]; cbn [peer_system_step ps_relay ps_receiver ps_dedup].
    - by eexists _, _, _, _.
    - by eexists _, _, _, _.
    - eexists _, _, _, _. split_and!; [reflexivity | by apply peer_apply_keyed | | done].
      apply peer_apply_without; [| done]. intros t ->. by apply Hop.
    - destruct (peer_recv _ _ _ _ _ _) as [r d'] eqn:E. eexists _, _, _, _. split_and!; [reflexivity | done | done |].
      intros m [= ->]. unfold peer_recv in E. cbn [recv_timeout] in E. rewrite peer_tasks_eq in E.
      destruct (peer_recv_round _ _ _ _ _ _) as [[m'|an] d1] eqn:Er; [| by destruct (_ =? _)%N].
      injection E as -> <-. apply peer_recv_round_opens in Er as (_ & via & a & b & Hm).
      apply open_message_trusted in Hm as [t Ht]; [| done]. intros Hs. by rewrite Hs, Hn in Ht. }
  specialize (IH st' n' d' Hk' Hn' Hops). destruct (peer_system_run _ _ _ _). by constructor.
Qed.
End PeerDelivery.

(** ** Claims *)

Section PeerSystemClaims.
Context `{PR : Primitives} `{PL : !PrimitivesLaws} `{UL : UrlLib} `{IL : IrohLib} `{HL : !HttpLib} `{AX : Axum}.
Context {B64 : Base64} `{WR : !Wire} `{WL : !WireLaws} {LC : LruCache bytes}.
Context {MPE : Msgpack PeerEnvelopeWire} {MPEL : MsgpackLaws PeerEnvelopeWire}.
Context {MPG : Msgpack GroupEnvelopeWire} {S : Type} {ST : StateStore S}.
Notation PeerNamespace := (PeerNamespace (S:=S) (T:=HttpTransport)).
Notation peer_system_op := (peer_system_op (S:=S)).
Notation rid id := (MkRelayId (hex_id id)).

Lemma peer_system_start rc t0 name (rcv : PeerNamespace) m st :
  peer_reached rc rcv → pn_group_keys rcv = ∅ → PeerNamespace_mailbox name = Ok m →
  poisoned (rs_tables st) = false → queue_of (rs_tables st) (rid (inbox_id rcv name)) = [] →
  peer_simulates rc t0 name (inbox_id rcv name) (MkPeerSystem st rcv (mb_dedup m)) (MkChannel [] [], rcv).
Proof.
  unfold PeerNamespace_mailbox. intros Hr Hk (? & _ & [= <-])%rbind_Ok Hp Hq.
  split; cbn [fst snd ps_relay ps_receiver ps_dedup mb_dedup ch_seen]; try done; [| by apply peer_reached_node].
  split; [| constructor]. split; [done | by rewrite Hq | rewrite Hq; constructor].
Qed.

(** C6: from end to end, a peer mailbox over a relay is a bounded channel of
    envelopes beside the receiver's trust table.  Any number of peers send to
    lists of cards or to groups, anybody may post frames to any channel, the
    receiver, which is in no group, trusts and revokes peers, all in any
    order within one frame lifetime: every caller sees exactly what the
    abstract system shows.  A send that cannot be sealed fails alike; every
    other one reports each of its addresses as delivered; a round hands out
    the oldest frame in the receiver's mailbox unless it was pulled recently,
    opened under the trust of that moment. *)
Theorem peer_system_refines_channel (rc : RelayConfig) (t0 : N) (name : bytes) (rcv : PeerNamespace) (m : Mailbox)
    (ops : list peer_system_op) (st : relay_state) :
  peer_reached rc rcv → pn_group_keys rcv = ∅ → PeerNamespace_mailbox name = Ok m → 1 ≤ rc_mailbox_capacity rc →
  Forall (peer_op_ok rc t0 name) ops →
  poisoned (rs_tables st) = false → queue_of (rs_tables st) (rid (inbox_id rcv name)) = [] →
  let '(outs, s) := peer_system_run rc name ops (MkPeerSystem st rcv (mb_dedup m)) in
  let '(outs', (ch, rcv')) :=
    peer_spec_run (rc_mailbox_capacity rc) (inbox_id rcv name) name ops (MkChannel [] [], rcv) in
  outs = outs' ∧ ps_receiver s = rcv'
  ∧ me_body <$> queue_of (rs_tables (ps_relay s)) (rid (inbox_id rcv name)) = (ch_queue ch).*1.
Proof.
  intros Hr Hk Hm Hcap Hops Hp Hq. pose proof (peer_system_start rc t0 name rcv m st Hr Hk Hm Hp Hq) as Hs.
  pose proof (peer_system_simulates rc t0 name _ Hcap (length_address_id _ _ _) ops _ _ Hops Hs) as H.
  destruct (peer_system_run _ _ _ _) as [outs s]. destruct (peer_spec_run _ _ _ _ _) as [outs' [ch rcv']].
  destruct H as [-> [Hqueue Hrcv _ _ _ _]]. split_and!; [done | done |]. apply Hqueue.
Qed.

(** C7: messages of trusted peers arrive, in order, and nobody else's.  When
    peers send no more messages to the receiver's card than the relay keeps,
    in frames with distinct digests, while the receiver trusts and revokes
    peers in between, and the receiver then runs as many rounds, round [i]
    returns exactly message [i], with its payload and the sender's id and
    key, if the receiver trusts the sender by then, and nothing if it does
    not: trust counts when a message is opened, not when it is sent. *)
Theorem peer_system_delivers_trusted (rc : RelayConfig) (t0 : N) (name : bytes) (rcv : PeerNamespace) (m : Mailbox)
    (ops recvs : list peer_system_op) (st : relay_state) :
  peer_reached rc rcv → pn_group_keys rcv = ∅ → PeerNamespace_mailbox name = Ok m → 1 ≤ rc_mailbox_capacity rc →
  Forall (peer_op_ok rc t0 name) (ops ++ recvs) →
  Forall (for_me name (pn_identity rcv) (inbox_id rcv name)) ops →
  Forall (λ op, is_peer_recv op = true) recvs →
  let letters := omap (letter_of name) ops in
  let rcv' := foldl peer_apply rcv (omap change_of ops) in
  length recvs = length letters → length letters ≤ rc_mailbox_capacity rc → NoDup (digest <$> letters.*1) →
  Forall (λ l : letter, genuine rcv' l.2.1) letters →
  poisoned (rs_tables st) = false → queue_of (rs_tables st) (rid (inbox_id rcv name)) = [] →
  drop (length ops) (peer_system_run rc name (ops ++ recvs) (MkPeerSystem st rcv (mb_dedup m))).1
  = delivered rcv' <$> letters.
Proof.
  intros Hr Hk Hm Hcap Hops Hme Hrecv letters rcv' Hlr Hlc Hnd Hgen Hp Hq.
  pose proof (peer_system_start rc t0 name rcv m st Hr Hk Hm Hp Hq) as Hs.
  pose proof (peer_system_simulates rc t0 name _ Hcap (length_address_id _ _ _) _ _ _ Hops Hs) as H.
  rewrite peer_spec_run_app in H.
  pose proof (spec_sends (rc_mailbox_capacity rc) name _ _ ops [] [] rcv Hme Hlc) as Hsp.
  pose proof (peer_spec_run_length (rc_mailbox_capacity rc) (inbox_id rcv name) name ops (MkChannel [] [], rcv)) as Hlen.
  destruct (peer_spec_run _ _ _ ops _) as [os a]. cbn [fst snd app] in Hsp, Hlen. subst a.
  pose proof (spec_recvs (rc_mailbox_capacity rc) name (inbox_id rcv name) rcv' letters recvs [] Hrecv Hlr Hnd) as Hrs.
  unfold letters, rcv' in Hrs. destruct (peer_spec_run _ _ _ recvs _) as [os' a'].
  destruct (peer_system_run _ _ _ _) as [outs s]. destruct H as [-> _]. cbn [fst] in Hrs |- *.
  rewrite drop_app_length' by done. rewrite Hrs. eapply letters_delivered; [done | | | done].
  - apply foldl_apply_identity.
  - by apply peer_reached_keyed with rc, peer_reached_apply.
Qed.

(** C8: a revoked peer is not heard again.  Once removing a peer from the
    trust table has succeeded, no round ever returns a message of that peer,
    pairwise or through any group, whatever is still in the relay, whatever
    anybody posts, whatever other peers and keys the receiver adds or
    removes, until the receiver trusts that peer again. *)
Theorem peer_revocation_effective (rc : RelayConfig) (name : bytes) (rcv : PeerNamespace) (p : PeerId)
    (ops : list peer_system_op) (st : relay_state) (d : Dedup) :
  peer_reached rc rcv → (remove_trusted_peer_live p rcv).1 = Ok tt →
  Forall (λ op, ∀ t, op = PsChange (PeerTrust t) → TrustedPeer_peer_id t ≠ p) ops →
  Forall (λ o, ∀ m, o = PsReceived (Some (Ok m)) → pmm_sender m ≠ p)
    (peer_system_run rc name ops (MkPeerSystem st (remove_trusted_peer_live p rcv).2 d)).1.
Proof.
  intros Hr Hok Hops. apply peer_reached_keyed in Hr.
  assert (pn_trusted_peers (remove_trusted_peer_live p rcv).2 !! p = None) as Hnone.
  { revert Hok. unfold remove_trusted_peer_live. destruct (remove_trusted_peer p (pn_state rcv)) as [[]]; [| done ..].
    intros _. apply lookup_delete_eq. }
  pose proof (peer_apply_keyed rcv (PeerRemove p) Hr) as Hk. cbn [peer_apply] in Hk.
  by apply run_without.
Qed.
End PeerSystemClaims.

(** ** Witnesses *)

Module PeerSystemWitness.
Import Toy ListLru PeerEnvelopeWitness GroupEnvelopeWitness IrohWitness RelayWitness HttpRelayWitness SystemWitness.
#[local] Existing Instance ToyUrl.toy_url.
#[local] Existing Instance toy_iroh.
#[local] Existing Instance peer_msgpack.
#[local] Existing Instance peer_msgpack_laws.
#[local] Existing Instance group_msgpack.
#[local] Existing Instance group_msgpack_laws.
#[local] Existing Instance toy_base64.
#[local] Existing Instance toy_http.
#[local] Existing Instance toy_wire.
#[local] Existing Instance toy_wire_laws.
Notation ns_type := (PeerNamespace (S:=InMemoryInner) (T:=HttpTransport)).

Definition carol : PeerIdentity := PeerIdentity_generate (key_bytes x0b) (key_bytes x0c).

Definition peer_config (trusted : list TrustedPeer) (keys : list (GroupId * GroupKey))
    : PeerConfig (S:=InMemoryInner) (T:=HttpTransport) :=
  MkPeerConfig Inner_default trusted keys (Some http_config) None None [].

Definition peer_builders : PeerBuilders (T:=HttpTransport) :=
  MkPeerBuilders (HttpTransport_new (Ok tt)) (λ _ _, Err TransportError_Unsupported) client (replicate 32 x07) easy_lib.

Definition open_peer (me : PeerIdentity) (trusted : list TrustedPeer) (keys : list (GroupId * GroupKey)) : ns_type :=
  match (PeerNamespace_open peer_builders me (peer_config trusted keys)).1 with
  | Ok n => n
  | _ => MkPeerNamespace me Inner_default ∅ ∅ [] None
  end.

Definition card_of (me : PeerIdentity) : TrustedPeer := TrustedPeer_new (PeerIdentity_card me).

Definition alice_ns : ns_type := open_peer alice [] [].
Definition carol_ns : ns_type := open_peer carol [] [].
Definition bob_ns : ns_type := open_peer bob [card_of alice; card_of carol] [].

Lemma open_peer_reached me trusted keys n :
  PeerNamespace_open peer_builders me (peer_config trusted keys) = (Ok n, pn_state n) → pn_identity n = me →
  peer_reached server n.
Proof.
  intros Ho <-. exists n, []. split; [| done].
  exists peer_builders, (Ok tt), (peer_config trusted keys), http_config, (pn_state n). split_and!; try done. by right.
Qed.

Lemma alice_reached : peer_reached server alice_ns.
Proof. apply (open_peer_reached alice [] []); vm_refl. Qed.

Lemma carol_reached : peer_reached server carol_ns.
Proof. apply (open_peer_reached carol [] []); vm_refl. Qed.

Lemma bob_reached : peer_reached server bob_ns.
Proof. apply (open_peer_reached bob [card_of alice; card_of carol] []); vm_refl. Qed.

Notation op_type := (peer_system_op (S:=InMemoryInner)).
Definition from_alice : op_type := PsSend alice_ns toy_nonces (ToPeers [PeerIdentity_card bob]) (lit "hi") (at_moment 10).
Definition from_carol : op_type := PsSend carol_ns toy_nonces (ToPeers [PeerIdentity_card bob]) (lit "ho") (at_moment 11).
Definition revoke_carol : op_type := PsChange (PeerRemove (PeerIdentity_peer_id carol)).
Definition noise : op_type := PsPost client (inbox_id bob_ns (lit "a/b")) (lit "noise") (at_moment 12).
Definition poll (now : N) : op_type := PsRecv (at_moment now).

Definition handle : Mailbox := MkMailbox (lit "a/b") (Dedup_new DEFAULT_CAPACITY).
Definition msg (sender : PeerIdentity) (payload : bytes) : PeerMailboxMessage :=
  MkPeerMailboxMessage (PeerIdentity_peer_id sender) (verifying_key (signing sender)) payload Http None None.

Lemma send_to_bob_ok (n : ns_type) payload now :
  peer_reached server n → (now < 1000)%N →
  match message_bytes toy_nonces (lit "a/b") (ToPeers [PeerIdentity_card bob]) payload n with
  | Ok b => (len b <=? 4096)%N
  | _ => true
  end = true →
  peer_op_ok server 0 (lit "a/b")
    (PsSend n toy_nonces (ToPeers [PeerIdentity_card bob]) payload (at_moment now)).
Proof.
  intros Hn Hnow Hb. split_and!; [done | by apply at_moment_ok |]. intros b Eb. rewrite Eb in Hb. by apply N.leb_le.
Qed.

Lemma from_alice_ok : peer_op_ok server 0 (lit "a/b") from_alice.
Proof. apply send_to_bob_ok; [exact alice_reached | lia | vm_refl]. Qed.

Lemma from_carol_ok : peer_op_ok server 0 (lit "a/b") from_carol.
Proof. apply send_to_bob_ok; [exact carol_reached | lia | vm_refl]. Qed.

Lemma noise_ok : peer_op_ok server 0 (lit "a/b") noise.
Proof.
  split; [split; [reflexivity | right; reflexivity] |]. split; [vm_refl |].
  split; [intros H; vm_compute in H; discriminate H | by apply at_moment_ok].
Qed.

Lemma poll_ok now : (now < 1000)%N → peer_op_ok server 0 (lit "a/b") (poll now).
Proof. apply at_moment_ok. Qed.

(** Alice's message arrives, Carol's is polled after she was revoked, and a
    foreign frame is skipped. *)
Lemma peer_system_refines_channel_witness :
  (peer_system_run server (lit "a/b") [from_alice; from_carol; poll 20; noise; revoke_carol; poll 21; poll 22]
     (MkPeerSystem start bob_ns (mb_dedup handle))).1
  = [PsSent (Ok (MkPeerSendReport [Http] [])); PsSent (Ok (MkPeerSendReport [Http] []));
     PsReceived (Some (Ok (msg alice (lit "hi")))); PsPosted (Ok tt); PsChanged; PsReceived None; PsReceived None].
Proof.
  pose proof (peer_system_refines_channel server 0 (lit "a/b") bob_ns handle
    [from_alice; from_carol; poll 20; noise; revoke_carol; poll 21; poll 22] start bob_reached ltac:(vm_refl)
    ltac:(vm_refl) ltac:(cbn; lia)
    (Forall_cons_2 _ _ _ from_alice_ok (Forall_cons_2 _ _ _ from_carol_ok (Forall_cons_2 _ _ _ (poll_ok 20 ltac:(lia))
      (Forall_cons_2 _ _ _ noise_ok (Forall_cons_2 _ revoke_carol _ I (Forall_cons_2 _ _ _ (poll_ok 21 ltac:(lia))
        (Forall_cons_2 _ _ _ (poll_ok 22 ltac:(lia)) (Forall_nil_2 _))))))))
    eq_refl ltac:(vm_refl)) as H. revert H.
  destruct (peer_system_run _ _ _ _) as [outs s]. destruct (peer_spec_run _ _ _ _ _) as [outs' [ch rcv']] eqn:E.
  assert (outs' = [PsSent (Ok (MkPeerSendReport [Http] [])); PsSent (Ok (MkPeerSendReport [Http] []));
     PsReceived (Some (Ok (msg alice (lit "hi")))); PsPosted (Ok tt); PsChanged; PsReceived None; PsReceived None]) as ->.
  { change outs' with (outs', (ch, rcv')).1. rewrite <- E. vm_refl. }
  intros H. exact (proj1 H).
Defined.

(** The members of a list of cards that lead to Bob. *)
Lemma to_bob (n : ns_type) payload now :
  match message_bytes toy_nonces (lit "a/b") (ToPeers [PeerIdentity_card bob]) payload n with
  | Ok _ => true
  | _ => false
  end = true →
  for_me (lit "a/b") (pn_identity bob_ns) (inbox_id bob_ns (lit "a/b"))
    (PsSend n toy_nonces (ToPeers [PeerIdentity_card bob]) payload (at_moment now)).
Proof.
  intros Hb. split; [exact toy_addresses |]. split; [| vm_refl].
  destruct (message_bytes _ _ _ _ _) as [b|?|]; [by exists b | done ..].
Qed.

Definition genuine_card (n : ns_type) (sender : PeerIdentity) : bool :=
  match pn_trusted_peers n !! PeerIdentity_peer_id sender with
  | Some t => bool_decide (signing_key (card t) = verifying_key (signing sender))
              && bool_decide (exchange_key (card t) = x25519_public (exchange sender))
  | None => true
  end.

Lemma all_genuine (n : ns_type) (ls : list letter) :
  forallb (λ l : letter, genuine_card n l.2.1) ls = true → Forall (λ l : letter, genuine n l.2.1) ls.
Proof.
  induction ls as [|l ls IH]; cbn [forallb]; [constructor |]. intros [H Hs]%andb_prop.
  constructor; [| by apply IH]. intros t Ht. unfold genuine_card in H. rewrite Ht in H.
  by apply andb_prop in H as [?%bool_decide_eq_true ?%bool_decide_eq_true].
Qed.

(** Two messages, one sender revoked while they are in the relay. *)
Lemma peer_system_delivers_trusted_witness :
  drop 3 (peer_system_run server (lit "a/b") ([from_alice; from_carol; revoke_carol] ++ [poll 20; poll 21])
     (MkPeerSystem start bob_ns (mb_dedup handle))).1
  = [PsReceived (Some (Ok (msg alice (lit "hi")))); PsReceived None].
Proof.
  etransitivity; [exact (peer_system_delivers_trusted server 0 (lit "a/b") bob_ns handle [from_alice; from_carol; revoke_carol]
    [poll 20; poll 21] start bob_reached ltac:(vm_refl) ltac:(vm_refl) ltac:(cbn; lia)
    (Forall_cons_2 _ _ _ from_alice_ok (Forall_cons_2 _ _ _ from_carol_ok (Forall_cons_2 _ revoke_carol _ I
      (Forall_cons_2 _ _ _ (poll_ok 20 ltac:(lia)) (Forall_cons_2 _ _ _ (poll_ok 21 ltac:(lia)) (Forall_nil_2 _))))))
    (Forall_cons_2 _ _ _ (to_bob alice_ns (lit "hi") 10 ltac:(vm_refl))
      (Forall_cons_2 _ _ _ (to_bob carol_ns (lit "ho") 11 ltac:(vm_refl)) (Forall_cons_2 _ revoke_carol _ I (Forall_nil_2 _))))
    (Forall_cons_2 _ (poll 20) _ eq_refl (Forall_cons_2 _ (poll 21) _ eq_refl (Forall_nil_2 _)))
    ltac:(vm_refl) ltac:(apply Nat.leb_le; vm_refl) ltac:(apply (bool_decide_eq_true_1 _); vm_refl)
    ltac:(apply all_genuine; vm_refl) eq_refl ltac:(vm_refl)) |].
  vm_refl.
Defined.

(** Alice's message is in the relay when Bob revokes her. *)
Lemma peer_revocation_effective_witness :
  Forall (λ o, ∀ m, o = PsReceived (Some (Ok m)) → pmm_sender m ≠ PeerIdentity_peer_id alice)
    (peer_system_run server (lit "a/b") [from_alice; from_carol; poll 20; poll 21]
       (MkPeerSystem start (remove_trusted_peer_live (PeerIdentity_peer_id alice) bob_ns).2 (mb_dedup handle))).1.
Proof.
  apply (peer_revocation_effective server (lit "a/b") bob_ns (PeerIdentity_peer_id alice)
    [from_alice; from_carol; poll 20; poll 21] start (mb_dedup handle) bob_reached).
  - vm_refl.
  - repeat constructor; intros t Ht; discriminate Ht.
Defined.

(** ** Groups over a relay *)

(** A relay with a larger limit, for the longer frames of a group. *)
Definition team_relay : RelayConfig :=
  MkRelayConfig DEFAULT_LISTEN (Some (basic_auth_text toy_auth)) None None None 65536 (from_secs 30) 2 1000 1000.

Definition team_alice : ns_type := open_peer alice [] [(team, team_key)].
Definition team_bob : ns_type := open_peer bob [card_of alice] [(team, team_key)].
Definition team_carol : ns_type := open_peer carol [card_of alice] [(team, team_key)].

Definition to_team : op_type := PsSend team_alice toy_nonces (ToGroup team [gk_id team_key]) (lit "all") (at_moment 10).
Definition team_msg : PeerMailboxMessage :=
  MkPeerMailboxMessage (PeerIdentity_peer_id alice) (verifying_key (signing alice)) (lit "all") Http (Some team)
    (Some (gk_id team_key)).

(** All members of a group poll one mailbox, and the relay hands every frame
    out once: a group message reaches the first member that polls and no
    other. *)
Lemma group_message_reaches_one :
  let '(os, s) := peer_system_run team_relay (lit "a/b") [to_team; poll 20]
                    (MkPeerSystem start team_bob (mb_dedup handle)) in
  os = [PsSent (Ok (MkPeerSendReport [Http] [])); PsReceived (Some (Ok team_msg))]
  ∧ (peer_system_run team_relay (lit "a/b") [poll 21; poll 22]
       (MkPeerSystem (ps_relay s) team_carol (mb_dedup handle))).1 = [PsReceived None; PsReceived None].
Proof.
  destruct (peer_system_run _ _ _ _) as [os s] eqn:E.
  assert (os = (os, s).1) as Ho by done. assert (s = (os, s).2) as Hs by done. rewrite <- E in Ho, Hs.
  clear E. rewrite Hs, Ho. clear Ho Hs. split; vm_refl.
Qed.

(** A round polls every address of the receiver at once and returns the
    first message that opens.  The answers to the other requests are dropped
    with the round, although the relay has handed their frames out: the
    second of two waiting messages is lost. *)
Lemma round_drops_other_addresses :
  (peer_system_run team_relay (lit "a/b") [from_alice; to_team; poll 20; poll 21; poll 22]
     (MkPeerSystem start team_bob (mb_dedup handle))).1
  = [PsSent (Ok (MkPeerSendReport [Http] [])); PsSent (Ok (MkPeerSendReport [Http] []));
     PsReceived (Some (Ok (msg alice (lit "hi")))); PsReceived None; PsReceived None].
Proof. vm_refl. Qed.
End PeerSystemWitness.
