(* ===== verification/Surface.v ===== *)
(** * The rest of the public surface

    What the library offers around its components: the handle of the state
    store over any backend, the chain of causes of an error and its text, the
    renderings for logs, which hide secrets, the shorthands of an identity,
    and the start of the relay from its command line. *)

From S2P Require Import Prelude Bytes Crypto Kdf Net Guard Errors Dedup Config Health PeerCard Msgpack State PeerEnvelope GroupEnvelope Coordinator Iroh Namespace PeerNamespace Relay.

(** ** state.rs: the handle

    [Arc<dyn StateStore>] is a backend of some type with its operations. *)

Section Handle.
Context `{PR : Primitives} `{UL : UrlLib} {MP : Msgpack Snapshot}.

Record State : Type := State_custom {
  state_backend : Type;
  state_ops : StateStore state_backend;
  state_value : state_backend
}.

(** An operation that writes leaves the handle on the changed backend. *)
Definition State_with (s : State) (v : state_backend s) : State :=
  State_custom (state_backend s) (state_ops s) v.

Definition State_update {A} (s : State)
    (op : state_backend s → result A StateError * state_backend s) : result A StateError * State :=
  let '(r, v) := op (state_value s) in (r, State_with s v).

Definition State_memory : State := State_custom InMemoryInner InMemoryStateStore Inner_default.

(** [io] are the outcomes of the flushes to come. *)
Definition State_file (mkdir_err read_err : option bytes) (io : nat → FlushIo) (d : Disk) : result State StateError :=
  let! i := FileStateStore_open mkdir_err read_err d in
  Ok (State_custom FileStateStore FileStateStore_store (MkFileStore i d io)).

Definition State_peer_identity (s : State) : result (option PeerIdentity) StateError :=
  peer_identity (StateStore:=state_ops s) (state_value s).

Definition State_store_peer_identity (i : PeerIdentity) (s : State) : result unit StateError * State :=
  State_update s (store_peer_identity (StateStore:=state_ops s) i).

Definition State_trusted_peer (p : PeerId) (s : State) : result (option TrustedPeer) StateError :=
  trusted_peer (StateStore:=state_ops s) p (state_value s).

Definition State_trusted_peers (s : State) : result (list TrustedPeer) StateError :=
  trusted_peers (StateStore:=state_ops s) (state_value s).

Definition State_store_trusted_peer (t : TrustedPeer) (s : State) : result unit StateError * State :=
  State_update s (store_trusted_peer (StateStore:=state_ops s) t).

Definition State_remove_trusted_peer (p : PeerId) (s : State) : result unit StateError * State :=
  State_update s (remove_trusted_peer (StateStore:=state_ops s) p).

Definition State_group_keys (g : GroupId) (s : State) : result (list GroupKey) StateError :=
  group_keys (StateStore:=state_ops s) g (state_value s).

Definition State_store_group_key (g : GroupId) (k : GroupKey) (s : State) : result unit StateError * State :=
  State_update s (store_group_key (StateStore:=state_ops s) g k).

Definition State_remove_group_key (g : GroupId) (k : GroupKeyId) (s : State) : result unit StateError * State :=
  State_update s (remove_group_key (StateStore:=state_ops s) g k).
End Handle.

(** ** Causes of errors *)

(** [&dyn Error]: an error of the library, or the foreign error in a box. *)
Inductive any_error : Type :=
| AnyName (e : NameError)
| AnySeal (e : SealError)
| AnyTransport (e : TransportError)
| AnyState (e : StateError)
| AnyOpen (e : OpenError)
| AnySend (e : SendError)
| AnyRecv (e : RecvError)
| AnySlot (e : SlotError)
| AnyPeerCard (e : PeerCardError)
| AnyPeerEnvelope (e : PeerEnvelopeError)
| AnyGroupEnvelope (e : GroupEnvelopeError)
| AnyPeerSend (e : PeerSendError)
| AnyPeerSlot (e : PeerSlotError)
| AnyTrust (e : TrustError)
| AnyGroupKey (e : GroupKeyError)
| AnyIrohInit (e : IrohInitError)
| AnyForeign (text : bytes).

Definition IrohInitError_display (e : IrohInitError) : bytes :=
  match e with
  | IrohInitError_State err => StateError_display err
  | IrohInitError_Transport err => TransportError_display err
  end.

Definition any_display (e : any_error) : bytes :=
  match e with
  | AnyName e => NameError_display e
  | AnySeal e => SealError_display e
  | AnyTransport e => TransportError_display e
  | AnyState e => StateError_display e
  | AnyOpen e => OpenError_display e
  | AnySend e => SendError_display e
  | AnyRecv e => RecvError_display e
  | AnySlot e => SlotError_display e
  | AnyPeerCard e => PeerCardError_display e
  | AnyPeerEnvelope e => PeerEnvelopeError_display e
  | AnyGroupEnvelope e => GroupEnvelopeError_display e
  | AnyPeerSend e => PeerSendError_display e
  | AnyPeerSlot e => PeerSlotError_display e
  | AnyTrust e => TrustError_display e
  | AnyGroupKey e => GroupKeyError_display e
  | AnyIrohInit e => IrohInitError_display e
  | AnyForeign text => text
  end.

Definition TransportError_source (e : TransportError) : option any_error :=
  match e with TransportError_Other text => Some (AnyForeign text) | _ => None end.

Definition StateError_source (e : StateError) : option any_error :=
  match e with StateError_Backend text => Some (AnyForeign text) | _ => None end.

Definition OpenError_source (e : OpenError) : option any_error :=
  match e with
  | OpenError_TransportInit _ text => Some (AnyForeign text)
  | OpenError_State e => Some (AnyState e)
  | _ => None
  end.

Definition SendError_source (e : SendError) : option any_error :=
  match e with
  | SendError_Sealing e => Some (AnySeal e)
  | SendError_AllTransportsFailed _ => None
  end.

Definition SlotError_source (e : SlotError) : option any_error :=
  match e with
  | SlotError_Sealing e => Some (AnySeal e)
  | SlotError_State e => Some (AnyState e)
  | SlotError_AllTransportsFailed _ => None
  end.

Definition PeerEnvelopeError_source (e : PeerEnvelopeError) : option any_error :=
  match e with
  | PeerEnvelopeError_Name err => Some (AnyName err)
  | PeerEnvelopeError_InvalidRecipient err => Some (AnyPeerCard err)
  | _ => None
  end.

Definition GroupEnvelopeError_source (e : GroupEnvelopeError) : option any_error :=
  match e with GroupEnvelopeError_Name err => Some (AnyName err) | _ => None end.

Definition PeerSendError_source (e : PeerSendError) : option any_error :=
  match e with
  | PeerSendError_PeerEnvelope err => Some (AnyPeerEnvelope err)
  | PeerSendError_GroupEnvelope err => Some (AnyGroupEnvelope err)
  | PeerSendError_AllTransportsFailed _ => None
  end.

Definition PeerSlotError_source (e : PeerSlotError) : option any_error :=
  match e with
  | PeerSlotError_PeerEnvelope err => Some (AnyPeerEnvelope err)
  | PeerSlotError_GroupEnvelope err => Some (AnyGroupEnvelope err)
  | PeerSlotError_State err => Some (AnyState err)
  | PeerSlotError_MsgpackFailed | PeerSlotError_AllTransportsFailed _ => None
  end.

Definition TrustError_source (e : TrustError) : option any_error :=
  match e with
  | TrustError_InvalidPeerCard err => Some (AnyPeerCard err)
  | TrustError_State err => Some (AnyState err)
  end.

Definition GroupKeyError_source (e : GroupKeyError) : option any_error :=
  match e with GroupKeyError_State err => Some (AnyState err) end.

Definition IrohInitError_source (e : IrohInitError) : option any_error :=
  match e with
  | IrohInitError_State err => Some (AnyState err)
  | IrohInitError_Transport err => Some (AnyTransport err)
  end.

Section Causes.
(** The causes of a foreign error are its own. *)
Context (foreign_source : bytes → option bytes).

Definition source (e : any_error) : option any_error :=
  match e with
  | AnyTransport e => TransportError_source e
  | AnyState e => StateError_source e
  | AnyOpen e => OpenError_source e
  | AnySend e => SendError_source e
  | AnySlot e => SlotError_source e
  | AnyPeerEnvelope e => PeerEnvelopeError_source e
  | AnyGroupEnvelope e => GroupEnvelopeError_source e
  | AnyPeerSend e => PeerSendError_source e
  | AnyPeerSlot e => PeerSlotError_source e
  | AnyTrust e => TrustError_source e
  | AnyGroupKey e => GroupKeyError_source e
  | AnyIrohInit e => IrohInitError_source e
  | AnyForeign text => AnyForeign <$> foreign_source text
  | AnyName _ | AnySeal _ | AnyRecv _ | AnyPeerCard _ => None
  end.

(** The library's own part of a chain of causes: up to the first foreign
    error. *)
Definition own (e : any_error) : bool := match e with AnyForeign _ => false | _ => true end.

Fixpoint causes (fuel : nat) (e : any_error) : list any_error :=
  match fuel with
  | O => []
  | S fuel =>
      match (if own e then source e else None) with
      | Some e' => e' :: causes fuel e'
      | None => []
      end
  end.

(** The text of an error of the library ends with the text of its cause: the
    first line of a report already names the root. *)
Lemma source_text_suffix e e' :
  own e = true → source e = Some e' → ∃ prefix, any_display e = prefix ++ any_display e'.
Proof.
  destruct e as [e|e|e|e|e|e|e|e|e|e|e|e|e|e|e|e|text]; try done; intros _; destruct e; try done; intros [= <-];
    cbn [any_display OpenError_display]; first [by eexists [] | by rewrite ?app_assoc; eexists].
Qed.

(** How far a chain of causes can go. *)
Definition rank (e : any_error) : nat :=
  match e with
  | AnyName _ | AnySeal _ | AnyRecv _ | AnyPeerCard _ | AnyForeign _ => 0
  | AnyTransport _ | AnyState _ | AnyPeerEnvelope _ | AnyGroupEnvelope _ => 1
  | _ => 2
  end.

Lemma source_rank e e' : own e = true → source e = Some e' → rank e' < rank e.
Proof.
  destruct e as [e|e|e|e|e|e|e|e|e|e|e|e|e|e|e|e|text]; try done; intros _; destruct e; try done; intros [= <-]; cbn; lia.
Qed.

(** A chain has two causes at most, and more fuel finds no more. *)
Lemma causes_end fuel : ∀ e, rank e ≤ fuel → length (causes fuel e) ≤ rank e ∧ causes (S fuel) e = causes fuel e.
Proof.
  induction fuel as [|fuel IH]; intros e Hr.
  - cbn [causes length]. split; [lia |]. destruct (own e) eqn:Eo; [| done].
    destruct (source e) as [e'|] eqn:E; [| done]. apply source_rank in E; [lia | done].
  - cbn [causes]. destruct (own e) eqn:Eo; [| cbn; split; [lia | done]].
    destruct (source e) as [e'|] eqn:E; [| cbn; split; [lia | done]].
    apply source_rank in E; [| done]. destruct (IH e' ltac:(lia)) as [Hl Hc]. cbn [length].
    split; [lia |]. f_equal. exact Hc.
Qed.
End Causes.

(** ** Renderings for logs *)

(** [debug_struct]: the name and the rendered fields. *)
Fixpoint debug_fields (fields : list (bytes * bytes)) : bytes :=
  match fields with
  | [] => []
  | [(f, v)] => f ++ lit ": " ++ v
  | (f, v) :: rest => f ++ lit ": " ++ v ++ lit ", " ++ debug_fields rest
  end.

Definition debug_struct (name : bytes) (fields : list (bytes * bytes)) : bytes :=
  match fields with
  | [] => name
  | _ => name ++ lit " { " ++ debug_fields fields ++ lit " }"
  end.

(** A quoted string without characters that need an escape. *)
Definition quoted (s : bytes) : bytes := [x22] ++ s ++ [x22].

Definition redacted : bytes := quoted (lit "<redacted>").

Section Renderings.
Context `{PR : Primitives} `{UL : UrlLib}.

Definition PeerId_debug (p : PeerId) : bytes := lit "PeerId(" ++ PeerId_display p ++ lit ")".
Definition GroupId_debug (g : GroupId) : bytes := lit "GroupId(" ++ GroupId_display g ++ lit ")".
Definition GroupKeyId_debug (k : GroupKeyId) : bytes := lit "GroupKeyId(" ++ GroupKeyId_display k ++ lit ")".

Definition GroupKey_debug (k : GroupKey) : bytes :=
  debug_struct (lit "GroupKey") [(lit "id", GroupKeyId_debug (gk_id k)); (lit "secret", redacted)].

Definition PeerIdentity_debug (i : PeerIdentity) : bytes :=
  debug_struct (lit "PeerIdentity")
    [(lit "peer_id", PeerId_debug (PeerIdentity_peer_id i));
     (lit "signing", redacted); (lit "exchange", redacted);
     (lit "iroh_secret",
      match iroh_secret i with Some _ => lit "Some(" ++ redacted ++ lit ")" | None => lit "None" end)].

(** What a log shows of an identity is what its card shows, and whether it
    has an iroh key: identities with the same card and the same answer to
    that question cannot be told apart. *)
Lemma identity_debug_redacts (i j : PeerIdentity) :
  peer_id (PeerIdentity_card i) = peer_id (PeerIdentity_card j) →
  (is_Some (iroh_secret i) ↔ is_Some (iroh_secret j)) → PeerIdentity_debug i = PeerIdentity_debug j.
Proof.
  intros Hid Hs. unfold PeerIdentity_debug. cbn in Hid. unfold PeerIdentity_peer_id. rewrite Hid.
  destruct (iroh_secret i), (iroh_secret j); try done;
    [by destruct (is_Some_None (proj1 Hs ltac:(by eexists))) | by destruct (is_Some_None (proj2 Hs ltac:(by eexists)))].
Qed.

Lemma group_key_debug_redacts (k k' : GroupKey) : gk_id k = gk_id k' → GroupKey_debug k = GroupKey_debug k'.
Proof. unfold GroupKey_debug. by intros ->. Qed.
End Renderings.

(** ** peer.rs: shorthands *)

Section Shorthands.
Context `{PR : Primitives} `{UL : UrlLib} `{IL : IrohLib}.
Context {MPE : Msgpack PeerEnvelopeWire} {MPG : Msgpack GroupEnvelopeWire}.
Context {S : Type} {ST : StateStore S} {T : Type}.

Definition seal_to_peers (nonces : nat → bytes) (me : PeerIdentity) (kind : ChannelKind) (name payload : bytes)
    (recipients : list PeerCard) : result PeerEnvelope PeerEnvelopeError :=
  PeerEnvelope_seal nonces me kind name payload recipients.

Definition seal_to_groups (nonces : nat → bytes) (me : PeerIdentity) (kind : ChannelKind) (name payload : bytes)
    (group_keys : list (GroupId * GroupKey)) : result GroupEnvelope GroupEnvelopeError :=
  GroupEnvelope_seal nonces me kind name payload group_keys.

Definition open_peer_envelope (me : PeerIdentity) (e : PeerEnvelope) (kind : ChannelKind) (name : bytes)
    (trusted : list TrustedPeer) : result PeerEnvelopeMessage PeerEnvelopeError :=
  PeerEnvelope_open e me kind name trusted.

Definition open_peer_envelope_or_drop (me : PeerIdentity) (b : bytes) (kind : ChannelKind) (name : bytes)
    (trusted : list TrustedPeer) : option PeerEnvelopeMessage :=
  PeerEnvelope_open_bytes_or_drop b me kind name trusted.

Definition PeerNamespace_peer_id (n : PeerNamespace (S:=S) (T:=T)) : PeerId := PeerIdentity_peer_id (pn_identity n).
Definition PeerNamespace_card (n : PeerNamespace (S:=S) (T:=T)) : PeerCard := PeerIdentity_card (pn_identity n).
End Shorthands.

(** ** enlace-relay: the start *)

Section Start.
Context {B64 : Base64}.

(** How a relay serves: the address, and the certificate and key it loaded. *)
Record serving : Type := MkServing {
  sv_listen : SocketAddr;
  sv_tls : option (bytes * bytes);
  sv_tables : Tables;
  sv_store : option (gmap bytes bytes)
}.

(** What the operating system and the TLS library answer. *)
Record start_env : Type := MkStartEnv {
  se_auth : option bytes;
  se_clock : nat → N;
  se_db : gmap bytes bytes;
  se_load_pem : bytes → bytes → result unit bytes;
  se_bind : SocketAddr → result unit bytes
}.

(** Why it does not: the command line, the slot store, or one of the steps
    with a context of its own. *)
Inductive start_error : Type :=
| StartConfig (msg : bytes)
| StartStore
| StartContext (context : bytes).

(** [run], up to the point where it serves; [serve] returns only with an
    error of the listener. *)
Definition relay_run (env : start_env) (cli : Cli) : result serving start_error :=
  let! config := map_err StartConfig (from_cli (se_auth env) cli) in
  let! app := map_err (λ _, StartStore) (build_router config (se_clock env) (se_db env)) in
  match rc_cert config, rc_key config with
  | Some cert, Some key =>
      let! _ := map_err (λ _, StartContext (lit "loading rustls certificate and key")) (se_load_pem env cert key) in
      let! _ := map_err (λ _, StartContext (lit "serving TLS relay")) (se_bind env (rc_listen config)) in
      Ok (MkServing (rc_listen config) (Some (cert, key)) app.1 app.2)
  | _, _ =>
      let! _ := map_err (λ _, StartContext (lit "binding relay listener")) (se_bind env (rc_listen config)) in
      Ok (MkServing (rc_listen config) None app.1 app.2)
  end.

(** A relay that was given a certificate or a key never serves in the clear:
    it serves with both of them, on the given address, or not at all. *)
Lemma relay_run_tls (env : start_env) (cli : Cli) (s : serving) :
  relay_run env cli = Ok s →
  sv_listen s = cli_listen cli
  ∧ match sv_tls s with
    | Some (cert, key) => cli_cert cli = Some cert ∧ cli_key cli = Some key ∧ se_load_pem env cert key = Ok tt
    | None => cli_cert cli = None ∧ cli_key cli = None
    end.
Proof.
  unfold relay_run, from_cli. intros (c & Hc%map_err_Ok & H)%rbind_Ok.
  apply rbind_Ok in Hc as (a & _ & Hc). apply rbind_Ok in Hc as (u & Hg%guard_err_Ok & [= <-]).
  apply negb_false_iff, bool_decide_eq_true in Hg. apply rbind_Ok in H as (app & _ & H). cbn [rc_cert rc_key rc_listen] in H.
  destruct (cli_cert cli) as [cert|], (cli_key cli) as [key|].
  - apply rbind_Ok in H as ([] & Hl%map_err_Ok & H). apply rbind_Ok in H as (? & _ & [= <-]). by split_and!.
  - by destruct (is_Some_None (proj1 Hg ltac:(by eexists))).
  - by destruct (is_Some_None (proj2 Hg ltac:(by eexists))).
  - apply rbind_Ok in H as (? & _ & [= <-]). by split_and!.
Qed.
End Start.
