(* ===== verification/Fuzz.v ===== *)
(** * fuzzing.rs: the fuzz entry points

    [open_mailbox] opens arbitrary bytes, or arbitrary bytes it has sealed
    itself, as a mailbox frame; [http_relay_client_response] parses arbitrary
    bytes as a response of the relay, in a textual or a compact form, and
    decodes it.  Their contract is that no input makes the library panic.  The
    entry points discard what they compute; the definitions return it. *)

From S2P Require Import Prelude Bytes Crypto Kdf Net Guard Errors Dedup Config Health PeerCard Msgpack State Coordinator Http.

(** ** Slices *)

(** [slice::split_at]. *)
Definition split_at {E} (mid : nat) (l : bytes) : result (bytes * bytes) E :=
  if mid <=? length l then Ok (take mid l, drop mid l) else Panic.

(** [slice::get(n..)]. *)
Definition get_from (n : nat) (l : bytes) : option bytes := if n <=? length l then Some (drop n l) else None.

(** [slice::split]: the pieces between the bytes that satisfy [p]. *)
Fixpoint split_on (p : byte → bool) (l : bytes) : list bytes :=
  match l with
  | [] => [[]]
  | b :: l =>
      if p b then [] :: split_on p l
      else match split_on p l with
           | piece :: pieces => (b :: piece) :: pieces
           | [] => [[b]]
           end
  end.

(** [iter().position]. *)
Fixpoint position {A} (p : A → bool) (l : list A) : option nat :=
  match l with
  | [] => None
  | a :: l => if p a then Some 0 else S <$> position p l
  end.

(** [slice::windows]. *)
Fixpoint windows (n : nat) (l : bytes) : list bytes :=
  match l with
  | [] => []
  | _ :: l' => if n <=? length l then take n l :: windows n l' else []
  end.

(** [slice::strip_suffix] of one byte. *)
Definition strip_suffix1 (b : byte) (l : bytes) : option bytes :=
  match last l with
  | Some x => if decide (x = b) then Some (take (length l - 1) l) else None
  | None => None
  end.

Definition is_ascii_whitespace (b : byte) : bool :=
  bool_decide (b ∈ [x20; x09; x0a; x0c; x0d]).

Definition CR : byte := x0d.
Definition LF : byte := x0a.
Definition COLON : byte := x3a.

(** The first loop of [trim_ascii], then the second. *)
Fixpoint trim_start (l : bytes) : bytes :=
  match l with
  | [] => []
  | b :: l' => if is_ascii_whitespace b then trim_start l' else l
  end.

Definition trim_ascii (l : bytes) : bytes := reverse (trim_start (reverse (trim_start l))).

(** ** Headers and status codes *)

(** What the [http] crate makes of names, values and codes. *)
Class HeaderLib := {
  header_name_from_bytes : bytes → option bytes;
  header_value_from_bytes : bytes → option bytes;
  header_to_str : bytes → option bytes;
  status_from_u16 : N → option N
}.

(** Visible ASCII and the space. *)
Definition visible_ascii (b : byte) : bool := in_range 32 126 b.

Class HeaderLaws `{HD : HeaderLib} := {
  version_header_name : header_name_from_bytes (lit "x-enlace-version") = Some (lit "x-enlace-version");
  visible_header_value v : Forall (λ b, visible_ascii b = true) v → header_value_from_bytes v = Some v;
  visible_header_str v : Forall (λ b, visible_ascii b = true) v → header_to_str v = Some v;
  status_code_range c : (100 ≤ c ≤ 999)%N → status_from_u16 c = Some c
}.

Definition u16_max : N := 65535.

Section Fuzz.
Context `{PR : Primitives} `{UL : UrlLib} `{HL : !HttpLib} {MP : Msgpack SignedInner} `{HD : HeaderLib}.

(** A [HeaderMap] in insertion order; [get] finds the first value. *)
Definition HeaderMap : Type := list (bytes * bytes).

Definition header_get (name : bytes) (h : HeaderMap) : option bytes :=
  snd <$> find_first (λ p, bool_decide (p.1 = name)) h.

(** The version header the decoder looks at. *)
Definition version_of (h : HeaderMap) : option bytes :=
  header_get (lit "x-enlace-version") h ≫= header_to_str.

Definition parse_status_line (line : bytes) : option N :=
  let line := default line (strip_suffix1 CR line) in
  match List.filter (λ p, negb (bool_decide (p = []))) (split_on is_ascii_whitespace line) with
  | _ :: code :: _ =>
      if utf8_valid code then from_str_radix 10 u16_max code ≫= status_from_u16 else None
  | _ => None
  end.

(** One turn of the header loop. *)
Definition parse_header (h : HeaderMap) (line : bytes) : result HeaderMap unit :=
  let line := default line (strip_suffix1 CR line) in
  match position (λ b, bool_decide (b = COLON)) line with
  | None => Ok h
  | Some colon =>
      let! (name, value) := split_at colon line in
      let! value := ok_or (get_from 1 value) tt in
      match header_name_from_bytes name, header_value_from_bytes (trim_ascii value) with
      | Some name, Some value => Ok (h ++ [(name, value)])
      | _, _ => Ok h
      end
  end.

Definition CRLF2 : bytes := [CR; LF; CR; LF].

(** The operation, status, headers and body; [Err] is [None]. *)
Definition fuzz_response : Type := byte * N * HeaderMap * bytes.

Definition parse_http_response (data : bytes) : result fuzz_response unit :=
  match data with
  | [] => Err tt
  | operation :: response =>
      let! at_ := ok_or (position (λ w, bool_decide (w = CRLF2)) (windows 4 response)) tt in
      let! (head, body) := split_at at_ response in
      let! body := ok_or (get_from 4 body) tt in
      match split_on (λ b, bool_decide (b = LF)) head with
      | [] => Err tt
      | first :: lines =>
          let! status := ok_or (parse_status_line first) tt in
          let! headers := foldl_result parse_header [] (take 32 lines) in
          Ok (operation, status, headers, body)
      end
  end.

Definition parse_compact_response (data : bytes) : result fuzz_response unit :=
  match data with
  | operation :: hi :: lo :: rest =>
      let code := (100 + from_be_bytes [hi; lo] mod 500)%N in
      let! status := ok_or (status_from_u16 code) tt in
      match rest with
      | [] => Ok (operation, status, [], [])
      | version_len :: rest =>
          let version_len := Nat.min (N.to_nat (Byte.to_N version_len)) (length rest) in
          let! (version, body) := split_at version_len rest in
          let headers := match header_value_from_bytes version with
                         | Some value => [(lit "x-enlace-version", value)]
                         | None => []
                         end in
          Ok (operation, status, headers, body)
      end
  | _ => Err tt
  end.

(** What a decoder made of a response: a value or an error. *)
Inductive fuzz_outcome : Type :=
| FuzzNothing
| FuzzEmpty (r : unit + TransportError)
| FuzzRecv (r : option bytes + TransportError)
| FuzzGet (r : option (N * bytes) + TransportError).

(** The result of a call that is dropped by [let _]: a panic is not. *)
Definition returned {A E} (r : result A E) : result (A + E) unit :=
  match r with
  | Ok v => Ok (inl v)
  | Err e => Ok (inr e)
  | Panic => Panic
  end.

Definition fuzz_decode (r : fuzz_response) : result fuzz_outcome unit :=
  let '(operation, status, headers, body) := r in
  match (Byte.to_N operation mod 4)%N with
  | 0%N | 1%N => rmap FuzzEmpty (returned (decode_empty_response status))
  | 2%N => rmap FuzzRecv (returned (decode_mailbox_recv_response status body))
  | _ => rmap FuzzGet (returned (decode_slot_get_response status (version_of headers) body))
  end.

(** [or_else] of the two parsers. *)
Definition parse_response (data : bytes) : result fuzz_response unit :=
  match parse_http_response data with
  | Err _ => parse_compact_response data
  | r => r
  end.

Definition http_relay_client_response (data : bytes) : result fuzz_outcome unit :=
  match parse_response data with
  | Ok r => fuzz_decode r
  | Err _ => Ok FuzzNothing
  | Panic => Panic
  end.

(** ** Opening a mailbox frame *)

Definition FUZZ_SEED : bytes := replicate 32 xa5.
Definition FUZZ_NAME : bytes := lit "fuzz".
Definition FUZZ_MAX_PLAINTEXT_BYTES : N := 65536.

Definition mailbox_aad : bytes := lit "enlace/v1/aead/mailbox/" ++ FUZZ_NAME.

(** The coordinator without transports, keys or a duplicate buffer. *)
Definition fuzz_coordinator : Coordinator (T:=Empty_set) :=
  MkCoordinator FUZZ_SEED [] None [] 0 FUZZ_MAX_PLAINTEXT_BYTES.

(** [Coordinator::open_for_fuzz]. *)
Definition open_for_fuzz (sealed : bytes) : result OpenedEnvelope SealError :=
  Coordinator_open fuzz_coordinator ChMailbox FUZZ_NAME sealed.

(** The outcome of the call to [open_for_fuzz], if there is one; [nonce] is
    the nonce [crypto::seal] draws. *)
Definition open_mailbox (nonce data : bytes) : result (option (result OpenedEnvelope SealError)) unit :=
  match data with
  | [] => Ok (Some (open_for_fuzz data))
  | mode :: bytes =>
      if (N.land (Byte.to_N mode) 1 =? 0)%N then Ok (Some (open_for_fuzz bytes))
      else
        match channel_aead_key FUZZ_SEED ChMailbox FUZZ_NAME with
        | Ok key => let! sealed := seal nonce key mailbox_aad bytes in Ok (Some (open_for_fuzz sealed))
        | Err _ => Ok None
        | Panic => Panic
        end
  end.
End Fuzz.

(** ** Lemmas *)

Lemma position_lt {A} (p : A → bool) l i : position p l = Some i → i < length l.
Proof.
  revert i. induction l as [|a l IH]; intros i H; cbn [position] in H; [done |].
  destruct (p a); [injection H as <-; cbn; lia |].
  destruct (position p l) as [j|]; [| done]. injection H as <-. specialize (IH j eq_refl). cbn. lia.
Qed.

Lemma length_windows n l : length (windows n l) ≤ length l.
Proof. induction l as [|b l IH]; [done |]. cbn [windows]. destruct (n <=? _); cbn [length] in *; lia. Qed.

Lemma windows_room n l i : i < length (windows n l) → i + n ≤ length l.
Proof.
  revert i. induction l as [|b l IH]; intros i Hi; cbn [windows length] in *; [lia |].
  destruct (Nat.leb_spec n (S (length l))); cbn [length] in Hi; [| lia].
  destruct i as [|i]; [lia |]. specialize (IH i). lia.
Qed.

Lemma split_at_Ok {E} mid l : mid ≤ length l → split_at (E:=E) mid l = Ok (take mid l, drop mid l).
Proof. intros H. unfold split_at. by rewrite (proj2 (Nat.leb_le _ _) H). Qed.

Lemma foldl_result_total {A B E} (f : B → A → result B E) b l :
  (∀ b a, f b a ≠ Panic) → foldl_result f b l ≠ Panic.
Proof.
  intros Hf. revert b. induction l as [|a l IH]; intros b; [done |]. cbn [foldl_result].
  specialize (Hf b a). by destruct (f b a); cbn [rbind].
Qed.

Section FuzzLemmas.
Context `{PR : Primitives} `{PL : !PrimitivesLaws} `{UL : UrlLib} `{HL : !HttpLib} {MP : Msgpack SignedInner}.
Context `{HD : HeaderLib}.

Lemma parse_header_total h line : parse_header h line ≠ Panic.
Proof.
  unfold parse_header. set (l := default line _). destruct (position _ l) as [colon|] eqn:E; [| done].
  apply position_lt in E. rewrite split_at_Ok by lia. cbn [rbind]. unfold get_from. rewrite length_drop.
  destruct (1 <=? length l - colon); cbn [ok_or rbind]; [| done].
  destruct (header_name_from_bytes _); [| done]. by destruct (header_value_from_bytes _).
Qed.

Lemma parse_http_response_total data : parse_http_response data ≠ Panic.
Proof.
  destruct data as [|op response]; [done |]. unfold parse_http_response.
  destruct (position _ (windows 4 response)) as [i|] eqn:E; cbn [ok_or rbind]; [| done].
  apply position_lt, windows_room in E. rewrite split_at_Ok by lia. cbn [rbind].
  destruct (get_from 4 _); cbn [ok_or rbind]; [| done].
  destruct (split_on _ _) as [|first lines]; [done |].
  destruct (parse_status_line first); cbn [ok_or rbind]; [| done].
  pose proof (foldl_result_total parse_header [] (take 32 lines) parse_header_total) as Hf.
  by destruct (foldl_result _ _ _).
Qed.

Lemma parse_compact_response_total data : parse_compact_response data ≠ Panic.
Proof.
  destruct data as [|op [|hi [|lo rest]]]; try done. unfold parse_compact_response.
  destruct (status_from_u16 _); cbn [ok_or rbind]; [| done].
  destruct rest as [|version_len rest]; [done |]. by rewrite split_at_Ok by lia.
Qed.

Lemma fuzz_key : ∃ key, channel_aead_key FUZZ_SEED ChMailbox FUZZ_NAME = Ok key.
Proof. destruct (channel_aead_key_Ok FUZZ_SEED ChMailbox FUZZ_NAME) as (k & Hk & _); [| by exists k]. by apply validate_name_Ok. Qed.

(** What opening makes of a decrypted record. *)
Definition decode_inner (plaintext : bytes) : result OpenedEnvelope SealError :=
  let! _ := guard_err (FUZZ_MAX_PLAINTEXT_BYTES <? len plaintext)%N SealError_MsgpackFailed in
  let! inner := of_sum (λ _, SealError_MsgpackFailed) (from_slice plaintext) in
  let! signed_by := verify_inner ChMailbox FUZZ_NAME inner [] in
  Ok (MkOpenedEnvelope (si_payload inner) (si_version inner) signed_by).

Lemma open_for_fuzz_eq key sealed :
  channel_aead_key FUZZ_SEED ChMailbox FUZZ_NAME = Ok key →
  open_for_fuzz sealed = (let! p := map_err SealError_from_crypto (unseal key mailbox_aad sealed) in decode_inner p).
Proof. intros Hk. unfold open_for_fuzz. by rewrite (Coordinator_open_unfold _ _ _ _ key). Qed.

Lemma open_for_fuzz_total sealed : open_for_fuzz sealed ≠ Panic.
Proof. apply Coordinator_open_total. Qed.
End FuzzLemmas.

(** *** A response in its textual form *)

Definition no_cr (l : bytes) : Prop := CR ∉ l.

Lemma windows_skip b l :
  take 4 (b :: l) ≠ CRLF2 → 3 ≤ length l →
  position (λ w, bool_decide (w = CRLF2)) (windows 4 (b :: l))
  = S <$> position (λ w, bool_decide (w = CRLF2)) (windows 4 l).
Proof.
  intros Hb Hl. cbn [windows length]. rewrite (proj2 (Nat.leb_le _ _)) by lia. cbn [position].
  by rewrite bool_decide_eq_false_2.
Qed.

Lemma take_not_cr b l : b ≠ CR → take 4 (b :: l) ≠ CRLF2.
Proof. cbn [take]. unfold CRLF2. congruence. Qed.

Lemma position_blank_line l body :
  no_cr l → position (λ w, bool_decide (w = CRLF2)) (windows 4 (l ++ CRLF2 ++ body)) = Some (length l).
Proof.
  induction l as [|b l IH]; intros Hl.
  - cbn [app CRLF2 windows length Nat.leb take position]. by rewrite bool_decide_eq_true_2.
  - apply not_elem_of_cons in Hl as [Hb Hl]. cbn [app]. rewrite windows_skip, IH; [done | done | by apply take_not_cr |].
    rewrite !length_app. cbn. lia.
Qed.

(** The end of a line that is not the last one is no blank line. *)
Lemma position_blank_later l b r body :
  no_cr l → b ≠ CR → no_cr r →
  position (λ w, bool_decide (w = CRLF2)) (windows 4 (l ++ CR :: LF :: b :: r ++ CRLF2 ++ body))
  = Some (length l + S (S (S (length r)))).
Proof.
  intros Hl Hb Hr. induction l as [|x l IH].
  - cbn [app length Nat.add]. change (b :: r ++ CRLF2 ++ body) with ((b :: r) ++ CRLF2 ++ body).
    assert (no_cr (b :: r)) as Hbr by (apply not_elem_of_cons; by split).
    rewrite windows_skip; [| cbn; unfold CRLF2; congruence | cbn; rewrite !length_app; cbn; lia].
    rewrite windows_skip, position_blank_line; [done | done | by apply take_not_cr | rewrite !length_app; cbn; lia].
  - apply not_elem_of_cons in Hl as [Hx Hl]. cbn [app]. rewrite windows_skip, IH; [done | done | by apply take_not_cr |].
    rewrite !length_app. cbn. rewrite !length_app. cbn. lia.
Qed.

Lemma split_on_no_match p l : Forall (λ b, p b = false) l → split_on p l = [l].
Proof. induction 1 as [|b l Hb _ IH]; [done |]. cbn [split_on]. by rewrite Hb, IH. Qed.

Lemma split_on_one p l b r :
  Forall (λ b, p b = false) l → p b = true → split_on p (l ++ b :: r) = l :: split_on p r.
Proof.
  intros Hl Hb. induction Hl as [|x l Hx _ IH]; cbn [app split_on]; [by rewrite Hb |]. by rewrite Hx, IH.
Qed.

Lemma strip_cr l : strip_suffix1 CR (l ++ [CR]) = Some l.
Proof.
  unfold strip_suffix1. rewrite last_snoc, decide_True by done. rewrite length_app. cbn [length].
  replace (length l + 1 - 1) with (length l) by lia. by rewrite take_app_length.
Qed.

Lemma strip_no_cr l : no_cr l → strip_suffix1 CR l = None.
Proof.
  intros Hl. unfold strip_suffix1. destruct (last l) as [x|] eqn:E; [| done]. rewrite decide_False; [done |].
  intros ->. apply Hl. by apply last_Some_elem_of.
Qed.

Lemma trim_start_none l : Forall (λ b, is_ascii_whitespace b = false) l → trim_start l = l.
Proof. intros []; [done |]. cbn [trim_start]. by rewrite H. Qed.

Lemma trim_ascii_space l : Forall (λ b, is_ascii_whitespace b = false) l → trim_ascii (x20 :: l) = l.
Proof.
  intros Hl. unfold trim_ascii. cbn [trim_start]. rewrite (trim_start_none l Hl), trim_start_none.
  - apply reverse_involutive.
  - by apply Forall_reverse.
Qed.

Lemma forall_digits (P : byte → Prop) n :
  (∀ b, (48 ≤ Byte.to_N b ≤ 57)%N → P b) → Forall P (u64_to_string n).
Proof. intros HP. eapply Forall_impl; [apply dec_digits_digits | exact HP]. Qed.

Lemma not_in_digits b n : (Byte.to_N b < 48)%N ∨ (57 < Byte.to_N b)%N → b ∉ u64_to_string n.
Proof.
  intros Hb Hin. assert (Forall (λ b, (48 ≤ Byte.to_N b ≤ 57)%N) (u64_to_string n)) as Hd by apply dec_digits_digits.
  rewrite Forall_forall in Hd. specialize (Hd b Hin). lia.
Qed.

Lemma digit_not_whitespace b : (48 ≤ Byte.to_N b ≤ 57)%N → is_ascii_whitespace b = false.
Proof.
  intros Hb. apply bool_decide_eq_false. rewrite !elem_of_cons, elem_of_nil.
  intros [->|[->|[->|[->|[->|[]]]]]]; cbn in Hb; lia.
Qed.

Lemma position_app {A} (p : A → bool) l a r :
  Forall (λ x, p x = false) l → p a = true → position p (l ++ a :: r) = Some (length l).
Proof.
  intros Hl Ha. induction Hl as [|x l Hx _ IH]; cbn [app position length]; [by rewrite Ha |]. by rewrite Hx, IH.
Qed.

Section Rendered.
Context `{PR : Primitives} `{UL : UrlLib} `{HL : !HttpLib} {MP : Msgpack SignedInner} `{HD : HeaderLib}.
Context `{HDL : !HeaderLaws}.

(** A response of the relay as HTTP text, after the byte of the operation. *)
Definition status_line (status : N) (reason : bytes) : bytes :=
  lit "HTTP/1.1" ++ x20 :: u64_to_string status ++ x20 :: reason.

Definition version_line (version : N) : bytes := lit "x-enlace-version" ++ COLON :: x20 :: u64_to_string version.

Definition render (operation : byte) (status : N) (reason : bytes) (version : N) (body : bytes) : bytes :=
  operation :: status_line status reason ++ CR :: LF :: version_line version ++ CRLF2 ++ body.

(** Text without control characters. *)
Definition printable (l : bytes) : Prop := Forall (λ b, (32 ≤ Byte.to_N b)%N) l.

Lemma printable_no b l : printable l → (Byte.to_N b < 32)%N → b ∉ l.
Proof. intros Hl Hb Hin. unfold printable in Hl. rewrite Forall_forall in Hl. specialize (Hl b Hin). lia. Qed.

Lemma printable_status_line status reason : printable reason → printable (status_line status reason).
Proof.
  intros Hr. unfold status_line, printable. apply Forall_app. split; [by repeat constructor |].
  constructor; [done |]. apply Forall_app. split; [apply forall_digits; intros; lia | by constructor].
Qed.

Lemma printable_version_line version : printable (version_line version).
Proof.
  unfold version_line, printable. apply Forall_app. split; [by repeat constructor |].
  constructor; [done |]. constructor; [done |]. apply forall_digits. intros. lia.
Qed.

Lemma parse_status_line_rendered status reason :
  (100 ≤ status ≤ 999)%N → parse_status_line (status_line status reason ++ [CR]) = Some status.
Proof.
  intros Hs. unfold parse_status_line. rewrite strip_cr. cbn [default]. unfold id, status_line.
  rewrite split_on_one; [| by repeat constructor | done].
  rewrite split_on_one; [| apply forall_digits, digit_not_whitespace | done].
  cbn [List.filter]. rewrite !bool_decide_eq_false_2 by (done || apply dec_digits_nonnil). cbn [negb].
  rewrite ascii_utf8_valid by (apply forall_digits; intros b Hb; lia).
  rewrite from_str_radix_dec by (unfold u16_max, u64_max; lia). cbn [mbind option_bind]. by apply status_code_range.
Qed.

Lemma parse_header_rendered version h :
  parse_header h (version_line version) = Ok (h ++ [(lit "x-enlace-version", u64_to_string version)]).
Proof.
  unfold parse_header. rewrite strip_no_cr by (apply (printable_no CR); [apply printable_version_line | done]).
  cbn [default]. unfold version_line.
  rewrite position_app; [| by repeat constructor | done].
  rewrite split_at_Ok by (rewrite length_app; lia). cbn [rbind].
  rewrite take_app_length, drop_app_length. cbn [get_from length Nat.leb drop ok_or rbind].
  rewrite trim_ascii_space by (apply forall_digits, digit_not_whitespace).
  rewrite version_header_name, visible_header_value; [done |].
  apply forall_digits. intros b Hb. unfold visible_ascii, in_range. apply andb_true_iff. rewrite !N.leb_le. lia.
Qed.

(** The textual form reads back: the fuzz target decodes exactly the status,
    the version header and the body of a rendered response. *)
Lemma fuzz_reads_rendered operation status reason version body :
  (100 ≤ status ≤ 999)%N → printable reason →
  http_relay_client_response (render operation status reason version body)
  = fuzz_decode (operation, status, [(lit "x-enlace-version", u64_to_string version)], body).
Proof.
  intros Hs Hr. unfold http_relay_client_response, parse_response, parse_http_response, render.
  pose proof (printable_status_line status reason Hr) as Hps. pose proof (printable_version_line version) as Hpv.
  destruct (version_line version) as [|b r] eqn:Hvl; [done |]. pose proof Hpv as [Hb Hpr]%Forall_cons.
  pose proof (position_blank_later (status_line status reason) b r body (printable_no CR _ Hps ltac:(done))
    ltac:(by intros ->) (printable_no CR _ Hpr ltac:(done))) as Hpos. rewrite <- Hvl in Hpv |- *.
  assert (status_line status reason ++ CR :: LF :: version_line version ++ CRLF2 ++ body
          = (status_line status reason ++ CR :: LF :: version_line version) ++ CRLF2 ++ body) as Hsplit
    by (by rewrite <- app_assoc).
  rewrite Hvl. cbn [app]. rewrite Hpos. cbn [ok_or rbind].
  replace (length (status_line status reason) + S (S (S (length r))))
    with (length (status_line status reason ++ CR :: LF :: version_line version))
    by (rewrite length_app, Hvl; cbn [length]; lia).
  change (b :: r ++ CRLF2 ++ body) with ((b :: r) ++ CRLF2 ++ body). rewrite <- Hvl, Hsplit.
  rewrite split_at_Ok by (rewrite (length_app _ (CRLF2 ++ body)); lia). cbn [rbind].
  rewrite take_app_length, drop_app_length. cbn [CRLF2 app get_from length Nat.leb drop ok_or rbind].
  replace (status_line status reason ++ CR :: LF :: version_line version)
    with ((status_line status reason ++ [CR]) ++ LF :: version_line version) by (by rewrite <- app_assoc).
  rewrite split_on_one; [| | done].
  - rewrite split_on_no_match.
    + rewrite parse_status_line_rendered by done. cbn [ok_or rbind take foldl_result].
      by rewrite parse_header_rendered.
    + apply Forall_forall. intros x Hx. apply bool_decide_eq_false. intros ->. by apply (printable_no LF _ Hpv).
  - apply Forall_app. split; [| by repeat constructor]. apply Forall_forall. intros x Hx.
    apply bool_decide_eq_false. intros ->. by apply (printable_no LF _ Hps).
Qed.
End Rendered.

(** ** Claims *)

(** The decoders return on every response. *)
Lemma fuzz_decode_total `{HL : HttpLib} `{HD : HeaderLib} (r : fuzz_response) :
  ∃ o, fuzz_decode r = Ok o ∧ o ≠ FuzzNothing.
Proof.
  destruct r as [[[operation status] headers] body].
  assert (∃ v, returned (decode_empty_response status) = Ok v) as [v1 H1]
    by (unfold decode_empty_response; destruct (_ =? _)%N; by eexists).
  assert (∃ v, returned (decode_mailbox_recv_response status body) = Ok v) as [v2 H2]
    by (unfold decode_mailbox_recv_response; repeat destruct (_ =? _)%N; by eexists).
  assert (∃ v, returned (decode_slot_get_response status (version_of headers) body) = Ok v) as [v3 H3].
  { unfold decode_slot_get_response, http_parse_version. destruct (_ =? _)%N; [| destruct (_ =? _)%N; by eexists].
    destruct (version_of headers ≫= parse_u64); by eexists. }
  unfold fuzz_decode. rewrite H1, H2, H3.
  destruct (Byte.to_N operation mod 4)%N as [|[p|[p|p|]|]]; by eexists.
Qed.

(** C39: no input makes an entry point panic.  An arbitrary response is
    parsed and the decoder that its operation selects returns a value or an
    error, or neither parser reads it and nothing is decoded; opening arbitrary bytes returns a message or
    an error; and when the first byte is odd the frame the target seals passes
    decryption, so that the outcome is what the record decoder and the
    signature check make of the remaining bytes.  Encryption accepts those
    bytes, which the cipher does below 256 GiB. *)
Theorem fuzz_targets_total `{PR : Primitives} `{PL : !PrimitivesLaws} `{UL : UrlLib} `{HL : !HttpLib}
    {MP : Msgpack SignedInner} `{HD : HeaderLib} (nonce data : bytes) :
  length nonce = NONCE_LEN → (∀ key aad, is_Some (aead_encrypt key nonce aad (tail data))) →
  (∃ o, http_relay_client_response data = Ok o ∧ (o = FuzzNothing ↔ parse_response data = Err tt))
  ∧ ∃ r, open_mailbox nonce data = Ok (Some r) ∧ r ≠ Panic
    ∧ match data with
      | mode :: plaintext => N.odd (Byte.to_N mode) = true → r = decode_inner plaintext
      | [] => r = Err SealError_TooShort
      end.
Proof.
  intros Hn He. split.
  - unfold http_relay_client_response. pose proof (parse_http_response_total data) as H1.
    pose proof (parse_compact_response_total data) as H2. unfold parse_response.
    destruct (match parse_http_response data with Err _ => _ | _ => _ end) as [r|[]|] eqn:E.
    + destruct (fuzz_decode_total r) as (o & Ho & Hne). exists o. by split.
    + exists FuzzNothing. by split.
    + by destruct (parse_http_response data).
  - destruct fuzz_key as [key Hk]. destruct data as [|mode plaintext].
    { exists (open_for_fuzz []). split; [done |]. split; [apply open_for_fuzz_total |].
      rewrite (open_for_fuzz_eq key [] Hk). done. }
    unfold open_mailbox. change 1%N with (N.ones 1). rewrite N.land_ones, <- N.bit0_mod, N.bit0_odd.
    destruct (N.odd (Byte.to_N mode)); cbn [N.b2n N.eqb].
    + rewrite Hk. destruct (He key mailbox_aad) as [c Hc]. cbn [tail] in Hc.
      assert (seal (E:=unit) nonce key mailbox_aad plaintext = Ok (nonce ++ c)) as Hs by (unfold seal; by rewrite Hc).
      rewrite Hs. cbn [rbind]. exists (open_for_fuzz (nonce ++ c)).
      split; [done |]. split; [apply open_for_fuzz_total |]. intros _.
      rewrite (open_for_fuzz_eq key _ Hk). by rewrite (unseal_seal _ _ _ _ _ Hn Hs).
    + eexists. split; [done |]. split; [apply open_for_fuzz_total | done].
Qed.

(** ** Witnesses *)

Module FuzzWitness.
Import Toy CoordinatorWitness.
#[local] Existing Instance ToyUrl.toy_url.
#[local] Existing Instance inner_msgpack.

#[local] Instance toy_http : HttpLib := {| url_path _ := lit "/"; status_text := u64_to_string |}.

#[local] Instance toy_headers : HeaderLib := {|
  header_name_from_bytes b := if forallb visible_ascii b then Some b else None;
  header_value_from_bytes b := if forallb visible_ascii b then Some b else None;
  header_to_str b := if forallb visible_ascii b then Some b else None;
  status_from_u16 c := if (100 <=? c)%N && (c <=? 999)%N then Some c else None
|}.

#[local] Instance toy_header_laws : HeaderLaws.
Proof.
  assert (∀ v, Forall (λ b, visible_ascii b = true) v → forallb visible_ascii v = true) as H.
  { intros v Hv. apply forallb_forall. intros b Hb%list_elem_of_In. rewrite Forall_forall in Hv. by apply Hv. }
  split; [vm_refl | | |]; cbn.
  - intros v Hv. by rewrite H.
  - intros v Hv. by rewrite H.
  - intros c [H1 H2]. by rewrite (proj2 (N.leb_le _ _) H1), (proj2 (N.leb_le _ _) H2).
Qed.

(** A record sealed by the target is decoded, and a rendered answer is read. *)
Lemma fuzz_targets_total_witness :
  open_mailbox toy_nonce (x01 :: lit "not a record") = Ok (Some (Err SealError_MsgpackFailed))
  ∧ http_relay_client_response (render x03 200 (lit "OK") 7 (lit "v")) = Ok (FuzzGet (inl (Some (7%N, lit "v")))).
Proof.
  split; [| rewrite fuzz_reads_rendered; [vm_refl | lia | by repeat constructor]].
  destruct (fuzz_targets_total toy_nonce (x01 :: lit "not a record")) as (_ & r & Ho & _ & Hr).
  - reflexivity.
  - intros key aad. cbn [tail]. unfold aead_encrypt, toy_primitives. eauto.
  - rewrite Ho, (Hr eq_refl). vm_refl.
Defined.
End FuzzWitness.
